(* ===== verification/_CoqProject ===== *)
-Q . S2P
Prelude.v
BitMap.v
Bio.v
Tx.v
Chunk.v
RawLog.v
RangeQuery.v
MemTable.v
Compaction.v
BlockAlloc.v
SSTable.v
SSTableSpec.v
LogStore.v
Wal.v
WalSpec.v
LsmTree.v
LsmRuns.v
LsmTables.v
LsmSpec.v
LsmRefine.v
CryptoChain.v
CryptoBlob.v
CryptoLog.v
CryptoLogSpec.v
CryptoLogRun.v
CryptoLogProps.v
Journal.v
JournalSpec.v
TxLogState.v
TxLog.v
TxLogDev.v
TxLogSpec.v
TxLogCommit.v
TxLogInv.v
TxLogProps.v
DiskBio.v
DataBuf.v
ReadCache.v
SwornDisk.v
SwornDiskSpec.v
SwornDiskRead.v
SwornDiskProps.v
SwornDiskDemo.v
