(* ===== verification/Prelude.v ===== *)
(** * A verification of the SwornDisk core ([core/src])

    SwornDisk is a secure virtual disk for enclaves.  It is built in layers, each using the
    ones below: untrusted block I/O (layer 0), encrypted blobs and chains (layer 1), an edit
    journal (layer 2), transactional logs in chunks of a disk (layer 3), a transactional LSM
    tree (layer 4), and the disk (layer 5).  This library models the code of the layers as
    Rocq functions and proves what makes them correct; where the code does not do what it
    says, a theorem shows it.

    ** Conventions

    A Rust computation is a value of [res]: a result, an [Err] with the kind of the crate's
    [Error], or a panic (assertion, index, [unwrap], arithmetic with overflow checks; debug
    build).  State behind [&mut], a lock or an atomic is passed and returned; a lock is taken
    for a whole call.  Numbers ([usize], block ids, keys) are [nat], with [usub] for
    subtractions that may underflow, and [mod] where the source casts to a narrower type; bytes
    are [Z]; a [HashMap] is a [gmap] and what its iteration order may change is left open; a
    [BTreeMap] is a [gmap] read through [bt_iter], in key order.  Crates outside the
    repository ([pod], [postcard], [lru], [bittle], AES-GCM, [Vec] pages) are classes of
    operations, with what they document as a class of laws; an instance of each shows that
    the laws can hold and lets the witnesses run.  Random keys and IVs are arguments.  Loops
    that are not structural take fuel; the theorems give it from the data, and running out
    is a panic, so that no theorem can hold for want of fuel.

    ** Files

    - [Prelude]: outcomes and their monad, checked arithmetic, slices and indices of vectors,
      [BTreeMap] iteration, generic lemmas, tactics ([bind_step], [bool_simpl]).
    - [BitMap] ([util/bitmap.rs]): bits in [u64] words against plain lists of positions.
    - [Bio] ([layers/0-bio]): buffers, block sets, memory disks, block logs and rings.  Laws of
      block sets are a class; a ring is shown to emulate an append-only log.
    - [Tx] ([tx/mod.rs, current.rs]): transactions, their per-TX data and handlers.
    - [Chunk] ([layers/3-log/chunk.rs]): the chunk allocator under interleaved transactions
      refines an atomic set.
    - [RawLog] ([layers/3-log/raw_log.rs]): logs as lists of chunks, with head and tail,
      against sequences of blocks; the store and its edits.
    - [RangeQuery], [MemTable], [Compaction], [SSTable]/[SSTableSpec], [Wal]/[WalSpec]
      ([layers/4-lsm/*]): the parts of the LSM tree.  A memtable is two maps (latest and
      synced); a merge keeps the newest value; a built table scans, answers points and ranges
      like the records it was built from, also when reopened; a write-ahead log collects to the
      records before the last sync.
    - [LogStore]: what layer 4 asks of layer 3, as a class of operations with laws
      (transactions overlay published logs) and an instance in memory.
    - [LsmTree] ([layers/4-lsm/tx_lsm_tree.rs]): the tree itself.  [LsmTables] has the levels of
      tables as one map, [LsmSpec] what compactions do to it on the store, [LsmRefine] the
      invariant of the tree and the theorem that it is a map; [LsmRuns] has runs in which
      recovery loses or revives records.
    - [CryptoChain] ([util/crypto.rs, layers/1-crypto/crypto_chain.rs]), [CryptoBlob]
      ([crypto_blob.rs]): authenticated chains and blobs over an ideal AEAD.
    - [CryptoLog] ([crypto_log.rs]): the Merkle hash tree over a block log, with its append
      buffer.  [CryptoLogSpec] has what a tree over a sequence of blocks is and the building of
      one level; [CryptoLogRun] builds, flushes, searches and reopens; [CryptoLogProps] has the
      runs of a log against the sequence of its blocks, tampering, and two faults.
    - [Journal]/[JournalSpec] ([layers/2-edit]): the edit journal recovers every state it was
      flushed with; crashes inside a compaction.
    - [TxLogState], [TxLog] ([layers/3-log/tx_log.rs]): the tables of the TX log store with their edits, and the store: open logs, lazy
      deletion, the commit handlers and the journal of all three layers, formatting and recovery.  [TxLogDev] and [TxLogSpec] relate
      an open log to the blocks of its raw log, [TxLogCommit] follows a commit, [TxLogInv] has the runs of the store and the journal,
      [TxLogProps] what the store promises and where it fails.
    - [BlockAlloc] ([layers/5-disk/block_alloc.rs]): the block allocator and its logs.
    - [DiskBio] ([bio.rs]), [DataBuf] ([data_buf.rs]), [ReadCache] ([read_cache.rs]): block requests and their queue, the write buffer, and
      the LRU list in two arrays with the cache above it.
    - [SwornDisk] ([sworndisk.rs]): the disk.  [SwornDiskSpec] has the contract with the tree ([BlockTableSpec]) and the array a disk
      stands for, and follows writes and flushes; [SwornDiskRead] follows the reads of several blocks; [SwornDiskProps] has the
      theorems, [SwornDiskDemo] a table that meets the contract and the witnesses.  A call that waits is the value [None].

    ** What the theorems show

    Refinement: [disk_is_array] (the disk answers like an array of blocks, through cache, buffer, flushes and syncs),
    [lsm_refines_map] and [lsm_range_query] (the tree answers like a map, through
    compactions), [chunk_alloc_refines_atomic], [tx_commit_refines], [ring_emulates_log],
    [rawlog_append_read], [memtable_refines_maps], [edit_apply_atomic].  Round trips: [txlog_roundtrip], [txlog_recovered],
    [journal_recovers], [wal_recovers], [sst_scan_roundtrip], [chain_roundtrip], [blob_roundtrip],
    [crypto_log_roundtrip], [rawlog_commit_content], [diff_log_roundtrip].  Equivalence: [replay_equals_live] (what the journal
    replays is what the commits did).  Safety and invariants: [journal_mirrors_store] (in every run the journal has the live
    metadata), [recovery_authentic] (a tampered chain is cut, never misread),
    [crypto_log_authentic] (a tampered log is refused, never misread), [alloc_table_invariant], [read_cache_coherent],
    [chunk_ops_succeed].  Totality: builds and merges
    terminate with a result ([sst_build_total], [compaction_correct]).  Faults of the code: the
    theorems of kind error, bounds and liveness on the disk and those of kind error below it, each a run or a family of runs in
    which the code loses data, panics, waits for ever or answers wrongly.

    The disk is proved against the contract of its table; that the LSM tree answers like a map is [lsm_refines_map] and
    [lsm_range_query], but the tree does not meet the contract in full, since its puts may fail:
    the theorems on the LSM tree speak of runs that return a tree: a put may fail for want of
    room, by a listener, or by the panic of [sst_double_count_panics]; queries are total.
    [disk_is_array] asks for the room that its writes need ([room]): free host blocks, since old blocks are given back only by
    the table, and room in the table.

    ** Bounds

    A table holds at most [sst_fits] records, so that the index fits the 16-bit field of its
    footer; [scan_fuel] and [block_fuel] bound a scan by the bytes of its blocks;
    [do_major_compaction] descends at most the six levels; the loops over buffers are bounded
    by their length.

    ** Not modelled

    The operating-system layers ([os/std], [os/linux], [os/occlum], [os/jinux], and
    [linux/]: kernel bindings and the device-mapper target) only pass calls on to the host or the
    kernel, and so does the ext2 adapter of [sworndisk.rs].  Threads are modelled by the order in which their steps take effect (interleaved
    transactions, the pending job of the LSM tree), not by their memory accesses. *)
From stdpp Require Export prelude list gmap sorting.
From Stdlib Require Export ZArith Lia.

#[global] Set Default Goal Selector "!".
#[global] Arguments Nat.div : simpl never.
#[global] Arguments Nat.modulo : simpl never.

(** ** Errors and outcomes *)

(** [core/src/error.rs]: the error kinds of the crate.  The static message an
    [Error] also carries has no influence on control flow and is dropped. *)
Inductive Errno :=
  | TxAborted | NotFound | InvalidArgs | OutOfMemory | OutOfDisk | IoFailed
  | PermissionDenied | Unsupported | OsSpecUnknown | EncryptFailed
  | DecryptFailed | MacMismatched | NotBlockSizeAligned | TryLockFailed.

#[global] Instance Errno_eq_dec : EqDecision Errno.
Proof. solve_decision. Defined.

(** The outcome of a Rust computation: a value, an [Err] of the crate, or a
    panic (failed assertion, index out of range, [unwrap] of [None],
    arithmetic overflow with overflow checks on). *)
Inductive res (A : Type) : Type :=
  | Ok (a : A)
  | Err (e : Errno)
  | Panic.
Arguments Ok {A} _.
Arguments Err {A} _.
Arguments Panic {A}.

#[global] Instance res_eq_dec {A} `{EqDecision A} : EqDecision (res A).
Proof. solve_decision. Defined.

#[global] Instance res_ret : MRet res := λ A a, Ok a.
#[global] Instance res_bind : MBind res := λ A B f m,
  match m with Ok a => f a | Err e => Err e | Panic => Panic end.
#[global] Instance res_fmap : FMap res := λ A B f m,
  match m with Ok a => Ok (f a) | Err e => Err e | Panic => Panic end.

Lemma bind_Ok {A B} (f : A → res B) (a : A) : mbind f (Ok a) = f a.
Proof. done. Qed.

Lemma bind_inv {A B} (f : A → res B) (x : res A) (y : B) :
  mbind f x = Ok y → ∃ a, x = Ok a ∧ f a = Ok y.
Proof. destruct x as [a| |]; [by exists a|done..]. Qed.

Definition is_ok {A} (r : res A) : bool :=
  match r with Ok _ => true | _ => false end.

(** [assert!] / [debug_assert!]. *)
Definition assert_ (b : bool) : res unit := if b then Ok () else Panic.

(** [Option::unwrap] / [Option::expect]. *)
Definition unwrap {A} (o : option A) : res A :=
  match o with Some a => Ok a | None => Panic end.

(** [Option::ok_or]. *)
Definition ok_or {A} (o : option A) (e : Errno) : res A :=
  match o with Some a => Ok a | None => Err e end.

(** [Result::unwrap]: an [Err] becomes a panic. *)
Definition unwrap_res {A} (r : res A) : res A :=
  match r with Ok a => Ok a | _ => Panic end.

(** ** Machine integers *)

(** [usize] values are [nat]; the width matters where a caller supplies the
    operands, and there the addition is [uadd]. *)
Definition usize_max : N := (2 ^ 64 - 1)%N.

Definition usize_ok (n : nat) : bool := (N.of_nat n <=? usize_max)%N.

(** Addition with overflow checks. *)
Definition uadd (a b : nat) : res nat :=
  if (N.of_nat a + N.of_nat b <=? usize_max)%N then Ok (a + b) else Panic.

(** Subtraction with overflow checks. *)
Definition usub (a b : nat) : res nat :=
  if b <=? a then Ok (a - b) else Panic.

Lemma uadd_ok a b : usize_ok (a + b) = true → uadd a b = Ok (a + b).
Proof. unfold usize_ok, uadd. rewrite Nat2N.inj_add. by intros ->. Qed.

Lemma uadd_inv a b r : uadd a b = Ok r → r = a + b.
Proof. unfold uadd. case_match; congruence. Qed.

Lemma usub_ok a b : b ≤ a → usub a b = Ok (a - b).
Proof. unfold usub. by intros ->%Nat.leb_le. Qed.

Lemma usize_ok_le a b : a ≤ b → usize_ok b = true → usize_ok a = true.
Proof. unfold usize_ok. rewrite !N.leb_le. lia. Qed.

(** [x as u32] and [x as u16]. *)
Definition as_u32 (x : nat) : nat := N.to_nat (N.of_nat x mod 2 ^ 32).
Definition as_u16 (x : nat) : nat := N.to_nat (N.of_nat x mod 2 ^ 16).

Lemma as_u32_small n : (N.of_nat n < 2 ^ 32)%N → as_u32 n = n.
Proof. intros. unfold as_u32. rewrite N.mod_small by done. apply Nat2N.id. Qed.

(** [core/src/util/mod.rs]. *)
Definition align_up (x align : nat) : nat := ((x + align - 1) / align) * align.
Definition align_down (x align : nat) : nat := (x / align) * align.

Lemma align_up_ge x a : 0 < a → x ≤ align_up x a.
Proof.
  intros Ha. unfold align_up.
  pose proof (Nat.div_mod_eq (x + a - 1) a).
  pose proof (Nat.mod_upper_bound (x + a - 1) a). lia.
Qed.

Lemma align_up_lt x a : 0 < a → align_up x a < x + a.
Proof.
  intros Ha. unfold align_up.
  pose proof (Nat.div_mod_eq (x + a - 1) a). lia.
Qed.

Lemma align_up_divide x a : Nat.divide a (align_up x a).
Proof. exists ((x + a - 1) / a). done. Qed.

Lemma align_up_0 a : 0 < a → align_up 0 a = 0.
Proof. intros. unfold align_up. by rewrite Nat.div_small by lia. Qed.

Lemma align_up_id k a : 0 < a → align_up (k * a) a = k * a.
Proof.
  intros. unfold align_up. f_equal.
  symmetry. apply Nat.div_unique with (a - 1); lia.
Qed.

(** [bool_simpl] turns boolean tests of the code into propositions. *)
Ltac bool_simpl :=
  repeat match goal with
  | H : (_ && _) = true |- _ => apply andb_true_iff in H as [? ?]
  | H : (_ || _) = false |- _ => apply orb_false_iff in H as [? ?]
  | H : (_ <? _) = true |- _ => apply Nat.ltb_lt in H
  | H : (_ <? _) = false |- _ => apply Nat.ltb_ge in H
  | H : (_ <=? _) = true |- _ => apply Nat.leb_le in H
  | H : (_ <=? _) = false |- _ => apply Nat.leb_gt in H
  | H : (_ =? _) = true |- _ => apply Nat.eqb_eq in H
  | H : (_ =? _) = false |- _ => apply Nat.eqb_neq in H
  | H : negb _ = true |- _ => apply negb_true_iff in H
  | H : negb _ = false |- _ => apply negb_false_iff in H
  end.

(** ** Vectors and slices *)
Section slices.
Context {A : Type}.
Implicit Types l s : list A.

(** [v[i]]. *)
Definition index l (i : nat) : res A := unwrap (l !! i).

(** [v[i] = x]. *)
Definition index_set l (i : nat) (x : A) : res (list A) :=
  if i <? length l then Ok (<[i:=x]> l) else Panic.

(** [&v[a..b]]. *)
Definition slice l (a b : nat) : res (list A) :=
  if (a <=? b) && (b <=? length l) then Ok (take (b - a) (drop a l)) else Panic.

(** [l] with the elements from [a] on overwritten by [s]. *)
Definition splice l (a : nat) s : list A := take a l ++ s ++ drop (a + length s) l.

(** [v[a..b].copy_from_slice(s)]: panics unless the lengths agree. *)
Definition copy_from_slice l (a b : nat) s : res (list A) :=
  if (a <=? b) && (b <=? length l) && (length s =? b - a)
  then Ok (splice l a s) else Panic.

(** [Vec::resize]. *)
Definition vec_resize l (n : nat) (x : A) : list A :=
  take n l ++ replicate (n - length l) x.

Lemma index_ok l i x : l !! i = Some x → index l i = Ok x.
Proof. unfold index. by intros ->. Qed.

Lemma index_set_ok l i x : i < length l → index_set l i x = Ok (<[i:=x]> l).
Proof. unfold index_set. by intros ->%Nat.ltb_lt. Qed.

Lemma slice_ok l a b :
  a ≤ b → b ≤ length l → slice l a b = Ok (take (b - a) (drop a l)).
Proof. unfold slice. by intros ->%Nat.leb_le ->%Nat.leb_le. Qed.

Lemma slice_inv l a b r :
  slice l a b = Ok r → a ≤ b ∧ b ≤ length l ∧ r = take (b - a) (drop a l).
Proof.
  unfold slice. destruct (a <=? b) eqn:E1, (b <=? length l) eqn:E2; try done.
  apply Nat.leb_le in E1, E2. by intros [= <-].
Qed.

Lemma copy_from_slice_ok l a b s :
  b ≤ length l → length s = b - a → a ≤ b → copy_from_slice l a b s = Ok (splice l a s).
Proof.
  unfold copy_from_slice.
  by intros ->%Nat.leb_le ->%Nat.eqb_eq ->%Nat.leb_le.
Qed.

Lemma vec_resize_length l n x : length (vec_resize l n x) = n.
Proof. unfold vec_resize. rewrite length_app, length_take, length_replicate. lia. Qed.

Lemma vec_resize_grow l n x :
  length l ≤ n → vec_resize l n x = l ++ replicate (n - length l) x.
Proof. intros. unfold vec_resize. by rewrite take_ge. Qed.

Lemma splice_length l a s : a + length s ≤ length l → length (splice l a s) = length l.
Proof. intros. unfold splice. rewrite !length_app, length_take, length_drop. lia. Qed.

(** The part of a vector a splice writes, and the part it leaves alone. *)
Lemma splice_lookup l a s i :
  a + length s ≤ length l →
  splice l a s !! i = if (a <=? i) && (i <? a + length s) then s !! (i - a) else l !! i.
Proof.
  intros Hl. unfold splice. destruct (a <=? i) eqn:E1; bool_simpl.
  - rewrite lookup_app_r by (rewrite length_take; lia).
    rewrite length_take, Nat.min_l by lia.
    destruct (i <? a + length s) eqn:E2; bool_simpl; simpl.
    + by rewrite lookup_app_l by lia.
    + rewrite lookup_app_r, lookup_drop by lia. f_equal. lia.
  - rewrite lookup_app_l by (rewrite length_take; lia). by rewrite lookup_take_lt.
Qed.

Lemma splice_all l s : length s = length l → splice l 0 s = s.
Proof.
  intros Hs. unfold splice. simpl. rewrite drop_ge by lia. by rewrite app_nil_r.
Qed.

Lemma splice_take l a s : a ≤ length l → take a (splice l a s) = take a l.
Proof. intros. unfold splice. rewrite take_app_length' by (rewrite length_take; lia). done. Qed.

Lemma splice_read l a s :
  a ≤ length l → take (length s) (drop a (splice l a s)) = s.
Proof.
  intros. unfold splice. rewrite drop_app_length' by (rewrite length_take; lia).
  by rewrite take_app_length.
Qed.
End slices.

(** Concatenations of pieces of one length. *)
Lemma take_drop_concat {A} (n : nat) (bs : list (list A)) i b tail :
  Forall (λ x, length x = n) bs → bs !! i = Some b → take n (drop (i * n) (concat bs ++ tail)) = b.
Proof.
  intros Hbs Hi. revert i Hi. induction Hbs as [|x bs Hx Hbs IH]; intros [|i] Hi; try done.
  - injection Hi as ->. cbn [concat]. rewrite Nat.mul_0_l, drop_0, <- app_assoc. by apply take_app_length'.
  - cbn [concat]. rewrite <- app_assoc. rewrite drop_app_ge by (simpl; lia).
    replace (S i * n - length x) with (i * n) by (simpl; lia). by apply IH.
Qed.

Lemma length_concat_same {A} (n : nat) (bs : list (list A)) :
  Forall (λ x, length x = n) bs → length (concat bs) = length bs * n.
Proof. induction 1 as [|x bs Hx Hbs IH]; [done|]. cbn [concat length]. rewrite length_app, Hx, IH. lia. Qed.

(** ** Monadic iteration: [for x in l { body }] with early exit on an error. *)
Fixpoint foldM {A S} (f : S → A → res S) (s : S) (l : list A) : res S :=
  match l with
  | [] => Ok s
  | x :: l => match f s x with Ok s' => foldM f s' l | Err e => Err e | Panic => Panic end
  end.

Lemma foldM_app {A S} (f : S → A → res S) s l1 l2 :
  foldM f s (l1 ++ l2) = match foldM f s l1 with
                         | Ok s' => foldM f s' l2 | Err e => Err e | Panic => Panic end.
Proof. revert s. induction l1 as [|x l1 IH]; intros s; simpl; [done|]. by case_match. Qed.

(** Invariant rule for [foldM]: a loop whose body succeeds under an invariant
    on every element succeeds. *)
Lemma foldM_inv {A S} (f : S → A → res S) (I : S → list A → Prop) l s :
  I s l →
  (∀ s x l', I s (x :: l') → ∃ s', f s x = Ok s' ∧ I s' l') →
  ∃ s', foldM f s l = Ok s' ∧ I s' [].
Proof.
  intros Hs Hstep. revert s Hs. induction l as [|x l IH]; intros s Hs; simpl; [eauto|].
  destruct (Hstep _ _ _ Hs) as (s' & -> & Hs'). by apply IH.
Qed.

(** ** Code that mutates a state and may fail: what a method on [&mut self] did before it
    failed stays done. *)
Definition io (S A : Type) : Type := S → res A * S.

#[global] Instance io_ret {S} : MRet (io S) := λ A a s, (Ok a, s).
#[global] Instance io_bind {S} : MBind (io S) := λ A B f m s,
  match m s with (Ok a, s') => f a s' | (Err e, s') => (Err e, s') | (Panic, s') => (Panic, s') end.

Section io.
Context {S : Type}.

Definition io_lift {A} (r : res A) : io S A := λ s, (r, s).
Definition io_get : io S S := λ s, (Ok s, s).
Definition io_put (s' : S) : io S unit := λ _, (Ok (), s').

Lemma io_bind_Ok {A B} (f : A → io S B) (m : io S A) s a s' : m s = (Ok a, s') → mbind f m s = f a s'.
Proof. unfold mbind, io_bind. by intros ->. Qed.

Lemma io_bind_lift {A B} (f : A → io S B) a s : mbind f (io_lift (Ok a)) s = f a s.
Proof. done. Qed.

Lemma io_bind_inv {A B} (f : A → io S B) (m : io S A) s b s'' :
  mbind f m s = (Ok b, s'') → ∃ a s', m s = (Ok a, s') ∧ f a s' = (Ok b, s'').
Proof. unfold mbind, io_bind. destruct (m s) as [[a| |] s']; [|done..]. eauto. Qed.

(** [for x in l { body }] *)
Fixpoint io_fold {A T} (f : T → A → io S T) (t : T) (l : list A) : io S T :=
  match l with
  | [] => mret t
  | x :: l => t' ← f t x; io_fold f t' l
  end.
End io.

(** ** Sorted lists *)
Lemma StronglySorted_lfilter {A} (R : A → A → Prop) (p : A → bool) l :
  StronglySorted R l → StronglySorted R (List.filter p l).
Proof.
  induction 1 as [|x l Hs IH Hx]; simpl; [constructor|]. destruct (p x); [|done].
  constructor; [done|]. rewrite Forall_forall in *. intros y Hy.
  apply Hx, list_elem_of_In. apply list_elem_of_In, filter_In in Hy. tauto.
Qed.

Lemma StronglySorted_seq k n : StronglySorted lt (seq k n).
Proof.
  revert k. induction n as [|n IH]; intros k; simpl; constructor; [apply IH|].
  apply Forall_forall. intros x Hx%elem_of_seq. lia.
Qed.

(** ** Ordered maps: a [BTreeMap] with number keys is a [gmap] iterated in
    increasing order of the keys. *)
Section btree.
Context {V : Type}.
Implicit Types m : gmap nat V.

Definition key_le (x y : nat * V) : Prop := x.1 ≤ y.1.

#[global] Instance key_le_dec : RelDecision key_le.
Proof. intros x y. unfold key_le. apply _. Defined.
#[global] Instance key_le_total : Total key_le.
Proof. intros x y. unfold key_le. lia. Qed.
#[global] Instance key_le_trans : Transitive key_le.
Proof. intros x y z. unfold key_le. lia. Qed.

(** [BTreeMap::iter]. *)
Definition bt_iter m : list (nat * V) := merge_sort key_le (map_to_list m).

(** [BTreeMap::range] over keys that satisfy a test. *)
Definition bt_range m (p : nat → bool) : list (nat * V) :=
  List.filter (λ kv, p kv.1) (bt_iter m).

Lemma bt_iter_perm m : bt_iter m ≡ₚ map_to_list m.
Proof. apply merge_sort_Permutation. Qed.

Lemma elem_of_bt_iter m k v : (k, v) ∈ bt_iter m ↔ m !! k = Some v.
Proof. by rewrite bt_iter_perm, elem_of_map_to_list. Qed.

Lemma elem_of_bt_range m p k v : (k, v) ∈ bt_range m p ↔ m !! k = Some v ∧ p k = true.
Proof. unfold bt_range. by rewrite list_elem_of_In, filter_In, <- list_elem_of_In, elem_of_bt_iter. Qed.

Lemma NoDup_bt_iter m : NoDup (bt_iter m).*1.
Proof. rewrite bt_iter_perm. apply NoDup_fst_map_to_list. Qed.

Lemma bt_iter_sorted m : StronglySorted lt (bt_iter m).*1.
Proof.
  pose proof (NoDup_bt_iter m) as Hnd.
  assert (Hs : StronglySorted key_le (bt_iter m)) by apply (StronglySorted_merge_sort _).
  induction Hs as [|x l Hs IH Hx]; simpl in *; [constructor|].
  apply NoDup_cons in Hnd as [Hni Hnd]. constructor; [by apply IH|].
  apply Forall_forall. intros k Hk. apply list_elem_of_fmap in Hk as (y & -> & Hy).
  rewrite Forall_forall in Hx. specialize (Hx y Hy). unfold key_le in Hx.
  assert (x.1 ≠ y.1); [|lia]. intros Heq. apply Hni. rewrite Heq. by apply list_elem_of_fmap_2.
Qed.

Lemma NoDup_bt_range m p : NoDup (bt_range m p).*1.
Proof.
  unfold bt_range. pose proof (NoDup_bt_iter m) as Hnd. revert Hnd.
  induction (bt_iter m) as [|x l IH]; simpl; [done|]. intros [Hni Hnd]%NoDup_cons.
  destruct (p x.1); [|by apply IH]. simpl. constructor; [|by apply IH].
  intros Hin. apply Hni. apply list_elem_of_fmap in Hin as (y & -> & Hy).
  apply list_elem_of_fmap_2. apply list_elem_of_In in Hy. apply filter_In in Hy as [Hy _].
  by apply list_elem_of_In.
Qed.
End btree.

(** ** Automation *)

(** Steps over a [?] (or a sequencing) whose first part succeeded. *)
Ltac bind_step := repeat (rewrite bind_Ok; cbv beta).

(** Facts that discharge the usual range side conditions. *)
Create HintDb mls discriminated.
#[export] Hint Resolve align_up_ge align_up_lt : mls.

(** [res_simpl] runs the outcome monad on the branches already decided. *)
Ltac res_simpl :=
  repeat (simpl in *;
    match goal with
    | |- context [mbind _ (Ok _)] => progress cbn [mbind res_bind]
    | H : context [mbind _ (Ok _)] |- _ => progress cbn [mbind res_bind] in H
    | H : Ok _ = Ok _ |- _ => injection H as H; subst
    | H : Err _ = Err _ |- _ => injection H as H; subst
    | H : Ok _ = Err _ |- _ => discriminate H
    | H : Err _ = Ok _ |- _ => discriminate H
    | H : Ok _ = Panic |- _ => discriminate H
    | H : Panic = Ok _ |- _ => discriminate H
    | H : Err _ = Panic |- _ => discriminate H
    | H : Panic = Err _ |- _ => discriminate H
    end).

(** Case analysis on the scrutinee of the goal's or a hypothesis' outcome. *)
Ltac res_case :=
  match goal with
  | |- context [match ?r with Ok _ => _ | Err _ => _ | Panic => _ end] =>
      let E := fresh "Hres" in destruct r eqn:E
  | |- context [mbind _ ?r] => let E := fresh "Hres" in destruct r eqn:E
  end; res_simpl.
