(* ===== verification/BitMap.v ===== *)
(** * BitMap: [core/src/util/bitmap.rs]

    A compact array of bits over [Vec<u64>].  The word and slice primitives come
    from the third-party crate [bittle]; they are the class [Bittle], whose
    documented behaviour is the class [BittleSpec].  [BittleZ] implements the
    interface with [Z.testbit], [Z.setbit] and [Z.clearbit], so every operation
    below runs.  The theorems relate each operation to the plain reference
    [ones_from] / [zeros_from]: the increasing list of set (clear) positions. *)
From S2P Require Import Prelude.

(** ** The [bittle] interface *)
Class Bittle := {
  w_test_bit : Z → nat → bool;          (* u64::test_bit *)
  w_clear_bit : Z → nat → Z;            (* u64::clear_bit *)
  w_iter_ones : Z → list nat;           (* u64::iter_ones *)
  s_test_bit : list Z → nat → bool;     (* [u64]::test_bit *)
  s_set_bit : list Z → nat → list Z;    (* [u64]::set_bit *)
  s_clear_bit : list Z → nat → list Z;  (* [u64]::clear_bit *)
  s_iter_ones : list Z → list nat;      (* [u64]::iter_ones *)
  s_iter_zeros : list Z → list nat;     (* [u64]::iter_zeros *)
  s_count_ones : list Z → nat;          (* [u64]::count_ones *)
  s_count_zeros : list Z → nat;         (* [u64]::count_zeros *)
}.

Definition u64_ones : Z := (2 ^ 64 - 1)%Z.

(** What the crate documents: a slice is the concatenation of the bits of its
    words, the iterators list positions in increasing order. *)
Class BittleSpec (B : Bittle) := {
  w_test_zero j : w_test_bit 0 j = false;
  w_test_ones j : j < 64 → w_test_bit u64_ones j = true;
  w_test_clear w j k : j < 64 → k < 64 →
    w_test_bit (w_clear_bit w j) k = if k =? j then false else w_test_bit w k;
  w_iter_ones_spec w : w_iter_ones w = List.filter (w_test_bit w) (seq 0 64);
  s_test_spec ws i :
    s_test_bit ws i = match ws !! (i / 64) with
                      | Some w => w_test_bit w (i mod 64) | None => false end;
  s_set_length ws i : length (s_set_bit ws i) = length ws;
  s_set_test ws i k : i < 64 * length ws →
    s_test_bit (s_set_bit ws i) k = if k =? i then true else s_test_bit ws k;
  s_clear_length ws i : length (s_clear_bit ws i) = length ws;
  s_clear_test ws i k : i < 64 * length ws →
    s_test_bit (s_clear_bit ws i) k = if k =? i then false else s_test_bit ws k;
  s_iter_ones_spec ws :
    s_iter_ones ws = List.filter (s_test_bit ws) (seq 0 (64 * length ws));
  s_iter_zeros_spec ws :
    s_iter_zeros ws = List.filter (λ i, negb (s_test_bit ws i)) (seq 0 (64 * length ws));
  s_count_ones_spec ws : s_count_ones ws = length (s_iter_ones ws);
  s_count_zeros_spec ws : s_count_zeros ws = length (s_iter_zeros ws);
}.

(** ** The data structure *)
Record BitMap := mkBitMap { bits : list Z; nbits : nat }.

Section ops.
Context {B : Bittle}.

(** [BitMap::repeat]. *)
Definition repeat (value : bool) (n : nat) : BitMap :=
  let vec_len := (n + 64 - 1) / 64 in
  let ws := replicate vec_len (if value then u64_ones else 0%Z) in
  if negb (n mod 64 =? 0) then
    let ws' := match ws !! (vec_len - 1) with
               | Some w =>
                   <[vec_len - 1 :=
                       foldl w_clear_bit w
                         (List.filter (λ i, n mod 64 <=? i) (w_iter_ones w))]> ws
               | None => ws
               end in
    mkBitMap ws' n
  else mkBitMap ws n.

Definition len (bm : BitMap) : nat := nbits bm.

Definition check_index (bm : BitMap) (index : nat) : res unit :=
  if len bm <=? index then Panic else Ok ().

Definition test_bit (bm : BitMap) (index : nat) : res bool :=
  _ ← check_index bm index; Ok (s_test_bit (bits bm) index).

Definition set_bit (bm : BitMap) (index : nat) : res BitMap :=
  _ ← check_index bm index; Ok (mkBitMap (s_set_bit (bits bm) index) (nbits bm)).

Definition clear_bit (bm : BitMap) (index : nat) : res BitMap :=
  _ ← check_index bm index; Ok (mkBitMap (s_clear_bit (bits bm) index) (nbits bm)).

Definition set (bm : BitMap) (index : nat) (value : bool) : res BitMap :=
  if value then set_bit bm index else clear_bit bm index.

Definition bits_not_in_use (bm : BitMap) : res nat :=
  usub (length (bits bm) * 64) (nbits bm).

Definition count_ones (bm : BitMap) : nat := s_count_ones (bits bm).

Definition count_zeros (bm : BitMap) : res nat :=
  unused ← bits_not_in_use bm; usub (s_count_zeros (bits bm)) unused.

Definition first_one (bm : BitMap) (from : nat) : res (option nat) :=
  _ ← check_index bm from;
  let first_u64_index := from / 64 in
  Ok (find (λ index, from <=? index)
        (map (λ index, first_u64_index * 64 + index)
           (s_iter_ones (drop first_u64_index (bits bm))))).

Definition first_ones (bm : BitMap) (from count : nat) : res (option (list nat)) :=
  last_index ← usub (from + count) 1;
  _ ← check_index bm last_index;
  let first_u64_index := from / 64 in
  let ones := take count
                (List.filter (λ index, from <=? index)
                   (map (λ index, first_u64_index * 64 + index)
                      (s_iter_ones (drop first_u64_index (bits bm))))) in
  Ok (if length ones =? count then Some ones else None).

Definition last_one (bm : BitMap) : option nat :=
  head (rev (s_iter_ones (bits bm))).

Definition first_zero (bm : BitMap) (from : nat) : res (option nat) :=
  _ ← check_index bm from;
  let first_u64_index := from / 64 in
  Ok (find (λ index, (from <=? index) && (index <? len bm))
        (map (λ index, first_u64_index * 64 + index)
           (s_iter_zeros (drop first_u64_index (bits bm))))).

Definition first_zeros (bm : BitMap) (from count : nat) : res (option (list nat)) :=
  last_index ← usub (from + count) 1;
  _ ← check_index bm last_index;
  let first_u64_index := from / 64 in
  let zeros := take count
                 (List.filter (λ index, (from <=? index) && (index <? len bm))
                    (map (λ index, first_u64_index * 64 + index)
                       (s_iter_zeros (drop first_u64_index (bits bm))))) in
  Ok (if length zeros =? count then Some zeros else None).

Definition last_zero (bm : BitMap) : res (option nat) :=
  unused ← bits_not_in_use bm;
  Ok (head (drop unused (rev (s_iter_zeros (bits bm))))).

(** ** Reference view *)

Definition bget (bm : BitMap) (i : nat) : bool := s_test_bit (bits bm) i.

(** The set (clear) positions at or after [from], in increasing order. *)
Definition ones_from (bm : BitMap) (from : nat) : list nat :=
  List.filter (bget bm) (seq from (nbits bm - from)).
Definition zeros_from (bm : BitMap) (from : nat) : list nat :=
  List.filter (λ i, negb (bget bm i)) (seq from (nbits bm - from)).

(** The representation invariant: just enough words, unused bits clear. *)
Definition wf (bm : BitMap) : Prop :=
  length (bits bm) = (nbits bm + 63) / 64 ∧
  ∀ i, nbits bm ≤ i → bget bm i = false.
End ops.

(** ** Lists of positions *)

Lemma filter_filter {A} (p q : A → bool) l :
  List.filter p (List.filter q l) = List.filter (λ x, q x && p x) l.
Proof.
  induction l as [|x l IH]; simpl; [done|].
  destruct (q x) eqn:Eq; simpl; [|done]. destruct (p x); by rewrite IH.
Qed.

Lemma filter_none {A} (p : A → bool) l :
  (∀ x, x ∈ l → p x = false) → List.filter p l = [].
Proof.
  induction l as [|x l IH]; intros Hp; simpl; [done|].
  rewrite (Hp x) by set_solver. apply IH. set_solver.
Qed.

Lemma filter_all {A} (p : A → bool) l :
  (∀ x, x ∈ l → p x = true) → List.filter p l = l.
Proof.
  induction l as [|x l IH]; intros Hp; simpl; [done|].
  rewrite (Hp x) by set_solver. f_equal. apply IH. set_solver.
Qed.

Lemma find_head_filter {A} (p : A → bool) l : find p l = head (List.filter p l).
Proof. induction l as [|x l IH]; simpl; [done|]. by destruct (p x). Qed.

Lemma length_filter_split {A} (p : A → bool) l :
  length (List.filter p l) + length (List.filter (λ x, negb (p x)) l) = length l.
Proof. induction l as [|x l IH]; simpl; [done|]. destruct (p x); simpl; lia. Qed.

Lemma filter_ext_elem {A} (p q : A → bool) l :
  (∀ x, x ∈ l → p x = q x) → List.filter p l = List.filter q l.
Proof.
  induction l as [|x l IH]; intros Hp; simpl; [done|].
  rewrite (Hp x) by set_solver. rewrite IH by set_solver. done.
Qed.

Lemma map_filter_shift (p : nat → bool) k a n :
  map (λ i, k + i) (List.filter (λ i, p (k + i)) (seq a n))
  = List.filter p (seq (k + a) n).
Proof.
  revert a. induction n as [|n IH]; intros a; simpl; [done|].
  destruct (p (k + a)) eqn:E; simpl; rewrite IH, Nat.add_succ_r; done.
Qed.

(** Restricting an increasing run of positions to those at or after [from]. *)
Lemma filter_seq_from (p : nat → bool) from k n :
  k ≤ from → from ≤ k + n →
  List.filter (λ i, from <=? i) (List.filter p (seq k n))
  = List.filter p (seq from (k + n - from)).
Proof.
  intros. rewrite filter_filter.
  replace n with ((from - k) + (k + n - from)) by lia.
  rewrite seq_app, List.filter_app.
  replace (k + (from - k)) with from by lia.
  replace (k + (from - k + (k + n - from)) - from) with (k + n - from) by lia.
  rewrite filter_none.
  - simpl. apply filter_ext_elem. intros x [? ?]%elem_of_seq.
    destruct (p x); simpl; [|done]. by apply Nat.leb_le.
  - intros x [? ?]%elem_of_seq. apply andb_false_iff. right. apply Nat.leb_gt. lia.
Qed.

(** Dropping an empty suffix of the range. *)
Lemma filter_seq_upto (p : nat → bool) a n m :
  n ≤ m → (∀ i, a + n ≤ i → p i = false) →
  List.filter p (seq a m) = List.filter p (seq a n).
Proof.
  intros ? Hp. replace m with (n + (m - n)) by lia.
  rewrite seq_app, List.filter_app.
  rewrite (filter_none p (seq (a + n) _)); [by rewrite app_nil_r|].
  intros x [? ?]%elem_of_seq. by apply Hp.
Qed.

Lemma head_filter_seq_spec (p : nat → bool) a n :
  match head (List.filter p (seq a n)) with
  | Some i => a ≤ i < a + n ∧ p i = true ∧ ∀ j, a ≤ j < i → p j = false
  | None => ∀ j, a ≤ j < a + n → p j = false
  end.
Proof.
  revert a. induction n as [|n IH]; intros a; simpl; [lia|].
  destruct (p a) eqn:E; simpl.
  - repeat split; auto; lia.
  - specialize (IH (S a)). destruct (head _) as [i|].
    + destruct IH as (? & ? & Hmin). repeat split; auto; [lia..|].
      intros j ?. destruct (decide (j = a)) as [->|]; [done|]. apply Hmin. lia.
    + intros j ?. destruct (decide (j = a)) as [->|]; [done|]. apply IH. lia.
Qed.

(** ** Correctness of the operations *)
Section spec.
Context {B : Bittle} {HB : BittleSpec B}.
Implicit Types bm : BitMap.

Lemma bget_out bm i : 64 * length (bits bm) ≤ i → bget bm i = false.
Proof.
  intros. unfold bget. rewrite s_test_spec.
  by rewrite lookup_ge_None_2 by (apply Nat.div_le_lower_bound; lia).
Qed.

Lemma wf_capacity bm : wf bm → nbits bm ≤ 64 * length (bits bm).
Proof.
  intros [-> _]. pose proof (Nat.div_mod_eq (nbits bm + 63) 64).
  pose proof (Nat.mod_upper_bound (nbits bm + 63) 64). lia.
Qed.

Lemma check_index_ok bm i : i < nbits bm → check_index bm i = Ok ().
Proof. intros. unfold check_index, len. by rewrite (proj2 (Nat.leb_gt _ _)). Qed.

Lemma check_index_panic bm i : nbits bm ≤ i → check_index bm i = Panic.
Proof. intros. unfold check_index, len. by rewrite (proj2 (Nat.leb_le _ _)). Qed.

Lemma test_bit_ok bm i : i < nbits bm → test_bit bm i = Ok (bget bm i).
Proof. intros. unfold test_bit. by rewrite check_index_ok. Qed.

(** One lemma for [set], [set_bit] and [clear_bit]: the bit written and no other. *)
Lemma set_ok bm i v :
  wf bm → i < nbits bm →
  ∃ bm', set bm i v = Ok bm' ∧ wf bm' ∧ nbits bm' = nbits bm ∧
         ∀ j, bget bm' j = if j =? i then v else bget bm j.
Proof.
  intros Hwf Hi. pose proof (wf_capacity _ Hwf). destruct Hwf as [Hlen Hz].
  unfold set, set_bit, clear_bit. destruct v; rewrite check_index_ok by done; simpl;
    eexists; (split; [done|]); unfold wf, bget in *; simpl.
  all: rewrite ?s_set_length, ?s_clear_length; split; [split; [done|]|split; [done|]].
  all: intros j; rewrite ?s_set_test, ?s_clear_test by lia; try done.
  all: intros Hj; rewrite (proj2 (Nat.eqb_neq _ _)) by lia; by apply Hz.
Qed.

Lemma set_panic bm i v : nbits bm ≤ i → set bm i v = Panic.
Proof.
  intros. unfold set, set_bit, clear_bit. destruct v; by rewrite check_index_panic.
Qed.


Lemma foldl_clear_test w l k :
  k < 64 → Forall (λ j, j < 64) l →
  w_test_bit (foldl w_clear_bit w l) k
  = w_test_bit w k && negb (existsb (Nat.eqb k) l).
Proof.
  intros Hk. revert w. induction l as [|j l IH]; intros w Hl; simpl.
  - by rewrite andb_true_r.
  - apply Forall_cons in Hl as [Hj Hl]. rewrite IH by done.
    rewrite w_test_clear by done. destruct (k =? j); simpl; [|done].
    by rewrite andb_false_r.
Qed.

(** The last word of [repeat]: bits from [m] on are cleared, others kept. *)
Lemma clear_tail_test w m k :
  k < 64 →
  w_test_bit (foldl w_clear_bit w (List.filter (λ i, m <=? i) (w_iter_ones w))) k
  = w_test_bit w k && (k <? m).
Proof.
  intros Hk. rewrite w_iter_ones_spec, foldl_clear_test; [|done|].
  2: { apply Forall_forall. intros j Hj.
       apply list_elem_of_In, filter_In in Hj as [Hj _].
       apply filter_In in Hj as [Hj _]. apply in_seq in Hj. lia. }
  destruct (w_test_bit w k) eqn:Ew; cbn [andb]; [|done].
  destruct (k <? m) eqn:Ekm; bool_simpl.
  - apply negb_true_iff, not_true_iff_false. intros Hex.
    apply existsb_exists in Hex as (j & Hj & ?%Nat.eqb_eq).
    apply filter_In in Hj as [_ ?%Nat.leb_le]. lia.
  - apply negb_false_iff, existsb_exists. exists k.
    split; [|by apply Nat.eqb_refl]. apply filter_In.
    split; [|by apply Nat.leb_le]. apply filter_In. split; [|done].
    apply in_seq. lia.
Qed.

Lemma repeat_nbits v n : nbits (repeat v n) = n.
Proof. unfold repeat. by case_match. Qed.

(** Every bit of [repeat v n], in range or not. *)
Lemma repeat_bit v n i : bget (repeat v n) i = v && (i <? n).
Proof.
  unfold bget. rewrite s_test_spec. unfold repeat.
  set (L := (n + 64 - 1) / 64). set (w0 := if v then u64_ones else 0%Z).
  assert (Hw0 : ∀ k, k < 64 → w_test_bit w0 k = v).
  { intros k Hk. unfold w0. destruct v; [by apply w_test_ones|apply w_test_zero]. }
  pose proof (Nat.div_mod_eq (n + 64 - 1) 64) as Hdm. fold L in Hdm.
  pose proof (Nat.mod_upper_bound (n + 64 - 1) 64 ltac:(lia)) as Hub.
  pose proof (Nat.div_mod_eq n 64). pose proof (Nat.div_mod_eq i 64).
  pose proof (Nat.mod_upper_bound n 64 ltac:(lia)).
  pose proof (Nat.mod_upper_bound i 64 ltac:(lia)).
  assert (Hrep : (n mod 64 = 0 ∨ i / 64 ≠ L - 1) →
    match replicate L w0 !! (i / 64) with
    | Some w => w_test_bit w (i mod 64) | None => false end = v && (i <? n)).
  { intros Hc. destruct (decide (i / 64 < L)).
    - rewrite lookup_replicate_2, Hw0 by lia.
      rewrite (proj2 (Nat.ltb_lt _ _)) by lia. by rewrite andb_true_r.
    - rewrite lookup_ge_None_2 by (rewrite length_replicate; lia).
      rewrite (proj2 (Nat.ltb_ge _ _)) by lia. by rewrite andb_false_r. }
  destruct (n mod 64 =? 0) eqn:E; simpl; bool_simpl; [by apply Hrep; left|].
  rewrite lookup_replicate_2 by lia.
  destruct (decide (i / 64 = L - 1)) as [Heq|Hne].
  - rewrite Heq, list_lookup_insert_eq by (rewrite length_replicate; lia).
    rewrite clear_tail_test, Hw0 by lia. f_equal.
    apply eq_true_iff_eq. rewrite !Nat.ltb_lt. lia.
  - rewrite list_lookup_insert_ne by done. apply Hrep. by right.
Qed.

(** [repeat] builds a well-formed bitmap all of whose bits are [v]. *)
Lemma repeat_wf v n : wf (repeat v n).
Proof.
  split; rewrite repeat_nbits.
  - replace (n + 63) with (n + 64 - 1) by lia. unfold repeat.
    repeat case_match; simpl; by rewrite ?length_insert, length_replicate.
  - intros i Hi. rewrite repeat_bit, (proj2 (Nat.ltb_ge _ _)) by done.
    by rewrite andb_false_r.
Qed.

(** *** The iterators against the reference *)

Lemma s_test_drop ws k i : s_test_bit (drop k ws) i = s_test_bit ws (k * 64 + i).
Proof.
  rewrite !s_test_spec, lookup_drop.
  replace (k * 64 + i) with (i + k * 64) by lia.
  rewrite Nat.div_add, Nat.Div0.mod_add by lia. by rewrite Nat.add_comm.
Qed.

Lemma ones_iter bm from :
  wf bm → from ≤ nbits bm →
  List.filter (λ index, from <=? index)
    (map (λ index, from / 64 * 64 + index) (s_iter_ones (drop (from / 64) (bits bm))))
  = ones_from bm from.
Proof.
  intros Hwf Hf. pose proof (wf_capacity _ Hwf). destruct Hwf as [Hlen Hz].
  pose proof (Nat.div_mod_eq from 64).
  rewrite s_iter_ones_spec.
  rewrite (filter_ext_elem (s_test_bit (drop (from / 64) (bits bm)))
             (λ i, s_test_bit (bits bm) (from / 64 * 64 + i)))
    by (intros; apply s_test_drop).
  rewrite map_filter_shift, Nat.add_0_r, length_drop.
  rewrite filter_seq_from by lia. unfold ones_from.
  apply filter_seq_upto; [lia|]. intros i Hi. apply Hz. lia.
Qed.

Lemma zeros_iter bm from :
  wf bm → from ≤ nbits bm →
  List.filter (λ index, (from <=? index) && (index <? len bm))
    (map (λ index, from / 64 * 64 + index) (s_iter_zeros (drop (from / 64) (bits bm))))
  = zeros_from bm from.
Proof.
  intros Hwf Hf. pose proof (wf_capacity _ Hwf). destruct Hwf as [Hlen Hz].
  pose proof (Nat.div_mod_eq from 64).
  rewrite s_iter_zeros_spec.
  rewrite (filter_ext_elem (λ i, negb (s_test_bit (drop (from / 64) (bits bm)) i))
             (λ i, negb (s_test_bit (bits bm) (from / 64 * 64 + i))))
    by (intros; f_equal; apply s_test_drop).
  rewrite (map_filter_shift (λ i, negb (s_test_bit (bits bm) i))), Nat.add_0_r, length_drop.
  rewrite <-(filter_filter (λ i, i <? len bm) (λ i, from <=? i)).
  rewrite filter_seq_from, filter_filter by lia.
  unfold zeros_from. rewrite (filter_seq_upto _ from (nbits bm - from)).
  - apply filter_ext_elem. intros x [? ?]%elem_of_seq. unfold bget, len.
    rewrite (proj2 (Nat.ltb_lt _ _)) by lia. by rewrite andb_true_r.
  - lia.
  - intros i Hi. unfold len. rewrite (proj2 (Nat.ltb_ge _ _)) by lia.
    by rewrite andb_false_r.
Qed.

Lemma first_one_ok bm from :
  wf bm → from < nbits bm → first_one bm from = Ok (head (ones_from bm from)).
Proof.
  intros. unfold first_one. rewrite check_index_ok by done. simpl.
  by rewrite find_head_filter, ones_iter by (done || lia).
Qed.

Lemma first_zero_ok bm from :
  wf bm → from < nbits bm → first_zero bm from = Ok (head (zeros_from bm from)).
Proof.
  intros. unfold first_zero. rewrite check_index_ok by done. simpl.
  by rewrite find_head_filter, zeros_iter by (done || lia).
Qed.

Lemma first_ones_ok bm from count :
  wf bm → 0 < count → from + count ≤ nbits bm →
  first_ones bm from count =
    Ok (if count <=? length (ones_from bm from)
        then Some (take count (ones_from bm from)) else None).
Proof.
  intros. unfold first_ones. rewrite usub_ok by lia. simpl.
  rewrite check_index_ok by lia. simpl. rewrite ones_iter by (done || lia).
  rewrite length_take. destruct (count <=? length _) eqn:E; bool_simpl.
  - by rewrite (proj2 (Nat.eqb_eq _ _)) by lia.
  - by rewrite (proj2 (Nat.eqb_neq _ _)) by lia.
Qed.

Lemma first_zeros_ok bm from count :
  wf bm → 0 < count → from + count ≤ nbits bm →
  first_zeros bm from count =
    Ok (if count <=? length (zeros_from bm from)
        then Some (take count (zeros_from bm from)) else None).
Proof.
  intros. unfold first_zeros. rewrite usub_ok by lia. simpl.
  rewrite check_index_ok by lia. simpl. rewrite zeros_iter by (done || lia).
  rewrite length_take. destruct (count <=? length _) eqn:E; bool_simpl.
  - by rewrite (proj2 (Nat.eqb_eq _ _)) by lia.
  - by rewrite (proj2 (Nat.eqb_neq _ _)) by lia.
Qed.

Lemma iter_ones_ok bm : wf bm → s_iter_ones (bits bm) = ones_from bm 0.
Proof.
  intros Hwf. pose proof (wf_capacity _ Hwf). destruct Hwf as [Hlen Hz].
  rewrite s_iter_ones_spec. unfold ones_from. rewrite Nat.sub_0_r.
  apply filter_seq_upto; [lia|]. done.
Qed.

(** The clear bits of the words: those in range, then every unused bit. *)
Lemma iter_zeros_ok bm :
  wf bm → s_iter_zeros (bits bm)
          = zeros_from bm 0 ++ seq (nbits bm) (length (bits bm) * 64 - nbits bm).
Proof.
  intros Hwf. pose proof (wf_capacity _ Hwf). destruct Hwf as [Hlen Hz].
  rewrite s_iter_zeros_spec. unfold zeros_from. rewrite Nat.sub_0_r.
  replace (64 * length (bits bm))
    with (nbits bm + (length (bits bm) * 64 - nbits bm)) by lia.
  rewrite seq_app, List.filter_app. f_equal. apply filter_all.
  intros i [? ?]%elem_of_seq. apply negb_true_iff, Hz. lia.
Qed.

Lemma bits_not_in_use_ok bm :
  wf bm → bits_not_in_use bm = Ok (length (bits bm) * 64 - nbits bm).
Proof. intros Hwf%wf_capacity. unfold bits_not_in_use. apply usub_ok. lia. Qed.

Lemma last_one_ok bm : wf bm → last_one bm = head (rev (ones_from bm 0)).
Proof. intros. unfold last_one. by rewrite iter_ones_ok. Qed.

Lemma last_zero_ok bm : wf bm → last_zero bm = Ok (head (rev (zeros_from bm 0))).
Proof.
  intros Hwf. unfold last_zero. rewrite bits_not_in_use_ok by done. simpl.
  rewrite iter_zeros_ok, rev_app_distr by done.
  rewrite drop_app_length' by (by rewrite length_rev, length_seq). done.
Qed.

Lemma count_ones_ok bm : wf bm → count_ones bm = length (ones_from bm 0).
Proof. intros. unfold count_ones. by rewrite s_count_ones_spec, iter_ones_ok. Qed.

Lemma count_zeros_ok bm : wf bm → count_zeros bm = Ok (length (zeros_from bm 0)).
Proof.
  intros Hwf. unfold count_zeros. rewrite bits_not_in_use_ok by done. simpl.
  rewrite s_count_zeros_spec, iter_zeros_ok, length_app, length_seq by done.
  rewrite usub_ok by lia. f_equal. lia.
Qed.

Lemma ones_zeros_length bm :
  length (ones_from bm 0) + length (zeros_from bm 0) = nbits bm.
Proof.
  unfold ones_from, zeros_from.
  by rewrite length_filter_split, length_seq, Nat.sub_0_r.
Qed.

Lemma elem_of_ones bm from i :
  i ∈ ones_from bm from ↔ from ≤ i < nbits bm ∧ bget bm i = true.
Proof.
  unfold ones_from. rewrite list_elem_of_In, filter_In, in_seq. intuition lia.
Qed.

Lemma elem_of_zeros bm from i :
  i ∈ zeros_from bm from ↔ from ≤ i < nbits bm ∧ bget bm i = false.
Proof.
  unfold zeros_from. rewrite list_elem_of_In, filter_In, in_seq, negb_true_iff.
  intuition lia.
Qed.

(** How one write moves the counts. *)
Lemma length_filter_upd (p q : nat → bool) i n :
  i < n → (∀ j, j ≠ i → p j = q j) → p i = true → q i = false →
  length (List.filter p (seq 0 n)) = S (length (List.filter q (seq 0 n))).
Proof.
  intros Hi Hpq Hp Hq. replace n with (i + S (n - i - 1)) by lia.
  rewrite seq_app, !List.filter_app, !length_app. simpl. rewrite Hp, Hq. simpl.
  rewrite (filter_ext_elem p q (seq 0 i)) by (intros x []%elem_of_seq; apply Hpq; lia).
  rewrite (filter_ext_elem p q (seq (S i) _)) by (intros x []%elem_of_seq; apply Hpq; lia).
  lia.
Qed.

Lemma zeros_set_true bm bm' i :
  nbits bm' = nbits bm → (∀ j, bget bm' j = if j =? i then true else bget bm j) →
  i < nbits bm → bget bm i = false →
  length (zeros_from bm 0) = S (length (zeros_from bm' 0)).
Proof.
  intros Hn Hb Hi Hf. unfold zeros_from. rewrite Hn, !Nat.sub_0_r.
  apply (length_filter_upd _ _ i); [done| | |].
  - intros j Hj. by rewrite Hb, (proj2 (Nat.eqb_neq _ _)).
  - by rewrite Hf.
  - by rewrite Hb, Nat.eqb_refl.
Qed.

Lemma zeros_set_false bm bm' i :
  nbits bm' = nbits bm → (∀ j, bget bm' j = if j =? i then false else bget bm j) →
  i < nbits bm → bget bm i = true →
  length (zeros_from bm' 0) = S (length (zeros_from bm 0)).
Proof.
  intros Hn Hb Hi Hf. unfold zeros_from. rewrite Hn, !Nat.sub_0_r.
  apply (length_filter_upd _ _ i); [done| | |].
  - intros j Hj. by rewrite Hb, (proj2 (Nat.eqb_neq _ _)).
  - by rewrite Hb, Nat.eqb_refl.
  - by rewrite Hf.
Qed.
End spec.

(** ** An implementation of the interface over [Z] *)
Section bittle_z.
Local Definition zt (w : Z) (j : nat) : bool := Z.testbit w (Z.of_nat j).
Local Definition zst (ws : list Z) (i : nat) : bool :=
  match ws !! (i / 64) with Some w => zt w (i mod 64) | None => false end.
Local Definition zupd (f : Z → Z → Z) (ws : list Z) (i : nat) : list Z :=
  match ws !! (i / 64) with
  | Some w => <[i / 64 := f w (Z.of_nat (i mod 64))]> ws | None => ws end.
Local Definition zones (ws : list Z) : list nat :=
  List.filter (zst ws) (seq 0 (64 * length ws)).
Local Definition zzeros (ws : list Z) : list nat :=
  List.filter (λ i, negb (zst ws i)) (seq 0 (64 * length ws)).

Definition BittleZ : Bittle := {|
  w_test_bit := zt;
  w_clear_bit w j := Z.clearbit w (Z.of_nat j);
  w_iter_ones w := List.filter (zt w) (seq 0 64);
  s_test_bit := zst;
  s_set_bit := zupd Z.setbit;
  s_clear_bit := zupd Z.clearbit;
  s_iter_ones := zones;
  s_iter_zeros := zzeros;
  s_count_ones ws := length (zones ws);
  s_count_zeros ws := length (zzeros ws);
|}.

Lemma zt_clear w j k :
  zt (Z.clearbit w (Z.of_nat j)) k = if k =? j then false else zt w k.
Proof.
  unfold zt. destruct (k =? j) eqn:E; bool_simpl; subst.
  - apply Z.clearbit_eq.
  - apply Z.clearbit_neq. lia.
Qed.

Lemma zt_set w j k :
  zt (Z.setbit w (Z.of_nat j)) k = if k =? j then true else zt w k.
Proof.
  unfold zt. destruct (k =? j) eqn:E; bool_simpl; subst.
  - apply Z.setbit_eq. lia.
  - apply Z.setbit_neq; lia.
Qed.

Lemma zupd_length f ws i : length (zupd f ws i) = length ws.
Proof. unfold zupd. case_match; [by rewrite length_insert|done]. Qed.

Lemma zupd_test f v ws i k :
  (∀ w j l, zt (f w (Z.of_nat j)) l = if l =? j then v else zt w l) →
  i < 64 * length ws →
  zst (zupd f ws i) k = if k =? i then v else zst ws k.
Proof.
  intros Hf Hi. unfold zupd, zst.
  pose proof (Nat.div_mod_eq i 64). pose proof (Nat.div_mod_eq k 64).
  pose proof (Nat.mod_upper_bound i 64 ltac:(lia)).
  destruct (lookup_lt_is_Some_2 ws (i / 64)) as [w Hw].
  { apply Nat.Div0.div_lt_upper_bound. lia. }
  rewrite Hw. destruct (decide (k / 64 = i / 64)) as [Heq|Hne].
  - rewrite Heq, list_lookup_insert_eq, Hw by (eapply lookup_lt_Some; done).
    rewrite Hf. destruct (k =? i) eqn:E; bool_simpl.
    + subst. by rewrite Nat.eqb_refl.
    + by rewrite (proj2 (Nat.eqb_neq _ _)) by lia.
  - rewrite list_lookup_insert_ne by done.
    rewrite (proj2 (Nat.eqb_neq k i)) by congruence. done.
Qed.
End bittle_z.

#[export] Instance BittleZ_spec : BittleSpec BittleZ.
Proof.
  split.
  - intros j. apply Z.testbit_0_l.
  - intros j Hj. change (zt u64_ones j = true). unfold zt, u64_ones.
    apply (Z.ones_spec_low 64). lia.
  - intros w j k _ _. apply zt_clear.
  - reflexivity.
  - reflexivity.
  - intros. apply zupd_length.
  - intros ws i k Hi. apply (zupd_test Z.setbit); [apply zt_set|done].
  - intros. apply zupd_length.
  - intros ws i k Hi. apply (zupd_test Z.clearbit); [apply zt_clear|done].
  - reflexivity.
  - reflexivity.
  - reflexivity.
  - reflexivity.
Qed.

(** ** Properties *)

(** [BitMap::set] (and through it [set_bit], [clear_bit]) preserves the
    representation invariant, changes exactly the addressed bit, and panics on
    an index out of range; [BitMap::repeat] establishes the invariant with
    every in-range bit equal to the requested value. *)
Theorem bitmap_set_repeat_correct {B : Bittle} {HB : BittleSpec B} (bm : BitMap) (i : nat) (v : bool) (n : nat) :
  wf bm →
  (wf (repeat v n) ∧ len (repeat v n) = n ∧ ∀ j, bget (repeat v n) j = v && (j <? n)) ∧
  (i < len bm → ∃ bm', set bm i v = Ok bm' ∧ wf bm' ∧ len bm' = len bm ∧
                       ∀ j, bget bm' j = if j =? i then v else bget bm j) ∧
  (len bm ≤ i → set bm i v = Panic).
Proof.
  intros Hwf. split; [|split].
  - split; [apply repeat_wf|]. split; [apply repeat_nbits|apply repeat_bit].
  - by apply set_ok.
  - apply set_panic.
Qed.

(** [first_one] / [first_zero] return the least set / clear index at or after
    [from], and [None] exactly when there is none. *)
Theorem bitmap_first_least {B : Bittle} {HB : BittleSpec B} (bm : BitMap) (from : nat) (b : bool) :
  wf bm → from < len bm →
  ∃ o, (if b then first_one bm from else first_zero bm from) = Ok o ∧
       match o with
       | Some i => from ≤ i < len bm ∧ bget bm i = b ∧ ∀ j, from ≤ j < i → bget bm j = negb b
       | None => ∀ j, from ≤ j < len bm → bget bm j = negb b
       end.
Proof.
  intros Hwf Hf. unfold len in *. destruct b.
  - rewrite first_one_ok by done. eexists; split; [done|].
    pose proof (head_filter_seq_spec (bget bm) from (nbits bm - from)) as H.
    unfold ones_from. replace (from + (nbits bm - from)) with (nbits bm) in H by lia.
    exact H.
  - rewrite first_zero_ok by done. eexists; split; [done|].
    pose proof (head_filter_seq_spec (λ i, negb (bget bm i)) from (nbits bm - from)) as H.
    unfold zeros_from. replace (from + (nbits bm - from)) with (nbits bm) in H by lia.
    destruct (head _) as [i|].
    + destruct H as (? & ?%negb_true_iff & Hj). split; [done|]. split; [done|].
      intros j ?. by apply negb_false_iff, Hj.
    + intros j ?. by apply negb_false_iff, H.
Qed.

(** counting.  [count_ones] and [count_zeros] count the in-range set and clear
    bits (the unused bits of the last word are not counted), so they add up to
    [len]; [last_one] and [last_zero] are the last entries of the same lists. *)
Theorem bitmap_counts {B : Bittle} {HB : BittleSpec B} (bm : BitMap) :
  wf bm →
  count_ones bm = length (ones_from bm 0) ∧
  count_zeros bm = Ok (length (zeros_from bm 0)) ∧
  length (ones_from bm 0) + length (zeros_from bm 0) = len bm ∧
  last_one bm = head (rev (ones_from bm 0)) ∧
  last_zero bm = Ok (head (rev (zeros_from bm 0))).
Proof.
  intros. rewrite count_ones_ok, count_zeros_ok, last_one_ok, last_zero_ok by done.
  unfold len. by rewrite ones_zeros_length.
Qed.

(** A 70-bit map with bits 3 and 65 set, for the witnesses. *)
Definition demo_bm : BitMap :=
  match set (B := BittleZ) (repeat (B := BittleZ) false 70) 3 true with
  | Ok bm => match set (B := BittleZ) bm 65 true with Ok bm' => bm' | _ => bm end
  | _ => repeat (B := BittleZ) false 70
  end.

Lemma demo_bm_wf : wf (B := BittleZ) demo_bm.
Proof.
  split; [reflexivity|]. intros i Hi. change (nbits demo_bm) with 70 in Hi.
  destruct (decide (i < 128)) as [Hlt|Hge].
  - destruct (bget (B := BittleZ) demo_bm i) eqn:E; [|done]. exfalso.
    assert (i ∈ List.filter (bget (B := BittleZ) demo_bm) (seq 70 58)) as Hin.
    { apply list_elem_of_In, filter_In. split; [apply in_seq; lia|done]. }
    vm_compute in Hin. by apply elem_of_nil in Hin.
  - apply bget_out. change (length (bits demo_bm)) with 2. lia.
Qed.

Lemma bitmap_set_repeat_correct_witness :
  ∃ bm', set (B := BittleZ) demo_bm 66 true = Ok bm' ∧ bget (B := BittleZ) bm' 66 = true.
Proof.
  destruct (bitmap_set_repeat_correct (B := BittleZ) demo_bm 66 true 10 demo_bm_wf)
    as (_ & H & _).
  destruct H as (bm' & H1 & _ & _ & H2); [vm_compute; lia|].
  exists bm'. split; [exact H1|]. rewrite H2. reflexivity.
Defined.

Lemma bitmap_first_least_witness :
  ∃ o, first_one (B := BittleZ) demo_bm 4 = Ok o ∧ o = Some 65.
Proof.
  destruct (bitmap_first_least (B := BittleZ) demo_bm 4 true demo_bm_wf) as (o & H & _);
    [vm_compute; lia|].
  exists o. split; [exact H|]. vm_compute in H. by injection H as <-.
Defined.

Lemma bitmap_counts_witness :
  count_ones (B := BittleZ) demo_bm = 2 ∧ count_zeros (B := BittleZ) demo_bm = Ok 68.
Proof.
  destruct (bitmap_counts (B := BittleZ) demo_bm demo_bm_wf) as (H1 & H2 & _).
  rewrite H1, H2. split; reflexivity.
Defined.
