(* ===== verification/Bio.v ===== *)
(** * Bio: [core/src/layers/0-bio], the layer of untrusted block I/O

    - [Buf]/[BufRef]/[BufMut] ([block_buf.rs]) are byte lists; the conversions
      that establish block alignment return an outcome, the iterator is stepped
      with its offset.
    - [BlockSet] ([block_set.rs]) is a class over a handle type and a shared
      store: two handles obtained with [subset] alias one store, as the [Arc]
      of [MemDisk] does.  [read_slice] and [write_slice], the provided methods of
      the trait, are written once against the class.
    - [MemDisk] is the instance; [MemLog] ([block_log.rs]) and [BlockRing]
      ([block_ring.rs]) are the two logs. *)
From S2P Require Import Prelude.

(** [BLOCK_SIZE] and [BlockId] of [0-bio/mod.rs]; bytes are 8-bit [Z]. *)
Abbreviation byte := Z (only parsing).
Abbreviation BlockId := nat (only parsing).
Definition BLOCK_SIZE : nat := N.to_nat 0x1000.

Lemma BLOCK_SIZE_pos : 0 < BLOCK_SIZE.
Proof. vm_compute. lia. Qed.
#[global] Opaque BLOCK_SIZE.
#[export] Hint Resolve BLOCK_SIZE_pos : mls.

(** ** block_buf.rs *)

(** [os::Pages::alloc]: the page allocator hands out memory it has not
    initialised, so what it holds is a parameter, indexed by an allocation tag
    so that two allocations of one size may differ. *)
Class Pages := page_alloc : nat → nat → res (list byte).

(** It does not run out of memory, and hands out whole pages. *)
Class PagesSpec (P : Pages) :=
  page_alloc_ok tag n :
    0 < n → ∃ b, page_alloc tag n = Ok b ∧ length b = n * BLOCK_SIZE.

(** Zero pages: an allocator with which every definition runs. *)
Definition zero_pages : Pages := λ _ n, Ok (replicate (n * BLOCK_SIZE) 0%Z).
#[export] Instance zero_pages_spec : PagesSpec zero_pages.
Proof. intros tag n _. eexists. split; [done|]. apply length_replicate. Qed.

(** [Buf::alloc]. *)
Definition Buf_alloc {P : Pages} (tag num_blocks : nat) : res (list byte) :=
  if num_blocks =? 0 then Err InvalidArgs else page_alloc tag num_blocks.

Lemma Buf_alloc_ok {P : Pages} {HP : PagesSpec P} tag n :
  0 < n → ∃ b, Buf_alloc tag n = Ok b ∧ length b = n * BLOCK_SIZE.
Proof.
  intros Hn. unfold Buf_alloc. rewrite (proj2 (Nat.eqb_neq _ _)) by lia.
  by apply page_alloc_ok.
Qed.

(** [BufRef::nblocks] / [BufMut::nblocks]. *)
Definition nblocks_of (buf : list byte) : nat := length buf / BLOCK_SIZE.

(** [TryFrom<&[u8]> for BufRef] and, with the same text, for [BufMut]. *)
Definition Buf_try_from (buf : list byte) : res (list byte) :=
  if length buf =? 0 then Err InvalidArgs
  else if negb (length buf mod BLOCK_SIZE =? 0) then Err NotBlockSizeAligned
  else Ok buf.

(** [BufIter]: the remaining blocks of a buffer from [it_offset] on. *)
Record BufIter := mkBufIter { it_buf : list byte; it_offset : nat }.

(** [Iterator::next for BufIter]; [.ok()] turns an error into the end. *)
Definition BufIter_next (it : BufIter) : res (option (list byte) * BufIter) :=
  if length (it_buf it) <=? it_offset it then Ok (None, it)
  else
    let offset := it_offset it in
    let it' := mkBufIter (it_buf it) (offset + BLOCK_SIZE) in
    s ← slice (it_buf it) offset (offset + BLOCK_SIZE);
    match Buf_try_from s with
    | Ok b => Ok (Some b, it')
    | Err _ => Ok (None, it')
    | Panic => Panic
    end.

(** [for block_buf in buf.iter()]: the blocks the iterator yields. *)
Fixpoint BufIter_collect (fuel : nat) (it : BufIter) : res (list (list byte)) :=
  match fuel with
  | 0 => Panic
  | S fuel =>
      '(o, it') ← BufIter_next it;
      match o with
      | None => Ok []
      | Some b => bs ← BufIter_collect fuel it'; Ok (b :: bs)
      end
  end.

Definition Buf_iter (buf : list byte) : BufIter := mkBufIter buf 0.

(** A valid block buffer of [n] blocks, and its [i]-th block. *)
Definition is_buf (n : nat) (buf : list byte) : Prop :=
  0 < n ∧ length buf = n * BLOCK_SIZE.
Definition nth_block (buf : list byte) (i : nat) : list byte :=
  take BLOCK_SIZE (drop (i * BLOCK_SIZE) buf).
Definition blocks_from (buf : list byte) (i n : nat) : list (list byte) :=
  map (nth_block buf) (seq i n).

Lemma nblocks_of_is_buf n buf : is_buf n buf → nblocks_of buf = n.
Proof.
  intros [_ Hlen]. unfold nblocks_of. rewrite Hlen.
  apply Nat.div_mul. pose proof BLOCK_SIZE_pos. lia.
Qed.

Lemma nth_block_length n buf i :
  length buf = n * BLOCK_SIZE → i < n → length (nth_block buf i) = BLOCK_SIZE.
Proof.
  intros Hlen Hi. unfold nth_block. rewrite length_take, length_drop, Hlen.
  pose proof BLOCK_SIZE_pos. nia.
Qed.

Lemma blocks_from_concat cs :
  Forall (λ b : list byte, length b = BLOCK_SIZE) cs → blocks_from (concat cs) 0 (length cs) = cs.
Proof.
  intros Hcs. apply list_eq. intros i. unfold blocks_from. rewrite list_lookup_fmap.
  destruct (decide (i < length cs)) as [Hi|Hi].
  - rewrite lookup_seq_lt by done. destruct (lookup_lt_is_Some_2 cs i Hi) as [b Hc]. rewrite Hc. cbn. f_equal.
    unfold nth_block. replace (i * BLOCK_SIZE) with (length (concat (take i cs))).
    + rewrite <- (take_drop_middle cs i b Hc) at 2. rewrite concat_app, drop_app_length. cbn [concat].
      rewrite <- (Forall_lookup_1 _ _ _ _ Hcs Hc) at 1. by rewrite take_app_length.
    + rewrite (length_concat_same BLOCK_SIZE) by by apply Forall_take. rewrite length_take. lia.
  - rewrite lookup_seq_ge by lia. rewrite lookup_ge_None_2 by lia. done.
Qed.

Lemma nth_block_concat cs i b :
  Forall (λ b : list byte, length b = BLOCK_SIZE) cs → cs !! i = Some b → nth_block (concat cs) i = b.
Proof.
  intros Hcs Hi. pose proof (blocks_from_concat cs Hcs) as H. apply (f_equal (lookup i)) in H. unfold blocks_from in H.
  rewrite list_lookup_fmap, lookup_seq_lt, Hi in H by (by apply lookup_lt_Some in Hi). by injection H.
Qed.

Lemma try_from_is_buf buf :
  Buf_try_from buf = Ok buf ↔ is_buf (nblocks_of buf) buf.
Proof.
  pose proof BLOCK_SIZE_pos. unfold Buf_try_from, is_buf, nblocks_of.
  pose proof (Nat.div_mod_eq (length buf) BLOCK_SIZE) as Hdm.
  destruct (length buf =? 0) eqn:E0; bool_simpl.
  - split; [done|]. rewrite E0, Nat.Div0.div_0_l. lia.
  - destruct (length buf mod BLOCK_SIZE =? 0) eqn:E1; simpl; bool_simpl.
    + split; [intros _|done].
      split; [destruct (length buf / BLOCK_SIZE); lia|lia].
    + split; [done|]. intros [_ Hl]. exfalso. apply E1.
      rewrite Hl. apply Nat.Div0.mod_mul.
Qed.

Lemma try_from_block b : length b = BLOCK_SIZE → Buf_try_from b = Ok b.
Proof.
  intros Hb. apply try_from_is_buf. unfold is_buf, nblocks_of. rewrite Hb.
  pose proof BLOCK_SIZE_pos. rewrite Nat.div_same by lia. lia.
Qed.

Lemma take_add_split {A} n m (l : list A) : take (n + m) l = take n l ++ take m (drop n l).
Proof. symmetry. apply take_take_drop. Qed.

Lemma take_block_concat buf i n :
  concat (blocks_from buf i n) = take (n * BLOCK_SIZE) (drop (i * BLOCK_SIZE) buf).
Proof.
  unfold blocks_from. revert i. induction n as [|n IH]; intros i; [done|].
  cbn [seq map concat]. rewrite IH. unfold nth_block.
  cbn [Nat.mul]. rewrite take_add_split, drop_drop. by rewrite (Nat.add_comm BLOCK_SIZE).
Qed.

(** The blocks of a buffer, concatenated, are the buffer. *)
Lemma concat_blocks n buf :
  length buf = n * BLOCK_SIZE → concat (blocks_from buf 0 n) = buf.
Proof. intros Hl. rewrite take_block_concat. simpl. rewrite drop_0, take_ge; [done|lia]. Qed.

Lemma BufIter_collect_ok n buf i fuel :
  length buf = n * BLOCK_SIZE → i ≤ n → n - i < fuel →
  BufIter_collect fuel (mkBufIter buf (i * BLOCK_SIZE)) = Ok (blocks_from buf i (n - i)).
Proof.
  intros Hlen. pose proof BLOCK_SIZE_pos. revert i.
  induction fuel as [|fuel IH]; intros i Hi Hf; [lia|].
  simpl. unfold BufIter_next. simpl.
  destruct (length buf <=? i * BLOCK_SIZE) eqn:E; bool_simpl.
  - assert (i = n) as -> by nia. simpl. by rewrite Nat.sub_diag.
  - assert (i < n) by nia. rewrite slice_ok by nia. simpl.
    replace (i * BLOCK_SIZE + BLOCK_SIZE - i * BLOCK_SIZE) with BLOCK_SIZE by lia.
    fold (nth_block buf i).
    rewrite try_from_block by (eapply nth_block_length; done). simpl.
    replace (i * BLOCK_SIZE + BLOCK_SIZE) with (S i * BLOCK_SIZE) by lia.
    rewrite IH by lia. simpl. by replace (n - i) with (S (n - S i)) by lia.
Qed.

(** ** block_set.rs *)

(** The required methods of the trait [BlockSet], over a handle [D] and the store
    [St] all handles share.  [bs_read d s pos n] fills a buffer of [n] blocks. *)
Class BlockSet (D St : Type) := {
  bs_read : D → St → BlockId → nat → res (list byte);
  bs_write : D → St → BlockId → list byte → res St;
  bs_subset : D → BlockId → BlockId → res D;
  bs_flush : D → St → res St;
  bs_nblocks : D → nat;
}.

(** What a block set promises: it is an array of [bs_nblocks] blocks. *)
Class BlockSetSpec (D St : Type) {H : BlockSet D St} := {
  bs_valid : D → St → Prop;
  bs_block : D → St → nat → list byte;
  bs_disjoint : D → D → Prop;
  bs_block_length d s i :
    bs_valid d s → i < bs_nblocks d → length (bs_block d s i) = BLOCK_SIZE;
  bs_read_ok d s pos n :
    bs_valid d s → 0 < n → pos + n ≤ bs_nblocks d →
    bs_read d s pos n = Ok (concat (map (bs_block d s) (seq pos n)));
  bs_write_ok d s pos n buf :
    bs_valid d s → is_buf n buf → pos + n ≤ bs_nblocks d →
    ∃ s', bs_write d s pos buf = Ok s' ∧ bs_valid d s' ∧
      ∀ i, i < bs_nblocks d →
        bs_block d s' i = if (pos <=? i) && (i <? pos + n)
                          then nth_block buf (i - pos) else bs_block d s i;
  bs_write_frame d d' s s' pos n buf :
    bs_valid d s → bs_valid d' s → bs_disjoint d d' →
    is_buf n buf → pos + n ≤ bs_nblocks d →
    bs_write d s pos buf = Ok s' →
    bs_valid d' s' ∧ ∀ i, i < bs_nblocks d' → bs_block d' s' i = bs_block d' s i;
  bs_flush_ok d s : bs_valid d s → bs_flush d s = Ok s;
}.

Section provided_methods.
Context {D St : Type} {HS : BlockSet D St} {P : Pages}.

(** [BlockSet::read_slice]: returns the bytes written to [buf], of length [len]. *)
Definition read_slice (d : D) (s : St) (offset len : nat) : res (list byte) :=
  let start_pos := offset / BLOCK_SIZE in
  let end_pos := (offset + len + BLOCK_SIZE - 1) / BLOCK_SIZE in
  if bs_nblocks d <? end_pos then Err InvalidArgs
  else
    nblocks ← usub end_pos start_pos;
    _ ← Buf_alloc 0 nblocks;
    blocks ← bs_read d s start_pos nblocks;
    let offset := offset mod BLOCK_SIZE in
    slice blocks offset (offset + len).

(** [BlockSet::write_slice]. *)
Definition write_slice (d : D) (s : St) (offset : nat) (buf : list byte) : res St :=
  let start_pos := offset / BLOCK_SIZE in
  let end_pos := (offset + length buf + BLOCK_SIZE - 1) / BLOCK_SIZE in
  if bs_nblocks d <? end_pos then Err InvalidArgs
  else
    nblocks ← usub end_pos start_pos;
    blocks ← Buf_alloc 0 nblocks;
    (* Maybe we should read the first block partially. *)
    let start_offset := offset mod BLOCK_SIZE in
    blocks ← (if negb (start_offset =? 0) then
                _ ← Buf_alloc 1 1;
                start_block ← bs_read d s start_pos 1;
                part ← slice start_block 0 start_offset;
                copy_from_slice blocks 0 start_offset part
              else Ok blocks);
    (* Copy the input buffer to the write buffer. *)
    let end_offset := start_offset + length buf in
    blocks ← copy_from_slice blocks start_offset end_offset buf;
    (* Maybe we should read the last block partially. *)
    blocks ← (if negb (end_offset mod BLOCK_SIZE =? 0) then
                _ ← Buf_alloc 2 1;
                end_block ← bs_read d s end_pos 1;
                part ← slice end_block (end_offset mod BLOCK_SIZE) (length end_block);
                copy_from_slice blocks end_offset (length blocks) part
              else Ok blocks);
    bs_write d s start_pos blocks.
End provided_methods.

(** [MemDisk]: a region of a shared in-memory disk. *)
Record MemDisk := mkMemDisk { region_start : BlockId; region_end : BlockId }.

(** [MemDisk::create]: a handle on the whole disk, and the fresh store. *)
Definition MemDisk_create {P : Pages} (num_blocks : nat) : res (MemDisk * list byte) :=
  blocks ← Buf_alloc 0 num_blocks; Ok (mkMemDisk 0 num_blocks, blocks).

Definition MemDisk_nblocks (d : MemDisk) : nat := region_end d - region_start d.

Definition MemDisk_read (d : MemDisk) (disk : list byte) (pos n : nat) : res (list byte) :=
  e ← uadd pos n;
  if region_end d <? e then Err InvalidArgs
  else
    let offset := (region_start d + pos) * BLOCK_SIZE in
    let buf_len := n * BLOCK_SIZE in
    slice disk offset (offset + buf_len).

Definition MemDisk_write (d : MemDisk) (disk : list byte) (pos : nat) (buf : list byte)
    : res (list byte) :=
  e ← uadd pos (nblocks_of buf);
  if region_end d <? e then Err InvalidArgs
  else
    let offset := (region_start d + pos) * BLOCK_SIZE in
    let buf_len := length buf in
    copy_from_slice disk offset (offset + buf_len) buf.

Definition MemDisk_subset (d : MemDisk) (start end_ : BlockId) : res MemDisk :=
  e ← uadd (region_start d) end_;
  if region_end d <? e then Err InvalidArgs
  else Ok (mkMemDisk (region_start d + start) (region_start d + end_)).

Definition MemDisk_flush (d : MemDisk) (disk : list byte) : res (list byte) := Ok disk.

#[export] Instance MemDisk_BlockSet : BlockSet MemDisk (list byte) := {|
  bs_read := MemDisk_read;
  bs_write := MemDisk_write;
  bs_subset := MemDisk_subset;
  bs_flush := MemDisk_flush;
  bs_nblocks := MemDisk_nblocks;
|}.

(** ** block_log.rs *)

(** The trait [BlockLog], by value: a log owns its state. *)
Class BlockLog (L : Type) := {
  bl_read : L → BlockId → nat → res (list byte);
  bl_append : L → list byte → res (BlockId * L);
  bl_flush : L → res L;
  bl_nblocks : L → nat;
}.

(** [MemLog]: an in-memory log. *)
Record MemLog := mkMemLog { ml_log : list byte; ml_append_pos : nat }.

Definition MemLog_create {P : Pages} (num_blocks : nat) : res MemLog :=
  b ← Buf_alloc 0 num_blocks; Ok (mkMemLog b 0).

Definition MemLog_offset (pos : BlockId) : nat := pos * BLOCK_SIZE.

Definition MemLog_read (l : MemLog) (pos n : nat) : res (list byte) :=
  e ← uadd pos n;
  if ml_append_pos l <? e then Err InvalidArgs
  else slice (ml_log l) (MemLog_offset pos) (MemLog_offset pos + n * BLOCK_SIZE).

Definition MemLog_append (l : MemLog) (buf : list byte) : res (BlockId * MemLog) :=
  let nblocks := nblocks_of buf in
  let pos := ml_append_pos l in
  if length (ml_log l) / BLOCK_SIZE <? pos + nblocks then Err InvalidArgs
  else
    log' ← copy_from_slice (ml_log l) (MemLog_offset pos)
             (MemLog_offset pos + nblocks * BLOCK_SIZE) buf;
    Ok (pos, mkMemLog log' (pos + nblocks)).

#[export] Instance MemLog_BlockLog : BlockLog MemLog := {|
  bl_read := MemLog_read;
  bl_append := MemLog_append;
  bl_flush l := Ok l;
  bl_nblocks := ml_append_pos;
|}.

(** ** block_ring.rs *)
Record BlockRing (D : Type) := mkBlockRing { br_storage : D; br_cursor : option BlockId }.
Arguments mkBlockRing {D}.
Arguments br_storage {D}.
Arguments br_cursor {D}.

Section block_ring.
Context {D St : Type} {HS : BlockSet D St}.

Definition BlockRing_new (storage : D) : BlockRing D := mkBlockRing storage None.

Definition set_cursor (r : BlockRing D) (new_cursor : BlockId) : BlockRing D :=
  mkBlockRing (br_storage r) (Some new_cursor).

(** The remainder panics on an empty block set. *)
Definition ring_pos (r : BlockRing D) (pos : BlockId) : res BlockId :=
  if bs_nblocks (br_storage r) =? 0 then Panic
  else Ok (pos mod bs_nblocks (br_storage r)).

Definition BlockRing_read (r : BlockRing D) (s : St) (pos n : nat) : res (list byte) :=
  p ← ring_pos r pos; bs_read (br_storage r) s p n.

Definition BlockRing_append (r : BlockRing D) (s : St) (buf : list byte)
    : res (BlockId * (BlockRing D * St)) :=
  cursor ← unwrap (br_cursor r);
  pos ← ring_pos r cursor;
  let new_cursor := cursor + nblocks_of buf in
  s' ← bs_write (br_storage r) s pos buf;
  Ok (cursor, (set_cursor r new_cursor, s')).

Definition BlockRing_flush (r : BlockRing D) (s : St) : res St := bs_flush (br_storage r) s.

Definition BlockRing_nblocks (r : BlockRing D) : nat := default 0 (br_cursor r).
End block_ring.

#[export] Instance BlockRing_BlockLog {D St} {HS : BlockSet D St} :
    BlockLog (BlockRing D * St) := {|
  bl_read l := BlockRing_read l.1 l.2;
  bl_append l := BlockRing_append l.1 l.2;
  bl_flush l := s ← BlockRing_flush l.1 l.2; Ok (l.1, s);
  bl_nblocks l := BlockRing_nblocks l.1;
|}.

(** ** Blocks of a spliced buffer *)

Lemma nth_block_lookup buf j k :
  nth_block buf j !! k = if k <? BLOCK_SIZE then buf !! (j * BLOCK_SIZE + k) else None.
Proof.
  unfold nth_block. destruct (k <? BLOCK_SIZE) eqn:E; bool_simpl.
  - by rewrite lookup_take_lt, lookup_drop by done.
  - apply lookup_take_ge. done.
Qed.

Lemma nth_block_splice l p n buf j :
  length buf = n * BLOCK_SIZE → (p + n) * BLOCK_SIZE ≤ length l →
  nth_block (splice l (p * BLOCK_SIZE) buf) j
  = if (p <=? j) && (j <? p + n) then nth_block buf (j - p) else nth_block l j.
Proof.
  intros Hb Hl. pose proof BLOCK_SIZE_pos. apply list_eq. intros k.
  rewrite nth_block_lookup, splice_lookup by nia.
  destruct ((p <=? j) && (j <? p + n)) eqn:E; rewrite nth_block_lookup;
    destruct (k <? BLOCK_SIZE) eqn:Ek; try done; bool_simpl.
  - rewrite (proj2 (Nat.leb_le _ _)), (proj2 (Nat.ltb_lt _ _)) by nia.
    simpl. f_equal. nia.
  - rewrite (proj2 (andb_false_iff _ _)); [done|].
    apply andb_false_iff in E as [E|E]; bool_simpl;
      [left; apply Nat.leb_gt|right; apply Nat.ltb_ge]; nia.
Qed.

Lemma map_seq_shift {A} (f : nat → A) a i n :
  map (λ j, f (a + j)) (seq i n) = map f (seq (a + i) n).
Proof.
  revert i. induction n as [|n IH]; intros i; simpl; [done|].
  by rewrite IH, Nat.add_succ_r.
Qed.

(** ** [MemDisk] is an array of blocks *)
Section mem_disk.
Implicit Types (d : MemDisk) (s : list byte).

Definition md_valid d s : Prop :=
  region_start d ≤ region_end d ∧ region_end d * BLOCK_SIZE ≤ length s ∧
  usize_ok (length s) = true.
Definition md_block d s (i : nat) : list byte := nth_block s (region_start d + i).
Definition md_disjoint d d' : Prop :=
  region_end d ≤ region_start d' ∨ region_end d' ≤ region_start d.

Lemma md_in_range d s pos n :
  md_valid d s → pos + n ≤ MemDisk_nblocks d →
  uadd pos n = Ok (pos + n) ∧ (region_end d <? pos + n) = false ∧
  (region_start d + pos + n) * BLOCK_SIZE ≤ length s.
Proof.
  unfold md_valid, MemDisk_nblocks. intros (? & ? & ?) ?.
  pose proof BLOCK_SIZE_pos. split; [|split].
  - apply uadd_ok. eapply usize_ok_le; [|done]. nia.
  - apply Nat.ltb_ge. lia.
  - nia.
Qed.

Lemma md_read_ok d s pos n :
  md_valid d s → 0 < n → pos + n ≤ MemDisk_nblocks d →
  MemDisk_read d s pos n = Ok (concat (map (md_block d s) (seq pos n))).
Proof.
  intros Hv Hn Hp. destruct (md_in_range _ _ _ _ Hv Hp) as (Hu & Hr & Hl).
  unfold MemDisk_read. rewrite Hu. simpl. rewrite Hr.
  rewrite slice_ok by (try apply Nat.le_add_r; lia).
  unfold md_block. rewrite map_seq_shift. fold (blocks_from s (region_start d + pos) n).
  rewrite take_block_concat. do 2 f_equal. lia.
Qed.

(** A write inside the region succeeds and splices the store. *)
Lemma md_write_eq d s pos n buf :
  md_valid d s → is_buf n buf → pos + n ≤ MemDisk_nblocks d →
  MemDisk_write d s pos buf =
    Ok (splice s ((region_start d + pos) * BLOCK_SIZE) buf).
Proof.
  intros Hv Hb Hp. destruct (md_in_range _ _ _ _ Hv Hp) as (Hu & Hr & Hl).
  unfold MemDisk_write. rewrite (nblocks_of_is_buf n) by done. rewrite Hu. simpl.
  rewrite Hr. destruct Hb as [_ Hb]. apply copy_from_slice_ok; lia.
Qed.

(** What the write changes, seen through any handle. *)
Lemma md_write_blocks d d' s s' pos n buf :
  md_valid d s → md_valid d' s → is_buf n buf → pos + n ≤ MemDisk_nblocks d →
  MemDisk_write d s pos buf = Ok s' →
  md_valid d' s' ∧
  ∀ i, md_block d' s' i =
         if (region_start d + pos <=? region_start d' + i)
            && (region_start d' + i <? region_start d + pos + n)
         then nth_block buf (region_start d' + i - (region_start d + pos))
         else md_block d' s i.
Proof.
  intros Hv Hv' Hb Hp Hw. rewrite (md_write_eq _ _ _ n) in Hw by done.
  injection Hw as <-. destruct (md_in_range _ _ _ _ Hv Hp) as (_ & _ & Hl).
  destruct Hb as [_ Hb]. split.
  - unfold md_valid in *. by rewrite splice_length by lia.
  - intros i. unfold md_block. by apply nth_block_splice.
Qed.
End mem_disk.

#[export] Program Instance MemDisk_spec : BlockSetSpec MemDisk (list byte) := {|
  bs_valid := md_valid;
  bs_block := md_block;
  bs_disjoint := md_disjoint;
|}.
Next Obligation.
  intros d s i (? & Hl & ?) Hi. unfold bs_nblocks, MemDisk_BlockSet, MemDisk_nblocks in Hi.
  unfold md_block, nth_block. rewrite length_take, length_drop.
  pose proof BLOCK_SIZE_pos. nia.
Qed.
Next Obligation. apply md_read_ok. Qed.
Next Obligation.
  intros d s pos n buf Hv Hb Hp. eexists. split; [by apply (md_write_eq _ _ _ n)|].
  destruct (md_write_blocks d d s _ pos n buf Hv Hv Hb Hp (md_write_eq _ _ _ n _ Hv Hb Hp))
    as [Hv' Hblk].
  split; [done|]. intros i Hi. rewrite Hblk.
  replace (region_start d + i - (region_start d + pos)) with (i - pos) by lia.
  destruct ((pos <=? i) && (i <? pos + n)) eqn:E.
  - apply andb_true_iff in E as [?%Nat.leb_le ?%Nat.ltb_lt].
    by rewrite (proj2 (Nat.leb_le _ _)), (proj2 (Nat.ltb_lt _ _)) by lia.
  - rewrite (proj2 (andb_false_iff _ _)); [done|].
    apply andb_false_iff in E as [?%Nat.leb_gt|?%Nat.ltb_ge].
    + left. apply Nat.leb_gt. lia.
    + right. apply Nat.ltb_ge. lia.
Qed.
Next Obligation.
  intros d d' s s' pos n buf Hv Hv' Hd Hb Hp Hw.
  destruct (md_write_blocks d d' s s' pos n buf Hv Hv' Hb Hp Hw) as [Hv'' Hblk].
  split; [done|]. intros i Hi. rewrite Hblk.
  unfold bs_nblocks, MemDisk_BlockSet, MemDisk_nblocks, md_disjoint, md_valid in *.
  rewrite (proj2 (andb_false_iff _ _)); [done|].
  destruct Hd; [right; apply Nat.ltb_ge|left; apply Nat.leb_gt]; lia.
Qed.
Next Obligation. done. Qed.

(** ** The provided methods, for any block set *)

Lemma length_concat_blocks (f : nat → list byte) i n :
  (∀ j, i ≤ j < i + n → length (f j) = BLOCK_SIZE) →
  length (concat (map f (seq i n))) = n * BLOCK_SIZE.
Proof.
  revert i. induction n as [|n IH]; intros i Hf; simpl; [done|].
  rewrite length_app, IH by (intros; apply Hf; lia). rewrite Hf by lia. done.
Qed.

Lemma concat_seq_drop (f : nat → list byte) p n N :
  (∀ i, i < N → length (f i) = BLOCK_SIZE) → p + n ≤ N →
  concat (map f (seq p n))
  = take (n * BLOCK_SIZE) (drop (p * BLOCK_SIZE) (concat (map f (seq 0 N)))).
Proof.
  intros Hf Hp. replace N with (p + (n + (N - p - n))) by lia.
  rewrite !seq_app, !map_app, !concat_app. simpl.
  rewrite drop_app_length' by (symmetry; apply length_concat_blocks; intros; apply Hf; lia).
  rewrite take_app_length'; [done|].
  symmetry. apply length_concat_blocks. intros. apply Hf. lia.
Qed.

Section provided_spec.
Context {D St : Type} {HS : BlockSet D St} {HSS : BlockSetSpec D St}.
Context {P : Pages} {HP : PagesSpec P}.
Implicit Types (d : D) (s : St).

(** The content of a block set as one byte string. *)
Definition flat d s : list byte := concat (map (bs_block d s) (seq 0 (bs_nblocks d))).

Lemma bs_read_flat d s pos n :
  bs_valid d s → 0 < n → pos + n ≤ bs_nblocks d →
  bs_read d s pos n = Ok (take (n * BLOCK_SIZE) (drop (pos * BLOCK_SIZE) (flat d s))).
Proof.
  intros Hv Hn Hp. rewrite bs_read_ok by done. f_equal. apply concat_seq_drop; [|done].
  intros. by apply bs_block_length.
Qed.

Lemma flat_length d s : bs_valid d s → length (flat d s) = bs_nblocks d * BLOCK_SIZE.
Proof. intros. apply length_concat_blocks. intros. apply bs_block_length; [done|lia]. Qed.

(** [s'] is [s] on everything disjoint from [d]. *)
Definition framed d s s' : Prop :=
  ∀ d', bs_valid d' s → bs_disjoint d d' →
    bs_valid d' s' ∧ ∀ i, i < bs_nblocks d' → bs_block d' s' i = bs_block d' s i.

Lemma write_framed d s s' pos n buf :
  bs_valid d s → is_buf n buf → pos + n ≤ bs_nblocks d → bs_write d s pos buf = Ok s' → framed d s s'.
Proof. intros Hv Hb Hp Hw d' Hv' Hd. exact (bs_write_frame d d' s s' pos n buf Hv Hv' Hd Hb Hp Hw). Qed.

Lemma framed_trans d s s1 s2 : framed d s s1 → framed d s1 s2 → framed d s s2.
Proof.
  intros H1 H2 d' Hv Hd. destruct (H1 d' Hv Hd) as [Hv1 Hb1]. destruct (H2 d' Hv1 Hd) as [Hv2 Hb2].
  split; [done|]. intros i Hi. by rewrite Hb2, Hb1.
Qed.

Lemma framed_flat d s s' d' :
  framed d s s' → bs_valid d' s → bs_disjoint d d' → bs_valid d' s' ∧ flat d' s' = flat d' s.
Proof.
  intros Hf Hv Hd. destruct (Hf d' Hv Hd) as [Hv' Hb]. split; [done|]. unfold flat. f_equal.
  apply map_ext_in. intros i Hi%in_seq. apply Hb. lia.
Qed.

(** The block range that covers a byte range. *)
Lemma slice_cover offset len N :
  0 < len → offset + len ≤ N * BLOCK_SIZE →
  let sp := offset / BLOCK_SIZE in
  let ep := (offset + len + BLOCK_SIZE - 1) / BLOCK_SIZE in
  sp < ep ∧ ep ≤ N ∧ offset mod BLOCK_SIZE + len ≤ (ep - sp) * BLOCK_SIZE ∧
  offset = sp * BLOCK_SIZE + offset mod BLOCK_SIZE.
Proof.
  intros Hlen Hoff sp ep. pose proof BLOCK_SIZE_pos.
  pose proof (Nat.div_mod_eq offset BLOCK_SIZE) as H1. fold sp in H1.
  pose proof (Nat.div_mod_eq (offset + len + BLOCK_SIZE - 1) BLOCK_SIZE) as H2. fold ep in H2.
  pose proof (Nat.mod_upper_bound offset BLOCK_SIZE ltac:(lia)).
  pose proof (Nat.mod_upper_bound (offset + len + BLOCK_SIZE - 1) BLOCK_SIZE ltac:(lia)).
  assert (sp < ep) by nia. repeat split; [done|nia|nia|nia].
Qed.

Lemma read_slice_ok d s offset len :
  bs_valid d s → 0 < len → offset + len ≤ bs_nblocks d * BLOCK_SIZE →
  read_slice d s offset len = Ok (take len (drop offset (flat d s))).
Proof.
  intros Hv Hlen Hoff. unfold read_slice.
  destruct (slice_cover _ _ _ Hlen Hoff) as (Hse & HeN & Hcov & Hsp).
  set (sp := offset / BLOCK_SIZE) in *.
  set (ep := (offset + len + BLOCK_SIZE - 1) / BLOCK_SIZE) in *.
  rewrite (proj2 (Nat.ltb_ge _ _)) by done. rewrite usub_ok by lia. simpl.
  destruct (Buf_alloc_ok 0 (ep - sp)) as (b & -> & _); [lia|]. simpl.
  rewrite bs_read_flat by (done || lia). simpl.
  rewrite slice_ok.
  - f_equal. replace (drop offset (flat d s))
      with (drop (offset mod BLOCK_SIZE) (drop (sp * BLOCK_SIZE) (flat d s)))
      by (rewrite drop_drop; f_equal; lia).
    replace (offset mod BLOCK_SIZE + len - offset mod BLOCK_SIZE) with len by lia.
    rewrite skipn_firstn_comm.
    rewrite take_take. f_equal. lia.
  - lia.
  - rewrite length_take, length_drop, flat_length by done. nia.
Qed.

Lemma bs_read_one d s pos :
  bs_valid d s → pos < bs_nblocks d → bs_read d s pos 1 = Ok (bs_block d s pos).
Proof.
  intros. rewrite bs_read_ok by (done || lia). simpl. by rewrite app_nil_r.
Qed.

(** The head of the write buffer after the partial read of the first block. *)
Lemma write_slice_head d s sp so b0 :
  bs_valid d s → sp < bs_nblocks d → so < BLOCK_SIZE → length b0 = BLOCK_SIZE →
  ∃ c, (if negb (so =? 0) then
          _ ← Buf_alloc 1 1; start_block ← bs_read d s sp 1;
          part ← slice start_block 0 so; copy_from_slice b0 0 so part
        else Ok b0) = Ok c ∧
       length c = BLOCK_SIZE ∧ take so c = take so (bs_block d s sp).
Proof.
  intros Hv Hsp Hso Hb0. destruct (so =? 0) eqn:E; bool_simpl; cbn [negb].
  - exists b0. by rewrite E, !take_0.
  - destruct (Buf_alloc_ok 1 1) as (b1 & -> & _); [lia|].
    rewrite bs_read_one by done. bind_step.
    pose proof (bs_block_length d s sp Hv Hsp) as Hl0.
    rewrite slice_ok by lia. bind_step. rewrite Nat.sub_0_r, drop_0.
    assert (Hlt : length (take so (bs_block d s sp)) = so) by (rewrite length_take; lia).
    rewrite copy_from_slice_ok by lia. eexists. split; [done|]. split.
    + by rewrite splice_length by lia.
    + pose proof (splice_read b0 0 (take so (bs_block d s sp)) ltac:(lia)) as Hr.
      by rewrite drop_0, Hlt in Hr.
Qed.

(** A buffer whose head, middle and tail have been written. *)
Lemma splice_splice (c buf tail : list byte) so :
  length c = so + length buf + length tail →
  splice (splice c so buf) (so + length buf) tail = take so c ++ buf ++ tail.
Proof.
  intros Hc. unfold splice at 1.
  rewrite drop_ge by (rewrite splice_length by lia; lia).
  by rewrite app_nil_r, take_add_split, splice_read, splice_take, <-app_assoc by lia.
Qed.

(** A slice strictly inside block [sp]: what [write_slice] stores there.  The
    tail comes from block [sp + 1], the block at [end_pos]. *)
Lemma write_slice_inner d s offset buf so sp :
  offset = sp * BLOCK_SIZE + so →
  bs_valid d s → 0 < length buf → so + length buf < BLOCK_SIZE → sp + 1 < bs_nblocks d →
  ∃ s', write_slice d s offset buf = Ok s' ∧ bs_valid d s' ∧
    bs_block d s' sp =
      take so (bs_block d s sp) ++ buf ++ drop (so + length buf) (bs_block d s (sp + 1)) ∧
    ∀ i, i < bs_nblocks d → i ≠ sp → bs_block d s' i = bs_block d s i.
Proof.
  intros Hoff Hv Hlen Hin Hsp. unfold write_slice.
  assert ((offset + length buf + BLOCK_SIZE - 1) / BLOCK_SIZE = sp + 1) as ->.
  { symmetry. apply Nat.div_unique with (so + length buf - 1); lia. }
  assert (offset / BLOCK_SIZE = sp) as ->.
  { symmetry. apply Nat.div_unique with so; lia. }
  assert (offset mod BLOCK_SIZE = so) as ->.
  { symmetry. apply Nat.mod_unique with sp; lia. }
  rewrite (proj2 (Nat.ltb_ge _ _)) by lia. rewrite usub_ok by lia. bind_step.
  replace (sp + 1 - sp) with 1 by lia.
  destruct (Buf_alloc_ok 0 1) as (b0 & -> & Hb0); [lia|]. bind_step.
  destruct (write_slice_head d s sp so b0 Hv) as (c & -> & Hc & Htc); [lia..|].
  bind_step. rewrite copy_from_slice_ok by lia. bind_step.
  rewrite (Nat.mod_small (so + length buf)) by lia.
  rewrite (proj2 (Nat.eqb_neq (so + length buf) 0)) by lia. cbn [negb].
  destruct (Buf_alloc_ok 2 1) as (b2 & -> & _); [lia|]. bind_step.
  rewrite bs_read_one by done. bind_step.
  pose proof (bs_block_length d s (sp + 1) Hv Hsp) as Hl1.
  rewrite slice_ok by lia. bind_step. rewrite splice_length by lia.
  rewrite (take_ge (drop _ _)) by (rewrite length_drop; lia).
  set (tail := drop _ (bs_block d s (sp + 1))).
  assert (Htl : length tail = BLOCK_SIZE - (so + length buf))
    by (unfold tail; rewrite length_drop; lia).
  rewrite copy_from_slice_ok by (rewrite ?splice_length by lia; lia). bind_step.
  rewrite splice_splice, Htc by lia.
  assert (Hbl : length (take so (bs_block d s sp) ++ buf ++ tail) = BLOCK_SIZE).
  { rewrite !length_app, length_take, (bs_block_length d s sp) by (done || lia). lia. }
  destruct (bs_write_ok d s sp 1 _ Hv ltac:(split; [lia|]; rewrite Hbl; lia) ltac:(lia))
    as (s' & -> & Hv' & Hblk).
  exists s'. split; [done|]. split; [done|]. split.
  - rewrite Hblk, (proj2 (Nat.leb_le _ _)), (proj2 (Nat.ltb_lt _ _)), Nat.sub_diag by lia.
    unfold nth_block. cbn [andb]. rewrite Nat.mul_0_l, drop_0, take_ge; [done|lia].
  - intros i Hi Hne. rewrite Hblk by done. rewrite (proj2 (andb_false_iff _ _)); [done|].
    rewrite Nat.leb_gt, Nat.ltb_ge. lia.
Qed.
End provided_spec.

(** ** The ring emulates an unbounded log *)
Lemma mod_window_inj a b n : 0 < n → a < b → b < a + n → a mod n ≠ b mod n.
Proof.
  intros Hn Hab Hw Heq.
  pose proof (Nat.div_mod_eq a n). pose proof (Nat.div_mod_eq b n).
  rewrite Heq in *. destruct (decide (b / n ≤ a / n)); [nia|].
  assert (n * (a / n + 1) ≤ n * (b / n)) by (apply Nat.mul_le_mono_l; lia). lia.
Qed.

Section ring_spec.
Context {D St : Type} {HS : BlockSet D St} {HSS : BlockSetSpec D St}.

(** [log] is everything appended since position 0; the ring still holds its last
    [bs_nblocks] blocks. *)
Definition ring_log (r : BlockRing D) (s : St) (log : list (list byte)) : Prop :=
  br_cursor r = Some (length log) ∧ bs_valid (br_storage r) s ∧
  0 < bs_nblocks (br_storage r) ∧
  ∀ i b, length log ≤ i + bs_nblocks (br_storage r) → log !! i = Some b →
         bs_block (br_storage r) s (i mod bs_nblocks (br_storage r)) = b.

Lemma ring_log_read r s log i b :
  ring_log r s log → length log ≤ i + bs_nblocks (br_storage r) → log !! i = Some b →
  BlockRing_read r s i 1 = Ok b.
Proof.
  intros (_ & Hv & Hn & Hw) Hi Hb. unfold BlockRing_read, ring_pos.
  rewrite (proj2 (Nat.eqb_neq _ _)) by lia. simpl.
  rewrite bs_read_one by (try done; apply Nat.mod_upper_bound; lia).
  f_equal. by apply Hw.
Qed.

Lemma ring_log_append r s log b :
  ring_log r s log → length b = BLOCK_SIZE →
  ∃ r' s', BlockRing_append r s b = Ok (length log, (r', s')) ∧
           br_storage r' = br_storage r ∧ ring_log r' s' (log ++ [b]).
Proof.
  intros (Hc & Hv & Hn & Hw) Hb. pose proof BLOCK_SIZE_pos.
  unfold BlockRing_append, ring_pos. rewrite Hc. simpl.
  rewrite (proj2 (Nat.eqb_neq _ _)) by lia. simpl.
  set (n := bs_nblocks (br_storage r)) in *.
  assert (Hbuf : is_buf 1 b) by (split; lia).
  pose proof (Nat.mod_upper_bound (length log) n ltac:(lia)).
  destruct (bs_write_ok (br_storage r) s (length log mod n) 1 b) as (s' & -> & Hv' & Hblk);
    [done..|fold n; lia|].
  simpl. do 2 eexists. split; [done|]. split; [done|].
  split; [simpl; rewrite (nblocks_of_is_buf 1), length_app by done; simpl; by f_equal|].
  split; [done|]. split; [done|]. simpl. fold n. intros i c Hi Hc'.
  pose proof (Nat.mod_upper_bound i n ltac:(lia)).
  rewrite length_app in Hi. simpl in Hi. rewrite Hblk by done.
  destruct (decide (i = length log)) as [->|Hne].
  - rewrite lookup_app_r, Nat.sub_diag in Hc' by lia. injection Hc' as <-.
    rewrite (proj2 (Nat.leb_le _ _)), (proj2 (Nat.ltb_lt _ _)), Nat.sub_diag by lia.
    unfold nth_block. simpl. by rewrite drop_0, take_ge by lia.
  - assert (Hil : i < length log).
    { apply lookup_lt_Some in Hc'. rewrite length_app in Hc'. simpl in Hc'. lia. }
    rewrite lookup_app_l in Hc' by done.
    pose proof (mod_window_inj i (length log) n Hn Hil ltac:(lia)).
    rewrite (proj2 (andb_false_iff _ _)) by (rewrite Nat.leb_gt, Nat.ltb_ge; lia).
    apply Hw; [lia|done].
Qed.
End ring_spec.

Lemma md_read_one d s i :
  md_valid d s → i < MemDisk_nblocks d → MemDisk_read d s i 1 = Ok (md_block d s i).
Proof. exact (bs_read_one (HSS := MemDisk_spec) d s i). Qed.

(** ** Properties *)

(** [MemDisk] is an array of blocks shared by its handles: a write inside the
    region of [d] succeeds, a later read through [d] returns the written blocks
    where they overlap and the old ones elsewhere, and a handle on a disjoint
    region sees no change. *)
Theorem memdisk_array (d d' : MemDisk) (s : list byte) (pos n : nat) (buf : list byte) :
  md_valid d s → md_valid d' s → md_disjoint d d' →
  is_buf n buf → pos + n ≤ MemDisk_nblocks d →
  ∃ s', MemDisk_write d s pos buf = Ok s' ∧
    (∀ i, i < MemDisk_nblocks d →
       MemDisk_read d s' i 1 =
         if (pos <=? i) && (i <? pos + n) then Ok (nth_block buf (i - pos))
         else MemDisk_read d s i 1) ∧
    (∀ i, i < MemDisk_nblocks d' → MemDisk_read d' s' i 1 = MemDisk_read d' s i 1).
Proof.
  intros Hv Hv' Hd Hb Hp.
  destruct (@bs_write_ok _ _ _ MemDisk_spec d s pos n buf Hv Hb Hp) as (s' & Hw & Hvs & Hblk).
  destruct (@bs_write_frame _ _ _ MemDisk_spec d d' s s' pos n buf Hv Hv' Hd Hb Hp Hw)
    as [Hvs' Hfr].
  exists s'. split; [exact Hw|]. split; intros i Hi.
  - rewrite !md_read_one by done. simpl in Hblk. rewrite Hblk by exact Hi.
    by destruct (_ && _).
  - rewrite !md_read_one by done. f_equal. by apply Hfr.
Qed.

(** the range check of [MemDisk::read] compares with the absolute end of the
    region although the position is relative to its start: through a subset
    that starts after block 0, a read past the last block of the subset, with
    [pos] below that absolute end, succeeds and returns a block of the disk
    outside the subset. *)
Theorem memdisk_subset_escape (d : MemDisk) (s : list byte) (pos : nat) :
  0 < region_start d → MemDisk_nblocks d ≤ pos < region_end d →
  (region_start d + pos + 1) * BLOCK_SIZE ≤ length s → usize_ok (length s) = true →
  MemDisk_read d s pos 1 = Ok (nth_block s (region_start d + pos)) ∧
  region_end d ≤ region_start d + pos.
Proof.
  intros Hst Hpos Hl Hu. pose proof BLOCK_SIZE_pos. unfold MemDisk_nblocks in Hpos.
  unfold MemDisk_read. rewrite uadd_ok by (eapply usize_ok_le; [|done]; nia). simpl.
  rewrite (proj2 (Nat.ltb_ge _ _)) by lia. rewrite slice_ok by nia.
  split; [|lia]. unfold nth_block. do 2 f_equal. lia.
Qed.

(** [BlockSet::read_slice], on any block set that is an array of blocks, returns
    exactly the bytes [offset .. offset + len] of its content. *)
Theorem read_slice_correct {D St : Type} {HS : BlockSet D St} {HSS : BlockSetSpec D St}
    {P : Pages} {HP : PagesSpec P} (d : D) (s : St) (offset len : nat) :
  bs_valid d s → 0 < len → offset + len ≤ bs_nblocks d * BLOCK_SIZE →
  read_slice d s offset len = Ok (take len (drop offset (flat d s))).
Proof. apply read_slice_ok. Qed.

(** [BlockSet::write_slice] of a slice that ends inside block [sp] fills the rest
    of that block from block [sp + 1] (the block at [end_pos]) instead of
    keeping the bytes block [sp] had there. *)
Theorem write_slice_tail {D St : Type} {HS : BlockSet D St} {HSS : BlockSetSpec D St}
    {P : Pages} {HP : PagesSpec P} (d : D) (s : St) (offset : nat) (buf : list byte) :
  let so := offset mod BLOCK_SIZE in
  let sp := offset / BLOCK_SIZE in
  bs_valid d s → 0 < length buf → so + length buf < BLOCK_SIZE → sp + 1 < bs_nblocks d →
  ∃ s', write_slice d s offset buf = Ok s' ∧
    bs_block d s' sp =
      take so (bs_block d s sp) ++ buf ++ drop (so + length buf) (bs_block d s (sp + 1)).
Proof.
  intros so sp Hv Hl Hs Hn.
  assert (Hoff : offset = sp * BLOCK_SIZE + so).
  { unfold so, sp. pose proof (Nat.div_mod_eq offset BLOCK_SIZE). lia. }
  destruct (write_slice_inner d s offset buf so sp Hoff Hv Hl Hs Hn)
    as (s' & H1 & _ & H2 & _). eauto.
Qed.


(** iterating a block buffer yields its blocks in order: [nblocks] of them, each of
    [BLOCK_SIZE] bytes, concatenating to the buffer; the iteration ends within
    [nblocks + 1] calls of [next]. *)
Theorem buf_iter_blocks (n : nat) (buf : list byte) :
  is_buf n buf →
  ∃ bs, BufIter_collect (S n) (Buf_iter buf) = Ok bs ∧
        length bs = nblocks_of buf ∧ concat bs = buf ∧ Forall (λ b, length b = BLOCK_SIZE) bs.
Proof.
  intros [Hn Hl]. exists (blocks_from buf 0 n). split; [|split; [|split]].
  - pose proof (BufIter_collect_ok n buf 0 (S n) Hl) as H. simpl in H.
    rewrite Nat.sub_0_r in H. apply H; lia.
  - rewrite (nblocks_of_is_buf n) by done. unfold blocks_from. by rewrite length_map, length_seq.
  - by apply concat_blocks.
  - apply Forall_forall. intros b Hb. apply list_elem_of_In, in_map_iff in Hb as (i & <- & Hi).
    apply in_seq in Hi. by apply (nth_block_length n); lia.
Qed.

(** A disk of three blocks filled with 1, 2 and 3, a handle on all of it and two
    handles on parts of it, for the witnesses. *)
Definition demo_block (x : Z) : list byte := replicate BLOCK_SIZE x.
Definition demo_disk : list byte := demo_block 1 ++ demo_block 2 ++ demo_block 3.
Definition demo_all : MemDisk := mkMemDisk 0 3.
Definition demo_mid : MemDisk := mkMemDisk 1 2.
Definition demo_low : MemDisk := mkMemDisk 0 1.

Lemma demo_disk_usize : usize_ok (length demo_disk) = true.
Proof. vm_compute. reflexivity. Qed.

Lemma demo_disk_length : length demo_disk = 3 * BLOCK_SIZE.
Proof. unfold demo_disk, demo_block. rewrite !length_app, !length_replicate. lia. Qed.

Lemma demo_valid d :
  region_start d ≤ region_end d → region_end d ≤ 3 → md_valid d demo_disk.
Proof.
  intros. split; [done|]. rewrite demo_disk_length. split; [nia|].
  rewrite <-demo_disk_length. apply demo_disk_usize.
Qed.

Lemma demo_block_is_buf x : is_buf 1 (demo_block x).
Proof. split; [lia|]. unfold demo_block. rewrite length_replicate. lia. Qed.

Lemma memdisk_array_witness :
  ∃ s', MemDisk_write demo_low demo_disk 0 (demo_block 9) = Ok s' ∧
        MemDisk_read demo_low s' 0 1 = Ok (demo_block 9) ∧
        MemDisk_read demo_mid s' 0 1 = Ok (demo_block 2).
Proof.
  destruct (memdisk_array demo_low demo_mid demo_disk 0 1 (demo_block 9))
    as (s' & Hw & Hr & Hf).
  - by apply demo_valid; simpl; lia.
  - by apply demo_valid; simpl; lia.
  - left. simpl. lia.
  - apply demo_block_is_buf.
  - vm_compute. lia.
  - exists s'. split; [exact Hw|]. rewrite Hr, Hf by (vm_compute; lia).
    split; vm_compute; reflexivity.
Defined.

Lemma memdisk_subset_escape_witness :
  MemDisk_read demo_mid demo_disk 1 1 = Ok (demo_block 3) ∧ MemDisk_nblocks demo_mid = 1.
Proof.
  destruct (memdisk_subset_escape demo_mid demo_disk 1) as [-> _].
  - simpl. lia.
  - unfold MemDisk_nblocks. simpl. lia.
  - rewrite demo_disk_length. simpl. lia.
  - apply demo_disk_usize.
  - split; vm_compute; reflexivity.
Defined.

Lemma read_slice_correct_witness :
  read_slice (P := zero_pages) demo_all demo_disk (BLOCK_SIZE - 1) 2 = Ok [1; 2]%Z.
Proof.
  rewrite (read_slice_correct (HSS := MemDisk_spec) (HP := zero_pages_spec) demo_all demo_disk
             (BLOCK_SIZE - 1) 2).
  - vm_compute. reflexivity.
  - by apply demo_valid; simpl; lia.
  - lia.
  - pose proof BLOCK_SIZE_pos. simpl. unfold MemDisk_nblocks. simpl. lia.
Defined.

(** Writing one byte at offset 0 turns the rest of block 0 into bytes of block 1. *)
Lemma write_slice_tail_witness :
  ∃ s', write_slice (P := zero_pages) demo_all demo_disk 0 [7%Z] = Ok s' ∧
        md_block demo_all s' 0 !! 1 = Some 2%Z ∧ md_block demo_all demo_disk 0 !! 1 = Some 1%Z.
Proof.
  destruct (write_slice_tail (HSS := MemDisk_spec) (HP := zero_pages_spec) demo_all demo_disk 0 [7%Z])
    as (s' & Hw & Hb).
  - by apply demo_valid; simpl; lia.
  - simpl. lia.
  - rewrite Nat.Div0.mod_0_l. apply Nat.ltb_lt. vm_compute. reflexivity.
  - rewrite Nat.Div0.div_0_l. simpl. unfold MemDisk_nblocks. simpl. lia.
  - exists s'. split; [exact Hw|]. rewrite Nat.Div0.div_0_l in Hb. simpl in Hb.
    rewrite Hb. split; vm_compute; reflexivity.
Defined.


Lemma buf_iter_blocks_witness :
  ∃ bs, BufIter_collect 3 (Buf_iter (demo_block 1 ++ demo_block 2)) = Ok bs ∧ length bs = 2.
Proof.
  assert (is_buf 2 (demo_block 1 ++ demo_block 2)) as Hb.
  { split; [lia|]. unfold demo_block. rewrite length_app, !length_replicate. lia. }
  destruct (buf_iter_blocks 2 _ Hb) as (bs & H1 & H2 & _).
  exists bs. split; [exact H1|]. rewrite H2. by apply nblocks_of_is_buf.
Defined.

(** ** The bytes of block ids, which other layers store *)

(** [pod]: the eight bytes of a block id. *)
Class BidPod := { bid_bytes : nat → list byte; bid_from_bytes : list byte → nat }.
Definition BID_SIZE : nat := 8.
Class BidPodSpec (P : BidPod) := {
  bid_bytes_length id : length (bid_bytes id) = BID_SIZE;
  bid_roundtrip id : bid_from_bytes (bid_bytes id) = id;
}.

(** Little-endian bytes of a 64-bit id; larger numbers do not occur as ids and keep
    their high part in the last byte. *)
Fixpoint le_bytes (n : nat) (x : N) : list byte :=
  match n with 0 => [] | 1 => [Z.of_N x] | S n => Z.of_N (x mod 256) :: le_bytes n (x / 256) end.
Fixpoint le_from (l : list byte) : N :=
  match l with [] => 0 | b :: l => Z.to_N b + 256 * le_from l end.

Definition lePod : BidPod :=
  {| bid_bytes id := le_bytes 8 (N.of_nat id); bid_from_bytes l := N.to_nat (le_from l) |}.

Lemma le_roundtrip n x : 0 < n → le_from (le_bytes n x) = x.
Proof.
  revert x. induction n as [|[|n] IH]; intros x Hn; [lia|simpl; lia|].
  change (le_bytes (S (S n)) x) with (Z.of_N (x mod 256) :: le_bytes (S n) (x / 256)).
  cbn [le_from]. rewrite IH by lia. rewrite N2Z.id.
  pose proof (N.div_mod x 256 ltac:(done)). lia.
Qed.

Lemma lePod_spec : BidPodSpec lePod.
Proof.
  split; [done|]. intros id. unfold bid_from_bytes, bid_bytes. simpl lePod.
  cbn [lePod bid_bytes bid_from_bytes]. rewrite le_roundtrip by lia. apply Nat2N.id.
Qed.
