(* ===== verification/Tx.v ===== *)
(** * Tx: [core/src/tx/mod.rs] and [core/src/tx/current.rs], transactions

    A [TxProvider] keeps three lists of callbacks and, per thread, a raw pointer to
    the transaction whose context the thread is in.  The model keeps the heap of
    [Tx] objects the pointers refer to, the thread table and the rest of the
    program's state (the world the callbacks capture) in one store; code that runs
    under a transaction is a state-passing function on that store.  [realizes]
    relates a callback to its pure effect on (per-TX data, world); the claims show
    that [commit] and [abort] compose these effects in the documented order and
    hide all the pointer plumbing. *)
From S2P Require Import Prelude.

Inductive TxStatus := Ongoing | Committed | Aborted.

#[global] Instance TxStatus_eq_dec : EqDecision TxStatus.
Proof. solve_decision. Defined.

Section tx.
(** [D]: the values of the type-indexed map of per-TX data ([AnyMap]; a type is
    a number here).  [W]: the state captured by the callbacks. *)
Context {D W : Type}.

Record Tx := mkTx {
  tx_id : N;
  data_map : gmap nat D;
  status : TxStatus;
  is_accessing_data : bool;
}.

Record store := mkStore {
  heap : gmap nat Tx;          (* the Tx objects, by address *)
  tx_table : gmap nat nat;     (* thread -> address of its current Tx *)
  next_id : N;                 (* the static NEXT_ID *)
  world : W;
}.

(** Code that runs on some thread. *)
Definition comp (R : Type) : Type := nat → store → res (R * store).

Record TxProvider := mkTxProvider {
  initializer_map : gmap nat D;
  precommit_handlers : list (comp (option Errno));
  commit_handlers : list (comp unit);
  abort_handlers : list (comp unit);
}.

Definition TxProvider_new : TxProvider := mkTxProvider ∅ [] [] [].

Definition register_data_initializer (p : TxProvider) (T : nat) (init : D) : TxProvider :=
  mkTxProvider (<[T := init]> (initializer_map p)) (precommit_handlers p) (commit_handlers p)
    (abort_handlers p).

Definition register_precommit_handler (p : TxProvider) f : TxProvider :=
  mkTxProvider (initializer_map p) (precommit_handlers p ++ [f]) (commit_handlers p)
    (abort_handlers p).

Definition register_commit_handler (p : TxProvider) f : TxProvider :=
  mkTxProvider (initializer_map p) (precommit_handlers p) (commit_handlers p ++ [f])
    (abort_handlers p).

Definition register_abort_handler (p : TxProvider) f : TxProvider :=
  mkTxProvider (initializer_map p) (precommit_handlers p) (commit_handlers p)
    (abort_handlers p ++ [f]).

Definition init_data (p : TxProvider) (T : nat) : res D := unwrap (initializer_map p !! T).

(** [Tx::new]: the id counter wraps around. *)
Definition Tx_new (s : store) : Tx * store :=
  (mkTx (next_id s) ∅ Ongoing false,
   mkStore (heap s) (tx_table s) ((next_id s + 1) mod 2 ^ 64)%N (world s)).

Definition set_tx (s : store) (ptr : nat) (tx : Tx) : store :=
  mkStore (<[ptr := tx]> (heap s)) (tx_table s) (next_id s) (world s).
Definition set_table (s : store) (t : gmap nat nat) : store :=
  mkStore (heap s) t (next_id s) (world s).
Definition set_status (tx : Tx) (st : TxStatus) : Tx :=
  mkTx (tx_id tx) (data_map tx) st (is_accessing_data tx).
Definition set_accessing (tx : Tx) (b : bool) : Tx :=
  mkTx (tx_id tx) (data_map tx) (status tx) b.
Definition set_data (tx : Tx) (dm : gmap nat D) : Tx :=
  mkTx (tx_id tx) dm (status tx) (is_accessing_data tx).

(** [current::set_and_exec_with]. *)
Definition set_and_exec_with {R} (ptr : nat) (f : comp R) : comp R := λ tid s,
  let old := tx_table s !! tid in
  let s := set_table s (<[tid := ptr]> (tx_table s)) in
  _ ← assert_ (bool_decide (old = None));
  '(retval, s) ← f tid s;
  Ok (retval, set_table s (delete tid (tx_table s))).

(** [Tx::context]. *)
Definition context {R} (ptr : nat) (f : comp R) : comp R := λ tid s,
  tx ← unwrap (heap s !! ptr);
  _ ← assert_ (bool_decide (status tx = Ongoing));
  set_and_exec_with ptr f tid s.

(** [CurrentTx::get_current_mut_with]: [f] gets the transaction the pointer of
    the thread refers to. *)
Definition get_current_mut_with {R} (f : nat → comp R) : comp R := λ tid s,
  ptr ← unwrap (tx_table s !! tid);
  tx ← unwrap (heap s !! ptr);
  _ ← assert_ (negb (is_accessing_data tx));
  '(retval, s) ← f ptr tid (set_tx s ptr (set_accessing tx true));
  tx' ← unwrap (heap s !! ptr);
  Ok (retval, set_tx s ptr (set_accessing tx' false)).

Definition current_id : comp N :=
  get_current_mut_with (λ ptr _ s, tx ← unwrap (heap s !! ptr); Ok (tx_id tx, s)).

(** [Tx::data_mut]: the entry of type [T], initialised on first use. *)
Definition data_mut (p : TxProvider) (T : nat) (ptr : nat) (s : store) : res (D * store) :=
  tx ← unwrap (heap s !! ptr);
  match data_map tx !! T with
  | Some d => Ok (d, s)
  | None =>
      d ← init_data p T;
      Ok (d, set_tx s ptr (set_data tx (<[T := d]> (data_map tx))))
  end.

(** [CurrentTx::data_mut_with]: [f] runs with the entry borrowed and is written
    back through the reference. *)
Definition data_mut_with {R} (p : TxProvider) (T : nat) (f : D → nat → store → res (R * D * store))
    : comp R :=
  get_current_mut_with (λ ptr tid s,
    '(d, s) ← data_mut p T ptr s;
    '(r, d', s) ← f d tid s;
    tx ← unwrap (heap s !! ptr);
    Ok (r, set_tx s ptr (set_data tx (<[T := d']> (data_map tx))))).

(** [CurrentTx::data_with]. *)
Definition data_with {R} (p : TxProvider) (T : nat) (f : D → nat → store → res (R * store))
    : comp R :=
  get_current_mut_with (λ ptr tid s, '(d, s) ← data_mut p T ptr s; f d tid s).

(** The handler loops: in reverse order of registration. *)
Fixpoint run_precommit (hs : list (comp (option Errno))) : comp (option Errno) := λ tid s,
  match hs with
  | [] => Ok (None, s)
  | h :: hs =>
      '(r, s) ← h tid s;
      match r with Some e => Ok (Some e, s) | None => run_precommit hs tid s end
  end.

Fixpoint run_handlers (hs : list (comp unit)) : comp unit := λ tid s,
  match hs with
  | [] => Ok ((), s)
  | h :: hs => '(_, s) ← h tid s; run_handlers hs tid s
  end.

Definition call_precommit_handlers (p : TxProvider) := run_precommit (rev (precommit_handlers p)).
Definition call_commit_handlers (p : TxProvider) := run_handlers (rev (commit_handlers p)).
Definition call_abort_handlers (p : TxProvider) := run_handlers (rev (abort_handlers p)).

(** [Tx::commit]; the result is the error of the pre-commit stage, if any. *)
Definition commit (p : TxProvider) (ptr : nat) : comp (option Errno) := λ tid s,
  tx ← unwrap (heap s !! ptr);
  _ ← assert_ (bool_decide (status tx = Ongoing));
  '(r, s) ← context ptr (λ tid s,
     '(r, s) ← call_precommit_handlers p tid s;
     match r with
     | None => '(_, s) ← call_commit_handlers p tid s; Ok (r, s)
     | Some _ => '(_, s) ← call_abort_handlers p tid s; Ok (r, s)
     end) tid s;
  tx ← unwrap (heap s !! ptr);
  let st := match r with None => Committed | Some _ => Aborted end in
  Ok (r, set_tx s ptr (set_status tx st)).

(** [Tx::abort]. *)
Definition abort (p : TxProvider) (ptr : nat) : comp unit := λ tid s,
  tx ← unwrap (heap s !! ptr);
  _ ← assert_ (bool_decide (status tx = Ongoing));
  '(_, s) ← context ptr (call_abort_handlers p) tid s;
  tx ← unwrap (heap s !! ptr);
  Ok ((), set_tx s ptr (set_status tx Aborted)).

(** [Drop for Tx]. *)
Definition drop_tx (ptr : nat) : comp unit := λ tid s,
  tx ← unwrap (heap s !! ptr);
  _ ← assert_ (bool_decide (status tx ≠ Ongoing));
  Ok ((), mkStore (delete ptr (heap s)) (tx_table s) (next_id s) (world s)).
End tx.
Arguments comp : clear implicits.
Arguments TxProvider : clear implicits.
Arguments Tx : clear implicits.
Arguments store : clear implicits.

(** ** Pure effects of callbacks *)
Section spec.
Context {D W : Type}.
Notation view := (gmap nat D * W)%type.
Implicit Types (s : store D W) (tx : Tx D) (p : TxProvider D W).

(** What a callback does to the data of the current TX and to the world. *)
Definition effect (R : Type) : Type := view → res (R * view).

Definition put_view s (ptr : nat) tx (v : view) : store D W :=
  mkStore (<[ptr := set_data tx v.1]> (heap s)) (tx_table s) (next_id s) v.2.

(** In the context of the TX at [ptr], callback [h] has effect [g] and nothing else. *)
Definition realizes {R} (h : comp D W R) (g : effect R) : Prop :=
  ∀ tid ptr tx s,
    tx_table s !! tid = Some ptr → heap s !! ptr = Some tx → is_accessing_data tx = false →
    h tid s = match g (data_map tx, world s) with
              | Ok (r, v) => Ok (r, put_view s ptr tx v) | Err e => Err e | Panic => Panic end.

(** Access to the entry of type [T]: the pure part [f] of a closure. *)
Definition data_effect {R} (p : TxProvider D W) (T : nat) (f : D → W → res (R * D * W)) : effect R :=
  λ v, d ← unwrap (match v.1 !! T with Some d => Some d | None => initializer_map p !! T end);
       '(r, d', w) ← f d v.2;
       Ok (r, (<[T := d']> v.1, w)).

Definition lift_closure {R} (f : D → W → res (R * D * W)) (d : D) (tid : nat) s
    : res (R * D * store D W) :=
  '(r, d', w) ← f d (world s); Ok (r, d', mkStore (heap s) (tx_table s) (next_id s) w).

(** The loops, on effects. *)
Fixpoint effect_precommit (gs : list (effect (option Errno))) : effect (option Errno) := λ v,
  match gs with
  | [] => Ok (None, v)
  | g :: gs =>
      '(r, v) ← g v; match r with Some e => Ok (Some e, v) | None => effect_precommit gs v end
  end.

Fixpoint effect_all (gs : list (effect unit)) : effect unit := λ v,
  match gs with [] => Ok ((), v) | g :: gs => '(_, v) ← g v; effect_all gs v end.

(** The specification of a commit: pre-commit effects in reverse order of
    registration up to the first failure; then all the commit effects, or all the
    abort effects. *)
Definition effect_commit (pre : list (effect (option Errno))) (com abt : list (effect unit))
    : effect (option Errno) := λ v,
  '(r, v) ← effect_precommit (rev pre) v;
  '(_, v) ← (match r with None => effect_all (rev com) v | Some _ => effect_all (rev abt) v end);
  Ok (r, v).

Lemma put_view_in_ctx s tid ptr tx v :
  tx_table s !! tid = Some ptr → is_accessing_data tx = false →
  let s' := put_view s ptr tx v in
  tx_table s' !! tid = Some ptr ∧ heap s' !! ptr = Some (set_data tx v.1) ∧
  is_accessing_data (set_data tx v.1) = false.
Proof. intros. simpl. by rewrite lookup_insert_eq. Qed.

Lemma put_view_twice s ptr tx v1 v2 :
  put_view (put_view s ptr tx v1) ptr (set_data tx v1.1) v2 = put_view s ptr tx v2.
Proof. unfold put_view. simpl. by rewrite insert_insert_eq. Qed.

Lemma put_view_id s ptr tx :
  heap s !! ptr = Some tx → put_view s ptr tx (data_map tx, world s) = s.
Proof.
  intros. unfold put_view. destruct s, tx. simpl in *. by rewrite insert_id.
Qed.

(** [data_mut_with] and [data_with] with a closure that does not itself enter the
    transaction. *)
Lemma data_mut_with_realizes {R} p T (f : D → W → res (R * D * W)) :
  realizes (data_mut_with p T (lift_closure f)) (data_effect p T f).
Proof.
  intros tid ptr tx s Ht Hh Ha. unfold data_mut_with, get_current_mut_with, data_effect, data_mut.
  rewrite Ht. simpl. rewrite Hh. simpl. rewrite Ha. simpl.
  rewrite lookup_insert_eq. simpl. unfold lift_closure, init_data.
  destruct (data_map tx !! T) as [d|] eqn:Ed; simpl.
  - destruct (f d (world s)) as [[[r d'] w]| |]; simpl; [|done..].
    do 2 (rewrite lookup_insert_eq; simpl).
    unfold put_view, set_tx, set_data, set_accessing. simpl.
    rewrite !insert_insert_eq. do 3 f_equal. by destruct tx; simpl in *; subst.
  - destruct (initializer_map p !! T) as [d|]; simpl; [|done].
    destruct (f d (world s)) as [[[r d'] w]| |]; simpl; [|done..].
    do 2 (rewrite lookup_insert_eq; simpl).
    unfold put_view, set_tx, set_data, set_accessing. simpl.
    rewrite !insert_insert_eq. do 3 f_equal. by destruct tx; simpl in *; subst.
Qed.

Lemma run_precommit_realizes hs gs :
  Forall2 realizes hs gs → realizes (run_precommit hs) (effect_precommit gs).
Proof.
  induction 1 as [|h g hs gs Hh _ IH]; intros tid ptr tx s Ht Hp Ha; simpl.
  - by rewrite put_view_id.
  - rewrite (Hh tid ptr tx s) by done. destruct (g _) as [[[e|] v]| |]; simpl; [done| |done..].
    destruct (put_view_in_ctx s tid ptr tx v) as (?&?&?); [done..|].
    erewrite IH by done. simpl. destruct v as [dm w]. simpl.
    destruct (effect_precommit gs (dm, w)) as [[r v']| |]; [|done..]. by rewrite put_view_twice.
Qed.

Lemma run_handlers_realizes hs gs :
  Forall2 realizes hs gs → realizes (run_handlers hs) (effect_all gs).
Proof.
  induction 1 as [|h g hs gs Hh _ IH]; intros tid ptr tx s Ht Hp Ha; simpl.
  - by rewrite put_view_id.
  - rewrite (Hh tid ptr tx s) by done. destruct (g _) as [[[] v]| |]; simpl; [|done..].
    destruct (put_view_in_ctx s tid ptr tx v) as (?&?&?); [done..|].
    erewrite IH by done. simpl. destruct v as [dm w]. simpl.
    destruct (effect_all gs (dm, w)) as [[r v']| |]; [|done..]. by rewrite put_view_twice.
Qed.

Lemma Forall2_rev {A B} (P : A → B → Prop) l k : Forall2 P l k → Forall2 P (rev l) (rev k).
Proof. induction 1; simpl; [done|]. apply Forall2_app; [done|]. by constructor. Qed.

(** Running a realised computation in the context of an idle TX. *)
Lemma context_realizes {R} (f : comp D W R) g tid ptr tx s :
  realizes f g → heap s !! ptr = Some tx → status tx = Ongoing →
  is_accessing_data tx = false → tx_table s !! tid = None →
  context ptr f tid s = match g (data_map tx, world s) with
                        | Ok (r, v) => Ok (r, put_view s ptr tx v)
                        | Err e => Err e | Panic => Panic end.
Proof.
  intros Hf Hh Hs Ha Ht. unfold context, set_and_exec_with. rewrite Hh. simpl.
  rewrite !bool_decide_eq_true_2 by done. simpl.
  erewrite Hf; simpl; [|by rewrite lookup_insert_eq|done|done].
  destruct (g _) as [[r v]| |]; simpl; [|done..].
  unfold put_view, set_table. simpl. by rewrite delete_insert_eq, delete_id.
Qed.

Definition commit_body p : comp D W (option Errno) := λ tid s,
  '(r, s) ← call_precommit_handlers p tid s;
  match r with
  | None => '(_, s) ← call_commit_handlers p tid s; Ok (r, s)
  | Some _ => '(_, s) ← call_abort_handlers p tid s; Ok (r, s)
  end.

Lemma commit_body_realizes p pre com abt :
  Forall2 realizes (precommit_handlers p) pre →
  Forall2 realizes (commit_handlers p) com →
  Forall2 realizes (abort_handlers p) abt →
  realizes (commit_body p) (effect_commit pre com abt).
Proof.
  intros Hp Hc Hb tid ptr tx s Ht Hh Ha. unfold commit_body, effect_commit,
    call_precommit_handlers, call_commit_handlers, call_abort_handlers.
  erewrite (run_precommit_realizes _ _ (Forall2_rev _ _ _ Hp)) by done.
  destruct (effect_precommit (rev pre) _) as [[r v]| |]; simpl; [|done..].
  destruct (put_view_in_ctx s tid ptr tx v) as (?&?&?); [done..|]. destruct v as [dm w].
  destruct r; [erewrite (run_handlers_realizes _ _ (Forall2_rev _ _ _ Hb)) by done
              |erewrite (run_handlers_realizes _ _ (Forall2_rev _ _ _ Hc)) by done];
    simpl; (destruct (effect_all _ (dm, w)) as [[[] v']| |]; simpl; [|done..];
            by rewrite put_view_twice).
Qed.

(** ** Claims *)

(** C7: [Tx::commit] implements its specification [effect_commit].  Called on an
    ongoing TX by a thread outside any context, with callbacks that realise given
    effects, it runs the pre-commit effects in reverse order of registration up to
    the first failure, then exactly one of the two lists (commit effects on
    success, abort effects on failure, in reverse order); it returns the pre-commit
    error, marks the TX committed or aborted accordingly, leaves the thread outside
    any context and every other transaction untouched. *)
Theorem tx_commit_refines p pre com abt tid ptr tx s :
  Forall2 realizes (precommit_handlers p) pre →
  Forall2 realizes (commit_handlers p) com →
  Forall2 realizes (abort_handlers p) abt →
  heap s !! ptr = Some tx → status tx = Ongoing → is_accessing_data tx = false →
  tx_table s !! tid = None →
  commit p ptr tid s =
    match effect_commit pre com abt (data_map tx, world s) with
    | Ok (r, (dm, w)) =>
        let st := match r with None => Committed | Some _ => Aborted end in
        Ok (r, mkStore (<[ptr := mkTx (tx_id tx) dm st false]> (heap s)) (tx_table s) (next_id s) w)
    | Err e => Err e
    | Panic => Panic
    end.
Proof.
  intros Hp Hc Hb Hh Hs Ha Ht. unfold commit. rewrite Hh. simpl.
  rewrite bool_decide_eq_true_2 by done. simpl. fold (commit_body p).
  erewrite context_realizes by (done || by apply commit_body_realizes).
  destruct (effect_commit pre com abt _) as [[r [dm w]]| |]; simpl; [|done..].
  rewrite lookup_insert_eq. simpl. unfold put_view, set_tx, set_status. simpl.
  rewrite insert_insert_eq. by rewrite Ha.
Qed.

(** the life cycle of a TX is enforced.  A finished TX cannot enter a context,
    commit or abort again; contexts do not nest on a thread; the current TX is
    available only inside a context, and its data cannot be accessed recursively;
    an ongoing TX cannot be dropped; and once [commit] or [abort] has returned
    (with an error or not) the TX is finished and may be dropped. *)
Theorem tx_lifecycle p ptr tx s tid :
  heap s !! ptr = Some tx →
  (status tx ≠ Ongoing →
     (∀ R (f : comp D W R), context ptr f tid s = Panic) ∧
     commit p ptr tid s = Panic ∧ abort p ptr tid s = Panic) ∧
  (tx_table s !! tid ≠ None → ∀ R (f : comp D W R), context ptr f tid s = Panic) ∧
  (tx_table s !! tid = None → ∀ R (f : nat → comp D W R), get_current_mut_with f tid s = Panic) ∧
  (tx_table s !! tid = Some ptr → is_accessing_data tx = true →
     ∀ R (f : nat → comp D W R), get_current_mut_with f tid s = Panic) ∧
  (status tx = Ongoing → drop_tx ptr tid s = Panic) ∧
  (∀ r s', commit p ptr tid s = Ok (r, s') →
     commit p ptr tid s' = Panic ∧ is_ok (drop_tx ptr tid s') = true) ∧
  (∀ s', abort p ptr tid s = Ok ((), s') →
     abort p ptr tid s' = Panic ∧ is_ok (drop_tx ptr tid s') = true).
Proof.
  intros Hh. unfold commit, abort, drop_tx, get_current_mut_with. split_and!.
  - intros Hs. unfold context. rewrite Hh. simpl. by rewrite bool_decide_eq_false_2.
  - intros Ht R f. unfold context, set_and_exec_with. rewrite Hh. simpl.
    rewrite (bool_decide_eq_false_2 (tx_table s !! tid = None)) by done.
    by destruct (bool_decide (status tx = Ongoing)).
  - intros Ht R f. by rewrite Ht.
  - intros Ht Ha R f. rewrite Ht. simpl. rewrite Hh. simpl. by rewrite Ha.
  - intros Hs. rewrite Hh. simpl. rewrite bool_decide_eq_false_2; [done|]. tauto.
  - intros r s' Hc. rewrite Hh in Hc. simpl in Hc. case_bool_decide; [|done]. simpl in Hc.
    destruct (context _ _ _ _) as [[r1 s1]| |]; simpl in Hc; [|done..].
    destruct (heap s1 !! ptr) as [tx1|]; simpl in Hc; [|done]. simplify_eq. simpl.
    rewrite lookup_insert_eq. simpl.
    by destruct r; simpl; repeat (rewrite bool_decide_eq_true_2 by done).
  - intros s' Hc. rewrite Hh in Hc. simpl in Hc. case_bool_decide; [|done]. simpl in Hc.
    destruct (context _ _ _ _) as [[r1 s1]| |]; simpl in Hc; [|done..].
    destruct (heap s1 !! ptr) as [tx1|]; simpl in Hc; [|done]. simplify_eq. simpl.
    rewrite lookup_insert_eq. simpl. done.
Qed.
End spec.

(** *** Witnesses: a toy provider whose per-TX data is a list of new items, which
    the commit callback appends to the world. *)
Definition toy_pre : list nat → list nat → res (option Errno * list nat * list nat) :=
  λ d w, Ok (if decide (13 ∈ d) then Some InvalidArgs else None, d, w).
Definition toy_com : list nat → list nat → res (unit * list nat * list nat) :=
  λ d w, Ok ((), [], w ++ d).
Definition toy_abt : list nat → list nat → res (unit * list nat * list nat) :=
  λ d w, Ok ((), [], w).
Definition toy_base : TxProvider (list nat) (list nat) :=
  register_data_initializer TxProvider_new 0 [].
Definition toy : TxProvider (list nat) (list nat) :=
  register_abort_handler (register_commit_handler (register_precommit_handler toy_base
    (data_mut_with toy_base 0 (lift_closure toy_pre)))
    (data_mut_with toy_base 0 (lift_closure toy_com)))
    (data_mut_with toy_base 0 (lift_closure toy_abt)).
Definition toy_store (d : list nat) : store (list nat) (list nat) :=
  mkStore {[7 := mkTx 0 {[0 := d]} Ongoing false]} ∅ 1 [5].

Lemma tx_commit_refines_witness :
  (∃ s, commit toy 7 0 (toy_store [1; 2]) = Ok (None, s) ∧ world s = [5; 1; 2]) ∧
  (∃ s, commit toy 7 0 (toy_store [1; 13]) = Ok (Some InvalidArgs, s) ∧ world s = [5]).
Proof.
  pose proof (λ d, tx_commit_refines toy [data_effect toy_base 0 toy_pre]
    [data_effect toy_base 0 toy_com] [data_effect toy_base 0 toy_abt] 0 7
    (mkTx 0 {[0 := d]} Ongoing false) (toy_store d)) as Hr.
  split; rewrite Hr by (done || (constructor; [apply data_mut_with_realizes|constructor]));
    eexists; split; vm_compute; reflexivity.
Defined.

Lemma tx_lifecycle_witness : drop_tx 7 0 (toy_store []) = Panic.
Proof.
  destruct (tx_lifecycle toy 7 (mkTx 0 {[0 := []]} Ongoing false) (toy_store []) 0)
    as (_ & _ & _ & _ & Hd & _); [reflexivity|]. by apply Hd.
Defined.
