(* ===== verification/Chunk.v ===== *)
(** * Chunk: [core/src/layers/3-log/chunk.rs], the transactional chunk allocator

    [ChunkAllocState] is the shared bitmap state, [ChunkAllocEdit] the per-TX edit
    table (a [HashMap], so its iteration order is left open: the operations that
    iterate take the entries in the order met).  [ChunkAlloc]'s methods work on
    the pair of the shared state and the edit of the current TX; [step] is the
    interleaving of any number of TXs over one shared state. *)
From S2P Require Import Prelude BitMap.

Section chunk.
Context {B : Bittle}.

(** ** Persistent state *)
Record ChunkAllocState := mkChunkAllocState {
  alloc_map : BitMap;
  free_count : nat;
  next_free : nat;
  in_journal : bool;
}.

Definition ChunkAllocState_new (capacity : nat) : ChunkAllocState :=
  mkChunkAllocState (repeat false capacity) capacity 0 false.

Definition new_in_journal (capacity : nat) : ChunkAllocState :=
  mkChunkAllocState (repeat false capacity) capacity 0 true.

(** [ChunkAllocState::alloc]. *)
Definition state_alloc (st : ChunkAllocState) : res (option nat * ChunkAllocState) :=
  let nf := if next_free st =? len (alloc_map st) then 0 else next_free st in
  first ← first_zero (alloc_map st) nf;
  free_chunk_id ← (match first with
                   | Some chunk_id => Ok chunk_id
                   | None => again ← first_zero (alloc_map st) 0; unwrap again
                   end);
  map' ← BitMap.set (alloc_map st) free_chunk_id true;
  fc ← usub (free_count st) 1;
  Ok (Some free_chunk_id,
      mkChunkAllocState map' fc (free_chunk_id + 1) (in_journal st)).

(** [ChunkAllocState::dealloc]. *)
Definition state_dealloc (st : ChunkAllocState) (chunk_id : nat) : res ChunkAllocState :=
  b ← test_bit (alloc_map st) chunk_id;
  _ ← assert_ b;
  map' ← BitMap.set (alloc_map st) chunk_id false;
  Ok (mkChunkAllocState map' (free_count st + 1) (next_free st) (in_journal st)).

Definition capacity (st : ChunkAllocState) : nat := len (alloc_map st).

Definition is_chunk_allocated (st : ChunkAllocState) (chunk_id : nat) : res bool :=
  test_bit (alloc_map st) chunk_id.

(** ** Persistent edit *)
Inductive ChunkEdit := Alloc | Dealloc.

#[global] Instance ChunkEdit_eq_dec : EqDecision ChunkEdit.
Proof. solve_decision. Defined.

Record ChunkAllocEdit := mkChunkAllocEdit { edit_table : gmap nat ChunkEdit }.

Definition ChunkAllocEdit_new : ChunkAllocEdit := mkChunkAllocEdit ∅.

Definition edit_alloc (e : ChunkAllocEdit) (chunk_id : nat) : res ChunkAllocEdit :=
  _ ← assert_ (bool_decide (edit_table e !! chunk_id = None));
  Ok (mkChunkAllocEdit (<[chunk_id := Alloc]> (edit_table e))).

(** [ChunkAllocEdit::dealloc]: whether the chunk can be freed right away. *)
Definition edit_dealloc (e : ChunkAllocEdit) (chunk_id : nat) : res (bool * ChunkAllocEdit) :=
  match edit_table e !! chunk_id with
  | None => Ok (false, mkChunkAllocEdit (<[chunk_id := Dealloc]> (edit_table e)))
  | Some Alloc => Ok (true, mkChunkAllocEdit (delete chunk_id (edit_table e)))
  | Some Dealloc => Panic
  end.

Definition edit_is_empty (e : ChunkAllocEdit) : bool := bool_decide (edit_table e = ∅).

(** [iter_allocated_chunks] over the entries of the table. *)
Definition iter_allocated_chunks (entries : list (nat * ChunkEdit)) : list nat :=
  omap (λ '(id, edit), if decide (edit = Alloc) then Some id else None) entries.

(** [Edit::apply_to]; [entries] is the table in the order of iteration. *)
Definition apply_to (entries : list (nat * ChunkEdit)) (st : ChunkAllocState)
    : res ChunkAllocState :=
  '(st, to_be_deallocated) ←
    foldM (λ '(st, todo) '(chunk_id, chunk_edit),
             match chunk_edit with
             | Alloc =>
                 if in_journal st then
                   '(o, st') ← state_alloc st; _ ← unwrap o; Ok (st', todo)
                 else Ok (st, todo)
             | Dealloc => Ok (st, todo ++ [chunk_id])
             end) (st, []) entries;
  foldM state_dealloc st to_be_deallocated.

(** ** The allocator: shared state and the edit of the current TX *)

Definition alloc (st : ChunkAllocState) (e : ChunkAllocEdit)
    : res (option nat * (ChunkAllocState * ChunkAllocEdit)) :=
  '(o, st') ← state_alloc st;
  match o with
  | None => Ok (None, (st', e))
  | Some chunk_id => e' ← edit_alloc e chunk_id; Ok (Some chunk_id, (st', e'))
  end.

(** The loop of [alloc_batch]: on a failed allocation the chunks taken so far are
    given back and [None] is returned. *)
Fixpoint alloc_loop (count : nat) (ids : list nat) (st : ChunkAllocState)
    : res (option (list nat) * ChunkAllocState) :=
  match count with
  | 0 => Ok (Some ids, st)
  | S count =>
      '(o, st') ← state_alloc st;
      match o with
      | Some id => alloc_loop count (ids ++ [id]) st'
      | None => st'' ← foldM state_dealloc st' ids; Ok (None, st'')
      end
  end.

Definition alloc_batch (count : nat) (st : ChunkAllocState) (e : ChunkAllocEdit)
    : res (option (list nat) * (ChunkAllocState * ChunkAllocEdit)) :=
  '(o, st') ← alloc_loop count [] st;
  match o with
  | None => Ok (None, (st', e))
  | Some ids =>
      let chunk_ids := merge_sort (≤) ids in
      e' ← foldM edit_alloc e chunk_ids;
      Ok (Some chunk_ids, (st', e'))
  end.

Definition dealloc (chunk_id : nat) (st : ChunkAllocState) (e : ChunkAllocEdit)
    : res (ChunkAllocState * ChunkAllocEdit) :=
  '(now, e') ← edit_dealloc e chunk_id;
  if (now : bool) then st' ← state_dealloc st chunk_id; Ok (st', e') else Ok (st, e').

Definition dealloc_batch (chunk_ids : list nat) (st : ChunkAllocState) (e : ChunkAllocEdit)
    : res (ChunkAllocState * ChunkAllocEdit) :=
  foldM (λ '(st, e) chunk_id, dealloc chunk_id st e) (st, e) chunk_ids.

(** The commit handler registered by [ChunkAlloc::from_parts]. *)
Definition commit_handler (e : ChunkAllocEdit) (entries : list (nat * ChunkEdit))
    (st : ChunkAllocState) : res ChunkAllocState :=
  if edit_is_empty e then Ok st else apply_to entries st.

(** The abort handler registered by [ChunkAlloc::from_parts]. *)
Definition abort_handler (entries : list (nat * ChunkEdit)) (st : ChunkAllocState)
    : res ChunkAllocState :=
  foldM state_dealloc st (iter_allocated_chunks entries).

(** [ChunkAlloc::from_parts] resets the journal flag. *)
Definition from_parts (st : ChunkAllocState) : ChunkAllocState :=
  mkChunkAllocState (alloc_map st) (free_count st) (next_free st) false.
End chunk.

(** ** The shared state: invariant and effect of each operation *)
Section state_spec.
Context {B : Bittle} {HB : BittleSpec B}.
Implicit Types st : ChunkAllocState.

Definition st_wf st : Prop :=
  wf (alloc_map st) ∧ free_count st = length (zeros_from (alloc_map st) 0) ∧
  next_free st ≤ capacity st.

(** Chunk [i] is marked allocated. *)
Definition chunk_used st (i : nat) : bool := bget (alloc_map st) i.

(** [st'] is [st] with the marks replaced by [f], invariant included. *)
Definition remarked st st' (f : nat → bool) : Prop :=
  st_wf st' ∧ capacity st' = capacity st ∧ in_journal st' = in_journal st ∧
  ∀ j, chunk_used st' j = f j.

Lemma chunk_used_range st i : st_wf st → chunk_used st i = true → i < capacity st.
Proof.
  intros ([_ Hz] & _ & _) Hu. unfold capacity, len. destruct (decide (i < nbits (alloc_map st))); [done|].
  unfold chunk_used in Hu. rewrite Hz in Hu by lia. done.
Qed.

Lemma state_new_wf n j :
  st_wf (mkChunkAllocState (repeat false n) n 0 j) ∧
  ∀ i, chunk_used (mkChunkAllocState (repeat false n) n 0 j) i = false.
Proof.
  split; [|intros i; apply repeat_bit]. split; [apply repeat_wf|]. simpl. split; [|lia].
  unfold zeros_from. rewrite repeat_nbits, Nat.sub_0_r, filter_all, length_seq; [done|].
  intros x _. by rewrite repeat_bit.
Qed.

(** The search of [alloc] lands on a free chunk whenever there is one. *)
Lemma find_free st :
  st_wf st → 0 < free_count st →
  ∃ i, i < capacity st ∧ chunk_used st i = false ∧
    mbind (M := res) (λ first : option nat,
       match first with
       | Some chunk_id => Ok chunk_id
       | None => again ← first_zero (alloc_map st) 0; unwrap again
       end)
      (first_zero (alloc_map st) (if next_free st =? len (alloc_map st) then 0 else next_free st))
    = Ok i.
Proof.
  intros (Hwf & Hfc & Hnf) Hpos. unfold capacity, len in *.
  assert (0 < nbits (alloc_map st)).
  { pose proof (ones_zeros_length (alloc_map st)). lia. }
  set (nf := if _ =? _ then 0 else next_free st).
  assert (nf < nbits (alloc_map st)) by (unfold nf; case_match; bool_simpl; lia).
  rewrite !first_zero_ok by done. bind_step.
  destruct (zeros_from (alloc_map st) nf) as [|i l] eqn:Ez; cbn.
  - destruct (zeros_from (alloc_map st) 0) as [|i l] eqn:Ez0; simpl in *; [lia|].
    exists i. assert (i ∈ zeros_from (alloc_map st) 0) as Hi by (rewrite Ez0; set_solver).
    apply elem_of_zeros in Hi as [??]. split; [lia|]. by split.
  - exists i. assert (i ∈ zeros_from (alloc_map st) nf) as Hi by (rewrite Ez; set_solver).
    apply elem_of_zeros in Hi as [??]. split; [lia|]. by split.
Qed.

Lemma state_alloc_ok st :
  st_wf st → 0 < free_count st →
  ∃ i st', state_alloc st = Ok (Some i, st') ∧ i < capacity st ∧ chunk_used st i = false ∧
           remarked st st' (λ j, if j =? i then true else chunk_used st j) ∧
           free_count st' = free_count st - 1.
Proof.
  intros Hst Hpos. destruct (find_free st Hst Hpos) as (i & Hi & Hfree & Hfind).
  destruct Hst as (Hwf & Hfc & Hnf).
  destruct (set_ok (alloc_map st) i true Hwf Hi) as (bm' & Hset & Hwf' & Hn & Hb).
  exists i. eexists. split; [|split; [done|split; [done|split]]].
  - unfold state_alloc. cbv zeta. unfold mbind, res_bind in Hfind |- *.
    destruct (first_zero _ _) as [first| |]; [|done..]. rewrite Hfind, Hset.
    rewrite usub_ok by lia. done.
  - unfold capacity, len in *. split_and!; simpl; [split_and!|..]; try done; simpl.
    + pose proof (zeros_set_true _ _ i Hn Hb Hi Hfree). lia.
    + unfold capacity, len. simpl. lia.
  - done.
Qed.

(** With no free chunk, [alloc] panics on its [expect]. *)
Lemma state_alloc_full st : st_wf st → free_count st = 0 → state_alloc st = Panic.
Proof.
  intros (Hwf & Hfc & Hnf) Hz. unfold state_alloc, capacity, len in *. cbv zeta.
  rewrite Hz in Hfc. symmetry in Hfc. apply length_zero_iff_nil in Hfc.
  destruct (decide (nbits (alloc_map st) = 0)) as [H0|H0].
  - assert (next_free st = nbits (alloc_map st)) as -> by lia.
    rewrite Nat.eqb_refl. unfold first_zero. by rewrite check_index_panic by lia.
  - set (nf := if _ =? _ then 0 else next_free st).
    assert (nf < nbits (alloc_map st)) by (unfold nf; case_match; bool_simpl; lia).
    rewrite !first_zero_ok by (done || lia). bind_step.
    assert (zeros_from (alloc_map st) nf = []) as ->.
    { apply elem_of_nil_inv. intros x Hx. apply elem_of_zeros in Hx as [??].
      assert (x ∈ zeros_from (alloc_map st) 0) as Hx0 by (apply elem_of_zeros; split; [lia|done]).
      rewrite Hfc in Hx0. by apply elem_of_nil in Hx0. }
    simpl. by rewrite Hfc.
Qed.

Lemma state_dealloc_ok st i :
  st_wf st → chunk_used st i = true →
  ∃ st', state_dealloc st i = Ok st' ∧
         remarked st st' (λ j, if j =? i then false else chunk_used st j) ∧
         free_count st' = free_count st + 1.
Proof.
  intros Hst Hu. pose proof (chunk_used_range _ _ Hst Hu) as Hi.
  destruct Hst as (Hwf & Hfc & Hnf). unfold capacity, len in Hi.
  destruct (set_ok (alloc_map st) i false Hwf Hi) as (bm' & Hset & Hwf' & Hn & Hb).
  eexists. split; [|split].
  - unfold state_dealloc. rewrite test_bit_ok by done. bind_step.
    unfold chunk_used in Hu. rewrite Hu. cbn [assert_]. bind_step. rewrite Hset. by bind_step.
  - unfold capacity, len in *. split_and!; simpl; [split_and!|..]; try done; simpl.
    + pose proof (zeros_set_false _ _ i Hn Hb Hi Hu). lia.
    + unfold capacity, len. simpl. lia.
  - done.
Qed.

Lemma state_dealloc_free st i :
  st_wf st → chunk_used st i = false → state_dealloc st i = Panic.
Proof.
  intros Hst Hu. unfold state_dealloc, test_bit.
  destruct (decide (i < nbits (alloc_map st))).
  - rewrite check_index_ok by done. bind_step. unfold chunk_used, bget in Hu. by rewrite Hu.
  - by rewrite check_index_panic by lia.
Qed.

(** Deallocating a duplicate-free list of allocated chunks. *)
Lemma dealloc_all_ok st ids :
  st_wf st → NoDup ids → (∀ i, i ∈ ids → chunk_used st i = true) →
  ∃ st', foldM state_dealloc st ids = Ok st' ∧
         remarked st st' (λ j, chunk_used st j && negb (bool_decide (j ∈ ids))) ∧
         free_count st' = free_count st + length ids.
Proof.
  revert st. induction ids as [|i ids IH]; intros st Hst Hnd Hu.
  - exists st. split; [done|]. split; [|simpl; lia]. split; [done|]. split; [done|].
    split; [done|]. intros j. rewrite bool_decide_eq_false_2 by (apply not_elem_of_nil).
    by rewrite andb_true_r.
  - apply NoDup_cons in Hnd as [Hni Hnd].
    destruct (state_dealloc_ok st i Hst ltac:(apply Hu; set_solver))
      as (st1 & H1 & (Hst1 & Hc1 & Hj1 & Hm1) & Hf1).
    destruct (IH st1 Hst1 Hnd) as (st2 & H2 & (Hst2 & Hc2 & Hj2 & Hm2) & Hf2).
    { intros k Hk. rewrite Hm1, (proj2 (Nat.eqb_neq _ _)) by set_solver.
      apply Hu. set_solver. }
    exists st2. split; [simpl; by rewrite H1|]. split; [|simpl; lia].
    split; [done|]. split; [congruence|]. split; [congruence|]. intros j.
    rewrite Hm2, Hm1. destruct (j =? i) eqn:E; bool_simpl.
    + subst. rewrite (bool_decide_eq_true_2 (i ∈ i :: ids)) by set_solver.
      by rewrite andb_false_r.
    + f_equal. f_equal. apply bool_decide_ext. set_solver.
Qed.
End state_spec.

(** ** Loops of the batch operations *)
Section batch_spec.
Context {B : Bittle} {HB : BittleSpec B}.
Implicit Types (st : ChunkAllocState) (e : ChunkAllocEdit).

(** [st'] is [st] with the free chunks [new] taken. *)
Definition taken st st' (new : list nat) : Prop :=
  NoDup new ∧ (∀ i, i ∈ new → i < capacity st ∧ chunk_used st i = false) ∧
  remarked st st' (λ j, chunk_used st j || bool_decide (j ∈ new)) ∧
  free_count st' + length new = free_count st.

Lemma taken_nil st : st_wf st → taken st st [].
Proof.
  intros Hst. split; [constructor|]. split; [by intros i Hi%elem_of_nil|].
  split; [|simpl; lia]. do 3 (split; [done|]). intros j.
  rewrite bool_decide_eq_false_2 by apply not_elem_of_nil. by rewrite orb_false_r.
Qed.

Lemma taken_cons st st1 st2 i new :
  i < capacity st → chunk_used st i = false →
  remarked st st1 (λ j, if j =? i then true else chunk_used st j) →
  free_count st1 + 1 = free_count st →
  taken st1 st2 new → taken st st2 (i :: new).
Proof.
  intros Hi Hu (Hw1 & Hc1 & Hj1 & Hm1) Hf1 (Hnd & Hnew & (Hw2 & Hc2 & Hj2 & Hm2) & Hf2).
  assert (Hni : i ∉ new).
  { intros [_ Hx]%Hnew. by rewrite Hm1, Nat.eqb_refl in Hx. }
  split; [by constructor|]. split; [|split; [|simpl; lia]].
  - intros k [->|Hk]%elem_of_cons; [done|]. destruct (Hnew _ Hk) as [Hk1 Hk2].
    rewrite Hm1, (proj2 (Nat.eqb_neq _ _)) in Hk2 by set_solver. split; [lia|done].
  - split; [done|]. do 2 (split; [congruence|]).
    intros j. rewrite Hm2, Hm1. destruct (j =? i) eqn:E; bool_simpl; simpl.
    + subst. rewrite bool_decide_eq_true_2 by set_solver. by rewrite orb_true_r.
    + f_equal. apply bool_decide_ext. set_solver.
Qed.

Lemma alloc_loop_ok count : ∀ st ids,
  st_wf st → count ≤ free_count st →
  ∃ new st', alloc_loop count ids st = Ok (Some (ids ++ new), st') ∧
             length new = count ∧ taken st st' new.
Proof.
  induction count as [|count IH]; intros st ids Hst Hle; simpl.
  - exists [], st. rewrite app_nil_r. split_and!; [done..|]. by apply taken_nil.
  - destruct (state_alloc_ok st Hst ltac:(lia)) as (i & st1 & -> & Hi & Hu & Hr & Hf).
    bind_step. destruct (IH st1 (ids ++ [i])) as (new & st2 & -> & Hl & Ht); [apply Hr|lia|].
    exists (i :: new), st2. rewrite <- app_assoc. split; [done|]. split; [simpl; lia|].
    eapply taken_cons; eauto. lia.
Qed.

(** Asking for more chunks than are free is a panic, whatever was taken before. *)
Lemma alloc_loop_full count : ∀ st ids,
  st_wf st → free_count st < count → alloc_loop count ids st = Panic.
Proof.
  induction count as [|count IH]; intros st ids Hst Hlt; [lia|]. simpl.
  destruct (decide (free_count st = 0)) as [Hz|Hz].
  - by rewrite state_alloc_full.
  - destruct (state_alloc_ok st Hst ltac:(lia)) as (i & st1 & -> & Hi & Hu & Hr & Hf).
    bind_step. apply IH; [apply Hr|lia].
Qed.

Lemma alloc_loop_inv count st o st' :
  st_wf st → alloc_loop count [] st = Ok (o, st') →
  ∃ new, o = Some new ∧ length new = count ∧ taken st st' new.
Proof.
  intros Hst Hl. destruct (decide (count ≤ free_count st)) as [Hle|Hgt].
  - destruct (alloc_loop_ok count st [] Hst Hle) as (new & st1 & Hl' & ? & ?).
    rewrite Hl in Hl'. simplify_eq/=. eauto.
  - rewrite alloc_loop_full in Hl by (done || lia). done.
Qed.

Lemma edit_alloc_ok e i :
  edit_table e !! i = None →
  edit_alloc e i = Ok (mkChunkAllocEdit (<[i:=Alloc]> (edit_table e))).
Proof. intros Hn. unfold edit_alloc. by rewrite bool_decide_eq_true_2. Qed.

Lemma edit_alloc_all ids : ∀ e,
  NoDup ids → (∀ i, i ∈ ids → edit_table e !! i = None) →
  ∃ e', foldM edit_alloc e ids = Ok e' ∧
        ∀ c, edit_table e' !! c = if bool_decide (c ∈ ids) then Some Alloc else edit_table e !! c.
Proof.
  induction ids as [|i ids IH]; intros e Hnd Hnone; cbn [foldM].
  - exists e. split; [done|]. intros c. by rewrite bool_decide_eq_false_2 by apply not_elem_of_nil.
  - apply NoDup_cons in Hnd as [Hni Hnd].
    rewrite edit_alloc_ok by (apply Hnone; set_solver).
    destruct (IH (mkChunkAllocEdit (<[i:=Alloc]> (edit_table e)))) as (e' & -> & He'); [done| |].
    { intros k Hk. simpl. rewrite lookup_insert_ne by set_solver. apply Hnone. set_solver. }
    exists e'. split; [done|]. intros c. rewrite He'. simpl.
    destruct (decide (c = i)) as [->|Hne].
    + rewrite bool_decide_eq_false_2 by done.
      rewrite bool_decide_eq_true_2 by set_solver. by rewrite lookup_insert_eq.
    + rewrite lookup_insert_ne by done.
      rewrite (bool_decide_ext (c ∈ i :: ids) (c ∈ ids)) by set_solver. done.
Qed.

Lemma alloc_as_batch st e o st' e' :
  st_wf st → alloc st e = Ok (o, (st', e')) →
  ∃ i, o = Some i ∧ taken st st' [i] ∧ foldM edit_alloc e [i] = Ok e'.
Proof.
  intros Hst Ha. unfold alloc in Ha. destruct (decide (free_count st = 0)) as [Hz|Hz].
  { by rewrite state_alloc_full in Ha. }
  destruct (state_alloc_ok st Hst ltac:(lia)) as (i & st1 & Hs & Hi & Hu & Hr & Hf).
  rewrite Hs in Ha. bind_step. cbn in Ha. exists i.
  destruct (edit_alloc e i) as [e1| |] eqn:He; cbn in Ha; [|done..]. simplify_eq/=.
  rewrite He. split; [done|]. split; [|done].
  eapply taken_cons; eauto; [lia|]. apply taken_nil, Hr.
Qed.

(** The deferred deallocations [apply_to] collects, outside the journal. *)
Definition dealloc_ids (entries : list (nat * ChunkEdit)) : list nat :=
  omap (λ '(id, edit), if decide (edit = Dealloc) then Some id else None) entries.

Lemma apply_to_collect entries st :
  in_journal st = false → apply_to entries st = foldM state_dealloc st (dealloc_ids entries).
Proof.
  intros Hj. unfold apply_to.
  assert (∀ todo, foldM (λ '(st, todo) '(chunk_id, chunk_edit),
             match chunk_edit with
             | Alloc =>
                 if in_journal st then
                   '(o, st') ← state_alloc st; _ ← unwrap o; Ok (st', todo)
                 else Ok (st, todo)
             | Dealloc => Ok (st, todo ++ [chunk_id])
             end) (st, todo) entries = Ok (st, todo ++ dealloc_ids entries)) as ->; [|done].
  induction entries as [|[i [|]] entries IH]; intros todo; simpl.
  - by rewrite app_nil_r.
  - by rewrite Hj, IH.
  - rewrite IH. by rewrite <- app_assoc.
Qed.

(** Either projection of the entries of a table lists exactly its keys. *)
Lemma omap_entries (m : gmap nat ChunkEdit) entries k :
  entries ≡ₚ map_to_list m →
  let ids := omap (λ '(id, edit), if decide (edit = k) then Some id else None) entries in
  NoDup ids ∧ ∀ i, i ∈ ids ↔ m !! i = Some k.
Proof.
  intros Hp ids. split.
  - assert (NoDup entries.*1) as Hnd.
    { rewrite Hp. apply NoDup_fst_map_to_list. }
    clear Hp. subst ids. induction entries as [|[i x] entries IH]; simpl; [constructor|].
    apply NoDup_cons in Hnd as [Hni Hnd]. destruct (decide (x = k)); [|by apply IH].
    constructor; [|by apply IH]. intros Hin. apply Hni.
    apply list_elem_of_omap in Hin as ([i' x'] & Hin & Hx). case_decide; simplify_eq.
    apply list_elem_of_fmap. by exists (i, k).
  - intros i. subst ids. rewrite list_elem_of_omap. split.
    + intros ([i' x'] & Hin & Hx). case_decide; simplify_eq.
      rewrite Hp in Hin. by apply elem_of_map_to_list in Hin.
    + intros Hm. exists (i, k). rewrite Hp, elem_of_map_to_list. by case_decide.
Qed.
End batch_spec.

(** ** Interleaved transactions over one shared state *)
Section system.
Context {B : Bittle}.

(** The shared state and the edit of every ongoing TX. *)
Record sys := mkSys { shared : ChunkAllocState; txs : gmap nat ChunkAllocEdit }.

(** Chunk [c] has an edit in some ongoing TX. *)
Definition edited (s : sys) (c : nat) : Prop :=
  ∃ t e, txs s !! t = Some e ∧ edit_table e !! c ≠ None.

(** What a client may deallocate in TX [t]: a chunk the TX allocated, or a
    committed one that no ongoing TX touches. *)
Definition may_dealloc (s : sys) (e : ChunkAllocEdit) (c : nat) : Prop :=
  edit_table e !! c = Some Alloc ∨ (chunk_used (shared s) c = true ∧ ¬ edited s c).

Inductive label :=
  | LBegin (t : nat) | LAlloc (t : nat) | LAllocBatch (t n : nat) | LDealloc (t c : nat)
  | LCommit (t : nat) | LAbort (t : nat).

Inductive step : sys → label → sys → Prop :=
  | step_begin st m t :
      m !! t = None →
      step (mkSys st m) (LBegin t) (mkSys st (<[t := ChunkAllocEdit_new]> m))
  | step_alloc st m t e o st' e' :
      m !! t = Some e → alloc st e = Ok (o, (st', e')) →
      step (mkSys st m) (LAlloc t) (mkSys st' (<[t := e']> m))
  | step_alloc_batch st m t n e o st' e' :
      m !! t = Some e → alloc_batch n st e = Ok (o, (st', e')) →
      step (mkSys st m) (LAllocBatch t n) (mkSys st' (<[t := e']> m))
  | step_dealloc st m t c e st' e' :
      m !! t = Some e → may_dealloc (mkSys st m) e c → dealloc c st e = Ok (st', e') →
      step (mkSys st m) (LDealloc t c) (mkSys st' (<[t := e']> m))
  | step_commit st m t e entries st' :
      m !! t = Some e → entries ≡ₚ map_to_list (edit_table e) →
      commit_handler e entries st = Ok st' →
      step (mkSys st m) (LCommit t) (mkSys st' (delete t m))
  | step_abort st m t e entries st' :
      m !! t = Some e → entries ≡ₚ map_to_list (edit_table e) →
      abort_handler entries st = Ok st' →
      step (mkSys st m) (LAbort t) (mkSys st' (delete t m)).

Inductive reachable (n : nat) : sys → Prop :=
  | reach_init : reachable n (mkSys (ChunkAllocState_new n) ∅)
  | reach_step s l s' : reachable n s → step s l s' → reachable n s'.

(** Every edited chunk is marked in the shared bitmap, and by one TX only. *)
Definition sys_inv (s : sys) : Prop :=
  st_wf (shared s) ∧ in_journal (shared s) = false ∧
  (∀ t e c, txs s !! t = Some e → edit_table e !! c ≠ None → chunk_used (shared s) c = true) ∧
  (∀ t1 t2 e1 e2 c, txs s !! t1 = Some e1 → txs s !! t2 = Some e2 →
     edit_table e1 !! c ≠ None → edit_table e2 !! c ≠ None → t1 = t2).

(** The abstract state: the chunks allocated by committed TXs. *)
Definition committed (s : sys) (c : nat) : Prop :=
  chunk_used (shared s) c = true ∧
  ∀ t e, txs s !! t = Some e → edit_table e !! c ≠ Some Alloc.

(** The abstract specification of a step: a commit publishes the edit of its TX
    at once, every other step is invisible. *)
Definition spec_step (s : sys) (l : label) (P P' : nat → Prop) : Prop :=
  match l with
  | LCommit t => ∀ e, txs s !! t = Some e → ∀ c,
      P' c ↔ (P c ∨ edit_table e !! c = Some Alloc) ∧ edit_table e !! c ≠ Some Dealloc
  | _ => ∀ c, P' c ↔ P c
  end.
End system.

Section system_proofs.
Context {B : Bittle} {HB : BittleSpec B}.
Implicit Types (st : ChunkAllocState) (e : ChunkAllocEdit) (m : gmap nat ChunkAllocEdit).

(** An edit that grows by freshly taken chunks. *)
Lemma fresh_step st m t e new st' e' :
  sys_inv (mkSys st m) → m !! t = Some e → taken st st' new →
  foldM edit_alloc e new = Ok e' →
  sys_inv (mkSys st' (<[t := e']> m)) ∧
  ∀ c, committed (mkSys st' (<[t := e']> m)) c ↔ committed (mkSys st m) c.
Proof.
  intros (Hw & Hj & Hused & Hone) Hm (Hnd & Hnew & (Hw' & _ & Hj' & Hmk) & _) He. simpl in *.
  assert (Hfree : ∀ c, c ∈ new → ∀ t0 e0, m !! t0 = Some e0 → edit_table e0 !! c = None).
  { intros c Hc t0 e0 Ht0. destruct (edit_table e0 !! c) eqn:E; [|done].
    destruct (Hnew _ Hc) as [_ Hf]. rewrite (Hused t0 e0 c) in Hf by (done || congruence). done. }
  destruct (edit_alloc_all new e Hnd) as (e1 & He1 & Hlk); [naive_solver|].
  assert (e1 = e') as -> by congruence. clear He1.
  assert (Hkeep : ∀ t0 e0 c, <[t:=e']> m !! t0 = Some e0 → c ∉ new →
            ∃ e1, m !! t0 = Some e1 ∧ edit_table e0 !! c = edit_table e1 !! c).
  { intros t0 e0 c [[<- <-]|[??]]%lookup_insert_Some Hc; [|naive_solver].
    exists e. by rewrite Hlk, bool_decide_eq_false_2. }
  split; [split; [done|]; split; [simpl; congruence|]; split|]; simpl.
  - intros t0 e0 c Ht0 Hc. rewrite Hmk. destruct (decide (c ∈ new)).
    { rewrite bool_decide_eq_true_2 by done. apply orb_true_r. }
    destruct (Hkeep _ _ _ Ht0 n) as (e1 & ? & Heq). rewrite (Hused t0 e1) by congruence. done.
  - intros t1 t2 e1 e2 c H1 H2 Hc1 Hc2. destruct (decide (c ∈ new)) as [Hin|Hin].
    + assert (∀ t0 e0, <[t:=e']> m !! t0 = Some e0 → edit_table e0 !! c ≠ None → t0 = t) as Hu.
      { intros t0 e0 [[<- <-]|[??]]%lookup_insert_Some ?; [done|]. by rewrite (Hfree c Hin t0) in *. }
      rewrite (Hu t1 e1), (Hu t2 e2); done.
    + destruct (Hkeep _ _ _ H1 Hin) as (e3 & H3 & E3), (Hkeep _ _ _ H2 Hin) as (e4 & H4 & E4).
      rewrite E3 in Hc1. rewrite E4 in Hc2. by apply (Hone t1 t2 e3 e4 c).
  - intros c. unfold committed. simpl. rewrite Hmk. destruct (decide (c ∈ new)) as [Hin|Hin].
    + destruct (Hnew _ Hin) as [_ ->]. split; [|naive_solver]. intros [_ Hno].
      specialize (Hno t e'). rewrite lookup_insert_eq, Hlk, bool_decide_eq_true_2 in Hno by done.
      by destruct Hno.
    + rewrite bool_decide_eq_false_2, orb_false_r by done. apply and_iff_compat_l. split.
      * intros Hno t0 e0 Ht0. destruct (decide (t0 = t)) as [->|].
        -- specialize (Hno t e'). rewrite lookup_insert_eq, Hlk, bool_decide_eq_false_2 in Hno by done.
           simplify_eq. by apply Hno.
        -- apply (Hno t0). by rewrite lookup_insert_ne.
      * intros Hno t0 e0 Ht0. destruct (Hkeep _ _ _ Ht0 Hin) as (e1 & ? & ->). by eapply Hno.
Qed.

(** A finished TX: the chunks of its edit of kind [k] are freed, and it goes away. *)
Lemma finish_step st m t e entries k :
  sys_inv (mkSys st m) → m !! t = Some e → entries ≡ₚ map_to_list (edit_table e) →
  let ids := omap (λ '(id, edit), if decide (edit = k) then Some id else None) entries in
  ∃ st', foldM state_dealloc st ids = Ok st' ∧ sys_inv (mkSys st' (delete t m)) ∧
         free_count st' = free_count st + length ids ∧
         ∀ c, chunk_used st' c = true ↔ chunk_used st c = true ∧ edit_table e !! c ≠ Some k.
Proof.
  intros (Hw & Hj & Hused & Hone) Hm Hp ids. simpl in *.
  destruct (omap_entries (edit_table e) entries k Hp) as [Hnd Hids]. fold ids in Hnd, Hids.
  destruct (dealloc_all_ok st ids Hw Hnd) as (st' & Hst' & (Hw' & _ & Hj' & Hmk) & Hfc).
  { intros i Hi%Hids. apply (Hused t e); [done|congruence]. }
  assert (Hiff : ∀ c, chunk_used st' c = true ↔
                      chunk_used st c = true ∧ edit_table e !! c ≠ Some k).
  { intros c. rewrite Hmk, andb_true_iff, negb_true_iff, bool_decide_eq_false, Hids. done. }
  exists st'. split; [done|]. split; [|by split].
  split; [done|]. split; [simpl; congruence|]. simpl. split.
  - intros t0 e0 c [Hne Ht0]%lookup_delete_Some Hc. apply Hiff. split; [by apply (Hused t0 e0)|].
    intros Hk. apply Hne. apply (Hone t t0 e e0 c); congruence.
  - intros t1 t2 e1 e2 c [_ H1]%lookup_delete_Some [_ H2]%lookup_delete_Some.
    by apply (Hone t1 t2 e1 e2 c).
Qed.

Lemma committed_delete st m t e st' k :
  m !! t = Some e →
  (∀ c, chunk_used st' c = true ↔ chunk_used st c = true ∧ edit_table e !! c ≠ Some k) →
  ∀ c, committed (mkSys st' (delete t m)) c ↔
       chunk_used st c = true ∧ edit_table e !! c ≠ Some k ∧
       ∀ t0 e0, t0 ≠ t → m !! t0 = Some e0 → edit_table e0 !! c ≠ Some Alloc.
Proof.
  intros Hm Hiff c. unfold committed. simpl. rewrite Hiff. setoid_rewrite lookup_delete_Some.
  naive_solver.
Qed.

Lemma commit_handler_eq e entries st :
  in_journal st = false → entries ≡ₚ map_to_list (edit_table e) →
  commit_handler e entries st = foldM state_dealloc st (dealloc_ids entries).
Proof.
  intros Hj Hp. unfold commit_handler, edit_is_empty. case_bool_decide as He.
  - rewrite He, map_to_list_empty in Hp. apply Permutation_nil_r in Hp as ->. done.
  - by apply apply_to_collect.
Qed.

Lemma commit_step st m t e entries :
  sys_inv (mkSys st m) → m !! t = Some e → entries ≡ₚ map_to_list (edit_table e) →
  ∃ st', commit_handler e entries st = Ok st' ∧ sys_inv (mkSys st' (delete t m)) ∧
    ∀ c, committed (mkSys st' (delete t m)) c ↔
         (committed (mkSys st m) c ∨ edit_table e !! c = Some Alloc) ∧
         edit_table e !! c ≠ Some Dealloc.
Proof.
  intros Hinv Hm Hp. pose proof Hinv as (Hw & Hj & Hused & Hone). simpl in *.
  rewrite commit_handler_eq by done.
  destruct (finish_step st m t e entries Dealloc Hinv Hm Hp) as (st' & Hst & Hinv' & _ & Hiff).
  exists st'. split; [done|]. split; [done|]. intros c.
  rewrite (committed_delete st m t e st' Dealloc Hm Hiff c). unfold committed. simpl. split.
  - intros (Hu & Hd & Hno). split; [|done]. destruct (edit_table e !! c) as [[]|] eqn:E.
    + by right.
    + done.
    + left. split; [done|]. intros t0 e0 Ht0. destruct (decide (t0 = t)); naive_solver.
  - intros [[[Hu Hno]|Ha] Hd]; [naive_solver|]. split; [by apply (Hused t e); congruence|].
    split; [done|]. intros t0 e0 Hne Ht0 Hc. apply Hne.
    apply (Hone t0 t e0 e c); congruence.
Qed.

Lemma abort_step st m t e entries :
  sys_inv (mkSys st m) → m !! t = Some e → entries ≡ₚ map_to_list (edit_table e) →
  ∃ st', abort_handler entries st = Ok st' ∧ sys_inv (mkSys st' (delete t m)) ∧
    ∀ c, committed (mkSys st' (delete t m)) c ↔ committed (mkSys st m) c.
Proof.
  intros Hinv Hm Hp. unfold abort_handler.
  destruct (finish_step st m t e entries Alloc Hinv Hm Hp) as (st' & Hst & Hinv' & _ & Hiff).
  exists st'. split; [done|]. split; [done|]. intros c.
  rewrite (committed_delete st m t e st' Alloc Hm Hiff c). unfold committed. simpl. split.
  - intros (Hu & Hd & Hno). split; [done|]. intros t0 e0 Ht0.
    destruct (decide (t0 = t)); naive_solver.
  - naive_solver.
Qed.

(** A chunk the TX allocated itself is freed at once and leaves its edit. *)
Lemma dealloc_now_step st m t e c st' :
  sys_inv (mkSys st m) → m !! t = Some e → edit_table e !! c = Some Alloc →
  remarked st st' (λ j, if j =? c then false else chunk_used st j) →
  let s' := mkSys st' (<[t := mkChunkAllocEdit (delete c (edit_table e))]> m) in
  sys_inv s' ∧ ∀ j, committed s' j ↔ committed (mkSys st m) j.
Proof.
  intros (Hw & Hj & Hused & Hone) Hm Ec (Hw' & _ & Hj' & Hmk) s'. subst s'. simpl in *.
  assert (Hlk : ∀ t0 e0 j, <[t:=mkChunkAllocEdit (delete c (edit_table e))]> m !! t0 = Some e0 →
            ∃ e1, m !! t0 = Some e1 ∧
                  edit_table e0 !! j = if decide (t0 = t ∧ j = c) then None else edit_table e1 !! j).
  { intros t0 e0 j [[<- <-]|[Hne ?]]%lookup_insert_Some; simpl.
    - exists e. split; [done|]. destruct (decide (j = c)) as [->|].
      + by rewrite lookup_delete_eq, decide_True.
      + by rewrite lookup_delete_ne, decide_False by naive_solver.
    - exists e0. by rewrite decide_False by naive_solver. }
  split; [split; [done|]; split; [simpl; congruence|]; split|]; simpl.
  + intros t0 e0 j Ht0 Hj0. destruct (Hlk t0 e0 j Ht0) as (e1 & He1 & Heq).
    rewrite Heq in Hj0. case_decide as Hd; [done|]. rewrite Hmk.
    destruct (j =? c) eqn:E; bool_simpl; [|by apply (Hused t0 e1)].
    subst. exfalso. apply Hd. split; [|done]. apply (Hone t0 t e1 e c); congruence.
  + intros t1 t2 e1 e2 j H1 H2 Hj1 Hj2.
    destruct (Hlk t1 e1 j H1) as (e3 & H3 & E3), (Hlk t2 e2 j H2) as (e4 & H4 & E4).
    rewrite E3 in Hj1. rewrite E4 in Hj2. do 2 (case_decide; [done|]).
    by apply (Hone t1 t2 e3 e4 j).
  + intros j. unfold committed. simpl. rewrite Hmk. destruct (j =? c) eqn:E; bool_simpl.
    * subst. split; [by intros [??]|]. intros [_ Hno]. by destruct (Hno t e).
    * apply and_iff_compat_l. split; intros Hno t0 e0 Ht0.
      -- destruct (decide (t0 = t)) as [->|].
         ++ specialize (Hno t _ (lookup_insert_eq _ _ _)). simpl in Hno.
            rewrite lookup_delete_ne in Hno by done. by simplify_eq.
         ++ apply (Hno t0). by rewrite lookup_insert_ne.
      -- destruct (Hlk t0 e0 j Ht0) as (e1 & He1 & ->). rewrite decide_False by naive_solver.
         by apply (Hno t0).
Qed.

(** A committed chunk is only recorded: it stays marked until the commit. *)
Lemma dealloc_later_step st m t e c :
  sys_inv (mkSys st m) → m !! t = Some e → edit_table e !! c = None →
  chunk_used st c = true → ¬ edited (mkSys st m) c →
  let s' := mkSys st (<[t := mkChunkAllocEdit (<[c := Dealloc]> (edit_table e))]> m) in
  sys_inv s' ∧ ∀ j, committed s' j ↔ committed (mkSys st m) j.
Proof.
  intros (Hw & Hj & Hused & Hone) Hm Ec Hu Hno s'. subst s'. simpl in *.
  assert (Hlk : ∀ t0 e0 j, <[t:=mkChunkAllocEdit (<[c:=Dealloc]> (edit_table e))]> m !! t0 = Some e0 →
            ∃ e1, m !! t0 = Some e1 ∧ (t0 = t ∧ j = c ∧ edit_table e0 !! j = Some Dealloc ∨
                  (t0 ≠ t ∨ j ≠ c) ∧ edit_table e0 !! j = edit_table e1 !! j)).
  { intros t0 e0 j [[<- <-]|[Hne ?]]%lookup_insert_Some; simpl.
    - exists e. split; [done|]. destruct (decide (j = c)) as [->|].
      + rewrite lookup_insert_eq. naive_solver.
      + rewrite lookup_insert_ne by done. naive_solver.
    - naive_solver. }
  assert (Hfree : ∀ t0 e0, m !! t0 = Some e0 → edit_table e0 !! c = None).
  { intros t0 e0 Ht0. destruct (edit_table e0 !! c) eqn:E; [|done]. destruct Hno.
    exists t0, e0. by rewrite E. }
  split; [split; [done|]; split; [done|]; split|]; simpl.
  + intros t0 e0 j Ht0 Hj0. destruct (Hlk t0 e0 j Ht0) as (e1 & He1 & [(->&->&_)|[_ Heq]]); [done|].
    rewrite Heq in Hj0. by apply (Hused t0 e1).
  + intros t1 t2 e1 e2 j H1 H2 Hj1 Hj2.
    destruct (Hlk t1 e1 j H1) as (e3 & H3 & E3), (Hlk t2 e2 j H2) as (e4 & H4 & E4).
    destruct (decide (j = c)) as [->|].
    * rewrite (Hfree t1 e3) in E3 by done. rewrite (Hfree t2 e4) in E4 by done. naive_solver.
    * destruct E3 as [|[_ E3]], E4 as [|[_ E4]]; [naive_solver..|].
      rewrite E3 in Hj1. rewrite E4 in Hj2. by apply (Hone t1 t2 e3 e4 j).
  + intros j. unfold committed. simpl. apply and_iff_compat_l. split; intros Hn t0 e0 Ht0.
    * destruct (decide (t0 = t)) as [->|].
      -- simplify_eq. destruct (decide (j = c)) as [->|]; [congruence|].
         specialize (Hn t _ (lookup_insert_eq _ _ _)). simpl in Hn.
         by rewrite lookup_insert_ne in Hn.
      -- apply (Hn t0). by rewrite lookup_insert_ne.
    * destruct (Hlk t0 e0 j Ht0) as (e1 & He1 & [(->&->&->)|[_ ->]]); [done|].
      by apply (Hn t0).
Qed.

Lemma dealloc_step st m t e c :
  sys_inv (mkSys st m) → m !! t = Some e → may_dealloc (mkSys st m) e c →
  ∃ st' e', dealloc c st e = Ok (st', e') ∧ sys_inv (mkSys st' (<[t := e']> m)) ∧
    ∀ j, committed (mkSys st' (<[t := e']> m)) j ↔ committed (mkSys st m) j.
Proof.
  intros Hinv Hm Hmay. unfold dealloc, edit_dealloc.
  destruct (edit_table e !! c) as [[]|] eqn:Ec; bind_step.
  - destruct (state_dealloc_ok st c) as (st' & -> & Hmk & _); [apply Hinv| |].
    { destruct Hinv as (_ & _ & Hused & _). apply (Hused t e); [done|]. simpl. congruence. }
    bind_step. eexists _, _. split; [done|]. by apply dealloc_now_step.
  - destruct Hmay as [Ha|[_ Hno]]; [congruence|]. destruct Hno. exists t, e. by rewrite Ec.
  - destruct Hmay as [Ha|[Hu Hno]]; [congruence|]. eexists _, _. split; [done|].
    by apply dealloc_later_step.
Qed.

Lemma alloc_batch_inv n st e o st' e' :
  st_wf st → alloc_batch n st e = Ok (o, (st', e')) →
  ∃ ids, o = Some ids ∧ length ids = n ∧ StronglySorted (≤) ids ∧ taken st st' ids ∧
         foldM edit_alloc e ids = Ok e'.
Proof.
  intros Hst Ha. unfold alloc_batch in Ha.
  destruct (alloc_loop n [] st) as [[o1 st1]| |] eqn:Hl; [|done..].
  destruct (alloc_loop_inv n st o1 st1 Hst Hl) as (new & -> & Hlen & Hnd & Hfree & Hmk & Hfc).
  cbn in Ha. pose proof (merge_sort_Permutation (≤) new) as Hp.
  destruct (foldM edit_alloc e (merge_sort le new)) as [e1| |] eqn:He; cbn in Ha; [|done..].
  simplify_eq. eexists. split; [done|]. split; [by rewrite Hp|].
  split; [apply (StronglySorted_merge_sort _)|]. split; [|done].
  split; [by rewrite Hp|]. split; [intros i; rewrite Hp; apply Hfree|].
  split; [|by rewrite Hp]. destruct Hmk as (?&?&?&Hmk). do 3 (split; [done|]). intros j.
  rewrite Hmk. f_equal. apply bool_decide_ext. by rewrite Hp.
Qed.

(** A batch allocation with enough free chunks, none of them in the TX's edit. *)
Lemma alloc_batch_ok n st e :
  st_wf st → n ≤ free_count st → (∀ i, chunk_used st i = false → edit_table e !! i = None) →
  ∃ ids st' e', alloc_batch n st e = Ok (Some ids, (st', e')) ∧ length ids = n ∧
    StronglySorted (≤) ids ∧ taken st st' ids ∧
    ∀ c, edit_table e' !! c = if bool_decide (c ∈ ids) then Some Alloc else edit_table e !! c.
Proof.
  intros Hst Hn Hfree. destruct (alloc_loop_ok n st [] Hst Hn) as (new & st' & Hl & Hlen & Htk).
  pose proof (merge_sort_Permutation (≤) new) as Hp.
  assert (Htk' : taken st st' (merge_sort (≤) new)).
  { destruct Htk as (Hnd & Hnew & (? & ? & ? & Hmk) & Hfc).
    split; [by rewrite Hp|]. split; [intros i; rewrite Hp; apply Hnew|].
    split; [|by rewrite Hp]. do 3 (split; [done|]). intros j. rewrite Hmk. f_equal.
    apply bool_decide_ext. by rewrite Hp. }
  destruct (edit_alloc_all (merge_sort (≤) new) e) as (e' & He' & Hlk); [apply Htk'| |].
  { intros i Hi. apply Hfree. by apply Htk'. }
  exists (merge_sort (≤) new), st', e'. unfold alloc_batch. rewrite Hl. simpl. rewrite He'.
  split; [done|]. split; [by rewrite Hp|]. split; [apply (StronglySorted_merge_sort _)|].
  split; [apply Htk'|done].
Qed.

Lemma step_sound s l s' :
  sys_inv s → step s l s' → sys_inv s' ∧ spec_step s l (committed s) (committed s').
Proof.
  intros Hinv Hstep. destruct Hstep as [st m t Hm|st m t e o st' e' Hm Ha|st m t n e o st' e' Hm Ha
    |st m t c e st' e' Hm Hmay Hd|st m t e entries st' Hm Hp Hc|st m t e entries st' Hm Hp Hc]; simpl.
  - destruct Hinv as (Hw & Hj & Hused & Hone). simpl in *.
    assert (Hlk : ∀ t0 e0, <[t:=ChunkAllocEdit_new]> m !! t0 = Some e0 →
              m !! t0 = Some e0 ∨ ∀ c, edit_table e0 !! c = None).
    { intros t0 e0 [[<- <-]|[??]]%lookup_insert_Some; [right|by left]. intros c. apply lookup_empty. }
    split; [split; [done|]; split; [done|]; split|]; simpl.
    + intros t0 e0 c [?|He]%Hlk Hc; [by apply (Hused t0 e0)|]. by rewrite He in Hc.
    + intros t1 t2 e1 e2 c [?|He1]%Hlk [?|He2]%Hlk Hc1 Hc2;
        [by apply (Hone t1 t2 e1 e2 c)|by rewrite ?He1, ?He2 in *..].
    + intros c. unfold committed. simpl. apply and_iff_compat_l.
      split; intros Hno t0 e0 Ht0.
      * apply (Hno t0). rewrite lookup_insert_ne; [done|]. by intros ->; congruence.
      * destruct (Hlk _ _ Ht0) as [?|He]; [by apply (Hno t0)|]. by rewrite He.
  - destruct (alloc_as_batch st e o st' e') as (i & _ & Ht & He); [apply Hinv|done|].
    by apply (fresh_step st m t e [i]).
  - destruct (alloc_batch_inv n st e o st' e') as (ids & _ & _ & _ & Ht & He); [apply Hinv|done|].
    by apply (fresh_step st m t e ids).
  - destruct (dealloc_step st m t e c Hinv Hm Hmay) as (st1 & e1 & Hd' & ? & ?).
    rewrite Hd in Hd'. simplify_eq. done.
  - destruct (commit_step st m t e entries Hinv Hm Hp) as (st1 & Hc' & ? & ?).
    rewrite Hc in Hc'. simplify_eq. split; [done|]. intros e1 He1. by simplify_eq.
  - destruct (abort_step st m t e entries Hinv Hm Hp) as (st1 & Hc' & ? & ?).
    rewrite Hc in Hc'. simplify_eq. done.
Qed.

Lemma reachable_inv n s : reachable n s → sys_inv s.
Proof.
  induction 1 as [|s l s' _ IH Hstep]; [|by apply (step_sound s l s')].
  destruct (state_new_wf n false) as [Hw _]. split; [done|]. split; [done|].
  split; simpl; intros *; by rewrite lookup_empty.
Qed.

(** ** Claims *)

(** however any number of transactions interleave (single and batch
    allocations, deallocations of own or committed chunks, commits, aborts), the
    allocator keeps its invariant: [free_count] is the number of clear bits,
    [next_free] stays in range, every chunk an ongoing TX edited is marked
    allocated, and no chunk is edited by two ongoing TXs. *)
Theorem chunk_alloc_invariant n s : reachable n s → sys_inv s.
Proof. apply reachable_inv. Qed.

(** C6: the allocator refines an atomic specification whose state is the set of
    chunks allocated by committed transactions.  Committing a TX adds the chunks
    it allocated and removes those it deallocated, all at once; beginning,
    allocating, deallocating and aborting leave the set as it is, so an aborted TX
    has no effect. *)
Theorem chunk_alloc_refines_atomic n s l s' :
  reachable n s → step s l s' → spec_step s l (committed s) (committed s').
Proof. intros Hr Hs. eapply step_sound; [by eapply reachable_inv|done]. Qed.

(** C23: no operation of a well-behaved client panics.  In a reachable state with
    ongoing TX [t]: [alloc_batch n] succeeds when at least [n] chunks are free, and
    returns [n] distinct chunks in increasing order, in range, marked free before,
    of which none is edited by any TX; a permitted [dealloc] succeeds; the commit
    and the abort handler succeed whatever the iteration order of the table. *)
Theorem chunk_ops_succeed cap s t e :
  reachable cap s → txs s !! t = Some e →
  (∀ n, n ≤ free_count (shared s) → ∃ ids st' e',
     alloc_batch n (shared s) e = Ok (Some ids, (st', e')) ∧ length ids = n ∧
     NoDup ids ∧ StronglySorted (≤) ids ∧ free_count st' = free_count (shared s) - n ∧
     ∀ i, i ∈ ids → i < capacity (shared s) ∧ chunk_used (shared s) i = false ∧ ¬ edited s i) ∧
  (∀ c, may_dealloc s e c → is_ok (dealloc c (shared s) e) = true) ∧
  (∀ entries, entries ≡ₚ map_to_list (edit_table e) →
     is_ok (commit_handler e entries (shared s)) = true ∧
     is_ok (abort_handler entries (shared s)) = true).
Proof.
  intros Hr Ht. pose proof (reachable_inv _ _ Hr) as Hinv. destruct s as [st m]. simpl in *.
  pose proof Hinv as (Hw & Hj & Hused & Hone). simpl in *. split; [|split].
  - intros n Hn.
    assert (Hun : ∀ i, chunk_used st i = false → ¬ edited (mkSys st m) i).
    { intros i Hi (t0 & e0 & Ht0 & He0). simpl in Ht0. by rewrite (Hused t0 e0) in Hi. }
    destruct (alloc_batch_ok n st e Hw Hn) as (ids & st' & e' & Ha & Hlen & Hs & Htk & _).
    { intros i Hi. destruct (edit_table e !! i) eqn:E; [|done]. destruct (Hun i Hi).
      exists t, e. by rewrite E. }
    destruct Htk as (Hnd & Hnew & _ & Hfc). exists ids, st', e'. split_and!; try done; [lia|].
    intros i Hi. destruct (Hnew i Hi). eauto.
  - intros c Hc. by destruct (dealloc_step st m t e c Hinv Ht Hc) as (? & ? & -> & _).
  - intros entries Hp. destruct (commit_step st m t e entries Hinv Ht Hp) as (? & -> & _).
    by destruct (abort_step st m t e entries Hinv Ht Hp) as (? & -> & _).
Qed.

(** [alloc_batch] never returns [None]: with fewer than [n] free chunks the
    [expect] of [ChunkAllocState::alloc] panics, and the rollback of the chunks
    already taken is dead code. *)
Theorem alloc_batch_short_panics cap s e n :
  reachable cap s → free_count (shared s) < n → alloc_batch n (shared s) e = Panic.
Proof.
  intros Hr Hn. pose proof (reachable_inv _ _ Hr) as (Hw & _).
  unfold alloc_batch. by rewrite alloc_loop_full.
Qed.
End system_proofs.

(** *** Witnesses *)
#[local] Existing Instance BittleZ.
#[local] Existing Instance BittleZ_spec.

(** TX 1 allocates a chunk, TX 2 two chunks, TX 2 commits, TX 1 aborts. *)
Definition demo_st1 := Eval vm_compute in
  match alloc (ChunkAllocState_new 4) ChunkAllocEdit_new with
  | Ok (_, p) => p | _ => (ChunkAllocState_new 0, ChunkAllocEdit_new) end.
Definition demo_st2 := Eval vm_compute in
  match alloc_batch 2 demo_st1.1 ChunkAllocEdit_new with
  | Ok (_, p) => p | _ => (ChunkAllocState_new 0, ChunkAllocEdit_new) end.
Definition demo_sys0 : sys :=
  mkSys (ChunkAllocState_new 4) {[1 := ChunkAllocEdit_new; 2 := ChunkAllocEdit_new]}.
Definition demo_sys2 : sys :=
  mkSys demo_st2.1 (<[2 := demo_st2.2]> (<[1 := demo_st1.2]> (txs demo_sys0))).
Definition demo_sys3 : sys := mkSys demo_st2.1 (delete 2 (txs demo_sys2)).

Lemma demo_reachable : reachable 4 demo_sys2.
Proof.
  eapply reach_step; [eapply reach_step; [eapply reach_step; [eapply reach_step;
    [apply reach_init|apply (step_begin _ _ 2); reflexivity]
    |apply (step_begin _ _ 1); reflexivity]
    |eapply (step_alloc _ _ 1); vm_compute; reflexivity]
    |eapply (step_alloc_batch _ _ 2 2); vm_compute; reflexivity].
Qed.

Lemma demo_commit : step demo_sys2 (LCommit 2) demo_sys3.
Proof.
  eapply (step_commit _ _ 2 demo_st2.2 (map_to_list (edit_table demo_st2.2)));
    [vm_compute; reflexivity|done|vm_compute; reflexivity].
Qed.

Lemma chunk_alloc_invariant_witness : sys_inv demo_sys2.
Proof. apply (chunk_alloc_invariant 4), demo_reachable. Defined.

Lemma chunk_alloc_refines_atomic_witness :
  spec_step demo_sys2 (LCommit 2) (committed demo_sys2) (committed demo_sys3) ∧
  committed demo_sys3 2 ∧ ¬ committed demo_sys3 0.
Proof.
  split; [exact (chunk_alloc_refines_atomic 4 _ _ _ demo_reachable demo_commit)|]. split.
  - split; [vm_compute; reflexivity|]. intros t e H. simpl in H.
    destruct (decide (t = 2)) as [->|]; [by vm_compute in H|].
    destruct (decide (t = 1)) as [->|]; [by vm_compute in H; simplify_eq|].
    rewrite lookup_delete_ne, !lookup_insert_ne, lookup_singleton_ne in H by done. done.
  - intros [_ H]. apply (H 1 demo_st1.2); vm_compute; reflexivity.
Defined.

Lemma chunk_ops_succeed_witness :
  is_ok (alloc_batch 1 (shared demo_sys2) demo_st2.2) = true ∧
  is_ok (dealloc 1 (shared demo_sys2) demo_st2.2) = true.
Proof.
  destruct (chunk_ops_succeed 4 demo_sys2 2 demo_st2.2 demo_reachable)
    as (Ha & Hd & _); [vm_compute; reflexivity|]. split.
  - destruct (Ha 1) as (? & ? & ? & -> & _); [vm_compute; lia|done].
  - apply Hd. left. vm_compute. reflexivity.
Defined.

Lemma alloc_batch_short_panics_witness :
  alloc_batch 2 (shared demo_sys2) demo_st1.2 = Panic.
Proof. apply (alloc_batch_short_panics 4 demo_sys2); [apply demo_reachable|vm_compute; lia]. Defined.

(** The state of a fresh allocator after a TX that allocates and aborts. *)
Definition demo_aborted := Eval vm_compute in
  match abort_handler (map_to_list (edit_table demo_st1.2)) demo_st1.1 with
  | Ok st => st | _ => demo_st1.1 end.

