(* ===== verification/RawLog.v ===== *)
(** * RawLog: [core/src/layers/3-log/raw_log.rs] and [core/src/util/lazy_delete.rs]

    The store of raw logs.  A raw log is a head (the chunks and block count of the
    committed part) and, in a TX that writes it, a tail kept in the TX's edit.  The
    operations run on [ctx]: the store's [State], the disk, the shared state of the
    chunk allocator and the two edits of the current TX.  An [Arc<LazyDelete>] is a
    reference-counted object of [lazy_objs].  [head_positions] and
    [tail_positions] give the disk block of every log block; the claims relate
    reads, appends and commits to the list of blocks a log stands for. *)
From S2P Require Import Prelude BitMap Bio Chunk.

Definition CHUNK_NBLOCKS : nat := 1024.
#[global] Opaque CHUNK_NBLOCKS.

Lemma CHUNK_NBLOCKS_pos : 0 < CHUNK_NBLOCKS.
Proof. with_strategy transparent [CHUNK_NBLOCKS] (unfold CHUNK_NBLOCKS; lia). Qed.

(** Addition of two [u32]. *)
Definition u32_add (a b : nat) : res nat :=
  if (N.of_nat a + N.of_nat b <? 2 ^ 32)%N then Ok (a + b) else Panic.

(** ** Persistent state and edits *)
Record RawLogHead := mkRawLogHead { h_chunks : list nat; h_num_blocks : nat }.

Definition RawLogHead_new : RawLogHead := mkRawLogHead [] 0.

Record RawLogTail := mkRawLogTail {
  head_last_chunk_id : nat;
  head_last_chunk_free_blocks : nat;
  t_chunks : list nat;
  t_num_blocks : nat;
}.

Definition RawLogTail_new : RawLogTail := mkRawLogTail 0 0 [] 0.

Definition from_head (h : RawLogHead) : res RawLogTail :=
  free ← usub (length (h_chunks h) * CHUNK_NBLOCKS) (h_num_blocks h);
  Ok (mkRawLogTail (default 0 (last (h_chunks h))) (as_u16 free) [] 0).

Definition head_append (h : RawLogHead) (t : RawLogTail) : res RawLogHead :=
  n ← u32_add (h_num_blocks h) (t_num_blocks t);
  Ok (mkRawLogHead (h_chunks h ++ t_chunks t) n).

(** [RawLogCreate] and [RawLogAppend] both hold a tail. *)
Inductive RawLogEdit := Create (tail : RawLogTail) | Append (tail : RawLogTail) | Delete.

Record RawLogStoreState := mkRawLogStoreState { log_table : gmap nat RawLogHead }.

Definition state_create_log (st : RawLogStoreState) (new_log_id : nat) : res RawLogStoreState :=
  let already_exists := bool_decide (is_Some (log_table st !! new_log_id)) in
  _ ← assert_ (negb already_exists);
  Ok (mkRawLogStoreState (<[new_log_id := RawLogHead_new]> (log_table st))).

Definition find_log (st : RawLogStoreState) (log_id : nat) : option RawLogHead :=
  log_table st !! log_id.

Definition state_append_log (st : RawLogStoreState) (log_id : nat) (tail : RawLogTail)
    : res RawLogStoreState :=
  entry ← unwrap (log_table st !! log_id);
  head ← head_append entry tail;
  Ok (mkRawLogStoreState (<[log_id := head]> (log_table st))).

Definition state_delete_log (st : RawLogStoreState) (log_id : nat) : RawLogStoreState :=
  mkRawLogStoreState (delete log_id (log_table st)).

Record RawLogStoreEdit := mkRawLogStoreEdit { log_edits : gmap nat RawLogEdit }.

Definition RawLogStoreEdit_new : RawLogStoreEdit := mkRawLogStoreEdit ∅.

Definition edit_create_log (e : RawLogStoreEdit) (new_log_id : nat) : res RawLogStoreEdit :=
  _ ← assert_ (bool_decide (log_edits e !! new_log_id = None));
  Ok (mkRawLogStoreEdit (<[new_log_id := Create RawLogTail_new]> (log_edits e))).

Definition edit_open_log (e : RawLogStoreEdit) (log_id : nat) (entry : RawLogHead)
    : res RawLogStoreEdit :=
  match log_edits e !! log_id with
  | None =>
      tail ← from_head entry;
      Ok (mkRawLogStoreEdit (<[log_id := Append tail]> (log_edits e)))
  | Some (Create _) => Panic
  | Some (Append _) => Ok e
  | Some Delete => Panic
  end.

(** Returns the tail chunks of the deleted log. *)
Definition edit_delete_log (e : RawLogStoreEdit) (log_id : nat)
    : res (option (list nat) * RawLogStoreEdit) :=
  let e' := mkRawLogStoreEdit (<[log_id := Delete]> (log_edits e)) in
  match log_edits e !! log_id with
  | None => Ok (None, e')
  | Some (Create tail) => Ok (Some (t_chunks tail), e')
  | Some (Append tail) => Ok (Some (t_chunks tail), e')
  | Some Delete => Panic
  end.

Definition is_log_created (e : RawLogStoreEdit) (log_id : nat) : bool :=
  match log_edits e !! log_id with
  | Some (Create _) | Some (Append _) => true
  | Some Delete | None => false
  end.

(** Iterators over the table, in its order of iteration. *)
Definition iter_created_logs (entries : list (nat * RawLogEdit)) : list nat :=
  omap (λ '(id, edit), match edit with Create _ => Some id | _ => None end) entries.
Definition iter_deleted_logs (entries : list (nat * RawLogEdit)) : list nat :=
  omap (λ '(id, edit), match edit with Delete => Some id | _ => None end) entries.

(** [Edit::apply_to]. *)
Definition store_edit_apply (entries : list (nat * RawLogEdit)) (st : RawLogStoreState)
    : res RawLogStoreState :=
  foldM (λ st '(log_id, log_edit),
    match log_edit with
    | Create tail => st ← state_create_log st log_id; state_append_log st log_id tail
    | Append tail => state_append_log st log_id tail
    | Delete => Ok (state_delete_log st log_id)
    end) st entries.

(** ** The tail of a log *)

Definition calc_needed_chunks (t : RawLogTail) (append_nblocks : nat) : res nat :=
  avail_blocks ← usub (head_last_chunk_free_blocks t + length (t_chunks t) * CHUNK_NBLOCKS)
                   (t_num_blocks t);
  if avail_blocks <? append_nblocks
  then Ok (align_up (append_nblocks - avail_blocks) CHUNK_NBLOCKS / CHUNK_NBLOCKS)
  else Ok 0.

(** The [while] loop that walks [n] blocks of a chunk list. *)
Fixpoint chunk_blocks (chunks : list nat) (offset n : nat) : res (list nat) :=
  match n with
  | 0 => Ok []
  | S n =>
      c ← index chunks (offset / CHUNK_NBLOCKS);
      bs ← chunk_blocks chunks (offset + 1) n;
      Ok (c * CHUNK_NBLOCKS + offset mod CHUNK_NBLOCKS :: bs)
  end.

Definition head_prepare_blocks (h : RawLogHead) (offset nblocks : nat) : res (list nat) :=
  chunk_blocks (h_chunks h) offset nblocks.

(** The [for] loop over the free blocks of the head's last chunk; the flag says
    that it returned early. *)
Fixpoint collect_free (t : RawLogTail) (is_ : list nat) (nblocks : nat) (acc : list nat)
    : res (bool * list nat) :=
  match is_ with
  | [] => Ok (false, acc)
  | i :: is_ =>
      base ← usub CHUNK_NBLOCKS (head_last_chunk_free_blocks t);
      let acc := acc ++ [head_last_chunk_id t * CHUNK_NBLOCKS + (base + i)] in
      if length acc =? nblocks then Ok (true, acc) else collect_free t is_ nblocks acc
  end.

Definition tail_prepare_blocks (t : RawLogTail) (offset nblocks : nat) : res (list nat) :=
  let free := head_last_chunk_free_blocks t in
  if offset <? free then
    '(early, acc) ← collect_free t (seq offset (free - offset)) nblocks [];
    if (early : bool) then Ok acc else
    n ← usub nblocks (length acc);
    bs ← chunk_blocks (t_chunks t) 0 n;
    Ok (acc ++ bs)
  else chunk_blocks (t_chunks t) (offset - free) nblocks.

(** [slice::group_by] with the predicate [b2 - b1 == 1]: maximal runs. *)
Fixpoint group_consecutive (bs : list nat) : list (list nat) :=
  match bs with
  | [] => []
  | b1 :: bs =>
      match group_consecutive bs with
      | (b2 :: g) :: gs => if b2 - b1 =? 1 then (b1 :: b2 :: g) :: gs else [b1] :: (b2 :: g) :: gs
      | gs => [b1] :: gs
      end
  end.

Section ops.
Context {B : Bittle} {D St : Type} {HS : BlockSet D St}.

(** The batched reads and writes over the prepared blocks. *)
Fixpoint read_groups (d : D) (s : St) (gs : list (list nat)) : res (list byte) :=
  match gs with
  | [] => Ok []
  | g :: gs =>
      first_bid ← unwrap (head g);
      b ← bs_read d s first_bid (length g);
      rest ← read_groups d s gs;
      Ok (b ++ rest)
  end.

Fixpoint write_groups (d : D) (s : St) (gs : list (list nat)) (buf : list byte) (offset : nat)
    : res St :=
  match gs with
  | [] => Ok s
  | g :: gs =>
      first_bid ← unwrap (head g);
      part ← slice buf (offset * BLOCK_SIZE) ((offset + length g) * BLOCK_SIZE);
      s ← bs_write d s first_bid part;
      write_groups d s gs buf (offset + length g)
  end.

Definition head_read (d : D) (s : St) (h : RawLogHead) (offset nblocks : nat) : res (list byte) :=
  _ ← assert_ (offset + nblocks <=? h_num_blocks h);
  prepared_blocks ← head_prepare_blocks h offset nblocks;
  read_groups d s (group_consecutive prepared_blocks).

Definition tail_read (d : D) (s : St) (t : RawLogTail) (offset nblocks : nat) : res (list byte) :=
  _ ← assert_ (offset + nblocks <=? t_num_blocks t);
  prepared_blocks ← tail_prepare_blocks t offset nblocks;
  read_groups d s (group_consecutive prepared_blocks).

Definition tail_append (d : D) (s : St) (t : RawLogTail) (buf : list byte) : res St :=
  prepared_blocks ← tail_prepare_blocks t (t_num_blocks t) (nblocks_of buf);
  write_groups d s (group_consecutive prepared_blocks) buf 0.

(** [RawLogRef]: the head and the tail of a handle. *)
Record RawLogRef := mkRawLogRef { log_head : option RawLogHead; log_tail : option RawLogTail }.

Definition head_len (r : RawLogRef) : nat :=
  match log_head r with Some h => h_num_blocks h | None => 0 end.
Definition tail_len (r : RawLogRef) : nat :=
  match log_tail r with Some t => t_num_blocks t | None => 0 end.
Definition ref_nblocks (r : RawLogRef) : nat := head_len r + tail_len r.

(** [RawLogRef::read]: the bytes that fill a buffer of [nblocks] blocks. *)
Definition ref_read (d : D) (s : St) (r : RawLogRef) (pos nblocks : nat) : res (list byte) :=
  let total_len := head_len r + tail_len r in
  end_ ← uadd pos nblocks;
  if total_len <? end_ then Err InvalidArgs else
  '(part, pos, nblocks) ←
    (match log_head r with
     | Some h =>
         if pos <? head_len r then
           let num_read := Nat.min nblocks (head_len r - pos) in
           part ← head_read d s h pos num_read;
           Ok (part, pos + num_read, nblocks - num_read)
         else Ok ([], pos, nblocks)
     | None => Ok ([], pos, nblocks)
     end);
  if nblocks =? 0 then Ok part else
  match log_tail r with
  | Some t =>
      if head_len r <=? pos then
        let num_read := Nat.min nblocks (total_len - pos) in
        rest ← tail_read d s t (pos - head_len r) num_read;
        Ok (part ++ rest)
      else Ok part
  | None => Ok part
  end.
End ops.

(** ** The store *)

(** [util/lazy_delete.rs]: an object behind an [Arc], with its reference count. *)
Record LazyDelete := mkLazyDelete { lazy_obj : RawLogHead; is_deleted : bool; arc_refs : nat }.

Record State := mkState {
  persistent : RawLogStoreState;
  next_free_log_id : nat;
  write_set : gset nat;
  lazy_deletes : gmap nat nat;        (* log -> address of its LazyDelete *)
  lazy_objs : gmap nat LazyDelete;    (* the objects, by address *)
}.

Definition set_persistent (st : State) p :=
  mkState p (next_free_log_id st) (write_set st) (lazy_deletes st) (lazy_objs st).
Definition set_write_set (st : State) w :=
  mkState (persistent st) (next_free_log_id st) w (lazy_deletes st) (lazy_objs st).
Definition set_lazy (st : State) tbl objs :=
  mkState (persistent st) (next_free_log_id st) (write_set st) tbl objs.

Definition alloc_log_id (st : State) : res (nat * State) :=
  next ← uadd (next_free_log_id st) 1;
  Ok (next_free_log_id st,
      mkState (persistent st) next (write_set st) (lazy_deletes st) (lazy_objs st)).

Definition add_to_write_set (st : State) (log_id : nat) : res State :=
  if bool_decide (log_id ∈ write_set st) then Err PermissionDenied
  else Ok (set_write_set st ({[log_id]} ∪ write_set st)).

Definition remove_from_write_set (st : State) (log_id : nat) : State :=
  set_write_set st (write_set st ∖ {[log_id]}).

(** [add_lazy_delete]: a fresh object owned by the table. *)
Definition add_lazy_delete (log_id : nat) (entry : RawLogHead) (st : State) : State :=
  let addr := fresh (dom (lazy_objs st)) in
  set_lazy st (<[log_id := addr]> (lazy_deletes st))
    (<[addr := mkLazyDelete entry false 1]> (lazy_objs st)).

(** [State::new] from the recovered table, with its lazy deletes. *)
Definition State_new (p : RawLogStoreState) (entries : list (nat * RawLogHead)) : State :=
  let st := foldl (λ st '(id, entry), add_lazy_delete id entry st) (mkState p 0 ∅ ∅ ∅) entries in
  let next := match list_max (entries.*1) with m => if entries is [] then 0 else m + 1 end in
  mkState p next ∅ (lazy_deletes st) (lazy_objs st).

Section store.
Context {B : Bittle} {D St : Type} {HS : BlockSet D St}.

(** The store's state, the disk, and the chunk allocator and the edits the current
    TX works with. *)
Record ctx := mkCtx {
  state : State;
  disk_store : St;
  chunk_state : ChunkAllocState;
  chunk_edit : ChunkAllocEdit;
  store_edit : RawLogStoreEdit;
}.

Definition with_state (c : ctx) (st : State) : ctx :=
  mkCtx st (disk_store c) (chunk_state c) (chunk_edit c) (store_edit c).
Definition with_disk (c : ctx) (s : St) : ctx :=
  mkCtx (state c) s (chunk_state c) (chunk_edit c) (store_edit c).
Definition with_chunks (c : ctx) (p : ChunkAllocState * ChunkAllocEdit) : ctx :=
  mkCtx (state c) (disk_store c) p.1 p.2 (store_edit c).
Definition with_edit (c : ctx) (e : RawLogStoreEdit) : ctx :=
  mkCtx (state c) (disk_store c) (chunk_state c) (chunk_edit c) e.

(** A handle; the entry is a snapshot taken when the log was opened. *)
Record RawLog := mkRawLog {
  log_id : nat;
  log_entry : option RawLogHead;
  lazy_delete : option nat;
  append_pos : nat;
  can_append : bool;
}.

Definition create_log (c : ctx) : res (RawLog * ctx) :=
  '(new_log_id, st) ← alloc_log_id (state c);
  st ← unwrap_res (add_to_write_set st new_log_id);
  e ← edit_create_log (store_edit c) new_log_id;
  Ok (mkRawLog new_log_id None None 0 true, with_edit (with_state c st) e).

(** Cloning an [Arc], and dropping one: the last drop of a deleted object frees
    the chunks it recorded. *)
Definition arc_clone (addr : nat) (st : State) : res State :=
  o ← unwrap (lazy_objs st !! addr);
  Ok (set_lazy st (lazy_deletes st)
        (<[addr := mkLazyDelete (lazy_obj o) (is_deleted o) (arc_refs o + 1)]> (lazy_objs st))).

Definition arc_drop (addr : nat) (c : ctx) : res ctx :=
  let st := state c in
  o ← unwrap (lazy_objs st !! addr);
  if arc_refs o =? 1 then
    let c := with_state c (set_lazy st (lazy_deletes st) (delete addr (lazy_objs st))) in
    if is_deleted o then
      p ← dealloc_batch (h_chunks (lazy_obj o)) (chunk_state c) (chunk_edit c);
      Ok (with_chunks c p)
    else Ok c
  else
    Ok (with_state c (set_lazy st (lazy_deletes st)
          (<[addr := mkLazyDelete (lazy_obj o) (is_deleted o) (arc_refs o - 1)]> (lazy_objs st)))).

Definition open_log (log_id : nat) (can_append : bool) (c : ctx) : res (RawLog * ctx) :=
  lazy_delete ← ok_or (lazy_deletes (state c) !! log_id) NotFound;
  let log_entry_opt := find_log (persistent (state c)) log_id in
  c ← (match log_entry_opt with
       | Some entry =>
           if can_append then
             st ← add_to_write_set (state c) log_id;
             e ← edit_open_log (store_edit c) log_id entry;
             Ok (with_edit (with_state c st) e)
           else Ok c
       | None => if is_log_created (store_edit c) log_id then Ok c else Err NotFound
       end);
  st ← arc_clone lazy_delete (state c);
  let append_pos := match log_entry_opt with Some h => h_num_blocks h | None => 0 end in
  Ok (mkRawLog log_id log_entry_opt (Some lazy_delete) append_pos can_append, with_state c st).

Definition delete_log (log_id : nat) (c : ctx) : res ctx :=
  '(tail_chunks, e) ← edit_delete_log (store_edit c) log_id;
  let c := with_edit c e in
  c ← (match tail_chunks with
       | Some chunks => p ← dealloc_batch chunks (chunk_state c) (chunk_edit c); Ok (with_chunks c p)
       | None => Ok c
       end);
  Ok (with_state c (remove_from_write_set (state c) log_id)).

(** [Drop for RawLog]. *)
Definition drop_log (l : RawLog) (c : ctx) : res ctx :=
  let c := if can_append l then with_state c (remove_from_write_set (state c) (log_id l)) else c in
  match lazy_delete l with Some addr => arc_drop addr c | None => Ok c end.

(** [RawLog::as_ref]. *)
Definition as_ref (l : RawLog) (c : ctx) : RawLogRef :=
  mkRawLogRef (log_entry l)
    (match log_edits (store_edit c) !! log_id l with
     | Some (Create tail) | Some (Append tail) => Some tail
     | Some Delete | None => None
     end).

Definition read (d : D) (l : RawLog) (c : ctx) (pos nblocks : nat) : res (list byte) :=
  ref_read d (disk_store c) (as_ref l c) pos nblocks.

Definition nblocks (l : RawLog) (c : ctx) : nat := ref_nblocks (as_ref l c).

(** [tail_mut_with]: the tail in the edit of the current TX. *)
Definition set_tail (log_id : nat) (t : RawLogTail) (c : ctx) : res ctx :=
  e ← (match log_edits (store_edit c) !! log_id with
       | Some (Create _) => Ok (Create t)
       | Some (Append _) => Ok (Append t)
       | Some Delete | None => Panic
       end);
  Ok (with_edit c (mkRawLogStoreEdit (<[log_id := e]> (log_edits (store_edit c))))).

(** [RawLogRef::append] on the tail [t] of log [log_id]. *)
Definition ref_append (d : D) (log_id : nat) (t : RawLogTail) (buf : list byte) (c : ctx) : res ctx :=
  let append_nblocks := nblocks_of buf in
  chunks_needed ← calc_needed_chunks t append_nblocks;
  '(t, c) ← (if 0 <? chunks_needed then
               '(o, p) ← alloc_batch chunks_needed (chunk_state c) (chunk_edit c);
               new_chunks ← ok_or o OutOfMemory;
               let c := with_chunks c p in
               let t := mkRawLogTail (head_last_chunk_id t) (head_last_chunk_free_blocks t)
                          (t_chunks t ++ new_chunks) (t_num_blocks t) in
               c ← set_tail log_id t c;
               Ok (t, c)
             else Ok (t, c));
  s ← tail_append d (disk_store c) t buf;
  n ← u32_add (t_num_blocks t) (as_u32 append_nblocks);
  set_tail log_id (mkRawLogTail (head_last_chunk_id t) (head_last_chunk_free_blocks t)
                     (t_chunks t) n) (with_disk c s).

(** [BlockLog::append] for [RawLog]: the position of the appended blocks. *)
Definition append (d : D) (l : RawLog) (buf : list byte) (c : ctx) : res (nat * RawLog * ctx) :=
  if negb (can_append l) then Err PermissionDenied else
  t ← unwrap (log_tail (as_ref l c));
  c ← ref_append d (log_id l) t buf c;
  Ok (append_pos l,
      mkRawLog (log_id l) (log_entry l) (lazy_delete l) (append_pos l + nblocks_of buf) (can_append l),
      c).

(** ** The commit handler *)

Definition add_lazy_deletes_for_created_logs (st : State) (entries : list (nat * RawLogEdit))
    : State :=
  foldl (λ st log_id,
    match find_log (persistent st) log_id with
    | None => st
    | Some entry =>
        if bool_decide (is_Some (lazy_deletes st !! log_id)) then st
        else add_lazy_delete log_id entry st
    end) st (iter_created_logs entries).

Definition do_lazy_deletion (c : ctx) (entries : list (nat * RawLogEdit)) : res ctx :=
  foldM (λ c log_id,
    match lazy_deletes (state c) !! log_id with
    | None => Ok c
    | Some addr =>
        let st := state c in
        o ← unwrap (lazy_objs st !! addr);
        arc_drop addr (with_state c (set_lazy st (delete log_id (lazy_deletes st))
          (<[addr := mkLazyDelete (lazy_obj o) true (arc_refs o)]> (lazy_objs st))))
    end) c (iter_deleted_logs entries).

Definition store_commit_handler (entries : list (nat * RawLogEdit)) (c : ctx) : res ctx :=
  c ← (if bool_decide (log_edits (store_edit c) = ∅) then Ok c else
       p ← store_edit_apply entries (persistent (state c));
       Ok (with_state c (add_lazy_deletes_for_created_logs (set_persistent (state c) p) entries)));
  do_lazy_deletion c entries.
End store.
Arguments ctx : clear implicits.

(** ** Where the blocks of a log are *)

(** The disk block of the [i]-th block of a chunk list, of a head and of a tail. *)
Definition chunk_pos (chunks : list nat) (i : nat) : nat :=
  nth (i / CHUNK_NBLOCKS) chunks 0 * CHUNK_NBLOCKS + i mod CHUNK_NBLOCKS.
Definition tail_pos (t : RawLogTail) (i : nat) : nat :=
  if i <? head_last_chunk_free_blocks t
  then head_last_chunk_id t * CHUNK_NBLOCKS + (CHUNK_NBLOCKS - head_last_chunk_free_blocks t + i)
  else chunk_pos (t_chunks t) (i - head_last_chunk_free_blocks t).

Definition head_positions (h : RawLogHead) : list nat :=
  map (chunk_pos (h_chunks h)) (seq 0 (h_num_blocks h)).
Definition tail_positions (t : RawLogTail) : list nat :=
  map (tail_pos t) (seq 0 (t_num_blocks t)).

(** The room of a tail. *)
Definition tail_cap (t : RawLogTail) : nat :=
  head_last_chunk_free_blocks t + length (t_chunks t) * CHUNK_NBLOCKS.

Lemma chunk_blocks_ok chunks offset n :
  offset + n ≤ length chunks * CHUNK_NBLOCKS →
  chunk_blocks chunks offset n = Ok (map (chunk_pos chunks) (seq offset n)).
Proof.
  pose proof CHUNK_NBLOCKS_pos.
  revert offset. induction n as [|n IH]; intros offset Hle; [done|]. cbn [chunk_blocks].
  assert (Hd : offset / CHUNK_NBLOCKS < length chunks).
  { apply Nat.Div0.div_lt_upper_bound. lia. }
  destruct (lookup_lt_is_Some_2 _ _ Hd) as [c Hc]. rewrite (index_ok _ _ _ Hc). bind_step.
  rewrite IH by lia. bind_step. cbn [seq map]. rewrite Nat.add_1_r. unfold chunk_pos at 2.
  by rewrite (nth_lookup_Some _ _ _ _ Hc).
Qed.

Lemma collect_free_ok t n : ∀ offset count acc,
  head_last_chunk_free_blocks t ≤ CHUNK_NBLOCKS →
  offset + count ≤ head_last_chunk_free_blocks t → length acc < n →
  collect_free t (seq offset count) n acc =
    Ok (n - length acc <=? count,
        acc ++ map (tail_pos t) (seq offset (Nat.min count (n - length acc)))).
Proof.
  intros offset count. revert offset.
  induction count as [|count IH]; intros offset acc Hf Hc Hacc; cbn [seq collect_free].
  { simpl. rewrite app_nil_r. by rewrite (proj2 (Nat.leb_gt _ _)) by lia. }
  rewrite usub_ok by lia. bind_step.
  assert (Hp : head_last_chunk_id t * CHUNK_NBLOCKS +
               (CHUNK_NBLOCKS - head_last_chunk_free_blocks t + offset) = tail_pos t offset).
  { unfold tail_pos. by rewrite (proj2 (Nat.ltb_lt _ _)) by lia. }
  rewrite Hp. rewrite length_app. cbn [length].
  destruct (length acc + 1 =? n) eqn:E; bool_simpl.
  - replace (n - length acc) with 1 by lia. rewrite (proj2 (Nat.leb_le _ _)) by lia.
    by replace (Nat.min (S count) 1) with 1 by lia.
  - rewrite IH by (try rewrite length_app; simpl; lia). rewrite length_app. cbn [length]. f_equal. f_equal.
    + destruct (n - (length acc + 1) <=? count) eqn:E1; bool_simpl; symmetry;
        [apply Nat.leb_le|apply Nat.leb_gt]; lia.
    + rewrite <- app_assoc. f_equal.
      replace (Nat.min (S count) (n - length acc))
        with (S (Nat.min count (n - (length acc + 1)))) by lia. done.
Qed.

(** [prepare_blocks] of the tail walks its positions, across the boundary between
    the last chunk of the head and the chunks of the tail. *)
Lemma tail_prepare_blocks_ok t offset n :
  head_last_chunk_free_blocks t ≤ CHUNK_NBLOCKS → 0 < n → offset + n ≤ tail_cap t →
  tail_prepare_blocks t offset n = Ok (map (tail_pos t) (seq offset n)).
Proof.
  unfold tail_cap. intros Hf Hn Hle. unfold tail_prepare_blocks.
  set (free := head_last_chunk_free_blocks t) in *.
  assert (Htail : ∀ k m, free ≤ k → map (chunk_pos (t_chunks t)) (seq (k - free) m)
                                    = map (tail_pos t) (seq k m)).
  { intros k m Hk. revert k Hk. induction m as [|m IH]; intros k Hk; [done|]. cbn [seq map].
    replace (S (k - free)) with (S k - free) by lia. rewrite IH by lia. f_equal.
    unfold tail_pos. fold free. by rewrite (proj2 (Nat.ltb_ge _ _)) by lia. }
  destruct (offset <? free) eqn:E; bool_simpl.
  - rewrite collect_free_ok by (fold free; simpl; lia). bind_step. cbn [length].
    rewrite Nat.sub_0_r. destruct (n <=? free - offset) eqn:E2; bool_simpl; cbn [app].
    + by replace (Nat.min (free - offset) n) with n by lia.
    + rewrite length_map, length_seq, Nat.min_l by lia.
      rewrite usub_ok by lia. bind_step. rewrite chunk_blocks_ok by lia. bind_step.
      pose proof (Htail free (n - (free - offset)) ltac:(lia)) as Ht. rewrite Nat.sub_diag in Ht.
      rewrite Ht, <- map_app. do 2 f_equal.
      replace (seq free) with (seq (offset + (free - offset))) by (f_equal; lia).
      rewrite <- seq_app. f_equal. lia.
  - rewrite chunk_blocks_ok by lia. by rewrite Htail.
Qed.

(** Runs of consecutive blocks. *)
Lemma group_consecutive_spec bs :
  concat (group_consecutive bs) = bs ∧
  Forall (λ g, ∃ b, g = seq b (length g) ∧ 0 < length g) (group_consecutive bs).
Proof.
  induction bs as [|b1 bs [IH1 IH2]]; [done|]. cbn [group_consecutive].
  assert (Hone : ∃ b, [b1] = seq b (length [b1]) ∧ 0 < length [b1]) by (exists b1; simpl; split; [done|lia]).
  destruct (group_consecutive bs) as [|[|b2 g] gs] eqn:E.
  - simpl in *. subst. split; [done|]. by constructor.
  - simpl in *. split; [by rewrite IH1|]. constructor; [done|]. done.
  - apply Forall_cons in IH2 as [(b & Hg & Hlen) Hgs].
    destruct (b2 - b1 =? 1) eqn:E2; bool_simpl.
    + split; [simpl in *; by rewrite IH1|]. constructor; [|done]. exists b1.
      cbn [length seq] in *. injection Hg as -> Hg. split; [|lia]. f_equal.
      replace b with (S b1) in * by lia. by f_equal.
    + split; [simpl in *; by rewrite IH1|]. constructor; [done|]. constructor; [|done]. by exists b.
Qed.

Section disk.
Context {B : Bittle} {D St : Type} {HS : BlockSet D St} {HSS : BlockSetSpec D St}.
Implicit Types (d : D) (s : St).

Lemma read_groups_ok d s gs :
  bs_valid d s →
  Forall (λ g, ∃ b, g = seq b (length g) ∧ 0 < length g) gs →
  Forall (λ p, p < bs_nblocks d) (concat gs) →
  read_groups d s gs = Ok (concat (map (bs_block d s) (concat gs))).
Proof.
  intros Hv. induction gs as [|g gs IH]; intros Hg Hp; [done|]. cbn [read_groups].
  apply Forall_cons in Hg as [(b & Hb & Hlen) Hg]. simpl in Hp. apply Forall_app in Hp as [Hp1 Hp2].
  rewrite Hb at 1. destruct (length g) as [|m] eqn:Em; [lia|]. cbn [seq head unwrap]. bind_step.
  rewrite bs_read_ok; [|done|lia|].
  - bind_step. rewrite IH by done. bind_step. rewrite <- Hb. simpl. by rewrite map_app, concat_app.
  - rewrite Forall_forall in Hp1. assert (b + m < bs_nblocks d); [|lia]. apply Hp1.
    rewrite Hb. apply elem_of_seq. lia.
Qed.

Lemma read_blocks_ok d s ps :
  bs_valid d s → Forall (λ p, p < bs_nblocks d) ps →
  read_groups d s (group_consecutive ps) = Ok (concat (map (bs_block d s) ps)).
Proof.
  intros Hv Hp. destruct (group_consecutive_spec ps) as [Hc Hg].
  rewrite read_groups_ok by (done || by rewrite Hc). by rewrite Hc.
Qed.

Lemma nth_block_part (buf : list byte) o m i :
  i < m → nth_block (take (m * BLOCK_SIZE) (drop (o * BLOCK_SIZE) buf)) i = nth_block buf (o + i).
Proof.
  intros Hi. unfold nth_block. rewrite skipn_firstn_comm, drop_drop, take_take.
  pose proof BLOCK_SIZE_pos. rewrite Nat.min_l by nia. do 2 f_equal. lia.
Qed.

(** The batched writes put the blocks of the buffer at the given positions and
    change nothing else. *)
Lemma write_groups_ok d buf gs : ∀ s offset,
  bs_valid d s →
  Forall (λ g, ∃ b, g = seq b (length g) ∧ 0 < length g) gs →
  Forall (λ p, p < bs_nblocks d) (concat gs) → NoDup (concat gs) →
  length buf = (offset + length (concat gs)) * BLOCK_SIZE →
  ∃ s', write_groups d s gs buf offset = Ok s' ∧ bs_valid d s' ∧
    (∀ i p, concat gs !! i = Some p → bs_block d s' p = nth_block buf (offset + i)) ∧
    (∀ p, p < bs_nblocks d → p ∉ concat gs → bs_block d s' p = bs_block d s p).
Proof.
  induction gs as [|g gs IH]; intros s offset Hv Hg Hp Hnd Hlen; cbn [write_groups].
  { exists s. split; [done|]. split; [done|]. split; [|done]. intros [|i] p Hi; done. }
  apply Forall_cons in Hg as [(b & Hb & Hpos) Hg]. simpl in *.
  apply Forall_app in Hp as [Hp1 Hp2]. apply NoDup_app in Hnd as (Hnd1 & Hdisj & Hnd2).
  rewrite length_app in Hlen. pose proof BLOCK_SIZE_pos.
  assert (Hing : ∀ x, b ≤ x < b + length g → x ∈ g).
  { intros x Hx. rewrite Hb. by apply elem_of_seq. }
  assert (Hrange : b + length g ≤ bs_nblocks d).
  { rewrite Forall_forall in Hp1. assert (b + (length g - 1) < bs_nblocks d); [|lia].
    apply Hp1, Hing. lia. }
  assert (head g = Some b) as ->.
  { rewrite Hb. destruct (length g) eqn:E; [lia|]. done. }
  cbn [unwrap]. bind_step. rewrite slice_ok by nia. bind_step.
  replace ((offset + length g) * BLOCK_SIZE - offset * BLOCK_SIZE) with (length g * BLOCK_SIZE) by lia.
  set (part := take _ _).
  assert (Hpart : is_buf (length g) part).
  { split; [done|]. subst part. rewrite length_take, length_drop. nia. }
  destruct (bs_write_ok d s b (length g) part Hv Hpart Hrange) as (s1 & -> & Hv1 & Hblk). bind_step.
  destruct (IH s1 (offset + length g) Hv1 Hg Hp2 Hnd2) as (s2 & -> & Hv2 & Hin & Hout); [nia|].
  exists s2. split; [done|]. split; [done|]. split.
  - intros i p Hi. destruct (decide (i < length g)) as [Hlt|Hge].
    + rewrite lookup_app_l in Hi by done.
      assert (p = b + i) as ->.
      { rewrite Hb in Hi. apply lookup_seq in Hi. lia. }
      rewrite Hout; [|lia|].
      * rewrite Hblk by lia. rewrite (proj2 (Nat.leb_le _ _)), (proj2 (Nat.ltb_lt _ _)) by lia. simpl.
        replace (b + i - b) with i by lia. subst part. by rewrite nth_block_part.
      * apply Hdisj. by eapply list_elem_of_lookup_2.
    + rewrite lookup_app_r in Hi by lia. rewrite (Hin _ _ Hi). f_equal. lia.
  - intros p Hpr Hni. rewrite Hout by set_solver. rewrite Hblk by done.
    destruct ((b <=? p) && (p <? b + length g)) eqn:E; [|done]. bool_simpl.
    exfalso. apply Hni, elem_of_app. left. apply Hing. lia.
Qed.

(** ** The blocks of a log: a head [h] and a tail [t] over it *)
Definition tail_on (h : RawLogHead) (t : RawLogTail) : Prop :=
  h_num_blocks h ≤ length (h_chunks h) * CHUNK_NBLOCKS ∧
  head_last_chunk_free_blocks t = length (h_chunks h) * CHUNK_NBLOCKS - h_num_blocks h ∧
  head_last_chunk_free_blocks t ≤ CHUNK_NBLOCKS ∧
  (0 < head_last_chunk_free_blocks t → last (h_chunks h) = Some (head_last_chunk_id t)).

Definition log_chunks (h : RawLogHead) (t : RawLogTail) : list nat := h_chunks h ++ t_chunks t.

Definition log_ok d (h : RawLogHead) (t : RawLogTail) : Prop :=
  tail_on h t ∧ t_num_blocks t ≤ tail_cap t ∧ NoDup (log_chunks h t) ∧
  Forall (λ c, c * CHUNK_NBLOCKS + CHUNK_NBLOCKS ≤ bs_nblocks d) (log_chunks h t).

(** The list of blocks the log stands for. *)
Definition log_content d s (h : RawLogHead) (t : RawLogTail) : list (list byte) :=
  map (λ i, bs_block d s (chunk_pos (log_chunks h t) i)) (seq 0 (h_num_blocks h + t_num_blocks t)).

Lemma head_pos_log h t i :
  i < length (h_chunks h) * CHUNK_NBLOCKS → chunk_pos (h_chunks h) i = chunk_pos (log_chunks h t) i.
Proof.
  intros Hi. unfold chunk_pos, log_chunks. rewrite app_nth1; [done|].
  pose proof CHUNK_NBLOCKS_pos. apply Nat.Div0.div_lt_upper_bound. lia.
Qed.

Lemma div_mod_at q r : r < CHUNK_NBLOCKS →
  (q * CHUNK_NBLOCKS + r) / CHUNK_NBLOCKS = q ∧ (q * CHUNK_NBLOCKS + r) mod CHUNK_NBLOCKS = r.
Proof.
  intros Hr. split.
  - symmetry. apply Nat.div_unique with r; lia.
  - symmetry. apply Nat.mod_unique with q; lia.
Qed.

(** A tail block is the block that follows the head in the joint chunk list. *)
Lemma tail_pos_log h t i :
  tail_on h t → i < tail_cap t → tail_pos t i = chunk_pos (log_chunks h t) (h_num_blocks h + i).
Proof.
  intros (Hh & Hfree & Hle & Hlast) Hi. unfold tail_pos, tail_cap in *.
  pose proof CHUNK_NBLOCKS_pos.
  set (free := head_last_chunk_free_blocks t) in *. set (L := length (h_chunks h)) in *.
  destruct (i <? free) eqn:E; bool_simpl.
  - assert (0 < L) by (destruct L; lia).
    assert (Heq : h_num_blocks h + i = (L - 1) * CHUNK_NBLOCKS + (CHUNK_NBLOCKS - free + i)) by nia.
    destruct (div_mod_at (L - 1) (CHUNK_NBLOCKS - free + i) ltac:(lia)) as [Hq Hr].
    unfold chunk_pos, log_chunks. rewrite Heq, Hq, Hr. f_equal. f_equal.
    rewrite app_nth1 by (fold L; lia). symmetry. apply nth_lookup_Some.
    rewrite <- Hlast by lia. rewrite last_lookup. f_equal. fold L. lia.
  - assert (Heq : h_num_blocks h + i = i - free + L * CHUNK_NBLOCKS) by nia.
    unfold chunk_pos, log_chunks. rewrite Heq, Nat.div_add, Nat.Div0.mod_add by lia.
    f_equal. f_equal. rewrite app_nth2 by (fold L; lia). f_equal. fold L. lia.
Qed.

Lemma chunk_pos_range d cs i :
  Forall (λ c, c * CHUNK_NBLOCKS + CHUNK_NBLOCKS ≤ bs_nblocks d) cs →
  i < length cs * CHUNK_NBLOCKS → chunk_pos cs i < bs_nblocks d.
Proof.
  intros Hcs Hi. pose proof CHUNK_NBLOCKS_pos. unfold chunk_pos.
  assert (Hd : i / CHUNK_NBLOCKS < length cs) by (apply Nat.Div0.div_lt_upper_bound; lia).
  destruct (lookup_lt_is_Some_2 _ _ Hd) as [c Hc]. rewrite (nth_lookup_Some _ _ _ _ Hc).
  rewrite Forall_lookup in Hcs. specialize (Hcs _ _ Hc).
  pose proof (Nat.mod_upper_bound i CHUNK_NBLOCKS ltac:(lia)). lia.
Qed.

Lemma chunk_pos_chunk cs i :
  i < length cs * CHUNK_NBLOCKS → chunk_pos cs i / CHUNK_NBLOCKS ∈ cs.
Proof.
  intros Hi. pose proof CHUNK_NBLOCKS_pos. unfold chunk_pos.
  pose proof (Nat.mod_upper_bound i CHUNK_NBLOCKS ltac:(lia)).
  rewrite (proj1 (div_mod_at _ _ ltac:(eassumption))).
  assert (Hd : i / CHUNK_NBLOCKS < length cs) by (apply Nat.Div0.div_lt_upper_bound; lia).
  destruct (lookup_lt_is_Some_2 _ _ Hd) as [c Hc]. rewrite (nth_lookup_Some _ _ _ _ Hc).
  by eapply list_elem_of_lookup_2.
Qed.

Lemma chunk_pos_inj cs i j :
  NoDup cs → i < length cs * CHUNK_NBLOCKS → j < length cs * CHUNK_NBLOCKS →
  chunk_pos cs i = chunk_pos cs j → i = j.
Proof.
  intros Hnd Hi Hj Heq. pose proof CHUNK_NBLOCKS_pos. unfold chunk_pos in Heq.
  pose proof (Nat.mod_upper_bound i CHUNK_NBLOCKS ltac:(lia)) as Hmi.
  pose proof (Nat.mod_upper_bound j CHUNK_NBLOCKS ltac:(lia)) as Hmj.
  destruct (div_mod_at (nth (i / CHUNK_NBLOCKS) cs 0) _ Hmi) as [Hqi Hri].
  destruct (div_mod_at (nth (j / CHUNK_NBLOCKS) cs 0) _ Hmj) as [Hqj Hrj].
  rewrite Heq in Hqi, Hri.
  assert (i / CHUNK_NBLOCKS = j / CHUNK_NBLOCKS).
  { assert (Hd : i / CHUNK_NBLOCKS < length cs) by (apply Nat.Div0.div_lt_upper_bound; lia).
    assert (Hd' : j / CHUNK_NBLOCKS < length cs) by (apply Nat.Div0.div_lt_upper_bound; lia).
    apply (proj1 (NoDup_nth cs 0)); [by apply NoDup_ListNoDup|done..|congruence]. }
  rewrite (Nat.div_mod_eq i CHUNK_NBLOCKS), (Nat.div_mod_eq j CHUNK_NBLOCKS). congruence.
Qed.

(** The blocks [pos, pos + n) of a log. *)
Definition log_slice d s h t (pos n : nat) : list (list byte) :=
  map (λ i, bs_block d s (chunk_pos (log_chunks h t) i)) (seq pos n).

Lemma log_slice_content d s h t pos n :
  pos + n ≤ h_num_blocks h + t_num_blocks t →
  log_slice d s h t pos n = take n (drop pos (log_content d s h t)).
Proof.
  intros Hle. unfold log_slice, log_content.
  rewrite skipn_map, firstn_map. f_equal. rewrite drop_seq, take_seq. f_equal; lia.
Qed.

Lemma log_slice_app d s h t pos n m :
  log_slice d s h t pos (n + m) = log_slice d s h t pos n ++ log_slice d s h t (pos + n) m.
Proof. unfold log_slice. by rewrite seq_app, map_app. Qed.

Lemma log_ok_cap d h t :
  log_ok d h t → h_num_blocks h + tail_cap t = length (log_chunks h t) * CHUNK_NBLOCKS.
Proof.
  intros ((Hh & Hf & _) & _). unfold tail_cap, log_chunks. rewrite length_app. lia.
Qed.

Lemma head_read_ok d s h t off n :
  bs_valid d s → log_ok d h t → off + n ≤ h_num_blocks h →
  head_read d s h off n = Ok (concat (log_slice d s h t off n)).
Proof.
  intros Hv Hok Hle. pose proof Hok as ((Hh & _) & _ & _ & Hr).
  unfold head_read, head_prepare_blocks. rewrite (proj2 (Nat.leb_le _ _)) by done.
  cbn [assert_]. bind_step. rewrite chunk_blocks_ok by lia. bind_step.
  assert (Heq : map (chunk_pos (h_chunks h)) (seq off n) = map (chunk_pos (log_chunks h t)) (seq off n)).
  { apply map_ext_in. intros i Hi%in_seq. apply head_pos_log. lia. }
  rewrite Heq, read_blocks_ok; [by rewrite map_map|done|].
  apply Forall_forall. intros p Hp. apply list_elem_of_In, in_map_iff in Hp as (i & <- & Hi%in_seq).
  apply chunk_pos_range; [done|]. rewrite <- (log_ok_cap d) by done. lia.
Qed.

Lemma tail_map_log h t off n :
  tail_on h t → off + n ≤ tail_cap t →
  map (tail_pos t) (seq off n) = map (chunk_pos (log_chunks h t)) (seq (h_num_blocks h + off) n).
Proof.
  intros Ht Hle. rewrite <- fmap_add_seq.
  change (Nat.add (h_num_blocks h) <$> seq off n) with (map (Nat.add (h_num_blocks h)) (seq off n)).
  rewrite map_map. apply map_ext_in.
  intros i Hi%in_seq. apply tail_pos_log; [done|lia].
Qed.

Lemma tail_read_ok d s h t off n :
  bs_valid d s → log_ok d h t → 0 < n → off + n ≤ t_num_blocks t →
  tail_read d s t off n = Ok (concat (log_slice d s h t (h_num_blocks h + off) n)).
Proof.
  intros Hv Hok Hn Hle. pose proof Hok as (Ht & Hcap & _ & Hr). pose proof Ht as (_ & _ & Hf & _).
  unfold tail_read. rewrite (proj2 (Nat.leb_le _ _)) by done. cbn [assert_]. bind_step.
  rewrite tail_prepare_blocks_ok by (done || lia). bind_step.
  rewrite (tail_map_log h) by (done || lia).
  rewrite read_blocks_ok; [by rewrite map_map|done|].
  apply Forall_forall. intros p Hp. apply list_elem_of_In, in_map_iff in Hp as (i & <- & Hi%in_seq).
  apply chunk_pos_range; [done|]. rewrite <- (log_ok_cap d) by done. lia.
Qed.

(** The handle's view of head [h] and tail [t]. *)
Definition ref_of (r : RawLogRef) (h : RawLogHead) (t : RawLogTail) : Prop :=
  (log_head r = Some h ∨ log_head r = None ∧ h_num_blocks h = 0) ∧
  (log_tail r = Some t ∨ log_tail r = None ∧ t_num_blocks t = 0).

Lemma ref_read_ok d s r h t pos n :
  bs_valid d s → log_ok d h t → ref_of r h t → 0 < n → usize_ok (pos + n) = true →
  ref_read d s r pos n =
    if h_num_blocks h + t_num_blocks t <? pos + n then Err InvalidArgs
    else Ok (concat (take n (drop pos (log_content d s h t)))).
Proof.
  intros Hv Hok (Hhd & Htl) Hn Hus. unfold ref_read.
  assert (head_len r = h_num_blocks h) as -> by (unfold head_len; by destruct Hhd as [->|[-> ->]]).
  assert (tail_len r = t_num_blocks t) as -> by (unfold tail_len; by destruct Htl as [->|[-> ->]]).
  rewrite uadd_ok by done. bind_step.
  destruct (_ <? pos + n) eqn:E; [done|]. bool_simpl. rewrite <- log_slice_content by done.
  assert (Hhead : (match log_head r with
     | Some h0 => if pos <? h_num_blocks h then
         let num_read := Nat.min n (h_num_blocks h - pos) in
         part ← head_read d s h0 pos num_read; Ok (part, pos + num_read, n - num_read)
         else Ok ([], pos, n)
     | None => Ok ([], pos, n) end)
     = Ok (concat (log_slice d s h t pos (Nat.min n (h_num_blocks h - pos))),
           pos + Nat.min n (h_num_blocks h - pos), n - Nat.min n (h_num_blocks h - pos))).
  { assert (Hz : h_num_blocks h ≤ pos → Ok ([], pos, n) =
       Ok (concat (log_slice d s h t pos (Nat.min n (h_num_blocks h - pos))),
           pos + Nat.min n (h_num_blocks h - pos), n - Nat.min n (h_num_blocks h - pos))).
    { intros. replace (Nat.min n (h_num_blocks h - pos)) with 0 by lia. simpl.
      by rewrite Nat.add_0_r, Nat.sub_0_r. }
    destruct Hhd as [->|[-> ?]]; [|apply Hz; lia].
    destruct (pos <? h_num_blocks h) eqn:E1; bool_simpl; [|by apply Hz].
    cbv zeta. rewrite (head_read_ok d s h t) by (done || lia). done. }
  match type of Hhead with _ = ?y =>
    match goal with |- mbind ?f ?z = _ => replace z with y by (symmetry; exact Hhead) end end.
  bind_step. set (k := Nat.min n (h_num_blocks h - pos)) in *.
  destruct (n - k =? 0) eqn:E1; bool_simpl.
  { by replace k with n by lia. }
  destruct Htl as [->|[-> ?]]; [|lia].
  rewrite (proj2 (Nat.leb_le _ _)) by lia. cbv zeta.
  rewrite Nat.min_l by lia.
  rewrite (tail_read_ok d s h t) by (done || lia). bind_step.
  rewrite <- concat_app. do 2 f_equal.
  replace (h_num_blocks h + (pos + k - h_num_blocks h)) with (pos + k) by lia.
  rewrite <- log_slice_app. f_equal. lia.
Qed.

(** Writing at the end of a tail that has room. *)
Lemma tail_append_ok d s h t n buf :
  bs_valid d s → log_ok d h t → is_buf n buf → t_num_blocks t + n ≤ tail_cap t →
  ∃ s', tail_append d s t buf = Ok s' ∧ bs_valid d s' ∧
    log_slice d s' h t 0 (h_num_blocks h + t_num_blocks t) = log_content d s h t ∧
    log_slice d s' h t (h_num_blocks h + t_num_blocks t) n = blocks_from buf 0 n ∧
    ∀ p, p < bs_nblocks d → p / CHUNK_NBLOCKS ∉ log_chunks h t → bs_block d s' p = bs_block d s p.
Proof.
  intros Hv Hok Hbuf Hroom. pose proof Hok as (Ht & Hcap & Hnd & Hr).
  pose proof Ht as (_ & _ & Hf & _). pose proof (log_ok_cap _ _ _ Hok) as Htot.
  unfold tail_append. rewrite (nblocks_of_is_buf n) by done.
  destruct Hbuf as [Hn Hlen]. rewrite tail_prepare_blocks_ok by (done || lia). bind_step.
  rewrite (tail_map_log h) by (done || lia).
  set (base := h_num_blocks h + t_num_blocks t).
  set (ps := map (chunk_pos (log_chunks h t)) (seq base n)).
  destruct (group_consecutive_spec ps) as [Hc Hg].
  assert (Hps : length ps = n) by (unfold ps; by rewrite length_map, length_seq).
  assert (Hlk : ∀ i, i < n → ps !! i = Some (chunk_pos (log_chunks h t) (base + i))).
  { intros i Hi. unfold ps. rewrite list_lookup_fmap, lookup_seq_lt by done. done. }
  assert (Hin : ∀ p, p ∈ ps → ∃ i, i < n ∧ p = chunk_pos (log_chunks h t) (base + i)).
  { intros p Hp. apply list_elem_of_In, in_map_iff in Hp as (j & <- & Hj%in_seq).
    exists (j - base). split; [lia|]. f_equal. lia. }
  destruct (write_groups_ok d buf (group_consecutive ps) s 0) as (s' & Hw & Hv' & Hwr & Hfr);
    rewrite ?Hc; try done.
  - apply Forall_forall. intros p (i & Hi & ->)%Hin. apply chunk_pos_range; [done|lia].
  - apply NoDup_alt. intros i j p Hi Hj. pose proof (lookup_lt_Some _ _ _ Hi).
    pose proof (lookup_lt_Some _ _ _ Hj). rewrite Hlk in Hi, Hj by lia.
    assert (base + i = base + j); [|lia].
    apply (chunk_pos_inj (log_chunks h t)); [done|lia|lia|congruence].
  - rewrite Hps. done.
  - rewrite Hc in Hwr, Hfr. exists s'. split; [done|]. split; [done|]. split_and!.
    + apply map_ext_in. intros i Hi%in_seq. apply Hfr.
      * apply chunk_pos_range; [done|lia].
      * intros (j & Hj & Heq)%Hin. apply chunk_pos_inj in Heq; [lia|done|lia|lia].
    + unfold log_slice, blocks_from. apply list_eq. intros i.
      rewrite !list_lookup_fmap. destruct (decide (i < n)) as [Hi|Hi].
      * rewrite !lookup_seq_lt by done. simpl. f_equal. rewrite (Hwr i) by by apply Hlk. done.
      * rewrite !lookup_seq_ge by lia. done.
    + intros p Hp Hni. apply Hfr; [done|]. intros (i & Hi & ->)%Hin. apply Hni.
      apply chunk_pos_chunk. lia.
Qed.
End disk.

(** ** Appending *)
Lemma calc_needed_chunks_ok t n :
  t_num_blocks t ≤ tail_cap t →
  ∃ k, calc_needed_chunks t n = Ok k ∧ t_num_blocks t + n ≤ tail_cap t + k * CHUNK_NBLOCKS ∧
       (0 < k → tail_cap t + (k - 1) * CHUNK_NBLOCKS < t_num_blocks t + n).
Proof.
  intros Hle. pose proof CHUNK_NBLOCKS_pos. unfold calc_needed_chunks. fold (tail_cap t).
  rewrite usub_ok by done. bind_step. destruct (_ <? n) eqn:E; bool_simpl.
  - set (x := n - (tail_cap t - t_num_blocks t)).
    pose proof (align_up_ge x CHUNK_NBLOCKS ltac:(lia)) as H1.
    pose proof (align_up_lt x CHUNK_NBLOCKS ltac:(lia)) as H2.
    destruct (align_up_divide x CHUNK_NBLOCKS) as [k Hk]. rewrite Hk in *.
    rewrite Nat.div_mul by lia. exists k. split; [done|]. split; [lia|]. intros. nia.
  - exists 0. split; [done|]. split; lia.
Qed.

Lemma u32_add_ok a b : (N.of_nat a + N.of_nat b < 2 ^ 32)%N → u32_add a b = Ok (a + b).
Proof. intros H. unfold u32_add. by rewrite (proj2 (N.ltb_lt _ _)). Qed.

Lemma chunk_pos_app cs new i :
  i < length cs * CHUNK_NBLOCKS → chunk_pos (cs ++ new) i = chunk_pos cs i.
Proof.
  intros Hi. unfold chunk_pos. rewrite app_nth1; [done|].
  pose proof CHUNK_NBLOCKS_pos. apply Nat.Div0.div_lt_upper_bound. lia.
Qed.

Section append.
Context {B : Bittle} {HB : BittleSpec B}.
Context {D St : Type} {HS : BlockSet D St} {HSS : BlockSetSpec D St}.
Implicit Types (d : D) (c : ctx St) (l : RawLog) (h : RawLogHead) (t : RawLogTail).

(** The tail of log [id] in the edit of the current TX. *)
Definition edit_tail c (id : nat) : option RawLogTail :=
  match log_edits (store_edit c) !! id with
  | Some (Create t) | Some (Append t) => Some t | _ => None end.

(** The chunk allocator serves a disk: its state is well formed, its chunks are on
    the disk and the TX's edit mentions no free chunk. *)
Definition chunks_ok d c : Prop :=
  st_wf (chunk_state c) ∧ capacity (chunk_state c) * CHUNK_NBLOCKS ≤ bs_nblocks d ∧
  ∀ i, chunk_used (chunk_state c) i = false → edit_table (chunk_edit c) !! i = None.

Definition chunks_used c (cs : list nat) : Prop :=
  ∀ i, i ∈ cs → chunk_used (chunk_state c) i = true.

(** The chunks of a log waste less than one chunk. *)
Definition tight t : Prop := tail_cap t < t_num_blocks t + CHUNK_NBLOCKS.

Definition grow t (new : list nat) : RawLogTail :=
  mkRawLogTail (head_last_chunk_id t) (head_last_chunk_free_blocks t) (t_chunks t ++ new) (t_num_blocks t).
Definition bump t (n : nat) : RawLogTail :=
  mkRawLogTail (head_last_chunk_id t) (head_last_chunk_free_blocks t) (t_chunks t) (t_num_blocks t + n).

Lemma log_ok_grow d c h t new st' :
  log_ok d h t → chunks_ok d c → chunks_used c (log_chunks h t) →
  taken (chunk_state c) st' new → log_ok d h (grow t new).
Proof.
  intros (Ht & Hcap & Hnd & Hr) (Hw & Hsz & _) Hu (Hnn & Hnew & _).
  split; [done|]. unfold tail_cap, log_chunks in *. simpl. rewrite length_app, app_assoc.
  split; [lia|]. split.
  - apply NoDup_app. split; [done|]. split; [|done]. intros i Hi Hin.
    destruct (Hnew i Hin) as [_ Hf]. by rewrite Hu in Hf.
  - apply Forall_app. split; [done|]. apply Forall_forall. intros i [Hi _]%Hnew. nia.
Qed.

Lemma log_content_grow d s h t new :
  log_ok d h t → log_content d s h (grow t new) = log_content d s h t.
Proof.
  intros Hok. pose proof (log_ok_cap d h t Hok). destruct Hok as (_ & Hcap & _).
  unfold log_content. simpl. apply map_ext_in. intros i Hi%in_seq. f_equal.
  unfold log_chunks in *. simpl. rewrite app_assoc. apply chunk_pos_app. lia.
Qed.

Lemma edit_tail_set c id t t' :
  edit_tail c id = Some t →
  ∃ c', set_tail id t' c = Ok c' ∧ edit_tail c' id = Some t' ∧ disk_store c' = disk_store c ∧
        chunk_state c' = chunk_state c ∧ chunk_edit c' = chunk_edit c ∧ state c' = state c ∧
        ∀ j, j ≠ id → log_edits (store_edit c') !! j = log_edits (store_edit c) !! j.
Proof.
  unfold edit_tail, set_tail. intros Ht.
  destruct (log_edits (store_edit c) !! id) as [[x|x|]|]; simplify_eq; bind_step;
    (eexists; split; [done|]; simpl; rewrite lookup_insert_eq; split_and!; try done;
     intros; by rewrite lookup_insert_ne).
Qed.

(** Making room: the allocation step of [RawLogRef::append]. *)
Lemma append_room d c id h t n :
  log_ok d h t → chunks_ok d c → chunks_used c (log_chunks h t) → edit_tail c id = Some t →
  t_num_blocks t + n ≤ tail_cap t + free_count (chunk_state c) * CHUNK_NBLOCKS →
  ∃ k new c', calc_needed_chunks t n = Ok k ∧
    (if 0 <? k then
       '(o, p) ← alloc_batch k (chunk_state c) (chunk_edit c);
       new_chunks ← ok_or o OutOfMemory;
       let c := with_chunks c p in
       let t := grow t new_chunks in
       c ← set_tail id t c; Ok (t, c)
     else Ok (t, c)) = Ok (grow t new, c') ∧
    log_ok d h (grow t new) ∧ t_num_blocks t + n ≤ tail_cap (grow t new) ∧
    (tight t → tail_cap (grow t new) < t_num_blocks t + n + CHUNK_NBLOCKS) ∧
    chunks_ok d c' ∧ chunks_used c' (log_chunks h (grow t new)) ∧
    (∀ i, i ∈ new → chunk_used (chunk_state c) i = false) ∧
    (∀ i, chunk_used (chunk_state c) i = true → chunk_used (chunk_state c') i = true) ∧
    edit_tail c' id = Some (grow t new) ∧ disk_store c' = disk_store c ∧ state c' = state c.
Proof.
  intros Hok Hch Hu Ht Hroom. pose proof Hok as (_ & Hcap & _). pose proof CHUNK_NBLOCKS_pos.
  destruct (calc_needed_chunks_ok t n Hcap) as (k & Hk & Hfit & Hmin). exists k.
  destruct (0 <? k) eqn:E; bool_simpl.
  - pose proof Hch as (Hw & Hsz & Hfree).
    destruct (alloc_batch_ok k (chunk_state c) (chunk_edit c) Hw) as (ids & st' & e' & Ha & Hlen & _ & Htk & He);
      [nia|done|].
    destruct (edit_tail_set (with_chunks c (st', e')) id t (grow t ids) Ht)
      as (c' & Hset & Ht' & Hd & Hcs & Hce & Hst & _).
    exists ids, c'. split; [done|]. split; [rewrite Ha; cbn; by rewrite Hset|].
    split; [by eapply log_ok_grow|].
    assert (Hcg : tail_cap (grow t ids) = tail_cap t + k * CHUNK_NBLOCKS).
    { unfold tail_cap. simpl. rewrite length_app. lia. }
    rewrite Hcg. split; [lia|]. split; [intros _; specialize (Hmin ltac:(lia)); nia|].
    destruct Htk as (Hnd & Hnew & (Hw' & Hc' & _ & Hmk) & _). cbn in Hcs, Hce, Hd, Hst.
    assert (Hmono : ∀ i, chunk_used (chunk_state c) i = true → chunk_used (chunk_state c') i = true).
    { intros i Hi. by rewrite Hcs, Hmk, Hi. }
    split; [|split; [|split; [|by split]]].
    + split; [by rewrite Hcs|]. split; [by rewrite Hcs, Hc'|]. intros i.
      rewrite Hcs, Hce, Hmk, He. intros [Hf Hni]%orb_false_iff. apply bool_decide_eq_false in Hni.
      rewrite bool_decide_eq_false_2 by done. by apply Hfree.
    + intros i Hi. unfold log_chunks in Hi. simpl in Hi. rewrite app_assoc in Hi.
      apply elem_of_app in Hi as [Hi|Hi]; [by apply Hmono, Hu|].
      rewrite Hcs, Hmk, bool_decide_eq_true_2 by done. apply orb_true_r.
    + intros i Hi. by apply Hnew.
  - assert (k = 0) as -> by lia. exists [], c. split; [done|].
    assert (grow t [] = t) as -> by (unfold grow; destruct t; simpl; by rewrite app_nil_r).
    split_and!; try done; [lia|unfold tight; lia|]. intros i Hi. by apply elem_of_nil in Hi.
Qed.

Lemma append_ok d c l h t n buf :
  can_append l = true → edit_tail c (log_id l) = Some t →
  bs_valid d (disk_store c) → log_ok d h t → chunks_ok d c → chunks_used c (log_chunks h t) →
  is_buf n buf → (N.of_nat (t_num_blocks t) + N.of_nat n < 2 ^ 32)%N →
  t_num_blocks t + n ≤ tail_cap t + free_count (chunk_state c) * CHUNK_NBLOCKS →
  ∃ l' c' t', append d l buf c = Ok (append_pos l, l', c') ∧ append_pos l' = append_pos l + n ∧
    log_entry l' = log_entry l ∧ log_id l' = log_id l ∧ can_append l' = true ∧
    edit_tail c' (log_id l) = Some t' ∧ t_num_blocks t' = t_num_blocks t + n ∧ (tight t → tight t') ∧
    bs_valid d (disk_store c') ∧ log_ok d h t' ∧ chunks_ok d c' ∧ chunks_used c' (log_chunks h t') ∧
    log_content d (disk_store c') h t' = log_content d (disk_store c) h t ++ blocks_from buf 0 n ∧
    ∀ h2 t2, log_ok d h2 t2 → chunks_used c (log_chunks h2 t2) →
      (∀ i, i ∈ log_chunks h2 t2 → i ∉ log_chunks h t) →
      log_content d (disk_store c') h2 t2 = log_content d (disk_store c) h2 t2.
Proof.
  intros Hca Ht Hv Hok Hch Hu Hbuf H32 Hroom. unfold append. rewrite Hca. cbn [negb].
  unfold as_ref. cbn [log_tail].
  fold (edit_tail c (log_id l)). rewrite Ht. cbn [unwrap]. bind_step.
  unfold ref_append. rewrite (nblocks_of_is_buf n) by done.
  destruct (append_room d c (log_id l) h t n Hok Hch Hu Ht Hroom)
    as (k & new & c1 & -> & Hal & Hok1 & Hcap1 & Htight & Hch1 & Hu1 & Hnew & Hmono & Ht1 & Hd1 & Hst1).
  bind_step. unfold grow in Hal. match type of Hal with _ = ?y =>
    match goal with |- context [mbind ?f (if 0 <? k then ?a else ?b)] =>
      replace (if 0 <? k then a else b) with y by (symmetry; exact Hal) end end.
  fold (grow t new). bind_step. rewrite Hd1.
  destruct (tail_append_ok d (disk_store c) h (grow t new) n buf Hv Hok1 Hbuf Hcap1)
    as (s' & -> & Hv' & Hold & Hnewb & Hfr). bind_step. cbn [t_num_blocks grow].
  rewrite as_u32_small, u32_add_ok by lia. bind_step.
  destruct (edit_tail_set (with_disk c1 s') (log_id l) (grow t new) (bump (grow t new) n) Ht1)
    as (c2 & Hset & Ht2 & Hd2 & Hcs2 & Hce2 & Hst2 & _).
  unfold bump in Hset. cbn [t_num_blocks grow head_last_chunk_id head_last_chunk_free_blocks t_chunks] in *.
  rewrite Hset. bind_step. fold (bump (grow t new) n) in *. cbn in Hd2, Hcs2, Hce2.
  eexists _, c2, (bump (grow t new) n). split; [done|]. rewrite Hd2.
  unfold chunks_ok, chunks_used. rewrite Hcs2, Hce2.
  split_and!; try done.
  - destruct Hok1 as (? & ? & ? & ?). by split_and!.
  - apply Hch1.
  - apply Hch1.
  - apply Hch1.
  - unfold log_content, log_slice in *.
    change (t_num_blocks (bump (grow t new) n)) with (t_num_blocks t + n).
    change (log_chunks h (bump (grow t new) n)) with (log_chunks h (grow t new)).
    rewrite Nat.add_assoc, seq_app, map_app. f_equal.
    + etransitivity; [apply Hold|]. by apply log_content_grow.
    + exact Hnewb.
  - intros h2 t2 Hok2 Hu2 Hdis. pose proof (log_ok_cap d h2 t2 Hok2) as Hc2.
    destruct Hok2 as (_ & Hcap2 & _ & Hr2). apply map_ext_in. intros i Hi%in_seq. apply Hfr.
    + apply chunk_pos_range; [done|lia].
    + pose proof (chunk_pos_chunk (log_chunks h2 t2) i ltac:(lia)) as Hin. intros Hin'.
      change (log_chunks h (grow t new)) with (h_chunks h ++ (t_chunks t ++ new)) in Hin'.
      rewrite app_assoc in Hin'. apply elem_of_app in Hin' as [Hin'|Hin']; [by apply (Hdis _ Hin)|].
      apply Hnew in Hin'. by rewrite (Hu2 _ Hin) in Hin'.
Qed.

(** ** Committing *)
Lemma head_append_ok d s h t :
  log_ok d h t → tight t → (N.of_nat (h_num_blocks h) + N.of_nat (t_num_blocks t) < 2 ^ 32)%N →
  ∃ h' t', head_append h t = Ok h' ∧ from_head h' = Ok t' ∧ log_ok d h' t' ∧ tight t' ∧
    h_num_blocks h' = h_num_blocks h + t_num_blocks t ∧ t_num_blocks t' = 0 ∧
    log_chunks h' t' = log_chunks h t ∧ log_content d s h' t' = log_content d s h t.
Proof.
  intros Hok Htight H32. pose proof (log_ok_cap d h t Hok) as Hcap.
  destruct Hok as ((Hh & Hf & Hle & Hlast) & Hn & Hnd & Hr). unfold tight in *.
  unfold head_append. rewrite u32_add_ok by done. bind_step.
  set (h' := mkRawLogHead (h_chunks h ++ t_chunks t) (h_num_blocks h + t_num_blocks t)).
  set (free := length (log_chunks h t) * CHUNK_NBLOCKS - (h_num_blocks h + t_num_blocks t)).
  assert (Hfree : free < CHUNK_NBLOCKS) by (unfold free; lia).
  assert (Hu16 : as_u16 free = free).
  { unfold as_u16. rewrite N.mod_small; [apply Nat2N.id|].
    assert (CHUNK_NBLOCKS = 1024) by (with_strategy transparent [CHUNK_NBLOCKS] reflexivity). lia. }
  exists h', (mkRawLogTail (default 0 (last (log_chunks h t))) free [] 0).
  split; [done|]. split.
  { unfold from_head. cbn [h_chunks h_num_blocks h']. fold (log_chunks h t).
    rewrite usub_ok by lia. bind_step. fold free. by rewrite Hu16. }
  assert (Hchunks : log_chunks h' (mkRawLogTail (default 0 (last (log_chunks h t))) free [] 0)
                    = log_chunks h t) by (unfold log_chunks; simpl; by rewrite app_nil_r).
  split; [|split; [unfold tail_cap; simpl; lia|]].
  - split; [|rewrite Hchunks; simpl; split; [lia|by split]].
    unfold tail_on. simpl. change (h_chunks h ++ t_chunks t) with (log_chunks h t). fold free.
    split; [lia|]. split; [done|]. split; [lia|]. intros Hpos.
    destruct (last (log_chunks h t)) eqn:E; [done|]. apply last_None in E. unfold free in Hpos.
    rewrite E in Hpos. simpl in Hpos. lia.
  - split; [done|]. split; [done|]. split; [done|]. unfold log_content. rewrite Hchunks.
    cbn [h_num_blocks t_num_blocks h']. by rewrite Nat.add_0_r.
Qed.

(** One edit applied to the entry of its log. *)
Definition apply_one (e : RawLogEdit) (o : option RawLogHead) : res (option RawLogHead) :=
  match e, o with
  | Create t, None => h ← head_append RawLogHead_new t; Ok (Some h)
  | Create _, Some _ => Panic
  | Append t, Some h => h ← head_append h t; Ok (Some h)
  | Append _, None => Panic
  | Delete, _ => Ok None
  end.

Lemma store_edit_apply_ok entries : ∀ st,
  NoDup entries.*1 →
  (∀ id e, (id, e) ∈ entries → is_ok (apply_one e (log_table st !! id)) = true) →
  ∃ st', store_edit_apply entries st = Ok st' ∧
    (∀ id, id ∉ entries.*1 → log_table st' !! id = log_table st !! id) ∧
    (∀ id e, (id, e) ∈ entries → apply_one e (log_table st !! id) = Ok (log_table st' !! id)).
Proof.
  induction entries as [|[id e] entries IH]; intros st Hnd Hok.
  { exists st. split; [done|]. split; [done|]. intros id e Hin. by apply elem_of_nil in Hin. }
  cbn [fmap list_fmap fst] in Hnd. apply NoDup_cons in Hnd as [Hni Hnd].
  pose proof (Hok id e ltac:(by left)) as H1.
  assert (Hstep : ∃ st1, (match e with
      | Create tail => st ← state_create_log st id; state_append_log st id tail
      | Append tail => state_append_log st id tail
      | Delete => Ok (state_delete_log st id) end) = Ok st1 ∧
      apply_one e (log_table st !! id) = Ok (log_table st1 !! id) ∧
      ∀ j, j ≠ id → log_table st1 !! j = log_table st !! j).
  { destruct e as [t|t|], (log_table st !! id) as [h|] eqn:E; simpl in *; try done.
    - unfold state_create_log. rewrite E. simpl. unfold state_append_log. simpl.
      rewrite lookup_insert_eq. simpl. destruct (head_append RawLogHead_new t); [|done..]. simpl.
      eexists. split; [done|]. simpl. rewrite lookup_insert_eq. split; [done|].
      intros. by rewrite !lookup_insert_ne.
    - unfold state_append_log. rewrite E. simpl. destruct (head_append h t); [|done..]. simpl.
      eexists. split; [done|]. simpl. rewrite lookup_insert_eq. split; [done|].
      intros. by rewrite lookup_insert_ne.
    - eexists. split; [done|]. simpl. rewrite lookup_delete_eq. split; [done|].
      intros. by rewrite lookup_delete_ne.
    - eexists. split; [done|]. simpl. rewrite lookup_delete_eq. split; [done|].
      intros. by rewrite lookup_delete_ne. }
  destruct Hstep as (st1 & Hs1 & Hap & Hkeep).
  assert (Hne : ∀ j x, (j, x) ∈ entries → j ≠ id).
  { intros j x Hj ->. apply Hni, list_elem_of_fmap. by exists (id, x). }
  destruct (IH st1 Hnd) as (st' & Hst' & Hout & Hin).
  { intros j x Hj. rewrite Hkeep by eauto. apply Hok. by right. }
  exists st'. unfold store_edit_apply in *. cbn [foldM]. rewrite Hs1. split; [done|]. split.
  - intros j Hj. cbn [fmap list_fmap fst] in Hj. apply not_elem_of_cons in Hj as [Hj1 Hj2].
    rewrite Hout by done. by apply Hkeep.
  - intros j x [Heq|Hj]%elem_of_cons.
    + injection Heq as -> ->. by rewrite Hap, Hout.
    + rewrite <- (Hkeep j) by eauto. by apply Hin.
Qed.
End append.

(** ** Lazy deletion *)
Section lazy.
Context {B : Bittle} {HB : BittleSpec B}.

Lemma dealloc_frame i st e st' e' x :
  st_wf st → dealloc i st e = Ok (st', e') → x ≠ i →
  st_wf st' ∧ chunk_used st' x = chunk_used st x ∧ edit_table e' !! x = edit_table e !! x.
Proof.
  intros Hw Hd Hne. unfold dealloc, edit_dealloc in Hd.
  destruct (edit_table e !! i) as [[]|]; simplify_eq/=.
  - destruct (chunk_used st i) eqn:E.
    + destruct (state_dealloc_ok st i Hw E) as (st1 & Hs & (Hw1 & _ & _ & Hmk) & _).
      rewrite Hs in Hd. simplify_eq/=. split; [done|].
      rewrite Hmk, (proj2 (Nat.eqb_neq _ _)) by done. split; [done|]. by rewrite lookup_delete_ne.
    + by rewrite state_dealloc_free in Hd.
  - split; [done|]. split; [done|]. by rewrite lookup_insert_ne.
Qed.

Lemma dealloc_batch_frame ids : ∀ st e st' e' x,
  st_wf st → dealloc_batch ids st e = Ok (st', e') → x ∉ ids →
  chunk_used st' x = chunk_used st x ∧ edit_table e' !! x = edit_table e !! x.
Proof.
  induction ids as [|i ids IH]; intros st e st' e' x Hw Hd Hx; unfold dealloc_batch in Hd; cbn in Hd.
  { by simplify_eq. }
  destruct (dealloc i st e) as [[st1 e1]| |] eqn:E; [|done..].
  apply not_elem_of_cons in Hx as [Hx1 Hx2].
  destruct (dealloc_frame i st e st1 e1 x Hw E Hx1) as (Hw1 & Hu1 & He1).
  destruct (IH st1 e1 st' e' x Hw1 Hd Hx2) as [Hu2 He2]. split; congruence.
Qed.
End lazy.

(** Opening a committed log for appending, for the first time in a TX. *)
Lemma open_append {St} (c : ctx St) id h addr o :
  find_log (persistent (state c)) id = Some h → lazy_deletes (state c) !! id = Some addr →
  lazy_objs (state c) !! addr = Some o → id ∉ write_set (state c) →
  h_num_blocks h ≤ length (h_chunks h) * CHUNK_NBLOCKS →
  log_edits (store_edit c) !! id = None →
  let t := mkRawLogTail (default 0 (last (h_chunks h)))
             (as_u16 (length (h_chunks h) * CHUNK_NBLOCKS - h_num_blocks h)) [] 0 in
  open_log id true c = Ok (mkRawLog id (Some h) (Some addr) (h_num_blocks h) true,
    mkCtx (mkState (persistent (state c)) (next_free_log_id (state c)) ({[id]} ∪ write_set (state c))
             (lazy_deletes (state c))
             (<[addr := mkLazyDelete (lazy_obj o) (is_deleted o) (arc_refs o + 1)]> (lazy_objs (state c))))
      (disk_store c) (chunk_state c) (chunk_edit c)
      (mkRawLogStoreEdit (<[id := Append t]> (log_edits (store_edit c))))).
Proof.
  intros Hf Hl Ho Hws Hle He. unfold open_log. rewrite Hl. cbn [ok_or]. bind_step.
  rewrite Hf. unfold add_to_write_set. rewrite bool_decide_eq_false_2 by done. bind_step.
  unfold edit_open_log. rewrite He. unfold from_head. rewrite usub_ok by done. bind_step.
  unfold arc_clone. cbn. by rewrite Ho.
Qed.

(** ** Claims *)
Section claims.
Context {B : Bittle} {HB : BittleSpec B}.
Context {D St : Type} {HS : BlockSet D St} {HSS : BlockSetSpec D St}.

(** C12: a raw log is an append-only sequence of blocks.  Appending [n] blocks to a log
    opened for writing, with room left in the allocator, succeeds and returns the
    old end; whatever part of the blocks lands in the free space of the head's last
    chunk, in the chunks of the tail or in newly allocated ones, every later read
    through the handle, across any of these boundaries, returns the old blocks
    followed by the new ones (and fails beyond the end); the contents of all other
    logs are unchanged. *)
Theorem rawlog_append_read (d : D) (c : ctx St) (l : RawLog) h t n buf :
  can_append l = true → edit_tail c (log_id l) = Some t →
  (log_entry l = Some h ∨ log_entry l = None ∧ h_num_blocks h = 0) →
  bs_valid d (disk_store c) → log_ok d h t → chunks_ok d c → chunks_used c (log_chunks h t) →
  is_buf n buf → (N.of_nat (t_num_blocks t) + N.of_nat n < 2 ^ 32)%N →
  t_num_blocks t + n ≤ tail_cap t + free_count (chunk_state c) * CHUNK_NBLOCKS →
  ∃ l' c' t', append d l buf c = Ok (append_pos l, l', c') ∧
    let content := log_content d (disk_store c) h t ++ blocks_from buf 0 n in
    nblocks l' c' = length content ∧
    (∀ pos m, 0 < m → usize_ok (pos + m) = true →
       read d l' c' pos m = if length content <? pos + m then Err InvalidArgs
                            else Ok (concat (take m (drop pos content)))) ∧
    edit_tail c' (log_id l') = Some t' ∧ log_ok d h t' ∧ chunks_ok d c' ∧
    chunks_used c' (log_chunks h t') ∧
    ∀ h2 t2, log_ok d h2 t2 → chunks_used c (log_chunks h2 t2) →
      (∀ i, i ∈ log_chunks h2 t2 → i ∉ log_chunks h t) →
      log_content d (disk_store c') h2 t2 = log_content d (disk_store c) h2 t2.
Proof.
  intros Hca Ht Hhd Hv Hok Hch Hu Hbuf H32 Hroom.
  destruct (append_ok d c l h t n buf Hca Ht Hv Hok Hch Hu Hbuf H32 Hroom)
    as (l' & c' & t' & Ha & _ & Hent & Hid & _ & Ht' & Hn' & _ & Hv' & Hok' & Hch' & Hu' & Hcon & Hfr).
  exists l', c', t'. split; [done|]. cbv zeta. rewrite <- Hcon.
  assert (Href : ref_of (as_ref l' c') h t').
  { unfold ref_of, as_ref. cbn [log_head log_tail]. rewrite Hent, Hid. split; [done|]. left.
    unfold edit_tail in Ht'. by destruct (log_edits (store_edit c') !! log_id l) as [[]|]. }
  assert (Hlen : length (log_content d (disk_store c') h t') = h_num_blocks h + t_num_blocks t').
  { unfold log_content. by rewrite length_map, length_seq. }
  rewrite Hlen. split; [|split; [|rewrite Hid; by split_and!]].
  - unfold nblocks, ref_nblocks, head_len, tail_len. destruct Href as [[->|[-> ->]] [->|[-> ->]]]; lia.
  - intros pos m Hm Hus. unfold read. by apply ref_read_ok.
Qed.

(** C13: committing a tail keeps the log.  [RawLogHead::append] makes the blocks written
    by the TX part of the head without moving any: the committed log has exactly the
    content the writing TX saw, and a tail opened on it later ([RawLogTail::from_head],
    whose 16-bit count of free blocks does not overflow) continues in the free blocks
    of its last chunk. *)
Theorem rawlog_commit_content (d : D) (s : St) h t :
  log_ok d h t → tight t → (N.of_nat (h_num_blocks h) + N.of_nat (t_num_blocks t) < 2 ^ 32)%N →
  ∃ h' t', head_append h t = Ok h' ∧ from_head h' = Ok t' ∧ log_ok d h' t' ∧ tight t' ∧
    log_content d s h' t' = log_content d s h t ∧
    ∀ r, log_head r = Some h' → log_tail r = None → bs_valid d s →
      ∀ pos m, 0 < m → usize_ok (pos + m) = true → pos + m ≤ h_num_blocks h + t_num_blocks t →
        ref_read d s r pos m = Ok (concat (take m (drop pos (log_content d s h t)))).
Proof.
  intros Hok Hti H32.
  destruct (head_append_ok d s h t Hok Hti H32) as (h' & t' & Ha & Hf & Hok' & Hti' & Hn & Hn0 & _ & Hc).
  exists h', t'. do 5 (split; [done|]). intros r Hr1 Hr2 Hv pos m Hm Hus Hle.
  rewrite (ref_read_ok d s r h' t'); [|done..| |done|done].
  - rewrite (proj2 (Nat.ltb_ge _ _)) by lia. by rewrite Hc.
  - split; [by left|]. by right.
Qed.

(** applying the edit of a committed TX to the persistent table does not depend on
    the iteration order of the hash map: for any order, every edited log gets the
    result of its own edit (created with its tail, extended by its tail, or
    removed) and no other log changes. *)
Theorem store_edit_apply_any_order (e : RawLogStoreEdit) st entries :
  entries ≡ₚ map_to_list (log_edits e) →
  (∀ id x, log_edits e !! id = Some x → is_ok (apply_one x (log_table st !! id)) = true) →
  ∃ st', store_edit_apply entries st = Ok st' ∧
    ∀ id, match log_edits e !! id with
          | None => log_table st' !! id = log_table st !! id
          | Some x => apply_one x (log_table st !! id) = Ok (log_table st' !! id)
          end.
Proof.
  intros Hp Hok.
  assert (Hin : ∀ id x, (id, x) ∈ entries ↔ log_edits e !! id = Some x).
  { intros id x. by rewrite Hp, elem_of_map_to_list. }
  destruct (store_edit_apply_ok entries st) as (st' & Hst & Hout & Hap).
  - rewrite Hp. apply NoDup_fst_map_to_list.
  - intros id x Hx%Hin. by apply Hok.
  - exists st'. split; [done|]. intros id. destruct (log_edits e !! id) as [x|] eqn:E.
    + by apply Hap, Hin.
    + apply Hout. intros Hk. apply list_elem_of_fmap in Hk as ([j x] & -> & Hj%Hin). simpl in E. congruence.
Qed.

(** the single-writer rule is not kept until the writing TX ends.  Closing an
    appendable handle takes the log out of the write set, so a second TX can open the
    log for appending while the first one is still ongoing with an append edit: both
    then hold the same tail, and their first appended blocks go to the same place on
    the disk. *)
Theorem writer_released_on_close (c : ctx St) id h addr o ce e :
  find_log (persistent (state c)) id = Some h → lazy_deletes (state c) !! id = Some addr →
  lazy_objs (state c) !! addr = Some o → arc_refs o = 1 → id ∉ write_set (state c) →
  h_num_blocks h ≤ length (h_chunks h) * CHUNK_NBLOCKS →
  log_edits (store_edit c) !! id = None → log_edits e !! id = None →
  ∃ l1 c1 c2 l2 c3 t,
    open_log id true c = Ok (l1, c1) ∧ edit_tail c1 id = Some t ∧
    drop_log l1 c1 = Ok c2 ∧ edit_tail c2 id = Some t ∧
    open_log id true (mkCtx (state c2) (disk_store c2) (chunk_state c2) ce e) = Ok (l2, c3) ∧
    edit_tail c3 id = Some t.
Proof.
  intros Hf Hl Ho Hrefs Hws Hle He1 He2.
  pose proof (open_append c id h addr o Hf Hl Ho Hws Hle He1) as Hopen. cbv zeta in Hopen.
  set (t := mkRawLogTail (default 0 (last (h_chunks h))) _ [] 0) in Hopen.
  set (c1 := mkCtx _ _ _ _ _) in Hopen.
  assert (Hdrop : ∃ c2, drop_log (mkRawLog id (Some h) (Some addr) (h_num_blocks h) true) c1 = Ok c2 ∧
            store_edit c2 = store_edit c1 ∧ persistent (state c2) = persistent (state c) ∧
            lazy_deletes (state c2) = lazy_deletes (state c) ∧ id ∉ write_set (state c2) ∧
            ∃ o2, lazy_objs (state c2) !! addr = Some o2).
  { unfold drop_log, arc_drop. cbn. rewrite lookup_insert_eq. cbn. rewrite Hrefs. cbn.
    eexists. split; [done|]. cbn. do 3 (split; [done|]). split; [set_solver|].
    eexists. by rewrite lookup_insert_eq. }
  destruct Hdrop as (c2 & Hd & Hse & Hp2 & Hl2 & Hw2 & o2 & Ho2).
  pose proof (open_append (mkCtx (state c2) (disk_store c2) (chunk_state c2) ce e) id h addr o2) as Hopen2.
  cbn in Hopen2. rewrite Hp2, Hl2 in Hopen2. specialize (Hopen2 Hf Hl Ho2 Hw2 Hle He2).
  assert (Htail : edit_tail c1 id = Some t) by (unfold edit_tail; cbn; by rewrite lookup_insert_eq).
  eexists _, c1, c2, _, _, t. split; [exact Hopen|]. split; [done|]. split; [exact Hd|].
  split; [unfold edit_tail; by rewrite Hse|]. split; [exact Hopen2|].
  unfold edit_tail. cbn. by rewrite lookup_insert_eq.
Qed.

(** chunks appended to a log after the TX that created it are leaked when the log is
    deleted.  The object that frees the chunks on deletion is a snapshot taken when
    the creating TX committed and is not refreshed by later appends: after a commit
    that adds chunks to the log and a commit that deletes it, the log is gone from
    the table but the added chunks are still allocated, and neither commit has put
    them into the chunk edit to be freed. *)
Theorem lazy_delete_leaks (c : ctx St) id h t addr ce x c1 c2 :
  log_table (persistent (state c)) !! id = Some h →
  lazy_deletes (state c) !! id = Some addr →
  lazy_objs (state c) !! addr = Some (mkLazyDelete h false 1) →
  log_edits (store_edit c) = {[id := Append t]} →
  store_commit_handler [(id, Append t)] c = Ok c1 →
  x ∈ t_chunks t → x ∉ h_chunks h → st_wf (chunk_state c1) →
  store_commit_handler [(id, Delete)]
    (mkCtx (state c1) (disk_store c1) (chunk_state c1) ce (mkRawLogStoreEdit {[id := Delete]})) = Ok c2 →
  log_table (persistent (state c2)) !! id = None ∧
  chunk_edit c1 = chunk_edit c ∧ chunk_state c1 = chunk_state c ∧
  chunk_used (chunk_state c2) x = chunk_used (chunk_state c1) x ∧
  edit_table (chunk_edit c2) !! x = edit_table ce !! x.
Proof.
  intros Hh Hl Ho He H1 Hx Hnx Hw H2. unfold store_commit_handler in H1, H2.
  rewrite bool_decide_eq_false_2 in H1 by (rewrite He; apply insert_non_empty).
  cbn in H1. unfold state_append_log in H1. rewrite Hh in H1. cbn in H1.
  destruct (head_append h t) as [h'| |]; [|done..]. cbn in H1. simplify_eq. cbn in H2, Hw.
  unfold add_lazy_deletes_for_created_logs in H2. cbn in H2.
  rewrite bool_decide_eq_false_2 in H2 by apply insert_non_empty. cbn in H2.
  rewrite Hl in H2. cbn in H2. rewrite Ho in H2. cbn in H2. unfold arc_drop in H2. cbn in H2.
  rewrite lookup_insert_eq in H2. cbn in H2.
  destruct (dealloc_batch (h_chunks h) (chunk_state c) ce) as [[cs ce']| |] eqn:Ed; [|done..].
  cbn in H2. simplify_eq. cbn. rewrite lookup_delete_eq.
  destruct (dealloc_batch_frame _ _ _ _ _ x Hw Ed Hnx). by split_and!.
Qed.
End claims.

(** *** Witnesses, on a disk that is a function from block numbers to blocks *)
#[local] Existing Instance BittleZ.
#[local] Existing Instance BittleZ_spec.

#[local] Instance FunDisk : BlockSet nat (nat → list byte) := {|
  bs_read d s pos n := if pos + n <=? d then Ok (concat (map s (seq pos n))) else Err InvalidArgs;
  bs_write d s pos buf :=
    if pos + nblocks_of buf <=? d
    then Ok (λ i, if (pos <=? i) && (i <? pos + nblocks_of buf) then nth_block buf (i - pos) else s i)
    else Err InvalidArgs;
  bs_subset d a b := Ok (b - a);
  bs_flush d s := Ok s;
  bs_nblocks d := d;
|}.

#[local] Instance FunDisk_spec : BlockSetSpec nat (nat → list byte).
Proof.
  refine {| bs_valid := λ d s, ∀ i, i < d → length (s i) = BLOCK_SIZE;
            bs_block := λ _ s i, s i; bs_disjoint := λ _ _, False |}; simpl.
  - intros d s i Hv Hi. by apply Hv.
  - intros d s pos n _ _ Hle. by rewrite (proj2 (Nat.leb_le _ _)).
  - intros d s pos n buf Hv Hbuf Hle. rewrite (nblocks_of_is_buf n) by done.
    rewrite (proj2 (Nat.leb_le _ _)) by done. eexists. split; [done|]. split; [|done].
    intros i Hi. destruct ((pos <=? i) && (i <? pos + n)) eqn:E; [|by apply Hv]. bool_simpl.
    destruct Hbuf as [_ Hlen]. apply (nth_block_length n); [done|lia].
  - done.
  - done.
Defined.

Definition demo_log_ctx : ctx (nat → list byte) :=
  mkCtx (mkState (mkRawLogStoreState ∅) 0 ∅ ∅ ∅) (λ _, replicate BLOCK_SIZE 0%Z)
    (ChunkAllocState_new 4) ChunkAllocEdit_new
    (mkRawLogStoreEdit {[0 := Create RawLogTail_new]}).
Definition demo_log : RawLog := mkRawLog 0 None None 0 true.

Lemma demo_disk_valid : bs_valid (4 * CHUNK_NBLOCKS) (disk_store demo_log_ctx).
Proof. intros i _. apply length_replicate. Qed.

Lemma demo_log_ok : log_ok (4 * CHUNK_NBLOCKS) RawLogHead_new RawLogTail_new.
Proof.
  unfold log_ok, tail_on, log_chunks, tail_cap. simpl.
  split_and!; try lia; constructor.
Qed.

Lemma rawlog_append_read_witness :
  ∃ l' c', append (4 * CHUNK_NBLOCKS) demo_log (replicate BLOCK_SIZE 7%Z) demo_log_ctx = Ok (0, l', c') ∧
           nblocks l' c' = 1.
Proof.
  pose proof CHUNK_NBLOCKS_pos. pose proof BLOCK_SIZE_pos.
  destruct (rawlog_append_read (4 * CHUNK_NBLOCKS) demo_log_ctx demo_log RawLogHead_new RawLogTail_new 1
    (replicate BLOCK_SIZE 7%Z)) as (l' & c' & t' & Ha & Hn & _).
  - done.
  - done.
  - by right.
  - apply demo_disk_valid.
  - apply demo_log_ok.
  - split; [apply state_new_wf|]. split; [simpl; lia|]. intros i _. apply lookup_empty.
  - intros i Hi. by apply elem_of_nil in Hi.
  - split; [lia|]. rewrite length_replicate. lia.
  - done.
  - unfold tail_cap. simpl. lia.
  - exists l', c'. split; [exact Ha|]. rewrite Hn, length_app. unfold blocks_from. simpl. done.
Defined.

Lemma rawlog_commit_content_witness :
  ∃ h', head_append (mkRawLogHead [2] 3) (mkRawLogTail 2 (CHUNK_NBLOCKS - 3) [] 5) = Ok h' ∧
        h_num_blocks h' = 8.
Proof.
  assert (CHUNK_NBLOCKS = 1024) as Hc by (with_strategy transparent [CHUNK_NBLOCKS] reflexivity).
  destruct (rawlog_commit_content (4 * CHUNK_NBLOCKS) (λ _, replicate BLOCK_SIZE 0%Z)
    (mkRawLogHead [2] 3) (mkRawLogTail 2 (CHUNK_NBLOCKS - 3) [] 5)) as (h' & t' & Ha & _).
  - unfold log_ok, tail_on, log_chunks, tail_cap. simpl.
    split_and!; try lia; try done.
    + apply NoDup_singleton.
    + constructor; [lia|constructor].
  - unfold tight, tail_cap. simpl. lia.
  - done.
  - exists h'. split; [done|]. cbn in Ha. by injection Ha as <-.
Defined.

Lemma store_edit_apply_any_order_witness :
  ∃ st', store_edit_apply [(3, Delete); (1, Create RawLogTail_new)]
           (mkRawLogStoreState {[3 := RawLogHead_new]}) = Ok st' ∧ log_table st' !! 3 = None.
Proof.
  destruct (store_edit_apply_any_order
    (mkRawLogStoreEdit (<[1 := Create RawLogTail_new]> {[3 := Delete]}))
    (mkRawLogStoreState {[3 := RawLogHead_new]}) [(3, Delete); (1, Create RawLogTail_new)])
    as (st' & Hst & Hlk).
  - vm_compute. reflexivity.
  - intros id x H. simpl in H. apply lookup_insert_Some in H as [[<- <-]|[Hne H]]; [done|].
    by apply lookup_singleton_Some in H as [<- <-].
  - exists st'. split; [done|]. specialize (Hlk 3). simpl in Hlk. by injection Hlk as <-.
Defined.

(** A committed log of three blocks in chunk 2, with its lazy-delete object. *)
Definition demo_committed : ctx (nat → list byte) :=
  mkCtx (mkState (mkRawLogStoreState {[5 := mkRawLogHead [2] 3]}) 6 ∅ {[5 := 0]}
           {[0 := mkLazyDelete (mkRawLogHead [2] 3) false 1]})
    (λ _, replicate BLOCK_SIZE 0%Z)
    (match alloc_batch 4 (ChunkAllocState_new 4) ChunkAllocEdit_new with
     | Ok (_, p) => p.1 | _ => ChunkAllocState_new 4 end)
    ChunkAllocEdit_new RawLogStoreEdit_new.

Lemma writer_released_on_close_witness :
  ∃ l1 c1 t, open_log 5 true demo_committed = Ok (l1, c1) ∧ edit_tail c1 5 = Some t.
Proof.
  pose proof CHUNK_NBLOCKS_pos.
  destruct (writer_released_on_close demo_committed 5 (mkRawLogHead [2] 3) 0
    (mkLazyDelete (mkRawLogHead [2] 3) false 1) ChunkAllocEdit_new RawLogStoreEdit_new)
    as (l1 & c1 & c2 & l2 & c3 & t & H1 & H2 & _); try done.
  - assert (CHUNK_NBLOCKS = 1024) by (with_strategy transparent [CHUNK_NBLOCKS] reflexivity).
    simpl. lia.
  - by exists l1, c1, t.
Defined.

Lemma lazy_delete_leaks_witness :
  ∃ c1 c2 : ctx (nat → list byte), edit_table (chunk_edit c2) !! 3 = None ∧ chunk_used (chunk_state c2) 3 = true ∧
           chunk_edit c1 = ChunkAllocEdit_new.
Proof.
  set (t := mkRawLogTail 2 1021 [3] 1030).
  set (c := mkCtx (state demo_committed) (disk_store demo_committed) (chunk_state demo_committed)
              ChunkAllocEdit_new (mkRawLogStoreEdit {[5 := Append t]})).
  assert (Hw : st_wf (chunk_state c)).
  { destruct (alloc_batch_ok 4 (ChunkAllocState_new 4) ChunkAllocEdit_new) as (ids & st' & e' & Ha & _ & _ & Htk & _).
    - apply state_new_wf.
    - done.
    - intros i _. apply lookup_empty.
    - unfold c. cbn [chunk_state demo_committed]. rewrite Ha. apply Htk. }
  destruct (store_commit_handler [(5, Append t)] c) as [c1| |] eqn:E1; [|vm_compute in E1; done..].
  assert (chunk_state c1 = chunk_state c) as Hcs by (vm_compute in E1; by injection E1 as <-).
  destruct (store_commit_handler [(5, Delete)]
    (mkCtx (state c1) (disk_store c1) (chunk_state c1) ChunkAllocEdit_new
       (mkRawLogStoreEdit {[5 := Delete]}))) as [c2| |] eqn:E2;
    [|vm_compute in E1; injection E1 as <-; vm_compute in E2; done..].
  destruct (lazy_delete_leaks c 5 (mkRawLogHead [2] 3) t 0 ChunkAllocEdit_new 3 c1 c2)
    as (_ & Hce & _ & Hu & He); try done.
  - by apply list_elem_of_singleton.
  - intros Hin%list_elem_of_singleton. done.
  - by rewrite Hcs.
  - exists c1, c2. split; [by rewrite He|]. split; [|done]. rewrite Hu, Hcs. vm_compute. reflexivity.
Defined.
