(* ===== verification/RangeQuery.v ===== *)
(** * RangeQuery: [core/src/layers/4-lsm/range_query_ctx.rs]

    The context a range query is threaded through: a bitmap of answered slots, the
    least unanswered slot and the answers.  Keys are [usize]-like numbers (the
    trait [RecordKey] asks for [Add<usize>] and [Sub<K, Output = usize>]); a
    subtraction that underflows panics. *)
From S2P Require Import Prelude BitMap.

Section ctx.
Context {B : Bittle} {V : Type}.

Record RangeQueryCtx := mkRangeQueryCtx {
  start : nat;
  num_values : nat;
  complete_table : BitMap;
  min_uncompleted : nat;
  results : list (nat * V);
}.

(** [RangeQueryCtx::new]. *)
Definition RangeQueryCtx_new (start num_values : nat) : RangeQueryCtx :=
  mkRangeQueryCtx start num_values (repeat false num_values) 0 [].

Definition is_completed (c : RangeQueryCtx) : bool := min_uncompleted c =? num_values c.

(** The inclusive range of keys still to be answered. *)
Definition range_uncompleted (c : RangeQueryCtx) : res (option (nat * nat)) :=
  if is_completed c then Ok None else
  _ ← assert_ (min_uncompleted c <? num_values c);
  let first_uncompleted := start c + min_uncompleted c in
  last ← last_zero (complete_table c);
  match last with
  | None => Ok None
  | Some last => Ok (Some (first_uncompleted, start c + last))
  end.

Definition contains_uncompleted (c : RangeQueryCtx) (key : nat) : res bool :=
  nth ← usub key (start c);
  if nth <? num_values c then b ← test_bit (complete_table c) nth; Ok (negb b) else Ok false.

Definition update_min_uncompleted (c : RangeQueryCtx) (completed_nth : nat) : res RangeQueryCtx :=
  if min_uncompleted c =? completed_nth then
    next ← first_zero (complete_table c) completed_nth;
    Ok (mkRangeQueryCtx (start c) (num_values c) (complete_table c)
          (match next with Some next_uncompleted => next_uncompleted | None => num_values c end)
          (results c))
  else Ok c.

Definition complete (c : RangeQueryCtx) (key : nat) (value : V) : res RangeQueryCtx :=
  nth ← usub key (start c);
  b ← test_bit (complete_table c) nth;
  if (b : bool) then Ok c else
  table ← BitMap.set (complete_table c) nth true;
  update_min_uncompleted
    (mkRangeQueryCtx (start c) (num_values c) table (min_uncompleted c)
       (results c ++ [(key, value)])) nth.

Definition mark_completed (c : RangeQueryCtx) (key : nat) : res RangeQueryCtx :=
  nth ← usub key (start c);
  table ← BitMap.set (complete_table c) nth true;
  update_min_uncompleted
    (mkRangeQueryCtx (start c) (num_values c) table (min_uncompleted c) (results c)) nth.

Definition into_results (c : RangeQueryCtx) : res (list (nat * V)) :=
  _ ← assert_ (is_completed c); Ok (results c).
End ctx.
Arguments RangeQueryCtx : clear implicits.

Section ctx_spec.
Context {B : Bittle} {HB : BittleSpec B} {V : Type}.
Implicit Types c : RangeQueryCtx V.

(** Slot [i] is answered (or marked). *)
Definition slot_done c (i : nat) : bool := bget (complete_table c) i.

(** [min_uncompleted] is the least unanswered slot, and only answered slots of the
    range have results, one each. *)
Definition ctx_wf c : Prop :=
  wf (complete_table c) ∧ nbits (complete_table c) = num_values c ∧
  min_uncompleted c ≤ num_values c ∧
  (min_uncompleted c < num_values c → slot_done c (min_uncompleted c) = false) ∧
  (∀ j, j < min_uncompleted c → slot_done c j = true) ∧
  NoDup (results c).*1 ∧
  (∀ k v, (k, v) ∈ results c →
     start c ≤ k < start c + num_values c ∧ slot_done c (k - start c) = true).

Lemma RangeQueryCtx_new_wf s n :
  ctx_wf (RangeQueryCtx_new (V := V) s n) ∧
  ∀ i, slot_done (RangeQueryCtx_new (V := V) s n) i = false.
Proof.
  unfold slot_done, ctx_wf. simpl. split; [|intros; apply repeat_bit].
  split_and!; try done.
  - apply repeat_wf.
  - apply repeat_nbits.
  - lia.
  - intros. apply repeat_bit.
  - intros. lia.
  - constructor.
  - intros k v Hin. by apply elem_of_nil in Hin.
Qed.

Lemma is_completed_iff c :
  ctx_wf c → is_completed c = true ↔ ∀ j, j < num_values c → slot_done c j = true.
Proof.
  intros (_ & _ & Hle & Hmin & Hlow & _). unfold is_completed. rewrite Nat.eqb_eq. split.
  - intros Heq j Hj. apply Hlow. lia.
  - intros Hall. destruct (decide (min_uncompleted c = num_values c)) as [|Hne]; [done|].
    rewrite (Hall (min_uncompleted c)) in Hmin by lia. by specialize (Hmin ltac:(lia)).
Qed.

(** Marking slot [nth], the part common to [complete] and [mark_completed]. *)
Lemma mark_ok c nth new :
  ctx_wf c → nth < num_values c →
  (new = [] ∨ ∃ v, new = [(start c + nth, v)] ∧ slot_done c nth = false) →
  ∃ c', (table ← BitMap.set (complete_table c) nth true;
         update_min_uncompleted
           (mkRangeQueryCtx (start c) (num_values c) table (min_uncompleted c)
              (results c ++ new)) nth) = Ok c' ∧
        ctx_wf c' ∧ start c' = start c ∧ num_values c' = num_values c ∧
        results c' = results c ++ new ∧
        ∀ j, slot_done c' j = if j =? nth then true else slot_done c j.
Proof.
  intros (Hwf & Hn & Hle & Hmin & Hlow & Hnd & Hres) Hnth Hnew.
  destruct (set_ok (complete_table c) nth true Hwf ltac:(lia)) as (bm & -> & Hwf' & Hn' & Hb).
  bind_step. unfold update_min_uncompleted. cbn [min_uncompleted complete_table].
  set (c1 m := mkRangeQueryCtx (start c) (num_values c) bm m (results c ++ new)).
  assert (Hkeep : ∀ m, m ≤ num_values c → (m < num_values c → bget bm m = false) →
            (∀ j, j < m → bget bm j = true) → ctx_wf (c1 m)).
  { intros m Hm1 Hm2 Hm3. subst c1. unfold ctx_wf, slot_done. simpl.
    do 2 (split; [congruence|]). do 3 (split; [done|]). split.
    - rewrite fmap_app. apply NoDup_app. split; [done|].
      destruct Hnew as [->|(v & -> & Hf)]; simpl.
      + split; [intros x _ Hx; by apply elem_of_nil in Hx|constructor].
      + split; [|apply NoDup_singleton]. intros k Hk ->%list_elem_of_singleton.
        apply list_elem_of_fmap in Hk as ([k' v'] & Heq & Hin). simpl in Heq. subst k'.
        apply Hres in Hin as [_ Hin]. rewrite Nat.add_comm, Nat.add_sub in Hin. congruence.
    - intros k v [Hin|Hin]%elem_of_app.
      + apply Hres in Hin as [? Hd]. split; [done|]. rewrite Hb. by case_match.
      + destruct Hnew as [->|(v' & -> & Hf)]; [by apply elem_of_nil in Hin|].
        apply list_elem_of_singleton in Hin. simplify_eq. split; [lia|].
        rewrite Hb. replace (start c + nth - start c) with nth by lia. by rewrite Nat.eqb_refl. }
  destruct (min_uncompleted c =? nth) eqn:E; bool_simpl.
  - rewrite first_zero_ok by (done || lia). bind_step.
    eexists. split; [done|]. split; [|by repeat split].
    pose proof (head_filter_seq_spec (λ i, negb (bget bm i)) nth (nbits bm - nth)) as Hsp.
    unfold zeros_from. destruct (head _) as [i|].
    + destruct Hsp as (Hi & Hi0 & Hbelow). apply negb_true_iff in Hi0.
      apply (Hkeep i); [lia|done|]. intros j Hj. rewrite Hb. destruct (j =? nth) eqn:Ej; [done|].
      bool_simpl. destruct (decide (j < nth)); [apply Hlow; lia|].
      specialize (Hbelow j ltac:(lia)). apply negb_false_iff in Hbelow.
      rewrite Hb in Hbelow. by rewrite (proj2 (Nat.eqb_neq _ _)) in Hbelow.
    + apply (Hkeep (num_values c)); [lia|lia|]. intros j Hj. destruct (decide (j < nth)).
      * rewrite Hb, (proj2 (Nat.eqb_neq _ _)) by lia. apply Hlow. lia.
      * apply negb_false_iff, Hsp. lia.
  - eexists. split; [done|]. split; [|by repeat split].
    apply (Hkeep (min_uncompleted c)); [done| |].
    + intros. rewrite Hb, (proj2 (Nat.eqb_neq _ _)) by done. by apply Hmin.
    + intros j Hj. rewrite Hb. case_match; [done|]. by apply Hlow.
Qed.

Lemma complete_ok c key v :
  ctx_wf c → start c ≤ key < start c + num_values c →
  ∃ c', complete c key v = Ok c' ∧ ctx_wf c' ∧ start c' = start c ∧
        num_values c' = num_values c ∧
        results c' = results c ++ (if slot_done c (key - start c) then [] else [(key, v)]) ∧
        ∀ j, slot_done c' j = if j =? key - start c then true else slot_done c j.
Proof.
  intros Hwf Hk. pose proof Hwf as (_ & Hn & _). unfold complete. rewrite usub_ok by lia. bind_step.
  rewrite test_bit_ok by lia. bind_step. fold (slot_done c (key - start c)).
  destruct (slot_done c (key - start c)) eqn:Ed.
  - exists c. rewrite app_nil_r. split_and!; try done; try apply Hwf.
    intros j. destruct (j =? _) eqn:E; bool_simpl; by subst.
  - apply (mark_ok c (key - start c) [(key, v)] Hwf); [lia|]. right.
    exists v. split; [|done]. do 2 f_equal. lia.
Qed.

Lemma mark_completed_ok c key :
  ctx_wf c → start c ≤ key < start c + num_values c →
  ∃ c', mark_completed c key = Ok c' ∧ ctx_wf c' ∧ start c' = start c ∧
        num_values c' = num_values c ∧ results c' = results c ∧
        ∀ j, slot_done c' j = if j =? key - start c then true else slot_done c j.
Proof.
  intros Hwf Hk. unfold mark_completed. rewrite usub_ok by lia. bind_step.
  destruct (mark_ok c (key - start c) [] Hwf) as (c' & Hc & Hr); [lia|by left|].
  rewrite app_nil_r in Hc, Hr. by exists c'.
Qed.

(** The uncompleted range is the tightest one around the unanswered slots. *)
Lemma range_uncompleted_ok c :
  ctx_wf c →
  if is_completed c then range_uncompleted c = Ok None else
  ∃ a b, range_uncompleted c = Ok (Some (start c + a, start c + b)) ∧ a ≤ b < num_values c ∧
         slot_done c a = false ∧ slot_done c b = false ∧
         ∀ j, j < num_values c → slot_done c j = false → a ≤ j ≤ b.
Proof.
  intros Hc. pose proof Hc as (Hwf & Hn & Hle & Hmin & Hlow & _).
  unfold range_uncompleted. destruct (is_completed c) eqn:Ec; [done|].
  unfold is_completed in Ec. bool_simpl.
  rewrite (proj2 (Nat.ltb_lt _ _)) by lia. cbn [assert_]. bind_step.
  rewrite last_zero_ok by done. bind_step.
  assert (Hz : min_uncompleted c ∈ zeros_from (complete_table c) 0).
  { apply elem_of_zeros. split; [lia|]. apply Hmin. lia. }
  destruct (rev (zeros_from (complete_table c) 0)) as [|b l] eqn:Er.
  { apply (f_equal (@rev nat)) in Er. rewrite rev_involutive in Er. rewrite Er in Hz.
    by apply elem_of_nil in Hz. }
  exists (min_uncompleted c), b. simpl. split; [done|].
  assert (Hb : b ∈ zeros_from (complete_table c) 0).
  { apply list_elem_of_In. rewrite in_rev, Er. by left. }
  assert (Hmax : ∀ j, j ∈ zeros_from (complete_table c) 0 → j ≤ b).
  { intros j Hj. assert (Hs : StronglySorted lt (zeros_from (complete_table c) 0)).
    { apply StronglySorted_lfilter, StronglySorted_seq. }
    apply (f_equal (@rev nat)) in Er. rewrite rev_involutive in Er. simpl in Er.
    rewrite Er in Hs, Hj. apply elem_of_app in Hj as [Hj|Hj]; [|by apply list_elem_of_singleton in Hj as ->].
    apply StronglySorted_app_1_elem_of with (x1 := j) (x2 := b) in Hs; [lia|done|].
    by apply list_elem_of_singleton. }
  apply elem_of_zeros in Hb as [Hb1 Hb2]. split; [split; [by apply Hmax|lia]|].
  split; [apply Hmin; lia|]. split; [done|]. intros j Hj Hd. split.
  - destruct (decide (j < min_uncompleted c)); [|lia]. rewrite Hlow in Hd by done. done.
  - apply Hmax, elem_of_zeros. split; [lia|done].
Qed.
End ctx_spec.
