(* ===== verification/MemTable.v ===== *)
(** * MemTable: [core/src/layers/4-lsm/mem_table.rs]

    The in-memory tables of the LSM tree.  A record is unsynced until the next
    sync; one synced and one unsynced value may coexist for a key.  The table is a
    [BTreeMap]; the callback on dropped records is modelled by the list of records
    it is called with.  [latest] and [synced] are the two abstract maps a table
    stands for, and the claims relate every operation to them. *)
From S2P Require Import Prelude BitMap RangeQuery.

Inductive ValueEx (V : Type) :=
  | Synced (v : V)
  | Unsynced (v : V)
  | SyncedAndUnsynced (sv usv : V).
Arguments Synced {V}.
Arguments Unsynced {V}.
Arguments SyncedAndUnsynced {V}.

#[global] Instance ValueEx_eq_dec {V} `{EqDecision V} : EqDecision (ValueEx V).
Proof. solve_decision. Defined.

Section value_ex.
Context {V : Type}.

Definition ValueEx_new (value : V) : ValueEx V := Unsynced value.

Definition ValueEx_get (v : ValueEx V) : V :=
  match v with Synced v => v | Unsynced v => v | SyncedAndUnsynced _ v => v end.

(** [ValueEx::put]: the new state and the replaced value. *)
Definition ValueEx_put (existed : ValueEx V) (value : V) : ValueEx V * option V :=
  match existed with
  | Synced v => (SyncedAndUnsynced v value, None)
  | Unsynced v => (Unsynced value, Some v)
  | SyncedAndUnsynced sv usv => (SyncedAndUnsynced sv value, Some usv)
  end.

Definition contains_unsynced (v : ValueEx V) : bool :=
  match v with Unsynced _ | SyncedAndUnsynced _ _ => true | Synced _ => false end.

(** [ValueEx::sync]. *)
Definition ValueEx_sync (existed : ValueEx V) : res (ValueEx V * option V) :=
  _ ← assert_ (contains_unsynced existed);
  match existed with
  | Unsynced v => Ok (Synced v, None)
  | SyncedAndUnsynced sv usv => Ok (Synced usv, Some sv)
  | Synced _ => Panic
  end.
End value_ex.

Section memtable.
Context {B : Bittle} {V : Type}.

Record MemTable := mkMemTable {
  table : gmap nat (ValueEx V);
  size : nat;
  cap : nat;
  sync_id : nat;
  unsynced_range : option (nat * nat);   (* Range<K>: start, exclusive end *)
}.

Definition MemTable_new (cap sync_id : nat) : MemTable := mkMemTable ∅ 0 cap sync_id None.

Definition get (t : MemTable) (key : nat) : option V := ValueEx_get <$> table t !! key.

(** [MemTable::get_range]: the context, and whether it is completed. *)
Definition get_range (t : MemTable) (c : RangeQueryCtx V) : res (RangeQueryCtx V * bool) :=
  _ ← assert_ (negb (is_completed c));
  o ← range_uncompleted c;
  '(first, last) ← unwrap o;
  c ← foldM (λ c '(k, v_ex), complete c k (ValueEx_get v_ex)) c
        (bt_range (table t) (λ k, (first <=? k) && (k <=? last)));
  Ok (c, is_completed c).

(** [MemTable::put]: the dropped value, which the callback also receives. *)
Definition put (t : MemTable) (key : nat) (value : V) : option V * MemTable :=
  let '(tbl, dropped, size') :=
    match table t !! key with
    | Some value_ex =>
        let '(v', dropped) := ValueEx_put value_ex value in
        (<[key := v']> (table t), dropped,
         match dropped with Some _ => size t | None => size t + 1 end)
    | None => (<[key := ValueEx_new value]> (table t), None, size t + 1)
    end in
  let range := match unsynced_range t with
               | None => None
               | Some (s, e) =>
                   if e <=? s then Some (key, key + 1)
                   else Some (Nat.min key s, Nat.max (key + 1) e)
               end in
  (dropped, mkMemTable tbl size' (cap t) (sync_id t) range).

(** The loop of [MemTable::sync] over the unsynced entries; the callback is called
    on the dropped records in this order. *)
Definition sync_loop (st : gmap nat (ValueEx V) * nat * list (nat * V)) (kv : nat * ValueEx V)
    : res (gmap nat (ValueEx V) * nat * list (nat * V)) :=
  let '(tbl, size, drops) := st in
  let '(k, v_ex) := kv in
  '(v', dropped) ← ValueEx_sync v_ex;
  match dropped with
  | Some d => size ← usub size 1; Ok (<[k := v']> tbl, size, drops ++ [(k, d)])
  | None => Ok (<[k := v']> tbl, size, drops)
  end.

(** [MemTable::sync]; [uninit] is [K::new_uninit()]. *)
Definition sync (uninit : nat) (t : MemTable) (new_id : nat) : res (list (nat * V) * MemTable) :=
  _ ← assert_ (sync_id t <=? new_id);
  if sync_id t =? new_id then Ok ([], t) else
  filter_unsynced ←
    (match unsynced_range t with
     | Some (s, e) =>
         _ ← assert_ (s <=? e); (* [range_mut] panics on an inverted range *)
         Ok (List.filter (λ kv, contains_unsynced kv.2)
               (bt_range (table t) (λ k, (s <=? k) && (k <? e))))
     | None => Ok (List.filter (λ kv, contains_unsynced kv.2) (bt_iter (table t)))
     end);
  '(tbl, size', drops) ← foldM sync_loop (table t, size t, []) filter_unsynced;
  let range := match unsynced_range t with Some r => Some r | None => Some (uninit, uninit) end in
  Ok (drops, mkMemTable tbl size' (cap t) new_id range).

Definition is_empty (t : MemTable) : bool := size t =? 0.
Definition at_capacity (t : MemTable) : bool := cap t <=? size t.
Definition clear (t : MemTable) : MemTable := mkMemTable ∅ 0 (cap t) (sync_id t) None.

(** ** The manager of the mutable and the immutable table *)
Record MemTableManager := mkMemTableManager {
  mutable : MemTable;
  immutable : MemTable;
  is_full : bool;
}.

Definition MemTableManager_new (sync_id capacity : nat) : MemTableManager :=
  mkMemTableManager (MemTable_new capacity sync_id) (MemTable_new capacity sync_id) false.

Definition mgr_get (m : MemTableManager) (key : nat) : option V :=
  match get (mutable m) key with Some v => Some v | None => get (immutable m) key end.

Definition mgr_get_range (m : MemTableManager) (c : RangeQueryCtx V) : res (RangeQueryCtx V * bool) :=
  '(c, is_completed) ← get_range (mutable m) c;
  if (is_completed : bool) then Ok (c, is_completed) else get_range (immutable m) c.

(** [MemTableManager::put]: [None] while the caller has to wait for a switch. *)
Definition mgr_put (m : MemTableManager) (key : nat) (value : V)
    : option (bool * option V * MemTableManager) :=
  if is_full m then None else
  let '(dropped, t) := put (mutable m) key value in
  let full := at_capacity t in
  Some (full, dropped, mkMemTableManager t (immutable m) full).

Definition mgr_sync (uninit : nat) (m : MemTableManager) (new_id : nat)
    : res (list (nat * V) * MemTableManager) :=
  '(drops, t) ← sync uninit (mutable m) new_id;
  Ok (drops, mkMemTableManager t (immutable m) (is_full m)).

Definition switch (uninit : nat) (m : MemTableManager) : res MemTableManager :=
  _ ← assert_ (is_full m);
  let id := sync_id (mutable m) in
  let new_mutable := clear (immutable m) in
  let new_immutable := mutable m in
  _ ← assert_ (is_empty new_mutable && at_capacity new_immutable);
  '(_, new_mutable) ← sync uninit new_mutable id;
  Ok (mkMemTableManager new_mutable new_immutable false).
End memtable.
Arguments MemTable : clear implicits.
Arguments MemTableManager : clear implicits.

(** ** Abstract maps and the invariant *)
Section spec.
Context {B : Bittle} {HB : BittleSpec B} {V : Type}.
Implicit Types (t : MemTable V) (m : gmap nat (ValueEx V)).

Definition ValueEx_synced (v : ValueEx V) : option V :=
  match v with Synced v => Some v | Unsynced _ => None | SyncedAndUnsynced sv _ => Some sv end.

(** The value of a key, and its value as of the last sync. *)
Definition latest t (k : nat) : option V := ValueEx_get <$> table t !! k.
Definition synced t (k : nat) : option V := v ← table t !! k; ValueEx_synced v.

(** Records held by an entry and by a table. *)
Definition weight (v : ValueEx V) : nat :=
  match v with SyncedAndUnsynced _ _ => 2 | _ => 1 end.
Definition total m : nat := map_fold (λ _ v acc, weight v + acc) 0 m.

Definition in_range (r : option (nat * nat)) (k : nat) : Prop :=
  match r with None => True | Some (s, e) => s ≤ k < e end.

(** [size] counts the records; the unsynced keys are inside [unsynced_range]. *)
Definition mt_wf t : Prop :=
  size t = total (table t) ∧
  (∀ k v, table t !! k = Some v → contains_unsynced v = true → in_range (unsynced_range t) k) ∧
  match unsynced_range t with Some (s, e) => s ≤ e | None => True end.

Lemma total_insert m k v : m !! k = None → total (<[k := v]> m) = weight v + total m.
Proof.
  intros. unfold total.
  apply (map_fold_insert_L (λ _ v acc, weight v + acc) 0 k v m); [intros; lia|done].
Qed.

Lemma total_update m k v v0 :
  m !! k = Some v0 → total (<[k := v]> m) + weight v0 = weight v + total m.
Proof.
  intros Hk. rewrite <- (insert_delete_id m k v0) at 2 by done.
  rewrite <- insert_delete_eq, !total_insert by apply lookup_delete_eq. lia.
Qed.

Lemma total_pos m k v : m !! k = Some v → weight v ≤ total m.
Proof.
  intros Hk. rewrite <- (insert_delete_id m k v) by done.
  rewrite total_insert by apply lookup_delete_eq. lia.
Qed.

Lemma MemTable_new_wf c id :
  mt_wf (MemTable_new (V := V) c id) ∧ ∀ k, latest (MemTable_new (V := V) c id) k = None.
Proof.
  split; [|intros k; unfold latest; simpl; by rewrite lookup_empty].
  split; [done|]. split; [|done]. intros k v. simpl. by rewrite lookup_empty.
Qed.

(** ** put *)
Lemma put_spec t key value d t' :
  mt_wf t → put t key value = (d, t') →
  mt_wf t' ∧
  (∀ k, latest t' k = if k =? key then Some value else latest t k) ∧
  (∀ k, synced t' k = synced t k) ∧
  d = (v ← table t !! key; if contains_unsynced v then Some (ValueEx_get v) else None) ∧
  size t' = size t + (if d then 0 else 1) ∧ cap t' = cap t ∧ sync_id t' = sync_id t.
Proof.
  intros (Hsz & Hun & Hr) Hput. unfold put in Hput.
  set (range' := match unsynced_range t with
                 | None => None
                 | Some (s, e) => if e <=? s then Some (key, key + 1)
                                  else Some (Nat.min key s, Nat.max (key + 1) e) end) in Hput.
  assert (Hr' : in_range range' key ∧ (∀ k, in_range (unsynced_range t) k → in_range range' k) ∧
                match range' with Some (s, e) => s ≤ e | None => True end).
  { subst range'. destruct (unsynced_range t) as [[s e]|]; [|done].
    destruct (e <=? s) eqn:E; bool_simpl; simpl in *; split_and!; intros; lia. }
  clearbody range'. destruct Hr' as (Hkey & Hmono & Hle).
  assert (Hcase : ∃ v', table t' = <[key := v']> (table t) ∧
            unsynced_range t' = range' ∧ cap t' = cap t ∧ sync_id t' = sync_id t ∧
            ValueEx_get v' = value ∧ contains_unsynced v' = true ∧
            ValueEx_synced v' = (v ← table t !! key; ValueEx_synced v) ∧
            d = (v ← table t !! key; if contains_unsynced v then Some (ValueEx_get v) else None) ∧
            size t' = size t + (if d then 0 else 1) ∧
            size t' = total (<[key := v']> (table t))).
  { destruct (table t !! key) as [v0|] eqn:Ek.
    - pose proof (λ v, total_update _ _ v _ Ek) as Hu.
      destruct v0 as [v|v|sv usv]; simpl in Hput; simplify_eq/=;
        [specialize (Hu (SyncedAndUnsynced v value))|specialize (Hu (Unsynced value))
        |specialize (Hu (SyncedAndUnsynced sv value))];
        simpl in Hu; (eexists; split; [done|]; split_and!; (done || lia)).
    - simplify_eq/=. eexists. split; [done|]. split_and!; try done.
      rewrite total_insert by done. simpl. lia. }
  destruct Hcase as (v' & Ht & Hrg & Hcap & Hid & Hg & Hc & Hs & Hd & Hsz1 & Hsz2).
  unfold mt_wf, latest, synced. rewrite Ht, Hrg. split_and!; try done.
  - intros k v. rewrite lookup_insert_Some. intros [[<- <-]|[Hne Hk]] Hv; [done|]. eauto.
  - intros k. destruct (k =? key) eqn:E; bool_simpl.
    + subst. rewrite lookup_insert_eq. simpl. done.
    + by rewrite lookup_insert_ne.
  - intros k. destruct (decide (k = key)) as [->|].
    + rewrite lookup_insert_eq. simpl. by rewrite Hs.
    + by rewrite lookup_insert_ne.
Qed.

(** ** sync *)
Lemma NoDup_filter_keys {A} (p : nat * A → bool) (l : list (nat * A)) :
  NoDup l.*1 → NoDup (List.filter p l).*1.
Proof.
  induction l as [|x l IH]; simpl; [done|]. intros [Hni Hnd]%NoDup_cons.
  destruct (p x); [|by apply IH]. simpl. constructor; [|by apply IH].
  intros Hin. apply Hni. apply list_elem_of_fmap in Hin as (y & -> & Hy).
  apply list_elem_of_fmap_2. apply list_elem_of_In in Hy. apply filter_In in Hy as [Hy _].
  by apply list_elem_of_In.
Qed.

Definition to_synced (v : ValueEx V) : ValueEx V := Synced (ValueEx_get v).

Lemma sync_loop_all L : ∀ m n drops,
  NoDup L.*1 → (∀ k v, (k, v) ∈ L → m !! k = Some v ∧ contains_unsynced v = true) →
  n = total m →
  ∃ m' drops', foldM sync_loop (m, n, drops) L = Ok (m', total m', drops ++ drops') ∧
    total m' + length drops' = n ∧
    (∀ k, m' !! k = if bool_decide (k ∈ L.*1) then to_synced <$> m !! k else m !! k) ∧
    (∀ k d, (k, d) ∈ drops' ↔ ∃ u, (k, SyncedAndUnsynced d u) ∈ L).
Proof.
  induction L as [|[k v] L IH]; intros m n drops Hnd HL ->; cbn [foldM].
  { exists m, []. rewrite app_nil_r. split; [done|]. split; [simpl; lia|]. split.
    - intros k. by rewrite bool_decide_eq_false_2 by apply not_elem_of_nil.
    - intros k d. split; [by intros ?%elem_of_nil|]. by intros [u ?%elem_of_nil]. }
  cbn [fmap list_fmap] in Hnd. apply NoDup_cons in Hnd as [Hni Hnd].
  destruct (HL k v ltac:(set_solver)) as [Hk Hv].
  pose proof (total_update m k (to_synced v) v Hk) as Hw. simpl in Hw.
  assert (Hstep : ∃ dr, sync_loop (m, total m, drops) (k, v)
              = Ok (<[k := to_synced v]> m, total (<[k := to_synced v]> m), drops ++ dr) ∧
            total (<[k := to_synced v]> m) + length dr = total m ∧
            ∀ j d, (j, d) ∈ dr ↔ j = k ∧ ∃ u, v = SyncedAndUnsynced d u).
  { destruct v as [v|v|sv usv]; simpl in Hv; [done| |]; unfold sync_loop, ValueEx_sync; simpl.
    - exists []. rewrite app_nil_r. simpl in *. split_and!; [|lia|set_solver]. do 3 f_equal. lia.
    - exists [(k, sv)]. simpl in *. rewrite usub_ok by lia. simpl. split_and!; [|lia|set_solver].
      do 3 f_equal. lia. }
  destruct Hstep as (dr & -> & Hlen & Hdr).
  destruct (IH (<[k := to_synced v]> m) (total (<[k := to_synced v]> m)) (drops ++ dr) Hnd) as (m' & drops' & -> & Hlen' & Hm' & Hd').
  { intros j w Hj. rewrite lookup_insert_ne; [apply HL; set_solver|].
    intros <-. apply Hni. apply list_elem_of_fmap. by exists (k, w). }
  { done. }
  exists m', (dr ++ drops'). rewrite app_assoc. split; [done|].
  split; [rewrite length_app; lia|]. split.
  - intros j. rewrite Hm'. cbn [fmap list_fmap]. simpl. destruct (decide (j = k)) as [->|Hne].
    + rewrite bool_decide_eq_false_2 by done. rewrite bool_decide_eq_true_2 by set_solver.
      by rewrite lookup_insert_eq, Hk.
    + rewrite lookup_insert_ne by done.
      by rewrite (bool_decide_ext (j ∈ k :: L.*1) (j ∈ L.*1)) by set_solver.
  - intros j d. rewrite elem_of_app, Hdr, Hd'. setoid_rewrite elem_of_cons. naive_solver.
Qed.

Lemma sync_spec uninit t id :
  mt_wf t → sync_id t ≤ id →
  ∃ drops t', sync uninit t id = Ok (drops, t') ∧ mt_wf t' ∧
    (∀ k, latest t' k = latest t k) ∧
    (sync_id t < id → (∀ k, synced t' k = latest t k) ∧
       ∀ k d, (k, d) ∈ drops ↔ ∃ u, table t !! k = Some (SyncedAndUnsynced d u)) ∧
    (sync_id t = id → drops = [] ∧ t' = t) ∧
    size t' + length drops = size t ∧ cap t' = cap t ∧ sync_id t' = id.
Proof.
  intros (Hsz & Hun & Hr) Hid. unfold sync. rewrite (proj2 (Nat.leb_le _ _)) by done.
  cbn [assert_]. bind_step. destruct (sync_id t =? id) eqn:E; bool_simpl.
  { exists [], t. split_and!; try done; simpl; lia. }
  set (L := match unsynced_range t with
            | Some (s, e) => List.filter (λ kv, contains_unsynced kv.2)
                 (bt_range (table t) (λ k, (s <=? k) && (k <? e)))
            | None => List.filter (λ kv, contains_unsynced kv.2) (bt_iter (table t)) end).
  assert (HL : ∀ k v, (k, v) ∈ L ↔ table t !! k = Some v ∧ contains_unsynced v = true).
  { intros k v. subst L. destruct (unsynced_range t) as [[s e]|];
      rewrite list_elem_of_In, filter_In, <- list_elem_of_In;
      rewrite ?elem_of_bt_range, ?elem_of_bt_iter; [|done]. simpl. split; [tauto|].
    intros [Hk Hv]. split; [|done]. split; [done|]. destruct (Hun k v Hk Hv).
    by rewrite (proj2 (Nat.leb_le _ _)), (proj2 (Nat.ltb_lt _ _)). }
  assert (Hnd : NoDup L.*1).
  { subst L. destruct (unsynced_range t) as [[s e]|]; apply NoDup_filter_keys;
      [apply NoDup_bt_range|apply NoDup_bt_iter]. }
  replace (match unsynced_range t with
           | Some (s, e) => _ ← assert_ (s <=? e); _ | None => _ end) with (Ok L).
  2:{ subst L. destruct (unsynced_range t) as [[s e]|]; [|done].
      by rewrite (proj2 (Nat.leb_le s e) Hr). }
  bind_step.
  destruct (sync_loop_all L (table t) (size t) [] Hnd) as (m' & drops & -> & Hlen & Hm & Hd);
    [naive_solver|done|].
  bind_step. eexists _, _. split; [done|].
  assert (Hm' : ∀ k, m' !! k = to_synced <$> table t !! k).
  { intros k. rewrite Hm. case_bool_decide as Hin; [done|].
    destruct (table t !! k) as [v|] eqn:Ek; [|done]. simpl.
    destruct v as [v|v|sv usv]; [done|exfalso..]; apply Hin, list_elem_of_fmap;
      by eexists (k, _); rewrite HL. }
  unfold mt_wf. split_and!; simpl; try done.
  - intros k v. rewrite Hm'. intros Hk Hc. apply fmap_Some in Hk as (w & _ & ->). done.
  - by destruct (unsynced_range t) as [[s e]|].
  - intros k. unfold latest. simpl. rewrite Hm'. by destruct (table t !! k).
  - intros _. split.
    + intros k. unfold latest, synced. simpl. rewrite Hm'. by destruct (table t !! k).
    + intros k d. rewrite Hd. setoid_rewrite HL. naive_solver.
Qed.

(** ** Range queries *)
Lemma complete_all (L : list (nat * ValueEx V)) : ∀ c : RangeQueryCtx V,
  ctx_wf c → NoDup L.*1 → (∀ k v, (k, v) ∈ L → start c ≤ k < start c + num_values c) →
  ∃ c', foldM (λ c '(k, v_ex), complete c k (ValueEx_get v_ex)) c L = Ok c' ∧
    ctx_wf c' ∧ start c' = start c ∧ num_values c' = num_values c ∧
    (∀ j, slot_done c' j = slot_done c j || bool_decide (start c + j ∈ L.*1)) ∧
    (∀ k v, (k, v) ∈ results c' ↔ (k, v) ∈ results c ∨
       slot_done c (k - start c) = false ∧ ∃ w, (k, w) ∈ L ∧ v = ValueEx_get w).
Proof.
  induction L as [|[k w] L IH]; intros c Hc Hnd HL; cbn [foldM].
  { exists c. split_and!; try done; try apply Hc.
    - intros j. rewrite bool_decide_eq_false_2 by apply not_elem_of_nil. by rewrite orb_false_r.
    - intros k v. split; [by left|]. intros [?|[_ (w & ?%elem_of_nil & _)]]; done. }
  cbn [fmap list_fmap] in Hnd. simpl in Hnd. apply NoDup_cons in Hnd as [Hni Hnd].
  pose proof (HL k w ltac:(set_solver)) as Hk.
  destruct (complete_ok c k (ValueEx_get w) Hc Hk) as (c1 & -> & Hc1 & Hs1 & Hn1 & Hr1 & Hd1).
  destruct (IH c1 Hc1 Hnd) as (c2 & -> & Hc2 & Hs2 & Hn2 & Hd2 & Hr2).
  { intros j v Hj. rewrite Hs1, Hn1. apply (HL j v). set_solver. }
  exists c2. split; [done|]. split; [done|]. do 2 (split; [congruence|]). split.
  - intros j. rewrite Hd2, Hd1, Hs1. cbn [fmap list_fmap]. simpl.
    destruct (j =? k - start c) eqn:E; bool_simpl; simpl.
    + rewrite (bool_decide_eq_true_2 (_ ∈ k :: _)); [by rewrite orb_true_r|].
      subst j. replace (start c + (k - start c)) with k by lia. set_solver.
    + f_equal. apply bool_decide_ext. rewrite elem_of_cons.
      split; [by right|]. intros [Heq|]; [lia|done].
  - intros j v. rewrite Hr2, Hr1, Hs1, elem_of_app. rewrite Hd1. setoid_rewrite elem_of_cons.
    assert (Hout : ∀ x, (k, x) ∈ L → False).
    { intros x Hx. apply Hni, list_elem_of_fmap. by exists (k, x). }
    destruct (j - start c =? k - start c) eqn:E; bool_simpl.
    + assert (Hjk : (∃ x, (j, x) ∈ L) → start c ≤ j).
      { intros [x Hx]. apply (HL j x). set_solver. }
      assert (Hres : (j, v) ∈ results c → start c ≤ j).
      { intros Hin. destruct Hc as (_ & _ & _ & _ & _ & _ & Hres). apply Hres in Hin. lia. }
      destruct (slot_done c (k - start c)) eqn:Ed; rewrite ?elem_of_nil, ?list_elem_of_singleton.
      * split; [naive_solver|]. intros [?|[Hd _]]; [naive_solver|]. rewrite E in Hd. congruence.
      * split.
        -- intros [[?|?]|[? _]]; [by left| |done]. simplify_eq. right. split; [done|]. naive_solver.
        -- intros [?|[Hd (x & [Hx|Hx] & ->)]]; [naive_solver|by simplify_eq; left; right|].
           assert (j = k) as -> by (specialize (Hjk ltac:(eauto)); lia). by destruct (Hout x).
    + destruct (slot_done c (k - start c)); rewrite ?elem_of_nil, ?list_elem_of_singleton; naive_solver.
Qed.

Lemma get_range_ok t c :
  ctx_wf c → is_completed c = false →
  ∃ c', get_range t c = Ok (c', is_completed c') ∧ ctx_wf c' ∧ start c' = start c ∧
    num_values c' = num_values c ∧
    (∀ j, j < num_values c →
       slot_done c' j = slot_done c j || bool_decide (latest t (start c + j) ≠ None)) ∧
    (∀ k v, (k, v) ∈ results c' ↔ (k, v) ∈ results c ∨
       start c ≤ k < start c + num_values c ∧ slot_done c (k - start c) = false ∧
       latest t k = Some v).
Proof.
  intros Hc Hnc. unfold get_range. rewrite Hnc. cbn [negb assert_]. bind_step.
  pose proof (range_uncompleted_ok c Hc) as Hr. rewrite Hnc in Hr.
  destruct Hr as (a & b & -> & Hab & Ha & Hb & Hall). bind_step. cbn [unwrap]. bind_step.
  set (L := bt_range (table t) (λ k, (start c + a <=? k) && (k <=? start c + b))).
  assert (HL : ∀ k v, (k, v) ∈ L ↔ table t !! k = Some v ∧ start c + a ≤ k ≤ start c + b).
  { intros k v. subst L. by rewrite elem_of_bt_range, andb_true_iff, !Nat.leb_le. }
  destruct (complete_all L c Hc (NoDup_bt_range _ _)) as (c' & -> & Hc' & Hs & Hn & Hd & Hres).
  { intros k v [_ ?]%HL. lia. }
  bind_step. exists c'. split; [done|]. split; [done|]. do 2 (split; [done|]).
  assert (Hkeys : ∀ k, k ∈ L.*1 ↔ latest t k ≠ None ∧ start c + a ≤ k ≤ start c + b).
  { intros k. rewrite list_elem_of_fmap. unfold latest. split.
    - intros ([k' v] & -> & [Hk ?]%HL). simpl. by rewrite Hk.
    - intros [Hk ?]. destruct (table t !! k) as [v|] eqn:E; [|done].
      exists (k, v). by rewrite HL. }
  split.
  - intros j Hj. rewrite Hd. destruct (slot_done c j) eqn:Ej; [done|]. simpl.
    apply bool_decide_ext. rewrite Hkeys. specialize (Hall j Hj Ej). intuition lia.
  - intros k v. rewrite Hres. setoid_rewrite HL. unfold latest. rewrite fmap_Some.
    assert (start c ≤ k < start c + num_values c → slot_done c (k - start c) = false →
            start c + a ≤ k ≤ start c + b).
    { intros Hk Hk0. specialize (Hall (k - start c) ltac:(lia) Hk0). lia. }
    split; (intros [?|?]; [by left|right]); [|naive_solver].
    destruct_and!. naive_solver (lia).
Qed.

(** The query over both tables: a slot is answered by the first table that has it. *)
Lemma mgr_get_range_ok (m : MemTableManager V) c :
  ctx_wf c → is_completed c = false →
  ∃ c', mgr_get_range m c = Ok (c', is_completed c') ∧ ctx_wf c' ∧ start c' = start c ∧
    num_values c' = num_values c ∧
    (∀ j, j < num_values c →
       slot_done c' j = slot_done c j || bool_decide (mgr_get m (start c + j) ≠ None)) ∧
    (∀ k v, (k, v) ∈ results c' ↔ (k, v) ∈ results c ∨
       start c ≤ k < start c + num_values c ∧ slot_done c (k - start c) = false ∧
       mgr_get m k = Some v).
Proof.
  intros Hc Hnc. unfold mgr_get_range, mgr_get, get.
  destruct (get_range_ok (mutable m) c Hc Hnc) as (c1 & -> & Hc1 & Hs1 & Hn1 & Hd1 & Hr1).
  bind_step. unfold latest in *. destruct (is_completed c1) eqn:E1.
  - exists c1. rewrite E1. do 4 (split; [done|]).
    assert (Hin : ∀ j, j < num_values c → slot_done c j = false →
                       ValueEx_get <$> table (mutable m) !! (start c + j) ≠ None).
    { intros j Hj Hj0. apply (is_completed_iff c1 Hc1) with (j := j) in E1; [|lia].
      rewrite Hd1, Hj0 in E1 by done. simpl in E1. by apply bool_decide_eq_true in E1. }
    split.
    + intros j Hj. rewrite Hd1 by done. destruct (slot_done c j) eqn:Ej; [done|]. simpl.
      apply bool_decide_ext. specialize (Hin j Hj Ej). by destruct (_ <$> table (mutable m) !! _).
    + intros k v. rewrite Hr1. apply or_iff_compat_l. split; intros (Hk & Hk0 & Hv).
      * by rewrite Hv.
      * split; [done|]. split; [done|]. specialize (Hin (k - start c) ltac:(lia) Hk0).
        replace (start c + (k - start c)) with k in Hin by lia.
        by destruct (_ <$> table (mutable m) !! k).
  - destruct (get_range_ok (immutable m) c1 Hc1 E1) as (c2 & -> & Hc2 & Hs2 & Hn2 & Hd2 & Hr2).
    rewrite Hs1, Hn1 in *. exists c2. do 2 (split; [done|]). do 2 (split; [congruence|]).
    unfold latest in *. split.
    + intros j Hj. rewrite Hd2, Hd1 by done.
      destruct (_ <$> table (mutable m) !! (start c + j)), (slot_done c j); done.
    + intros k v. rewrite Hr2, Hr1. rewrite Init.Logic.or_assoc. apply or_iff_compat_l.
      assert (Hd : start c ≤ k < start c + num_values c → slot_done c1 (k - start c) =
        slot_done c (k - start c) || bool_decide (ValueEx_get <$> table (mutable m) !! k ≠ None)).
      { intros. rewrite Hd1 by lia. by replace (start c + (k - start c)) with k by lia. }
      destruct (_ <$> table (mutable m) !! k) eqn:Em; simpl in *.
      * split; [intros [?|(Hk & Hk0 & _)]; [done|]|by left]. rewrite Hd in Hk0 by done.
        by rewrite orb_true_r in Hk0.
      * split; [intros [(_ & _ & ?)|(Hk & Hk0 & ?)]; [done|]|intros (Hk & Hk0 & ?); right].
        -- rewrite Hd, orb_false_r in Hk0 by done. done.
        -- rewrite Hd, orb_false_r by done. done.
Qed.

(** ** Claims *)

(** C21: a [MemTable] implements two maps, the latest value and the value as of the
    last sync.  [put] updates the first at its key only; [sync] with a later id
    makes the second equal to the first, whatever part of the table the
    [unsynced_range] shortcut visits, and with the same id does nothing.  The
    records handed to the drop callback are exactly those overwritten (the previous
    unsynced value on [put], the outdated synced values on [sync]), and [size]
    counts the records that remain. *)
Theorem memtable_refines_maps uninit t key value id :
  mt_wf t → sync_id t ≤ id →
  (∀ d t', put t key value = (d, t') →
     mt_wf t' ∧ size t' = size t + (if d then 0 else 1) ∧
     d = (v ← table t !! key; if contains_unsynced v then Some (ValueEx_get v) else None) ∧
     ∀ k, get t' k = (if k =? key then Some value else get t k) ∧ synced t' k = synced t k) ∧
  (∃ drops t', sync uninit t id = Ok (drops, t') ∧ mt_wf t' ∧ sync_id t' = id ∧
     size t' + length drops = size t ∧
     (∀ k, get t' k = get t k) ∧
     (sync_id t = id → drops = [] ∧ t' = t) ∧
     (sync_id t < id → (∀ k, synced t' k = get t k) ∧
        ∀ k d, (k, d) ∈ drops ↔ ∃ u, table t !! k = Some (SyncedAndUnsynced d u))).
Proof.
  intros Hwf Hid. split.
  - intros d t' Hput. destruct (put_spec t key value d t' Hwf Hput) as (?&Hl&Hs&?&?&_&_).
    split; [done|]. split; [done|]. split; [done|]. intros k. split; [apply Hl|apply Hs].
  - destruct (sync_spec uninit t id Hwf Hid) as (drops & t' & ?&?&?&?&?&?&?&?).
    exists drops, t'. by split_and!.
Qed.

(** a range query over the mutable and the immutable table answers every slot
    exactly as a point query would: it never panics, the results are the pairs
    [(k, v)] of the range with [get k = v] (the mutable table shadows the immutable
    one), one per key, and the query is complete exactly when every key of the
    range is present, in which case the results can be taken out. *)
Theorem memtable_range_query (m : MemTableManager V) s n :
  0 < n →
  ∃ c' b, mgr_get_range m (RangeQueryCtx_new s n) = Ok (c', b) ∧
    (b = true ↔ ∀ k, s ≤ k < s + n → mgr_get m k ≠ None) ∧
    (∀ k v, (k, v) ∈ results c' ↔ s ≤ k < s + n ∧ mgr_get m k = Some v) ∧
    NoDup (results c').*1 ∧ (b = true → into_results c' = Ok (results c')).
Proof.
  intros Hn. destruct (RangeQueryCtx_new_wf (V := V) s n) as [Hc Hfalse].
  destruct (mgr_get_range_ok m (RangeQueryCtx_new s n) Hc) as (c' & Hq & Hc' & Hs & Hnum & Hd & Hr).
  { unfold is_completed. simpl. by destruct n; [lia|]. }
  exists c', (is_completed c'). split; [done|]. simpl in *. split.
  - rewrite is_completed_iff, Hnum by done. split.
    + intros Hall k Hk. specialize (Hall (k - s) ltac:(lia)).
      rewrite Hd, Hfalse in Hall by lia. simpl in Hall. apply bool_decide_eq_true in Hall.
      by replace (s + (k - s)) with k in Hall by lia.
    + intros Hall j Hj. rewrite Hd by done. rewrite bool_decide_eq_true_2; [apply orb_true_r|].
      apply Hall. lia.
  - split; [|split].
    + intros k v. rewrite Hr, Hfalse. rewrite elem_of_nil. naive_solver.
    + apply Hc'.
    + unfold into_results. by intros ->.
Qed.
End spec.

(** *** Witnesses *)
#[local] Existing Instance BittleZ.
Definition demo_table : MemTable nat :=
  match sync 0 (put (put (MemTable_new 4 0) 2 20).2 1 10).2 1 with
  | Ok (_, t) => (put t 2 22).2 | _ => MemTable_new 4 0 end.

Lemma memtable_refines_maps_witness :
  ∃ drops t', sync 0 demo_table 2 = Ok (drops, t') ∧ size t' + length drops = 3.
Proof.
  assert (Hwf : mt_wf demo_table).
  { split; [vm_compute; reflexivity|]. split; [|vm_compute; lia].
    assert (Hf : map_Forall (λ k v, contains_unsynced v = true → 2 ≤ k < 3) (table demo_table)).
    { apply (bool_decide_unpack _). vm_compute. exact I. }
    intros k v Hk Hc. exact (Hf k v Hk Hc). }
  destruct (memtable_refines_maps 0 demo_table 5 50 2 Hwf) as [_ (d & t' & H & _ & _ & Hs & _)];
    [vm_compute; lia|]. exists d, t'. by split.
Defined.

Lemma memtable_range_query_witness :
  ∃ c' b, mgr_get_range (mkMemTableManager demo_table demo_table false) (RangeQueryCtx_new 1 2)
          = Ok (c', b) ∧ (2, 22) ∈ results c'.
Proof.
  destruct (memtable_range_query (mkMemTableManager demo_table demo_table false) 1 2)
    as (c' & b & H & _ & Hr & _); [lia|]. exists c', b. split; [done|]. apply Hr.
  split; [lia|vm_compute; reflexivity].
Defined.
