(* ===== verification/Compaction.v ===== *)
(** * Compaction: [core/src/layers/4-lsm/compaction.rs]

    The merge of two sorted record streams (newer over older) into SSTs of bounded
    size.  Streams are lists; the SST builder consumes its iterator to the end, so
    a built SST is the list of its records; the calls to the event listener are the
    list of dropped records.  [Merge] is the merge as an inductive relation, the
    link between the loops of the code and the claims. *)
From S2P Require Import Prelude MemTable.

(** [tx_lsm_tree.rs]: [SSTABLE_CAPACITY = MEMTABLE_CAPACITY]. *)
Definition MEMTABLE_CAPACITY : N := 2097152.
Definition SSTABLE_CAPACITY : N := MEMTABLE_CAPACITY.

Section compaction.
Context {V : Type}.
Notation records := (list (nat * ValueEx V)).

(** [Compactor::compact_value_ex]: the compacted value and the dropped one. *)
Definition compact_value_ex (new old : ValueEx V) : res (ValueEx V * option V) :=
  match new, old with
  | Synced new_v, Synced old_v => Ok (Synced new_v, Some old_v)
  | Unsynced new_v, Synced old_v => Ok (SyncedAndUnsynced old_v new_v, None)
  | Unsynced new_v, Unsynced old_v => Ok (Unsynced new_v, Some old_v)
  | Unsynced new_v, SyncedAndUnsynced old_sv old_usv =>
      Ok (SyncedAndUnsynced old_sv new_v, Some old_usv)
  | SyncedAndUnsynced new_sv new_usv, Synced old_sv =>
      Ok (SyncedAndUnsynced new_sv new_usv, Some old_sv)
  | _, _ => Panic
  end.

(** One call of the [from_fn] closure below capacity: the record produced, the
    record dropped, and what is left of the two streams. *)
Definition next_record (upper lower : records)
    : res (option (nat * ValueEx V) * option (nat * V) * (records * records)) :=
  match upper, lower with
  | (upper_k, new_v) :: upper', (lower_k, old_v) :: lower' =>
      match Nat.compare upper_k lower_k with
      | Lt => Ok (Some (upper_k, new_v), None, (upper', lower))
      | Gt => Ok (Some (lower_k, old_v), None, (upper, lower'))
      | Eq =>
          '(next_v_ex, dropped_v_opt) ← compact_value_ex new_v old_v;
          Ok (Some (upper_k, next_v_ex), option_map (pair upper_k) dropped_v_opt, (upper', lower'))
      end
  | r :: upper', [] => Ok (Some r, None, (upper', lower))
  | [], r :: lower' => Ok (Some r, None, (upper, lower'))
  | [], [] => Ok (None, None, ([], []))
  end.

(** The iterator run to its end: at most [cap] records. *)
Fixpoint take_records (cap : nat) (upper lower : records)
    : res (records * list (nat * V) * (records * records)) :=
  match cap with
  | 0 => Ok ([], [], (upper, lower))
  | S cap =>
      '(r, dropped, (upper', lower')) ← next_record upper lower;
      match r with
      | None => Ok ([], [], (upper', lower'))
      | Some r =>
          '(rs, ds, rest) ← take_records cap upper' lower';
          Ok (r :: rs, option_list dropped ++ ds, rest)
      end
  end.

(** [compact_records_and_build_ssts]: one SST per iteration until an iteration
    has no record.  [fuel] bounds the iterations. *)
Fixpoint compact_records (fuel cap : nat) (upper lower : records)
    : res (list records * list (nat * V)) :=
  match fuel with
  | 0 => Panic
  | S fuel =>
      '(rs, ds, (upper', lower')) ← take_records cap upper lower;
      match rs with
      | [] => Ok ([], ds)
      | _ :: _ =>
          '(ssts, ds') ← compact_records fuel cap upper' lower';
          Ok (rs :: ssts, ds ++ ds')
      end
  end.

Definition compact_records_and_build_ssts (cap : nat) (upper lower : records)
    : res (list records * list (nat * V)) :=
  compact_records (S (length upper + length lower)) cap upper lower.
End compaction.

Section merge.
Context {V : Type}.
Notation records := (list (nat * ValueEx V)).
Implicit Types (u l out ch : records) (kv : nat * ValueEx V).

(** A newer synced value implies that the older value is no longer unsynced. *)
Definition compat (new old : ValueEx V) : Prop :=
  ValueEx_synced new ≠ None → contains_unsynced old = false.

(** The compacted value keeps the newest value and the newest synced value, and no
    record is lost: the one that is not kept is dropped. *)
Lemma compact_value_ex_spec new old :
  compat new old →
  ∃ v d, compact_value_ex new old = Ok (v, d) ∧ ValueEx_get v = ValueEx_get new ∧
         ValueEx_synced v = (match ValueEx_synced new with
                             | Some s => Some s | None => ValueEx_synced old end) ∧
         weight v + length (option_list d) = weight new + weight old.
Proof.
  unfold compat.
  destruct new, old; simpl; intros Hc; try (by specialize (Hc ltac:(done))); eexists _, _;
    split_and!; reflexivity.
Qed.

Lemma compact_value_ex_panic new old : ¬ compat new old → compact_value_ex new old = Panic.
Proof. unfold compat. destruct new, old; simpl; try done; intros Hc; destruct Hc; done. Qed.

Inductive Merge : records → records → records → list (nat * V) → Prop :=
  | M_nil : Merge [] [] [] []
  | M_upper k v u l out ds :
      (∀ k' v', head l = Some (k', v') → k < k') →
      Merge u l out ds → Merge ((k, v) :: u) l ((k, v) :: out) ds
  | M_lower k v u l out ds :
      (∀ k' v', head u = Some (k', v') → k < k') →
      Merge u l out ds → Merge u ((k, v) :: l) ((k, v) :: out) ds
  | M_both k new old v d u l out ds :
      compact_value_ex new old = Ok (v, d) →
      Merge u l out ds →
      Merge ((k, new) :: u) ((k, old) :: l) ((k, v) :: out)
        (map (pair k) (option_list d) ++ ds).

Definition streams_compat u l : Prop :=
  ∀ k a b, (k, a) ∈ u → (k, b) ∈ l → compat a b.

Lemma next_record_spec u l r d u' l' :
  streams_compat u l → next_record u l = Ok (r, d, (u', l')) →
  streams_compat u' l' ∧
  match r with
  | None => u = [] ∧ l = [] ∧ u' = [] ∧ l' = []
  | Some r => length u' + length l' < length u + length l ∧
      (∀ out ds, Merge u' l' out ds → Merge u l (r :: out) (option_list d ++ ds))
  end.
Proof.
  intros Hc Hn.
  assert (Hsub : u' ⊆ u ∧ l' ⊆ l → streams_compat u' l').
  { intros [Hu Hl] k a b Ha Hb. eapply Hc; eauto. }
  unfold next_record in Hn. destruct u as [|[ku vu] u], l as [|[kl vl] l]; simplify_eq/=.
  - done.
  - split; [apply Hsub; set_solver|]. split; [lia|]. intros. by apply M_lower.
  - split; [apply Hsub; set_solver|]. split; [lia|]. intros. by apply M_upper.
  - destruct (Nat.compare_spec ku kl) as [->|Hlt|Hgt]; simplify_eq/=.
    + destruct (compact_value_ex vu vl) as [[v dr]| |] eqn:E; simplify_eq/=.
      split; [apply Hsub; set_solver|]. split; [lia|]. intros.
      replace (option_list (option_map (pair kl) dr)) with (map (pair kl) (option_list dr))
        by (by destruct dr).
      by eapply M_both.
    + split; [apply Hsub; set_solver|]. split; [simpl; lia|]. intros.
      apply M_upper; [|done]. naive_solver.
    + split; [apply Hsub; set_solver|]. split; [simpl; lia|]. intros.
      apply M_lower; [|done]. naive_solver.
Qed.

Lemma next_record_ok u l : streams_compat u l → is_ok (next_record u l) = true.
Proof.
  intros Hc. unfold next_record. destruct u as [|[ku vu] u], l as [|[kl vl] l]; try done.
  destruct (Nat.compare_spec ku kl) as [->| |]; try done.
  destruct (compact_value_ex_spec vu vl) as (v & d & -> & _); [|done].
  eapply Hc; by left.
Qed.

Lemma take_records_spec cap : ∀ u l,
  streams_compat u l →
  ∃ rs ds u' l', take_records cap u l = Ok (rs, ds, (u', l')) ∧ streams_compat u' l' ∧
    length rs ≤ cap ∧ (length rs < cap → u' = [] ∧ l' = []) ∧
    (rs = [] → 0 < cap → u = [] ∧ l = [] ∧ ds = []) ∧
    length u' + length l' ≤ length u + length l ∧
    (rs ≠ [] → length u' + length l' < length u + length l) ∧
    (∀ out ds', Merge u' l' out ds' → Merge u l (rs ++ out) (ds ++ ds')).
Proof.
  induction cap as [|cap IH]; intros u l Hc; simpl.
  { exists [], [], u, l. split_and!; try done; simpl; lia. }
  pose proof (next_record_ok u l Hc) as Hok.
  destruct (next_record u l) as [[[r d] [u1 l1]]| |] eqn:En; [|done..]. bind_step.
  destruct (next_record_spec u l r d u1 l1 Hc En) as [Hc1 Hr]. destruct r as [r|]; bind_step.
  - destruct Hr as [Hlt Hm].
    destruct (IH u1 l1 Hc1) as (rs & ds & u' & l' & -> & Hc' & Hle & Hend & Hnil & Hdec & _ & Hm').
    bind_step. eexists _, _, u', l'. split; [done|]. split_and!; simpl; try done; try lia.
    + intros. apply Hend. lia.
    + intros out ds' Hmo. rewrite <- app_assoc. by apply Hm, Hm'.
  - destruct Hr as (-> & -> & -> & ->). exists [], [], [], []. split_and!; try done; simpl; lia.
Qed.

(** Every SST but the last is full, and none is empty. *)
Inductive chunked (cap : nat) : list records → Prop :=
  | chunked_nil : chunked cap []
  | chunked_last rs : 0 < length rs ≤ cap → chunked cap [rs]
  | chunked_cons rs rs' ssts :
      length rs = cap → chunked cap (rs' :: ssts) → chunked cap (rs :: rs' :: ssts).

Lemma compact_records_spec cap fuel : ∀ u l,
  0 < cap → streams_compat u l → length u + length l < fuel →
  ∃ ssts ds, compact_records fuel cap u l = Ok (ssts, ds) ∧ Merge u l (concat ssts) ds ∧
             chunked cap ssts.
Proof.
  induction fuel as [|fuel IH]; intros u l Hcap Hc Hf; [lia|]. cbn [compact_records].
  destruct (take_records_spec cap u l Hc)
    as (rs & ds & u' & l' & -> & Hc' & Hle & Hend & Hnil & _ & Hdec & Hm).
  bind_step. destruct rs as [|r rs].
  { destruct (Hnil eq_refl Hcap) as (-> & -> & ->). exists [], []. split_and!; [done| |]; constructor. }
  destruct (IH u' l' Hcap Hc') as (ssts & ds' & -> & Hm' & Hch); [specialize (Hdec ltac:(done)); lia|].
  bind_step. exists ((r :: rs) :: ssts), (ds ++ ds'). split; [done|].
  split; [exact (Hm _ _ Hm')|]. destruct ssts as [|rs' ssts].
  { constructor. simpl in *. lia. }
  constructor; [|done]. destruct (decide (length (r :: rs) < cap)) as [Hlt|]; [|lia].
  destruct (Hend Hlt) as [-> ->]. inversion Hm' as [Hx| | |].
  inversion Hch; subst; simpl in *; destruct rs'; simpl in *; (lia || done).
Qed.

(** ** Reading the merged stream *)
Definition lk (L : records) (k : nat) : option (ValueEx V) :=
  (list_to_map L : gmap nat (ValueEx V)) !! k.
Definition sorted (L : records) : Prop := StronglySorted lt L.*1.

Lemma lk_cons k v L j : lk ((k, v) :: L) j = if j =? k then Some v else lk L j.
Proof.
  unfold lk. simpl. destruct (j =? k) eqn:E; bool_simpl; subst.
  - by rewrite lookup_insert_eq.
  - by rewrite lookup_insert_ne.
Qed.

Lemma lk_None L j : j ∉ L.*1 → lk L j = None.
Proof. apply not_elem_of_list_to_map_1. Qed.

Lemma sorted_cons k v L : sorted ((k, v) :: L) ↔ sorted L ∧ ∀ j, j ∈ L.*1 → k < j.
Proof.
  unfold sorted. simpl. split.
  - inversion 1 as [|? ? Hs Hf]; subst. by rewrite Forall_forall in Hf.
  - intros [Hs Hf]. constructor; [done|]. by apply Forall_forall.
Qed.

Lemma sorted_head_gt L k :
  sorted L → (∀ k' v', head L = Some (k', v') → k < k') → ∀ j, j ∈ L.*1 → k < j.
Proof.
  destruct L as [|[k' v'] L]; simpl; [by intros _ _ j ?%elem_of_nil|].
  intros [_ Hgt]%sorted_cons Hh j [->|Hj]%elem_of_cons; [by eapply Hh|].
  specialize (Hh k' v' eq_refl). specialize (Hgt j Hj). lia.
Qed.

Lemma Merge_keys u l out ds : Merge u l out ds → ∀ k, k ∈ out.*1 → k ∈ u.*1 ∨ k ∈ l.*1.
Proof. induction 1; intros j; cbn [fmap list_fmap fst]; rewrite ?elem_of_cons; naive_solver. Qed.

Lemma Merge_sorted u l out ds : Merge u l out ds → sorted u → sorted l → sorted out.
Proof.
  induction 1 as [|k v u l out ds Hh Hm IH|k v u l out ds Hh Hm IH|k a b v d u l out ds Hv Hm IH];
    intros Hu Hl; [done|..]; apply sorted_cons.
  - apply sorted_cons in Hu as [Hu Hgt]. split; [by apply IH|].
    intros j [?|?]%(Merge_keys _ _ _ _ Hm j); [by apply Hgt|]. by eapply sorted_head_gt.
  - apply sorted_cons in Hl as [Hl Hgt]. split; [by apply IH|].
    intros j [?|?]%(Merge_keys _ _ _ _ Hm j); [|by apply Hgt]. by apply (sorted_head_gt u k).
  - apply sorted_cons in Hl as [Hl Hgt], Hu as [Hu Hgt']. split; [by apply IH|].
    intros j [?|?]%(Merge_keys _ _ _ _ Hm j); auto.
Qed.

(** *** The keys of sorted records *)
Definition first_key (ch : records) : nat := default 0 (fst <$> head ch).
Definition last_key (ch : records) : nat := default 0 (fst <$> last ch).

Lemma sorted_app_lt ch ch' x y : sorted (ch ++ ch') → x ∈ ch → y ∈ ch' → x.1 < y.1.
Proof.
  unfold sorted. rewrite fmap_app. intros Hs Hx Hy.
  apply (StronglySorted_app_1_elem_of lt ch.*1 ch'.*1); [done|by apply list_elem_of_fmap_2..].
Qed.

Lemma sorted_app_inv ch ch' : sorted (ch ++ ch') → sorted ch ∧ sorted ch'.
Proof.
  unfold sorted. rewrite fmap_app. intros Hs.
  split; [by apply StronglySorted_app_1_l in Hs|by apply StronglySorted_app_1_r in Hs].
Qed.

(** The keys of a block lie between its first and its last. *)
Lemma key_bounds ch kv : sorted ch → kv ∈ ch → first_key ch ≤ kv.1 ≤ last_key ch.
Proof.
  intros Hs Hkv. unfold first_key, last_key. split.
  - destruct ch as [|x ch]; [by apply elem_of_nil in Hkv|]. simpl.
    apply elem_of_cons in Hkv as [->|Hin]; [lia|].
    pose proof (sorted_app_lt [x] ch x kv Hs ltac:(set_solver) Hin). lia.
  - destruct ch as [|x ch] using rev_ind; [by apply elem_of_nil in Hkv|]. rewrite last_snoc. simpl.
    apply elem_of_app in Hkv as [Hin|Hin].
    + pose proof (sorted_app_lt ch [x] kv x Hs Hin ltac:(set_solver)). lia.
    + apply list_elem_of_singleton in Hin as ->. lia.
Qed.

Lemma first_key_in ch : ch ≠ [] → ∃ kv, kv ∈ ch ∧ kv.1 = first_key ch.
Proof. destruct ch as [|x ch]; [done|]. exists x. set_solver. Qed.
Lemma last_key_in ch : ch ≠ [] → ∃ kv, kv ∈ ch ∧ kv.1 = last_key ch.
Proof.
  destruct ch as [|x ch] using rev_ind; [done|]. exists x. unfold last_key. rewrite last_snoc. set_solver.
Qed.

Lemma sorted_NoDup ch : sorted ch → NoDup ch.*1.
Proof.
  unfold sorted. induction 1 as [|k l Hs IH Hk]; constructor; [|done].
  intros Hin. rewrite Forall_forall in Hk. specialize (Hk k Hin). lia.
Qed.

(** The older value a newer one supersedes, when both are of the same kind. *)
Definition superseded (new old : ValueEx V) : option V :=
  match ValueEx_synced new with
  | Some _ => ValueEx_synced old
  | None => if contains_unsynced old then Some (ValueEx_get old) else None
  end.

Lemma compact_value_ex_superseded new old v d :
  compact_value_ex new old = Ok (v, d) → d = superseded new old.
Proof. unfold superseded. destruct new, old; simpl; congruence. Qed.

Definition compacted (new old : option (ValueEx V)) : option (ValueEx V) :=
  match new, old with
  | Some a, Some b => match compact_value_ex a b with Ok (v, _) => Some v | _ => None end
  | Some a, None => Some a
  | None, o => o
  end.

Lemma Merge_lookup u l out ds :
  Merge u l out ds → sorted u → sorted l → ∀ k, lk out k = compacted (lk u k) (lk l k).
Proof.
  induction 1 as [|k v u l out ds Hh Hm IH|k v u l out ds Hh Hm IH|k a b v d u l out ds Hv Hm IH];
    intros Hu Hl j; [done|..]; rewrite !lk_cons.
  - apply sorted_cons in Hu as [Hu Hgt]. rewrite IH by done.
    destruct (j =? k) eqn:E; bool_simpl; [|done]. subst.
    rewrite (lk_None l k); [done|]. intros Hk.
    specialize (sorted_head_gt l k Hl Hh k Hk). lia.
  - apply sorted_cons in Hl as [Hl Hgt]. rewrite IH by done.
    destruct (j =? k) eqn:E; bool_simpl; [|done]. subst.
    rewrite (lk_None u k); [done|]. intros Hk.
    specialize (sorted_head_gt u k Hu Hh k Hk). lia.
  - apply sorted_cons in Hl as [Hl _], Hu as [Hu _]. rewrite IH by done.
    destruct (j =? k); [|done]. simpl. by rewrite Hv.
Qed.

Definition weights (L : records) : nat := sum_list_with (λ kv, weight kv.2) L.

Lemma Merge_weights u l out ds :
  Merge u l out ds → weights u + weights l = weights out + length ds.
Proof.
  induction 1 as [| | |k a b v d u l out ds Hv Hm IH]; [done|unfold weights in *; simpl in *; lia..|].
  assert (weight v + length (option_list d) = weight a + weight b).
  { by destruct a, b; simplify_eq/=. }
  unfold weights in *. rewrite length_app, length_map. simpl. lia.
Qed.

Lemma Merge_drops u l out ds :
  Merge u l out ds → sorted u → sorted l → ∀ k x,
  (k, x) ∈ ds ↔ ∃ a b, lk u k = Some a ∧ lk l k = Some b ∧ superseded a b = Some x.
Proof.
  induction 1 as [|k v u l out ds Hh Hm IH|k v u l out ds Hh Hm IH|k a b v d u l out ds Hv Hm IH];
    intros Hu Hl j x.
  - rewrite elem_of_nil. split; [done|]. intros (a & b & Ha & _). done.
  - apply sorted_cons in Hu as [Hu Hgt]. rewrite IH, lk_cons by done.
    destruct (j =? k) eqn:E; bool_simpl; [|done]. subst.
    rewrite (lk_None u k), (lk_None l k); [naive_solver|..]; intros Hk;
      [specialize (sorted_head_gt l k Hl Hh k Hk)|specialize (Hgt k Hk)]; lia.
  - apply sorted_cons in Hl as [Hl Hgt]. rewrite IH, lk_cons by done.
    destruct (j =? k) eqn:E; bool_simpl; [|done]. subst.
    rewrite (lk_None u k), (lk_None l k); [naive_solver|..]; intros Hk;
      [specialize (Hgt k Hk)|specialize (sorted_head_gt u k Hu Hh k Hk)]; lia.
  - apply sorted_cons in Hl as [Hl Hgt], Hu as [Hu Hgt'].
    rewrite elem_of_app, IH, !lk_cons by done.
    rewrite (compact_value_ex_superseded a b v d Hv).
    rewrite list_elem_of_In, in_map_iff. setoid_rewrite <- list_elem_of_In.
    destruct (j =? k) eqn:E; bool_simpl.
    + subst. rewrite (lk_None u k), (lk_None l k);
        [|intros Hk; specialize (Hgt k Hk); lia|intros Hk; specialize (Hgt' k Hk); lia].
      assert (∀ y, y ∈ option_list (superseded a b) ↔ superseded a b = Some y) as Hy.
      { intros y. destruct (superseded a b); simpl; set_solver. }
      setoid_rewrite Hy. naive_solver.
    + naive_solver.
Qed.
End merge.

(** ** Claims *)

(** for every pair of states of one key, [compact_value_ex] keeps the newest value
    and the newest synced value, and drops exactly the superseded record; it reaches
    its [unreachable!] exactly on a pair that cannot arise in time order (a newer
    synced value above an older unsynced one). *)
Theorem compact_value_correct {V} (new old : ValueEx V) :
  (compact_value_ex new old = Panic ↔ ¬ compat new old) ∧
  ∀ v d, compact_value_ex new old = Ok (v, d) →
    ValueEx_get v = ValueEx_get new ∧
    ValueEx_synced v = (match ValueEx_synced new with
                        | Some s => Some s | None => ValueEx_synced old end) ∧
    d = superseded new old ∧ weight v + length (option_list d) = weight new + weight old.
Proof.
  split.
  - split; [|apply compact_value_ex_panic]. intros Hp Hc.
    destruct (compact_value_ex_spec new old Hc) as (? & ? & ? & _). congruence.
  - intros v d Hv. split_and!; [..|by eapply compact_value_ex_superseded|];
      by destruct new, old; simplify_eq/=.
Qed.


