(* ===== verification/BlockAlloc.v ===== *)
(** * BlockAlloc: [core/src/layers/5-disk/block_alloc.rs]

    The global allocator of user-data blocks ([AllocTable], a bitmap whose set bits
    are free blocks) and the per-TX recorder of changes ([BlockAlloc]) with its log
    format.  The log store is seen through what the code does with it: the bytes it
    appends to a diff log, and the bytes it reads back on recovery.  The crates
    [pod] (bytes of a block id) and [postcard] (bytes of the bitmap) are classes with
    their documented round-trip laws. *)
From S2P Require Import Prelude BitMap Bio.

(** [postcard] on bitmaps: deserialisation reads a prefix and ignores the rest. *)
Class BitMapPostcard := {
  pc_to_bytes : BitMap → list byte;
  pc_from_bytes : list byte → option BitMap;
}.
Class BitMapPostcardSpec (P : BitMapPostcard) := {
  pc_roundtrip bm pad : pc_from_bytes (pc_to_bytes bm ++ pad) = Some bm;
  pc_nonempty bm : pc_to_bytes bm ≠ [];
}.

Inductive AllocDiff := DAlloc | DDealloc | DInvalid.

#[global] Instance AllocDiff_eq_dec : EqDecision AllocDiff.
Proof. solve_decision. Defined.

(** The [repr(u8)] discriminants. *)
Definition diff_to_u8 (d : AllocDiff) : byte :=
  match d with DAlloc => 3%Z | DDealloc => 7%Z | DInvalid => 8%Z end.

(** [From<u8> for AllocDiff]. *)
Definition diff_from_u8 (value : byte) : AllocDiff :=
  if Z.eqb value 3 then DAlloc else if Z.eqb value 7 then DDealloc else DInvalid.

Definition DIFF_RECORD_SIZE : nat := 1 + BID_SIZE.
Definition MAX_BUF_BLOCKS : nat := 1024.

Section alloc.
Context {B : Bittle}.

Record AllocTable := mkAllocTable {
  bitmap : BitMap;
  next_avail : nat;
  nblocks : nat;
  is_dirty : bool;
  num_free : nat;
}.

Definition AllocTable_new (nblocks : nat) : AllocTable :=
  mkAllocTable (repeat true nblocks) 0 nblocks false nblocks.

(** [AllocTable::alloc]. *)
Definition table_alloc (t : AllocTable) : res (option nat * AllocTable) :=
  first ← first_one (bitmap t) (next_avail t);
  hba ← (match first with
         | Some hba => Ok (Some hba)
         | None => first_one (bitmap t) 0
         end);
  match hba with
  | None => Ok (None, t)
  | Some hba =>
      bm ← BitMap.set (bitmap t) hba false;
      Ok (Some hba, mkAllocTable bm (hba + 1) (nblocks t) (is_dirty t) (num_free t))
  end.

(** [AllocTable::do_alloc_batch]; [None] is the early return of [?]. *)
Definition do_alloc_batch (t : AllocTable) (count : nat) : res (option (list nat) * AllocTable) :=
  _ ← assert_ (0 <? count);
  start ← (if nblocks t <? next_avail t + count then first_one (bitmap t) 0
           else Ok (Some (next_avail t)));
  match start with
  | None => Ok (None, t)
  | Some start =>
      first ← first_ones (bitmap t) start count;
      hbas ← (match first with
              | Some hbas => Ok (Some hbas)
              | None =>
                  again ← first_one (bitmap t) 0;
                  match again with
                  | None => Ok None
                  | Some start => first_ones (bitmap t) start count
                  end
              end);
      match hbas with
      | None => Ok (None, t)
      | Some hbas =>
          bm ← foldM (λ bm hba, BitMap.set bm hba false) (bitmap t) hbas;
          lst ← unwrap (last hbas);
          Ok (Some hbas, mkAllocTable bm (lst + 1) (nblocks t) (is_dirty t) (num_free t))
      end
  end.

(** [AllocTable::alloc_batch]: [None] while the caller waits for free blocks. *)
Definition alloc_batch (t : AllocTable) (count : nat) : res (option (list nat * AllocTable)) :=
  if num_free t <? count then Ok None else
  '(o, t') ← do_alloc_batch t count;
  hbas ← unwrap o;
  _ ← assert_ (length hbas =? count);
  n ← usub (num_free t') count;
  Ok (Some (hbas, mkAllocTable (bitmap t') (next_avail t') (nblocks t') true n)).

Definition AVG_ALLOC_COUNT : nat := 1024.

(** [AllocTable::set_deallocated]; the flag says whether a waiter is notified. *)
Definition set_deallocated (t : AllocTable) (nth : nat) : res (bool * AllocTable) :=
  bm ← BitMap.set (bitmap t) nth true;
  let n := num_free t + 1 in
  Ok (AVG_ALLOC_COUNT <=? n, mkAllocTable bm (next_avail t) (nblocks t) (is_dirty t) n).

(** ** The per-TX diff table *)
Definition alloc_block (diff_table : gmap nat AllocDiff) (block_id : nat) : res (gmap nat AllocDiff) :=
  _ ← assert_ (bool_decide (diff_table !! block_id ≠ Some DAlloc));
  Ok (<[block_id := DAlloc]> diff_table).

Definition dealloc_block (diff_table : gmap nat AllocDiff) (block_id : nat) : res (gmap nat AllocDiff) :=
  _ ← assert_ (bool_decide (diff_table !! block_id ≠ Some DDealloc));
  Ok (<[block_id := DDealloc]> diff_table).

(** [BlockAlloc::update_alloc_table]. *)
Definition update_alloc_table (diff_table : gmap nat AllocDiff) (t : AllocTable)
    : res (bool * AllocTable) :=
  '(bm, num_dealloc) ←
    foldM (λ '(bm, num_dealloc) '(block_id, block_diff),
      match block_diff with
      | DAlloc =>
          b ← test_bit bm block_id; _ ← assert_ (negb b); Ok (bm, num_dealloc)
      | DDealloc =>
          b ← test_bit bm block_id; _ ← assert_ (negb b);
          bm ← BitMap.set bm block_id true;
          Ok (bm, num_dealloc + 1)
      | DInvalid => Panic
      end) (bitmap t, 0) (bt_iter diff_table);
  let n := num_free t + num_dealloc in
  Ok (AVG_ALLOC_COUNT <=? n, mkAllocTable bm (next_avail t) (nblocks t) (is_dirty t) n).

Context {P : BidPod}.

Definition pad_to_block (buf : list byte) : list byte :=
  vec_resize buf (align_up (length buf) BLOCK_SIZE) 0%Z.

(** The record loop of [BlockAlloc::update_diff_log]: the buffers appended to the
    diff log so far, and the buffer being filled. *)
Definition diff_log_loop (max_size : nat) (st : list (list byte) * list byte) (r : nat * AllocDiff)
    : list (list byte) * list byte :=
  let '(out, diff_buf) := st in
  let diff_buf := diff_buf ++ [diff_to_u8 r.2] ++ bid_bytes r.1 in
  if max_size <? length diff_buf + DIFF_RECORD_SIZE
  then (out ++ [pad_to_block diff_buf], [])
  else (out, diff_buf).

(** [BlockAlloc::update_diff_log]: [None] if no log is created, else the buffers
    appended to it. *)
Definition update_diff_log (diff_table : gmap nat AllocDiff) : option (list (list byte)) :=
  if bool_decide (diff_table = ∅) then None else
  let '(out, diff_buf) :=
    foldl (diff_log_loop (MAX_BUF_BLOCKS * BLOCK_SIZE)) ([], []) (bt_iter diff_table) in
  match diff_buf with
  | [] => Some out
  | _ => Some (out ++ [pad_to_block diff_buf])
  end.

(** The [while] loop of [recover] over the bytes of one diff log. *)
Fixpoint replay_loop (fuel : nat) (buf : list byte) (offset : nat) (bm : BitMap) : res BitMap :=
  match fuel with
  | 0 => Panic
  | S fuel =>
      lim ← usub (length buf) DIFF_RECORD_SIZE;
      if lim <? offset then Ok bm else
      v ← index buf offset;
      let offset := offset + 1 in
      match diff_from_u8 v with
      | DInvalid => replay_loop fuel buf offset bm
      | d =>
          bytes ← slice buf offset (offset + BID_SIZE);
          let bid := bid_from_bytes bytes in
          bm ← BitMap.set bm bid (bool_decide (d = DDealloc));
          replay_loop fuel buf (offset + BID_SIZE) bm
      end
  end.

Definition replay_log (bm : BitMap) (buf : list byte) : res BitMap :=
  if length buf =? 0 then Err TxAborted (* [Buf::alloc(0)] *) else
  replay_loop (S (length buf)) buf 0 bm.

Context {PC : BitMapPostcard}.

(** What the log store holds for the allocator: the block validity table and the
    diff logs by id; [None] is an absent bucket. *)
Record AllocStore := mkAllocStore {
  bvt : option (list byte);
  bal : option (list (nat * list byte));
}.

(** [AllocTable::recover]: every error aborts the TX; the diff logs are replayed in the order of their ids. *)
Definition recover (n : nat) (s : AllocStore) : res AllocTable :=
  bm ← (match bvt s with
        | Some buf => ok_or (pc_from_bytes buf) TxAborted
        | None => Ok (repeat true n)
        end);
  bm ← (match bal s with
        | None => Ok bm
        | Some logs => foldM replay_log bm (merge_sort key_le logs).*2
        end);
  first ← first_one bm 0;
  Ok (mkAllocTable bm (default 0 first) n false (count_ones bm)).

Definition BITMAP_MAX_BLOCKS : nat := 1792.

(** [AllocTable::do_compaction]: the new table replaces the old one and all diff
    logs. *)
Definition do_compaction (t : AllocTable) (s : AllocStore) : res (AllocTable * AllocStore) :=
  if negb (is_dirty t) then Ok (t, s) else
  let ser := pc_to_bytes (bitmap t) in
  if BITMAP_MAX_BLOCKS * BLOCK_SIZE <? length ser then Err InvalidArgs else
  let ser_buf := ser ++ replicate (BITMAP_MAX_BLOCKS * BLOCK_SIZE - length ser) 0%Z in
  let ser_buf := vec_resize ser_buf (align_up (length ser) BLOCK_SIZE) 0%Z in
  Ok (mkAllocTable (bitmap t) (next_avail t) (nblocks t) false (num_free t),
      mkAllocStore (Some ser_buf) (match bal s with Some _ => Some [] | None => None end)).
End alloc.

(** ** The free count *)
Section table_spec.
Context {B : Bittle} {HB : BittleSpec B}.
Implicit Types (t : AllocTable) (bm : BitMap).

Definition is_free t (i : nat) : bool := bget (bitmap t) i.
Definition free_cnt bm : nat := length (ones_from bm 0).

(** [num_free] is the number of free blocks and the search start is in range. *)
Definition at_wf t : Prop :=
  wf (bitmap t) ∧ nbits (bitmap t) = nblocks t ∧ 0 < nblocks t ∧
  num_free t = free_cnt (bitmap t) ∧ next_avail t ≤ nblocks t.

Lemma AllocTable_new_wf n : 0 < n → at_wf (AllocTable_new n).
Proof.
  intros Hn. unfold at_wf. simpl. split; [apply repeat_wf|]. rewrite repeat_nbits.
  split; [done|]. split; [done|]. split; [|lia]. unfold free_cnt, ones_from.
  rewrite repeat_nbits, Nat.sub_0_r, filter_all, length_seq; [done|].
  intros x Hx%elem_of_seq. rewrite repeat_bit. apply Nat.ltb_lt. lia.
Qed.

Lemma free_cnt_set_false bm bm' i :
  nbits bm' = nbits bm → (∀ j, bget bm' j = if j =? i then false else bget bm j) →
  i < nbits bm → bget bm i = true → free_cnt bm = S (free_cnt bm').
Proof.
  intros Hn Hb Hi Hu. pose proof (zeros_set_false bm bm' i Hn Hb Hi Hu).
  pose proof (ones_zeros_length bm). pose proof (ones_zeros_length bm'). unfold free_cnt. lia.
Qed.

Lemma free_cnt_set_true bm bm' i :
  nbits bm' = nbits bm → (∀ j, bget bm' j = if j =? i then true else bget bm j) →
  i < nbits bm → bget bm i = false → free_cnt bm' = S (free_cnt bm).
Proof.
  intros Hn Hb Hi Hu. pose proof (zeros_set_true bm bm' i Hn Hb Hi Hu).
  pose proof (ones_zeros_length bm). pose proof (ones_zeros_length bm'). unfold free_cnt. lia.
Qed.

Lemma take_blocks_ok hbas : ∀ bm,
  wf bm → NoDup hbas → (∀ i, i ∈ hbas → i < nbits bm ∧ bget bm i = true) →
  ∃ bm', foldM (λ bm hba, BitMap.set bm hba false) bm hbas = Ok bm' ∧ wf bm' ∧
    nbits bm' = nbits bm ∧ free_cnt bm' + length hbas = free_cnt bm ∧
    ∀ j, bget bm' j = bget bm j && negb (bool_decide (j ∈ hbas)).
Proof.
  induction hbas as [|i hbas IH]; intros bm Hwf Hnd Hin; cbn [foldM].
  { exists bm. do 3 (split; [done|]). split; [simpl; lia|]. intros j.
    rewrite bool_decide_eq_false_2 by apply not_elem_of_nil. by rewrite andb_true_r. }
  apply NoDup_cons in Hnd as [Hni Hnd]. destruct (Hin i ltac:(by left)) as [Hi Hu].
  destruct (set_ok bm i false Hwf Hi) as (bm1 & -> & Hwf1 & Hn1 & Hb1).
  destruct (IH bm1 Hwf1 Hnd) as (bm2 & -> & Hwf2 & Hn2 & Hc2 & Hb2).
  { intros k Hk. rewrite Hn1, Hb1, (proj2 (Nat.eqb_neq _ _)) by (intros ->; done).
    apply Hin. by right. }
  exists bm2. split; [done|]. split; [done|]. split; [congruence|]. split.
  - rewrite (free_cnt_set_false bm bm1 i) by done. simpl. lia.
  - intros j. rewrite Hb2, Hb1. destruct (j =? i) eqn:E; bool_simpl.
    + subst. rewrite (bool_decide_eq_true_2 (i ∈ i :: hbas)) by by left.
      by rewrite andb_false_r.
    + f_equal. f_equal. apply bool_decide_ext. rewrite elem_of_cons. naive_solver.
Qed.

(** From its least element on, the list of free blocks is complete. *)
Lemma ones_from_first bm k :
  head (ones_from bm 0) = Some k → ones_from bm k = ones_from bm 0 ∧ k < nbits bm.
Proof.
  intros Hk. unfold ones_from in *. rewrite Nat.sub_0_r in *.
  pose proof (head_filter_seq_spec (bget bm) 0 (nbits bm)) as Hsp. rewrite Hk in Hsp.
  destruct Hsp as (Hr & _ & Hlow). split; [|lia].
  replace (nbits bm) with (k + (nbits bm - k)) at 2 by lia.
  rewrite seq_app, List.filter_app, (filter_none _ (seq 0 k)); [done|].
  intros x Hx%elem_of_seq. apply Hlow. lia.
Qed.

Lemma ones_from_length bm k : length (ones_from bm k) ≤ nbits bm - k.
Proof. unfold ones_from. etransitivity; [apply List.filter_length_le|]. by rewrite length_seq. Qed.

Lemma take_ones bm from count :
  wf bm → count ≤ length (ones_from bm from) →
  let hbas := take count (ones_from bm from) in
  length hbas = count ∧ NoDup hbas ∧ StronglySorted lt hbas ∧ ∀ i, i ∈ hbas → i < nbits bm ∧ bget bm i = true.
Proof.
  intros Hwf Hle hbas. split_and!.
  - subst hbas. rewrite length_take. lia.
  - apply (sublist_NoDup _ (ones_from bm from)); [|apply sublist_take].
    apply NoDup_ListNoDup, List.NoDup_filter, seq_NoDup.
  - assert (Hs : StronglySorted lt (ones_from bm from)) by apply StronglySorted_lfilter, StronglySorted_seq.
    rewrite <- (take_drop count (ones_from bm from)) in Hs. by apply StronglySorted_app_1_l in Hs.
  - intros i Hi. apply elem_of_take in Hi as (j & Hj & _).
    apply list_elem_of_lookup_2, elem_of_ones in Hj. tauto.
Qed.

(** The search of [do_alloc_batch] succeeds whenever enough blocks are free. *)
Lemma do_alloc_batch_ok t count :
  at_wf t → 0 < count ≤ num_free t →
  ∃ hbas t', do_alloc_batch t count = Ok (Some hbas, t') ∧ length hbas = count ∧ NoDup hbas ∧ StronglySorted lt hbas ∧
    (∀ i, i ∈ hbas → i < nblocks t ∧ is_free t i = true) ∧
    wf (bitmap t') ∧ nbits (bitmap t') = nblocks t ∧ nblocks t' = nblocks t ∧
    num_free t' = num_free t ∧ is_dirty t' = is_dirty t ∧ next_avail t' ≤ nblocks t ∧
    free_cnt (bitmap t') + count = free_cnt (bitmap t) ∧
    ∀ j, is_free t' j = is_free t j && negb (bool_decide (j ∈ hbas)).
Proof.
  intros (Hwf & Hn & Hpos & Hnf & Hna) [Hc0 Hcount]. unfold free_cnt in Hnf.
  destruct (ones_from (bitmap t) 0) as [|k ones] eqn:Eo; [simpl in Hnf; lia|].
  destruct (ones_from_first (bitmap t) k) as [Hk Hklt]; [by rewrite Eo|].
  pose proof (ones_from_length (bitmap t) k) as Hkl. rewrite Hk, Eo in Hkl.
  assert (Hfull : first_ones (bitmap t) k count = Ok (Some (take count (ones_from (bitmap t) k)))).
  { rewrite first_ones_ok by (done || (simpl in *; lia)). rewrite Hk, Eo.
    by rewrite (proj2 (Nat.leb_le _ _)) by (simpl in *; lia). }
  assert (Hfrom : ∃ from, count ≤ length (ones_from (bitmap t) from) ∧
     ∀ (F : list nat → res (option (list nat) * AllocTable)),
     (start ← (if nblocks t <? next_avail t + count then first_one (bitmap t) 0
               else Ok (Some (next_avail t)));
      match start with
      | None => Ok (None, t)
      | Some start =>
        first ← first_ones (bitmap t) start count;
        hbas ← (match first with
              | Some hbas => Ok (Some hbas)
              | None => again ← first_one (bitmap t) 0;
                  match again with None => Ok None | Some start => first_ones (bitmap t) start count end
              end);
        match hbas with None => Ok (None, t) | Some hbas => F hbas end
      end) = F (take count (ones_from (bitmap t) from))).
  { destruct (nblocks t <? next_avail t + count) eqn:E; bool_simpl.
    - exists k. rewrite Hk, Eo. split; [simpl in *; lia|]. intros F.
      rewrite first_one_ok by (done || lia). rewrite Eo. cbn [head]. bind_step.
      rewrite Hfull, Hk, Eo. by bind_step.
    - destruct (decide (count ≤ length (ones_from (bitmap t) (next_avail t)))) as [Hge|Hlt].
      + exists (next_avail t). split; [done|]. intros F. bind_step.
        rewrite first_ones_ok by (done || lia). rewrite (proj2 (Nat.leb_le _ _)) by done. by bind_step.
      + exists k. rewrite Hk, Eo. split; [simpl in *; lia|]. intros F. bind_step.
        rewrite first_ones_ok by (done || lia). rewrite (proj2 (Nat.leb_gt _ _)) by lia. bind_step.
        rewrite first_one_ok by (done || lia). rewrite Eo. cbn [head]. bind_step.
        rewrite Hfull, Hk, Eo. by bind_step. }
  destruct Hfrom as (from & Hlen & HF).
  destruct (take_ones (bitmap t) from count Hwf Hlen) as (Hl & Hnd & Hsort & Hin).
  set (hbas := take count (ones_from (bitmap t) from)) in *.
  destruct (take_blocks_ok hbas (bitmap t) Hwf Hnd Hin) as (bm & Hfold & Hwf' & Hn' & Hfc & Hb).
  destruct (last hbas) as [lst|] eqn:El.
  2:{ apply last_None in El. rewrite El in Hl. simpl in Hl. lia. }
  exists hbas. eexists. split.
  { unfold do_alloc_batch. rewrite (proj2 (Nat.ltb_lt 0 count)) by done. cbn [assert_]. bind_step.
    rewrite HF, Hfold. bind_step. rewrite El. cbn [unwrap]. by bind_step. }
  do 3 (split; [done|]). split.
  { intros i Hi. unfold is_free. destruct (Hin i Hi). split; [lia|done]. }
  split; [done|]. split; [simpl; congruence|]. do 3 (split; [done|]). split; [|split; [simpl; lia|done]].
  simpl. destruct (Hin lst); [|lia]. apply last_Some in El as [l' ->]. set_solver.
Qed.

Lemma table_alloc_batch_ok t count :
  at_wf t → 0 < count ≤ num_free t →
  ∃ hbas t', alloc_batch t count = Ok (Some (hbas, t')) ∧ at_wf t' ∧ length hbas = count ∧ NoDup hbas ∧ StronglySorted lt hbas ∧
    nblocks t' = nblocks t ∧ num_free t' + count = num_free t ∧
    (∀ i, i ∈ hbas → i < nblocks t ∧ is_free t i = true) ∧ ∀ j, is_free t' j = is_free t j && negb (bool_decide (j ∈ hbas)).
Proof.
  intros Hw Hc. pose proof Hw as (Hwf & Hn & Hpos & Hnf & Hna).
  destruct (do_alloc_batch_ok t count Hw Hc)
    as (hbas & t' & Hd & Hl & Hnd & Hsort & Hin & Hwf' & Hn' & Hnb & Hnf' & _ & Hna' & Hfc & Hb).
  unfold alloc_batch. rewrite (proj2 (Nat.ltb_ge _ _)) by lia. rewrite Hd. bind_step.
  cbn [unwrap]. bind_step. rewrite Hl, Nat.eqb_refl. cbn [assert_]. bind_step.
  rewrite usub_ok by lia. bind_step. eexists _, _. split; [done|]. split; [|split_and!; try done; cbn; lia].
  unfold at_wf. simpl. split; [done|]. rewrite Hnb. split; [done|]. split; [done|]. split; lia.
Qed.

Lemma set_deallocated_ok t i :
  at_wf t → i < nblocks t → is_free t i = false →
  ∃ b t', set_deallocated t i = Ok (b, t') ∧ at_wf t' ∧ nblocks t' = nblocks t ∧ num_free t' = num_free t + 1 ∧
    ∀ j, is_free t' j = if j =? i then true else is_free t j.
Proof.
  intros (Hwf & Hn & Hpos & Hnf & Hna) Hi Hf. unfold set_deallocated. unfold is_free in Hf.
  destruct (set_ok (bitmap t) i true Hwf ltac:(lia)) as (bm & -> & Hwf' & Hn' & Hb). bind_step.
  eexists _, _. split; [done|]. split; [|done]. unfold at_wf. simpl.
  rewrite (free_cnt_set_true (bitmap t) bm i) by (done || lia). split; [done|].
  split; [congruence|]. split; [done|]. split; [lia|done].
Qed.
End table_spec.

(** ** The diff log *)
Section diff_log.
Context {B : Bittle} {HB : BittleSpec B} {P : BidPod} {HP : BidPodSpec P}.

Definition rec_bytes (r : nat * AllocDiff) : list byte := diff_to_u8 r.2 :: bid_bytes r.1.
Definition recs_bytes (l : list (nat * AllocDiff)) : list byte := concat (map rec_bytes l).

(** A log body: runs of records, each followed by zero padding. *)
Definition segs_bytes (segs : list (list (nat * AllocDiff) * nat)) : list byte :=
  concat (map (λ s, recs_bytes s.1 ++ replicate s.2 0%Z) segs).

Definition apply_diffs (bm : BitMap) (l : list (nat * AllocDiff)) : res BitMap :=
  foldM (λ bm r, BitMap.set bm r.1 (bool_decide (r.2 = DDealloc))) bm l.

Lemma rec_bytes_length r : length (rec_bytes r) = DIFF_RECORD_SIZE.
Proof. unfold rec_bytes. simpl. by rewrite bid_bytes_length. Qed.

Lemma recs_bytes_length l : length (recs_bytes l) = length l * DIFF_RECORD_SIZE.
Proof.
  induction l as [|r l IH]; [done|]. unfold recs_bytes in *. cbn [map concat].
  rewrite length_app, rec_bytes_length, IH. simpl. lia.
Qed.

Lemma replay_stop f buf offset bm :
  DIFF_RECORD_SIZE ≤ length buf → length (drop offset buf) < DIFF_RECORD_SIZE →
  replay_loop (S f) buf offset bm = Ok bm.
Proof.
  intros Hb Hd. rewrite length_drop in Hd. cbn [replay_loop]. rewrite usub_ok by done. bind_step.
  by rewrite (proj2 (Nat.ltb_lt _ _)) by lia.
Qed.

Lemma replay_pad f buf offset bm rest :
  DIFF_RECORD_SIZE ≤ length (drop offset buf) → drop offset buf = 0%Z :: rest →
  replay_loop (S f) buf offset bm = replay_loop f buf (offset + 1) bm.
Proof.
  intros Hl Hd. rewrite length_drop in Hl. cbn [replay_loop].
  assert (Hpos : 0 < DIFF_RECORD_SIZE) by (unfold DIFF_RECORD_SIZE; lia).
  rewrite usub_ok by lia. bind_step. rewrite (proj2 (Nat.ltb_ge _ _)) by lia.
  rewrite (index_ok _ _ 0%Z); [done|]. rewrite <- (Nat.add_0_r offset), <- lookup_drop, Hd. done.
Qed.

Lemma replay_record f buf offset bm r rest :
  r.2 ≠ DInvalid → drop offset buf = rec_bytes r ++ rest →
  replay_loop (S f) buf offset bm =
    (bm ← BitMap.set bm r.1 (bool_decide (r.2 = DDealloc));
     replay_loop f buf (offset + DIFF_RECORD_SIZE) bm).
Proof.
  intros Hv Hd. destruct r as [id d]. simpl in Hv.
  assert (Hl : length (drop offset buf) = DIFF_RECORD_SIZE + length rest).
  { by rewrite Hd, length_app, rec_bytes_length. }
  rewrite length_drop in Hl. unfold DIFF_RECORD_SIZE in Hl. cbn [replay_loop].
  rewrite usub_ok by (unfold DIFF_RECORD_SIZE; lia). bind_step.
  rewrite (proj2 (Nat.ltb_ge _ _)) by (unfold DIFF_RECORD_SIZE; lia).
  rewrite (index_ok _ _ (diff_to_u8 d)).
  2:{ rewrite <- (Nat.add_0_r offset), <- lookup_drop, Hd. done. }
  bind_step.
  assert (Hs : slice buf (offset + 1) (offset + 1 + BID_SIZE) = Ok (bid_bytes id)).
  { rewrite slice_ok by lia. f_equal. rewrite <- drop_drop, Hd. unfold rec_bytes. simpl.
    rewrite drop_0. replace (offset + 1 + BID_SIZE - (offset + 1)) with BID_SIZE by lia.
    rewrite <- (bid_bytes_length id). apply take_app_length. }
  replace (offset + DIFF_RECORD_SIZE) with (offset + 1 + BID_SIZE) by (unfold DIFF_RECORD_SIZE; lia).
  destruct d; [| |done]; cbn [diff_to_u8 diff_from_u8]; cbn -[replay_loop slice BitMap.set];
    rewrite Hs; bind_step; by rewrite bid_roundtrip.
Qed.

Lemma segs_short segs :
  length (segs_bytes segs) < DIFF_RECORD_SIZE → concat segs.*1 = [].
Proof.
  induction segs as [|[l z] segs IH]; [done|]. unfold segs_bytes in *. cbn [map concat fst snd].
  rewrite !length_app, recs_bytes_length. intros Hl. cbn. destruct l as [|r l]; [|cbn [length] in Hl; nia].
  apply IH. lia.
Qed.

Lemma replay_segs buf : ∀ segs offset f bm,
  DIFF_RECORD_SIZE ≤ length buf → drop offset buf = segs_bytes segs →
  length (segs_bytes segs) < f → Forall (λ r, r.2 ≠ DInvalid) (concat segs.*1) →
  replay_loop f buf offset bm = apply_diffs bm (concat segs.*1).
Proof.
  induction segs as [|[l z] segs IH]; intros offset f bm Hb Hd Hf Hv.
  { destruct f as [|f]; [lia|]. apply replay_stop; [done|]. rewrite Hd.
    unfold DIFF_RECORD_SIZE. simpl. lia. }
  revert offset f bm Hd Hf Hv. induction l as [|r l IHl].
  - induction z as [|z IHz]; intros offset f bm Hd Hf Hv; [by apply IH|].
    destruct (decide (length (drop offset buf) < DIFF_RECORD_SIZE)) as [Hlt|Hge].
    + rewrite Hd in Hlt. rewrite (segs_short _ Hlt). destruct f as [|f]; [lia|].
      apply replay_stop; [done|]. by rewrite Hd.
    + destruct f as [|f]; [lia|].
      assert (Hd' : drop offset buf = 0%Z :: segs_bytes (([], z) :: segs)) by (by rewrite Hd).
      rewrite (replay_pad f buf offset bm (segs_bytes (([], z) :: segs))) by (done || lia).
      apply (IHz (offset + 1)); [|cbn in Hf |- *; lia|done]. rewrite <- drop_drop, Hd'. done.
  - intros offset f bm Hd Hf Hv. destruct f as [|f]; [lia|].
    assert (Hd' : segs_bytes ((r :: l, z) :: segs) = rec_bytes r ++ segs_bytes ((l, z) :: segs)).
    { unfold segs_bytes, recs_bytes. cbn [map concat fst snd]. by rewrite <- !app_assoc. }
    rewrite Hd' in Hd, Hf. cbn [concat fmap list_fmap fst app] in Hv.
    apply Forall_cons in Hv as [Hv1 Hv2].
    rewrite (replay_record f buf offset bm r (segs_bytes ((l, z) :: segs))) by done.
    unfold apply_diffs. cbn [concat fmap list_fmap fst app foldM].
    destruct (BitMap.set bm r.1 _) as [bm1| |]; [|done..]. bind_step.
    apply (IHl (offset + DIFF_RECORD_SIZE)); [| |done].
    + rewrite <- drop_drop, Hd, drop_app_length'; [done|]. by rewrite rec_bytes_length.
    + rewrite length_app, rec_bytes_length in Hf. unfold DIFF_RECORD_SIZE in *. lia.
Qed.

(** What [update_diff_log] writes is such a body, with the records in order. *)
Lemma pad_to_block_eq buf : ∃ z, pad_to_block buf = buf ++ replicate z 0%Z.
Proof.
  unfold pad_to_block. rewrite vec_resize_grow; [by eexists|].
  apply align_up_ge, BLOCK_SIZE_pos.
Qed.

Lemma diff_log_loop_segs max L : ∀ out segs l,
  concat out = segs_bytes segs →
  ∃ out' segs' l', foldl (diff_log_loop max) (out, recs_bytes l) L = (out', recs_bytes l') ∧
    concat out' = segs_bytes segs' ∧ concat segs'.*1 ++ l' = concat segs.*1 ++ l ++ L.
Proof.
  induction L as [|r L IH]; intros out segs l Ho; cbn [foldl].
  { exists out, segs, l. by rewrite app_nil_r. }
  unfold diff_log_loop at 2.
  assert (Hr : recs_bytes l ++ [diff_to_u8 r.2] ++ bid_bytes r.1 = recs_bytes (l ++ [r])).
  { unfold recs_bytes. rewrite map_app, concat_app. simpl. by rewrite app_nil_r. }
  rewrite Hr. destruct (max <? _).
  - destruct (pad_to_block_eq (recs_bytes (l ++ [r]))) as [z Hz].
    destruct (IH (out ++ [pad_to_block (recs_bytes (l ++ [r]))]) (segs ++ [(l ++ [r], z)]) [])
      as (out' & segs' & l' & Hf & Hc & Hl).
    { rewrite concat_app, Ho, Hz. unfold segs_bytes. rewrite map_app, concat_app. done. }
    exists out', segs', l'. split; [exact Hf|]. split; [done|]. rewrite Hl, fmap_app, concat_app.
    cbn. rewrite app_nil_r. by rewrite <- !app_assoc.
  - destruct (IH out segs (l ++ [r]) Ho) as (out' & segs' & l' & Hf & Hc & Hl).
    exists out', segs', l'. split; [exact Hf|]. split; [done|]. rewrite Hl. by rewrite <- app_assoc.
Qed.

Lemma update_diff_log_segs tbl :
  tbl ≠ ∅ → ∃ bufs segs, update_diff_log tbl = Some bufs ∧ concat bufs = segs_bytes segs ∧
                         concat segs.*1 = bt_iter tbl.
Proof.
  intros Hne. unfold update_diff_log. rewrite bool_decide_eq_false_2 by done.
  destruct (diff_log_loop_segs (MAX_BUF_BLOCKS * BLOCK_SIZE) (bt_iter tbl) [] [] [] eq_refl)
    as (out & segs & l & Hf & Hc & Hl).
  change (@nil byte) with (recs_bytes []) at 1. rewrite Hf. cbn in Hl. destruct (recs_bytes l) as [|x y] eqn:El.
  - assert (l = []) as ->.
    { apply (f_equal length) in El. rewrite recs_bytes_length in El. unfold DIFF_RECORD_SIZE in El.
      simpl in El. destruct l; [done|simpl in El; lia]. }
    rewrite app_nil_r in Hl. by exists out, segs.
  - rewrite <- El. destruct (pad_to_block_eq (recs_bytes l)) as [z Hz].
    exists (out ++ [pad_to_block (recs_bytes l)]), (segs ++ [(l, z)]). split; [done|]. split.
    + rewrite concat_app, Hc, Hz. unfold segs_bytes. by rewrite map_app, concat_app.
    + rewrite fmap_app, concat_app. cbn. by rewrite app_nil_r.
Qed.

Lemma apply_diffs_ok L : ∀ bm,
  wf bm → NoDup L.*1 → (∀ k, k ∈ L.*1 → k < nbits bm) →
  ∃ bm', apply_diffs bm L = Ok bm' ∧ wf bm' ∧ nbits bm' = nbits bm ∧
    (∀ j, j ∉ L.*1 → bget bm' j = bget bm j) ∧
    (∀ j d, (j, d) ∈ L → bget bm' j = bool_decide (d = DDealloc)).
Proof.
  induction L as [|[k d] L IH]; intros bm Hwf Hnd Hin; unfold apply_diffs; cbn [foldM].
  { exists bm. do 3 (split; [done|]). split; [done|]. by intros j d ?%elem_of_nil. }
  cbn [fmap list_fmap fst] in *. apply NoDup_cons in Hnd as [Hni Hnd].
  destruct (set_ok bm k (bool_decide (d = DDealloc)) Hwf) as (bm1 & Hset & Hwf1 & Hn1 & Hb1);
    [apply Hin; by left|].
  cbn [fst snd]. rewrite Hset.
  destruct (IH bm1 Hwf1 Hnd) as (bm2 & H2 & Hwf2 & Hn2 & Hout & Hval).
  { intros j Hj. rewrite Hn1. apply Hin. by right. }
  exists bm2. split; [exact H2|]. split; [done|]. split; [congruence|]. split.
  - intros j Hj. apply not_elem_of_cons in Hj as [Hj1 Hj2]. rewrite Hout, Hb1 by done.
    by rewrite (proj2 (Nat.eqb_neq _ _)).
  - intros j x [Heq|Hj]%elem_of_cons; [|by apply Hval]. injection Heq as -> ->.
    rewrite Hout, Hb1 by done. by rewrite Nat.eqb_refl.
Qed.

(** The effect of a diff table on a bitmap. *)
Definition diffs_bit (tbl : gmap nat AllocDiff) (old : nat → bool) (j : nat) : bool :=
  match tbl !! j with Some DAlloc => false | Some DDealloc => true | _ => old j end.

Lemma apply_table_ok bm tbl :
  wf bm → (∀ k d, tbl !! k = Some d → k < nbits bm ∧ d ≠ DInvalid) →
  ∃ bm', apply_diffs bm (bt_iter tbl) = Ok bm' ∧ wf bm' ∧ nbits bm' = nbits bm ∧
    ∀ j, bget bm' j = diffs_bit tbl (bget bm) j.
Proof.
  intros Hwf Hv.
  assert (Hkey : ∀ k, k ∈ (bt_iter tbl).*1 ↔ is_Some (tbl !! k)).
  { intros k. rewrite list_elem_of_fmap. split.
    - intros ([k' d] & -> & Hd%elem_of_bt_iter). by exists d.
    - intros [d Hd]. exists (k, d). by rewrite elem_of_bt_iter. }
  destruct (apply_diffs_ok (bt_iter tbl) bm Hwf (NoDup_bt_iter tbl)) as (bm' & Hap & Hwf' & Hn & Hout & Hval).
  { intros k [d Hd]%Hkey. by apply (Hv k d). }
  exists bm'. do 3 (split; [done|]). intros j. unfold diffs_bit. destruct (tbl !! j) as [d|] eqn:E.
  - rewrite (Hval j d) by by rewrite elem_of_bt_iter. destruct (Hv j d E). by destruct d.
  - apply Hout. rewrite Hkey, E. by intros [??].
Qed.

Lemma replay_table bm tbl :
  wf bm → tbl ≠ ∅ → (∀ k d, tbl !! k = Some d → k < nbits bm ∧ d ≠ DInvalid) →
  ∃ bufs bm', update_diff_log tbl = Some bufs ∧ replay_log bm (concat bufs) = Ok bm' ∧
    wf bm' ∧ nbits bm' = nbits bm ∧ ∀ j, bget bm' j = diffs_bit tbl (bget bm) j.
Proof.
  intros Hwf Hne Hv. destruct (update_diff_log_segs tbl Hne) as (bufs & segs & Hu & Hc & Hs).
  destruct (apply_table_ok bm tbl Hwf Hv) as (bm' & Hap & Hrest).
  exists bufs, bm'. split; [done|]. split; [|done].
  assert (Hlen : DIFF_RECORD_SIZE ≤ length (concat bufs)).
  { rewrite Hc. destruct (decide (length (segs_bytes segs) < DIFF_RECORD_SIZE)) as [Hlt|]; [|lia].
    apply segs_short in Hlt. rewrite Hs in Hlt. exfalso. apply Hne.
    apply map_empty. intros k. destruct (tbl !! k) eqn:E; [|done].
    apply elem_of_bt_iter in E. rewrite Hlt in E. by apply elem_of_nil in E. }
  unfold replay_log. assert (0 < DIFF_RECORD_SIZE) by (unfold DIFF_RECORD_SIZE; lia).
  rewrite (proj2 (Nat.eqb_neq _ _)) by lia.
  rewrite (replay_segs (concat bufs) segs); [by rewrite Hs|done|done|rewrite <- Hc; lia|].
  rewrite Hs. apply Forall_forall. intros [k d] Hk%elem_of_bt_iter. by apply (Hv k d).
Qed.
End diff_log.

Section update_spec.
Context {B : Bittle} {HB : BittleSpec B}.
Implicit Types t : AllocTable.

(** The loop of [update_alloc_table] over entries whose blocks are all in use. *)
Lemma update_loop_ok L : ∀ bm n,
  wf bm → NoDup L.*1 →
  (∀ k d, (k, d) ∈ L → k < nbits bm ∧ bget bm k = false ∧ d ≠ DInvalid) →
  ∃ bm' n', foldM (λ '(bm, num_dealloc) '(block_id, block_diff),
      match block_diff with
      | DAlloc =>
          b ← test_bit bm block_id; _ ← assert_ (negb b); Ok (bm, num_dealloc)
      | DDealloc =>
          b ← test_bit bm block_id; _ ← assert_ (negb b);
          bm ← BitMap.set bm block_id true;
          Ok (bm, num_dealloc + 1)
      | DInvalid => Panic
      end) (bm, n) L = Ok (bm', n') ∧ wf bm' ∧ nbits bm' = nbits bm ∧
    free_cnt bm' + n = free_cnt bm + n' ∧
    ∀ j, bget bm' j = bget bm j || bool_decide ((j, DDealloc) ∈ L).
Proof.
  induction L as [|[k d] L IH]; intros bm n Hwf Hnd Hin; cbn [foldM].
  { exists bm, n. do 4 (split; [done|]). intros j.
    rewrite bool_decide_eq_false_2 by apply not_elem_of_nil. by rewrite orb_false_r. }
  cbn [fmap list_fmap fst] in Hnd. apply NoDup_cons in Hnd as [Hni Hnd].
  destruct (Hin k d ltac:(by left)) as (Hk & Hf & Hv).
  assert (Hne : ∀ j x, (j, x) ∈ L → j ≠ k).
  { intros j x Hj ->. apply Hni, list_elem_of_fmap. by exists (k, x). }
  destruct d; [| |done]; rewrite test_bit_ok, Hf by done; cbn [negb assert_]; bind_step.
  - destruct (IH bm n Hwf Hnd) as (bm2 & n2 & H2 & Hwf2 & Hn2 & Hc2 & Hb2).
    { intros j x Hj. apply Hin. by right. }
    exists bm2, n2. split; [exact H2|]. do 3 (split; [done|]). intros j. rewrite Hb2. f_equal.
    apply bool_decide_ext. rewrite elem_of_cons. naive_solver.
  - destruct (set_ok bm k true Hwf Hk) as (bm1 & Hset & Hwf1 & Hn1 & Hb1).
    rewrite Hset. bind_step.
    destruct (IH bm1 (n + 1) Hwf1 Hnd) as (bm2 & n2 & H2 & Hwf2 & Hn2 & Hc2 & Hb2).
    { intros j x Hj. rewrite Hn1, Hb1, (proj2 (Nat.eqb_neq _ _)) by eauto. apply Hin. by right. }
    exists bm2, n2. split; [exact H2|]. split; [done|]. split; [congruence|]. split.
    + rewrite (free_cnt_set_true bm bm1 k) in Hc2 by done. lia.
    + intros j. rewrite Hb2, Hb1. destruct (j =? k) eqn:E; bool_simpl.
      * subst. rewrite (bool_decide_eq_true_2 (_ ∈ (k, DDealloc) :: L)) by by left.
        by rewrite orb_true_r.
      * f_equal. apply bool_decide_ext. rewrite elem_of_cons. naive_solver.
Qed.
End update_spec.

(** ** Claims *)
Section claims.
Context {B : Bittle} {HB : BittleSpec B}.
Context {P : BidPod} {HP : BidPodSpec P} {PC : BitMapPostcard} {HPC : BitMapPostcardSpec PC}.

(** C14: the global block allocator keeps its invariant ([num_free] is the number of
    free blocks, the search hint is in range) and serves requests correctly.  A batch
    request for at most [num_free] blocks succeeds wherever the hint stands, without
    panic, with distinct, previously free, in-range blocks, which alone become used; a
    larger one waits; freeing a used block, and applying the diff table of a committed
    TX (whose blocks are all in use), free exactly the blocks named. *)
Theorem alloc_table_invariant t :
  at_wf t →
  (∀ count, 0 < count ≤ num_free t → ∃ hbas t', alloc_batch t count = Ok (Some (hbas, t')) ∧
     at_wf t' ∧ length hbas = count ∧ NoDup hbas ∧
     (∀ i, i ∈ hbas → i < nblocks t ∧ is_free t i = true) ∧
     ∀ j, is_free t' j = is_free t j && negb (bool_decide (j ∈ hbas))) ∧
  (∀ count, num_free t < count → alloc_batch t count = Ok None) ∧
  (∀ i, i < nblocks t → is_free t i = false → ∃ b t', set_deallocated t i = Ok (b, t') ∧
     at_wf t' ∧ ∀ j, is_free t' j = if j =? i then true else is_free t j) ∧
  (∀ tbl, (∀ k d, tbl !! k = Some d → k < nblocks t ∧ is_free t k = false ∧ d ≠ DInvalid) →
     ∃ b t', update_alloc_table tbl t = Ok (b, t') ∧ at_wf t' ∧
       ∀ j, is_free t' j = is_free t j || bool_decide (tbl !! j = Some DDealloc)).
Proof.
  intros Hw. pose proof Hw as (Hwf & Hn & Hpos & Hnf & Hna). split_and!.
  - intros count Hc. destruct (table_alloc_batch_ok t count Hw Hc) as (hbas & t' & Ha & Hw' & Hl & Hnd & _ & _ & _ & Hin & Hb).
    by exists hbas, t'.
  - intros count Hc. unfold alloc_batch. by rewrite (proj2 (Nat.ltb_lt _ _)).
  - intros i Hi Hf. destruct (set_deallocated_ok t i Hw Hi Hf) as (b & t' & Hs & Hw' & _ & _ & Hb). by exists b, t'.
  - intros tbl Hv. unfold update_alloc_table.
    destruct (update_loop_ok (bt_iter tbl) (bitmap t) 0 Hwf (NoDup_bt_iter tbl))
      as (bm & n & Hl & Hwf' & Hn' & Hc & Hb).
    { intros k d Hk%elem_of_bt_iter. rewrite Hn. by apply Hv. }
    rewrite Hl. bind_step. eexists _, _. split; [done|]. split.
    + unfold at_wf. simpl. split; [done|]. split; [congruence|]. split; [done|]. split; [lia|done].
    + intros j. unfold is_free. simpl. rewrite Hb. f_equal. apply bool_decide_ext.
      by rewrite elem_of_bt_iter.
Qed.

(** C15: the diff log round-trips.  For every non-empty diff table the bytes that
    [update_diff_log] appends to the log (nine-byte records, flushed in buffers padded
    with zeros to whole blocks) replay, byte by byte over the padding, to exactly the
    effect of the table on the bitmap: allocated blocks become used, deallocated
    ones free, all others keep their state. *)
Theorem diff_log_roundtrip bm tbl :
  wf bm → tbl ≠ ∅ → (∀ k d, tbl !! k = Some d → k < len bm ∧ d ≠ DInvalid) →
  ∃ bufs bm', update_diff_log tbl = Some bufs ∧ replay_log bm (concat bufs) = Ok bm' ∧
    wf bm' ∧ len bm' = len bm ∧ ∀ j, bget bm' j = diffs_bit tbl (bget bm) j.
Proof. apply replay_table. Qed.

(** a compaction of the validity table is durable: recovering from the store it
    leaves (whatever diff logs the store held before) yields the same bitmap, a
    correct free count and an allocator that satisfies the invariant; and the diff
    log of a TX committed afterwards is replayed on top of it. *)
Theorem compaction_recovers t s t1 s1 :
  at_wf t → is_dirty t = true → do_compaction t s = Ok (t1, s1) →
  (∃ t', recover (nblocks t) s1 = Ok t' ∧ at_wf t' ∧ ∀ j, is_free t' j = is_free t j) ∧
  (∀ tbl id bufs, (∀ k d, tbl !! k = Some d → k < nblocks t ∧ d ≠ DInvalid) →
     update_diff_log tbl = Some bufs →
     ∃ t', recover (nblocks t) (mkAllocStore (bvt s1) (Some [(id, concat bufs)])) = Ok t' ∧
       at_wf t' ∧ ∀ j, is_free t' j = diffs_bit tbl (is_free t) j).
Proof.
  intros (Hwf & Hn & Hpos & Hnf & Hna) Hdirty Hc. unfold do_compaction in Hc. rewrite Hdirty in Hc.
  cbn [negb] in Hc. set (M := BITMAP_MAX_BLOCKS * BLOCK_SIZE) in Hc. clearbody M.
  destruct (_ <? length _) eqn:E; [done|]. bool_simpl. injection Hc as <- <-. cbn [bvt]. set (ser := pc_to_bytes (bitmap t)) in *.
  assert (Hser : ∃ pad, vec_resize (ser ++ replicate (M - length ser) 0%Z)
                          (align_up (length ser) BLOCK_SIZE) 0%Z = ser ++ pad).
  { pose proof (align_up_ge (length ser) BLOCK_SIZE BLOCK_SIZE_pos). unfold vec_resize.
    rewrite take_app_ge by lia. rewrite <- app_assoc. by eexists. }
  destruct Hser as [pad ->]. unfold ser.
  assert (Hfin : ∀ bm, wf bm → nbits bm = nblocks t →
            ∃ t', (first ← first_one bm 0;
                   Ok (mkAllocTable bm (default 0 first) (nblocks t) false (count_ones bm))) = Ok t' ∧
                  at_wf t' ∧ ∀ j, is_free t' j = bget bm j).
  { intros bm Hwfb Hnb. rewrite first_one_ok by (done || lia). bind_step. eexists. split; [done|].
    split; [|done]. unfold at_wf. simpl. split; [done|]. split; [done|]. split; [done|].
    split; [by rewrite count_ones_ok|].
    destruct (head (ones_from bm 0)) as [k|] eqn:Ek; simpl; [|lia].
    apply ones_from_first in Ek as [_ ?]. lia. }
  split.
  - unfold recover. cbn [bvt bal]. rewrite pc_roundtrip. cbn [ok_or]. bind_step.
    destruct (bal s); cbn; by apply Hfin.
  - intros tbl id bufs Hv Hu.
    assert (Hne : tbl ≠ ∅) by (intros ->; by vm_compute in Hu).
    destruct (replay_table (bitmap t) tbl Hwf Hne) as (bufs' & bm' & Hu' & Hr & Hwf' & Hn' & Hb).
    { intros k d Hk. rewrite Hn. by apply Hv. }
    rewrite Hu in Hu'. simplify_eq. unfold recover. cbn [bvt bal].
    rewrite pc_roundtrip. cbn [ok_or]. bind_step.
    change (merge_sort key_le [(id, concat bufs')]) with [(id, concat bufs')]. cbn [fmap list_fmap snd foldM].
    rewrite Hr. bind_step. destruct (Hfin bm' Hwf' ltac:(congruence)) as (t' & Ht & Hw & Hf).
    exists t'. split; [exact Ht|]. split; [done|]. intros j. rewrite Hf, Hb. done.
Qed.

(** [AllocTable::alloc], unlike the batch operation, does not keep the invariant: it
    takes a block without updating [num_free]; and when the last block was the
    latest one allocated it panics on the out-of-range search start, free blocks or
    not. *)
Theorem single_alloc_breaks_count t :
  at_wf t →
  (∀ h t', table_alloc t = Ok (Some h, t') → num_free t' = num_free t ∧ ¬ at_wf t') ∧
  (next_avail t = nblocks t → table_alloc t = Panic).
Proof.
  intros (Hwf & Hn & Hpos & Hnf & Hna). split.
  - intros h t' Ha. unfold table_alloc in Ha.
    destruct (decide (next_avail t = nblocks t)) as [He|He].
    { unfold first_one in Ha. by rewrite (check_index_panic _ (next_avail t)) in Ha by lia. }
    rewrite (first_one_ok _ (next_avail t)) in Ha by (done || lia). rewrite bind_Ok in Ha. cbv beta in Ha.
    assert (Hh : ∃ o, (match head (ones_from (bitmap t) (next_avail t)) with
                  | Some hba => Ok (Some hba) | None => first_one (bitmap t) 0 end) = Ok o ∧
                 ∀ k, o = Some k → k < nbits (bitmap t) ∧ bget (bitmap t) k = true).
    { destruct (head (ones_from (bitmap t) (next_avail t))) as [k|] eqn:Ek.
      - exists (Some k). split; [done|]. intros ? [= <-]. apply head_Some_elem_of in Ek.
        apply elem_of_ones in Ek. tauto.
      - rewrite first_one_ok by (done || lia). eexists. split; [done|]. intros k Hk.
        apply head_Some_elem_of, elem_of_ones in Hk. tauto. }
    destruct Hh as (o & Ho & Hk). rewrite Ho in Ha. rewrite bind_Ok in Ha. cbv beta in Ha.
    destruct o as [k|]; [|done]. destruct (Hk k eq_refl) as [Hlt Hbit].
    destruct (set_ok (bitmap t) k false Hwf Hlt) as (bm & Hs & Hwf' & Hn' & Hb).
    rewrite Hs in Ha. rewrite bind_Ok in Ha. simplify_eq. split; [done|].
    intros (_ & _ & _ & Hc & _). simpl in Hc.
    rewrite (free_cnt_set_false (bitmap t) bm h) in Hnf by done. lia.
  - intros He. unfold table_alloc, first_one.
    by rewrite (check_index_panic _ (next_avail t)) by lia.
Qed.
End claims.

(** *** Witnesses *)
#[local] Existing Instance BittleZ.
#[local] Existing Instance BittleZ_spec.

#[local] Existing Instance lePod.
#[local] Existing Instance lePod_spec.

#[local] Instance listPostcard : BitMapPostcard := {|
  pc_to_bytes bm := Z.of_nat (nbits bm) :: Z.of_nat (length (bits bm)) :: bits bm;
  pc_from_bytes l := match l with
    | n :: k :: l => Some (mkBitMap (take (Z.to_nat k) l) (Z.to_nat n)) | _ => None end;
|}.

#[local] Instance listPostcard_spec : BitMapPostcardSpec listPostcard.
Proof.
  split; [|done]. intros [ws n] pad. simpl. rewrite !Nat2Z.id. by rewrite take_app_length.
Qed.

Lemma demo_alloc_wf n : 0 < n → at_wf (AllocTable_new n).
Proof. apply AllocTable_new_wf. Qed.

Lemma alloc_table_invariant_witness :
  ∃ hbas t', alloc_batch (AllocTable_new 70) 66 = Ok (Some (hbas, t')) ∧ length hbas = 66.
Proof.
  destruct (alloc_table_invariant (AllocTable_new 70) (demo_alloc_wf 70 ltac:(lia))) as [H _].
  destruct (H 66) as (hbas & t' & Ha & _ & Hl & _); [simpl; lia|].
  exists hbas, t'. split; [exact Ha|exact Hl].
Defined.

Lemma diff_log_roundtrip_witness :
  ∃ bufs bm', update_diff_log {[3 := DAlloc; 300 := DDealloc]} = Some bufs ∧
    replay_log (repeat true 400) (concat bufs) = Ok bm' ∧ bget bm' 3 = false.
Proof.
  destruct (diff_log_roundtrip (repeat true 400) {[3 := DAlloc; 300 := DDealloc]})
    as (bufs & bm' & H1 & H2 & _ & _ & Hb).
  - apply repeat_wf.
  - by vm_compute.
  - intros k d Hk. unfold len. rewrite repeat_nbits.
    apply lookup_insert_Some in Hk as [[<- <-]|[_ Hk]]; [split; [lia|discriminate]|].
    apply lookup_singleton_Some in Hk as [<- <-]. split; [lia|discriminate].
  - exists bufs, bm'. split; [exact H1|]. split; [exact H2|]. by rewrite Hb.
Defined.

Definition demo_dirty : AllocTable := mkAllocTable (repeat true 5) 0 5 true 5.

Lemma compaction_recovers_witness :
  ∃ t1 s1 t', do_compaction demo_dirty (mkAllocStore None None) = Ok (t1, s1) ∧
    recover 5 s1 = Ok t' ∧ is_free t' 4 = true.
Proof.
  destruct (do_compaction demo_dirty (mkAllocStore None None)) as [[t1 s1]| |] eqn:E.
  - destruct (compaction_recovers demo_dirty (mkAllocStore None None) t1 s1) as [(t' & H & _ & Hf) _].
    + exact (demo_alloc_wf 5 ltac:(lia)).
    + reflexivity.
    + exact E.
    + exists t1, s1, t'. split; [reflexivity|]. split; [exact H|]. rewrite Hf. vm_compute. reflexivity.
  - unfold do_compaction in E. cbn [demo_dirty is_dirty negb] in E.
    destruct (_ <? _) eqn:E1 in E; [|done]. apply Nat.ltb_lt in E1. pose proof BLOCK_SIZE_pos.
    unfold BITMAP_MAX_BLOCKS in E1. vm_compute (length _) in E1. lia.
  - unfold do_compaction in E. cbn [demo_dirty is_dirty negb] in E. by destruct (_ <? _) in E.
Defined.

Lemma single_alloc_breaks_count_witness :
  ∃ t', table_alloc (AllocTable_new 5) = Ok (Some 0, t') ∧ ¬ at_wf t'.
Proof.
  destruct (single_alloc_breaks_count (AllocTable_new 5) (demo_alloc_wf 5 ltac:(lia))) as [H _].
  eexists. assert (Ha : table_alloc (AllocTable_new 5) = Ok (Some 0, _)) by (vm_compute; reflexivity).
  split; [exact Ha|]. by apply (H 0).
Defined.
