(* ===== verification/SSTable.v ===== *)
(** * SSTable: [core/src/layers/4-lsm/sstable.rs]

    Sorted tables of records on a log: built once from sorted records, then queried by
    key, by range, or scanned.  The log is any [BlockLog] (the transactional log of the
    source); reopening it by id is an argument.  The bytes of keys, values and the footer
    ([pod]) and the LRU cache ([lru]) are classes with their documented laws.  The event
    listener of a build is its result on each added record; the dropped records of a scan
    are listed. *)
From S2P Require Import Prelude BitMap Bio RangeQuery MemTable.

(** ** What the table takes from elsewhere *)

(** [pod] on keys (numbers, see [RangeQuery]) and values. *)
Class RecordPod (V : Type) := {
  V_SIZE : nat;
  key_bytes : nat → list byte;
  key_from_bytes : list byte → nat;
  val_bytes : V → list byte;
  val_from_bytes : list byte → V;
}.
Definition K_SIZE : nat := 8.

Record FooterMeta := mkFooterMeta {
  num_index : nat;
  index_nblocks : nat;
  total_records : nat;
  record_block_size : nat;
  fm_sync_id : nat;
}.
Definition FOOTER_META_SIZE : nat := 24.
Class FooterMetaPod := {
  meta_bytes : FooterMeta → list byte;
  meta_from_bytes : list byte → FooterMeta;
}.

(** [lru::LruCache]. *)
Class LruCache := {
  lru : Type;
  lru_new : nat → lru;
  lru_get : lru → BlockId → option (list byte) * lru;
  lru_put : lru → BlockId → list byte → lru;
}.

(** ** Records on a block *)
Inductive RecordFlag := RSynced | RUnsynced | RSyncedAndUnsynced | RInvalid.

#[global] Instance RecordFlag_eq_dec : EqDecision RecordFlag.
Proof. solve_decision. Defined.

(** The [repr(u8)] discriminants, and [From<u8>]. *)
Definition flag_to_u8 (f : RecordFlag) : byte :=
  match f with RSynced => 7%Z | RUnsynced => 11%Z | RSyncedAndUnsynced => 19%Z | RInvalid => 20%Z end.
Definition flag_from_u8 (value : byte) : RecordFlag :=
  if Z.eqb value 7 then RSynced else if Z.eqb value 11 then RUnsynced
  else if Z.eqb value 19 then RSyncedAndUnsynced else RInvalid.

Record IndexEntry := mkIndexEntry { ie_pos : BlockId; ie_first : nat; ie_last : nat }.

Definition entry_is_within_range (e : IndexEntry) (key : nat) : bool :=
  (ie_first e <=? key) && (key <=? ie_last e).
Definition entry_overlap_with (e : IndexEntry) (rhs : nat * nat) : bool :=
  negb ((ie_last e <? rhs.1) || (rhs.2 <? ie_first e)).

Definition RECORD_BLOCK_NBLOCKS : nat := 32.
Definition RECORD_BLOCK_SIZE : nat := RECORD_BLOCK_NBLOCKS * BLOCK_SIZE.
Definition FLAG_SIZE : nat := 1.
Definition CACHE_CAP : nat := 1024.
Definition INDEX_ENTRY_SIZE : nat := BID_SIZE + 2 * K_SIZE.

Inductive QueryAccessor := Point (k : nat) | Range (first last : nat).

Definition hit_target (a : QueryAccessor) (target : nat) : bool :=
  match a with Point k => k =? target | Range f l => (f <=? target) && (target <=? l) end.

Section sst.
Context {Bt : Bittle} {BP : BidPod} {V : Type} {RP : RecordPod V} {FP : FooterMetaPod} {LC : LruCache}.
Context {P : Pages} {L : Type} {HL : BlockLog L}.

Definition MIN_RECORD_SIZE : nat := BID_SIZE + FLAG_SIZE + V_SIZE.
Definition MAX_RECORD_SIZE : nat := BID_SIZE + FLAG_SIZE + 2 * V_SIZE.

Record SSTable := mkSSTable {
  sst_id : nat;
  sst_meta : FooterMeta;
  sst_index : list IndexEntry;
  sst_cache : lru;
}.

Definition sst_sync_id (t : SSTable) : nat := fm_sync_id (sst_meta t).

Definition sst_range (t : SSTable) : res (nat * nat) :=
  f ← index (sst_index t) 0;
  n ← usub (num_index (sst_meta t)) 1;
  l ← index (sst_index t) n;
  Ok (ie_first f, ie_last l).

Definition is_within_range (t : SSTable) (key : nat) : res bool :=
  '(s, e) ← sst_range t; Ok ((s <=? key) && (key <=? e)).

Definition overlap_with (t : SSTable) (rhs : nat * nat) : res bool :=
  '(s, e) ← sst_range t; Ok (negb ((e <? rhs.1) || (rhs.2 <? s))).

Definition set_cache (t : SSTable) (c : lru) : SSTable := mkSSTable (sst_id t) (sst_meta t) (sst_index t) c.

(** [RecordBlock::from_buf]. *)
Definition from_buf (buf : list byte) : res (list byte) :=
  _ ← assert_ (length buf =? RECORD_BLOCK_SIZE); Ok buf.

(** ** Queries *)

(** [BlockQueryIter::next] at [offset]: the item and the next offset. *)
Definition query_next (block : list byte) (accessor : QueryAccessor) (offset : nat)
    : res (option ((nat * option V) * nat)) :=
  if RECORD_BLOCK_SIZE <? offset + MIN_RECORD_SIZE then Ok None else
  kb ← slice block offset (offset + K_SIZE);
  let key := key_from_bytes kb in
  let offset := offset + K_SIZE in
  fb ← index block offset;
  let flag := flag_from_u8 fb in
  let offset := offset + 1 in
  match flag with
  | RInvalid => Ok None
  | RSynced | RUnsynced =>
      v ← (if hit_target accessor key
           then vb ← slice block offset (offset + V_SIZE); Ok (Some (val_from_bytes vb)) else Ok None);
      Ok (Some ((key, v), offset + V_SIZE))
  | RSyncedAndUnsynced =>
      v ← (if hit_target accessor key
           then vb ← slice block (offset + V_SIZE) (offset + 2 * V_SIZE); Ok (Some (val_from_bytes vb)) else Ok None);
      Ok (Some ((key, v), offset + 2 * V_SIZE))
  end.

(** [iter.find_map]: the value at [key]; at most [fuel] items. *)
Fixpoint query_find (fuel : nat) (block : list byte) (key : nat) (offset : nat) : res (option V) :=
  match fuel with
  | 0 => Panic
  | S fuel =>
      o ← query_next block (Point key) offset;
      match o with
      | None => Ok None
      | Some ((k, v_opt), offset) =>
          match (if k =? key then v_opt else None) with
          | Some v => Ok (Some v)
          | None => query_find fuel block key offset
          end
      end
  end.

(** The [filter_map] and [collect] of [access_range]. *)
Fixpoint query_collect (fuel : nat) (block : list byte) (first last : nat) (offset : nat)
    : res (list (nat * V)) :=
  match fuel with
  | 0 => Panic
  | S fuel =>
      o ← query_next block (Range first last) offset;
      match o with
      | None => Ok []
      | Some ((k, v_opt), offset) =>
          hd ← (if (first <=? k) && (k <=? last) then v ← unwrap v_opt; Ok [(k, v)] else Ok []);
          tl ← query_collect fuel block first last offset;
          Ok (hd ++ tl)
      end
  end.

(** Every item takes a byte, so a block has fewer items than this. *)
Definition block_fuel : nat := S RECORD_BLOCK_SIZE.

(** [target_record_block]: from the cache, or from the log and then cached. *)
Definition target_record_block (open_log : nat → res L) (t : SSTable) (target_pos : BlockId)
    : res (list byte * SSTable) :=
  match lru_get (sst_cache t) target_pos with
  | (Some cached_rb, cache) => Ok (cached_rb, set_cache t cache)
  | (None, cache) =>
      log ← open_log (sst_id t);
      rb ← bl_read log target_pos RECORD_BLOCK_NBLOCKS;
      rb ← from_buf rb;
      Ok (rb, set_cache t (lru_put cache target_pos rb))
  end.

Definition access_point (open_log : nat → res L) (t : SSTable) (key : nat) : res (V * SSTable) :=
  b ← is_within_range t key;
  _ ← assert_ b;
  match List.find (λ e, entry_is_within_range e key) (sst_index t) with
  | None => Err NotFound
  | Some e =>
      '(rb, t) ← target_record_block open_log t (ie_pos e);
      o ← query_find block_fuel rb key 0;
      match o with Some v => Ok (v, t) | None => Err NotFound end
  end.

Definition access_range_block (open_log : nat → res L) (first last : nat)
    (st : RangeQueryCtx V * SSTable) (pos : BlockId) : res (RangeQueryCtx V * SSTable) :=
  let '(ctx, t) := st in
  '(rb, t) ← target_record_block open_log t pos;
  targets ← query_collect block_fuel rb first last 0;
  ctx ← foldM (λ c '(k, v), complete c k v) ctx targets;
  Ok (ctx, t).

Definition access_range (open_log : nat → res L) (t : SSTable) (ctx : RangeQueryCtx V)
    : res (RangeQueryCtx V * SSTable) :=
  _ ← assert_ (negb (is_completed ctx));
  o ← range_uncompleted ctx;
  '(first, last) ← unwrap o;
  let target_rbs := map ie_pos (List.filter (λ e, entry_overlap_with e (first, last)) (sst_index t)) in
  foldM (access_range_block open_log first last) (ctx, t) target_rbs.

(** ** Scans *)
Record ScanAccessor := mkScanAccessor {
  all_synced : bool;
  discard_unsynced : bool;
  has_listener : bool;
}.

Definition dropped (a : ScanAccessor) (k : nat) (v : V) : list (nat * V) :=
  if has_listener a then [(k, v)] else [].

(** [BlockScanIter::next]: the item with the next offset, and the records dropped. *)
Fixpoint scan_next (fuel : nat) (block : list byte) (a : ScanAccessor) (offset : nat)
    : res (option ((nat * ValueEx V) * nat) * list (nat * V)) :=
  match fuel with
  | 0 => Panic
  | S fuel =>
      if RECORD_BLOCK_SIZE <? offset + MIN_RECORD_SIZE then Ok (None, []) else
      kb ← slice block offset (offset + K_SIZE);
      let key := key_from_bytes kb in
      let offset := offset + K_SIZE in
      fb ← index block offset;
      let flag := flag_from_u8 fb in
      let offset := offset + 1 in
      match flag with
      | RInvalid => Ok (None, [])
      | RSynced =>
          vb ← slice block offset (offset + V_SIZE);
          Ok (Some ((key, Synced (val_from_bytes vb)), offset + V_SIZE), [])
      | RUnsynced =>
          vb ← slice block offset (offset + V_SIZE);
          let v := val_from_bytes vb in
          let offset := offset + V_SIZE in
          if all_synced a then Ok (Some ((key, Synced v), offset), [])
          else if discard_unsynced a then
            '(o, ds) ← scan_next fuel block a offset;
            Ok (o, dropped a key v ++ ds)
          else Ok (Some ((key, Unsynced v), offset), [])
      | RSyncedAndUnsynced =>
          svb ← slice block offset (offset + V_SIZE);
          let sv := val_from_bytes svb in
          let offset := offset + V_SIZE in
          usvb ← slice block offset (offset + V_SIZE);
          let usv := val_from_bytes usvb in
          let offset := offset + V_SIZE in
          if all_synced a then Ok (Some ((key, Synced usv), offset), dropped a key sv)
          else if discard_unsynced a then Ok (Some ((key, Synced sv), offset), dropped a key usv)
          else Ok (Some ((key, SyncedAndUnsynced sv usv), offset), [])
      end
  end.

(** [SstIter]. *)
Record SstIter := mkSstIter {
  it_sst : SSTable;
  curr_nth_index : nat;
  curr_rb_iter : option (list byte * nat);
}.

(** [SSTable::iter]: the accessor, and the iterator at the first block. *)
Definition iter (open_log : nat → res L) (t : SSTable) (sync_id : nat) (discard listen : bool)
    : res (ScanAccessor * SstIter) :=
  let a := mkScanAccessor (sst_sync_id t <? sync_id) discard listen in
  e ← index (sst_index t) 0;
  '(rb, t) ← unwrap_res (target_record_block open_log t (ie_pos e));
  Ok (a, mkSstIter t 0 (Some (rb, 0))).

Definition sst_next (open_log : nat → res L) (a : ScanAccessor) (it : SstIter)
    : res (option (nat * ValueEx V) * list (nat * V) * SstIter) :=
  '(block, offset) ← unwrap (curr_rb_iter it);
  '(o, ds) ← scan_next block_fuel block a offset;
  match o with
  | Some (item, offset) => Ok (Some item, ds, mkSstIter (it_sst it) (curr_nth_index it) (Some (block, offset)))
  | None =>
      let nth := curr_nth_index it + 1 in
      if num_index (sst_meta (it_sst it)) <=? nth then Ok (None, ds, mkSstIter (it_sst it) nth None) else
      e ← index (sst_index (it_sst it)) nth;
      '(rb, t) ← unwrap_res (target_record_block open_log (it_sst it) (ie_pos e));
      '(o, ds') ← scan_next block_fuel rb a 0;
      match o with
      | None => Ok (None, ds ++ ds', mkSstIter t nth None)
      | Some (item, offset) => Ok (Some item, ds ++ ds', mkSstIter t nth (Some (rb, offset)))
      end
  end.

(** [collect]: the items up to the first [None]. *)
Fixpoint sst_collect (fuel : nat) (open_log : nat → res L) (a : ScanAccessor) (it : SstIter)
    : res (list (nat * ValueEx V) * list (nat * V)) :=
  match fuel with
  | 0 => Panic
  | S fuel =>
      '(o, ds, it) ← sst_next open_log a it;
      match o with
      | None => Ok ([], ds)
      | Some item => '(items, ds') ← sst_collect fuel open_log a it; Ok (item :: items, ds ++ ds')
      end
  end.

Definition access_scan (fuel : nat) (open_log : nat → res L) (t : SSTable) (sync_id : nat)
    (discard listen : bool) : res (list (nat * ValueEx V) * list (nat * V)) :=
  '(a, it) ← iter open_log t sync_id discard listen;
  sst_collect fuel open_log a it.

(** ** Building *)
Definition build_one_record_block (entry : IndexEntry) (buf : list byte) (log : L) (cache : lru)
    : res (L * lru) :=
  rb ← from_buf (vec_resize buf RECORD_BLOCK_SIZE 0%Z);
  rb ← unwrap_res (Buf_try_from rb);
  '(_, log) ← bl_append log rb;
  Ok (log, lru_put cache (ie_pos entry) rb).

(** The locals of [build_record_blocks]. *)
Record BuildState := mkBuildState {
  index_vec : list IndexEntry;
  bs_total : nat;
  bs_pos : BlockId;
  first_k : option nat;
  curr_k : option nat;
  inner_offset : nat;
  block_buf : list byte;
  bs_log : L;
  bs_cache : lru;
}.

Definition notify (on_add_record : option (nat → V → res unit)) (k : nat) (v : V) : res unit :=
  match on_add_record with Some listener => listener k v | None => Ok () end.

Definition build_step (on_add_record : option (nat → V → res unit)) (st : BuildState)
    (kv_ex : nat * ValueEx V) : res BuildState :=
  let '(key, value_ex) := kv_ex in
  let total := bs_total st + 1 in
  first ← (if inner_offset st =? 0
           then _ ← assert_ (length (block_buf st) =? 0); Ok (Some key) else Ok (first_k st));
  let buf := block_buf st ++ key_bytes key in
  let offset := inner_offset st + K_SIZE in
  '(buf, offset) ←
    match value_ex with
    | Synced v =>
        _ ← notify on_add_record key v;
        Ok (buf ++ [flag_to_u8 RSynced] ++ val_bytes v, offset + (1 + V_SIZE))
    | Unsynced v =>
        _ ← notify on_add_record key v;
        Ok (buf ++ [flag_to_u8 RUnsynced] ++ val_bytes v, offset + (1 + V_SIZE))
    | SyncedAndUnsynced sv usv =>
        _ ← notify on_add_record key sv;
        _ ← notify on_add_record key usv;
        Ok (buf ++ [flag_to_u8 RSyncedAndUnsynced] ++ val_bytes sv ++ val_bytes usv, offset + MAX_RECORD_SIZE)
    end;
  cap_remained ← usub RECORD_BLOCK_SIZE offset;
  if MAX_RECORD_SIZE <=? cap_remained
  then Ok (mkBuildState (index_vec st) total (bs_pos st) first (Some key) offset buf (bs_log st) (bs_cache st))
  else
    first_key ← unwrap first;
    let index_entry := mkIndexEntry (bs_pos st) first_key key in
    '(log, cache) ← build_one_record_block index_entry buf (bs_log st) (bs_cache st);
    Ok (mkBuildState (index_vec st ++ [index_entry]) total (bs_pos st + RECORD_BLOCK_NBLOCKS) first (Some key)
          0 [] log cache).

Definition build_record_blocks (on_add_record : option (nat → V → res unit))
    (records : list (nat * ValueEx V)) (log : L) (cache : lru)
    : res (nat * list IndexEntry * L * lru) :=
  st ← foldM (build_step on_add_record) (mkBuildState [] 0 0 None None 0 [] log cache) records;
  _ ← assert_ (0 <? bs_total st);
  if length (block_buf st) =? 0 then Ok (bs_total st, index_vec st, bs_log st, bs_cache st) else
  first_key ← unwrap (first_k st);
  curr_key ← unwrap (curr_k st);
  let last_entry := mkIndexEntry (bs_pos st) first_key curr_key in
  '(log, cache) ← build_one_record_block last_entry (block_buf st) (bs_log st) (bs_cache st);
  Ok (bs_total st, index_vec st ++ [last_entry], log, cache).

Definition entry_bytes (e : IndexEntry) : list byte :=
  bid_bytes (ie_pos e) ++ key_bytes (ie_first e) ++ key_bytes (ie_last e).

(** The casts of the footer fields truncate. *)
Definition U16 : nat := 2 ^ 16.
Definition as_u16 (n : nat) : nat := n mod U16.

Definition build_footer (index_vec : list IndexEntry) (total_records sync_id : nat) (log : L)
    : res (FooterMeta * L) :=
  let footer_buf_len := align_up (length index_vec * INDEX_ENTRY_SIZE + FOOTER_META_SIZE) BLOCK_SIZE in
  let append_buf := vec_resize (concat (map entry_bytes index_vec)) footer_buf_len 0%Z in
  let meta := mkFooterMeta (as_u16 (length index_vec)) (as_u16 (footer_buf_len / BLOCK_SIZE))
                (as_u32 total_records) (as_u32 RECORD_BLOCK_SIZE) sync_id in
  append_buf ← copy_from_slice append_buf (footer_buf_len - FOOTER_META_SIZE) (length append_buf) (meta_bytes meta);
  append_buf ← unwrap_res (Buf_try_from append_buf);
  '(_, log) ← bl_append log append_buf;
  Ok (meta, log).

Definition build (on_add_record : option (nat → V → res unit)) (records : list (nat * ValueEx V))
    (sync_id id : nat) (log : L) : res (SSTable * L) :=
  '(total, index_vec, log, cache) ← build_record_blocks on_add_record records log (lru_new CACHE_CAP);
  '(meta, log) ← build_footer index_vec total sync_id log;
  Ok (mkSSTable id meta index_vec cache, log).

(** One index entry of [from_log]. *)
Definition load_entry (log : L) (rbuf : list byte) (st : list IndexEntry * lru) (i : nat)
    : res (list IndexEntry * lru) :=
  buf ← slice rbuf (i * INDEX_ENTRY_SIZE) ((i + 1) * INDEX_ENTRY_SIZE);
  pb ← slice buf 0 BID_SIZE;
  fb ← slice buf BID_SIZE (BID_SIZE + K_SIZE);
  lb ← slice buf (INDEX_ENTRY_SIZE - K_SIZE) INDEX_ENTRY_SIZE;
  let pos := bid_from_bytes pb in
  record_block ← bl_read log pos RECORD_BLOCK_NBLOCKS;
  rb ← from_buf record_block;
  Ok (st.1 ++ [mkIndexEntry pos (key_from_bytes fb) (key_from_bytes lb)], lru_put st.2 pos rb).

Definition from_log (id : nat) (log : L) : res SSTable :=
  let nblocks := bl_nblocks log in
  _ ← Buf_alloc 0 1;
  last ← usub nblocks 1;
  rbuf ← bl_read log last 1;
  mb ← slice rbuf (BLOCK_SIZE - FOOTER_META_SIZE) (length rbuf);
  let meta := meta_from_bytes mb in
  _ ← Buf_alloc 0 (index_nblocks meta);
  ipos ← usub nblocks (index_nblocks meta);
  rbuf ← bl_read log ipos (index_nblocks meta);
  '(index, cache) ← foldM (load_entry log rbuf) ([], lru_new CACHE_CAP) (seq 0 (num_index meta));
  Ok (mkSSTable id meta index cache).
End sst.
Arguments SSTable : clear implicits.
Arguments SSTable {_}.
