(* ===== verification/SSTableSpec.v ===== *)
(** * SSTableSpec: what a sorted table stores and answers

    The laws of the classes [SSTable] is written against, the layout of a table on its
    log, and the theorems: a build followed by a scan, a point query, a range query or a
    reopening gives back the records. *)
From S2P Require Import Prelude BitMap Bio RangeQuery MemTable Compaction SSTable.

(** ** Laws of the interfaces *)
Class RecordPodSpec (V : Type) (R : RecordPod V) := {
  key_bytes_length k : length (key_bytes k) = K_SIZE;
  key_roundtrip k : key_from_bytes (key_bytes k) = k;
  val_bytes_length v : length (val_bytes v) = V_SIZE;
  val_roundtrip v : val_from_bytes (val_bytes v) = v;
  record_fits : MAX_RECORD_SIZE ≤ RECORD_BLOCK_SIZE;
}.

(** The fields of the footer are two [u16], two [u32] and a [u64]. *)
Class FooterMetaPodSpec (F : FooterMetaPod) := {
  meta_bytes_length m : length (meta_bytes m) = FOOTER_META_SIZE;
  meta_roundtrip m :
    num_index m = as_u16 (num_index m) → index_nblocks m = as_u16 (index_nblocks m) →
    total_records m = as_u32 (total_records m) → record_block_size m = as_u32 (record_block_size m) →
    meta_from_bytes (meta_bytes m) = m;
}.

(** A cache returns only what was put last at a key; it may drop entries. *)
Class LruSpec (C : LruCache) := {
  lru_has : lru → BlockId → list byte → Prop;
  lru_new_has n k v : ¬ lru_has (lru_new n) k v;
  lru_get_some c k v c' : lru_get c k = (Some v, c') → lru_has c k v;
  lru_get_has c k o c' k' v' : lru_get c k = (o, c') → lru_has c' k' v' → lru_has c k' v';
  lru_put_has c k v k' v' :
    lru_has (lru_put c k v) k' v' → (k' = k ∧ v' = v) ∨ (k' ≠ k ∧ lru_has c k' v');
}.

(** A log whose bytes are read back, and which takes [bl_left] more blocks. *)
Class ByteLogSpec (L : Type) {H : BlockLog L} := {
  bl_content : L → list byte → Prop;
  bl_left : L → nat;
  bl_content_length l bs : bl_content l bs → length bs = bl_nblocks l * BLOCK_SIZE;
  bl_read_content l bs pos n :
    bl_content l bs → 0 < n → pos + n ≤ bl_nblocks l →
    bl_read l pos n = Ok (take (n * BLOCK_SIZE) (drop (pos * BLOCK_SIZE) bs));
  bl_append_content l bs buf n pos l' :
    bl_content l bs → is_buf n buf → bl_append l buf = Ok (pos, l') → bl_content l' (bs ++ buf);
  bl_append_left l bs buf n :
    bl_content l bs → is_buf n buf → n ≤ bl_left l →
    ∃ pos l', bl_append l buf = Ok (pos, l') ∧ bl_left l = bl_left l' + n;
}.

(** ** The layout *)
Lemma RECORD_BLOCK_SIZE_eq : RECORD_BLOCK_SIZE = RECORD_BLOCK_NBLOCKS * BLOCK_SIZE.
Proof. done. Qed.
Lemma RECORD_BLOCK_NBLOCKS_pos : 0 < RECORD_BLOCK_NBLOCKS.
Proof. unfold RECORD_BLOCK_NBLOCKS. lia. Qed.
#[global] Opaque RECORD_BLOCK_SIZE.
#[global] Opaque RECORD_BLOCK_NBLOCKS.
Lemma U16_gt_1 : 1 < U16.
Proof. apply Nat.pow_gt_1; lia. Qed.
#[global] Opaque U16.

Lemma flag_roundtrip f : flag_from_u8 (flag_to_u8 f) = f.
Proof. by destruct f. Qed.

Section layout.
Context {V : Type} {RP : RecordPod V} {HR : RecordPodSpec V RP}.
Implicit Types (kv : nat * ValueEx V) (ch pre rest : list (nat * ValueEx V)) (cs : list (list (nat * ValueEx V))).

Definition flag_of (v : ValueEx V) : RecordFlag :=
  match v with Synced _ => RSynced | Unsynced _ => RUnsynced | SyncedAndUnsynced _ _ => RSyncedAndUnsynced end.
Definition vals_of (v : ValueEx V) : list V :=
  match v with Synced v | Unsynced v => [v] | SyncedAndUnsynced sv usv => [sv; usv] end.

(** The bytes of a record, of records, and of a record block. *)
Definition enc_rec kv : list byte :=
  key_bytes kv.1 ++ flag_to_u8 (flag_of kv.2) :: concat (map val_bytes (vals_of kv.2)).
Definition enc_recs ch : list byte := concat (map enc_rec ch).
Definition enc_block ch : list byte := vec_resize (enc_recs ch) RECORD_BLOCK_SIZE 0%Z.

Definition fits ch : Prop := ch ≠ [] ∧ length (enc_recs ch) ≤ RECORD_BLOCK_SIZE.

Lemma enc_recs_app ch ch' : enc_recs (ch ++ ch') = enc_recs ch ++ enc_recs ch'.
Proof. unfold enc_recs. by rewrite map_app, concat_app. Qed.

Lemma enc_recs_cons kv ch : enc_recs (kv :: ch) = enc_rec kv ++ enc_recs ch.
Proof. done. Qed.

Lemma enc_recs_snoc ch kv : enc_recs (ch ++ [kv]) = enc_recs ch ++ enc_rec kv.
Proof. rewrite enc_recs_app, enc_recs_cons. f_equal. apply app_nil_r. Qed.

Lemma vals_bytes_length (vs : list V) : length (concat (map val_bytes vs)) = length vs * V_SIZE.
Proof. induction vs as [|v vs IH]; simpl; [done|]. by rewrite length_app, val_bytes_length, IH. Qed.

Lemma enc_rec_length kv : length (enc_rec kv) = K_SIZE + 1 + length (vals_of kv.2) * V_SIZE.
Proof. unfold enc_rec. rewrite length_app, key_bytes_length. simpl. rewrite vals_bytes_length. lia. Qed.

Lemma vals_of_length v : 1 ≤ length (vals_of v) ≤ 2.
Proof. destruct v; simpl; lia. Qed.

Lemma enc_block_length ch : length (enc_block ch) = RECORD_BLOCK_SIZE.
Proof. apply vec_resize_length. Qed.

Lemma sizes_eq : MIN_RECORD_SIZE = K_SIZE + 1 + V_SIZE ∧ MAX_RECORD_SIZE = K_SIZE + 1 + 2 * V_SIZE.
Proof. done. Qed.

(** Reading from a list given as a concatenation. *)
Lemma slice_mid {A} (l1 l2 l3 : list A) a b :
  a = length l1 → b = a + length l2 → slice (l1 ++ l2 ++ l3) a b = Ok l2.
Proof.
  intros -> ->. rewrite slice_ok by (rewrite ?length_app; lia).
  rewrite drop_app_length. replace (length l1 + length l2 - length l1) with (length l2) by lia.
  by rewrite take_app_length.
Qed.

Lemma slice_front {A} (l2 l3 : list A) b : b = length l2 → slice (l2 ++ l3) 0 b = Ok l2.
Proof. intros ->. by apply (slice_mid [] l2 l3 0). Qed.

Lemma index_mid {A} (l1 l3 : list A) x i : i = length l1 → index (l1 ++ x :: l3) i = Ok x.
Proof. intros ->. apply index_ok. by rewrite lookup_app_r, Nat.sub_diag. Qed.

(** The block of [pre ++ rest], cut at [rest]. *)
Lemma enc_block_split pre rest :
  fits (pre ++ rest) →
  enc_block (pre ++ rest) =
    enc_recs pre ++ enc_recs rest ++ replicate (RECORD_BLOCK_SIZE - length (enc_recs (pre ++ rest))) 0%Z.
Proof.
  intros [_ Hf]. unfold enc_block. rewrite vec_resize_grow by done.
  by rewrite enc_recs_app, <- app_assoc.
Qed.

Definition off pre : nat := length (enc_recs pre).

Lemma off_snoc pre kv : off (pre ++ [kv]) = off pre + K_SIZE + 1 + length (vals_of kv.2) * V_SIZE.
Proof.
  unfold off. rewrite enc_recs_app, length_app, enc_recs_cons, length_app, enc_rec_length.
  change (enc_recs []) with (@nil byte). cbn [length]. lia.
Qed.

Lemma off_app pre rest : off (pre ++ rest) = off pre + off rest.
Proof. unfold off. by rewrite enc_recs_app, length_app. Qed.

(** What a reader at a record finds: room, the key, the flag and each value. *)
Lemma at_record pre kv rest :
  fits (pre ++ kv :: rest) →
  let b := enc_block (pre ++ kv :: rest) in
  (RECORD_BLOCK_SIZE <? off pre + MIN_RECORD_SIZE) = false ∧
  slice b (off pre) (off pre + K_SIZE) = Ok (key_bytes kv.1) ∧
  index b (off pre + K_SIZE) = Ok (flag_to_u8 (flag_of kv.2)) ∧
  ∀ i v a, vals_of kv.2 !! i = Some v → a = off pre + K_SIZE + 1 + i * V_SIZE →
    slice b a (a + V_SIZE) = Ok (val_bytes v).
Proof.
  intros Hf b. pose proof (enc_block_split pre (kv :: rest) Hf) as Hb. fold b in Hb.
  pose proof (proj2 Hf) as Hl. rewrite enc_recs_app, enc_recs_cons, !length_app, enc_rec_length in Hl.
  destruct (vals_of_length kv.2) as [Hv1 Hv2]. destruct sizes_eq as [Hmin _].
  rewrite enc_recs_cons in Hb. unfold enc_rec in Hb. rewrite <- !app_assoc in Hb. split.
  { apply Nat.ltb_ge. unfold off. rewrite Hmin.
    assert (1 * V_SIZE ≤ length (vals_of kv.2) * V_SIZE) by (apply Nat.mul_le_mono_r; lia). lia. }
  split; [rewrite Hb; apply slice_mid; [done|]; by rewrite key_bytes_length|]. split.
  { rewrite Hb, app_assoc. apply index_mid. by rewrite length_app, key_bytes_length. }
  intros i v a Hi ->. rewrite Hb. apply list_elem_of_split_length in Hi as (v1 & v2 & Hvs & ->).
  rewrite Hvs, map_app, concat_app. cbn [map concat].
  set (f := flag_to_u8 _). set (z := replicate _ _).
  set (l1 := enc_recs pre ++ key_bytes kv.1 ++ f :: concat (map val_bytes v1)).
  set (l3 := concat (map val_bytes v2) ++ enc_recs rest ++ z).
  transitivity (slice (l1 ++ val_bytes v ++ l3) (off pre + K_SIZE + 1 + length v1 * V_SIZE)
                  (off pre + K_SIZE + 1 + length v1 * V_SIZE + V_SIZE)).
  { f_equal. unfold l1, l3. rewrite <- !app_assoc. do 2 f_equal. cbn [app]. by rewrite <- !app_assoc. }
  unfold l1.
  apply slice_mid; rewrite ?val_bytes_length; [|done].
  rewrite !length_app. simpl. rewrite vals_bytes_length, key_bytes_length. unfold off. lia.
Qed.

(** What a reader finds after the last record: no room, or zero bytes. *)
Lemma at_end ch :
  fits ch →
  (RECORD_BLOCK_SIZE <? off ch + MIN_RECORD_SIZE) = true ∨
  (RECORD_BLOCK_SIZE <? off ch + MIN_RECORD_SIZE) = false ∧
  (∃ kb, slice (enc_block ch) (off ch) (off ch + K_SIZE) = Ok kb) ∧
  index (enc_block ch) (off ch + K_SIZE) = Ok 0%Z.
Proof.
  intros Hf. destruct (RECORD_BLOCK_SIZE <? _) eqn:E; [by left|right]. bool_simpl.
  destruct sizes_eq as [Hmin _]. split; [done|]. split.
  { eexists. apply slice_ok; [lia|]. rewrite enc_block_length. lia. }
  apply index_ok. pose proof (enc_block_split ch []) as Hb. rewrite app_nil_r in Hb.
  rewrite Hb by done. change (enc_recs []) with (@nil byte). cbn [app].
  rewrite lookup_app_r by (unfold off; lia). apply lookup_replicate. unfold off in *. split; [done|lia].
Qed.
End layout.

(** ** Queries in a block *)
Section block_query.
Context {V : Type} {RP : RecordPod V} {HR : RecordPodSpec V RP}.
Implicit Types (kv : nat * ValueEx V) (ch pre rest : list (nat * ValueEx V)).

Lemma query_next_ok pre kv rest a :
  fits (pre ++ kv :: rest) →
  query_next (enc_block (pre ++ kv :: rest)) a (off pre) =
    Ok (Some ((kv.1, if hit_target a kv.1 then Some (ValueEx_get kv.2) else None), off (pre ++ [kv]))).
Proof.
  intros Hf. destruct (at_record pre kv rest Hf) as (Hroom & Hk & Hfl & Hv).
  unfold query_next. rewrite Hroom, Hk. bind_step. rewrite Hfl. bind_step.
  rewrite flag_roundtrip, key_roundtrip, off_snoc.
  destruct kv as [k [v|v|sv usv]]; cbn [fst snd flag_of vals_of ValueEx_get length] in *.
  1,2: destruct (hit_target a k);
    [rewrite (Hv 0 v _ eq_refl) by lia; bind_step; rewrite val_roundtrip|]; bind_step; do 3 f_equal; lia.
  destruct (hit_target a k).
  - replace (off pre + K_SIZE + 1 + 2 * V_SIZE) with (off pre + K_SIZE + 1 + V_SIZE + V_SIZE) by lia.
    rewrite (Hv 1 usv _ eq_refl) by lia. bind_step. rewrite val_roundtrip. bind_step. do 3 f_equal.
  - bind_step. do 3 f_equal.
Qed.

Lemma query_next_end ch a : fits ch → query_next (enc_block ch) a (off ch) = Ok None.
Proof.
  intros Hf. unfold query_next. destruct (at_end ch Hf) as [-> | (-> & [kb ->] & ->)]; done.
Qed.

(** The first record with the key. *)
Definition find_value ch (key : nat) : option V :=
  ValueEx_get ∘ snd <$> List.find (λ kv, kv.1 =? key) ch.

Lemma query_find_ok key rest : ∀ pre fuel,
  fits (pre ++ rest) → length rest < fuel →
  query_find fuel (enc_block (pre ++ rest)) key (off pre) = Ok (find_value rest key).
Proof.
  induction rest as [|kv rest IH]; intros pre [|fuel] Hf Hfu; try (simpl in Hfu; lia).
  - rewrite app_nil_r in *. cbn [query_find]. by rewrite query_next_end.
  - cbn [query_find]. rewrite query_next_ok by done. bind_step. cbn [hit_target].
    unfold find_value. cbn [List.find]. rewrite (Nat.eqb_sym key). destruct (kv.1 =? key) eqn:E; [done|].
    specialize (IH (pre ++ [kv]) fuel). rewrite <- app_assoc in IH. cbn [app] in IH.
    apply IH; [done|simpl in Hfu; lia].
Qed.

Definition in_window (first last : nat) kv : bool := (first <=? kv.1) && (kv.1 <=? last).

Lemma query_collect_ok first last rest : ∀ pre fuel,
  fits (pre ++ rest) → length rest < fuel →
  query_collect fuel (enc_block (pre ++ rest)) first last (off pre) =
    Ok (map (λ kv, (kv.1, ValueEx_get kv.2)) (List.filter (in_window first last) rest)).
Proof.
  induction rest as [|kv rest IH]; intros pre [|fuel] Hf Hfu; try (simpl in Hfu; lia).
  - rewrite app_nil_r in *. cbn [query_collect]. by rewrite query_next_end.
  - cbn [query_collect]. rewrite query_next_ok by done. bind_step. cbn [hit_target List.filter].
    specialize (IH (pre ++ [kv]) fuel). rewrite <- app_assoc in IH. cbn [app] in IH. simpl in Hfu.
    unfold in_window at 1. destruct ((first <=? kv.1) && (kv.1 <=? last)).
    + cbn [unwrap]. bind_step. rewrite IH by (done || lia). by bind_step.
    + bind_step. rewrite IH by (done || lia). by bind_step.
Qed.

(** A block holds fewer records than the fuel of a block. *)
Lemma block_fuel_ok ch : fits ch → length ch < block_fuel.
Proof.
  intros [_ Hf]. unfold block_fuel. cut (length ch ≤ length (enc_recs ch)); [lia|].
  clear Hf. induction ch as [|kv ch IH]; [simpl; lia|]. rewrite enc_recs_cons, length_app, enc_rec_length.
  cbn [length]. lia.
Qed.

Lemma query_find_all ch key :
  fits ch → query_find block_fuel (enc_block ch) key 0 = Ok (find_value ch key).
Proof. intros Hf. apply (query_find_ok key ch [] block_fuel Hf (block_fuel_ok ch Hf)). Qed.

Lemma query_collect_all ch first last :
  fits ch →
  query_collect block_fuel (enc_block ch) first last 0 =
    Ok (map (λ kv, (kv.1, ValueEx_get kv.2)) (List.filter (in_window first last) ch)).
Proof. intros Hf. apply (query_collect_ok first last ch [] block_fuel Hf (block_fuel_ok ch Hf)). Qed.
End block_query.

(** ** Scans of a block *)
Section block_scan.
Context {V : Type} {RP : RecordPod V} {HR : RecordPodSpec V RP}.
Implicit Types (kv : nat * ValueEx V) (ch pre rest : list (nat * ValueEx V)) (a : ScanAccessor).

(** The record a scan shows for a stored one, if any, and the values it drops. *)
Definition view a kv : option (nat * ValueEx V) :=
  match kv.2 with
  | Synced v => Some (kv.1, Synced v)
  | Unsynced v => if all_synced a then Some (kv.1, Synced v)
                  else if discard_unsynced a then None else Some (kv.1, Unsynced v)
  | SyncedAndUnsynced sv usv =>
      Some (kv.1, if all_synced a then Synced usv
                  else if discard_unsynced a then Synced sv else SyncedAndUnsynced sv usv)
  end.
Definition view_drops a kv : list (nat * V) :=
  match kv.2 with
  | Synced _ => []
  | Unsynced v => if all_synced a then [] else if discard_unsynced a then dropped a kv.1 v else []
  | SyncedAndUnsynced sv usv =>
      if all_synced a then dropped a kv.1 sv else if discard_unsynced a then dropped a kv.1 usv else []
  end.
Definition views a ch : list (nat * ValueEx V) := omap (view a) ch.
Definition views_drops a ch : list (nat * V) := concat (map (view_drops a) ch).

(** One call of [next]: the records it skips, and the one it returns. *)
Lemma scan_next_ok a rest : ∀ pre fuel,
  fits (pre ++ rest) → length rest < fuel →
  (views a rest = [] ∧
   scan_next fuel (enc_block (pre ++ rest)) a (off pre) = Ok (None, views_drops a rest)) ∨
  (∃ l1 kv item l2, rest = l1 ++ kv :: l2 ∧ views a l1 = [] ∧ view a kv = Some item ∧
   scan_next fuel (enc_block (pre ++ rest)) a (off pre) =
     Ok (Some (item, off (pre ++ l1 ++ [kv])), views_drops a (l1 ++ [kv]))).
Proof.
  induction rest as [|kv rest IH]; intros pre [|fuel] Hf Hfu; try (simpl in Hfu; lia).
  { left. rewrite app_nil_r in *. split; [done|]. cbn [scan_next].
    destruct (at_end pre Hf) as [-> | (-> & [kb ->] & ->)]; done. }
  destruct (at_record pre kv rest Hf) as (Hroom & Hk & Hfl & Hv). simpl in Hfu.
  cbn [scan_next]. rewrite Hroom, Hk. bind_step. rewrite Hfl. bind_step.
  rewrite flag_roundtrip, key_roundtrip.
  specialize (IH (pre ++ [kv]) fuel). rewrite <- app_assoc in IH. cbn [app] in IH.
  specialize (IH Hf ltac:(lia)). rewrite off_snoc in IH.
  set (b := enc_block _) in *.
  assert (Hnow : ∀ item n ds, view a kv = Some item → view_drops a kv = ds →
            n = off (pre ++ [kv]) → ∃ l1 kv' item' l2, kv :: rest = l1 ++ kv' :: l2 ∧ views a l1 = [] ∧
              view a kv' = Some item' ∧
              Ok (Some (item, n), ds) = Ok (Some (item', off (pre ++ l1 ++ [kv'])), views_drops a (l1 ++ [kv']))).
  { intros item n ds Hi <- ->. exists [], kv, item, rest. split_and!; try done.
    unfold views_drops. simpl. by rewrite app_nil_r. }
  destruct kv as [k [v|v|sv usv]]; cbn [fst snd flag_of vals_of ValueEx_get length] in *.
  - rewrite (Hv 0 v _ eq_refl) by lia. bind_step. rewrite val_roundtrip. right.
    apply Hnow; [done..|]. rewrite off_snoc. simpl. lia.
  - rewrite (Hv 0 v _ eq_refl) by lia. bind_step. rewrite val_roundtrip.
    destruct (all_synced a) eqn:Eall; [|destruct (discard_unsynced a) eqn:Edis].
    + right. apply Hnow; [by unfold view; simpl; rewrite Eall|by unfold view_drops; simpl; rewrite Eall|].
      rewrite off_snoc. simpl. lia.
    + assert (Hinv : view a (k, Unsynced v) = None) by (by unfold view; simpl; rewrite Eall, Edis).
      assert (Hdr : view_drops a (k, Unsynced v) = dropped a k v)
        by (by unfold view_drops; simpl; rewrite Eall, Edis).
      replace (off pre + K_SIZE + 1 + 1 * V_SIZE) with (off pre + K_SIZE + 1 + V_SIZE) in IH by lia.
      destruct IH as [[Hvs ->]|(l1 & kv' & item & l2 & -> & Hl1 & Hit & ->)]; bind_step.
      * left. split; [unfold views; simpl; rewrite Hinv; exact Hvs|].
        unfold views_drops. simpl. by rewrite Hdr.
      * right. exists ((k, Unsynced v) :: l1), kv', item, l2. split; [done|].
        split; [unfold views; simpl; rewrite Hinv; exact Hl1|]. split; [done|].
        unfold views_drops. simpl. rewrite Hdr. do 4 f_equal.
        by rewrite <- app_assoc.
    + right. apply Hnow; [by unfold view; simpl; rewrite Eall, Edis|by unfold view_drops; simpl; rewrite Eall, Edis|].
      rewrite off_snoc. simpl. lia.
  - rewrite (Hv 0 sv (off pre + K_SIZE + 1) eq_refl) by lia. bind_step. rewrite (Hv 1 usv _ eq_refl) by lia. bind_step.
    rewrite !val_roundtrip. right.
    destruct (all_synced a) eqn:Eall; [|destruct (discard_unsynced a) eqn:Edis];
      (apply Hnow; [by unfold view; simpl; rewrite Eall, ?Edis|by unfold view_drops; simpl; rewrite Eall, ?Edis|];
       rewrite off_snoc; simpl; lia).
Qed.
End block_scan.

(** ** A table on its log *)
Section table.
Context {Bt : Bittle} {BP : BidPod} {V : Type} {RP : RecordPod V} {HR : RecordPodSpec V RP}.
Context {FP : FooterMetaPod} {LC : LruCache} {HC : LruSpec LC}.
Context {P : Pages} {L : Type} {HL : BlockLog L} {HLS : ByteLogSpec L}.
Context (open_log : nat → res L).
Implicit Types (kv : nat * ValueEx V) (ch pre rest : list (nat * ValueEx V)).
Implicit Types (cs : list (list (nat * ValueEx V))) (t : SSTable).

Definition entry_of (i : nat) ch : IndexEntry :=
  mkIndexEntry (i * RECORD_BLOCK_NBLOCKS) (first_key ch) (last_key ch).
Definition index_of cs : list IndexEntry := imap entry_of cs.

Definition cache_ok (c : lru) cs : Prop :=
  ∀ p v, lru_has c p v → ∃ i ch, cs !! i = Some ch ∧ p = i * RECORD_BLOCK_NBLOCKS ∧ v = enc_block ch.

(** Table [t] stores the records of the blocks [cs]. *)
Record table_ok t cs : Prop := {
  tok_fits : Forall fits cs;
  tok_ne : cs ≠ [];
  tok_index : sst_index t = index_of cs;
  tok_num : num_index (sst_meta t) = length cs;
  tok_log : ∃ l foot, open_log (sst_id t) = Ok l ∧ bl_content l (concat (map enc_block cs) ++ foot);
  tok_cache : cache_ok (sst_cache t) cs;
}.

Lemma blocks_length cs : Forall (λ b, length b = RECORD_BLOCK_SIZE) (map enc_block cs).
Proof. apply Forall_map, Forall_true. intros ch. apply enc_block_length. Qed.

Lemma set_cache_ok t cs c : table_ok t cs → cache_ok c cs → table_ok (set_cache t c) cs.
Proof. intros [] Hc. by constructor. Qed.

Lemma from_buf_ok b : length b = RECORD_BLOCK_SIZE → from_buf b = Ok b.
Proof. intros Hb. unfold from_buf. by rewrite Hb, Nat.eqb_refl. Qed.

Lemma read_block_ok l cs foot i ch :
  bl_content l (concat (map enc_block cs) ++ foot) → cs !! i = Some ch →
  bl_read l (i * RECORD_BLOCK_NBLOCKS) RECORD_BLOCK_NBLOCKS = Ok (enc_block ch).
Proof.
  intros Hl Hi. pose proof RECORD_BLOCK_NBLOCKS_pos. pose proof BLOCK_SIZE_pos.
  pose proof (bl_content_length _ _ Hl) as Hlen. pose proof (lookup_lt_Some _ _ _ Hi) as Hlt.
  rewrite length_app, (length_concat_same RECORD_BLOCK_SIZE), length_map, RECORD_BLOCK_SIZE_eq in Hlen
    by apply blocks_length.
  assert (Hin : (i + 1) * RECORD_BLOCK_NBLOCKS ≤ bl_nblocks l).
  { apply (Nat.mul_le_mono_pos_r _ _ BLOCK_SIZE); [done|]. rewrite <- Hlen, <- Nat.mul_assoc.
    assert ((i + 1) * (RECORD_BLOCK_NBLOCKS * BLOCK_SIZE) ≤ length cs * (RECORD_BLOCK_NBLOCKS * BLOCK_SIZE))
      by (apply Nat.mul_le_mono_r; lia). lia. }
  rewrite (bl_read_content _ _ _ _ Hl); [|done|lia].
  rewrite <- RECORD_BLOCK_SIZE_eq, <- Nat.mul_assoc, <- RECORD_BLOCK_SIZE_eq. f_equal.
  apply take_drop_concat; [apply blocks_length|]. change (map enc_block cs) with (enc_block <$> cs). by rewrite list_lookup_fmap, Hi.
Qed.

Lemma target_record_block_ok t cs i ch :
  table_ok t cs → cs !! i = Some ch →
  ∃ c, target_record_block open_log t (i * RECORD_BLOCK_NBLOCKS) = Ok (enc_block ch, set_cache t c) ∧
       table_ok (set_cache t c) cs.
Proof.
  intros Ht Hi. unfold target_record_block.
  destruct (lru_get _ _) as [[rb|] c] eqn:Eg.
  - exists c. apply lru_get_some in Eg as Hhas. destruct (tok_cache _ _ Ht _ _ Hhas) as (j & ch' & Hj & Hp & ->).
    pose proof RECORD_BLOCK_NBLOCKS_pos. apply Nat.mul_cancel_r in Hp as <-; [|lia]. simplify_eq. split; [done|].
    apply set_cache_ok; [done|]. intros p v Hp'. by eapply (tok_cache _ _ Ht), lru_get_has.
  - destruct (tok_log _ _ Ht) as (l & foot & -> & Hl). bind_step.
    rewrite (read_block_ok _ _ _ _ _ Hl Hi). bind_step. rewrite from_buf_ok by apply enc_block_length.
    bind_step. eexists. split; [done|]. apply set_cache_ok; [done|].
    intros p v [[-> ->]|[_ Hp]]%lru_put_has; [eauto|]. by eapply (tok_cache _ _ Ht), lru_get_has.
Qed.

Lemma index_of_lookup cs i : index_of cs !! i = entry_of i <$> cs !! i.
Proof. apply list_lookup_imap. Qed.

(** *** Scans *)
Lemma views_cons a kv rest :
  views a (kv :: rest) = match view a kv with Some x => x :: views a rest | None => views a rest end.
Proof. done. Qed.
Lemma views_app a ch ch' : views a (ch ++ ch') = views a ch ++ views a ch'.
Proof. unfold views. apply omap_app. Qed.
Lemma views_drops_app a ch ch' : views_drops a (ch ++ ch') = views_drops a ch ++ views_drops a ch'.
Proof. unfold views_drops. by rewrite map_app, concat_app. Qed.

(** A scan that shows [kv] after skipping [l1], and then the rest. *)
Lemma shown_split a l1 kv item rest :
  views a l1 = [] → view a kv = Some item →
  item :: views a rest = views a (l1 ++ kv :: rest) ∧
  views_drops a (l1 ++ [kv]) ++ views_drops a rest = views_drops a (l1 ++ kv :: rest).
Proof.
  intros Hl1 Hit. rewrite views_app, views_cons, Hl1, Hit. split; [done|].
  by rewrite <- views_drops_app, <- app_assoc.
Qed.

(** What a scan shows of the blocks after the current one: it ends at the first block
    that shows nothing. *)
Fixpoint shown a cs : list (nat * ValueEx V) :=
  match cs with
  | [] => []
  | ch :: cs => match views a ch with [] => [] | _ => views a ch ++ shown a cs end
  end.
Fixpoint shown_drops a cs : list (nat * V) :=
  match cs with
  | [] => []
  | ch :: cs => views_drops a ch ++ match views a ch with [] => [] | _ => shown_drops a cs end
  end.

Lemma sst_collect_ok a : ∀ n t cs i ch pre rest fuel,
  table_ok t cs → cs !! i = Some ch → ch = pre ++ rest →
  length rest + length (concat (drop (S i) cs)) ≤ n → n < fuel →
  sst_collect fuel open_log a (mkSstIter t i (Some (enc_block ch, off pre))) =
    Ok (views a rest ++ shown a (drop (S i) cs), views_drops a rest ++ shown_drops a (drop (S i) cs)).
Proof.
  induction n as [n IH] using lt_wf_ind; intros t cs i ch pre rest [|fuel] Ht Hi Hch Hn Hfu; [lia|].
  assert (Hfit : fits (pre ++ rest)).
  { subst ch. eapply Forall_lookup_1; [apply (tok_fits _ _ Ht)|exact Hi]. }
  assert (Hbf : ∀ l, fits l → length l < block_fuel) by (intros; by apply block_fuel_ok).
  assert (length rest < block_fuel) by (specialize (Hbf _ Hfit); rewrite length_app in Hbf; lia).
  cbn [sst_collect]. unfold sst_next. cbn [curr_rb_iter unwrap it_sst curr_nth_index]. bind_step.
  subst ch. destruct (scan_next_ok a rest pre block_fuel Hfit ltac:(done))
    as [[Hvs ->]|(l1 & kv & item & l2 & -> & Hl1 & Hit & ->)]; bind_step.
  2:{ cbn [curr_rb_iter unwrap it_sst curr_nth_index].
    rewrite !length_app in Hn. cbn [length] in Hn. rewrite (app_assoc pre l1 [kv]).
    rewrite (IH (length l2 + length (concat (drop (S i) cs))) ltac:(lia) t cs i _ ((pre ++ l1) ++ [kv]) l2 fuel
               Ht Hi); [|by rewrite <- !app_assoc|lia..].
    bind_step. destruct (shown_split a l1 kv item l2 Hl1 Hit) as [<- <-]. by rewrite app_assoc. }
  rewrite Hvs. cbn [app]. rewrite (tok_num _ _ Ht). replace (i + 1) with (S i) by lia.
  destruct (cs !! S i) as [ch'|] eqn:Ei'.
  2:{ apply lookup_ge_None in Ei' as Hle. rewrite (proj2 (Nat.leb_le _ _)) by done.
    bind_step. rewrite drop_ge by done. cbn [shown shown_drops]. by rewrite app_nil_r. }
  pose proof (lookup_lt_Some _ _ _ Ei') as Hlt'. rewrite (proj2 (Nat.leb_gt _ _)) by lia.
  rewrite (tok_index _ _ Ht). erewrite index_ok by (by rewrite index_of_lookup, Ei').
  bind_step. cbn [entry_of ie_pos].
  destruct (target_record_block_ok t cs (S i) ch' Ht Ei') as (c & -> & Ht').
  cbn [unwrap_res]. bind_step.
  assert (Hfit' : fits ([] ++ ch')) by (eapply (Forall_lookup_1 _ _ _ _ (tok_fits _ _ Ht) Ei')).
  rewrite (drop_S cs _ _ Ei') in Hn |- *. cbn [concat] in Hn. rewrite length_app in Hn.
  cbn [shown shown_drops].
  destruct (scan_next_ok a ch' [] block_fuel Hfit' (Hbf _ Hfit'))
    as [[Hvs' Hsc]|(l1 & kv & item & l2 & -> & Hl1 & Hit & Hsc)];
    change (off []) with 0 in Hsc; cbn [app] in Hsc, Hfit'; rewrite Hsc; bind_step.
  { by rewrite Hvs', app_nil_r. }
  rewrite length_app in Hn. cbn [length] in Hn.
  rewrite (IH (length l2 + length (concat (drop (S (S i)) cs))) ltac:(lia) _ cs (S i) _ (l1 ++ [kv]) l2 fuel
             Ht' Ei'); [|by rewrite <- !app_assoc|lia..].
  bind_step. destruct (shown_split a l1 kv item l2 Hl1 Hit) as [<- <-].
  cbn [app]. by rewrite !app_assoc.
Qed.

(** Blocks that each show a record are shown completely. *)
Lemma shown_all a cs :
  Forall (λ ch, views a ch ≠ []) cs →
  shown a cs = views a (concat cs) ∧ shown_drops a cs = views_drops a (concat cs).
Proof.
  induction 1 as [|ch cs Hch Hcs [IH1 IH2]]; [done|]. cbn [shown shown_drops concat].
  rewrite views_app, views_drops_app, IH1, IH2. by destruct (views a ch).
Qed.

Lemma access_scan_ok t ch cs sync_id discard listen fuel :
  let a := mkScanAccessor (sst_sync_id t <? sync_id) discard listen in
  table_ok t (ch :: cs) → length (concat (ch :: cs)) < fuel →
  access_scan fuel open_log t sync_id discard listen =
    Ok (views a ch ++ shown a cs, views_drops a ch ++ shown_drops a cs).
Proof.
  intros a Ht Hfu. unfold access_scan, iter.
  rewrite (tok_index _ _ Ht). erewrite index_ok by (by rewrite index_of_lookup). bind_step.
  destruct (target_record_block_ok t _ 0 ch Ht eq_refl) as (c & Hc & Ht').
  cbn [entry_of ie_pos]. rewrite Hc. cbn [unwrap_res]. bind_step.
  apply (sst_collect_ok a _ (set_cache t c) (ch :: cs) 0 ch [] ch fuel Ht' eq_refl eq_refl (le_n _)).
  by rewrite <- length_app.
Qed.

(** A scan that keeps unsynced records, or shows all as synced, shows every record. *)
Lemma view_kept a kv : all_synced a = true ∨ discard_unsynced a = false → ∃ x, view a kv = Some x.
Proof.
  intros Ha. unfold view. destruct kv as [k [v|v|sv usv]]; cbn; [eauto| |eauto].
  destruct (all_synced a), (discard_unsynced a), Ha; eauto; done.
Qed.

Lemma access_scan_all t cs sync_id discard listen fuel :
  let a := mkScanAccessor (sst_sync_id t <? sync_id) discard listen in
  table_ok t cs → all_synced a = true ∨ discard_unsynced a = false → length (concat cs) < fuel →
  access_scan fuel open_log t sync_id discard listen = Ok (views a (concat cs), views_drops a (concat cs)).
Proof.
  intros a Ht Ha Hfu. pose proof (tok_ne _ _ Ht) as Hne. pose proof (tok_fits _ _ Ht) as Hf.
  destruct cs as [|ch cs]; [done|]. rewrite (access_scan_ok t ch cs) by done. fold a.
  apply Forall_cons in Hf as [_ Hf].
  destruct (shown_all a cs) as [-> ->]; [|by rewrite <- views_app, <- views_drops_app].
  eapply Forall_impl; [exact Hf|]. intros [|kv ch'] [Hne' _]; [done|]. cbn beta. rewrite views_cons.
  destruct (view_kept a kv Ha) as [x ->]. done.
Qed.

(** *** Queries *)
Lemma find_value_app ch ch' k :
  find_value (ch ++ ch') k = match find_value ch k with Some v => Some v | None => find_value ch' k end.
Proof.
  unfold find_value. induction ch as [|kv ch IH]; [done|]. cbn [app List.find].
  by destruct (kv.1 =? k).
Qed.

Lemma find_value_None ch k : (∀ kv, kv ∈ ch → kv.1 ≠ k) → find_value ch k = None.
Proof.
  unfold find_value. induction ch as [|kv ch IH]; intros Hne; [done|]. cbn [List.find].
  rewrite (proj2 (Nat.eqb_neq _ _)) by (apply Hne; set_solver). apply IH. set_solver.
Qed.


(** A key within the range of a block is in that block or nowhere. *)
Lemma find_value_block cs i ch k :
  sorted (concat cs) → cs !! i = Some ch → ch ≠ [] → first_key ch ≤ k ≤ last_key ch →
  find_value (concat cs) k = find_value ch k.
Proof.
  intros Hs Hi Hne Hk. apply list_elem_of_split_length in Hi as (c1 & c2 & -> & _).
  rewrite concat_app in *. cbn [concat] in *.
  destruct (first_key_in ch Hne) as (f & Hf & Ef), (last_key_in ch Hne) as (l & Hl & El).
  rewrite find_value_app, find_value_None.
  2:{ intros kv Hkv. pose proof (sorted_app_lt _ _ kv f Hs Hkv ltac:(set_solver)). lia. }
  rewrite find_value_app. apply sorted_app_inv in Hs as [_ Hs].
  rewrite (find_value_None (concat c2)); [by destruct (find_value ch k)|].
  intros kv Hkv. pose proof (sorted_app_lt _ _ l kv Hs Hl Hkv). lia.
Qed.

Lemma sorted_block cs i ch : sorted (concat cs) → cs !! i = Some ch → sorted ch.
Proof.
  intros Hs Hi. apply list_elem_of_split_length in Hi as (c1 & c2 & -> & _).
  rewrite concat_app in Hs. cbn [concat] in Hs. by apply sorted_app_inv in Hs as [_ [? _]%sorted_app_inv].
Qed.

Lemma first_key_concat cs ch : cs !! 0 = Some ch → ch ≠ [] → first_key (concat cs) = first_key ch.
Proof. destruct cs as [|c0 cs]; [done|]. intros [= ->]. by destruct ch. Qed.

Lemma last_key_concat cs ch :
  cs !! (length cs - 1) = Some ch → ch ≠ [] → last_key (concat cs) = last_key ch.
Proof.
  destruct cs as [|cl cs] using rev_ind; [done|]. rewrite length_app. cbn [length].
  rewrite lookup_app_r by lia. replace (length cs + 1 - 1 - length cs) with 0 by lia. intros [= ->] Hne.
  rewrite concat_app. cbn [concat]. rewrite app_nil_r. destruct ch as [|x ch] using rev_ind; [done|].
  unfold last_key. by rewrite app_assoc, !last_snoc.
Qed.

Lemma sst_range_ok t cs :
  table_ok t cs → sst_range t = Ok (first_key (concat cs), last_key (concat cs)).
Proof.
  intros Ht. pose proof (tok_fits _ _ Ht) as Hf. unfold sst_range. rewrite (tok_index _ _ Ht), (tok_num _ _ Ht).
  assert (0 < length cs) as Hlen by (pose proof (tok_ne _ _ Ht); destruct cs; simpl; [done|lia]).
  destruct (lookup_lt_is_Some_2 cs 0 Hlen) as [c0 E0].
  destruct (lookup_lt_is_Some_2 cs (length cs - 1) ltac:(lia)) as [c1 E1].
  erewrite index_ok by (by rewrite index_of_lookup, E0). bind_step. rewrite usub_ok by lia. bind_step.
  erewrite index_ok by (by rewrite index_of_lookup, E1). bind_step. cbn [entry_of ie_first ie_last].
  rewrite (first_key_concat cs c0), (last_key_concat cs c1); try done.
  - by destruct (Forall_lookup_1 _ _ _ _ Hf E1).
  - by destruct (Forall_lookup_1 _ _ _ _ Hf E0).
Qed.

Lemma access_point_ok t cs key :
  table_ok t cs → sorted (concat cs) → first_key (concat cs) ≤ key ≤ last_key (concat cs) →
  match find_value (concat cs) key with
  | Some v => ∃ c, access_point open_log t key = Ok (v, set_cache t c) ∧ table_ok (set_cache t c) cs
  | None => access_point open_log t key = Err NotFound
  end.
Proof.
  intros Ht Hs Hk. unfold access_point, is_within_range. rewrite (sst_range_ok t cs Ht). bind_step.
  rewrite !(proj2 (Nat.leb_le _ _)) by lia. cbn [andb assert_]. bind_step. rewrite (tok_index _ _ Ht).
  destruct (List.find _ _) as [e|] eqn:Ee.
  - apply find_some in Ee as [Hin Hw]. apply list_elem_of_In, list_elem_of_lookup in Hin as [i Hi].
    rewrite index_of_lookup, fmap_Some in Hi. destruct Hi as (ch & Hi & ->).
    unfold entry_is_within_range, entry_of in Hw. simpl in Hw. bool_simpl.
    pose proof (Forall_lookup_1 _ _ _ _ (tok_fits _ _ Ht) Hi) as Hf.
    rewrite (find_value_block cs i ch) by (done || apply Hf || lia). cbn [entry_of ie_pos].
    destruct (target_record_block_ok t cs i ch Ht Hi) as (c & -> & Ht'). bind_step.
    rewrite query_find_all by done. bind_step.
    destruct (find_value ch key); eauto.
  - rewrite find_value_None; [done|]. intros kv Hkv Heq.
    apply list_elem_of_In, in_concat in Hkv as (ch & Hch & Hkv).
    apply list_elem_of_In, list_elem_of_lookup in Hch as [i Hi]. apply list_elem_of_In in Hkv.
    destruct (key_bounds ch kv (sorted_block cs i ch Hs Hi) Hkv).
    assert (Hin : In (entry_of i ch) (index_of cs)).
    { apply list_elem_of_In, list_elem_of_lookup. exists i. by rewrite index_of_lookup, Hi. }
    pose proof (find_none _ _ Ee _ Hin) as Hf. unfold entry_is_within_range, entry_of in Hf. simpl in Hf.
    apply andb_false_iff in Hf as [?|?]; bool_simpl; lia.
Qed.

Lemma find_value_Some ch k v :
  sorted ch → find_value ch k = Some v ↔ ∃ w, (k, w) ∈ ch ∧ v = ValueEx_get w.
Proof.
  intros Hs%sorted_NoDup. unfold find_value. induction ch as [|[k' w'] ch IH]; simpl.
  - split; [done|]. by intros (w & ?%elem_of_nil & _).
  - simpl in Hs. apply NoDup_cons in Hs as [Hni Hs]. setoid_rewrite elem_of_cons.
    destruct (k' =? k) eqn:E; bool_simpl.
    + subst k'. simpl. split; [intros [= <-]; eauto|]. intros (w & [[= ->]|Hin] & ->); [done|].
      destruct Hni. apply list_elem_of_fmap. by exists (k, w).
    + rewrite IH by done. split; [naive_solver|]. intros (w & [[= -> ->]|Hin] & ->); [done|eauto].
Qed.

(** Index entries and the blocks they describe. *)
Definition entry_for cs (e : IndexEntry) ch : Prop := ∃ i, cs !! i = Some ch ∧ e = entry_of i ch.

Lemma index_of_entries cs : Forall2 (entry_for cs) (index_of cs) cs.
Proof.
  apply Forall2_lookup. intros i. rewrite index_of_lookup.
  destruct (cs !! i) as [ch|] eqn:E; simpl; constructor. by exists i.
Qed.

(** The blocks that overlap a window hold all records of the window. *)
Lemma overlap_blocks cs es chs first last :
  first ≤ last → Forall2 (entry_for cs) es chs → Forall sorted chs →
  ∃ chs', Forall2 (entry_for cs) (List.filter (λ e, entry_overlap_with e (first, last)) es) chs' ∧
    List.filter (in_window first last) (concat chs') = List.filter (in_window first last) (concat chs).
Proof.
  intros Hfl. induction 1 as [|e ch es chs He Hes IH]; intros Hs; [by exists []|].
  apply Forall_cons in Hs as [Hs Hss]. destruct (IH Hss) as (chs' & Hall & Heq). cbn [List.filter concat].
  rewrite List.filter_app. destruct (entry_overlap_with e (first, last)) eqn:Eo.
  - exists (ch :: chs'). split; [by constructor|]. cbn [concat]. by rewrite List.filter_app, Heq.
  - exists chs'. split; [done|]. rewrite Heq. destruct He as (i & _ & ->).
    unfold entry_overlap_with, entry_of in Eo. simpl in Eo. bool_simpl.
    cut (List.filter (in_window first last) ch = []); [by intros ->|].
    destruct (List.filter _ ch) as [|kv l] eqn:El; [done|].
    assert (Hin : In kv (List.filter (in_window first last) ch)) by (rewrite El; by left).
    apply filter_In in Hin as [Hin Hw]. apply list_elem_of_In in Hin. unfold in_window in Hw. bool_simpl.
    pose proof (key_bounds ch kv Hs Hin). apply orb_true_iff in Eo as [?|?]; bool_simpl; lia.
Qed.

Lemma foldM_map {A B S} (f : S → B → res S) (g : A → B) l : ∀ s,
  foldM f s (map g l) = foldM (λ s x, f s (g x)) s l.
Proof. induction l as [|x l IH]; intros s; [done|]. simpl. case_match; [apply IH|done..]. Qed.

Lemma foldM_ext {A S} (f g : S → A → res S) l : (∀ s x, f s x = g s x) → ∀ s, foldM f s l = foldM g s l.
Proof. intros Hfg. induction l as [|x l IH]; intros s; [done|]. simpl. rewrite Hfg. case_match; [apply IH|done..]. Qed.

Notation complete_step := (λ (c : RangeQueryCtx V) '(k, v_ex), complete c k (ValueEx_get v_ex)).

Lemma access_range_blocks t cs first last es chs : ∀ ctx ctx' c0,
  table_ok (set_cache t c0) cs → Forall2 (entry_for cs) es chs →
  foldM complete_step ctx (List.filter (in_window first last) (concat chs)) = Ok ctx' →
  ∃ c, foldM (access_range_block open_log first last) (ctx, set_cache t c0) (map ie_pos es) =
         Ok (ctx', set_cache t c) ∧ table_ok (set_cache t c) cs.
Proof.
  intros ctx ctx' c0 Ht Hes. revert ctx c0 Ht. induction Hes as [|e ch es chs He Hes IH]; intros ctx c0 Ht Hfold.
  { injection Hfold as <-. by exists c0. }
  cbn [concat] in Hfold. rewrite List.filter_app, foldM_app in Hfold.
  destruct (foldM _ ctx (List.filter _ ch)) as [ctx1| |] eqn:E1; try done.
  destruct He as (i & Hi & ->). cbn [map foldM entry_of ie_pos]. unfold access_range_block at 1.
  destruct (target_record_block_ok _ cs i ch Ht Hi) as (c & -> & Ht'). bind_step.
  rewrite query_collect_all by apply (Forall_lookup_1 _ _ _ _ (tok_fits _ _ Ht) Hi). bind_step.
  rewrite foldM_map.
  rewrite (foldM_ext _ complete_step) by (by intros s [k w]). rewrite E1. bind_step.
  by apply (IH ctx1 c).
Qed.

Lemma access_range_ok {HB : BittleSpec Bt} t cs ctx :
  table_ok t cs → sorted (concat cs) → ctx_wf ctx → is_completed ctx = false →
  ∃ ctx' c, access_range open_log t ctx = Ok (ctx', set_cache t c) ∧ table_ok (set_cache t c) cs ∧
    ctx_wf ctx' ∧ start ctx' = start ctx ∧ num_values ctx' = num_values ctx ∧
    (∀ j, j < num_values ctx →
       slot_done ctx' j = slot_done ctx j || bool_decide (find_value (concat cs) (start ctx + j) ≠ None)) ∧
    (∀ k v, (k, v) ∈ results ctx' ↔ (k, v) ∈ results ctx ∨
       start ctx ≤ k < start ctx + num_values ctx ∧ slot_done ctx (k - start ctx) = false ∧
       find_value (concat cs) k = Some v).
Proof.
  intros Ht Hs Hc Hnc. unfold access_range. rewrite Hnc. cbn [negb assert_]. bind_step.
  pose proof (range_uncompleted_ok ctx Hc) as Hr. rewrite Hnc in Hr.
  destruct Hr as (a & b & -> & Hab & Ha & Hb & Hall). bind_step. cbn [unwrap]. bind_step.
  set (lo := start ctx + a). set (hi := start ctx + b).
  set (rs := List.filter (in_window lo hi) (concat cs)).
  assert (Hrs : ∀ k w, (k, w) ∈ rs ↔ (k, w) ∈ concat cs ∧ lo ≤ k ≤ hi).
  { intros k w. unfold rs. rewrite list_elem_of_In, filter_In, <- list_elem_of_In. unfold in_window. simpl.
    by rewrite andb_true_iff, !Nat.leb_le. }
  destruct (complete_all rs ctx Hc) as (ctx' & Hfold & Hc' & Hst & Hn & Hd & Hres).
  { unfold rs. apply NoDup_filter_keys, sorted_NoDup, Hs. }
  { intros k w [_ ?]%Hrs. unfold lo, hi in *. lia. }
  destruct (overlap_blocks cs _ _ lo hi ltac:(unfold lo, hi; lia) (index_of_entries cs)) as (chs & Hes & Heq).
  { apply Forall_lookup. intros i ch Hi. by apply (sorted_block cs i). }
  destruct (access_range_blocks t cs lo hi (List.filter (λ e, entry_overlap_with e (lo, hi)) (index_of cs)) chs
              ctx ctx' (sst_cache t)) as (c & Hrun & Ht');
    [by destruct t|exact Hes|by rewrite Heq|].
  exists ctx', c. rewrite (tok_index _ _ Ht). destruct t as [id mt ix ca]. split; [exact Hrun|].
  split; [done|]. split; [done|]. do 2 (split; [done|]).
  assert (Hfv : ∀ k, find_value (concat cs) k ≠ None ↔ ∃ w, (k, w) ∈ concat cs).
  { intros k. rewrite not_eq_None_Some. unfold is_Some. setoid_rewrite (find_value_Some _ k _ Hs). naive_solver. }
  assert (Hkeys : ∀ k, k ∈ rs.*1 ↔ find_value (concat cs) k ≠ None ∧ lo ≤ k ≤ hi).
  { intros k. rewrite list_elem_of_fmap, Hfv. split.
    - intros ([k' w] & -> & [Hk ?]%Hrs). eauto.
    - intros [[w Hw] ?]. exists (k, w). by rewrite Hrs. }
  split.
  - intros j Hj. rewrite Hd. destruct (slot_done ctx j) eqn:Ej; [done|]. simpl.
    apply bool_decide_ext. rewrite Hkeys. specialize (Hall j Hj Ej). unfold lo, hi. intuition lia.
  - intros k v. rewrite Hres, (find_value_Some _ k v Hs). setoid_rewrite Hrs.
    assert (Hwin : start ctx ≤ k < start ctx + num_values ctx → slot_done ctx (k - start ctx) = false →
            lo ≤ k ≤ hi).
    { intros Hk Hk0. specialize (Hall (k - start ctx) ltac:(lia) Hk0). unfold lo, hi. lia. }
    split; (intros [?|?]; [by left|right]); [|naive_solver].
    destruct_and!. unfold lo, hi in *. naive_solver (lia).
Qed.
End table.

(** ** Building a table *)
Lemma foldM_run {A S} (f : S → A → res S) (I : S → list A → Prop) l : ∀ s s' l0,
  I s l0 → (∀ s x s' l0, I s l0 → f s x = Ok s' → I s' (l0 ++ [x])) →
  foldM f s l = Ok s' → I s' (l0 ++ l).
Proof.
  induction l as [|x l IH]; intros s s' l0 Hs Hstep Hf; simpl in Hf.
  { injection Hf as <-. by rewrite app_nil_r. }
  destruct (f s x) as [s1| |] eqn:E; try done.
  specialize (IH s1 s' (l0 ++ [x])). rewrite <- app_assoc in IH. apply IH; [|done..]. by eapply Hstep.
Qed.

Lemma try_from_buf n b : is_buf n b → Buf_try_from b = Ok b.
Proof. intros Hb. apply try_from_is_buf. by rewrite (nblocks_of_is_buf n). Qed.

Section building.
Context {Bt : Bittle} {BP : BidPod} {V : Type} {RP : RecordPod V} {HR : RecordPodSpec V RP}.
Context {FP : FooterMetaPod} {LC : LruCache} {HC : LruSpec LC}.
Context {P : Pages} {L : Type} {HL : BlockLog L} {HLS : ByteLogSpec L}.
Context (listener : option (nat → V → res unit)).
Implicit Types (kv : nat * ValueEx V) (ch cur : list (nat * ValueEx V)).
Implicit Types (cs : list (list (nat * ValueEx V))) (st : BuildState (L := L)).

(** A block that was closed for lack of room. *)
Definition full ch : Prop := RECORD_BLOCK_SIZE < length ch * (MAX_RECORD_SIZE + K_SIZE) + MAX_RECORD_SIZE.

(** The blocks [cs] are written, the records [cur] are in the buffer. *)
Record building st cs cur : Prop := {
  b_fits : Forall fits cs;
  b_index : index_vec st = index_of cs;
  b_total : bs_total st = length (concat cs ++ cur);
  b_pos : bs_pos st = length cs * RECORD_BLOCK_NBLOCKS;
  b_buf : block_buf st = enc_recs cur;
  b_offset : if decide (cur = []) then inner_offset st = 0
             else off cur ≤ inner_offset st ∧ inner_offset st + MAX_RECORD_SIZE ≤ RECORD_BLOCK_SIZE ∧
                  first_k st = Some (first_key cur) ∧ curr_k st = Some (last_key cur);
  b_log : bl_content (bs_log st) (concat (map enc_block cs));
  b_cache : cache_ok (bs_cache st) cs;
  b_small : inner_offset st ≤ length cur * (MAX_RECORD_SIZE + K_SIZE);
  b_full : Forall full cs;
}.

Lemma enc_block_is_buf ch : is_buf RECORD_BLOCK_NBLOCKS (enc_block ch).
Proof.
  split; [apply RECORD_BLOCK_NBLOCKS_pos|]. by rewrite enc_block_length, RECORD_BLOCK_SIZE_eq.
Qed.

Lemma index_of_snoc cs ch : index_of (cs ++ [ch]) = index_of cs ++ [entry_of (length cs) ch].
Proof. unfold index_of. rewrite imap_app. simpl. by rewrite Nat.add_0_r. Qed.

Lemma cache_ok_put c cs ch :
  cache_ok c cs → cache_ok (lru_put c (length cs * RECORD_BLOCK_NBLOCKS) (enc_block ch)) (cs ++ [ch]).
Proof.
  intros Hc p v [[-> ->]|[_ Hp]]%lru_put_has.
  - exists (length cs), ch. by rewrite lookup_app_r, Nat.sub_diag.
  - destruct (Hc _ _ Hp) as (i & ch' & Hi & Hr). exists i, ch'. split; [|done]. by apply lookup_app_l_Some.
Qed.

(** Writing the buffered records as the next block. *)
Lemma build_one_inv e cur log cache log' cache' bytes :
  build_one_record_block e (enc_recs cur) log cache = Ok (log', cache') → bl_content log bytes →
  bl_content log' (bytes ++ enc_block cur) ∧ cache' = lru_put cache (ie_pos e) (enc_block cur).
Proof.
  intros Hb Hl. unfold build_one_record_block in Hb. fold (enc_block cur) in Hb.
  rewrite from_buf_ok, bind_Ok in Hb by apply enc_block_length.
  rewrite (try_from_buf _ _ (enc_block_is_buf cur)) in Hb. cbn [unwrap_res] in Hb. rewrite bind_Ok in Hb.
  apply bind_inv in Hb as ([pos l'] & Hap & [= <- <-]). split; [|done].
  eapply bl_append_content; [exact Hl|apply enc_block_is_buf|exact Hap].
Qed.

(** The record part of a step: the bytes added, and how far the offset moves (the key is
    counted twice for a record with two values). *)
Definition counted kv : nat :=
  length (enc_rec kv) + match kv.2 with SyncedAndUnsynced _ _ => K_SIZE | _ => 0 end.

Lemma counted_le kv : counted kv ≤ MAX_RECORD_SIZE + K_SIZE.
Proof.
  unfold counted. rewrite enc_rec_length. destruct sizes_eq as [_ ->].
  destruct kv as [k [v|v|sv usv]]; cbn [fst snd vals_of length]; lia.
Qed.

Definition heard kv : Prop := ∀ v, v ∈ vals_of kv.2 → notify listener kv.1 v = Ok ().

(** A step that succeeds, taken apart. *)
Lemma build_step_eq st kv :
  heard kv → (inner_offset st = 0 → block_buf st = []) →
  build_step listener st kv =
    (let offset := inner_offset st + counted kv in
     let first := if inner_offset st =? 0 then Some kv.1 else first_k st in
     let buf := block_buf st ++ enc_rec kv in
     cap ← usub RECORD_BLOCK_SIZE offset;
     if MAX_RECORD_SIZE <=? cap
     then Ok (mkBuildState (index_vec st) (bs_total st + 1) (bs_pos st) first (Some kv.1) offset buf
                (bs_log st) (bs_cache st))
     else first_key ← unwrap first;
          let e := mkIndexEntry (bs_pos st) first_key kv.1 in
          '(log, cache) ← build_one_record_block e buf (bs_log st) (bs_cache st);
          Ok (mkBuildState (index_vec st ++ [e]) (bs_total st + 1) (bs_pos st + RECORD_BLOCK_NBLOCKS) first
                (Some kv.1) 0 [] log cache)).
Proof.
  intros Hh Hb. unfold build_step. destruct kv as [k v].
  assert (Hfirst : (if inner_offset st =? 0 then _ ← assert_ (length (block_buf st) =? 0); Ok (Some k)
                    else Ok (first_k st)) = Ok (if inner_offset st =? 0 then Some k else first_k st)).
  { destruct (inner_offset st =? 0) eqn:E; [|done]. bool_simpl. by rewrite Hb. }
  rewrite Hfirst. bind_step. cbv zeta. unfold heard in Hh. unfold counted. rewrite enc_rec_length.
  destruct sizes_eq as [_ Hmax].
  destruct v as [v|v|sv usv]; cbn [fst snd vals_of length] in *.
  1,2: rewrite Hh by set_solver; bind_step; unfold enc_rec; cbn [fst snd vals_of flag_of map concat];
       rewrite app_nil_r, <- app_assoc; cbn [app];
       replace (inner_offset st + K_SIZE + (1 + V_SIZE)) with (inner_offset st + (K_SIZE + 1 + 1 * V_SIZE + 0)) by lia;
       reflexivity.
  rewrite !Hh by set_solver. bind_step. unfold enc_rec. cbn [fst snd vals_of flag_of map concat].
  rewrite app_nil_r, <- !app_assoc. cbn [app].
  replace (inner_offset st + K_SIZE + MAX_RECORD_SIZE)
    with (inner_offset st + (K_SIZE + 1 + 2 * V_SIZE + K_SIZE)) by lia.
  reflexivity.
Qed.

Lemma build_step_heard st kv st' : build_step listener st kv = Ok st' → heard kv.
Proof.
  unfold build_step. destruct kv as [k v]. intros (f & _ & H)%bind_inv. cbv zeta in H.
  apply bind_inv in H as ([b o] & H & _). unfold heard.
  destruct v as [v|v|sv usv]; cbn [fst snd vals_of];
    repeat (apply bind_inv in H as ([] & ? & H)); intros w Hw; set_solver.
Qed.

Lemma first_key_snoc cur kv : first_key (cur ++ [kv]) = if decide (cur = []) then kv.1 else first_key cur.
Proof. by destruct cur. Qed.
Lemma last_key_snoc cur kv : last_key (cur ++ [kv]) = kv.1.
Proof. unfold last_key. by rewrite last_snoc. Qed.

Lemma building_offset st cs cur :
  building st cs cur → off cur ≤ inner_offset st ∧ inner_offset st + MAX_RECORD_SIZE ≤ RECORD_BLOCK_SIZE ∧
    (inner_offset st = 0 → cur = []) ∧ (cur ≠ [] → first_k st = Some (first_key cur)) ∧
    (if inner_offset st =? 0 then cur = [] else cur ≠ []).
Proof.
  intros Hb. pose proof (b_offset _ _ _ Hb) as Ho. destruct (decide (cur = [])) as [->|Hne].
  - rewrite Ho, Nat.eqb_refl. unfold off. cbn [enc_recs map concat length]. pose proof record_fits. split_and!; done.
  - destruct Ho as (H1 & H2 & H3 & _). split_and!; try done.
    + intros H0. rewrite H0 in H1. destruct cur as [|kv cur]; [done|].
      unfold off in H1. rewrite enc_recs_cons, length_app, enc_rec_length in H1. lia.
    + destruct (inner_offset st =? 0) eqn:E; bool_simpl; [|done]. rewrite E in H1.
      destruct cur as [|kv cur]; [done|]. unfold off in H1. rewrite enc_recs_cons, length_app, enc_rec_length in H1. lia.
Qed.

(** One more record is added to the buffer, or is the last of a block. *)
Lemma build_step_cases st cs cur kv st' :
  building st cs cur → build_step listener st kv = Ok st' →
  let offset := inner_offset st + counted kv in
  if decide (offset + MAX_RECORD_SIZE ≤ RECORD_BLOCK_SIZE)
  then building st' cs (cur ++ [kv]) ∧ inner_offset st' = offset
  else building st' (cs ++ [cur ++ [kv]]) [].
Proof.
  intros Hb Hs offset. pose proof (build_step_heard _ _ _ Hs) as Hh.
  destruct (building_offset _ _ _ Hb) as (Ho1 & Ho2 & Ho3 & Ho4 & Ho5).
  rewrite build_step_eq in Hs; [|done|intros H0; by rewrite (b_buf _ _ _ Hb), (Ho3 H0)].
  cbv zeta in Hs. apply bind_inv in Hs as (cap & Hcap & Hs).
  assert (Hfirst : (if inner_offset st =? 0 then Some kv.1 else first_k st) = Some (first_key (cur ++ [kv]))).
  { rewrite first_key_snoc. destruct (inner_offset st =? 0); [by rewrite decide_True|].
    rewrite decide_False by done. by apply Ho4. }
  rewrite Hfirst, (b_buf _ _ _ Hb) in Hs.
  rewrite <- enc_recs_snoc in Hs. unfold usub in Hcap. destruct (_ <=? RECORD_BLOCK_SIZE) eqn:Ec; [|done].
  bool_simpl. injection Hcap as <-.
  assert (Hoff : off (cur ++ [kv]) ≤ inner_offset st + counted kv).
  { unfold off. rewrite enc_recs_snoc, length_app. fold (off cur). unfold counted. lia. }
  destruct (MAX_RECORD_SIZE <=? _) eqn:Em; bool_simpl.
  - injection Hs as <-. rewrite decide_True by (unfold offset; lia). split; [|done].
    destruct Hb as [Hb1 Hb2 Hb3 Hb4 Hb5 Hb6 Hb7 Hb8 Hb9 Hb10].
    constructor; try assumption; cbn [index_vec bs_total bs_pos first_k curr_k inner_offset block_buf bs_log bs_cache].
    + rewrite app_assoc, (length_app _ [kv]). by f_equal.
    + reflexivity.
    + rewrite decide_False by (by destruct cur). rewrite last_key_snoc. split_and!; [done|lia|done..].
    + rewrite length_app. cbn [length]. pose proof (counted_le kv). lia.
  - cbn [unwrap] in Hs. rewrite bind_Ok in Hs. apply bind_inv in Hs as ([log cache] & Hone & [= <-]).
    destruct (build_one_inv _ _ _ _ _ _ _ Hone (b_log _ _ _ Hb)) as [Hl ->]. cbn [ie_pos].
    rewrite decide_False by (unfold offset; lia).
    destruct Hb as [Hb1 Hb2 Hb3 Hb4 _ _ _ Hb8 Hb9 Hb10].
    constructor; cbn [index_vec bs_total bs_pos first_k curr_k inner_offset block_buf bs_log bs_cache].
    + apply Forall_app. split; [done|]. apply Forall_singleton. split; [by destruct cur|].
      unfold off in Hoff. lia.
    + rewrite index_of_snoc, Hb2, Hb4. f_equal. unfold entry_of. by rewrite last_key_snoc.
    + rewrite concat_app. cbn [concat]. rewrite !app_nil_r, app_assoc, (length_app _ [kv]). by f_equal.
    + rewrite length_app, Hb4. cbn [length]. lia.
    + done.
    + done.
    + rewrite map_app, concat_app. cbn [map concat]. by rewrite app_nil_r.
    + rewrite Hb4. by apply cache_ok_put.
    + lia.
    + apply Forall_app. split; [done|]. apply Forall_singleton. unfold full. rewrite length_app. cbn [length].
      pose proof (counted_le kv). lia.
Qed.

Lemma build_step_inv st cs cur kv st' :
  building st cs cur → build_step listener st kv = Ok st' →
  ∃ cs' cur', building st' cs' cur' ∧ concat cs' ++ cur' = (concat cs ++ cur) ++ [kv].
Proof.
  intros Hb Hs. pose proof (build_step_cases _ _ _ _ _ Hb Hs) as Hc. cbv zeta in Hc.
  destruct (decide _); [exists cs, (cur ++ [kv])|exists (cs ++ [cur ++ [kv]]), []].
  - split; [apply Hc|by rewrite app_assoc].
  - split; [done|]. rewrite concat_app. cbn [concat]. by rewrite !app_nil_r, app_assoc.
Qed.

(** A step succeeds unless a two-valued record meets too little room. *)
Lemma build_step_total st cs cur kv :
  building st cs cur → heard kv → inner_offset st + counted kv ≤ RECORD_BLOCK_SIZE →
  RECORD_BLOCK_NBLOCKS ≤ bl_left (bs_log st) →
  ∃ st', build_step listener st kv = Ok st' ∧ bl_left (bs_log st) ≤ bl_left (bs_log st') + RECORD_BLOCK_NBLOCKS.
Proof.
  intros Hb Hh Hc Hroom. destruct (building_offset _ _ _ Hb) as (Ho1 & Ho2 & Ho3 & Ho4 & Ho5).
  rewrite build_step_eq; [|done|intros H0; by rewrite (b_buf _ _ _ Hb), (Ho3 H0)].
  cbv zeta. rewrite usub_ok by done. bind_step. destruct (MAX_RECORD_SIZE <=? _).
  { eexists. split; [done|]. cbn. lia. }
  assert (∃ k, (if inner_offset st =? 0 then Some kv.1 else first_k st) = Some k) as [k ->].
  { destruct (inner_offset st =? 0); eauto. }
  cbn [unwrap]. bind_step. unfold build_one_record_block.
  rewrite (b_buf _ _ _ Hb), <- enc_recs_snoc.
  fold (enc_block (cur ++ [kv])). rewrite from_buf_ok by apply enc_block_length. bind_step.
  rewrite (try_from_buf _ _ (enc_block_is_buf (cur ++ [kv]))). cbn [unwrap_res]. bind_step.
  destruct (bl_append_left _ _ _ _ (b_log _ _ _ Hb) (enc_block_is_buf (cur ++ [kv])) Hroom) as (pos & l' & -> & Hl').
  bind_step. eexists. split; [done|]. cbn. lia.
Qed.

(** The record part of the log: the blocks hold the records in order. *)
Definition blocks_of (rs : list (nat * ValueEx V)) cs : Prop :=
  concat cs = rs ∧ cs ≠ [] ∧ Forall fits cs.

Lemma building_start log cache :
  bl_content log [] → (∀ p v, ¬ lru_has cache p v) →
  building (mkBuildState [] 0 0 None None 0 [] log cache) [] [].
Proof. intros Hl Hc. constructor; try done. intros p v Hp. by destruct (Hc p v). Qed.

(** From any point of the loop on, blocks are only added. *)
Lemma build_loop_from rs st st' cs0 cur0 :
  building st cs0 cur0 → foldM (build_step listener) st rs = Ok st' →
  ∃ cs cur, building st' (cs0 ++ cs) cur ∧ concat cs ++ cur = cur0 ++ rs.
Proof.
  intros Hb Hf.
  apply (foldM_run _ (λ st done, ∃ cs cur, building st (cs0 ++ cs) cur ∧ concat cs ++ cur = cur0 ++ done)
           rs _ _ []) in Hf.
  - exact Hf.
  - exists [], cur0. rewrite !app_nil_r. by split.
  - intros s kv s' done (cs & cur & Hbs & Heq) Hs. pose proof (build_step_cases _ _ _ _ _ Hbs Hs) as Hc.
    cbv zeta in Hc. rewrite (app_assoc cur0), <- Heq. destruct (decide _).
    + exists cs, (cur ++ [kv]). split; [apply Hc|by rewrite app_assoc].
    + exists (cs ++ [cur ++ [kv]]), []. split; [by rewrite app_assoc|].
      rewrite concat_app. cbn [concat]. by rewrite !app_nil_r, app_assoc.
Qed.

Lemma build_loop_inv rs st log cache :
  bl_content log [] → (∀ p v, ¬ lru_has cache p v) →
  foldM (build_step listener) (mkBuildState [] 0 0 None None 0 [] log cache) rs = Ok st →
  ∃ cs cur, building st cs cur ∧ concat cs ++ cur = rs.
Proof.
  intros Hl Hc Hf.
  apply (foldM_run _ (λ st done, ∃ cs cur, building st cs cur ∧ concat cs ++ cur = done) rs _ _ []) in Hf.
  - exact Hf.
  - exists [], []. split; [by apply building_start|done].
  - intros s kv s' done (cs & cur & Hb & <-) Hs. by apply (build_step_inv _ _ _ _ _ Hb Hs).
Qed.

(** The blocks written at the end of the loop. *)
Definition all_blocks cs cur : list (list (nat * ValueEx V)) := cs ++ match cur with [] => [] | _ => [cur] end.

Lemma all_blocks_last cs cur : cur ≠ [] → all_blocks cs cur = cs ++ [cur].
Proof. by destruct cur. Qed.
Lemma all_blocks_nil cs : all_blocks cs [] = cs.
Proof. apply app_nil_r. Qed.

Lemma build_record_blocks_end rs log cache st cs cur total index log' cache' :
  foldM (build_step listener) (mkBuildState [] 0 0 None None 0 [] log cache) rs = Ok st →
  building st cs cur → concat cs ++ cur = rs →
  build_record_blocks listener rs log cache = Ok (total, index, log', cache') →
  blocks_of rs (all_blocks cs cur) ∧ index = index_of (all_blocks cs cur) ∧ total = length rs ∧
  bl_content log' (concat (map enc_block (all_blocks cs cur))) ∧ cache_ok cache' (all_blocks cs cur).
Proof.
  intros Hf Hb <- Hr. unfold build_record_blocks in Hr. rewrite Hf, bind_Ok in Hr. clear Hf.
  apply bind_inv in Hr as ([] & Ha & Hr). rewrite (b_total _ _ _ Hb) in Ha.
  destruct (0 <? _) eqn:E0; [|done]. bool_simpl. clear Ha.
  assert (Hz : length (block_buf st) = 0 ↔ cur = []).
  { rewrite (b_buf _ _ _ Hb). split; [|by intros ->]. destruct cur as [|kv cur]; [done|].
    rewrite enc_recs_cons, length_app, enc_rec_length. lia. }
  destruct (length (block_buf st) =? 0) eqn:Eb; bool_simpl.
  - apply Hz in Eb as ->. rewrite all_blocks_nil. rewrite !app_nil_r in *. injection Hr as <- <- <- <-.
    pose proof (b_total _ _ _ Hb) as Ht. rewrite app_nil_r in Ht.
    destruct Hb as [Hb1 Hb2 Hb3 Hb4 _ _ Hb7 Hb8 _ _]. split; [|by split].
    split; [reflexivity|]. split; [|exact Hb1]. intros ->. cbn in E0. lia.
  - assert (Hne : cur ≠ []) by tauto. pose proof (b_offset _ _ _ Hb) as Ho. rewrite decide_False in Ho by done.
    destruct Ho as (Ho1 & Ho2 & Hfk & Hck). rewrite Hfk, Hck, (b_buf _ _ _ Hb) in Hr. cbn [unwrap] in Hr.
    rewrite !bind_Ok in Hr. apply bind_inv in Hr as ([lg ca] & Hone & [= <- <- <- <-]).
    destruct (build_one_inv _ _ _ _ _ _ _ Hone (b_log _ _ _ Hb)) as [Hlg ->]. cbn [ie_pos].
    destruct Hb as [Hb1 Hb2 Hb3 Hb4 _ _ _ Hb8 _ _].
    rewrite all_blocks_last by exact Hne.
    split; [|split; [|split; [|split]]].
    + unfold blocks_of. rewrite concat_app. cbn [concat]. rewrite app_nil_r.
      split; [done|]. split; [by destruct cs|]. apply Forall_app. split; [done|].
      apply Forall_singleton. split; [done|]. unfold off in Ho1. lia.
    + by rewrite index_of_snoc, Hb2, Hb4.
    + done.
    + rewrite map_app, concat_app. cbn [map concat]. by rewrite app_nil_r.
    + rewrite Hb4. by apply cache_ok_put.
Qed.

Lemma build_record_blocks_inv rs log cache total index log' cache' :
  bl_content log [] → (∀ p v, ¬ lru_has cache p v) →
  build_record_blocks listener rs log cache = Ok (total, index, log', cache') →
  ∃ st cs cur, foldM (build_step listener) (mkBuildState [] 0 0 None None 0 [] log cache) rs = Ok st ∧
    building st cs cur ∧ concat cs ++ cur = rs.
Proof.
  intros Hl Hc Hr. unfold build_record_blocks in Hr. apply bind_inv in Hr as (st & Hf & _).
  destruct (build_loop_inv rs st log cache Hl Hc Hf) as (cs & cur & Hb). by exists st, cs, cur.
Qed.

(** Without two-valued records a build never runs out of room in a block. *)
Definition single kv : Prop := match kv.2 with SyncedAndUnsynced _ _ => False | _ => True end.

Lemma build_loop_total rs log cache :
  bl_content log [] → (∀ p v, ¬ lru_has cache p v) → Forall heard rs → Forall single rs →
  length rs * RECORD_BLOCK_NBLOCKS ≤ bl_left log →
  ∃ st, foldM (build_step listener) (mkBuildState [] 0 0 None None 0 [] log cache) rs = Ok st ∧
        bl_left log ≤ bl_left (bs_log st) + length rs * RECORD_BLOCK_NBLOCKS.
Proof.
  intros Hl Hc Hh Hs Hroom.
  destruct (foldM_inv (build_step listener)
    (λ st todo, (∃ cs cur, building st cs cur) ∧ Forall heard todo ∧ Forall single todo ∧
       length todo ≤ length rs ∧
       bl_left log ≤ bl_left (bs_log st) + (length rs - length todo) * RECORD_BLOCK_NBLOCKS)
    rs (mkBuildState [] 0 0 None None 0 [] log cache)) as (st & Hf & _ & _ & _ & _ & Hleft).
  - split; [exists [], []; by apply building_start|]. split_and!; try done. cbn. lia.
  - intros st kv todo ((cs & cur & Hb) & [Hk Hh']%Forall_cons & [Hk2 Hs']%Forall_cons & Hlen & Hleft).
    cbn [length] in *. destruct (building_offset _ _ _ Hb) as (_ & Ho2 & _).
    assert (Hnow : (length rs - S (length todo)) * RECORD_BLOCK_NBLOCKS + RECORD_BLOCK_NBLOCKS =
                   (length rs - length todo) * RECORD_BLOCK_NBLOCKS).
    { replace (length rs - length todo) with (S (length rs - S (length todo))) by lia. simpl. lia. }
    assert ((length rs - length todo) * RECORD_BLOCK_NBLOCKS ≤ length rs * RECORD_BLOCK_NBLOCKS)
      by (apply Nat.mul_le_mono_r; lia).
    destruct (build_step_total st cs cur kv Hb Hk) as (st' & Hst & Hl').
    { unfold counted. rewrite enc_rec_length. destruct sizes_eq as [_ Hmax]. rewrite Hmax in Ho2.
      unfold single in Hk2. destruct kv as [k [v|v|sv usv]]; cbn [fst snd vals_of length] in *; [lia..|done]. }
    { lia. }
    exists st'. split; [done|]. destruct (build_step_inv _ _ _ _ _ Hb Hst) as (cs' & cur' & Hb' & _).
    split; [by exists cs', cur'|]. split_and!; try done; lia.
  - exists st. split; [done|]. cbn [length] in Hleft. by rewrite Nat.sub_0_r in Hleft.
Qed.

Lemma build_record_blocks_total rs log cache :
  bl_content log [] → (∀ p v, ¬ lru_has cache p v) → rs ≠ [] → Forall heard rs → Forall single rs →
  (length rs + 1) * RECORD_BLOCK_NBLOCKS ≤ bl_left log →
  ∃ r log' cache', build_record_blocks listener rs log cache = Ok (r, log', cache') ∧
    bl_left log ≤ bl_left log' + (length rs + 1) * RECORD_BLOCK_NBLOCKS.
Proof.
  intros Hl Hc Hne Hh Hs Hroom. rewrite Nat.mul_add_distr_r, Nat.mul_1_l in *.
  destruct (build_loop_total rs log cache Hl Hc Hh Hs ltac:(lia)) as (st & Hf & Hleft).
  destruct (build_loop_inv rs st log cache Hl Hc Hf) as (cs & cur & Hb & Hrs).
  unfold build_record_blocks. rewrite Hf. bind_step. rewrite (b_total _ _ _ Hb), Hrs.
  assert (0 < length rs) as Hpos by (destruct rs; [done|simpl; lia]).
  rewrite (proj2 (Nat.ltb_lt _ _)) by done. cbn [assert_]. bind_step.
  destruct (length (block_buf st) =? 0) eqn:Eb; [eexists _, _, _; split; [done|lia]|]. bool_simpl.
  assert (cur ≠ []) as Hcur.
  { intros ->. apply Eb. by rewrite (b_buf _ _ _ Hb). }
  pose proof (b_offset _ _ _ Hb) as Ho. rewrite decide_False in Ho by done. destruct Ho as (_ & _ & -> & ->).
  cbn [unwrap]. bind_step. unfold build_one_record_block. rewrite (b_buf _ _ _ Hb). fold (enc_block cur).
  rewrite from_buf_ok by apply enc_block_length. bind_step.
  rewrite (try_from_buf _ _ (enc_block_is_buf cur)). cbn [unwrap_res]. bind_step.
  destruct (bl_append_left _ _ _ _ (b_log _ _ _ Hb) (enc_block_is_buf cur) ltac:(lia)) as (pos & l' & -> & Hl').
  bind_step. eexists _, _, _. split; [done|]. lia.
Qed.
End building.

(** ** The footer *)
Lemma footer_sizes : FOOTER_META_SIZE ≤ BLOCK_SIZE ∧ 2 * INDEX_ENTRY_SIZE ≤ BLOCK_SIZE ∧ INDEX_ENTRY_SIZE = 24 ∧ FOOTER_META_SIZE = 24.
Proof. with_strategy transparent [BLOCK_SIZE] (vm_compute; lia). Qed.

Section footer.
Context {BP : BidPod} {HBP : BidPodSpec BP} {V : Type} {RP : RecordPod V} {HR : RecordPodSpec V RP}.
Context {FP : FooterMetaPod} {HFP : FooterMetaPodSpec FP} {LC : LruCache} {HC : LruSpec LC}.
Context {P : Pages} {HP : PagesSpec P} {L : Type} {HL : BlockLog L} {HLS : ByteLogSpec L}.
Implicit Types (idx : list IndexEntry) (cs : list (list (nat * ValueEx V))).

Definition footer_nblocks (n : nat) : nat := align_up (n * INDEX_ENTRY_SIZE + FOOTER_META_SIZE) BLOCK_SIZE / BLOCK_SIZE.

Lemma footer_nblocks_eq n :
  footer_nblocks n * BLOCK_SIZE = align_up (n * INDEX_ENTRY_SIZE + FOOTER_META_SIZE) BLOCK_SIZE.
Proof.
  unfold footer_nblocks. destruct (align_up_divide (n * INDEX_ENTRY_SIZE + FOOTER_META_SIZE) BLOCK_SIZE) as [k ->].
  pose proof BLOCK_SIZE_pos. by rewrite Nat.div_mul by lia.
Qed.

Lemma footer_nblocks_pos n : 0 < footer_nblocks n.
Proof.
  pose proof (footer_nblocks_eq n) as He. destruct footer_sizes as (_ & _ & _ & Hm).
  pose proof (align_up_ge (n * INDEX_ENTRY_SIZE + FOOTER_META_SIZE) BLOCK_SIZE BLOCK_SIZE_pos).
  destruct (footer_nblocks n); lia.
Qed.

Lemma footer_nblocks_le n : footer_nblocks n ≤ n `max` 1.
Proof.
  pose proof (footer_nblocks_eq n) as He. destruct footer_sizes as (Hf1 & Hf2 & Hf3 & Hf4).
  pose proof (align_up_lt (n * INDEX_ENTRY_SIZE + FOOTER_META_SIZE) BLOCK_SIZE BLOCK_SIZE_pos) as Hlt.
  rewrite <- He, Hf3, Hf4 in Hlt. rewrite Hf3 in Hf2. clear He Hf1 Hf3 Hf4.
  set (f := footer_nblocks n) in *. clearbody f. generalize dependent BLOCK_SIZE. intros bs Hbs Hlt.
  destruct f as [|[|f]]; [lia..|]. assert ((S f) * 48 ≤ S f * bs) by (apply Nat.mul_le_mono_l; lia).
  cbn [Nat.mul] in Hlt. lia.
Qed.

Lemma footer_nblocks_small n : n < U16 → footer_nblocks n < U16.
Proof.
  intros Hn. eapply Nat.le_lt_trans; [apply footer_nblocks_le|]. apply Nat.max_lub_lt; [done|].
  apply U16_gt_1.
Qed.

Definition meta_of (n total sync_id : nat) : FooterMeta :=
  mkFooterMeta (as_u16 n) (as_u16 (footer_nblocks n)) (as_u32 total) (as_u32 RECORD_BLOCK_SIZE) sync_id.

Lemma entries_length idx : length (concat (map entry_bytes idx)) = length idx * INDEX_ENTRY_SIZE.
Proof.
  rewrite (length_concat_same INDEX_ENTRY_SIZE), length_map; [done|].
  apply Forall_map, Forall_true. intros e. unfold entry_bytes.
  by rewrite !length_app, bid_bytes_length, !key_bytes_length.
Qed.

(** The bytes of the footer: the entries, padding, and the metadata at the end. *)
Definition footer_image idx (m : FooterMeta) (foot : list byte) : Prop :=
  ∃ pad, foot = concat (map entry_bytes idx) ++ pad ++ meta_bytes m ∧ is_buf (footer_nblocks (length idx)) foot.

Lemma build_footer_buf idx m :
  let len := align_up (length idx * INDEX_ENTRY_SIZE + FOOTER_META_SIZE) BLOCK_SIZE in
  let buf := vec_resize (concat (map entry_bytes idx)) len 0%Z in
  ∃ foot, copy_from_slice buf (len - FOOTER_META_SIZE) (length buf) (meta_bytes m) = Ok foot ∧
          footer_image idx m foot.
Proof.
  intros len buf. pose proof (align_up_ge (length idx * INDEX_ENTRY_SIZE + FOOTER_META_SIZE) BLOCK_SIZE BLOCK_SIZE_pos).
  fold len in H. assert (Hb : length buf = len) by apply vec_resize_length.
  destruct footer_sizes as (_ & _ & _ & Hm).
  rewrite copy_from_slice_ok by (rewrite ?meta_bytes_length; lia). eexists. split; [done|].
  unfold buf. rewrite vec_resize_grow by (rewrite entries_length; lia). unfold splice.
  set (E := concat (map entry_bytes idx)). assert (HE : length E = length idx * INDEX_ENTRY_SIZE) by apply entries_length.
  rewrite take_app_ge by lia. rewrite drop_ge, app_nil_r
    by (rewrite length_app, length_replicate, meta_bytes_length; lia).
  rewrite <- app_assoc. eexists. split; [done|].
  split; [apply footer_nblocks_pos|]. rewrite footer_nblocks_eq. fold len.
  rewrite !length_app, length_take, length_replicate, meta_bytes_length, HE. lia.
Qed.

Lemma build_footer_inv idx total sync_id log bytes m log' :
  bl_content log bytes → build_footer idx total sync_id log = Ok (m, log') →
  m = meta_of (length idx) total sync_id ∧
  ∃ foot, footer_image idx m foot ∧ bl_content log' (bytes ++ foot).
Proof.
  intros Hl Hb. unfold build_footer in Hb.
  destruct (build_footer_buf idx (meta_of (length idx) total sync_id)) as (foot & Hc & Hf).
  cbv zeta in Hb. fold (footer_nblocks (length idx)) in Hb. fold (meta_of (length idx) total sync_id) in Hb.
  rewrite Hc, bind_Ok in Hb. pose proof Hf as (pad & _ & Hbuf).
  rewrite (try_from_buf _ _ Hbuf) in Hb. cbn [unwrap_res] in Hb. rewrite bind_Ok in Hb.
  apply bind_inv in Hb as ([pos l'] & Hap & [= <- <-]). split; [done|]. exists foot. split; [done|].
  eapply bl_append_content; [exact Hl|exact Hbuf|exact Hap].
Qed.

Lemma build_footer_total idx total sync_id log bytes :
  bl_content log bytes → footer_nblocks (length idx) ≤ bl_left log →
  ∃ r, build_footer idx total sync_id log = Ok r.
Proof.
  intros Hl Hroom. unfold build_footer.
  destruct (build_footer_buf idx (meta_of (length idx) total sync_id)) as (foot & Hc & pad & _ & Hbuf).
  cbv zeta. fold (footer_nblocks (length idx)). fold (meta_of (length idx) total sync_id).
  rewrite Hc. bind_step. rewrite (try_from_buf _ _ Hbuf). cbn [unwrap_res]. bind_step.
  destruct (bl_append_left _ _ _ _ Hl Hbuf Hroom) as (pos & l' & -> & _). bind_step. eauto.
Qed.

Lemma as_u16_idemp n : as_u16 (as_u16 n) = as_u16 n.
Proof. unfold as_u16. apply Nat.Div0.mod_mod. Qed.
Lemma as_u32_idemp n : as_u32 (as_u32 n) = as_u32 n.
Proof. unfold as_u32. rewrite N2Nat.id. by rewrite N.Div0.mod_mod. Qed.
Lemma as_u16_small n : n < U16 → as_u16 n = n.
Proof. apply Nat.mod_small. Qed.

Lemma meta_of_roundtrip n total sync_id :
  meta_from_bytes (meta_bytes (meta_of n total sync_id)) = meta_of n total sync_id.
Proof.
  apply meta_roundtrip; unfold meta_of; cbn [num_index index_nblocks total_records record_block_size];
    symmetry; first [apply as_u16_idemp|apply as_u32_idemp].
Qed.

Lemma index_of_length cs : length (index_of cs) = length cs.
Proof. apply length_imap. Qed.

Lemma entry_bytes_length e : length (entry_bytes e) = INDEX_ENTRY_SIZE.
Proof. unfold entry_bytes. by rewrite !length_app, bid_bytes_length, !key_bytes_length. Qed.

(** Entry [i] of a footer, and the record block it leads to. *)
Lemma load_entry_ok log cs tail pad i ch st :
  bl_content log (concat (map enc_block cs) ++ tail) → cs !! i = Some ch →
  load_entry log (concat (map entry_bytes (index_of cs)) ++ pad) st i =
    Ok (st.1 ++ [entry_of i ch], lru_put st.2 (i * RECORD_BLOCK_NBLOCKS) (enc_block ch)).
Proof.
  intros Hl Hi. unfold load_entry. set (e := entry_of i ch).
  pose proof (lookup_lt_Some _ _ _ Hi) as Hlt.
  assert (Hlen : (i + 1) * INDEX_ENTRY_SIZE ≤ length cs * INDEX_ENTRY_SIZE) by (apply Nat.mul_le_mono_r; lia).
  rewrite slice_ok; [|apply Nat.mul_le_mono_r; lia|rewrite length_app, entries_length, index_of_length; lia].
  replace ((i + 1) * INDEX_ENTRY_SIZE - i * INDEX_ENTRY_SIZE) with INDEX_ENTRY_SIZE by lia.
  rewrite (take_drop_concat INDEX_ENTRY_SIZE _ i (entry_bytes e)).
  2:{ apply Forall_map, Forall_true. apply entry_bytes_length. }
  2:{ change (map entry_bytes (index_of cs)) with (entry_bytes <$> index_of cs).
      by rewrite list_lookup_fmap, index_of_lookup, Hi. }
  bind_step. unfold entry_bytes.
  rewrite (slice_front (bid_bytes (ie_pos e)) _ BID_SIZE) by (by rewrite bid_bytes_length).
  bind_step.
  rewrite (slice_mid (bid_bytes (ie_pos e)) (key_bytes (ie_first e)) _ BID_SIZE (BID_SIZE + K_SIZE))
    by (by rewrite ?bid_bytes_length, ?key_bytes_length).
  bind_step.
  rewrite <- (app_nil_r (key_bytes (ie_last e))), app_assoc.
  rewrite (slice_mid (bid_bytes (ie_pos e) ++ key_bytes (ie_first e)) (key_bytes (ie_last e)) [])
    by (by rewrite ?length_app, ?bid_bytes_length, ?key_bytes_length).
  bind_step. rewrite bid_roundtrip, !key_roundtrip. cbn [e entry_of ie_pos].
  rewrite (read_block_ok _ _ _ _ _ Hl Hi). bind_step. rewrite from_buf_ok by apply enc_block_length.
  by bind_step.
Qed.

Lemma load_entries_ok log cs tail pad : ∀ n c,
  bl_content log (concat (map enc_block cs) ++ tail) → cache_ok c [] → n ≤ length cs →
  ∃ c', foldM (load_entry log (concat (map entry_bytes (index_of cs)) ++ pad)) ([], c) (seq 0 n) =
          Ok (index_of (take n cs), c') ∧ cache_ok c' cs.
Proof.
  intros n c Hl Hc. induction n as [|n IH]; intros Hn.
  { exists c. split; [done|]. intros p v Hp. destruct (Hc _ _ Hp) as (i & ch & Hi & _). by rewrite lookup_nil in Hi. }
  destruct (IH ltac:(lia)) as (c' & Hf & Hc'). rewrite seq_S, foldM_app, Hf. cbn [foldM Nat.add].
  destruct (lookup_lt_is_Some_2 cs n ltac:(lia)) as [ch Hch].
  rewrite (load_entry_ok _ _ _ _ _ _ _ Hl Hch). cbn [fst snd]. eexists. split.
  - by rewrite (take_S_r _ _ _ Hch), index_of_snoc, length_take, Nat.min_l by lia.
  - intros p v [[-> ->]|[_ Hp]]%lru_put_has; [eauto|]. by apply Hc'.
Qed.

(** Reopening a written table. *)
Lemma from_log_ok id log cs m foot total sync_id :
  bl_content log (concat (map enc_block cs) ++ foot) → footer_image (index_of cs) m foot →
  m = meta_of (length cs) total sync_id → cs ≠ [] → length cs < U16 →
  ∃ c, from_log id log = Ok (mkSSTable id m (index_of cs) c) ∧ cache_ok c cs.
Proof.
  intros Hl (pad & Hfoot & Hpos & Hlen) Hm Hne Hsmall. pose proof BLOCK_SIZE_pos as Hbs.
  destruct footer_sizes as (Hms & _ & _ & _). rewrite index_of_length in *.
  pose proof (bl_content_length _ _ Hl) as Hcl. rewrite length_app, Hlen in Hcl.
  set (fn := footer_nblocks (length cs)) in *. set (B := concat (map enc_block cs)) in *.
  assert (HB : length B = (bl_nblocks log - fn) * BLOCK_SIZE ∧ fn ≤ bl_nblocks log).
  { assert (fn ≤ bl_nblocks log) by (apply (Nat.mul_le_mono_pos_r _ _ BLOCK_SIZE); lia).
    rewrite Nat.mul_sub_distr_r. lia. }
  destruct HB as [HB Hfn].
  assert (Hinb : index_nblocks m = fn).
  { subst m. cbn [meta_of index_nblocks]. by apply as_u16_small, footer_nblocks_small. }
  assert (Hnum : num_index m = length cs) by (subst m; cbn [meta_of num_index]; by apply as_u16_small).
  unfold from_log. cbv zeta. destruct (Buf_alloc_ok 0 1 ltac:(lia)) as (? & -> & _). bind_step.
  rewrite usub_ok by lia. bind_step. rewrite (bl_read_content _ _ _ _ Hl) by lia. bind_step.
  rewrite Nat.mul_1_l.
  set (lastb := take BLOCK_SIZE (drop ((bl_nblocks log - 1) * BLOCK_SIZE) (B ++ foot))).
  assert (Hlast : ∃ pre, lastb = pre ++ meta_bytes m ∧ length pre = BLOCK_SIZE - FOOTER_META_SIZE).
  { unfold lastb. rewrite Hfoot, !app_assoc. set (X := (B ++ _) ++ pad).
    assert (HX : length X + FOOTER_META_SIZE = bl_nblocks log * BLOCK_SIZE).
    { rewrite Hfoot, !length_app, meta_bytes_length in Hlen. unfold X. rewrite !length_app, HB.
      rewrite Nat.mul_sub_distr_r. assert (fn * BLOCK_SIZE ≤ bl_nblocks log * BLOCK_SIZE)
        by (apply Nat.mul_le_mono_r; lia). lia. }
    assert (Hnb : bl_nblocks log * BLOCK_SIZE = (bl_nblocks log - 1) * BLOCK_SIZE + BLOCK_SIZE).
    { rewrite <- (Nat.mul_1_l BLOCK_SIZE) at 3. rewrite <- Nat.mul_add_distr_r. f_equal. lia. }
    rewrite drop_app_le by lia. rewrite take_ge by (rewrite length_app, length_drop, meta_bytes_length; lia).
    eexists. split; [done|]. rewrite length_drop. lia. }
  destruct Hlast as (pre & -> & Hpre).
  rewrite <- (app_nil_r (meta_bytes m)).
  rewrite (slice_mid pre (meta_bytes m) [] (BLOCK_SIZE - FOOTER_META_SIZE));
    [|done|rewrite !length_app; cbn [length]; lia].
  bind_step. assert (meta_from_bytes (meta_bytes m) = m) as -> by (subst m; apply meta_of_roundtrip).
  rewrite Hinb, Hnum. destruct (Buf_alloc_ok 0 fn ltac:(lia)) as (? & -> & _). bind_step.
  rewrite usub_ok by lia. bind_step. rewrite (bl_read_content _ _ _ _ Hl) by lia. bind_step.
  rewrite <- HB, drop_app_length, take_ge by lia. rewrite Hfoot.
  destruct (load_entries_ok log cs foot (pad ++ meta_bytes m) (length cs) (lru_new CACHE_CAP) Hl)
    as (c & -> & Hc); [|done|].
  { intros p v Hp. by apply lru_new_has in Hp. }
  bind_step. exists c. by rewrite firstn_all.
Qed.
End footer.

(** ** Built tables *)
Section built.
Context {Bt : Bittle} {HB : BittleSpec Bt} {BP : BidPod} {HBP : BidPodSpec BP}.
Context {V : Type} {RP : RecordPod V} {HR : RecordPodSpec V RP}.
Context {FP : FooterMetaPod} {HFP : FooterMetaPodSpec FP} {LC : LruCache} {HC : LruSpec LC}.
Context {P : Pages} {HP : PagesSpec P} {L : Type} {HL : BlockLog L} {HLS : ByteLogSpec L}.
Context (listener : option (nat → V → res unit)).
Implicit Types (kv : nat * ValueEx V) (rs ch : list (nat * ValueEx V)) (cs : list (list (nat * ValueEx V))).

Lemma lru_new_empty p v : ¬ lru_has (lru_new CACHE_CAP) p v.
Proof. apply lru_new_has. Qed.

Lemma build_end rs sync_id id log t log' st cs cur :
  foldM (build_step listener) (mkBuildState [] 0 0 None None 0 [] log (lru_new CACHE_CAP)) rs = Ok st →
  building st cs cur → concat cs ++ cur = rs → build listener rs sync_id id log = Ok (t, log') →
  let bs := all_blocks cs cur in
  blocks_of rs bs ∧ ∃ foot c, t = mkSSTable id (meta_of (length bs) (length rs) sync_id) (index_of bs) c ∧
    bl_content log' (concat (map enc_block bs) ++ foot) ∧
    footer_image (index_of bs) (sst_meta t) foot ∧ cache_ok c bs.
Proof.
  intros Hst Hbu Hrs Hb bs. unfold build in Hb. apply bind_inv in Hb as ([[[total idx] l1] c] & Hr & Hb).
  destruct (build_record_blocks_end listener rs log _ _ _ _ _ _ _ _ Hst Hbu Hrs Hr) as (Hcs & -> & -> & Hl1 & Hc).
  apply bind_inv in Hb as ([m l2] & Hf & [= <- <-]).
  destruct (build_footer_inv _ _ _ _ _ _ _ Hl1 Hf) as (Hm & foot & Hi & Hl2). rewrite index_of_length in Hm.
  subst m. split; [done|]. by exists foot, c.
Qed.

Lemma build_inv rs sync_id id log t log' :
  bl_content log [] → build listener rs sync_id id log = Ok (t, log') →
  ∃ cs foot c, blocks_of rs cs ∧
    t = mkSSTable id (meta_of (length cs) (length rs) sync_id) (index_of cs) c ∧
    bl_content log' (concat (map enc_block cs) ++ foot) ∧
    footer_image (index_of cs) (sst_meta t) foot ∧ cache_ok c cs.
Proof.
  intros Hl Hb. pose proof Hb as Hb0. unfold build in Hb0. apply bind_inv in Hb0 as ([[[total idx] l1] c] & Hr & _).
  destruct (build_record_blocks_inv listener rs log _ _ _ _ _ Hl lru_new_empty Hr) as (st & cs & cur & Hst & Hbu & Hrs).
  destruct (build_end _ _ _ _ _ _ _ _ _ Hst Hbu Hrs Hb) as (Hcs & foot & c' & Hr'). by exists (all_blocks cs cur), foot, c'.
Qed.

Lemma stored_table_ok (open_log : nat → res L) rs cs sync_id id log' foot c :
  blocks_of rs cs → bl_content log' (concat (map enc_block cs) ++ foot) → open_log id = Ok log' →
  length cs < U16 → cache_ok c cs →
  table_ok open_log (mkSSTable id (meta_of (length cs) (length rs) sync_id) (index_of cs) c) cs.
Proof.
  intros (_ & Hne & Hfit) Hl Ho Hn Hc. constructor; try done; [by apply as_u16_small|by exists log', foot].
Qed.

(** A table that was built, or reopened from its log, stores the records. *)
Lemma built_table_ok (open_log : nat → res L) rs sync_id id log t log' t' :
  bl_content log [] → build listener rs sync_id id log = Ok (t, log') → open_log id = Ok log' →
  length (sst_index t) < U16 → t' = t ∨ from_log id log' = Ok t' →
  sst_id t' = id ∧ sst_meta t' = sst_meta t ∧ sst_index t' = sst_index t ∧ sst_sync_id t' = sync_id ∧
  ∃ cs, blocks_of rs cs ∧ table_ok open_log t' cs.
Proof.
  intros Hl Hb Ho Hn Ht'. destruct (build_inv _ _ _ _ _ _ Hl Hb) as (cs & foot & c & Hcs & -> & Hl' & Hf & Hc).
  cbn [sst_index] in Hn. rewrite index_of_length in Hn.
  assert (Hok := λ c', stored_table_ok open_log rs cs sync_id id log' foot c' Hcs Hl' Ho Hn).
  destruct Ht' as [-> |Hfl].
  - split_and!; try done. exists cs. split; [done|]. by apply Hok.
  - destruct (from_log_ok id log' cs _ foot (length rs) sync_id Hl' Hf eq_refl) as (c' & Hfl' & Hc');
      [by apply Hcs|done|].
    rewrite Hfl' in Hfl. injection Hfl as <-. split_and!; try done. exists cs. split; [done|]. by apply Hok.
Qed.

Lemma reopen_ok rs sync_id id log t log' :
  bl_content log [] → build listener rs sync_id id log = Ok (t, log') → length (sst_index t) < U16 →
  ∃ t', from_log id log' = Ok t'.
Proof.
  intros Hl Hb Hn. destruct (build_inv _ _ _ _ _ _ Hl Hb) as (cs & foot & c & Hcs & -> & Hl' & Hf & Hc).
  cbn [sst_index] in Hn. rewrite index_of_length in Hn.
  destruct (from_log_ok id log' cs _ foot (length rs) sync_id Hl' Hf eq_refl) as (c' & Hfl' & Hc');
    [by apply Hcs|done|]. eauto.
Qed.

(** The records of a full scan. *)
Definition scan_result (synced : bool) rs : list (nat * ValueEx V) :=
  if synced then map (λ kv, (kv.1, Synced (ValueEx_get kv.2))) rs else rs.

Lemma views_full a rs :
  all_synced a = true ∨ discard_unsynced a = false → views a rs = scan_result (all_synced a) rs.
Proof.
  intros Ha. unfold scan_result. induction rs as [|[k v] rs IH]; [by destruct (all_synced a)|].
  rewrite views_cons, IH. unfold view. destruct v; cbn; destruct (all_synced a), (discard_unsynced a), Ha; done.
Qed.

(** *** Where a block ends, for records with one value *)
Definition single_size : nat := K_SIZE + 1 + V_SIZE.

Lemma counted_single kv : single kv → counted kv = single_size.
Proof.
  unfold single, counted, single_size. rewrite enc_rec_length.
  destruct kv as [k [v|v|sv usv]]; cbn [fst snd vals_of length]; try done; lia.
Qed.

(** Records that leave room for another one stay in the buffer. *)
Lemma fill_buffer pre st cs st' :
  building st cs [] → Forall single pre →
  length pre * single_size + MAX_RECORD_SIZE ≤ RECORD_BLOCK_SIZE →
  foldM (build_step listener) st pre = Ok st' →
  building st' cs pre ∧ inner_offset st' = length pre * single_size.
Proof.
  intros Hb Hs. revert st'. induction pre as [|kv pre IH] using rev_ind; intros st' Hroom Hf.
  { injection Hf as <-. split; [done|]. pose proof (b_offset _ _ _ Hb) as Ho. by rewrite decide_True in Ho. }
  apply Forall_app in Hs as [Hs [Hkv _]%Forall_cons]. rewrite length_app in *. cbn [length] in *.
  rewrite foldM_app in Hf. destruct (foldM _ st pre) as [st1| |] eqn:E1; try done. cbn [foldM] in Hf.
  destruct (build_step listener st1 kv) as [st2| |] eqn:E2; try done. injection Hf as <-.
  destruct (IH Hs st1) as [Hb1 Ho1]; [lia|done|].
  pose proof (build_step_cases listener _ _ _ _ _ Hb1 E2) as Hc. cbv zeta in Hc.
  rewrite (counted_single kv Hkv), Ho1 in Hc. rewrite decide_True in Hc by lia.
  destruct Hc as [Hb2 Ho2]. split; [done|]. rewrite Ho2. lia.
Qed.

(** Records of one value that fill a block become a block. *)
Lemma fill_block ch st cs st' n :
  building st cs [] → Forall single ch → length ch = S n →
  n * single_size + MAX_RECORD_SIZE ≤ RECORD_BLOCK_SIZE < S n * single_size + MAX_RECORD_SIZE →
  foldM (build_step listener) st ch = Ok st' → building st' (cs ++ [ch]) [].
Proof.
  intros Hb Hs Hlen Hn Hf. destruct ch as [|kv pre _] using rev_ind; [done|].
  apply Forall_app in Hs as [Hs [Hkv _]%Forall_cons]. rewrite length_app in Hlen. cbn [length] in Hlen.
  rewrite foldM_app in Hf. destruct (foldM _ st pre) as [st1| |] eqn:E1; try done. cbn [foldM] in Hf.
  destruct (build_step listener st1 kv) as [st2| |] eqn:E2; try done. injection Hf as <-.
  assert (length pre = n) as Hpn by lia.
  destruct (fill_buffer pre st cs st1 Hb Hs) as [Hb1 Ho1]; [rewrite Hpn; lia|done|].
  pose proof (build_step_cases listener _ _ _ _ _ Hb1 E2) as Hc. cbv zeta in Hc.
  rewrite (counted_single kv Hkv), Ho1, Hpn in Hc. rewrite decide_False in Hc by lia. done.
Qed.

Lemma fill_buffer_total pre st cs :
  building st cs [] → Forall single pre → Forall (heard listener) pre →
  length pre * single_size + MAX_RECORD_SIZE ≤ RECORD_BLOCK_SIZE →
  ∃ st', foldM (build_step listener) st pre = Ok st'.
Proof.
  intros Hb Hs Hh. induction pre as [|kv pre IH] using rev_ind; intros Hroom; [by exists st|].
  apply Forall_app in Hs as [Hs [Hkv _]%Forall_cons]. apply Forall_app in Hh as [Hh [Hhk _]%Forall_cons].
  rewrite length_app in Hroom. cbn [length] in Hroom.
  destruct (IH Hs Hh) as [st1 E1]; [lia|].
  destruct (fill_buffer pre st cs st1 Hb Hs) as [Hb1 Ho1]; [lia|done|].
  rewrite foldM_app, E1. cbn [foldM]. rewrite build_step_eq; [|done|].
  2:{ intros H0. destruct (building_offset _ _ _ Hb1) as (_ & _ & Ho & _). by rewrite (b_buf _ _ _ Hb1), (Ho H0). }
  cbv zeta. rewrite (counted_single kv Hkv), Ho1, usub_ok by lia. bind_step.
  rewrite (proj2 (Nat.leb_le _ _)) by lia. eauto.
Qed.

Lemma blocks_of_le rs cs : blocks_of rs cs → length cs ≤ length rs.
Proof.
  intros (<- & _ & Hf). induction Hf as [|ch cs [Hch _] Hf IH]; [done|]. cbn [concat length]. rewrite length_app.
  destruct ch; [done|]. cbn [length]. lia.
Qed.

Lemma build_index_le rs sync_id id log t log' :
  bl_content log [] → build listener rs sync_id id log = Ok (t, log') → length (sst_index t) ≤ length rs.
Proof.
  intros Hl Hb. destruct (build_inv _ _ _ _ _ _ Hl Hb) as (cs & foot & c & Hcs & -> & _).
  cbn [sst_index]. rewrite index_of_length. by apply blocks_of_le.
Qed.

(** How many blocks a table has. *)
Lemma full_blocks_bound cs :
  Forall full cs → length cs * (RECORD_BLOCK_SIZE - MAX_RECORD_SIZE) ≤ length (concat cs) * (MAX_RECORD_SIZE + K_SIZE).
Proof.
  induction 1 as [|ch cs Hch Hcs IH]; [done|]. cbn [length concat]. rewrite length_app. unfold full in Hch.
  rewrite Nat.mul_add_distr_r. cbn [Nat.mul]. lia.
Qed.

Lemma build_index_bound rs sync_id id log t log' :
  bl_content log [] → build listener rs sync_id id log = Ok (t, log') →
  (length (sst_index t) - 1) * (RECORD_BLOCK_SIZE - MAX_RECORD_SIZE) ≤ length rs * (MAX_RECORD_SIZE + K_SIZE).
Proof.
  intros Hl Hb. pose proof Hb as Hb0. unfold build in Hb0. apply bind_inv in Hb0 as ([[[total idx] l1] c] & Hr & _).
  destruct (build_record_blocks_inv listener rs log _ _ _ _ _ Hl lru_new_empty Hr) as (st & cs & cur & Hst & Hbu & Hrs).
  destruct (build_end _ _ _ _ _ _ _ _ _ Hst Hbu Hrs Hb) as (_ & foot & c' & -> & _).
  cbn [sst_index]. rewrite index_of_length. pose proof (full_blocks_bound cs (b_full _ _ _ Hbu)) as Hbd.
  rewrite <- Hrs, length_app, Nat.mul_add_distr_r. unfold all_blocks.
  assert (length (cs ++ match cur with [] => [] | _ => [cur] end) - 1 ≤ length cs)
    by (rewrite length_app; destruct cur; cbn [length]; lia).
  eapply Nat.le_trans; [apply Nat.mul_le_mono_r; exact H|]. lia.
Qed.

(** A build of records with one value each succeeds, given room. *)
Lemma build_total rs sync_id id log :
  bl_content log [] → rs ≠ [] → Forall single rs → Forall (heard listener) rs →
  (length rs + 1) * RECORD_BLOCK_NBLOCKS + (length rs + 1) ≤ bl_left log →
  ∃ t log', build listener rs sync_id id log = Ok (t, log').
Proof.
  intros Hl Hne Hs Hh Hroom. unfold build.
  destruct (build_record_blocks_total listener rs log (lru_new CACHE_CAP) Hl lru_new_empty Hne Hh Hs ltac:(lia))
    as ([total idx] & l1 & c & Hr & Hleft).
  rewrite Hr. bind_step.
  destruct (build_record_blocks_inv listener rs log _ _ _ _ _ Hl lru_new_empty Hr) as (st & cs0 & cur & Hst & Hbu & Hrs).
  destruct (build_record_blocks_end listener rs log _ _ _ _ _ _ _ _ Hst Hbu Hrs Hr) as (Hcs & -> & -> & Hl1 & _).
  set (cs := all_blocks cs0 cur) in *. clearbody cs. clear Hst Hbu Hrs Hr.
  destruct (build_footer_total (index_of cs) (length rs) sync_id l1 _ Hl1) as ([m l2] & ->).
  - rewrite index_of_length. pose proof (footer_nblocks_le (length cs)).
    pose proof (blocks_of_le _ _ Hcs). lia.
  - bind_step. eauto.
Qed.
End built.

(** ** Theorems *)
Section theorems.
Context {Bt : Bittle} {HB : BittleSpec Bt} {BP : BidPod} {HBP : BidPodSpec BP}.
Context {V : Type} {RP : RecordPod V} {HR : RecordPodSpec V RP}.
Context {FP : FooterMetaPod} {HFP : FooterMetaPodSpec FP} {LC : LruCache} {HC : LruSpec LC}.
Context {P : Pages} {HP : PagesSpec P} {L : Type} {HL : BlockLog L} {HLS : ByteLogSpec L}.

(** C16: Building a table of any records and scanning it gives the records back in order
    (all as synced if a later sync id is given), with the listener told exactly the
    superseded values; reopening the table from its log gives the same index and
    metadata and the same scan. *)
Theorem sst_scan_roundtrip (listener : option (nat → V → res unit)) (open_log : nat → res L)
    (rs : list (nat * ValueEx V)) (sync_id id : nat) (log log' : L) (t : SSTable) :
  bl_content log [] → build listener rs sync_id id log = Ok (t, log') → open_log id = Ok log' →
  length (sst_index t) < U16 →
  ∃ t', from_log id log' = Ok t' ∧ sst_meta t' = sst_meta t ∧ sst_index t' = sst_index t ∧
  ∀ t1 cur discard listen fuel, t1 = t ∨ t1 = t' → sync_id < cur ∨ discard = false → length rs < fuel →
    let a := mkScanAccessor (sync_id <? cur) discard listen in
    access_scan fuel open_log t1 cur discard listen =
      Ok (scan_result (sync_id <? cur) rs, concat (map (view_drops a) rs)).
Proof.
  intros Hl Hb Ho Hn. destruct (reopen_ok listener rs sync_id id log t log' Hl Hb Hn) as [t' Ht'].
  exists t'. split; [done|].
  destruct (built_table_ok listener open_log rs sync_id id log t log' t' Hl Hb Ho Hn (or_intror Ht'))
    as (_ & Hm & Hi & _). do 2 (split; [done|]).
  intros t1 cur discard listen fuel Ht1 Hd Hfu a.
  destruct (built_table_ok listener open_log rs sync_id id log t log' t1 Hl Hb Ho Hn)
    as (_ & _ & _ & Hsync & cs & (<- & _) & Hok); [naive_solver|].
  assert (Ha : all_synced a = true ∨ discard_unsynced a = false).
  { destruct Hd as [Hd| ->]; [left; by apply Nat.ltb_lt|by right]. }
  rewrite (access_scan_all open_log t1 cs cur discard listen fuel); rewrite ?Hsync; try done.
  fold a. by rewrite views_full.
Qed.

(** A point query on a built (or reopened) table of sorted records returns the latest
    value of the key, and [NotFound] exactly when no record has it; the query leaves the
    table good for further queries. *)
Theorem sst_point_query (listener : option (nat → V → res unit)) (open_log : nat → res L)
    (rs : list (nat * ValueEx V)) (sync_id id : nat) (log log' : L) (t t' : SSTable) (key : nat) :
  bl_content log [] → build listener rs sync_id id log = Ok (t, log') → open_log id = Ok log' →
  length (sst_index t) < U16 → t' = t ∨ from_log id log' = Ok t' →
  sorted rs → is_within_range t' key = Ok true →
  match (list_to_map rs : gmap nat (ValueEx V)) !! key with
  | Some v => ∃ c, access_point open_log t' key = Ok (ValueEx_get v, set_cache t' c)
  | None => access_point open_log t' key = Err NotFound
  end.
Proof.
  intros Hl Hb Ho Hn Ht' Hs Hw.
  destruct (built_table_ok listener open_log rs sync_id id log t log' t' Hl Hb Ho Hn Ht')
    as (_ & _ & _ & _ & cs & (<- & _) & Hok).
  unfold is_within_range in Hw. rewrite (sst_range_ok _ _ _ Hok), bind_Ok in Hw. injection Hw as Hw. bool_simpl.
  pose proof (access_point_ok open_log t' cs key Hok Hs ltac:(lia)) as Hp.
  destruct (list_to_map _ !! key) as [v|] eqn:E.
  - apply elem_of_list_to_map_2 in E.
    rewrite (proj2 (find_value_Some open_log _ key (ValueEx_get v) Hs)) in Hp by eauto.
    destruct Hp as (c & Hp & _). by exists c.
  - destruct (find_value (concat cs) key) as [v|] eqn:Ef; [|done].
    apply (find_value_Some open_log) in Ef as (w & Hin & _); [|done].
    apply (elem_of_list_to_map_1 (concat cs) key w (sorted_NoDup _ Hs)) in Hin. congruence.
Qed.

(** A range query on a built (or reopened) table of sorted records answers exactly
    the open slots whose key the table has, with the latest values. *)
Theorem sst_range_query (listener : option (nat → V → res unit)) (open_log : nat → res L)
    (rs : list (nat * ValueEx V)) (sync_id id : nat) (log log' : L) (t t' : SSTable) (ctx : RangeQueryCtx V) :
  bl_content log [] → build listener rs sync_id id log = Ok (t, log') → open_log id = Ok log' →
  length (sst_index t) < U16 → t' = t ∨ from_log id log' = Ok t' →
  sorted rs → ctx_wf ctx → is_completed ctx = false →
  ∃ ctx' c, access_range open_log t' ctx = Ok (ctx', set_cache t' c) ∧ ctx_wf ctx' ∧
    (∀ j, j < num_values ctx →
       slot_done ctx' j = slot_done ctx j || bool_decide (start ctx + j ∈ rs.*1)) ∧
    (∀ k v, (k, v) ∈ results ctx' ↔ (k, v) ∈ results ctx ∨
       start ctx ≤ k < start ctx + num_values ctx ∧ slot_done ctx (k - start ctx) = false ∧
       ∃ w, (k, w) ∈ rs ∧ v = ValueEx_get w).
Proof.
  intros Hl Hb Ho Hn Ht' Hs Hc Hnc.
  destruct (built_table_ok listener open_log rs sync_id id log t log' t' Hl Hb Ho Hn Ht')
    as (_ & _ & _ & _ & cs & (<- & _) & Hok).
  destruct (access_range_ok open_log t' cs ctx Hok Hs Hc Hnc) as (ctx' & c & Hr & _ & Hc' & _ & _ & Hd & Hres).
  exists ctx', c. split; [done|]. split; [done|]. split.
  - intros j Hj. rewrite Hd by done. f_equal. apply bool_decide_ext.
    rewrite not_eq_None_Some. unfold is_Some. setoid_rewrite (find_value_Some open_log _ _ _ Hs).
    rewrite list_elem_of_fmap. split; [|intros ([k w] & -> & ?); eauto].
    intros (v & w & Hin & _). by exists (start ctx + j, w).
  - intros k v. rewrite Hres. by rewrite (find_value_Some open_log _ _ _ Hs).
Qed.

(** C17: A build of records with one value each succeeds whenever the log has room for a
    block per record and the footer, and the listener accepts the records. *)
Theorem sst_build_total (listener : option (nat → V → res unit)) (rs : list (nat * ValueEx V))
    (sync_id id : nat) (log : L) :
  bl_content log [] → rs ≠ [] → Forall single rs → Forall (heard listener) rs →
  (length rs + 1) * RECORD_BLOCK_NBLOCKS + (length rs + 1) ≤ bl_left log →
  ∃ t log', build listener rs sync_id id log = Ok (t, log').
Proof.
  apply build_total.
Qed.

(** The offset of the builder counts the key of a two-valued record twice, so such a
    record arriving when the block has room for it, but not for a key more, makes the
    build panic. *)
Theorem sst_double_count_panics (listener : option (nat → V → res unit)) (pre : list (nat * ValueEx V))
    (kv : nat * ValueEx V) (rest : list (nat * ValueEx V)) (sync_id id : nat) (log : L) :
  bl_content log [] → Forall (heard listener) (pre ++ [kv]) → Forall single pre →
  length (vals_of kv.2) = 2 →
  length pre * (K_SIZE + 1 + V_SIZE) + length (enc_rec kv) ≤ RECORD_BLOCK_SIZE <
    length pre * (K_SIZE + 1 + V_SIZE) + length (enc_rec kv) + K_SIZE →
  build listener (pre ++ kv :: rest) sync_id id log = Panic.
Proof.
  intros Hl Hh Hs Hkv Hroom. rewrite enc_rec_length, Hkv in Hroom. destruct sizes_eq as [_ Hmax].
  rewrite <- Hmax in Hroom. apply Forall_app in Hh as [Hh [Hhk _]%Forall_cons].
  pose proof (building_start log (lru_new CACHE_CAP) Hl lru_new_empty) as Hb0.
  destruct (fill_buffer_total listener pre _ _ Hb0 Hs Hh) as [st1 E1]; [unfold single_size; lia|].
  destruct (fill_buffer listener pre _ _ st1 Hb0 Hs) as [Hb1 Ho1]; [unfold single_size; lia|done|].
  unfold build, build_record_blocks. rewrite foldM_app, E1. cbn [foldM].
  rewrite build_step_eq; [|done|].
  2:{ intros H0. destruct (building_offset _ _ _ Hb1) as (_ & _ & Ho & _). by rewrite (b_buf _ _ _ Hb1), (Ho H0). }
  cbv zeta. rewrite Ho1. unfold counted, single_size. rewrite enc_rec_length, Hkv, <- Hmax.
  assert (Hsau : match kv.2 with SyncedAndUnsynced _ _ => K_SIZE | _ => 0 end = K_SIZE).
  { destruct kv as [k [v|v|sv usv]]; done. }
  rewrite Hsau. unfold usub. by rewrite (proj2 (Nat.leb_gt _ _)) by lia.
Qed.

(** A scan that discards unsynced records ends at the first block (after the first)
    in which every record is unsynced: the synced records of later blocks are not shown. *)
Theorem sst_scan_discard_stops (listener : option (nat → V → res unit)) (open_log : nat → res L)
    (c0 c1 rest : list (nat * ValueEx V)) (n sync_id id : nat) (log log' : L) (t : SSTable)
    (cur : nat) (listen : bool) (fuel : nat) :
  bl_content log [] → build listener (c0 ++ c1 ++ rest) sync_id id log = Ok (t, log') →
  open_log id = Ok log' → length (sst_index t) < U16 →
  Forall single c0 → Forall (λ kv, ∃ v, kv.2 = Unsynced v) c1 → length c0 = S n → length c1 = S n →
  n * (K_SIZE + 1 + V_SIZE) + MAX_RECORD_SIZE ≤ RECORD_BLOCK_SIZE <
    S n * (K_SIZE + 1 + V_SIZE) + MAX_RECORD_SIZE →
  cur ≤ sync_id → length (c0 ++ c1 ++ rest) < fuel →
  let a := mkScanAccessor false true listen in
  access_scan fuel open_log t cur true listen = Ok (views a c0, concat (map (view_drops a) (c0 ++ c1))).
Proof.
  intros Hl Hb Ho Hn Hs0 Hu1 Hlen0 Hlen1 Hsz Hcur Hfu a. fold single_size in Hsz.
  assert (Hs1 : Forall single c1).
  { eapply Forall_impl; [exact Hu1|]. intros [k w] [v Hv]. unfold single. cbn in *. by rewrite Hv. }
  assert (Hrun : ∃ st, foldM (build_step listener)
            (mkBuildState [] 0 0 None None 0 [] log (lru_new CACHE_CAP)) (c0 ++ c1 ++ rest) = Ok st).
  { unfold build, build_record_blocks in Hb. apply bind_inv in Hb as (x & Hb & _).
    apply bind_inv in Hb as (st & Hb & _). by exists st. }
  destruct Hrun as [st Hst]. pose proof Hst as Hst0. rewrite foldM_app in Hst.
  destruct (foldM _ _ c0) as [st0| |] eqn:E0; try done.
  pose proof (fill_block listener c0 _ _ st0 n (building_start log (lru_new CACHE_CAP) Hl lru_new_empty)
                Hs0 Hlen0 Hsz E0) as Hb0.
  rewrite foldM_app in Hst. destruct (foldM _ st0 c1) as [st1| |] eqn:E1; try done.
  pose proof (fill_block listener c1 _ _ st1 n Hb0 Hs1 Hlen1 Hsz E1) as Hb1. cbn [app] in Hb1.
  destruct (build_loop_from listener rest st1 st [c0; c1] [] Hb1 Hst) as (cs & cur' & Hbu & Hrs).
  destruct (build_end listener _ sync_id id log t log' st _ _ Hst0 Hbu) as (Hcs & foot & c & -> & Hl' & Hf & Hc); [|done|].
  { cbn [concat app] in Hrs |- *. rewrite <- !app_assoc. by rewrite Hrs. }
  set (bs := all_blocks ([c0; c1] ++ cs) cur') in *. cbn [sst_index] in Hn. rewrite index_of_length in Hn.
  pose proof (stored_table_ok open_log _ _ sync_id id log' foot c Hcs Hl' Ho Hn Hc) as Hok.
  assert (∃ tl, bs = c0 :: c1 :: tl) as [tl Ebs] by (eexists; unfold bs, all_blocks; by rewrite <- app_assoc).
  set (t := mkSSTable _ _ _ _) in *. assert (Hok' : table_ok open_log t (c0 :: c1 :: tl)) by (rewrite <- Ebs; exact Hok).
  rewrite (access_scan_ok open_log t c0 (c1 :: tl)); [|exact Hok'|].
  2:{ rewrite <- Ebs. by rewrite (proj1 Hcs). }
  cbn [t sst_sync_id sst_meta fm_sync_id meta_of]. rewrite (proj2 (Nat.ltb_ge sync_id cur)) by done. fold a.
  assert (Hv1 : views a c1 = []).
  { clear -Hu1. induction Hu1 as [|[k w] c1 [v Hv] Hu IH]; [done|]. rewrite views_cons. unfold view.
    cbn in *. by rewrite Hv. }
  cbn [shown shown_drops]. rewrite Hv1, !app_nil_r, map_app, concat_app. done.
Qed.
End theorems.

(** ** Instances *)

(** An in-memory log. *)
Definition memlog_content (l : MemLog) (bs : list byte) : Prop :=
  ml_append_pos l * BLOCK_SIZE ≤ length (ml_log l) ∧ bs = take (ml_append_pos l * BLOCK_SIZE) (ml_log l) ∧
  usize_ok (length (ml_log l)) = true.

#[export] Program Instance MemLog_ByteLogSpec : ByteLogSpec MemLog := {|
  bl_content := memlog_content;
  bl_left l := length (ml_log l) / BLOCK_SIZE - ml_append_pos l;
|}.
Next Obligation. intros l bs (Hle & -> & _). by rewrite length_take, Nat.min_l. Qed.
Next Obligation.
  intros l bs pos n (Hle & -> & Hu) Hn Hpos. cbn in *. unfold MemLog_read. pose proof BLOCK_SIZE_pos.
  assert ((pos + n) * BLOCK_SIZE ≤ ml_append_pos l * BLOCK_SIZE) by (apply Nat.mul_le_mono_r; lia).
  rewrite uadd_ok by (eapply usize_ok_le; [|exact Hu]; nia). bind_step.
  rewrite (proj2 (Nat.ltb_ge _ _)) by done. unfold MemLog_offset. rewrite slice_ok by lia. f_equal.
  replace (pos * BLOCK_SIZE + n * BLOCK_SIZE - pos * BLOCK_SIZE) with (n * BLOCK_SIZE) by lia.
  rewrite skipn_firstn_comm, take_take. f_equal. lia.
Qed.
Next Obligation.
  intros l bs buf n pos l' (Hle & -> & Hu) [Hn Hlen] Ha. cbn in *. unfold MemLog_append in Ha.
  rewrite (nblocks_of_is_buf n) in Ha by done. destruct (_ <? _) eqn:E; [done|]. bool_simpl.
  pose proof BLOCK_SIZE_pos. unfold MemLog_offset in Ha.
  assert ((ml_append_pos l + n) * BLOCK_SIZE ≤ length (ml_log l)).
  { etrans; [apply Nat.mul_le_mono_r, E|]. rewrite Nat.mul_comm. apply Nat.Div0.mul_div_le. }
  rewrite copy_from_slice_ok in Ha by lia. rewrite bind_Ok in Ha. injection Ha as <- <-.
  unfold memlog_content. cbn. rewrite splice_length by lia. split; [done|]. split; [|done].
  unfold splice. rewrite app_assoc, take_app_le by (rewrite length_app, length_take; lia).
  by rewrite (take_ge (_ ++ buf)) by (rewrite length_app, length_take; lia).
Qed.
Next Obligation.
  intros l bs buf n (Hle & -> & Hu) [Hn Hlen] Hroom. cbn in *. unfold MemLog_append.
  rewrite (nblocks_of_is_buf n) by done. rewrite (proj2 (Nat.ltb_ge _ _)) by lia.
  pose proof BLOCK_SIZE_pos.
  assert ((ml_append_pos l + n) * BLOCK_SIZE ≤ length (ml_log l)).
  { etrans; [apply Nat.mul_le_mono_r|rewrite Nat.mul_comm; apply Nat.Div0.mul_div_le]. lia. }
  rewrite copy_from_slice_ok by (unfold MemLog_offset; lia). bind_step. eexists _, _. split; [done|].
  cbn. rewrite splice_length by (unfold MemLog_offset; lia). lia.
Qed.

Module ToySst.
(** Numbers as values of [n] bytes. *)
Definition pod (n : nat) : RecordPod nat := {|
  V_SIZE := n;
  key_bytes k := le_bytes 8 (N.of_nat k); key_from_bytes l := N.to_nat (le_from l);
  val_bytes v := le_bytes n (N.of_nat v); val_from_bytes l := N.to_nat (le_from l);
|}.

Lemma le_bytes_length n x : length (le_bytes n x) = n.
Proof.
  revert x. induction n as [|[|n] IH]; intros x; [done..|].
  change (le_bytes (S (S n)) x) with (Z.of_N (x mod 256) :: le_bytes (S n) (x / 256)).
  cbn [length]. by rewrite IH.
Qed.

Lemma RECORD_BLOCK_SIZE_val : RECORD_BLOCK_SIZE = N.to_nat 131072.
Proof. 
  with_strategy transparent [BLOCK_SIZE RECORD_BLOCK_SIZE RECORD_BLOCK_NBLOCKS]
    (unfold RECORD_BLOCK_SIZE, RECORD_BLOCK_NBLOCKS, BLOCK_SIZE; lia).
Qed.

Lemma pod_spec n : 0 < n → (N.of_nat n ≤ 60000)%N → RecordPodSpec nat (pod n).
Proof.
  intros Hn Hmax. split; cbn [pod key_bytes key_from_bytes val_bytes val_from_bytes V_SIZE].
  - intros. apply le_bytes_length.
  - intros. rewrite le_roundtrip by lia. apply Nat2N.id.
  - intros. apply le_bytes_length.
  - intros. rewrite le_roundtrip by lia. apply Nat2N.id.
  - rewrite RECORD_BLOCK_SIZE_val. unfold MAX_RECORD_SIZE, BID_SIZE, FLAG_SIZE. cbn [pod V_SIZE]. lia.
Qed.

Definition meta_pod : FooterMetaPod := {|
  meta_bytes m := le_bytes 2 (N.of_nat (num_index m)) ++ le_bytes 2 (N.of_nat (index_nblocks m)) ++
                  le_bytes 4 (N.of_nat (total_records m)) ++ le_bytes 4 (N.of_nat (record_block_size m)) ++
                  replicate 4 0%Z ++ le_bytes 8 (N.of_nat (fm_sync_id m));
  meta_from_bytes l :=
    let num a n := N.to_nat (le_from (take n (drop a l))) in
    mkFooterMeta (num 0 2) (num 2 2) (num 4 4) (num 8 4) (num 16 8);
|}.
Lemma meta_pod_spec : FooterMetaPodSpec meta_pod.
Proof.
  split; [intros []; cbn; reflexivity|]. intros [a b c d e] _ _ _ _.
  cbn [meta_pod meta_bytes meta_from_bytes num_index index_nblocks total_records record_block_size fm_sync_id].
  f_equal;
    (etrans; [|apply Nat2N.id]); f_equal;
    [etrans; [|apply (le_roundtrip 2); lia]|etrans; [|apply (le_roundtrip 2); lia]
    |etrans; [|apply (le_roundtrip 4); lia]|etrans; [|apply (le_roundtrip 4); lia]
    |etrans; [|apply (le_roundtrip 8); lia]]; reflexivity.
Qed.

(** A cache of bounded size, the entry used last in front. *)
Definition cache : LruCache := {|
  lru := nat * list (BlockId * list byte);
  lru_new cap := (cap, []);
  lru_get c k :=
    match List.find (λ e, e.1 =? k) c.2 with
    | Some e => (Some e.2, (c.1, e :: List.filter (λ e, negb (e.1 =? k)) c.2))
    | None => (None, c)
    end;
  lru_put c k v := (c.1, take c.1 ((k, v) :: List.filter (λ e, negb (e.1 =? k)) c.2));
|}.
#[export] Program Instance cache_spec : LruSpec cache := {| lru_has c k v := (k, v) ∈ c.2 |}.
Next Obligation. cbn. intros n k v. apply not_elem_of_nil. Qed.
Next Obligation.
  intros [n l] k v c'. cbn. destruct (List.find _ l) as [[k' v']|] eqn:E; [|done]. intros [= -> <-].
  apply find_some in E as [Hin Hk]. cbn in Hk. bool_simpl. subst k'. by apply list_elem_of_In.
Qed.
Next Obligation.
  intros [n l] k o c' k' v'. cbn. destruct (List.find _ l) as [[k1 v1]|] eqn:E; intros [= <- <-]; [|done].
  cbn. apply find_some in E as [Hin _]. rewrite elem_of_cons. intros [[= -> ->]|Hf]; [by apply list_elem_of_In|].
  apply list_elem_of_In, filter_In in Hf as [Hf _]. by apply list_elem_of_In.
Qed.
Next Obligation.
  intros [n l] k v k' v'. cbn. intros (i & Hi & _)%elem_of_take. apply list_elem_of_lookup_2 in Hi.
  apply elem_of_cons in Hi as [[= -> ->]|Hf]; [by left|right].
  apply list_elem_of_In, filter_In in Hf as [Hf Hne]. cbn in Hne. bool_simpl. split; [done|]. by apply list_elem_of_In.
Qed.

Definition empty_log (n : nat) : MemLog := mkMemLog (replicate (n * BLOCK_SIZE) 0%Z) 0.

Lemma empty_log_ok n : (N.of_nat n ≤ 2 ^ 40)%N → bl_content (empty_log n) [] ∧ bl_left (empty_log n) = n.
Proof.
  intros Hn. pose proof BLOCK_SIZE_pos. cbn. unfold memlog_content. cbn. rewrite length_replicate.
  split; [split; [lia|split; [done|]]|by rewrite Nat.div_mul, Nat.sub_0_r by lia].
  unfold usize_ok, usize_max. apply N.leb_le. rewrite Nat2N.inj_mul.
  assert (N.of_nat BLOCK_SIZE ≤ 2 ^ 12)%N by (with_strategy transparent [BLOCK_SIZE] (vm_compute; discriminate)).
  assert (N.of_nat n * N.of_nat BLOCK_SIZE ≤ 2 ^ 40 * 2 ^ 12)%N by (by apply N.mul_le_mono). lia.
Qed.

#[export] Instance bits : Bittle := BittleZ.
#[export] Instance pods : RecordPod nat := pod 40.
#[export] Instance pods_spec : RecordPodSpec nat pods.
Proof. apply pod_spec; lia. Qed.
#[export] Instance meta_pods : FooterMetaPod := meta_pod.
#[export] Instance meta_pods_spec : FooterMetaPodSpec meta_pods := meta_pod_spec.
#[export] Instance caches : LruCache := cache.
#[export] Instance caches_spec : LruSpec caches := cache_spec.
#[export] Instance ids : BidPod := lePod.
#[export] Instance ids_spec : BidPodSpec ids := lePod_spec.
#[export] Instance pages : Pages := zero_pages.
#[export] Instance pages_spec : PagesSpec pages := zero_pages_spec.

Lemma heard_all (rs : list (nat * ValueEx nat)) : Forall (heard None) rs.
Proof. apply Forall_true. intros kv v _. done. Qed.

(** Any records with one value make a table on a large enough log. *)
Lemma toy_built (rs : list (nat * ValueEx nat)) sync_id id :
  rs ≠ [] → Forall single rs → (N.of_nat (length rs) ≤ 10000)%N →
  ∃ log t log', bl_content log [] ∧ build None rs sync_id id log = Ok (t, log') ∧ length (sst_index t) < U16.
Proof.
  intros Hne Hs Hlen. set (n := (length rs + 1) * 33). exists (empty_log n).
  destruct (empty_log_ok n) as [Hl Hleft]; [unfold n; lia|].
  assert (RECORD_BLOCK_NBLOCKS = 32) as Hnb
    by (with_strategy transparent [RECORD_BLOCK_NBLOCKS] reflexivity).
  destruct (build_total None rs sync_id id (empty_log n) Hl Hne Hs (heard_all rs)) as (t & log' & Hb).
  { rewrite Hleft, Hnb. unfold n. lia. }
  exists t, log'. split; [exact Hl|]. split; [exact Hb|].
  pose proof (build_index_le None rs sync_id id (empty_log n) t log' Hl Hb).
  eapply Nat.le_lt_trans; [exact H|].
  assert (N.to_nat 10001 ≤ U16); [|lia].
  with_strategy transparent [U16] (apply Nat.leb_le; vm_compute; reflexivity).
Qed.

Definition demo_rs : list (nat * ValueEx nat) := [(1, Synced 10); (5, Unsynced 50); (7, Synced 70)].
Lemma demo_single : Forall single demo_rs.
Proof. unfold demo_rs. by repeat constructor. Qed.
Lemma demo_sorted : sorted demo_rs.
Proof. unfold sorted, demo_rs. cbn. repeat constructor; lia. Qed.
End ToySst.
Import ToySst.

Lemma sst_scan_roundtrip_witness :
  ∃ t log log', build None demo_rs 3 0 log = Ok (t, log') ∧
    access_scan 4 (λ _, Ok log') t 3 false true = Ok (demo_rs, []).
Proof.
  destruct (toy_built demo_rs 3 0 ltac:(done) demo_single ltac:(vm_compute; discriminate)) as (log & t & log' & Hl & Hb & Hn).
  exists t, log, log'. split; [exact Hb|].
  destruct (sst_scan_roundtrip None (λ _, Ok log') demo_rs 3 0 log log' t Hl Hb eq_refl Hn) as (t' & _ & _ & _ & H).
  exact (H t 3 false true 4 (or_introl eq_refl) (or_intror eq_refl) ltac:(cbn; lia)).
Defined.

Lemma sst_point_query_witness :
  ∃ t log log' c, build None demo_rs 3 0 log = Ok (t, log') ∧
    access_point (λ _, Ok log') t 5 = Ok (50, set_cache t c) ∧
    access_point (λ _, Ok log') t 6 = Err NotFound.
Proof.
  destruct (toy_built demo_rs 3 0 ltac:(done) demo_single ltac:(vm_compute; discriminate)) as (log & t & log' & Hl & Hb & Hn).
  destruct (built_table_ok None (λ _, Ok log') demo_rs 3 0 log t log' t Hl Hb eq_refl Hn (or_introl eq_refl))
    as (_ & _ & _ & _ & cs & (Hcs & _) & Hok).
  pose proof (sst_range_ok _ _ _ Hok) as Hr. rewrite Hcs in Hr. cbn in Hr.
  assert (Hw : ∀ k, 1 ≤ k ≤ 7 → is_within_range t k = Ok true).
  { intros k Hk. unfold is_within_range. rewrite Hr. bind_step. by rewrite !(proj2 (Nat.leb_le _ _)) by lia. }
  pose proof (λ key, sst_point_query None (λ _, Ok log') demo_rs 3 0 log log' t t key Hl Hb eq_refl Hn
                (or_introl eq_refl) demo_sorted) as Hq.
  destruct (Hq 5 (Hw 5 ltac:(lia))) as [c H5]. exists t, log, log', c. split; [exact Hb|]. split; [exact H5|].
  exact (Hq 6 (Hw 6 ltac:(lia))).
Defined.

Lemma sst_range_query_witness :
  ∃ t log log' ctx' c, build None demo_rs 3 0 log = Ok (t, log') ∧
    access_range (λ _, Ok log') t (RangeQueryCtx_new 4 3) = Ok (ctx', set_cache t c) ∧ (5, 50) ∈ results ctx'.
Proof.
  destruct (toy_built demo_rs 3 0 ltac:(done) demo_single ltac:(vm_compute; discriminate)) as (log & t & log' & Hl & Hb & Hn).
  destruct (sst_range_query None (λ _, Ok log') demo_rs 3 0 log log' t t (RangeQueryCtx_new 4 3) Hl Hb eq_refl Hn
              (or_introl eq_refl) demo_sorted) as (ctx' & c & Hr & _ & _ & Hres).
  { apply RangeQueryCtx_new_wf. }
  { reflexivity. }
  exists t, log, log', ctx', c. split; [exact Hb|]. split; [exact Hr|]. apply Hres. right.
  split; [cbn; lia|]. split; [apply RangeQueryCtx_new_wf|]. exists (Unsynced 50).
  split; [right; left|reflexivity].
Defined.

Lemma sst_build_total_witness : ∃ t log', build None demo_rs 3 0 (empty_log 132) = Ok (t, log').
Proof.
  destruct (empty_log_ok 132) as [Hl Hleft]; [lia|].
  apply (sst_build_total None demo_rs 3 0 (empty_log 132) Hl ltac:(done) demo_single (heard_all _)).
  rewrite Hleft. with_strategy transparent [RECORD_BLOCK_NBLOCKS] (cbn; lia).
Defined.

(** Values of 40 bytes, as the disk's: 2673 records and then one with two values. *)
Definition many (f : nat → ValueEx nat) (a n : nat) : list (nat * ValueEx nat) := map (λ i, (i, f i)) (seq a n).

Lemma many_length f a n : length (many f a n) = n.
Proof. unfold many. by rewrite length_map, length_seq. Qed.
Lemma many_Forall (Q : nat * ValueEx nat → Prop) f a n : (∀ i, Q (i, f i)) → Forall Q (many f a n).
Proof. intros HQ. apply Forall_map, Forall_true. done. Qed.

Lemma sst_double_count_panics_witness :
  build None (many Synced 0 2673 ++ [(2673, SyncedAndUnsynced 1 2)]) 3 0 (empty_log 64) = Panic.
Proof.
  destruct (empty_log_ok 64) as [Hl _]; [lia|].
  apply (sst_double_count_panics None (many Synced 0 2673) (2673, SyncedAndUnsynced 1 2) [] 3 0 (empty_log 64) Hl
           (heard_all _)).
  - by apply many_Forall.
  - reflexivity.
  - rewrite many_length, enc_rec_length, RECORD_BLOCK_SIZE_val. change V_SIZE with 40. change K_SIZE with 8.
    cbn [vals_of snd length]. lia.
Defined.

(** A block of synced records, a block of unsynced ones, and a synced record. *)
Lemma sst_scan_discard_stops_witness :
  ∃ log t log' drops,
    build None (many Synced 0 2674 ++ many Unsynced 2674 2674 ++ [(5348, Synced 7)]) 3 0 log = Ok (t, log') ∧
    access_scan (S (length (many Synced 0 2674 ++ many Unsynced 2674 2674 ++ [(5348, Synced 7)])))
      (λ _, Ok log') t 3 true true =
      Ok (views (mkScanAccessor false true true) (many Synced 0 2674), drops).
Proof.
  assert (Hs : Forall single (many Synced 0 2674)) by (by apply many_Forall).
  set (rs := many Synced 0 2674 ++ many Unsynced 2674 2674 ++ [(5348, Synced 7)]).
  destruct (toy_built rs 3 0) as (log & t & log' & Hl & Hb & Hn).
  - intros Hnil. apply (f_equal length) in Hnil. unfold rs in Hnil. rewrite length_app, many_length in Hnil. discriminate Hnil.
  - unfold rs. apply Forall_app. split; [exact Hs|]. apply Forall_app. split; [by apply many_Forall|]. by repeat constructor.
  - unfold rs. rewrite !length_app, !many_length. cbn [length]. lia.
  - exists log, t, log'. eexists. split; [exact Hb|].
    apply (sst_scan_discard_stops None (λ _, Ok log') (many Synced 0 2674) (many Unsynced 2674 2674)
             [(5348, Synced 7)] 2673 3 0 log log' t 3 true _ Hl Hb eq_refl Hn Hs).
    + apply many_Forall. eauto.
    + apply many_length.
    + apply many_length.
    + unfold MAX_RECORD_SIZE, BID_SIZE, FLAG_SIZE. rewrite RECORD_BLOCK_SIZE_val. change V_SIZE with 40. change K_SIZE with 8. lia.
    + lia.
    + apply Nat.lt_succ_diag_r.
Defined.
