(* ===== verification/LogStore.v ===== *)
(** * LogStore: what layer 4 asks of the store of transactional logs

    The API of [TxLogStore] ([core/src/layers/3-log/tx_log.rs]) that the LSM tree and its
    write-ahead log call, as a class over the state [St] of the store and an open
    transaction [Tx]: logs are created, opened, listed, deleted, moved, read and appended
    within a transaction and published by its commit.  [TxLogStoreSpec] is the contract:
    a transaction is an overlay on the published logs.  [MemStore] meets it. *)
From stdpp Require Export strings.
From S2P Require Import Prelude Bio.

Notation TxLogId := nat (only parsing).
Notation Bucket := string (only parsing).

Class TxLogStore (St Tx : Type) := {
  ls_new_tx : St → Tx;
  ls_create_log : Bucket → St → Tx → res (TxLogId * St * Tx);
  ls_open_log : TxLogId → bool → St → Tx → res Tx;
  ls_list_logs_in : Bucket → St → Tx → res (list TxLogId);
  ls_delete_log : TxLogId → St → Tx → res Tx;
  ls_move_log : TxLogId → Bucket → Bucket → St → Tx → res Tx;
  ls_read : TxLogId → St → Tx → BlockId → nat → res (list byte);
  ls_append : TxLogId → St → Tx → list byte → res (St * Tx);
  ls_nblocks : TxLogId → St → Tx → nat;
  ls_commit : St → Tx → res St;
}.

(** A log: its bucket and its bytes. *)
Notation LogData := (string * list byte)%type (only parsing).

(** The logs a transaction with the overlay [o] sees. *)
Definition overlay (o : gmap TxLogId (option LogData)) (logs : gmap TxLogId LogData) : gmap TxLogId LogData :=
  merge (λ x y, match x with Some e => e | None => y end) o logs.

#[global] Arguments overlay : simpl never.

Lemma lookup_overlay o logs id :
  overlay o logs !! id = match o !! id with Some e => e | None => logs !! id end.
Proof. unfold overlay. rewrite lookup_merge. by destruct (o !! id), (logs !! id). Qed.

Class TxLogStoreSpec (St Tx : Type) {H : TxLogStore St Tx} := {
  ls_logs : St → gmap TxLogId LogData;
  ls_edits : Tx → gmap TxLogId (option LogData);
  ls_next : St → TxLogId;          (* ids from here on are unused *)
  ls_room : St → nat;              (* blocks that can still be appended *)
  ls_fresh st id : is_Some (ls_logs st !! id) → id < ls_next st;
  ls_new_tx_edits st : ls_edits (ls_new_tx st) = ∅;
  ls_create_ok b st tx :
    ∃ st' tx', ls_create_log b st tx = Ok (ls_next st, st', tx') ∧
      ls_edits tx' = <[ls_next st := Some (b, [])]> (ls_edits tx) ∧
      ls_logs st' = ls_logs st ∧ ls_next st' = S (ls_next st) ∧ ls_room st' = ls_room st;
  ls_open_ok id a st tx :
    match overlay (ls_edits tx) (ls_logs st) !! id with
    | Some _ => ∃ tx', ls_open_log id a st tx = Ok tx' ∧
                  overlay (ls_edits tx') (ls_logs st) = overlay (ls_edits tx) (ls_logs st) ∧
                  (∀ j, ls_edits tx' !! j ≠ ls_edits tx !! j → j = id ∧ a = true)
    | None => ls_open_log id a st tx = Err NotFound
    end;
  ls_list_ok b st tx :
    match ls_list_logs_in b st tx with
    | Ok ids => NoDup ids ∧
        ∀ id, id ∈ ids ↔ ∃ bs, overlay (ls_edits tx) (ls_logs st) !! id = Some (b, bs)
    | Err e => e = NotFound ∧ ∀ id bs, overlay (ls_edits tx) (ls_logs st) !! id ≠ Some (b, bs)
    | Panic => False
    end;
  ls_delete_ok id st tx d :
    ls_logs st !! id = Some d → ls_edits tx !! id = None →
    ∃ tx', ls_delete_log id st tx = Ok tx' ∧ ls_edits tx' = <[id := None]> (ls_edits tx);
  ls_move_ok id b b' st tx bs :
    ls_logs st !! id = Some (b, bs) → ls_edits tx !! id = None →
    ∃ tx', ls_move_log id b b' st tx = Ok tx' ∧ ls_edits tx' = <[id := Some (b', bs)]> (ls_edits tx);
  ls_nblocks_ok id st tx b bs :
    overlay (ls_edits tx) (ls_logs st) !! id = Some (b, bs) → ls_nblocks id st tx = length bs / BLOCK_SIZE;
  ls_read_ok id st tx b bs pos n :
    overlay (ls_edits tx) (ls_logs st) !! id = Some (b, bs) → 0 < n → (pos + n) * BLOCK_SIZE ≤ length bs →
    ls_read id st tx pos n = Ok (take (n * BLOCK_SIZE) (drop (pos * BLOCK_SIZE) bs));
  ls_append_edits id st tx b bs buf n st' tx' :
    overlay (ls_edits tx) (ls_logs st) !! id = Some (b, bs) → is_buf n buf →
    ls_append id st tx buf = Ok (st', tx') →
    ls_edits tx' = <[id := Some (b, bs ++ buf)]> (ls_edits tx) ∧
    ls_logs st' = ls_logs st ∧ ls_next st' = ls_next st;
  ls_append_ok id st tx b bs buf n :
    overlay (ls_edits tx) (ls_logs st) !! id = Some (b, bs) → is_buf n buf → n ≤ ls_room st →
    ∃ st' tx', ls_append id st tx buf = Ok (st', tx') ∧ ls_room st = ls_room st' + n;
  ls_commit_ok st tx :
    (∀ id b, ls_edits tx !! id ≠ Some (Some (b, []))) →   (* created logs have been written *)
    (∀ id, is_Some (ls_edits tx !! id) → id < ls_next st) →
    ∃ st', ls_commit st tx = Ok st' ∧ ls_logs st' = overlay (ls_edits tx) (ls_logs st) ∧
           ls_next st' = ls_next st ∧ ls_room st' = ls_room st;
}.

(** ** A store in memory *)
Record MemStore := mkMemStore {
  ms_logs : gmap TxLogId LogData;
  ms_next : TxLogId;
  ms_room : nat;
}.
Notation MemTx := (gmap TxLogId (option LogData)).

Section mem_store.
Implicit Types (st : MemStore) (tx : MemTx).

(** An id above all published ones and all ids given out. *)
Definition max_id (logs : gmap TxLogId LogData) : nat := map_fold (λ id _ m, id `max` m) 0 logs.
Definition ms_fresh st : TxLogId := ms_next st `max` S (max_id (ms_logs st)).

Definition ms_find (id : TxLogId) st tx : res LogData := ok_or (overlay tx (ms_logs st) !! id) NotFound.

Definition ms_append (id : TxLogId) st tx (buf : list byte) : res (MemStore * MemTx) :=
  '(b, bs) ← ms_find id st tx;
  if ms_room st <? nblocks_of buf then Err OutOfDisk else
  Ok (mkMemStore (ms_logs st) (ms_next st) (ms_room st - nblocks_of buf), <[id := Some (b, bs ++ buf)]> tx).

Definition ms_list (b : Bucket) st tx : res (list TxLogId) :=
  let logs := overlay tx (ms_logs st) in
  match filter (λ e, e.2.1 = b) (map_to_list logs) with
  | [] => Err NotFound
  | l => Ok l.*1
  end.

#[export] Instance MemStore_ops : TxLogStore MemStore MemTx := {|
  ls_new_tx st := ∅;
  ls_create_log b st tx :=
    Ok (ms_fresh st, mkMemStore (ms_logs st) (S (ms_fresh st)) (ms_room st), <[ms_fresh st := Some (b, [])]> tx);
  ls_open_log id _ st tx := _ ← ms_find id st tx; Ok tx;
  ls_list_logs_in := ms_list;
  ls_delete_log id st tx := _ ← ms_find id st tx; Ok (<[id := None]> tx);
  ls_move_log id _ b' st tx := '(_, bs) ← ms_find id st tx; Ok (<[id := Some (b', bs)]> tx);
  ls_read id st tx pos n :=
    '(_, bs) ← ms_find id st tx; slice bs (pos * BLOCK_SIZE) (pos * BLOCK_SIZE + n * BLOCK_SIZE);
  ls_append := ms_append;
  ls_nblocks id st tx :=
    match overlay tx (ms_logs st) !! id with Some (_, bs) => length bs / BLOCK_SIZE | None => 0 end;
  ls_commit st tx := Ok (mkMemStore (overlay tx (ms_logs st)) (ms_fresh st) (ms_room st));
|}.

Lemma ms_find_ok id st tx d : overlay tx (ms_logs st) !! id = Some d → ms_find id st tx = Ok d.
Proof. unfold ms_find. by intros ->. Qed.

Lemma max_id_spec (logs : gmap TxLogId LogData) :
  (∀ id, is_Some (logs !! id) → id ≤ max_id logs) ∧ (max_id logs = 0 ∨ is_Some (logs !! max_id logs)).
Proof.
  unfold max_id. apply (map_fold_weak_ind (λ r m, (∀ id, is_Some (m !! id) → id ≤ r) ∧ (r = 0 ∨ is_Some (m !! r)))).
  - split; [|by left]. intros id [d Hd]. by rewrite lookup_empty in Hd.
  - intros i d m r Hi [IH1 IH2]. split.
    + intros id. destruct (decide (id = i)) as [->|Hne]; [lia|].
      rewrite lookup_insert_ne by done. intros Hid%IH1. lia.
    + right. destruct (Nat.max_spec i r) as [[Hlt ->]|[Hle ->]]; [|by rewrite lookup_insert_eq; eauto].
      destruct IH2 as [->|IH2]; [lia|]. rewrite lookup_insert_ne by (intros ->; lia). done.
Qed.

Lemma ms_fresh_lt st id : is_Some (ms_logs st !! id) → id < ms_fresh st.
Proof. intros Hid. apply max_id_spec in Hid. unfold ms_fresh. lia. Qed.

#[export] Program Instance MemStore_spec : TxLogStoreSpec MemStore MemTx := {|
  ls_logs := ms_logs;
  ls_edits tx := tx;
  ls_next := ms_fresh;
  ls_room := ms_room;
|}.
Next Obligation. intros st id. apply ms_fresh_lt. Qed.
Next Obligation. done. Qed.
Next Obligation.
  intros b st tx. cbn. eexists _, _. split; [done|]. split_and!; try done. unfold ms_fresh. cbn. lia.
Qed.
Next Obligation.
  intros id a st tx. cbn beta. destruct (overlay tx (ms_logs st) !! id) eqn:E; cbn; unfold ms_find; rewrite E; [|done].
  by exists tx.
Qed.
Next Obligation.
  intros b st tx. cbn. unfold ms_list. set (logs := overlay tx (ms_logs st)).
  assert (Hin : ∀ e, e ∈ filter (λ e, e.2.1 = b) (map_to_list logs) ↔ logs !! e.1 = Some e.2 ∧ e.2.1 = b).
  { intros [id d]. rewrite list_elem_of_filter, elem_of_map_to_list. cbn. tauto. }
  destruct (filter _ _) as [|e l] eqn:E.
  - split; [done|]. intros id bs Hid. by apply (not_elem_of_nil (id, (b, bs))), Hin.
  - rewrite <- E in Hin |- *. split.
    + apply NoDup_fmap_fst; [|apply NoDup_filter, NoDup_map_to_list].
      intros id d d' [Hd _]%Hin [Hd' _]%Hin. cbn in *. congruence.
    + intros id. rewrite list_elem_of_fmap. split.
      * intros ([i [b' bs]] & -> & [Hi Hb]%Hin). cbn in *. subst b'. eauto.
      * intros [bs Hid]. exists (id, (b, bs)). by rewrite Hin.
Qed.
Next Obligation.
  intros id st tx d Hd Hn. cbn in *. rewrite (ms_find_ok id st tx d) by (by rewrite lookup_overlay, Hn).
  by eexists.
Qed.
Next Obligation.
  intros id b b' st tx bs Hd Hn. cbn in *. rewrite (ms_find_ok id st tx (b, bs)) by (by rewrite lookup_overlay, Hn).
  by eexists.
Qed.
Next Obligation. intros id st tx b bs Hd. cbn in *. by rewrite Hd. Qed.
Next Obligation.
  intros id st tx b bs pos n Hd Hn Hle. cbn in *. rewrite (ms_find_ok _ _ _ _ Hd). bind_step.
  rewrite slice_ok by lia. do 2 f_equal. lia.
Qed.
Next Obligation.
  intros id st tx b bs buf n st' tx' Hd Hb Ha. cbn in *. unfold ms_append in Ha.
  rewrite (ms_find_ok _ _ _ _ Hd), bind_Ok in Ha. destruct (_ <? _); [done|]. injection Ha as <- <-. by split_and!.
Qed.
Next Obligation.
  intros id st tx b bs buf n Hd Hb Hroom. cbn in *. unfold ms_append. rewrite (ms_find_ok _ _ _ _ Hd). bind_step.
  rewrite (nblocks_of_is_buf n) by done. rewrite (proj2 (Nat.ltb_ge _ _)) by done. eexists _, _. split; [done|].
  cbn. lia.
Qed.
Next Obligation.
  intros st tx _ Hlt. cbn in *. eexists. split; [done|]. split_and!; try done. unfold ms_fresh at 1. cbn.
  set (logs := overlay tx (ms_logs st)).
  assert (max_id logs < ms_fresh st); [|lia]. destruct (max_id_spec logs) as [_ [->|Hm]]; [unfold ms_fresh; lia|].
  change (is_Some (overlay tx (ms_logs st) !! max_id logs)) in Hm. rewrite lookup_overlay in Hm. destruct (tx !! max_id logs) eqn:E; [apply Hlt; eauto|].
  by apply ms_fresh_lt.
Qed.
End mem_store.
