(* ===== verification/Wal.v ===== *)
(** * Wal: [core/src/layers/4-lsm/wal.rs]

    The write-ahead log of the LSM tree.  Records and sync marks are buffered, written to a
    log of the bucket "WAL" within a transaction that stays open until the next sync or
    commit, and collected again after a crash.  The store is a [TxLogStore]; the state
    after an error is modelled (an aborted transaction stays in its place). *)
From S2P Require Import Prelude Bio SSTable LogStore.

Definition BUCKET_WAL : Bucket := "WAL"%string.

Inductive WalAppendFlag := WRecord | WSync.
Definition wal_flag_to_u8 (f : WalAppendFlag) : byte := match f with WRecord => 13%Z | WSync => 23%Z end.
Definition wal_flag_try_from (value : byte) : res WalAppendFlag :=
  if Z.eqb value 13 then Ok WRecord else if Z.eqb value 23 then Ok WSync else Err InvalidArgs.

Definition BUF_CAP : nat := 1024 * BLOCK_SIZE.
Definition WAL_MAX_RECORD_SIZE : nat := 49.
Definition WAL_MIN_RECORD_SIZE : nat := 9.

(** [WalTxInner]; the transaction of [wal_tx_and_log] is [None] once it was aborted. *)
Record WalAppendTx {Tx : Type} := mkWal {
  wal_tx_and_log : option (option Tx * TxLogId);
  w_log_id : option TxLogId;
  w_sync_id : nat;
  record_buf : list byte;
}.
Arguments WalAppendTx : clear implicits.

Section wal.
Context {BP : BidPod} {V : Type} {RP : RecordPod V} {P : Pages}.
Context {St Tx : Type} {HS : TxLogStore St Tx}.
Implicit Types (w : WalAppendTx Tx) (st : St).

(** A result with the state it leaves. *)
Definition outcome (A : Type) : Type := res A * WalAppendTx Tx * St.

Definition wal_new (sync_id : nat) : WalAppendTx Tx := mkWal Tx None None sync_id [].

Definition align_record_buf (buf : list byte) : list byte :=
  vec_resize buf (align_up (length buf) BLOCK_SIZE) 0%Z.

Definition sync_record (sync_id : nat) : list byte := wal_flag_to_u8 WSync :: bid_bytes sync_id.
Definition wal_record (k : nat) (v : V) : list byte := wal_flag_to_u8 WRecord :: key_bytes k ++ val_bytes v.

(** [flush_buf]: the outcome, the transaction (aborted on an error) and the store. *)
Definition flush_buf (buf : list byte) (tx : option Tx) (id : TxLogId) st : res unit * option Tx * St :=
  if negb (negb (length buf =? 0) && (length buf mod BLOCK_SIZE =? 0)) then (Panic, tx, st) else
  match tx with
  | None => (Panic, tx, st)
  | Some t =>
      match (b ← unwrap_res (Buf_try_from buf); ls_append id st t b) with
      | Ok (st', t') => (Ok (), Some t', st')
      | Err e => (Err e, None, st)
      | Panic => (Panic, tx, st)
      end
  end.

(** [prepare]: a new transaction, and the log opened or created in it. *)
Definition prepare w st : outcome unit :=
  match wal_tx_and_log w with
  | Some _ => (Panic, w, st)
  | None =>
      let t := ls_new_tx st in
      match (match w_log_id w with
             | Some id => t' ← ls_open_log id true st t; Ok (id, st, t')
             | None => ls_create_log BUCKET_WAL st t
             end) with
      | Ok (id, st', t') =>
          let w' := mkWal Tx (Some (Some t', id)) (Some id) (w_sync_id w) (record_buf w) in
          if length (record_buf w) =? 0
          then (Ok (), mkWal Tx (Some (Some t', id)) (Some id) (w_sync_id w) (sync_record (w_sync_id w)), st')
          else (Panic, w', st')
      | Err e => (Err e, w, st)
      | Panic => (Panic, w, st)
      end
  end.

Definition prepare_if_none w st : outcome unit :=
  match wal_tx_and_log w with None => prepare w st | Some _ => (Ok (), w, st) end.

Definition wal_append w st (k : nat) (v : V) : outcome unit :=
  let '(r, w, st) := prepare_if_none w st in
  match r with
  | Ok _ =>
      let buf := record_buf w ++ wal_record k v in
      if length buf <=? BUF_CAP - WAL_MAX_RECORD_SIZE
      then (Ok (), mkWal Tx (wal_tx_and_log w) (w_log_id w) (w_sync_id w) buf, st)
      else
        let buf := align_record_buf buf in
        match wal_tx_and_log w with
        | None => (Panic, w, st)
        | Some (tx, id) =>
            let '(r, tx, st) := flush_buf buf tx id st in
            (r, mkWal Tx (Some (tx, id)) (w_log_id w) (w_sync_id w) (if is_ok r then [] else buf), st)
        end
  | Err e => (Err e, w, st)
  | Panic => (Panic, w, st)
  end.

(** [Tx::commit]: panics on a transaction that is not ongoing. *)
Definition commit_tx (tx : option Tx) st : res St :=
  match tx with Some t => ls_commit st t | None => Panic end.

Definition wal_commit w st : outcome TxLogId :=
  match wal_tx_and_log w, w_log_id w with
  | Some (tx, id), Some wal_id =>
      if negb (wal_id =? id) then (Panic, w, st) else
      let w := mkWal Tx None None (w_sync_id w) (record_buf w) in
      let '(r, tx, w, st) :=
        if length (record_buf w) =? 0 then (Ok (), tx, w, st)
        else
          let buf := align_record_buf (record_buf w) in
          let '(r, tx, st) := flush_buf buf tx id st in
          (r, tx, mkWal Tx None None (w_sync_id w) (if is_ok r then [] else buf), st) in
      match r with
      | Ok _ =>
          match commit_tx tx st with
          | Ok st' => (Ok wal_id, w, st')
          | Err e => (Err e, w, st)
          | Panic => (Panic, w, st)
          end
      | Err e => (Err e, w, st)
      | Panic => (Panic, w, st)
      end
  | _, _ => (Panic, w, st)
  end.

Definition wal_sync w st (sync_id : nat) : outcome unit :=
  let '(r, w, st) := prepare_if_none w st in
  match r with
  | Ok _ =>
      let buf := align_record_buf (record_buf w ++ sync_record sync_id) in
      match wal_tx_and_log w with
      | None => (Panic, w, st)
      | Some (tx, id) =>
          let '(r, tx, st) := flush_buf buf tx id st in
          let w := mkWal Tx None (w_log_id w) sync_id (if is_ok r then [] else buf) in
          match r with
          | Ok _ =>
              match commit_tx tx st with
              | Ok st' => (Ok (), w, st')
              | Err e => (Err e, w, st)
              | Panic => (Panic, w, st)
              end
          | Err e => (Err e, w, st)
          | Panic => (Panic, w, st)
          end
      end
  | Err e => (Err e, w, st)
  | Panic => (Panic, w, st)
  end.

(** The loop of [collect_synced_records_and_sync_id]. *)
Fixpoint collect_loop (fuel : nat) (buf : list byte) (offset : nat) (records : list (nat * V))
    (max_sync_id : option nat) (synced_len : nat) : res (list (nat * V) * option nat * nat) :=
  match fuel with
  | 0 => Panic
  | S fuel =>
      last ← usub (length buf) WAL_MIN_RECORD_SIZE;
      if last <? offset then Ok (records, max_sync_id, synced_len) else
      b ← index buf offset;
      let offset := offset + 1 in
      match wal_flag_try_from b with
      | Err _ => collect_loop fuel buf offset records max_sync_id synced_len
      | Panic => Panic
      | Ok WRecord =>
          kb ← slice buf offset (offset + K_SIZE);
          vb ← slice buf (offset + K_SIZE) (offset + K_SIZE + V_SIZE);
          collect_loop fuel buf (offset + K_SIZE + V_SIZE)
            (records ++ [(key_from_bytes kb, val_from_bytes vb)]) max_sync_id synced_len
      | Ok WSync =>
          sb ← slice buf offset (offset + BID_SIZE);
          collect_loop fuel buf (offset + BID_SIZE) records (Some (bid_from_bytes sb)) (length records)
      end
  end.

Definition collect_synced_records_and_sync_id (wal : TxLogId) st (tx : Tx) : res (list (nat * V) * nat) :=
  let nblocks := ls_nblocks wal st tx in
  _ ← Buf_alloc 0 nblocks;
  buf ← ls_read wal st tx 0 nblocks;
  '(records, max_sync_id, synced_len) ← collect_loop (S (length buf)) buf 0 [] None 0;
  match max_sync_id with
  | Some id => Ok (take synced_len records, id)
  | None => Ok ([], 0)
  end.
End wal.
