(* ===== verification/WalSpec.v ===== *)
(** * WalSpec: what survives in the write-ahead log

    A write-ahead log on any store that meets [TxLogStoreSpec]: whatever records and syncs
    were appended, the published log collects to the records before the last sync, and its
    id. *)
From S2P Require Import Prelude Bio SSTable SSTableSpec LogStore Wal.

(** ** The bytes of a log as tokens *)
Section tokens.
Context {BP : BidPod} {HBP : BidPodSpec BP} {V : Type} {RP : RecordPod V} {HR : RecordPodSpec V RP}.

(** A record, a sync mark, or a byte of padding. *)
Inductive Token := TRec (k : nat) (v : V) | TSync (id : nat) | TPad.

Definition enc_token (t : Token) : list byte :=
  match t with TRec k v => wal_record k v | TSync id => sync_record id | TPad => [0%Z] end.
Definition enc_tokens (ts : list Token) : list byte := concat (map enc_token ts).

(** The records, the last sync mark and the number of records before it. *)
Definition Summary : Type := list (nat * V) * option nat * nat.
Definition read_token (s : Summary) (t : Token) : Summary :=
  let '(rs, m, n) := s in
  match t with
  | TRec k v => (rs ++ [(k, v)], m, n)
  | TSync id => (rs, Some id, length rs)
  | TPad => (rs, m, n)
  end.
Definition summary (ts : list Token) : Summary := fold_left read_token ts ([], None, 0).

Lemma enc_tokens_app ts ts' : enc_tokens (ts ++ ts') = enc_tokens ts ++ enc_tokens ts'.
Proof. unfold enc_tokens. by rewrite map_app, concat_app. Qed.

Lemma summary_app ts ts' : summary (ts ++ ts') = fold_left read_token ts' (summary ts).
Proof. apply fold_left_app. Qed.

Definition token_size (t : Token) : nat :=
  match t with TRec _ _ => 1 + K_SIZE + V_SIZE | TSync _ => 1 + BID_SIZE | TPad => 1 end.

Lemma enc_token_length t : length (enc_token t) = token_size t.
Proof.
  destruct t; cbn [enc_token token_size].
  - unfold wal_record. cbn [length]. rewrite length_app, key_bytes_length, val_bytes_length. lia.
  - unfold sync_record. cbn [length]. by rewrite bid_bytes_length.
  - done.
Qed.

Lemma pad_tokens n : enc_tokens (replicate n TPad) = replicate n 0%Z.
Proof. induction n as [|n IH]; [done|]. cbn [replicate]. unfold enc_tokens in *. cbn. by rewrite IH. Qed.

Lemma summary_pad s n : fold_left read_token (replicate n TPad) s = s.
Proof. induction n as [|n IH]; [done|]. destruct s as [[rs m] k]. apply IH. Qed.

Lemma short_is_pad us s : length (enc_tokens us) < 9 → fold_left read_token us s = s.
Proof.
  induction us as [|u us IH]; [done|]. unfold enc_tokens in *. cbn [map concat].
  rewrite length_app, enc_token_length. destruct u, s as [[rs m] n]; cbn [token_size]; unfold K_SIZE, BID_SIZE; try lia.
  intros Hl. apply IH. lia.
Qed.

(** The loop reads the tokens in order. *)
Lemma collect_loop_ok ts : ∀ pre rs m n fuel,
  9 ≤ length (enc_tokens (pre ++ ts)) → length ts < fuel →
  collect_loop fuel (enc_tokens (pre ++ ts)) (length (enc_tokens pre)) rs m n =
    Ok (fold_left read_token ts (rs, m, n)).
Proof.
  induction ts as [|t ts IH]; intros pre rs m n [|fuel] Htot Hfu; try (cbn in Hfu; lia);
    cbn [collect_loop]; rewrite usub_ok by done; bind_step; unfold WAL_MIN_RECORD_SIZE.
  { rewrite app_nil_r in *. by rewrite (proj2 (Nat.ltb_lt _ _)) by lia. }
  set (buf := enc_tokens (pre ++ t :: ts)) in *.
  assert (Hbuf : buf = enc_tokens pre ++ enc_token t ++ enc_tokens ts) by (unfold buf; by rewrite enc_tokens_app).
  assert (Hlen : length buf = length (enc_tokens pre) + token_size t + length (enc_tokens ts)).
  { rewrite Hbuf, !length_app, enc_token_length. lia. }
  assert (Hnext : ∀ rs m n o, o = length (enc_tokens pre) + token_size t →
            collect_loop fuel buf o rs m n = Ok (fold_left read_token ts (rs, m, n))).
  { intros rs' m' n' o ->. specialize (IH (pre ++ [t]) rs' m' n' fuel). rewrite <- app_assoc in IH. cbn [app] in IH.
    fold buf in IH. rewrite enc_tokens_app, length_app in IH. unfold enc_tokens at 2 in IH. cbn [map concat] in IH.
    rewrite app_nil_r, enc_token_length in IH. apply IH; [done|cbn in Hfu; lia]. }
  clear IH. destruct (length buf - 9 <? length (enc_tokens pre)) eqn:E; bool_simpl.
  { (* fewer than nine bytes are left: only padding *)
    rewrite short_is_pad; [done|]. unfold enc_tokens at 1. cbn [map concat]. fold (enc_tokens ts).
    rewrite length_app, enc_token_length. lia. }
  destruct t as [k v|id|]; cbn [token_size fold_left read_token] in *.
  - unfold enc_token, wal_record in Hbuf. cbn [app] in Hbuf.
    rewrite Hbuf at 1. rewrite index_mid by done. bind_step. cbn [wal_flag_try_from wal_flag_to_u8 Z.eqb Pos.eqb].
    assert (Hb2 : buf = (enc_tokens pre ++ [wal_flag_to_u8 WRecord]) ++ key_bytes k ++ val_bytes v ++ enc_tokens ts).
    { rewrite Hbuf. rewrite <- ?app_assoc. cbn [app]. by rewrite <- ?app_assoc. }
    rewrite Hb2 at 1. rewrite slice_mid by (rewrite ?length_app, ?key_bytes_length; cbn [length]; lia). bind_step.
    assert (Hb3 : buf = ((enc_tokens pre ++ [wal_flag_to_u8 WRecord]) ++ key_bytes k) ++ val_bytes v ++ enc_tokens ts)
      by (rewrite Hb2; by rewrite <- !app_assoc).
    rewrite Hb3 at 1. rewrite slice_mid by (rewrite ?length_app, ?key_bytes_length, ?val_bytes_length; cbn [length]; lia).
    bind_step. rewrite key_roundtrip, val_roundtrip. apply Hnext. lia.
  - unfold enc_token, sync_record in Hbuf. cbn [app] in Hbuf.
    rewrite Hbuf at 1. rewrite index_mid by done. bind_step. cbn [wal_flag_try_from wal_flag_to_u8 Z.eqb Pos.eqb].
    assert (Hb2 : buf = (enc_tokens pre ++ [wal_flag_to_u8 WSync]) ++ bid_bytes id ++ enc_tokens ts).
    { rewrite Hbuf. by rewrite <- ?app_assoc. }
    rewrite Hb2 at 1. rewrite slice_mid by (rewrite ?length_app, ?bid_bytes_length; cbn [length]; lia). bind_step.
    rewrite bid_roundtrip. apply Hnext. lia.
  - cbn [enc_token app] in Hbuf. rewrite Hbuf at 1. rewrite index_mid by done. bind_step.
    cbn [wal_flag_try_from Z.eqb Pos.eqb]. apply Hnext. lia.
Qed.

Lemma tokens_le_bytes ts : length ts ≤ length (enc_tokens ts).
Proof.
  induction ts as [|t ts IH]; [done|]. unfold enc_tokens in *. cbn [map concat length].
  rewrite length_app, enc_token_length. destruct t; cbn [token_size]; lia.
Qed.
End tokens.
Arguments Token : clear implicits.

(** ** The invariant of a write-ahead log *)
Section wal_spec.
Context {BP : BidPod} {HBP : BidPodSpec BP} {V : Type} {RP : RecordPod V} {HR : RecordPodSpec V RP}.
Context {P : Pages} {HP : PagesSpec P}.
Context {St Tx : Type} {HS : TxLogStore St Tx} {HSS : TxLogStoreSpec St Tx}.
Implicit Types (w : WalAppendTx Tx) (st : St) (tx : Tx) (hist : list (nat * V)) (ts bts : list (Token V)).

Definition aligned (bs : list byte) : Prop := Nat.divide BLOCK_SIZE (length bs).

(** What is published under [id]: nothing yet, or tokens that sum up to the first [n]
    records and the sync id [sid]. *)
Definition published st (id : TxLogId) hist (n sid : nat) : Prop :=
  match ls_logs st !! id with
  | None => n = 0
  | Some (b, bs) => b = BUCKET_WAL ∧ aligned bs ∧ bs ≠ [] ∧
      ∃ ts, bs = enc_tokens ts ∧ summary ts = (take n hist, Some sid, n)
  end.

(** The open transaction has the log [id] with the tokens [ts], and changed nothing else. *)
Definition in_tx st tx (id : TxLogId) ts : Prop :=
  overlay (ls_edits tx) (ls_logs st) !! id = Some (BUCKET_WAL, enc_tokens ts) ∧
  aligned (enc_tokens ts) ∧ ∀ j, j ≠ id → ls_edits tx !! j = None.

Definition written tx (id : TxLogId) : Prop :=
  ∃ bs, ls_edits tx !! id = Some (Some (BUCKET_WAL, bs)) ∧ bs ≠ [].

(** The log was given the records [hist], the first [n] of them before the last sync. *)
Record wal_inv w st hist (n : nat) : Prop := {
  wi_n : n ≤ length hist;
  wi_open :
    match w_log_id w with
    | None => wal_tx_and_log w = None ∧ record_buf w = [] ∧ hist = []
    | Some id =>
        id < ls_next st ∧ published st id hist n (w_sync_id w) ∧
        match wal_tx_and_log w with
        | None => record_buf w = [] ∧ n = length hist ∧ is_Some (ls_logs st !! id)
        | Some (Some tx, id') =>
            id' = id ∧ length (record_buf w) ≤ BUF_CAP - WAL_MAX_RECORD_SIZE ∧
            ∃ ts bts, in_tx st tx id ts ∧ record_buf w = enc_tokens bts ∧
              summary (ts ++ bts) = (hist, Some (w_sync_id w), n) ∧
              (bts = [] → written tx id)
        | Some (None, _) => False
        end
    end;
}.

(** Only the log of the WAL changes. *)
Definition wal_frame (id : option TxLogId) st st' : Prop :=
  (∀ j, Some j ≠ id → ls_logs st' !! j = ls_logs st !! j) ∧ ls_next st ≤ ls_next st'.

Lemma wal_new_inv st sid : wal_inv (wal_new sid) st [] 0.
Proof. by split. Qed.

(** Other logs of the store do not matter. *)
Lemma wal_inv_frame w st st' hist n :
  wal_inv w st hist n → (∀ id, w_log_id w = Some id → ls_logs st' !! id = ls_logs st !! id) → ls_next st ≤ ls_next st' →
  wal_inv w st' hist n.
Proof.
  intros [Hn Ho] Hl Hnx. split; [done|]. destruct (w_log_id w) as [id|]; [|done]. specialize (Hl id eq_refl).
  destruct Ho as (Hid & Hpub & Ho). split; [lia|]. split; [unfold published in *; by rewrite Hl|].
  destruct (wal_tx_and_log w) as [[[tx|] id']|]; [|done|by rewrite Hl].
  destruct Ho as (-> & Hlen & ts & bts & (Hov & Hal & Hoth) & Hr). split; [done|]. split; [done|]. exists ts, bts.
  split; [|done]. split; [|done]. rewrite lookup_overlay in *. by rewrite Hl.
Qed.

(** Padding to a block boundary. *)
Lemma align_tokens bts :
  bts ≠ [] → ∃ pad n, align_record_buf (enc_tokens bts) = enc_tokens (bts ++ pad) ∧
    is_buf n (enc_tokens (bts ++ pad)) ∧ n * BLOCK_SIZE < length (enc_tokens bts) + BLOCK_SIZE ∧
    ∀ s, fold_left read_token pad s = s.
Proof.
  intros Hne. pose proof BLOCK_SIZE_pos as Hbs. set (len := length (enc_tokens bts)).
  assert (Hpos : 0 < len).
  { pose proof (tokens_le_bytes bts). unfold len. destruct bts; [done|cbn [length] in *; lia]. }
  destruct (align_up_divide len BLOCK_SIZE) as [n Hn].
  pose proof (align_up_ge len BLOCK_SIZE Hbs). pose proof (align_up_lt len BLOCK_SIZE Hbs).
  exists (replicate (align_up len BLOCK_SIZE - len) TPad), n.
  rewrite enc_tokens_app, pad_tokens. unfold align_record_buf. fold len.
  rewrite vec_resize_grow by done. fold len. split; [done|]. split.
  - split; [destruct n; lia|]. rewrite length_app, length_replicate. fold len. lia.
  - split; [lia|]. intros s. apply summary_pad.
Qed.

Lemma aligned_app bs bs' n : aligned bs → is_buf n bs' → aligned (bs ++ bs').
Proof. intros Ha [_ Hl]. unfold aligned. rewrite length_app, Hl. apply Nat.divide_add_r; [done|by exists n]. Qed.

Lemma mod_is_buf n bs : is_buf n bs → (negb (length bs =? 0) && (length bs mod BLOCK_SIZE =? 0)) = true.
Proof.
  intros [Hn Hl]. pose proof BLOCK_SIZE_pos. rewrite Hl, Nat.Div0.mod_mul, Nat.eqb_refl.
  rewrite (proj2 (Nat.eqb_neq _ _)) by (apply Nat.neq_mul_0; lia). done.
Qed.

(** A flush of a full number of blocks appends them in the transaction, or fails for want
    of room. *)
Lemma wal_flush_spec st tx id ts bts n :
  in_tx st tx id ts → is_buf n (enc_tokens bts) →
  ∃ r otx st', flush_buf (enc_tokens bts) (Some tx) id st = (r, otx, st') ∧
    (n ≤ ls_room st → r = Ok () ∧ ls_room st = ls_room st' + n) ∧
    (r = Ok () → ∃ tx', otx = Some tx' ∧ in_tx st' tx' id (ts ++ bts) ∧ written tx' id ∧
       ls_logs st' = ls_logs st ∧ ls_next st' = ls_next st).
Proof.
  intros (Hov & Hal & Hoth) Hb. unfold flush_buf. rewrite (mod_is_buf n) by done. cbn [negb].
  rewrite (try_from_buf n) by done. cbn [unwrap_res]. bind_step.
  pose proof (ls_append_ok id st tx BUCKET_WAL _ _ n Hov Hb) as Hroom.
  destruct (ls_append id st tx (enc_tokens bts)) as [[st' tx']|e|] eqn:Hap.
  2,3: eexists _, _, _; split; [done|]; split; [|done]; intros Hr; by destruct (Hroom Hr) as (? & ? & ? & _).
  eexists _, _, _. split; [done|]. split.
  { intros Hr. destruct (Hroom Hr) as (st1 & tx1 & [= <- <-] & Hr'). done. }
  intros _. destruct (ls_append_edits _ _ _ _ _ _ _ _ _ Hov Hb Hap) as (He & Hl & Hn).
  exists tx'. split; [done|]. split; [split; [|split]|].
  - by rewrite lookup_overlay, He, lookup_insert_eq, enc_tokens_app.
  - rewrite enc_tokens_app. by eapply aligned_app.
  - intros j Hj. rewrite He, lookup_insert_ne by done. by apply Hoth.
  - split; [|done]. unfold written. rewrite He, lookup_insert_eq. eexists. split; [done|].
    intros Hnil. apply app_eq_nil in Hnil as [_ Hnil]. destruct Hb as [Hn0 Hlen]. rewrite Hnil in Hlen.
    pose proof BLOCK_SIZE_pos. cbn in Hlen. nia.
Qed.

Lemma BUF_CAP_eq : BUF_CAP = 1024 * BLOCK_SIZE.
Proof. done. Qed.
#[local] Opaque BUF_CAP.

(** The log of [w'] is the log of [w] if it has one, and a new one otherwise. *)
Definition new_or_kept w st (w' : WalAppendTx Tx) : Prop :=
  (is_Some (w_log_id w) → w_log_id w' = w_log_id w) ∧
  ∀ id, w_log_id w' = Some id → w_log_id w = Some id ∨ ls_next st ≤ id.

Lemma new_or_kept_refl w st w' : w_log_id w' = w_log_id w → new_or_kept w st w'.
Proof. intros E. split; [done|]. intros id. rewrite E. by left. Qed.

Lemma new_or_kept_same w st w1 w2 : w_log_id w2 = w_log_id w1 → new_or_kept w st w1 → new_or_kept w st w2.
Proof. unfold new_or_kept. by intros ->. Qed.

(** After [prepare], if needed, a transaction is open. *)
Definition opened w st hist (n : nat) (w' : WalAppendTx Tx) (st' : St) : Prop :=
  wal_inv w' st' hist n ∧ (ls_logs st' = ls_logs st ∧ ls_next st ≤ ls_next st' ∧ ls_room st' = ls_room st) ∧
  w_sync_id w' = w_sync_id w ∧
  (∃ id tx, w_log_id w' = Some id ∧ wal_tx_and_log w' = Some (Some tx, id)) ∧
  new_or_kept w st w'.

Lemma sync_small : 9 ≤ BUF_CAP - WAL_MAX_RECORD_SIZE.
Proof.
  rewrite BUF_CAP_eq. unfold WAL_MAX_RECORD_SIZE.
  with_strategy transparent [BLOCK_SIZE] (unfold BLOCK_SIZE; lia).
Qed.

Lemma prepare_if_none_ok w st hist n :
  wal_inv w st hist n → ∃ w' st', prepare_if_none w st = (Ok (), w', st') ∧ opened w st hist n w' st'.
Proof.
  intros [Hn Ho]. pose proof sync_small as Hsm. unfold prepare_if_none.
  destruct (wal_tx_and_log w) as [[[tx|] id']|] eqn:Etx.
  - destruct (w_log_id w) as [id|] eqn:Eid; [|by destruct Ho].
    destruct Ho as (Hid & Hpub & -> & Hlen & Hr). exists w, st. split; [done|].
    split; [split; [done|]; rewrite Eid, Etx; by split_and!|].
    split; [done|]. split; [done|]. split; [exists id, tx; by rewrite Eid, Etx|by apply new_or_kept_refl].
  - destruct (w_log_id w) as [id|]; [by destruct Ho as (_ & _ & [])|by destruct Ho].
  - unfold prepare. rewrite Etx. destruct (w_log_id w) as [id|] eqn:Eid.
    + destruct Ho as (Hid & Hpub & Hbuf & -> & [[b bs] Hlog]). unfold published in Hpub. rewrite Hlog in Hpub.
      destruct Hpub as (-> & Hal & Hne & ts & -> & Hsum). rewrite take_ge in Hsum by done.
      pose proof (ls_open_ok id true st (ls_new_tx st)) as Hopen.
      assert (Hov : overlay (ls_edits (ls_new_tx st)) (ls_logs st) !! id = Some (BUCKET_WAL, enc_tokens ts))
        by (by rewrite lookup_overlay, ls_new_tx_edits, lookup_empty).
      rewrite Hov in Hopen. destruct Hopen as (tx & -> & Hsame & Hoth). bind_step. rewrite Hbuf. cbn [length Nat.eqb].
      eexists _, st. split; [done|]. split.
      * split; [done|]. cbn. split; [done|]. unfold published. rewrite Hlog.
        split; [split_and!; try done; exists ts; by rewrite take_ge|].
        split; [done|]. unfold sync_record. cbn [length]. rewrite bid_bytes_length. split; [exact Hsm|].
        exists ts, [TSync (w_sync_id w)]. split.
        -- split; [by rewrite Hsame|]. split; [done|]. intros j Hj.
           destruct (decide (ls_edits tx !! j = None)) as [|Hj0]; [done|].
           destruct (Hoth j); [|done]. rewrite ls_new_tx_edits, lookup_empty. done.
        -- split; [unfold enc_tokens; cbn; by rewrite app_nil_r|]. by rewrite summary_app, Hsum.
      * split; [done|]. split; [done|]. split; [by exists id, tx|by apply new_or_kept_refl].
    + destruct Ho as (_ & Hbuf & ->). cbn in Hn. assert (n = 0) as -> by lia.
      destruct (ls_create_ok BUCKET_WAL st (ls_new_tx st)) as (st' & tx & -> & He & Hl & Hnx & Hr).
      rewrite Hbuf. cbn [length Nat.eqb]. rewrite ls_new_tx_edits in He.
      eexists _, st'. split; [done|]. split.
      * split; [done|]. cbn. split; [lia|]. split.
        { unfold published. rewrite Hl. destruct (ls_logs st !! ls_next st) as [d|] eqn:Ed; [|done].
          pose proof (ls_fresh st (ls_next st) (mk_is_Some _ _ Ed)). lia. }
        split; [done|]. unfold sync_record. cbn [length]. rewrite bid_bytes_length. split; [exact Hsm|].
        exists [], [TSync (w_sync_id w)]. split.
        -- split; [by rewrite lookup_overlay, He, lookup_insert_eq|]. split; [apply Nat.divide_0_r|].
           intros j Hj. by rewrite He, lookup_insert_ne, lookup_empty.
        -- split; [unfold enc_tokens; cbn; by rewrite app_nil_r|]. done.
      * split; [split; [done|lia]|]. split; [done|]. split; [by exists (ls_next st), tx|].
        split; [intros [x Hx]; congruence|]. intros i [= <-]. by right.
Qed.

(** A record takes at most [WAL_MAX_RECORD_SIZE] bytes. *)
Context (HV : 1 + K_SIZE + V_SIZE ≤ WAL_MAX_RECORD_SIZE).

(** Blocks of a buffer that the capacity bounds. *)
Lemma cap_blocks n len : n * BLOCK_SIZE < len + BLOCK_SIZE → len ≤ BUF_CAP → n ≤ 1024.
Proof.
  intros Hn Hl. rewrite BUF_CAP_eq in Hl. pose proof BLOCK_SIZE_pos.
  apply Nat.lt_succ_r, (Nat.mul_lt_mono_pos_r BLOCK_SIZE); [done|]. lia.
Qed.

Lemma cap_room : WAL_MAX_RECORD_SIZE ≤ BUF_CAP.
Proof. pose proof sync_small. lia. Qed.

Lemma published_frame st st' id hist n sid :
  ls_logs st' !! id = ls_logs st !! id → published st id hist n sid → published st' id hist n sid.
Proof. unfold published. by intros ->. Qed.

Lemma published_snoc st id hist x n sid :
  n ≤ length hist → published st id hist n sid → published st id (hist ++ [x]) n sid.
Proof.
  intros Hn. unfold published. destruct (ls_logs st !! id) as [[b bs]|]; [|done].
  intros (-> & Hal & Hne & ts & -> & Hs). split_and!; try done. exists ts. by rewrite take_app_le.
Qed.

Lemma wal_append_spec w st hist n k v :
  wal_inv w st hist n →
  ∃ r w' st', wal_append w st k v = (r, w', st') ∧
    (1024 ≤ ls_room st → r = Ok () ∧ ls_room st ≤ ls_room st' + 1024) ∧
    (r = Ok () → wal_inv w' st' (hist ++ [(k, v)]) n ∧
       (ls_logs st' = ls_logs st ∧ ls_next st ≤ ls_next st') ∧
       w_sync_id w' = w_sync_id w ∧ new_or_kept w st w' ∧ is_Some (wal_tx_and_log w')).
Proof.
  intros Hw. unfold wal_append.
  destruct (prepare_if_none_ok w st hist n Hw) as (w1 & st1 & -> & [Hn Ho] & Hfr & Hsid & (id & tx & Eid & Etx) & Hkeep).
  rewrite Eid, Etx in Ho. destruct Ho as (Hid & Hpub & _ & Hlen & ts & bts & Hin & Hbuf & Hsum & Hwr).
  pose proof cap_room as Hcap.
  set (bts' := bts ++ [TRec k v]).
  assert (Hb' : record_buf w1 ++ wal_record k v = enc_tokens bts').
  { unfold bts'. rewrite enc_tokens_app, Hbuf. unfold enc_tokens at 3. cbn. by rewrite app_nil_r. }
  assert (Hlen' : length (enc_tokens bts') ≤ BUF_CAP).
  { rewrite <- Hb', length_app. pose proof (enc_token_length (TRec k v)) as Hr. cbn [enc_token token_size] in Hr.
    rewrite Hr. lia. }
  assert (Hsum' : summary (ts ++ bts') = (hist ++ [(k, v)], Some (w_sync_id w1), n)).
  { unfold bts'. by rewrite app_assoc, summary_app, Hsum. }
  destruct Hfr as (Hf1 & Hf2 & Hf3). rewrite Hb'.
  destruct (length (enc_tokens bts') <=? _) eqn:El; bool_simpl.
  - eexists _, _, st1. split; [done|]. split; [split; [done|lia]|]. intros _.
    split; [|split; [split; [exact Hf1|lia]|split; [done|split; [done|cbn; by rewrite Etx; eexists]]]].
    split; [rewrite length_app; cbn; lia|]. cbn. rewrite Eid, Etx. split; [done|].
    split; [by apply published_snoc|]. split; [done|]. split; [done|]. exists ts, bts'. split_and!; try done. by destruct bts.
  - rewrite Etx. destruct (align_tokens bts') as (pad & m & -> & Hbm & Hm & Hpad); [by destruct bts|].
    destruct (wal_flush_spec st1 tx id ts (bts' ++ pad) m Hin Hbm) as (r & otx & st' & -> & Hroom & Hgood).
    pose proof (cap_blocks _ _ Hm Hlen'). eexists r, _, st'. split; [done|].
    split; [intros Hr1024; destruct (Hroom ltac:(lia)); split; [done|lia]|]. intros ->. cbn [is_ok].
    destruct (Hgood eq_refl) as (tx' & -> & Hin' & Hwr' & Hl & Hnx).
    split; [|split; [split; [by rewrite Hl|lia]|split; [done|split; [done|by eexists]]]].
    split; [rewrite length_app; cbn; lia|]. cbn. rewrite Eid. split; [lia|].
    split; [apply (published_frame st1); [by rewrite Hl|by apply published_snoc]|]. split; [done|]. split; [lia|].
    exists (ts ++ bts' ++ pad), []. split; [done|]. split; [done|].
    split; [|done]. by rewrite app_nil_r, app_assoc, summary_app, Hsum', Hpad.
Qed.

Lemma commit_edits_ok st tx id ts :
  in_tx st tx id ts → written tx id → id < ls_next st →
  ∃ st', ls_commit st tx = Ok st' ∧ ls_logs st' = <[id := (BUCKET_WAL, enc_tokens ts)]> (ls_logs st) ∧
         ls_next st' = ls_next st ∧ ls_room st' = ls_room st.
Proof.
  intros (Hov & Hal & Hoth) (bs & He & Hne) Hid. destruct (ls_commit_ok st tx) as (st' & Hc & Hl & Hr).
  - intros j b Hj. destruct (decide (j = id)) as [->|Hj']; [congruence|]. by rewrite Hoth in Hj.
  - intros j [d Hj]. destruct (decide (j = id)) as [->|Hj']; [done|]. by rewrite Hoth in Hj.
  - exists st'. split; [done|]. split; [|done]. rewrite Hl. apply map_eq. intros j.
    destruct (decide (j = id)) as [->|Hj]; [by rewrite Hov, lookup_insert_eq|].
    by rewrite lookup_overlay, Hoth, lookup_insert_ne.
Qed.

Lemma wal_sync_spec w st hist n sid :
  wal_inv w st hist n →
  ∃ r w' st', wal_sync w st sid = (r, w', st') ∧
    (1024 ≤ ls_room st → r = Ok () ∧ ls_room st ≤ ls_room st' + 1024) ∧
    (r = Ok () → wal_inv w' st' hist (length hist) ∧
       wal_frame (w_log_id w') st st' ∧ w_sync_id w' = sid ∧ is_Some (w_log_id w') ∧
       wal_tx_and_log w' = None ∧ new_or_kept w st w').
Proof.
  intros Hw. unfold wal_sync.
  destruct (prepare_if_none_ok w st hist n Hw) as (w1 & st1 & -> & [Hn Ho] & Hfr & Hsid & (id & tx & Eid & Etx) & Hkeep).
  rewrite Eid, Etx in Ho. destruct Ho as (Hid & Hpub & _ & Hlen & ts & bts & Hin & Hbuf & Hsum & Hwr).
  pose proof sync_small as Hsm. set (bts' := bts ++ [TSync sid]).
  assert (Hb' : record_buf w1 ++ sync_record sid = enc_tokens bts').
  { unfold bts'. rewrite enc_tokens_app, Hbuf. unfold enc_tokens at 3. cbn. by rewrite app_nil_r. }
  assert (Hlen' : length (enc_tokens bts') ≤ BUF_CAP).
  { rewrite <- Hb', length_app. unfold sync_record. cbn [length]. rewrite bid_bytes_length. unfold BID_SIZE.
    pose proof cap_room. unfold WAL_MAX_RECORD_SIZE in *. lia. }
  assert (Hsum' : summary (ts ++ bts') = (hist, Some sid, length hist)).
  { unfold bts'. by rewrite app_assoc, summary_app, Hsum. }
  destruct Hfr as (Hf1 & Hf2 & Hf3). rewrite Hb', Etx.
  destruct (align_tokens bts') as (pad & m & -> & Hbm & Hm & Hpad); [by destruct bts|].
  pose proof (cap_blocks _ _ Hm Hlen').
  destruct (wal_flush_spec st1 tx id ts (bts' ++ pad) m Hin Hbm) as (r & otx & st2 & -> & Hroom & Hgood).
  destruct r as [[]|e|].
  2,3: eexists _, _, _; split; [done|]; split; [|done]; intros Hr; by destruct (Hroom ltac:(lia)).
  destruct (Hgood eq_refl) as (tx' & -> & Hin' & Hwr' & Hl & Hnx). cbn [is_ok commit_tx].
  destruct (commit_edits_ok st2 tx' id _ Hin' Hwr' ltac:(lia)) as (st' & -> & Hl' & Hnx' & Hr').
  eexists _, _, st'. split; [done|].
  split; [intros Hr; destruct (Hroom ltac:(lia)); split; [done|lia]|]. intros _. split.
  - split; [done|]. cbn. rewrite Eid. split; [lia|]. split.
    + unfold published. rewrite Hl', lookup_insert_eq. destruct Hin' as (_ & Hal & _). split_and!; try done.
      * intros Hnil. destruct Hbm as [Hm0 Hbl]. rewrite !enc_tokens_app in Hnil.
        rewrite enc_tokens_app in Hbl. apply app_eq_nil in Hnil as [_ Hnil]. rewrite Hnil in Hbl.
        pose proof BLOCK_SIZE_pos. cbn in Hbl. nia.
      * eexists. split; [done|]. by rewrite app_assoc, summary_app, Hsum', Hpad, take_ge.
    + split; [done|]. split; [done|]. rewrite Hl', lookup_insert_eq. by eexists.
  - split; [split; [|lia]|].
    + intros j Hj. cbn in Hj. rewrite Eid in Hj. rewrite Hl', lookup_insert_ne by congruence. by rewrite Hl, Hf1.
    + cbn. rewrite Eid in *. split; [done|]. split; [by eexists|]. split; [done|]. by apply (new_or_kept_same _ _ w1); cbn.
Qed.

(** A log of the tokens [ts] collects to the records before the last sync mark. *)
Lemma collect_ok st tx id ts rs sid n :
  overlay (ls_edits tx) (ls_logs st) !! id = Some (BUCKET_WAL, enc_tokens ts) →
  aligned (enc_tokens ts) → enc_tokens ts ≠ [] → summary ts = (rs, Some sid, n) →
  collect_synced_records_and_sync_id id st tx = Ok (take n rs, sid).
Proof.
  intros Hov [m Hm] Hne Hs. unfold collect_synced_records_and_sync_id.
  pose proof BLOCK_SIZE_pos as Hbs. rewrite (ls_nblocks_ok _ _ _ _ _ Hov), Hm, Nat.div_mul by lia.
  assert (0 < m) by (destruct m; [destruct (enc_tokens ts); done|lia]).
  destruct (Buf_alloc_ok 0 m ltac:(lia)) as (? & -> & _). bind_step.
  rewrite (ls_read_ok _ _ _ _ _ 0 m Hov) by lia. bind_step.
  rewrite Nat.mul_0_l, drop_0, take_ge by lia. cbv zeta.
  pose proof (collect_loop_ok ts [] [] None 0 (S (length (enc_tokens ts)))) as Hc. cbn [app] in Hc.
  change (length (enc_tokens [])) with 0 in Hc. rewrite Hc.
  - bind_step. fold (summary ts). by rewrite Hs.
  - rewrite Hm. assert (9 ≤ BLOCK_SIZE) by (with_strategy transparent [BLOCK_SIZE] (unfold BLOCK_SIZE; lia)). nia.
  - pose proof (tokens_le_bytes ts). lia.
Qed.

Lemma wal_commit_spec w st hist n :
  wal_inv w st hist n → is_Some (wal_tx_and_log w) →
  ∃ id r w' st', w_log_id w = Some id ∧ wal_commit w st = (r, w', st') ∧
    (1024 ≤ ls_room st → r = Ok id ∧ ls_room st ≤ ls_room st' + 1024) ∧
    (∀ id', r = Ok id' → id' = id ∧ w' = wal_new (w_sync_id w) ∧ wal_frame (Some id) st st' ∧
       (∃ bs, ls_logs st' !! id = Some (BUCKET_WAL, bs)) ∧
       collect_synced_records_and_sync_id id st' (ls_new_tx st') = Ok (take n hist, w_sync_id w)).
Proof.
  intros [Hn Ho] [[otx id'] Etx]. unfold wal_commit. rewrite Etx in *.
  destruct (w_log_id w) as [id|] eqn:Eid; [|by destruct Ho]. destruct Ho as (Hid & Hpub & Ho).
  destruct otx as [tx|]; [|done]. destruct Ho as (-> & Hlen & ts & bts & Hin & Hbuf & Hsum & Hwr).
  rewrite Nat.eqb_refl. cbn [negb record_buf w_sync_id].
  assert (Hend : ∀ tx' st2 ts', in_tx st2 tx' id ts' → written tx' id →
    enc_tokens ts' ≠ [] → summary ts' = (hist, Some (w_sync_id w), n) → ls_logs st2 = ls_logs st → ls_next st2 = ls_next st →
    ∃ st', commit_tx (Some tx') st2 = Ok st' ∧ ls_room st' = ls_room st2 ∧ wal_frame (Some id) st st' ∧
      (∃ bs, ls_logs st' !! id = Some (BUCKET_WAL, bs)) ∧
      collect_synced_records_and_sync_id id st' (ls_new_tx st') = Ok (take n hist, w_sync_id w)).
  { intros tx' st2 ts' Hin2 Hwr2 Hne' Hs Hl Hnx. cbn [commit_tx].
    destruct (commit_edits_ok st2 tx' id ts' Hin2 Hwr2 ltac:(lia)) as (st' & -> & Hl' & Hnx' & Hr').
    exists st'. split; [done|]. split; [done|]. split; [|split].
    - split; [|lia]. intros j Hj. rewrite Hl', lookup_insert_ne by congruence. by rewrite Hl.
    - rewrite Hl', lookup_insert_eq. by eexists.
    - apply (collect_ok _ _ _ ts'); try done; [|by destruct Hin2 as (_ & ? & _)].
      by rewrite lookup_overlay, ls_new_tx_edits, lookup_empty, Hl', lookup_insert_eq. }
  exists id. rewrite Hbuf. destruct (length (enc_tokens bts) =? 0) eqn:El; bool_simpl.
  - (* everything was flushed already *)
    assert (bts = []) as -> by (pose proof (tokens_le_bytes bts); destruct bts; [done|cbn in *; lia]).
    rewrite app_nil_r in Hsum. destruct (Hend tx st ts) as (st' & -> & Hr & Hfr & Hc); try done; [by apply Hwr| |].
    { intros Hnil. assert (ts = []) as -> by (pose proof (tokens_le_bytes ts); rewrite Hnil in *; destruct ts; [done|cbn in *; lia]).
      done. }
    eexists _, _, st'. split; [done|]. split; [done|]. split; [intros _; split; [done|lia]|]. by intros ? [= <-].
  - destruct (align_tokens bts) as (pad & m & -> & Hbm & Hm & Hpad); [by intros ->|].
    pose proof cap_room. pose proof (cap_blocks _ _ Hm ltac:(rewrite <- Hbuf; lia)).
    destruct (wal_flush_spec st tx id ts (bts ++ pad) m Hin Hbm) as (r & otx & st2 & -> & Hroom & Hgood).
    destruct r as [[]|e|].
    2,3: eexists _, _, _; split; [done|]; split; [done|]; split; [|done]; intros Hr; by destruct (Hroom ltac:(lia)).
    destruct (Hgood eq_refl) as (tx' & -> & Hin' & Hwr' & Hl & Hnx).
    cbn [is_ok]. destruct (Hend tx' st2 (ts ++ bts ++ pad)) as (st' & -> & Hr & Hfr & Hc); try done.
    + intros Hnil. rewrite enc_tokens_app in Hnil. apply app_eq_nil in Hnil as [_ Hnil].
      destruct Hbm as [Hm0 Hbl]. rewrite Hnil in Hbl. pose proof BLOCK_SIZE_pos. cbn in Hbl. nia.
    + by rewrite app_assoc, summary_app, Hsum, Hpad.
    + eexists _, _, st'. split; [done|]. split; [done|].
      split; [intros Hr1024; destruct (Hroom ltac:(lia)); split; [done|lia]|]. by intros ? [= <-].
Qed.

(** With room for a buffer, the operations succeed. *)
Lemma wal_append_ok w st hist n k v :
  wal_inv w st hist n → 1024 ≤ ls_room st →
  ∃ w' st', wal_append w st k v = (Ok (), w', st') ∧ wal_inv w' st' (hist ++ [(k, v)]) n ∧
    (ls_logs st' = ls_logs st ∧ ls_next st ≤ ls_next st' ∧ ls_room st ≤ ls_room st' + 1024) ∧
    w_sync_id w' = w_sync_id w ∧ (is_Some (w_log_id w) → w_log_id w' = w_log_id w).
Proof.
  intros Hw Hroom. destruct (wal_append_spec w st hist n k v Hw) as (r & w' & st' & E & Hr & Hg).
  destruct (Hr Hroom) as [-> ?]. destruct (Hg eq_refl) as (? & [? ?] & ? & [? _] & _). by exists w', st'.
Qed.

Lemma wal_sync_ok w st hist n sid :
  wal_inv w st hist n → 1024 ≤ ls_room st →
  ∃ w' st', wal_sync w st sid = (Ok (), w', st') ∧ wal_inv w' st' hist (length hist) ∧
    (wal_frame (w_log_id w') st st' ∧ ls_room st ≤ ls_room st' + 1024) ∧ w_sync_id w' = sid ∧ is_Some (w_log_id w') ∧
    wal_tx_and_log w' = None ∧ (is_Some (w_log_id w) → w_log_id w' = w_log_id w).
Proof.
  intros Hw Hroom. destruct (wal_sync_spec w st hist n sid Hw) as (r & w' & st' & E & Hr & Hg).
  destruct (Hr Hroom) as [-> ?]. destruct (Hg eq_refl) as (? & ? & ? & ? & ? & [? _]). by exists w', st'.
Qed.

Lemma wal_commit_ok w st hist n :
  wal_inv w st hist n → 1024 ≤ ls_room st → is_Some (wal_tx_and_log w) →
  ∃ id w' st', w_log_id w = Some id ∧ wal_commit w st = (Ok id, w', st') ∧ w' = wal_new (w_sync_id w) ∧
    wal_frame (Some id) st st' ∧
    collect_synced_records_and_sync_id id st' (ls_new_tx st') = Ok (take n hist, w_sync_id w).
Proof.
  intros Hw Hroom Ho. destruct (wal_commit_spec w st hist n Hw Ho) as (id & r & w' & st' & Hid & E & Hr & Hg).
  destruct (Hr Hroom) as [-> ?]. destruct (Hg id eq_refl) as (_ & ? & ? & _ & ?). by exists id, w', st'.
Qed.

(** ** Runs *)
Inductive WalOp := OpAppend (k : nat) (v : V) | OpSync (id : nat).

Definition wal_exec (s : WalAppendTx Tx * St) (op : WalOp) : res (WalAppendTx Tx * St) :=
  let '(r, w, st) := match op with OpAppend k v => wal_append s.1 s.2 k v | OpSync id => wal_sync s.1 s.2 id end in
  _ ← r; Ok (w, st).

(** What a run has given the log: the records, how many before the last sync, its id. *)
Definition given (g : list (nat * V) * nat * nat) (op : WalOp) : list (nat * V) * nat * nat :=
  let '(hist, n, sid) := g in
  match op with OpAppend k v => (hist ++ [(k, v)], n, sid) | OpSync id => (hist, length hist, id) end.

Definition has_sync (ops : list WalOp) : Prop := ∃ id, OpSync id ∈ ops.

Lemma wal_run_ok ops : ∀ w st hist n,
  wal_inv w st hist n → 1024 * length ops ≤ ls_room st →
  ∃ w' st', foldM wal_exec (w, st) ops = Ok (w', st') ∧
    let '(hist', n', sid') := fold_left given ops (hist, n, w_sync_id w) in
    wal_inv w' st' hist' n' ∧ w_sync_id w' = sid' ∧
    (∀ j, Some j ≠ w_log_id w' → ls_logs st' !! j = ls_logs st !! j) ∧
    ls_room st ≤ ls_room st' + 1024 * length ops ∧
    (is_Some (w_log_id w) → w_log_id w' = w_log_id w) ∧
    (∀ id, w_log_id w = Some id → is_Some (ls_logs st !! id) → is_Some (ls_logs st' !! id)) ∧
    (has_sync ops → ∃ id, w_log_id w' = Some id ∧ is_Some (ls_logs st' !! id)).
Proof.
  induction ops as [|op ops IH]; intros w st hist n Hw Hroom.
  { exists w, st. split; [done|]. cbn. split_and!; try done; [lia|]. by intros [id ?%elem_of_nil]. }
  cbn [length] in Hroom. cbn [foldM fold_left]. unfold wal_exec at 1. cbn [fst snd].
  destruct op as [k v|sid].
  - destruct (wal_append_ok w st hist n k v Hw ltac:(lia)) as (w1 & st1 & -> & Hw1 & (Hf1 & Hf2 & Hf3) & Hs1 & Hk1).
    bind_step. destruct (IH w1 st1 _ n Hw1 ltac:(lia)) as (w' & st' & -> & Hr). exists w', st'. split; [done|].
    cbn [given]. rewrite Hs1 in Hr. destruct (fold_left given ops _) as [[hist' n'] sid'].
    destruct Hr as (Hw' & Hs' & Hf' & Hr' & Hk' & Hp' & Hsy). split; [done|]. split; [done|].
    split; [intros j Hj; by rewrite Hf', Hf1|].
    split; [cbn; lia|]. split; [intros Hi; rewrite Hk', Hk1; try done; by rewrite Hk1|].
    split; [intros id Hid Hp; apply Hp'; [by rewrite Hk1; eauto|by rewrite Hf1]|].
    intros [id [Hid|Hid]%elem_of_cons]; [done|]. apply Hsy. by exists id.
  - destruct (wal_sync_ok w st hist n sid Hw ltac:(lia))
      as (w1 & st1 & -> & Hw1 & ((Hf1 & Hf2) & Hf3) & Hs1 & [id1 Hid1] & Htx1 & Hk1).
    bind_step. destruct (IH w1 st1 _ _ Hw1 ltac:(lia)) as (w' & st' & -> & Hr). exists w', st'. split; [done|].
    cbn [given]. rewrite Hs1 in Hr. destruct (fold_left given ops _) as [[hist' n'] sid'] eqn:Eg.
    destruct Hr as (Hw' & Hs' & Hf' & Hr' & Hk' & Hp' & Hsy). split; [done|]. split; [done|].
    assert (Hid' : w_log_id w' = Some id1) by (rewrite Hk'; eauto). split.
    { intros j Hj. rewrite Hf' by done. apply Hf1. by rewrite Hid1, <- Hid'. }
    split; [cbn; lia|]. split; [intros Hi; rewrite Hk', Hk1; try done; by rewrite Hk1|].
    assert (Hpub : is_Some (ls_logs st' !! id1)).
    { apply Hp'; [done|]. destruct Hw1 as [_ Ho]. rewrite Hid1, Htx1 in Ho. by destruct Ho as (_ & _ & _ & _ & ?). }
    split; [|by exists id1]. intros id Hid _. rewrite Hk1 in Hid1 by eauto. by rewrite Hid in Hid1; injection Hid1 as ->.
Qed.

(** C19: Whatever records and syncs a fresh write-ahead log is given, it accepts them while
    the store has room; the published log, and the log sealed by a commit, collect to
    exactly the records before the last sync and the id of that sync, and no other log of
    the store changes. *)
Theorem wal_recovers (ops : list WalOp) (sid0 : nat) (st : St) :
  1024 * (length ops + 1) ≤ ls_room st →
  ∃ w' st', foldM wal_exec (wal_new sid0, st) ops = Ok (w', st') ∧
    let '(hist, n, sid) := fold_left given ops ([], 0, sid0) in
    (has_sync ops → ∃ id, w_log_id w' = Some id ∧
       collect_synced_records_and_sync_id id st' (ls_new_tx st') = Ok (take n hist, sid)) ∧
    (is_Some (wal_tx_and_log w') → ∃ id st2, wal_commit w' st' = (Ok id, wal_new sid, st2) ∧
       collect_synced_records_and_sync_id id st2 (ls_new_tx st2) = Ok (take n hist, sid)) ∧
    (∀ j, Some j ≠ w_log_id w' → ls_logs st' !! j = ls_logs st !! j).
Proof.
  intros Hroom. destruct (wal_run_ok ops (wal_new sid0) st [] 0 (wal_new_inv st sid0) ltac:(lia)) as (w' & st' & Hrun & Hr).
  exists w', st'. split; [done|]. cbn [wal_new w_sync_id] in Hr. destruct (fold_left given ops _) as [[hist n] sid].
  destruct Hr as (Hw & <- & Hf & Hroom' & _ & _ & Hsy). split; [|split; [|done]].
  - intros [id [Hid Hp]]%Hsy. exists id. split; [done|]. destruct Hw as [Hn Ho]. rewrite Hid in Ho.
    destruct Ho as (_ & Hpub & _). unfold published in Hpub. destruct Hp as [[b bs] Hlog]. rewrite Hlog in Hpub.
    destruct Hpub as (-> & Hal & Hne & ts & -> & Hsum).
    rewrite (collect_ok st' (ls_new_tx st') id ts (take n hist) (w_sync_id w') n); try done.
    + by rewrite take_take, Nat.min_id.
    + by rewrite lookup_overlay, ls_new_tx_edits, lookup_empty.
  - intros Htx. destruct (wal_commit_ok w' st' hist n Hw ltac:(lia) Htx) as (id & w2 & st2 & _ & Hc & -> & _ & Hcol).
    by exists id, st2.
Qed.

(** After a sync that failed, the write-ahead log accepts nothing any more: its buffer
    is not emptied and the aborted transaction's log stays selected, so every later
    append and sync panics or fails. *)
Theorem wal_failed_sync_final (w w' : WalAppendTx Tx) (st st' : St) (hist : list (nat * V)) (n sid : nat) (e : Errno) :
  wal_inv w st hist n → wal_sync w st sid = (Err e, w', st') →
  (∀ k v, is_ok (wal_append w' st' k v).1.1 = false) ∧ ∀ sid', is_ok (wal_sync w' st' sid').1.1 = false.
Proof.
  intros Hw Hs. unfold wal_sync in Hs.
  destruct (prepare_if_none_ok w st hist n Hw) as (w1 & st1 & Hpr & [Hn Ho] & Hfr & Hsid & (id & tx & Eid & Etx) & Hkeep).
  rewrite Hpr in Hs. rewrite Eid, Etx in Ho. destruct Ho as (Hid & Hpub & _ & Hlen & ts & bts & Hin & Hbuf & Hsum & Hwr).
  assert (Hb' : record_buf w1 ++ sync_record sid = enc_tokens (bts ++ [TSync sid])).
  { rewrite enc_tokens_app, Hbuf. unfold enc_tokens at 3. cbn. by rewrite app_nil_r. }
  rewrite Hb', Etx in Hs.
  destruct (align_tokens (bts ++ [TSync sid])) as (pad & m & Hal & Hbm & Hm & Hpad); [by destruct bts|].
  rewrite Hal in Hs. set (ts' := (bts ++ [TSync sid]) ++ pad) in *.
  assert (Hend : ∀ w0 st0, wal_tx_and_log w0 = None → record_buf w0 = enc_tokens ts' →
            is_ok (prepare_if_none w0 st0).1.1 = false).
  { intros w0 st0 H0 H1. unfold prepare_if_none, prepare. rewrite H0, H1.
    assert ((length (enc_tokens ts') =? 0) = false) as ->.
    { destruct Hbm as [Hm0 Hl]. apply Nat.eqb_neq. rewrite Hl. pose proof BLOCK_SIZE_pos. nia. }
    by destruct (match w_log_id w0 with Some _ => _ | None => _ end) as [[[? ?] ?]| |]. }
  assert (Hw' : wal_tx_and_log w' = None ∧ record_buf w' = enc_tokens ts').
  { unfold flush_buf in Hs. rewrite (mod_is_buf m) in Hs by done. cbn [negb] in Hs.
    rewrite (try_from_buf m) in Hs by done. cbn [unwrap_res] in Hs. rewrite bind_Ok in Hs.
    destruct Hin as (Hov & Hia). destruct (ls_append id st1 tx (enc_tokens ts')) as [[st2 tx2]|e'|] eqn:Eap; cbn [is_ok] in Hs.
    - exfalso. destruct (ls_append_edits _ _ _ _ _ _ _ _ _ Hov Hbm Eap) as (He & Hl & Hnx).
      destruct (commit_edits_ok st2 tx2 id (ts ++ ts')) as (st3 & Hc & _).
      + split; [by rewrite lookup_overlay, He, lookup_insert_eq, enc_tokens_app|].
        split; [rewrite enc_tokens_app; eapply aligned_app; [apply Hia|exact Hbm]|].
        intros j Hj. rewrite He, lookup_insert_ne by done. by apply Hia.
      + unfold written. rewrite He, lookup_insert_eq. eexists. split; [done|]. intros [_ Hnil]%app_eq_nil.
        destruct Hbm as [Hm0 Hl']. rewrite Hnil in Hl'. pose proof BLOCK_SIZE_pos. cbn in Hl'. nia.
      + lia.
      + cbn [commit_tx] in Hs. by rewrite Hc in Hs.
    - injection Hs as _ <- _. done.
    - done. }
  destruct Hw' as [H1 H2]. split.
  - intros k v. unfold wal_append. pose proof (Hend w' st' H1 H2) as Hp.
    by destruct (prepare_if_none w' st') as [[[] ?] ?].
  - intros sid'. unfold wal_sync. pose proof (Hend w' st' H1 H2) as Hp.
    by destruct (prepare_if_none w' st') as [[[] ?] ?].
Qed.
End wal_spec.

(** ** Witnesses *)
Import ToySst.
Definition demo_ops : list WalOp := [OpAppend 1 10; OpAppend 2 20; OpSync 1; OpAppend 3 30].

Lemma toy_fits : 1 + K_SIZE + V_SIZE (V := nat) ≤ WAL_MAX_RECORD_SIZE.
Proof. apply Nat.leb_le. reflexivity. Qed.

Lemma wal_recovers_witness :
  ∃ w st id, foldM wal_exec (wal_new 0, mkMemStore ∅ 0 5120) demo_ops = Ok (w, st) ∧
    w_log_id w = Some id ∧
    collect_synced_records_and_sync_id id st (ls_new_tx st) = Ok ([(1, 10); (2, 20)], 1).
Proof.
  destruct (wal_recovers (St := MemStore) (Tx := MemTx) toy_fits demo_ops 0 (mkMemStore ∅ 0 5120))
    as (w & st & Hrun & Hr & _); [apply Nat.leb_le; vm_compute; reflexivity|].
  destruct Hr as (id & Hid & Hc); [exists 1; right; right; left|].
  exists w, st, id. split; [exact Hrun|]. split; [exact Hid|exact Hc].
Defined.

Lemma wal_failed_sync_final_witness :
  ∃ w st, wal_sync (wal_new 0) (mkMemStore ∅ 0 0) 1 = (Err OutOfDisk, w, st) ∧
    is_ok (wal_append w st 1 10).1.1 = false.
Proof.
  destruct (wal_sync (wal_new 0) (mkMemStore ∅ 0 0) 1) as [[r w] st] eqn:E.
  assert (r = Err OutOfDisk) as -> by (apply (f_equal (λ x, x.1.1)) in E; vm_compute in E; by rewrite <- E).
  exists w, st. split; [reflexivity|].
  exact (proj1 (wal_failed_sync_final toy_fits (wal_new 0) w (mkMemStore ∅ 0 0) st [] 0 1 OutOfDisk (wal_new_inv _ _) E) 1 10).
Defined.
