(* ===== verification/LsmTree.v ===== *)
(** * LsmTree: [core/src/layers/4-lsm/tx_lsm_tree.rs]

    The transactional LSM tree: two memtables, the write-ahead log, and levels of sorted
    tables on the log store.  The compaction a full memtable triggers runs in the
    background: it is a pending job, run when it is waited for (or at any time before).
    The event listeners of transactions are functions of the records they are told; the
    trusted store of the sync id is a value of the state.  What an operation that fails
    leaves behind is not tracked, nor what a table's cache learns from a missed query. *)
From S2P Require Import Prelude BitMap Bio RangeQuery MemTable Compaction SSTable LogStore Wal.

(** ** Levels *)
Inductive LsmLevel := L0 | L1 | L2 | L3 | L4 | L5.

#[global] Instance LsmLevel_eq_dec : EqDecision LsmLevel.
Proof. solve_decision. Defined.

Definition level_nat (l : LsmLevel) : nat :=
  match l with L0 => 0 | L1 => 1 | L2 => 2 | L3 => 3 | L4 => 4 | L5 => 5 end.
Definition level_from (value : nat) : res LsmLevel :=
  match value with
  | 0 => Ok L0 | 1 => Ok L1 | 2 => Ok L2 | 3 => Ok L3 | 4 => Ok L4 | 5 => Ok L5 | _ => Panic
  end.
Definition LEVEL0_RATIO : nat := 4.
Definition LEVELI_RATIO : nat := 10.
Definition MAX_NUM_LEVELS : nat := 6.
Definition level_bucket (l : LsmLevel) : Bucket :=
  match l with L0 => "L0" | L1 => "L1" | L2 => "L2" | L3 => "L3" | L4 => "L4" | L5 => "L5" end%string.
Definition levels : list LsmLevel := [L0; L1; L2; L3; L4; L5].
Definition upper_level (l : LsmLevel) : res LsmLevel :=
  _ ← assert_ (negb (bool_decide (l = L0))); level_from (level_nat l - 1).
Definition lower_level (l : LsmLevel) : res LsmLevel :=
  _ ← assert_ (negb (bool_decide (l = L5))); level_from (level_nat l + 1).

Inductive TxType := TxCompaction (to_level : LsmLevel) | TxMigration.

(** ** Logs of the store, as block logs *)
Record TxLogH {St Tx : Type} := mkTxLogH { h_st : St; h_tx : Tx; h_id : TxLogId }.
Arguments TxLogH : clear implicits.

#[export] Instance TxLogH_BlockLog {St Tx} {HS : TxLogStore St Tx} : BlockLog (TxLogH St Tx) := {|
  bl_read l pos n := ls_read (h_id l) (h_st l) (h_tx l) pos n;
  bl_append l buf := '(st, tx) ← ls_append (h_id l) (h_st l) (h_tx l) buf; Ok (0, mkTxLogH St Tx st tx (h_id l));
  bl_flush l := Ok l;
  bl_nblocks l := ls_nblocks (h_id l) (h_st l) (h_tx l);
|}.

(** The listener a factory makes for a transaction: what it answers. *)
Class EventListener (V : Type) := {
  on_add_record : TxType → nat → V → res unit;
  on_drop_record : TxType → nat → V → res unit;
  on_tx_begin : TxType → res unit;
  on_tx_precommit : TxType → res unit;
}.

Definition aborted {A} (r : res A) : res A := match r with Err _ => Err TxAborted | _ => r end.

Section lsm.
Context {Bt : Bittle} {BP : BidPod} {V : Type} {RP : RecordPod V} {FP : FooterMetaPod} {LC : LruCache}.
Context {P : Pages} {St Tx : Type} {HS : TxLogStore St Tx} {EL : EventListener V}.
Context (uninit : nat) (sst_cap : nat).
Implicit Types (st : St) (tx : Tx).

(** ** The tables of all levels *)
Definition SstManager : Type := list (gmap TxLogId SSTable).

Definition sst_manager_new : SstManager := replicate MAX_NUM_LEVELS ∅.

(** From newer to older. *)
Definition list_level (m : SstManager) (l : LsmLevel) : res (list (TxLogId * SSTable)) :=
  ssts ← index m (level_nat l); Ok (rev (bt_iter ssts)).

Definition sst_insert (m : SstManager) (t : SSTable) (l : LsmLevel) : res SstManager :=
  _ ← assert_ (level_nat l <? length m);
  ssts ← index m (level_nat l);
  index_set m (level_nat l) (<[sst_id t := t]> ssts).

Definition sst_remove (m : SstManager) (id : TxLogId) (l : LsmLevel) : res SstManager :=
  ssts ← index m (level_nat l); index_set m (level_nat l) (base.delete id ssts).

Definition move_sst (m : SstManager) (id : TxLogId) (from to : LsmLevel) : res SstManager :=
  ssts ← index m (level_nat from);
  moved ← unwrap (ssts !! id);
  m ← index_set m (level_nat from) (base.delete id ssts);
  ssts ← index m (level_nat to);
  index_set m (level_nat to) (<[id := moved]> ssts).

(** [filter] with a test that may panic. *)
Fixpoint filterM {A} (p : A → res bool) (l : list A) : res (list A) :=
  match l with
  | [] => Ok []
  | x :: l => b ← p x; r ← filterM p l; Ok (if (b : bool) then x :: r else r)
  end.

Definition find_overlapped_ssts (m : SstManager) (range : nat * nat) (l : LsmLevel)
    : res (list (TxLogId * SSTable)) :=
  ssts ← list_level m l; filterM (λ e, overlap_with e.2 range) ssts.

(** [u16::pow] panics on overflow. *)
Definition require_major_compaction (m : SstManager) (from_level : LsmLevel) : res bool :=
  _ ← assert_ (negb (bool_decide (from_level = L5)));
  ssts ← index m (level_nat from_level);
  if bool_decide (from_level = L0) then Ok (LEVEL0_RATIO <=? base.size ssts) else
  let ratio := LEVELI_RATIO ^ level_nat from_level in
  _ ← assert_ (ratio <? U16);
  Ok (ratio <=? base.size ssts).

(** ** The state *)
Record Tree := mkTree {
  memtable_manager : MemTableManager V;
  sst_manager : SstManager;
  wal_append_tx : WalAppendTx Tx;
  pending : option TxLogId;          (* the compactor: the WAL of the job to run *)
  tx_log_store : St;
  master_sync_id : nat;
  sync_id_store : option nat;
}.

Definition set_mem (t : Tree) m : Tree :=
  mkTree m (sst_manager t) (wal_append_tx t) (pending t) (tx_log_store t) (master_sync_id t) (sync_id_store t).
Definition set_ssts (t : Tree) m st : Tree :=
  mkTree (memtable_manager t) m (wal_append_tx t) (pending t) st (master_sync_id t) (sync_id_store t).
Definition set_wal (t : Tree) w st : Tree :=
  mkTree (memtable_manager t) (sst_manager t) w (pending t) st (master_sync_id t) (sync_id_store t).
Definition set_pending (t : Tree) p : Tree :=
  mkTree (memtable_manager t) (sst_manager t) (wal_append_tx t) p (tx_log_store t) (master_sync_id t) (sync_id_store t).

(** A log opened for reading within a transaction. *)
Definition open_in st tx (id : TxLogId) : res (TxLogH St Tx) :=
  tx' ← ls_open_log id false st tx; Ok (mkTxLogH St Tx st tx' id).

(** [MasterSyncId::new]. *)
Definition master_sync_id_new (store : option nat) (default : nat) : nat :=
  match store with Some id => id | None => default end.

Definition format (mem_cap : nat) st (sync_store : option nat) : Tree :=
  mkTree (MemTableManager_new 0 mem_cap) sst_manager_new (wal_new 0) None st
    (master_sync_id_new sync_store 0) sync_store.

(** ** Reading *)

(** The tables of the levels, newer to older. *)
Definition all_ssts (m : SstManager) : res (list (LsmLevel * (TxLogId * SSTable))) :=
  foldM (λ acc l, ssts ← list_level m l; Ok (acc ++ map (pair l) ssts)) [] levels.

Fixpoint search st tx (key : nat) (ssts : list (LsmLevel * (TxLogId * SSTable))) : res V :=
  match ssts with
  | [] => Err NotFound
  | (_, (_, sst)) :: ssts =>
      b ← is_within_range sst key;
      if negb b then search st tx key ssts else
      match access_point (open_in st tx) sst key with
      | Ok (v, _) => Ok v
      | Err _ => search st tx key ssts
      | Panic => Panic
      end
  end.

Definition do_read_tx (t : Tree) (key : nat) : res V :=
  let tx := ls_new_tx (tx_log_store t) in
  let read_res := ssts ← all_ssts (sst_manager t); search (tx_log_store t) tx key ssts in
  match read_res with
  | Panic => Panic
  | Err e => if bool_decide (e = NotFound) then _ ← ls_commit (tx_log_store t) tx; Err NotFound else Err TxAborted
  | Ok v => _ ← ls_commit (tx_log_store t) tx; Ok v
  end.

Definition get (t : Tree) (key : nat) : res V :=
  match mgr_get (memtable_manager t) key with Some v => Ok v | None => do_read_tx t key end.

Fixpoint search_range st tx (ctx : RangeQueryCtx V) (ssts : list (LsmLevel * (TxLogId * SSTable)))
    : res (bool * RangeQueryCtx V) :=
  match ssts with
  | [] => Ok (false, ctx)
  | (_, (_, sst)) :: ssts =>
      o ← range_uncompleted ctx;
      range ← unwrap o;
      b ← overlap_with sst range;
      if negb b then search_range st tx ctx ssts else
      '(ctx, _) ← access_range (open_in st tx) sst ctx;
      if is_completed ctx then Ok (true, ctx) else search_range st tx ctx ssts
  end.

(** The context is filled in place: it is returned also when keys are missing ([false]:
    the call is [Err NotFound]). *)
Definition do_read_range_tx (t : Tree) (ctx : RangeQueryCtx V) : res (bool * RangeQueryCtx V) :=
  _ ← assert_ (negb (is_completed ctx));
  let tx := ls_new_tx (tx_log_store t) in
  let read_res := ssts ← all_ssts (sst_manager t); search_range (tx_log_store t) tx ctx ssts in
  match read_res with
  | Panic => Panic
  | Err e => if bool_decide (e = NotFound) then _ ← ls_commit (tx_log_store t) tx; Err NotFound else Err TxAborted
  | Ok r => _ ← ls_commit (tx_log_store t) tx; Ok r
  end.

Definition get_range (t : Tree) (ctx : RangeQueryCtx V) : res (bool * RangeQueryCtx V) :=
  '(ctx, completed) ← mgr_get_range (memtable_manager t) ctx;
  if (completed : bool) then Ok (true, ctx) else do_read_range_tx t ctx.

(** ** Compaction *)

(** Reading a table to the end, and telling the listener what the scan drops. *)
Definition scan_fuel (sst : SSTable) : nat := S (num_index (sst_meta sst) * block_fuel).

Definition tell_drops (ty : TxType) (ds : list (nat * V)) : res unit :=
  foldM (λ _ '(k, v), unwrap_res (on_drop_record ty k v)) () ds.

Definition scan_all st tx (ty : TxType) (sync_id : nat) (discard : bool) (sst : SSTable)
    : res (list (nat * ValueEx V)) :=
  '(rs, ds) ← access_scan (scan_fuel sst) (open_in st tx) sst sync_id discard true;
  _ ← tell_drops ty ds;
  Ok rs.

(** One table built in a new log of [bucket]. *)
Definition build_sst (listener : option (nat → V → res unit)) (rs : list (nat * ValueEx V))
    (sync_id : nat) (bucket : Bucket) st tx : res (SSTable * St * Tx) :=
  '(id, st, tx) ← ls_create_log bucket st tx;
  '(sst, log) ← build listener rs sync_id id (mkTxLogH St Tx st tx id);
  Ok (sst, h_st log, h_tx log).

Definition build_ssts (sync_id : nat) (bucket : Bucket) st tx (chunks : list (list (nat * ValueEx V)))
    : res (list SSTable * St * Tx) :=
  foldM (λ '(ssts, st, tx) rs,
           '(sst, st, tx) ← build_sst None rs sync_id bucket st tx; Ok (ssts ++ [sst], st, tx)) ([], st, tx) chunks.

Definition delete_logs st tx (ids : list TxLogId) : res Tx :=
  foldM (λ tx id, ls_delete_log id st tx) tx ids.

Definition update_sst_manager (m : SstManager) (created : list (SSTable * LsmLevel))
    (deleted : list (TxLogId * LsmLevel)) : res SstManager :=
  m ← foldM (λ m '(sst, l), sst_insert m sst l) m created;
  foldM (λ m '(id, l), sst_remove m id l) m deleted.

Definition do_minor_compaction (t : Tree) (wal_id : TxLogId) : res Tree :=
  let st := tx_log_store t in
  let tx := ls_new_tx st in
  let ty := TxCompaction L0 in
  _ ← aborted (on_tx_begin ty);
  let immutable := immutable (memtable_manager t) in
  '(sst, st, tx) ← aborted (
    '(sst, st, tx) ← build_sst (Some (on_add_record ty)) (bt_iter (table immutable)) (sync_id immutable)
                       (level_bucket L0) st tx;
    tx ← ls_delete_log wal_id st tx;
    Ok (sst, st, tx));
  _ ← aborted (on_tx_precommit ty);
  st ← ls_commit st tx;
  m ← sst_insert (sst_manager t) sst L0;
  Ok (set_ssts t m st).

(** Tables in the order of their first keys ([sort_by_key] is stable). *)
Definition start_le (x y : nat * (TxLogId * SSTable)) : Prop := x.1 ≤ y.1.
#[global] Instance start_le_dec : RelDecision start_le.
Proof. intros x y. unfold start_le. apply _. Defined.

Definition sort_by_start (ssts : list (TxLogId * SSTable)) : res (list (TxLogId * SSTable)) :=
  keyed ← foldM (λ acc e, '(s, _) ← sst_range e.2; Ok (acc ++ [(s, e)])) [] ssts;
  Ok (map snd (merge_sort start_le keyed)).

(** The body of the transaction: created tables, deleted ids, and the changed state. *)
Definition major_compaction_body (t : Tree) (from_level to_level : LsmLevel) st tx
    : res (list SSTable * list (TxLogId * LsmLevel) * SstManager * St * Tx) :=
  let ty := TxCompaction to_level in
  let m := sst_manager t in
  ssts ← list_level m from_level;
  '(upper_sst_id, upper_sst) ← unwrap (last ssts);
  range ← sst_range upper_sst;
  overlapped ← find_overlapped_ssts m range to_level;
  lower_ssts ← sort_by_start overlapped;
  match lower_ssts with
  | [] =>
      tx ← ls_move_log upper_sst_id (level_bucket from_level) (level_bucket to_level) st tx;
      m ← move_sst m upper_sst_id from_level to_level;
      Ok ([], [], m, st, tx)
  | _ =>
      upper_records ← scan_all st tx ty (master_sync_id t) false upper_sst;
      lower_records ← foldM (λ acc e, rs ← scan_all st tx ty (master_sync_id t) false e.2; Ok (acc ++ rs)) [] lower_ssts;
      '(chunks, ds) ← compact_records_and_build_ssts sst_cap upper_records lower_records;
      _ ← tell_drops ty ds;
      '(created, st, tx) ← build_ssts (master_sync_id t) (level_bucket to_level) st tx chunks;
      tx ← delete_logs st tx (upper_sst_id :: map fst lower_ssts);
      Ok (created, (upper_sst_id, from_level) :: map (λ e, (e.1, to_level)) lower_ssts, m, st, tx)
  end.

(** One transaction of a major compaction. *)
Definition major_compaction_tx (t : Tree) (to_level : LsmLevel) : res Tree :=
  from_level ← upper_level to_level;
  let st := tx_log_store t in
  let tx := ls_new_tx st in
  let ty := TxCompaction to_level in
  _ ← aborted (on_tx_begin ty);
  '(created, deleted, m, st, tx) ← aborted (major_compaction_body t from_level to_level st tx);
  _ ← aborted (on_tx_precommit ty);
  st ← ls_commit st tx;
  m ← update_sst_manager m (map (λ sst, (sst, to_level)) created) deleted;
  Ok (set_ssts t m st).

(** [do_major_compaction]: it continues to lower levels; [n] bounds them. *)
Fixpoint do_major_compaction (n : nat) (t : Tree) (to_level : LsmLevel) : res Tree :=
  match n with
  | 0 => Panic
  | S n =>
      t ← major_compaction_tx t to_level;
      required ← require_major_compaction (sst_manager t) to_level;
      if (required : bool) then l ← lower_level to_level; do_major_compaction n t l else Ok t
  end.

(** The job of [do_compaction_tx]. *)
Definition run_compaction (t : Tree) (wal_id : TxLogId) : res Tree :=
  required ← require_major_compaction (sst_manager t) L0;
  t ← (if (required : bool) then do_major_compaction MAX_NUM_LEVELS t L1 else Ok t);
  do_minor_compaction t wal_id.

(** [Compactor::wait_compaction]. *)
Definition wait_compaction (t : Tree) : res Tree :=
  match pending t with
  | None => Ok t
  | Some wal_id => t ← run_compaction t wal_id; Ok (set_pending t None)
  end.

(** ** Writing *)
Definition put (t : Tree) (key : nat) (value : V) : res Tree :=
  let '(r, w, st) := wal_append (wal_append_tx t) (tx_log_store t) key value in
  _ ← r;
  let t := set_wal t w st in
  match mgr_put (memtable_manager t) key value with
  | None => Panic  (* waits for a switch that no one else makes *)
  | Some (at_capacity, _, m) =>
      let t := set_mem t m in
      if negb at_capacity then Ok t else
      let '(r, w, st) := wal_commit (wal_append_tx t) (tx_log_store t) in
      wal_id ← r;
      let t := set_wal t w st in
      t ← wait_compaction t;
      m ← switch uninit (memtable_manager t);
      Ok (set_pending (set_mem t m) (Some wal_id))
  end.

Definition sync_tree (t : Tree) : res Tree :=
  let id := master_sync_id t + 1 in
  t ← wait_compaction t;
  let '(r, w, st) := wal_sync (wal_append_tx t) (tx_log_store t) id in
  _ ← r;
  let t := set_wal t w st in
  '(_, m) ← mgr_sync uninit (memtable_manager t) id;
  let t := set_mem t m in
  Ok (mkTree (memtable_manager t) (sst_manager t) (wal_append_tx t) (pending t) (tx_log_store t)
        (master_sync_id t + 1)
        (match sync_id_store t with Some _ => Some (master_sync_id t + 1) | None => None end)).

(** ** Recovery *)

(** [TxLogStore::open_log_in]: the log of the bucket with the greatest id. *)
Definition open_log_in (b : Bucket) st tx : res (TxLogId * Tx) :=
  ids ← ls_list_logs_in b st tx;
  id ← ok_or (match ids with [] => None | x :: l => Some (fold_left Nat.max l x) end) NotFound;
  tx ← ls_open_log id false st tx;
  Ok (id, tx).

Definition recover_from_wal st : res (list (nat * V) * nat * St) :=
  let tx := ls_new_tx st in
  '(r, tx) ← aborted (
    match open_log_in BUCKET_WAL st tx with
    | Err e => if bool_decide (e = NotFound) then Ok ([], 0, tx) else Err e
    | Panic => Panic
    | Ok (id, tx) => r ← collect_synced_records_and_sync_id id st tx; Ok (r, tx)
    end);
  st ← ls_commit st tx;
  Ok (r, st).

Definition recover_memtable_manager (mem_cap sync_id : nat) (synced_records : list (nat * V))
    : res (MemTableManager V) :=
  foldM (λ m '(k, v), match mgr_put m k v with Some (_, _, m) => Ok m | None => Panic end)
    (MemTableManager_new sync_id mem_cap) synced_records.

Definition recover_level st tx (acc : SstManager * nat) (l : LsmLevel) : res (SstManager * nat) :=
  match ls_list_logs_in (level_bucket l) st tx with
  | Err e => if bool_decide (e = NotFound) then Ok acc else Err e
  | Panic => Panic
  | Ok ids =>
      foldM (λ '(m, max_sync_id) id,
               log ← open_in st tx id;
               sst ← from_log id log;
               sst' ← from_log id log;
               m ← sst_insert m sst' l;
               Ok (m, max_sync_id `max` sst_sync_id sst)) acc ids
  end.

Definition recover_sst_manager st : res (SstManager * nat * St) :=
  let tx := ls_new_tx st in
  '(m, id) ← aborted (foldM (recover_level st tx) (sst_manager_new, 0) levels);
  st ← ls_commit st tx;
  Ok (m, id, st).

(** One table of [do_migration_tx]. *)
Definition migrate_sst (t : Tree) (acc : list (SSTable * LsmLevel) * list (TxLogId * LsmLevel) * St * Tx)
    (e : LsmLevel * (TxLogId * SSTable)) : res (list (SSTable * LsmLevel) * list (TxLogId * LsmLevel) * St * Tx) :=
  let '(created, deleted, st, tx) := acc in
  let '(l, (id, sst)) := e in
  if negb (sst_sync_id sst =? master_sync_id t) then Ok acc else
  rs ← scan_all st tx TxMigration (master_sync_id t) true sst;
  match rs with
  | [] => tx ← ls_delete_log id st tx; Ok (created, deleted ++ [(id, l)], st, tx)
  | _ =>
      '(sst', st, tx) ← build_sst None rs (master_sync_id t) (level_bucket l) st tx;
      Ok (created ++ [(sst', l)], deleted, st, tx)
  end.

Definition do_migration_tx (t : Tree) : res Tree :=
  let st := tx_log_store t in
  let tx := ls_new_tx st in
  _ ← aborted (on_tx_begin TxMigration);
  '(created, deleted, st, tx) ← aborted (
    ssts ← all_ssts (sst_manager t); foldM (migrate_sst t) ([], [], st, tx) ssts);
  _ ← aborted (on_tx_precommit TxMigration);
  st ← ls_commit st tx;
  m ← update_sst_manager (sst_manager t) created deleted;
  Ok (set_ssts t m st).

Definition recover (mem_cap : nat) st (sync_store : option nat) : res Tree :=
  '(synced_records, wal_sync_id, st) ← recover_from_wal st;
  '(m, ssts_sync_id, st) ← recover_sst_manager st;
  let id := master_sync_id_new sync_store (wal_sync_id `max` ssts_sync_id) in
  mem ← recover_memtable_manager mem_cap id synced_records;
  do_migration_tx (mkTree mem m (wal_new id) None st id sync_store).
End lsm.
