(* ===== verification/LsmRuns.v ===== *)
(** * LsmRuns: runs of the LSM tree that lose or revive records

    Runs of the operations of [core/src/layers/4-lsm/tx_lsm_tree.rs], evaluated on the
    store in memory of [LogStore] and the encodings of [ToySst], with listeners that accept
    every record.  Each is one instance of a fault of the code: the state is made by the
    operations only. *)
From S2P Require Import Prelude BitMap Bio RangeQuery MemTable Compaction SSTable SSTableSpec LogStore Wal LsmTree.
Import ToySst.

Module LsmRuns.
#[export] Instance quiet : EventListener nat := {|
  on_add_record _ _ _ := Ok (); on_drop_record _ _ _ := Ok ();
  on_tx_begin _ := Ok (); on_tx_precommit _ := Ok () |}.

Notation tree := (Tree (V := nat) (St := MemStore) (Tx := MemTx)).

(** An empty store with room, and the operations of a user of the tree. *)
Definition st0 : MemStore := mkMemStore ∅ 0 100000.

Inductive call := CPut (k v : nat) | CSync | CCompact | CReopen.

Definition do_call (mem_cap : nat) (t : tree) (c : call) : res tree :=
  match c with
  | CPut k v => LsmTree.put 0 100 t k v
  | CSync => sync_tree 0 100 t
  | CCompact => wait_compaction 100 t
  | CReopen => LsmTree.recover mem_cap (tx_log_store t) (sync_id_store t)
  end.

Definition run (mem_cap : nat) (cs : list call) : res tree :=
  foldM (do_call mem_cap) (LsmTree.format mem_cap st0 None) cs.

Definition ask (r : res tree) (ks : list nat) : list (res nat) := map (λ k, t ← r; LsmTree.get t k) ks.

(** A map of the calls up to the last sync: what a reopened tree promises at least. *)
Definition lsm_synced_put (cs : list call) (k v : nat) : Prop :=
  ∃ before after, cs = before ++ CPut k v :: after ∧ CSync ∈ after ∧
    ∀ v', CPut k v' ∉ after.
End LsmRuns.
Import LsmRuns.


(** the log a recovery read is not deleted when its records reach a table, only the log
    of the memtable that was full is: a later recovery reads the old log again, and the old
    value hides the newer one of the table. *)
Theorem lsm_stale_wal_revives :
  let cs := [CPut 1 11; CSync; CReopen; CPut 1 12; CSync; CPut 2 20; CPut 3 30; CCompact] in
  lsm_synced_put cs 1 12 ∧
  ask (run 3 cs) [1] = [Ok 12] ∧
  ask (run 3 (cs ++ [CReopen])) [1] = [Ok 11].
Proof.
  split_and!; [|by vm_compute..]. exists [CPut 1 11; CSync; CReopen], [CSync; CPut 2 20; CPut 3 30; CCompact].
  split; [done|]. split; [left|]. intros v'. by rewrite !elem_of_cons, elem_of_nil; intuition congruence.
Qed.

(** the migration after a recovery writes the synced records of a table to a new one but
    keeps the old table: a record that was never synced is still found. *)
Theorem lsm_migration_keeps_unsynced :
  let cs := [CPut 1 11; CSync; CPut 2 20; CCompact] in
  ask (run 2 (cs ++ [CReopen])) [1; 2] = [Ok 11; Ok 20].
Proof. by vm_compute. Qed.

(** A major compaction into the last level always ends in a panic of a debug build: after
    its transaction committed, it asks whether the last level needs a compaction. *)
Theorem major_to_last_level_panics {Bt : Bittle} {BP : BidPod} {V : Type} {RP : RecordPod V} {FP : FooterMetaPod}
    {LC : LruCache} {P : Pages} {St Tx : Type} {HS : TxLogStore St Tx} {EL : EventListener V}
    (sst_cap n : nat) (t t' : Tree) :
  major_compaction_tx sst_cap t L5 = Ok t' → do_major_compaction sst_cap (S n) t L5 = Panic.
Proof. intros H. cbn [do_major_compaction]. by rewrite H. Qed.
