(* ===== verification/LsmTables.v ===== *)
(** * LsmTables: the levels of tables of an LSM tree, as a map

    A table is its level, its sync id and its records.  [tables_get] is the value the tables
    of all levels give to a key: that of the newest table that has it, where a table is newer
    on an upper level and, on level 0, with a greater id.  [tables_wf] is what makes a
    compaction right: below level 0 the ranges of a level are disjoint, and a value that is
    synced is never above one that is not.  Adding a table on level 0, moving a table down,
    and replacing tables of two levels by their merge keep both. *)
From S2P Require Import Prelude MemTable Compaction.

Section tables.
Context {V : Type}.
Notation records := (list (nat * ValueEx V)).

Record Table := mkTable { tb_level : nat; tb_sid : nat; tb_recs : records }.
Implicit Types (T : gmap nat Table) (a b : Table) (id k : nat) (v w : ValueEx V).

(** A value as a scan shows it when [master] is the sync id of the tree: a table of an
    earlier sync is all synced. *)
Definition shown_as (synced : bool) v : ValueEx V := if synced then Synced (ValueEx_get v) else v.
Definition tb_get (master : nat) a k : option (ValueEx V) :=
  shown_as (tb_sid a <? master) <$> lk (tb_recs a) k.

Definition span a k : Prop := first_key (tb_recs a) ≤ k ≤ last_key (tb_recs a).
Definition apart a b : Prop :=
  last_key (tb_recs a) < first_key (tb_recs b) ∨ last_key (tb_recs b) < first_key (tb_recs a).

#[global] Instance apart_dec a b : Decision (apart a b).
Proof. unfold apart. apply _. Defined.

Definition newer (x y : nat * Table) : Prop :=
  tb_level x.2 < tb_level y.2 ∨ tb_level x.2 = tb_level y.2 ∧ y.1 < x.1.

(** The value of a key in the tables. *)
Definition tables_get T k (o : option V) : Prop :=
  match o with
  | None => ∀ id a, T !! id = Some a → lk (tb_recs a) k = None
  | Some x => ∃ id a v, T !! id = Some a ∧ lk (tb_recs a) k = Some v ∧ ValueEx_get v = x ∧
      ∀ id' b, T !! id' = Some b → is_Some (lk (tb_recs b) k) → id' = id ∨ newer (id, a) (id', b)
  end.

Record tables_wf (master : nat) T : Prop := {
  tw_table id a : T !! id = Some a → sorted (tb_recs a) ∧ tb_recs a ≠ [] ∧ tb_sid a ≤ master;
  tw_apart id id' a b :
    T !! id = Some a → T !! id' = Some b → id ≠ id' → tb_level a = tb_level b → 0 < tb_level a → apart a b;
  tw_compat id id' a b k v w :
    T !! id = Some a → T !! id' = Some b → newer (id, a) (id', b) →
    tb_get master a k = Some v → tb_get master b k = Some w → compat v w;
}.

(** Values above all tables. *)
Definition above (master : nat) (f : nat → option (ValueEx V)) T : Prop :=
  ∀ k v id a w, f k = Some v → T !! id = Some a → tb_get master a k = Some w → compat v w.

(** ** Values as shown *)
Lemma shown_as_get s v : ValueEx_get (shown_as s v) = ValueEx_get v.
Proof. by destruct s. Qed.

Lemma tb_get_lk master a k v :
  tb_get master a k = Some v → ∃ w, lk (tb_recs a) k = Some w ∧ ValueEx_get v = ValueEx_get w.
Proof. unfold tb_get. intros (w & -> & ->)%fmap_Some. exists w. by rewrite shown_as_get. Qed.

Lemma tb_get_is_Some master a k : is_Some (tb_get master a k) ↔ is_Some (lk (tb_recs a) k).
Proof. unfold tb_get. by rewrite fmap_is_Some. Qed.

Lemma lk_elem (L : records) k v : lk L k = Some v → (k, v) ∈ L.
Proof. apply elem_of_list_to_map_2. Qed.

Lemma lk_is_Some (L : records) k : is_Some (lk L k) ↔ k ∈ L.*1.
Proof.
  split.
  - intros [v Hv%lk_elem]. apply list_elem_of_fmap. by exists (k, v).
  - intros Hk. destruct (lk L k) eqn:E; [by eexists|]. unfold lk in E. by apply not_elem_of_list_to_map_2 in E.
Qed.

Lemma lk_span a k : sorted (tb_recs a) → is_Some (lk (tb_recs a) k) → span a k.
Proof. intros Hs [v Hv%lk_elem]. exact (key_bounds _ _ Hs Hv). Qed.

Lemma span_first a : tb_recs a ≠ [] → is_Some (lk (tb_recs a) (first_key (tb_recs a))).
Proof. intros (kv & Hin & <-)%first_key_in. apply lk_is_Some. by apply list_elem_of_fmap_2. Qed.

Lemma span_last a : tb_recs a ≠ [] → is_Some (lk (tb_recs a) (last_key (tb_recs a))).
Proof. intros (kv & Hin & <-)%last_key_in. apply lk_is_Some. by apply list_elem_of_fmap_2. Qed.

Lemma apart_span a b k : apart a b → span a k → span b k → False.
Proof. unfold apart, span. lia. Qed.

Lemma tables_get_unique T k o o' : tables_get T k o → tables_get T k o' → o = o'.
Proof.
  destruct o as [x|], o' as [y|]; simpl; try done.
  - intros (id & a & v & Ha & Hv & <- & Hall) (id' & b & w & Hb & Hw & <- & Hall').
    destruct (Hall id' b Hb) as [->|Hn]; [by eexists|simplify_eq; congruence|].
    destruct (Hall' id a Ha) as [->|Hn']; [by eexists|simplify_eq; congruence|].
    unfold newer in *. simpl in *. lia.
  - intros (id & a & v & Ha & Hv & _) Hall. specialize (Hall id a Ha). congruence.
  - intros Hall (id & a & v & Ha & Hv & _). specialize (Hall id a Ha). congruence.
Qed.

(** After a sync every table is all synced. *)
Lemma tables_wf_sync master T : tables_wf master T → tables_wf (S master) T.
Proof.
  intros Hwf. split.
  - intros id a Ha. destruct (tw_table _ _ Hwf id a Ha) as (? & ? & ?). split_and!; [done..|lia].
  - exact (tw_apart _ _ Hwf).
  - intros id id' a b k v w _ Hb _ _ Hw _. apply fmap_Some in Hw as (w' & _ & ->).
    destruct (tw_table _ _ Hwf id' b Hb) as (_ & _ & ?). rewrite (proj2 (Nat.ltb_lt _ _)) by lia. done.
Qed.

Lemma above_sync master f T : tables_wf master T → above (S master) f T.
Proof.
  intros Hwf k v id a w _ Ha Hw _. apply fmap_Some in Hw as (w' & _ & ->).
  destruct (tw_table _ _ Hwf id a Ha) as (_ & _ & ?). by rewrite (proj2 (Nat.ltb_lt _ _)) by lia.
Qed.
End tables.
Arguments Table : clear implicits.

(** ** A new table on level 0 *)
Section insert_newest.
Context {V : Type}.
Implicit Types (T : gmap nat (Table V)).

Context (master : nat) (T : gmap nat (Table V)) (N : nat) (rs : list (nat * ValueEx V)).
Context (Hwf : tables_wf master T) (Hfresh : ∀ id, is_Some (T !! id) → id < N).
Context (Hs : sorted rs) (Hne : rs ≠ []) (Habove : above master (lk rs) T).
Let a := mkTable 0 master rs.

Lemma insert_newest_get k o :
  tables_get T k o →
  tables_get (<[N := a]> T) k (match lk rs k with Some v => Some (ValueEx_get v) | None => o end).
Proof.
  intros Ho. assert (HN : T !! N = None).
  { destruct (T !! N) eqn:E; [|done]. pose proof (Hfresh N ltac:(by rewrite E)). lia. }
  destruct (lk rs k) as [v|] eqn:Ek.
  - exists N, a, v. rewrite lookup_insert_eq. split_and!; try done.
    intros id b. rewrite lookup_insert_Some. intros [[<- _]|[Hne' Hb]] _; [by left|right].
    unfold newer. simpl. pose proof (Hfresh id ltac:(by rewrite Hb)). lia.
  - destruct o as [x|]; simpl in *.
    + destruct Ho as (id & b & v & Hb & Hv & Hx & Hall). exists id, b, v.
      rewrite lookup_insert_ne by (intros ->; congruence). split_and!; try done.
      intros id' c. rewrite lookup_insert_Some. intros [[<- <-]|[_ Hc]] [w Hw]; [simpl in Hw; congruence|eauto].
    + intros id b. rewrite lookup_insert_Some. intros [[<- <-]|[_ Hb]]; [done|eauto].
Qed.

Lemma newest_get k : tb_get master a k = lk rs k.
Proof. unfold tb_get. simpl. rewrite (proj2 (Nat.ltb_ge _ _)) by done. by destruct (lk rs k). Qed.

Lemma insert_newest_wf : tables_wf master (<[N := a]> T).
Proof.
  split.
  - intros id b. rewrite lookup_insert_Some. intros [[_ <-]|[_ Hb]]; [by split_and!|by eapply tw_table].
  - intros id id' b c. rewrite !lookup_insert_Some.
    intros [[<- <-]|[_ Hb]] [[<- <-]|[_ Hc]] Hd Hl Hpos; try done; [simpl in *; lia..|]. by eapply tw_apart.
  - intros id id' b c k v w. rewrite !lookup_insert_Some.
    intros [[<- <-]|[_ Hb]] [[<- <-]|[_ Hc]] Hn Hv Hw.
    + unfold newer in Hn. simpl in Hn. lia.
    + rewrite newest_get in Hv. by eapply Habove.
    + unfold newer in Hn. simpl in Hn. pose proof (Hfresh id ltac:(by rewrite Hb)). lia.
    + by apply (tw_compat _ _ Hwf id id' b c k).
Qed.

Lemma insert_newest_above f :
  above master f T → (∀ k v w, f k = Some v → lk rs k = Some w → compat v w) → above master f (<[N := a]> T).
Proof.
  intros Hf Hrs k v id b w Hv. rewrite lookup_insert_Some. intros [[<- <-]|[_ Hb]] Hw; [|by eapply Hf].
  rewrite newest_get in Hw. eauto.
Qed.
End insert_newest.

(** ** Merging a table into the next level *)
Section compacted.
Context {V : Type}.
Implicit Types (n v w : ValueEx V) (x y : option (ValueEx V)).

Lemma compacted_get x y v :
  (∀ n w, x = Some n → y = Some w → compat n w) → compacted x y = Some v →
  ValueEx_get <$> (match x with Some n => Some n | None => y end) = Some (ValueEx_get v).
Proof.
  intros Hc. destruct x as [n|], y as [w|]; simpl; try (by intros [= ->]).
  destruct (compact_value_ex_spec n w (Hc n w eq_refl eq_refl)) as (v' & d & -> & <- & _). by intros [= ->].
Qed.

Lemma compacted_is_Some x y :
  (∀ n w, x = Some n → y = Some w → compat n w) → is_Some (compacted x y) ↔ is_Some x ∨ is_Some y.
Proof.
  intros Hc. destruct x as [n|], y as [w|]; simpl; try (split; [by eauto|by intros [[? ?]|[? ?]]; eauto]).
  destruct (compact_value_ex_spec n w (Hc n w eq_refl eq_refl)) as (v' & d & -> & _). split; eauto.
Qed.

Lemma compat_compacted_below x y n v :
  compacted x y = Some v → (∀ w, x = Some w → compat n w) → (∀ w, y = Some w → compat n w) → compat n v.
Proof.
  unfold compat. destruct x as [a|], y as [b|]; simpl; try (intros [= ->]; by eauto).
  intros Hv Ha Hb Hn. specialize (Ha a eq_refl Hn). specialize (Hb b eq_refl Hn).
  destruct a, b; simplify_eq/=; done.
Qed.

Lemma compat_compacted_above x y n v :
  compacted x y = Some v → (∀ w, x = Some w → compat w n) → (∀ w, y = Some w → compat w n) → compat v n.
Proof.
  unfold compat. destruct x as [a|], y as [b|]; simpl; try (intros [= ->]; by eauto).
  intros Hv Ha Hb Hn. specialize (Ha a eq_refl). specialize (Hb b eq_refl).
  destruct a, b; simplify_eq/=; auto.
Qed.
End compacted.

Section replace_merged.
Context {V : Type}.
Context (master N : nat) (T T' C : gmap nat (Table V)) (U : nat) (u : Table V) (D : nat → Prop) `{!∀ id, Decision (D id)}.
Context (low : nat → option (ValueEx V)).
Implicit Types (a b c : Table V) (id k : nat) (v w : ValueEx V).
Context (Hwf : tables_wf master T).
(** The upper table has the least id of its level; the lower ones are those of the next
    level that are not apart from it. *)
Context (HU : T !! U = Some u) (Hmin : ∀ id b, T !! id = Some b → tb_level b = tb_level u → U ≤ id).
Context (HD : ∀ id, D id ↔ ∃ b, T !! id = Some b ∧ tb_level b = S (tb_level u) ∧ ¬ apart b u).
Context (Hlow : ∀ k w, low k = Some w ↔ ∃ id b, D id ∧ T !! id = Some b ∧ tb_get master b k = Some w).
(** The tables created hold the merge. *)
Context (HCnew : ∀ id, is_Some (C !! id) → N ≤ id) (HTold : ∀ id, is_Some (T !! id) → id < N).
Context (HC : ∀ id c, C !! id = Some c →
           tb_level c = S (tb_level u) ∧ tb_sid c = master ∧ sorted (tb_recs c) ∧ tb_recs c ≠ []).
Context (HCapart : ∀ id id' c c', C !! id = Some c → C !! id' = Some c' → id ≠ id' → apart c c').
Context (HClk : ∀ k v, (∃ id c, C !! id = Some c ∧ lk (tb_recs c) k = Some v) ↔
                       compacted (tb_get master u k) (low k) = Some v).
Context (HT'new : ∀ id c, C !! id = Some c → T' !! id = Some c).
Context (HT'old : ∀ id b, C !! id = None → T' !! id = Some b ↔ T !! id = Some b ∧ id ≠ U ∧ ¬ D id).

Lemma T'_cases id b : T' !! id = Some b → C !! id = Some b ∨ (T !! id = Some b ∧ id ≠ U ∧ ¬ D id).
Proof.
  intros Hb. destruct (C !! id) as [c|] eqn:E; [left|right; by apply HT'old].
  specialize (HT'new id c E). congruence.
Qed.

Lemma old_stays id b : T !! id = Some b → id ≠ U → ¬ D id → T' !! id = Some b.
Proof.
  intros Hb HneU HnD. apply HT'old; [|done]. destruct (C !! id) eqn:E; [|done].
  pose proof (HCnew id ltac:(by rewrite E)). pose proof (HTold id ltac:(by rewrite Hb)). lia.
Qed.

Lemma created_get c k : (∃ id, C !! id = Some c) → tb_get master c k = lk (tb_recs c) k.
Proof.
  intros [id Hc]. destruct (HC id c Hc) as (_ & Hsid & _). unfold tb_get. rewrite Hsid, Nat.ltb_irrefl.
  by destruct (lk (tb_recs c) k).
Qed.

Lemma streams_ok k n w : tb_get master u k = Some n → low k = Some w → compat n w.
Proof.
  intros Hn (id & b & HDi & Hb & Hw)%Hlow. pose proof (proj1 (HD id) HDi) as (b' & Hb' & Hl & _).
  assert (b' = b) as -> by congruence. apply (tw_compat _ _ Hwf U id u b k); try done. left. simpl. lia.
Qed.

(** A key of the merge is in the upper table or a lower one. *)
Lemma merge_source k v :
  compacted (tb_get master u k) (low k) = Some v →
  is_Some (lk (tb_recs u) k) ∨ ∃ id b, D id ∧ T !! id = Some b ∧ is_Some (lk (tb_recs b) k).
Proof.
  intros Hv. destruct (proj1 (compacted_is_Some _ _ (streams_ok k)) ltac:(by rewrite Hv)) as [Hu|[w Hw]].
  - left. by apply tb_get_is_Some in Hu.
  - right. apply Hlow in Hw as (id & b & HDi & Hb & Hw). exists id, b. split_and!; try done.
    apply (tb_get_is_Some master). by rewrite Hw.
Qed.

Lemma T_sorted id b : T !! id = Some b → sorted (tb_recs b).
Proof. intros Hb. by destruct (tw_table _ _ Hwf id b Hb). Qed.

(** A table of the lower level that stays has no key of the merge. *)
Lemma survivor_apart id b k v :
  T !! id = Some b → ¬ D id → tb_level b = S (tb_level u) → is_Some (lk (tb_recs b) k) →
  compacted (tb_get master u k) (low k) = Some v → False.
Proof.
  intros Hb HnD Hl Hk Hv. pose proof (lk_span b k (T_sorted _ _ Hb) Hk) as Hsp.
  destruct (merge_source k v Hv) as [Hu|(d & c & HDd & Hc & Hck)].
  - apply HnD, HD. exists b. split_and!; try done. intros Ha.
    exact (apart_span b u k Ha Hsp (lk_span u k (T_sorted _ _ HU) Hu)).
  - pose proof (lk_span c k (T_sorted _ _ Hc) Hck) as Hsp'. pose proof (proj1 (HD d) HDd) as (c' & Hc' & Hlc & _).
    assert (c' = c) as -> by congruence.
    assert (id ≠ d) by (by intros ->). apply (apart_span b c k); try done.
    apply (tw_apart _ _ Hwf id d); try done; lia.
Qed.

Lemma replace_above f : above master f T → above master f T'.
Proof.
  intros Hf k v id b w Hv [Hc|(Hb & _)]%T'_cases Hw; [|by eapply Hf].
  rewrite created_get in Hw by eauto. apply (compat_compacted_below (tb_get master u k) (low k)).
  - apply HClk. eauto.
  - intros w' Hw'. by eapply Hf.
  - intros w' (d & c & _ & Hd & Hw')%Hlow. by eapply Hf.
Qed.

(** What stays and is above the created tables is above all that was merged, and what stays
    and is below them is below. *)
Lemma above_merged id b id' c k d e :
  T !! id = Some b → id ≠ U → ¬ D id → is_Some (lk (tb_recs b) k) →
  C !! id' = Some c → is_Some (lk (tb_recs c) k) → newer (id, b) (id', c) →
  d = U ∧ e = u ∨ D d ∧ T !! d = Some e → newer (id, b) (d, e).
Proof.
  intros Hb HneU HnD Hk Hc [v Hv] Hn Hd. pose proof (proj1 (HClk k v) ltac:(eauto)) as Hm.
  destruct (HC id' c Hc) as (Hlc & _). unfold newer in *. simpl in *.
  assert (tb_level b ≠ S (tb_level u)) as Hlb by (intros E; by eapply survivor_apart).
  destruct Hd as [[-> ->]|[(e' & He' & Hle & _)%HD He]].
  - destruct (decide (tb_level b = tb_level u)) as [E|]; [|lia]. pose proof (Hmin id b Hb E). lia.
  - assert (e' = e) as -> by congruence. lia.
Qed.

Lemma below_merged id b id' c k d e :
  T !! id = Some b → id ≠ U → ¬ D id → is_Some (lk (tb_recs b) k) →
  C !! id' = Some c → is_Some (lk (tb_recs c) k) → newer (id', c) (id, b) →
  d = U ∧ e = u ∨ D d ∧ T !! d = Some e → newer (d, e) (id, b).
Proof.
  intros Hb HneU HnD Hk Hc [v Hv] Hn Hd. pose proof (proj1 (HClk k v) ltac:(eauto)) as Hm.
  destruct (HC id' c Hc) as (Hlc & _). unfold newer in *. simpl in *.
  assert (tb_level b ≠ S (tb_level u)) as Hlb by (intros E; by eapply survivor_apart).
  destruct Hd as [[-> ->]|[(e' & He' & Hle & _)%HD He]]; [lia|].
  assert (e' = e) as -> by congruence. lia.
Qed.

(** Between two keys of the merge there is no table of the lower level that stays. *)
Lemma created_apart id b id' c :
  T !! id = Some b → ¬ D id → tb_level b = S (tb_level u) → C !! id' = Some c → apart c b.
Proof.
  intros Hb HnD Hl Hc. destruct (HC id' c Hc) as (_ & _ & _ & Hne).
  assert (Hbu : apart b u) by (destruct (decide (apart b u)); [done|destruct HnD; apply HD; by exists b]).
  (* each end lies in a table that was merged, hence beside [b] and overlapping [u] *)
  assert (Hend : ∀ k, is_Some (lk (tb_recs c) k) → ∃ e, span e k ∧ apart e b ∧ (e = u ∨ ¬ apart e u)).
  { intros k [v Hv]. destruct (merge_source k v) as [Hu|(d & e & HDd & He & Hek)]; [apply HClk; eauto|..].
    - exists u. split; [by apply lk_span; [by eapply T_sorted|]|]. split; [unfold apart in *; lia|by left].
    - exists e. split; [by apply lk_span; [by eapply T_sorted|]|].
      pose proof (proj1 (HD d) HDd) as (e' & He' & Hle & Hno). assert (e' = e) as -> by congruence. split; [|by right].
      apply (tw_apart _ _ Hwf d id); try done; [by intros ->|lia..]. }
  destruct (Hend _ (span_first c Hne)) as (e1 & S1 & A1 & O1), (Hend _ (span_last c Hne)) as (e2 & S2 & A2 & O2).
  destruct (tw_table _ _ Hwf id b Hb) as (Hs & Hneb & _).
  pose proof (lk_span b _ Hs (span_first b Hneb)) as Hb1. unfold span in Hb1.
  unfold apart, span in *. destruct O1 as [->|O1], O2 as [->|O2]; lia.
Qed.

Lemma replace_wf : tables_wf master T'.
Proof.
  split.
  - intros id b [Hc|(Hb & _)]%T'_cases; [|by eapply tw_table].
    destruct (HC id b Hc) as (_ & -> & ? & ?). done.
  - intros id id' b c [Hb|(Hb & HneU & HnD)]%T'_cases [Hc|(Hc & HneU' & HnD')]%T'_cases Hne Hl Hpos.
    + by apply (HCapart id id').
    + destruct (HC id b Hb) as (Hlb & _). apply (created_apart id' c id b); try done. congruence.
    + destruct (HC id' c Hc) as (Hlc & _). destruct (created_apart id b id' c) as [?|?]; try done; [congruence|..];
        unfold apart; lia.
    + by apply (tw_apart _ _ Hwf id id').
  - intros id id' b c k v w [Hb|(Hb & HneU & HnD)]%T'_cases [Hc|(Hc & HneU' & HnD')]%T'_cases Hn Hv Hw.
    + destruct (HC id b Hb) as (Hlb & _ & Hsb & _), (HC id' c Hc) as (Hlc & _ & Hsc & _). exfalso.
      apply (apart_span b c k).
      * apply (HCapart id id'); try done. unfold newer in Hn. simpl in Hn. intros ->. lia.
      * apply lk_span; [done|]. apply (tb_get_is_Some master). by eexists.
      * apply lk_span; [done|]. apply (tb_get_is_Some master). by eexists.
    + assert (is_Some (lk (tb_recs c) k)) as Hk by (apply (tb_get_is_Some master); by eexists).
      rewrite created_get in Hv by eauto.
      apply (compat_compacted_above (tb_get master u k) (low k)); [apply HClk; eauto|..].
      * intros w' Hw'. apply (tw_compat _ _ Hwf U id' u c k); try done.
        apply (below_merged id' c id b k U u); try done; by left.
      * intros w' (d & e & HDd & He & Hw')%Hlow. apply (tw_compat _ _ Hwf d id' e c k); try done.
        apply (below_merged id' c id b k d e); try done; by right.
    + assert (is_Some (lk (tb_recs b) k)) as Hk by (apply (tb_get_is_Some master); by eexists).
      rewrite created_get in Hw by eauto.
      apply (compat_compacted_below (tb_get master u k) (low k)); [apply HClk; eauto|..].
      * intros w' Hw'. apply (tw_compat _ _ Hwf id U b u k); try done.
        apply (above_merged id b id' c k U u); try done; by left.
      * intros w' (d & e & HDd & He & Hw')%Hlow. apply (tw_compat _ _ Hwf id d b e k); try done.
        apply (above_merged id b id' c k d e); try done; by right.
    + by apply (tw_compat _ _ Hwf id id' b c k).
Qed.

(** The tables created answer for the merge. *)
Lemma created_holder k v :
  compacted (tb_get master u k) (low k) = Some v →
  ∃ id c, C !! id = Some c ∧ lk (tb_recs c) k = Some v ∧
    ∀ id' c', C !! id' = Some c' → is_Some (lk (tb_recs c') k) → id' = id.
Proof.
  intros (id & c & Hc & Hv)%HClk. exists id, c. split_and!; try done. intros id' c' Hc' Hk'.
  destruct (decide (id' = id)) as [|Hne]; [done|]. exfalso.
  destruct (HC id c Hc) as (_ & _ & Hs & _), (HC id' c' Hc') as (_ & _ & Hs' & _).
  apply (apart_span c' c k); [by apply (HCapart id' id)|by apply lk_span|]. apply lk_span; [done|by eexists].
Qed.

(** ... and for the whole tree, when no table that stays above them has the key. *)
Lemma merged_top k m x :
  compacted (tb_get master u k) (low k) = Some m → ValueEx_get m = x →
  (∀ id b, T !! id = Some b → id ≠ U → ¬ D id → is_Some (lk (tb_recs b) k) → S (tb_level u) ≤ tb_level b) →
  tables_get T' k (Some x).
Proof.
  intros Hm <- Hall. destruct (created_holder k m Hm) as (id & c & Hc & Hv & Huniq). destruct (HC id c Hc) as (Hlc & _).
  exists id, c, m. split_and!; try done; [by apply HT'new|].
  intros id' b [Hc'|(Hb & HneU & HnD)]%T'_cases Hk; [left; by apply (Huniq id' b)|right].
  pose proof (Hall id' b Hb HneU HnD Hk). left. simpl.
  assert (tb_level b ≠ S (tb_level u)); [|lia]. intros E. by eapply survivor_apart.
Qed.

Lemma replace_get k o : tables_get T k o → tables_get T' k o.
Proof.
  destruct o as [x|]; simpl.
  2:{ intros Hall id b [Hc|(Hb & _)]%T'_cases; [|by eapply Hall]. destruct (lk (tb_recs b) k) as [v|] eqn:Ek; [|done].
      destruct (merge_source k v) as [[w Hw]|(d & e & _ & He & [w Hw])]; [apply HClk; by eauto|..].
      - rewrite (Hall U u HU) in Hw. done.
      - rewrite (Hall d e He) in Hw. done. }
  intros (id & a & v & Ha & Hv & <- & Hall).
  destruct (decide (id = U)) as [->|HneU]; [|destruct (decide (D id)) as [HDi|HnD]].
  - rewrite HU in Ha. injection Ha as <-. assert (Hu : is_Some (tb_get master u k)) by (by apply tb_get_is_Some; eexists).
    destruct (proj2 (compacted_is_Some _ _ (streams_ok k)) (or_introl Hu)) as [m Hm].
    pose proof (compacted_get _ _ m (streams_ok k) Hm) as Hg. destruct Hu as [v' Hv']. rewrite Hv' in Hg.
    apply tb_get_lk in Hv' as (v0 & Hv0 & Hv'). assert (v0 = v) as -> by congruence.
    apply (merged_top k m); [done|simpl in Hg; congruence|]. intros id' b Hb HneU' HnD' Hk.
    destruct (Hall id' b Hb Hk) as [->|[Hn|[Hn Hlt]]]; simpl in *; [done|lia|]. pose proof (Hmin id' b Hb). lia.
  - pose proof (proj1 (HD id) HDi) as (a' & Ha' & Hla & _). assert (a' = a) as -> by congruence.
    assert (Hu : tb_get master u k = None).
    { destruct (tb_get master u k) eqn:E; [|done]. exfalso.
      destruct (Hall U u HU) as [<-|[?|[? _]]]; [apply (tb_get_is_Some master); by eexists|..]; simpl in *;
        [rewrite HU in Ha; injection Ha as <-|..]; lia. }
    destruct (proj2 (tb_get_is_Some master a k)) as [w Hw]; [by eexists|].
    assert (Hlw : low k = Some w) by (apply Hlow; eauto).
    apply (merged_top k w); [by rewrite Hu, Hlw| |].
    + apply tb_get_lk in Hw as (v0 & Hv0 & Hw). assert (v0 = v) as -> by congruence. done.
    + intros id' b Hb HneU' HnD' Hk. destruct (Hall id' b Hb Hk) as [->|[Hn|[Hn Hlt]]]; simpl in *; [done|lia..].
  - exists id, a, v. split_and!; try done; [by apply old_stays|].
    intros id' b [Hc|(Hb & _)]%T'_cases Hk; [right|by apply Hall].
    destruct Hk as [m Hm']. pose proof (proj1 (HClk k m) ltac:(eauto)) as Hm. destruct (HC id' b Hc) as (Hlb & _).
    assert (tb_level a ≠ S (tb_level u)) as Hla by (intros E; eapply survivor_apart; eauto).
    left. simpl. destruct (merge_source k m Hm) as [Hu|(d & e & HDd & He & Hek)].
    + destruct (Hall U u HU Hu) as [?|[?|[? _]]]; simpl in *; [done|lia..].
    + destruct (Hall d e He Hek) as [->|Hn]; [done|].
      pose proof (proj1 (HD d) HDd) as (e' & He' & Hle & _). assert (e' = e) as -> by congruence.
      unfold newer in Hn. simpl in Hn. lia.
Qed.
End replace_merged.

(** ** Moving a table to the next level *)
Section move_down.
Context {V : Type}.
Context (master : nat) (T : gmap nat (Table V)) (U : nat) (u : Table V).
Implicit Types (a b c : Table V) (id k : nat) (v w : ValueEx V).
Context (Hwf : tables_wf master T).
Context (HU : T !! U = Some u) (Hmin : ∀ id b, T !! id = Some b → tb_level b = tb_level u → U ≤ id).
Context (Hno : ∀ id b, T !! id = Some b → tb_level b = S (tb_level u) → apart b u).
Let u' := mkTable (S (tb_level u)) (tb_sid u) (tb_recs u).
Let T' := <[U := u']> T.

(** A table after the move, with what it was before. *)
Lemma moved_cases id b :
  T' !! id = Some b → ∃ a, T !! id = Some a ∧ tb_recs b = tb_recs a ∧ tb_sid b = tb_sid a ∧
    (id = U ∧ a = u ∧ b = u' ∨ id ≠ U ∧ b = a).
Proof.
  unfold T'. rewrite lookup_insert_Some. intros [[<- <-]|[Hne Hb]]; [exists u; split_and!; try done; by left|].
  exists b. split_and!; try done. by right.
Qed.

Lemma moved_is id a : T !! id = Some a → ∃ b, T' !! id = Some b ∧ tb_recs b = tb_recs a ∧ tb_sid b = tb_sid a ∧
    (id = U ∧ a = u ∧ b = u' ∨ id ≠ U ∧ b = a).
Proof.
  intros Ha. unfold T'. destruct (decide (id = U)) as [->|Hne].
  - exists u'. rewrite lookup_insert_eq. assert (a = u) as -> by congruence. split_and!; try done. by left.
  - exists a. rewrite lookup_insert_ne by done. split_and!; try done. by right.
Qed.

Lemma next_level_apart id b k :
  T !! id = Some b → tb_level b = S (tb_level u) → is_Some (lk (tb_recs b) k) → is_Some (lk (tb_recs u) k) → False.
Proof.
  intros Hb Hl Hk Hku. destruct (tw_table _ _ Hwf id b Hb) as (Hs & _), (tw_table _ _ Hwf U u HU) as (Hs' & _).
  exact (apart_span b u k (Hno id b Hb Hl) (lk_span b k Hs Hk) (lk_span u k Hs' Hku)).
Qed.

(** The order of the tables that have a key stays. *)
Lemma moved_newer id id' a a' b b' k :
  T !! id = Some a → T !! id' = Some a' → is_Some (lk (tb_recs a) k) → is_Some (lk (tb_recs a') k) → id ≠ id' →
  (id = U ∧ a = u ∧ b = u' ∨ id ≠ U ∧ b = a) → (id' = U ∧ a' = u ∧ b' = u' ∨ id' ≠ U ∧ b' = a') →
  newer (id, b) (id', b') ↔ newer (id, a) (id', a').
Proof.
  intros Ha Ha' Hk Hk' Hne [(-> & -> & ->)|[HneU ->]] [(-> & -> & ->)|[HneU' ->]]; try done; unfold newer; simpl.
  - pose proof (Hmin id' a' Ha'). pose proof (λ E, next_level_apart id' a' k Ha' E Hk' Hk). lia.
  - pose proof (Hmin id a Ha). pose proof (λ E, next_level_apart id a k Ha E Hk Hk'). lia.
Qed.

Lemma move_get k o : tables_get T k o → tables_get T' k o.
Proof.
  destruct o as [x|]; simpl.
  - intros (id & a & v & Ha & Hv & Hx & Hall). destruct (moved_is id a Ha) as (b & Hb & Hr & _ & Hcase).
    exists id, b, v. rewrite Hr. split_and!; try done.
    intros id' b' (a' & Ha' & Hr' & _ & Hcase')%moved_cases Hk. rewrite Hr' in Hk.
    destruct (decide (id' = id)) as [|Hne]; [by left|right]. destruct (Hall id' a' Ha' Hk) as [|Hn]; [done|].
    apply (moved_newer id id' a a' b b' k); try done.
  - intros Hall id b (a & Ha & -> & _)%moved_cases. by eapply Hall.
Qed.

Lemma moved_get a b k : tb_recs b = tb_recs a → tb_sid b = tb_sid a → tb_get master b k = tb_get master a k.
Proof. unfold tb_get. by intros -> ->. Qed.

Lemma move_wf : tables_wf master T'.
Proof.
  split.
  - intros id b (a & Ha & -> & -> & _)%moved_cases. by eapply tw_table.
  - intros id id' b b' (a & Ha & Hr & _ & Hc)%moved_cases (a' & Ha' & Hr' & _ & Hc')%moved_cases Hne Hl Hpos.
    unfold apart. rewrite Hr, Hr'.
    destruct Hc as [(-> & -> & ->)|[HneU ->]], Hc' as [(-> & -> & ->)|[HneU' ->]]; try done; simpl in *.
    + destruct (Hno id' a' Ha'); [done|by right|by left].
    + by apply (Hno id a).
    + by apply (tw_apart _ _ Hwf id id').
  - intros id id' b b' k v w (a & Ha & Hr & Hs & Hc)%moved_cases (a' & Ha' & Hr' & Hs' & Hc')%moved_cases Hn Hv Hw.
    rewrite (moved_get a) in Hv by done. rewrite (moved_get a') in Hw by done.
    apply (tw_compat _ _ Hwf id id' a a' k); try done. apply (moved_newer id id' a a' b b' k); try done.
    + apply (tb_get_is_Some master). by eexists.
    + apply (tb_get_is_Some master). by eexists.
    + intros ->. unfold newer in Hn. simpl in Hn. rewrite Ha in Ha'. injection Ha' as <-.
      destruct Hc as [(-> & -> & ->)|[HneU ->]], Hc' as [(? & _ & ->)|[HneU' ->]]; try done; simpl in Hn; lia.
Qed.

Lemma move_above f : above master f T → above master f T'.
Proof.
  intros Hf k v id b w Hv (a & Ha & Hr & Hs & _)%moved_cases Hw. rewrite (moved_get a) in Hw by done. by eapply Hf.
Qed.
End move_down.

(** ** Sorted runs cut into tables and put together *)
Section runs.
Context {V : Type}.
Notation records := (list (nat * ValueEx V)).
Implicit Types (rs : records) (rss : list records).

Lemma lk_sorted rs k v : sorted rs → lk rs k = Some v ↔ (k, v) ∈ rs.
Proof. intros Hs%sorted_NoDup. split; [apply lk_elem|by apply elem_of_list_to_map_1]. Qed.

Lemma run_sorted rss rs : sorted (concat rss) → rs ∈ rss → sorted rs.
Proof.
  intros Hs (i & Hi)%list_elem_of_lookup. apply take_drop_middle in Hi. rewrite <- Hi in Hs.
  rewrite concat_app in Hs. cbn in Hs. apply sorted_app_inv in Hs as [_ Hs]. by apply sorted_app_inv in Hs as [Hs _].
Qed.

Lemma lk_concat rss k v : sorted (concat rss) → lk (concat rss) k = Some v ↔ ∃ rs, rs ∈ rss ∧ lk rs k = Some v.
Proof.
  intros Hs. rewrite lk_sorted, list_elem_of_In, in_concat by done. setoid_rewrite <- list_elem_of_In.
  split; intros (rs & Hrs & Hk); exists rs; (split; [done|]); by apply lk_sorted; [by eapply run_sorted|].
Qed.

Lemma runs_apart rss i j rs rs' :
  sorted (concat rss) → rss !! i = Some rs → rss !! j = Some rs' → i < j → rs ≠ [] → rs' ≠ [] →
  last_key rs < first_key rs'.
Proof.
  intros Hs Hi Hj Hlt (x & Hx & <-)%last_key_in (y & Hy & <-)%first_key_in.
  apply take_drop_middle in Hi as Hcut. rewrite <- Hcut in Hs. rewrite concat_app in Hs. cbn in Hs.
  apply sorted_app_inv in Hs as [_ Hs]. apply (sorted_app_lt rs _ x y Hs Hx).
  apply list_elem_of_In, in_concat. exists rs'. split; [|by apply list_elem_of_In].
  apply list_elem_of_In, list_elem_of_lookup. exists (j - S i). rewrite lookup_drop. rewrite <- Hj. f_equal. lia.
Qed.

Lemma concat_sorted rss :
  Forall (λ rs, sorted rs ∧ rs ≠ []) rss → StronglySorted (λ rs rs', last_key rs < first_key rs') rss → sorted (concat rss).
Proof.
  intros Hall. induction 1 as [|rs rss Hs IH Hrs]; [constructor|]. apply Forall_cons in Hall as [[Hrss Hne] Hall].
  cbn [concat]. unfold sorted. rewrite fmap_app. apply StronglySorted_app. split; [|split; [done|by apply IH]].
  intros k k' (x & -> & Hx)%list_elem_of_fmap (y & -> & Hy)%list_elem_of_fmap.
  apply list_elem_of_In, in_concat in Hy as (rs' & Hin%list_elem_of_In & Hy%list_elem_of_In).
  rewrite Forall_forall in Hrs, Hall. specialize (Hrs rs' Hin). destruct (Hall rs' Hin) as [Hs' _].
  pose proof (key_bounds rs x Hrss Hx). pose proof (key_bounds rs' y Hs' Hy). lia.
Qed.

(** Tables apart, in the order of their first keys, follow one another. *)
Lemma starts_follow (L : list (Table V)) :
  Forall (λ a, sorted (tb_recs a) ∧ tb_recs a ≠ []) L → ForallOrdPairs apart L →
  StronglySorted (λ a b, first_key (tb_recs a) ≤ first_key (tb_recs b)) L →
  StronglySorted (λ a b, last_key (tb_recs a) < first_key (tb_recs b)) L.
Proof.
  intros Hall Hap. induction 1 as [|a L Hs IH Ha]; constructor.
  - inversion Hap; subst. apply Forall_cons in Hall as [_ Hall]. by apply IH.
  - inversion Hap as [|? ? Hap' _]; subst. apply Forall_cons in Hall as [[Hsa Hnea] Hall].
    rewrite Forall_forall in Ha, Hap', Hall |- *. intros b Hb. specialize (Ha b Hb). specialize (Hap' b Hb).
    destruct (Hall b Hb) as [Hsb Hneb]. pose proof (lk_span b _ Hsb (span_last b Hneb)) as Hsp.
    pose proof (lk_span a _ Hsa (span_last a Hnea)) as Hspa. unfold span, apart in *. lia.
Qed.

Lemma chunked_lengths cap rss rs : chunked cap rss → 0 < cap → rs ∈ rss → 0 < length rs ≤ cap.
Proof.
  induction 1 as [|rs0 Hr|rs0 rs' rss Hr _ IH]; intros Hcap Hin.
  - by apply elem_of_nil in Hin.
  - by apply list_elem_of_singleton in Hin as ->.
  - apply elem_of_cons in Hin as [->|Hin]; [lia|by apply IH].
Qed.
End runs.
