(* ===== verification/LsmSpec.v ===== *)
(** * LsmSpec: the tables of the LSM tree on the log store

    Building a table changes the log it is built in only ([build_frame]); [ssts_repr] ties the
    manager of the tree and the published logs to the tables of [LsmTables]; searches over the
    levels find the newest value ([search_tables], [search_range_ok]); a transaction of a
    major compaction, whether it moves a table or merges it into the next level, keeps every
    value ([major_compaction_step]). *)
From S2P Require Import Prelude BitMap Bio RangeQuery MemTable Compaction SSTable SSTableSpec LogStore Wal WalSpec LsmTree LsmTables.

(** ** Building in a log changes that log only *)
Section build_frame.
Context {Bt : Bittle} {BP : BidPod} {V : Type} {RP : RecordPod V} {FP : FooterMetaPod} {LC : LruCache}.
Context {P : Pages} {L : Type} {HL : BlockLog L}.
Context (R : L → L → Prop).
Context (Rrefl : ∀ l, R l l) (Rtrans : ∀ l1 l2 l3, R l1 l2 → R l2 l3 → R l1 l3).
Context (Rappend : ∀ l buf pos l', Buf_try_from buf = Ok buf → bl_append l buf = Ok (pos, l') → R l l').

Lemma try_from_same buf b : Buf_try_from buf = Ok b → b = buf ∧ Buf_try_from buf = Ok buf.
Proof. unfold Buf_try_from. repeat case_match; by intros [= <-]. Qed.

Lemma build_one_frame e buf log cache log' cache' :
  build_one_record_block e buf log cache = Ok (log', cache') → R log log'.
Proof.
  unfold build_one_record_block. intros (rb & _ & H)%bind_inv. apply bind_inv in H as (rb' & Hrb & H).
  destruct (Buf_try_from rb) as [b| |] eqn:E; try done. injection Hrb as <-.
  apply try_from_same in E as [-> E]. apply bind_inv in H as ([pos l] & Ha & [= <- <-]). by eapply Rappend.
Qed.

Lemma build_step_frame listener st kv st' :
  build_step (L := L) listener st kv = Ok st' → R (bs_log st) (bs_log st').
Proof.
  unfold build_step. destruct kv as [k v]. intros (f & _ & H)%bind_inv. cbv zeta in H.
  apply bind_inv in H as ([b o] & _ & H). apply bind_inv in H as (c & _ & H).
  destruct (_ <=? c); [by injection H as <-|]. apply bind_inv in H as (fk & _ & H).
  apply bind_inv in H as ([lg ca] & H & [= <-]). by apply build_one_frame in H.
Qed.

Lemma foldM_frame listener rs : ∀ st st',
  foldM (build_step (L := L) listener) st rs = Ok st' → R (bs_log st) (bs_log st').
Proof.
  induction rs as [|kv rs IH]; intros st st' H; simpl in H; [injection H as <-; apply Rrefl|].
  destruct (build_step listener st kv) as [s| |] eqn:E; try done.
  eapply Rtrans; [by eapply build_step_frame|by apply IH].
Qed.

Lemma build_frame listener rs sync_id id log t log' :
  build listener rs sync_id id log = Ok (t, log') → R log log'.
Proof.
  unfold build. intros ([[[total idx] l1] c] & Hr & H)%bind_inv. apply bind_inv in H as ([m l2] & Hf & [= <- <-]).
  apply (Rtrans _ l1).
  - unfold build_record_blocks in Hr. apply bind_inv in Hr as (st & Hst & Hr). apply foldM_frame in Hst. cbn in Hst.
    apply bind_inv in Hr as ([] & _ & Hr). destruct (_ =? 0); [injection Hr as _ _ Hl _; rewrite <- Hl; exact Hst|].
    apply bind_inv in Hr as (fk & _ & Hr). apply bind_inv in Hr as (ck & _ & Hr).
    apply bind_inv in Hr as ([lg ca] & Hone & [= _ _ <- _]). eapply Rtrans; [exact Hst|by eapply build_one_frame].
  - unfold build_footer in Hf. apply bind_inv in Hf as (b1 & _ & Hf). apply bind_inv in Hf as (b2 & Hb & Hf).
    destruct (Buf_try_from b1) as [b| |] eqn:E; try done. injection Hb as <-. apply try_from_same in E as [-> E].
    apply bind_inv in Hf as ([pos l] & Ha & [= <- <-]). by eapply Rappend.
Qed.
End build_frame.

(** ** Logs of the store read back *)
Section store_logs.
Context {St Tx : Type} {HS : TxLogStore St Tx} {HSS : TxLogStoreSpec St Tx}.
Implicit Types (h : TxLogH St Tx) (st : St) (tx : Tx).

Definition seen st tx : gmap nat (string * list byte) := overlay (ls_edits tx) (ls_logs st).

Definition txlog_content h (bs : list byte) : Prop :=
  ∃ b, seen (h_st h) (h_tx h) !! h_id h = Some (b, bs) ∧ aligned bs.

#[export] Program Instance TxLogH_ByteLogSpec : ByteLogSpec (TxLogH St Tx) := {|
  bl_content := txlog_content;
  bl_left h := ls_room (h_st h);
|}.
Next Obligation.
  intros h bs (b & Hb & m & Hm). cbn. rewrite (ls_nblocks_ok _ _ _ _ _ Hb), Hm. pose proof BLOCK_SIZE_pos.
  by rewrite Nat.div_mul by lia.
Qed.
Next Obligation.
  intros h bs pos n (b & Hb & m & Hm) Hn Hle. cbn in *. rewrite (ls_nblocks_ok _ _ _ _ _ Hb), Hm in Hle.
  pose proof BLOCK_SIZE_pos. rewrite Nat.div_mul in Hle by lia.
  apply (ls_read_ok _ _ _ _ _ _ _ Hb); [done|]. rewrite Hm. by apply Nat.mul_le_mono_r.
Qed.
Next Obligation.
  intros h bs buf n pos h' (b & Hb & Hal) Hbuf Ha. cbn in Ha. apply bind_inv in Ha as ([st' tx'] & Ha & [= <- <-]).
  destruct (ls_append_edits _ _ _ _ _ _ _ _ _ Hb Hbuf Ha) as (He & Hl & _). exists b. cbn. unfold seen.
  rewrite lookup_overlay, He, lookup_insert_eq. split; [done|]. by eapply aligned_app.
Qed.
Next Obligation.
  intros h bs buf n (b & Hb & Hal) Hbuf Hroom. cbn in *.
  destruct (ls_append_ok _ _ _ _ _ _ _ Hb Hbuf Hroom) as (st' & tx' & -> & Hr). bind_step. eauto.
Qed.

(** Appends to a log of a transaction: only this log of the transaction changes. *)
Definition log_frame h h' : Prop :=
  h_id h' = h_id h ∧
  ((∃ b bs, seen (h_st h) (h_tx h) !! h_id h = Some (b, bs)) →
   ls_logs (h_st h') = ls_logs (h_st h) ∧ ls_next (h_st h') = ls_next (h_st h) ∧
   (∀ j, j ≠ h_id h → ls_edits (h_tx h') !! j = ls_edits (h_tx h) !! j) ∧
   ∃ b bs bs', seen (h_st h) (h_tx h) !! h_id h = Some (b, bs) ∧
     seen (h_st h') (h_tx h') !! h_id h = Some (b, bs') ∧
     (is_Some (ls_edits (h_tx h) !! h_id h) → is_Some (ls_edits (h_tx h') !! h_id h))).

Lemma log_frame_refl h : log_frame h h.
Proof. split; [done|]. intros (b & bs & Hb). split_and!; try done. by exists b, bs, bs. Qed.

Lemma log_frame_trans h1 h2 h3 : log_frame h1 h2 → log_frame h2 h3 → log_frame h1 h3.
Proof.
  intros [Hi H1] [Hi' H2]. split; [congruence|]. intros Hs.
  destruct (H1 Hs) as (Hl & Hn & He & b & bs & bs' & Hb & Hb' & Hk). rewrite Hi in *.
  destruct (H2 (ex_intro _ b (ex_intro _ bs' Hb'))) as (Hl' & Hn' & He' & b2 & bs2 & bs3 & Hb2 & Hb3 & Hk').
  rewrite Hb' in Hb2. injection Hb2 as <- <-. split; [congruence|]. split; [congruence|].
  split; [intros j Hj; by rewrite He', He|]. exists b, bs, bs3. split_and!; try done. auto.
Qed.

Lemma log_frame_append h buf pos h' :
  Buf_try_from buf = Ok buf → bl_append h buf = Ok (pos, h') → log_frame h h'.
Proof.
  intros Hbuf Ha. apply try_from_is_buf in Hbuf. cbn in Ha. apply bind_inv in Ha as ([st' tx'] & Ha & [= <- <-]).
  split; [done|]. intros (b & bs & Hb). cbn.
  destruct (ls_append_edits _ _ _ _ _ _ _ _ _ Hb Hbuf Ha) as (He & Hl & Hn).
  split_and!; try done.
  - intros j Hj. by rewrite He, lookup_insert_ne.
  - exists b, bs, (bs ++ buf). split; [exact Hb|]. unfold seen. rewrite lookup_overlay, He, lookup_insert_eq.
    split; [done|]. intros _. by eexists.
Qed.
End store_logs.

(** ** Tables on the store *)
Section ssts.
Context {Bt : Bittle} {BP : BidPod} {HBP : BidPodSpec BP} {V : Type} {RP : RecordPod V} {HR : RecordPodSpec V RP}.
Context {FP : FooterMetaPod} {HFP : FooterMetaPodSpec FP} {LC : LruCache} {HC : LruSpec LC}.
Context {P : Pages} {HP : PagesSpec P}.
Context {St Tx : Type} {HS : TxLogStore St Tx} {HSS : TxLogStoreSpec St Tx}.
Implicit Types (st : St) (tx : Tx) (sst : SSTable) (rs : list (nat * ValueEx V)).
Implicit Types (logs : gmap nat (string * list byte)).

(** Among [logs], the table [sst] is stored in a log of [b] and holds the records [rs]. *)
Definition sst_in logs (b : string) sst rs : Prop :=
  ∃ cs foot, blocks_of rs cs ∧ sst_index sst = index_of cs ∧ num_index (sst_meta sst) = length cs ∧
    cache_ok (sst_cache sst) cs ∧ aligned (concat (map enc_block cs) ++ foot) ∧
    logs !! sst_id sst = Some (b, concat (map enc_block cs) ++ foot).

Lemma sst_in_frame logs logs' b sst rs :
  sst_in logs b sst rs → logs' !! sst_id sst = logs !! sst_id sst → sst_in logs' b sst rs.
Proof. intros (cs & foot & Hcs & Hi & Hn & Hc & Ha & Hl) Heq. exists cs, foot. by rewrite Heq. Qed.

Lemma sst_in_move logs logs' b b' sst rs bs :
  sst_in logs b sst rs → logs !! sst_id sst = Some (b, bs) → logs' !! sst_id sst = Some (b', bs) →
  sst_in logs' b' sst rs.
Proof.
  intros (cs & foot & Hcs & Hi & Hn & Hc & Ha & Hl) Hb Hb'. rewrite Hl in Hb. injection Hb as <-. by exists cs, foot.
Qed.

Lemma seen_untouched st tx id : ls_edits tx !! id = None → seen st tx !! id = ls_logs st !! id.
Proof. intros He. unfold seen. by rewrite lookup_overlay, He. Qed.

(** Such a table can be queried in any transaction that sees the log. *)
Lemma sst_in_table_ok st tx b sst rs :
  sst_in (seen st tx) b sst rs → ∃ cs, concat cs = rs ∧ table_ok (open_in st tx) sst cs.
Proof.
  intros (cs & foot & (Hrs & Hne & Hf) & Hi & Hn & Hc & Ha & Hl). exists cs. split; [done|].
  constructor; try done. pose proof (ls_open_ok (sst_id sst) false st tx) as Ho. unfold seen in Hl. rewrite Hl in Ho.
  destruct Ho as (tx' & Ho & Hs & _). eexists _, foot. unfold open_in. rewrite Ho. bind_step. split; [done|].
  exists b. cbn. unfold seen. by rewrite Hs.
Qed.

(** How many records a table may have for its index to fit the footer. *)
Definition sst_fits (n : nat) : Prop :=
  n * (MAX_RECORD_SIZE + K_SIZE) < (U16 - 1) * (RECORD_BLOCK_SIZE - MAX_RECORD_SIZE).

Lemma sst_fits_le m n : m ≤ n → sst_fits n → sst_fits m.
Proof.
  unfold sst_fits. intros Hle Hn. eapply Nat.le_lt_trans; [|exact Hn]. by apply Nat.mul_le_mono_r.
Qed.

Lemma build_index_small (listener : option (nat → V → res unit)) rs sync_id id (log : TxLogH St Tx) t log' :
  bl_content log [] → build listener rs sync_id id log = Ok (t, log') → sst_fits (length rs) →
  length (sst_index t) < U16.
Proof.
  intros Hl Hb Hfit. pose proof (build_index_bound listener rs sync_id id log t log' Hl Hb) as Hbd.
  unfold sst_fits in Hfit. pose proof U16_gt_1.
  apply Nat.le_lt_trans with (2 := Hfit) in Hbd. clear Hfit.
  set (d := RECORD_BLOCK_SIZE - MAX_RECORD_SIZE) in *. clearbody d.
  destruct (Nat.lt_ge_cases (length (sst_index t)) U16); [done|].
  assert ((U16 - 1) * d ≤ (length (sst_index t) - 1) * d) by (apply Nat.mul_le_mono_r; lia). lia.
Qed.

Lemma blocks_bytes_ne (cs : list (list (nat * ValueEx V))) foot : cs ≠ [] → concat (map enc_block cs) ++ foot ≠ [].
Proof.
  destruct cs as [|ch cs]; [done|]. intros _ Hnil. apply (f_equal length) in Hnil.
  rewrite length_app, (length_concat_same RECORD_BLOCK_SIZE) in Hnil by apply blocks_length.
  cbn [map length] in Hnil. pose proof BLOCK_SIZE_pos. pose proof RECORD_BLOCK_NBLOCKS_pos.
  rewrite RECORD_BLOCK_SIZE_eq in Hnil. nia.
Qed.

(** A table built in a new log of the transaction. *)
Lemma build_sst_inv listener rs sync_id b st tx sst st' tx' :
  sst_fits (length rs) → build_sst listener rs sync_id b st tx = Ok (sst, st', tx') →
  sst_id sst = ls_next st ∧ sst_sync_id sst = sync_id ∧ ls_logs st' = ls_logs st ∧
  ls_next st' = S (ls_next st) ∧ sst_in (seen st' tx') b sst rs ∧
  (∀ j, j ≠ ls_next st → ls_edits tx' !! j = ls_edits tx !! j) ∧
  (∃ bs, ls_edits tx' !! ls_next st = Some (Some (b, bs)) ∧ bs ≠ []).
Proof.
  intros Hfit Hb. unfold build_sst in Hb. destruct (ls_create_ok b st tx) as (st1 & tx1 & Hc & He & Hl & Hn & _).
  rewrite Hc, bind_Ok in Hb. apply bind_inv in Hb as ([sst1 h] & Hb & [= <- <- <-]).
  set (h0 := mkTxLogH St Tx st1 tx1 (ls_next st)) in *.
  assert (Hs0 : seen st1 tx1 !! ls_next st = Some (b, [])) by (unfold seen; by rewrite lookup_overlay, He, lookup_insert_eq).
  assert (Hcont : bl_content h0 []) by (exists b; split; [done|apply Nat.divide_0_r]).
  pose proof (build_index_small _ _ _ _ _ _ _ Hcont Hb Hfit) as Hsm.
  destruct (build_inv listener rs sync_id (ls_next st) h0 sst1 h Hcont Hb) as (cs & foot & c & Hcs & Hsst & Hl' & _ & Hca).
  destruct (build_frame log_frame log_frame_refl log_frame_trans log_frame_append _ _ _ _ _ _ _ Hb) as [Hid Hfr].
  destruct Hfr as (Hlog & Hnx & Hoth & b1 & bs1 & bs2 & Hb1 & Hb2 & Hk); [by exists b, []|]. cbn in Hlog, Hnx, Hoth, Hb1, Hb2, Hk, Hid.
  rewrite Hs0 in Hb1. injection Hb1 as <- <-. destruct Hl' as (b' & Hb' & Hal). rewrite Hid, Hb2 in Hb'. injection Hb' as <- ->.
  assert (length cs < U16) as Hcsm by (by rewrite Hsst in Hsm; cbn [sst_index] in Hsm; rewrite index_of_length in Hsm).
  subst sst1. cbn [sst_id sst_sync_id sst_meta meta_of fm_sync_id]. split_and!; try done.
  - by rewrite Hlog.
  - by rewrite Hnx.
  - exists cs, foot. cbn [sst_index sst_meta sst_cache sst_id meta_of num_index]. split_and!; try done.
    by apply as_u16_small.
  - intros j Hj. rewrite Hoth by done. by rewrite He, lookup_insert_ne.
  - unfold seen in Hb2. rewrite lookup_overlay in Hb2.
    destruct (Hk ltac:(rewrite He, lookup_insert_eq; eauto)) as [o Ho]. rewrite Ho in *. subst o.
    eexists. split; [done|]. destruct Hcs as (_ & Hne & _). by apply blocks_bytes_ne.
Qed.
End ssts.

(** ** The tables of a manager *)
Section manager.
Context {V : Type} {LC : LruCache}.
Implicit Types (m : list (gmap nat SSTable)) (l : LsmLevel) (sst : SSTable).

Definition level_of m l : gmap nat SSTable := default ∅ (m !! level_nat l).

Lemma level_nat_lt l : level_nat l < MAX_NUM_LEVELS.
Proof. unfold MAX_NUM_LEVELS. destruct l; simpl; lia. Qed.
Lemma level_nat_inj l l' : level_nat l = level_nat l' → l = l'.
Proof. by destruct l, l'. Qed.
Lemma level_bucket_inj l l' : level_bucket l = level_bucket l' → l = l'.
Proof. by destruct l, l'. Qed.
Lemma level_bucket_wal l : level_bucket l ≠ BUCKET_WAL.
Proof. by destruct l. Qed.

Lemma index_level m l : length m = MAX_NUM_LEVELS → index m (level_nat l) = Ok (level_of m l).
Proof.
  intros Hm. pose proof (level_nat_lt l). destruct (lookup_lt_is_Some_2 m (level_nat l)) as [x Hx]; [lia|].
  rewrite (index_ok _ _ x) by done. unfold level_of. by rewrite Hx.
Qed.

Lemma level_of_set m l x l' :
  length m = MAX_NUM_LEVELS → level_of (<[level_nat l := x]> m) l' = if decide (l' = l) then x else level_of m l'.
Proof.
  intros Hm. pose proof (level_nat_lt l). unfold level_of. case_decide as E.
  - subst. by rewrite list_lookup_insert_eq by lia.
  - rewrite list_lookup_insert_ne; [done|]. intros Heq. by apply level_nat_inj in Heq as ->.
Qed.

Lemma index_set_level m l x :
  length m = MAX_NUM_LEVELS → index_set m (level_nat l) x = Ok (<[level_nat l := x]> m).
Proof. intros Hm. pose proof (level_nat_lt l). apply index_set_ok. lia. Qed.

Lemma sst_insert_ok m sst l :
  length m = MAX_NUM_LEVELS → sst_insert m sst l = Ok (<[level_nat l := <[sst_id sst := sst]> (level_of m l)]> m).
Proof.
  intros Hm. unfold sst_insert. pose proof (level_nat_lt l). rewrite (proj2 (Nat.ltb_lt _ _)) by lia.
  cbn [assert_]. bind_step. rewrite index_level by done. bind_step. by apply index_set_level.
Qed.

Lemma sst_remove_ok m id l :
  length m = MAX_NUM_LEVELS → sst_remove m id l = Ok (<[level_nat l := base.delete id (level_of m l)]> m).
Proof.
  intros Hm. unfold sst_remove. rewrite index_level by done. bind_step. by apply index_set_level.
Qed.

(** *** All tables, newer to older *)
Definition level_ents m l : list (LsmLevel * (nat * SSTable)) := map (pair l) (rev (bt_iter (level_of m l))).
Definition all_ents m : list (LsmLevel * (nat * SSTable)) := concat (map (level_ents m) levels).

Lemma all_ssts_ok m : length m = MAX_NUM_LEVELS → all_ssts m = Ok (all_ents m).
Proof.
  intros Hm. unfold all_ssts, all_ents.
  enough (H : ∀ ls acc, foldM (λ acc l, ssts ← list_level m l; Ok (acc ++ map (pair l) ssts)) acc ls
                        = Ok (acc ++ concat (map (level_ents m) ls))) by apply (H levels []).
  induction ls as [|l ls IH]; intros acc; cbn [foldM map concat]; [by rewrite app_nil_r|].
  unfold list_level. rewrite index_level by done. bind_step. bind_step. by rewrite IH, <- app_assoc.
Qed.

Lemma elem_of_level_ents m l l' id sst :
  (l', (id, sst)) ∈ level_ents m l ↔ l' = l ∧ level_of m l !! id = Some sst.
Proof.
  unfold level_ents. rewrite list_elem_of_In, in_map_iff. split.
  - intros ([id' sst'] & [= <- <- <-] & Hin). split; [done|].
    by apply in_rev, list_elem_of_In, elem_of_bt_iter in Hin.
  - intros [-> Hs]. exists (id, sst). split; [done|]. apply in_rev. rewrite rev_involutive.
    by apply list_elem_of_In, elem_of_bt_iter.
Qed.

Lemma elem_of_all_ents m l id sst : (l, (id, sst)) ∈ all_ents m ↔ level_of m l !! id = Some sst.
Proof.
  unfold all_ents. rewrite list_elem_of_In, in_concat. split.
  - intros (ents & Hents & Hin). apply in_map_iff in Hents as (l' & <- & _).
    apply list_elem_of_In, elem_of_level_ents in Hin as [-> ?]. done.
  - intros Hs. exists (level_ents m l). split.
    + apply in_map. apply list_elem_of_In. unfold levels. destruct l; set_solver.
    + by apply list_elem_of_In, elem_of_level_ents.
Qed.

Definition ent_newer (x y : LsmLevel * (nat * SSTable)) : Prop :=
  level_nat x.1 < level_nat y.1 ∨ level_nat x.1 = level_nat y.1 ∧ y.2.1 < x.2.1.

Lemma level_ents_sorted m l : StronglySorted ent_newer (level_ents m l).
Proof.
  unfold level_ents. pose proof (bt_iter_sorted (level_of m l)) as Hs. induction (bt_iter (level_of m l)) as [|x L IH]; [constructor|].
  cbn [fmap list_fmap] in Hs. apply StronglySorted_inv in Hs as [Hs Hx].
  cbn [rev]. rewrite map_app. apply StronglySorted_app. split; [|split; [by apply IH|repeat constructor]].
  intros y z Hy Hz. apply list_elem_of_In, in_map_iff in Hy as (y' & <- & Hy), Hz as (z' & <- & [<-|[]]).
  right. cbn. split; [done|]. rewrite Forall_forall in Hx. apply Hx, list_elem_of_fmap_2.
  by apply in_rev, list_elem_of_In in Hy.
Qed.

Lemma all_ents_sorted m : StronglySorted ent_newer (all_ents m).
Proof.
  unfold all_ents. assert (Hl : StronglySorted (λ l l', level_nat l < level_nat l') levels).
  { unfold levels. repeat (constructor; [|repeat (constructor; simpl; try lia)]). constructor. }
  induction Hl as [|l ls Hls IH Hl]; [constructor|]. cbn [map concat]. apply StronglySorted_app.
  split; [|split; [apply level_ents_sorted|done]]. intros [lx [ix sx]] [ly [iy sy]] [-> _]%elem_of_level_ents Hy.
  apply list_elem_of_In, in_concat in Hy as (es & Hes & Hy). apply in_map_iff in Hes as (l' & <- & Hl').
  apply list_elem_of_In, elem_of_level_ents in Hy as [-> _]. left. cbn.
  rewrite Forall_forall in Hl. by apply Hl, list_elem_of_In.
Qed.
End manager.

(** ** Reading the tables *)
Section reading.
Context {Bt : Bittle} {BP : BidPod} {HBP : BidPodSpec BP} {V : Type} {RP : RecordPod V} {HR : RecordPodSpec V RP}.
Context {FP : FooterMetaPod} {HFP : FooterMetaPodSpec FP} {LC : LruCache} {HC : LruSpec LC}.
Context {P : Pages} {HP : PagesSpec P}.
Context {St Tx : Type} {HS : TxLogStore St Tx} {HSS : TxLogStoreSpec St Tx}.
Implicit Types (st : St) (tx : Tx) (sst : SSTable) (rs : list (nat * ValueEx V)).
Implicit Types (logs : gmap nat (string * list byte)) (T : gmap nat (Table V)) (m : list (gmap nat SSTable)).

(** The manager [m] has the tables [T], and they are stored in [logs]. *)
Record ssts_repr m logs T : Prop := {
  sr_len : length m = MAX_NUM_LEVELS;
  sr_sst l id sst : level_of m l !! id = Some sst →
    sst_id sst = id ∧ ∃ rs, T !! id = Some (mkTable (level_nat l) (sst_sync_id sst) rs) ∧
      sst_in logs (level_bucket l) sst rs;
  sr_table id a : T !! id = Some a → ∃ l sst, level_nat l = tb_level a ∧ level_of m l !! id = Some sst;
}.

Lemma find_value_lk rs k : find_value rs k = ValueEx_get <$> lk rs k.
Proof.
  unfold find_value. induction rs as [|[k' v] rs IH]; [done|]. rewrite lk_cons. cbn [List.find fst].
  rewrite (Nat.eqb_sym k k'). by destruct (k' =? k).
Qed.

Fixpoint first_in (rss : list (list (nat * ValueEx V))) (k : nat) : option V :=
  match rss with
  | [] => None
  | rs :: rss => match lk rs k with Some v => Some (ValueEx_get v) | None => first_in rss k end
  end.

Definition readable st tx (e : LsmLevel * (nat * SSTable)) rs : Prop :=
  sorted rs ∧ ∃ b, sst_in (seen st tx) b e.2.2 rs.

Lemma search_ok st tx k ents rss :
  Forall2 (readable st tx) ents rss → search st tx k ents = ok_or (first_in rss k) NotFound.
Proof.
  induction 1 as [|[l [id sst]] rs ents rss [Hs (b & Hin)] _ IH]; [done|]. cbn [search first_in]. cbn in Hin.
  destruct (sst_in_table_ok st tx b sst rs Hin) as (cs & <- & Hok).
  unfold is_within_range. rewrite (sst_range_ok _ _ _ Hok). bind_step.
  destruct ((first_key (concat cs) <=? k) && (k <=? last_key (concat cs))) eqn:E; cbn [negb].
  - apply andb_true_iff in E as [E1%Nat.leb_le E2%Nat.leb_le].
    pose proof (access_point_ok _ sst cs k Hok Hs (conj E1 E2)) as Hp. rewrite find_value_lk in Hp.
    destruct (lk (concat cs) k) as [v|]; cbn in Hp |- *; [destruct Hp as (c & -> & _); done|by rewrite Hp].
  - rewrite lk_None; [done|]. intros (kv & -> & Hkv)%list_elem_of_fmap.
    pose proof (key_bounds _ kv Hs Hkv). apply andb_false_iff in E as [E%Nat.leb_gt|E%Nat.leb_gt]; lia.
Qed.

(** The first table of the list with the key, and the newest one. *)
Lemma first_in_newest (L : list (nat * Table V)) k :
  StronglySorted newer L →
  match first_in (map (tb_recs ∘ snd) L) k with
  | None => ∀ e, e ∈ L → lk (tb_recs e.2) k = None
  | Some x => ∃ e v, e ∈ L ∧ lk (tb_recs e.2) k = Some v ∧ ValueEx_get v = x ∧
      ∀ e', e' ∈ L → is_Some (lk (tb_recs e'.2) k) → e' = e ∨ newer e e'
  end.
Proof.
  induction 1 as [|e L Hs IH He]; cbn [map first_in]; [by intros e ?%elem_of_nil|].
  unfold compose at 1. destruct (lk (tb_recs e.2) k) as [v|] eqn:Ek.
  - exists e, v. split_and!; try done; [left|]. rewrite Forall_forall in He.
    intros e' [->|He']%elem_of_cons _; [by left|right; by apply He].
  - destruct (first_in _ k) as [x|].
    + destruct IH as (e' & v & He' & Hv & Hx & Hall). exists e', v. split_and!; try done; [by right|].
      intros e'' [->|Hin]%elem_of_cons Hk; [rewrite Ek in Hk; by destruct Hk|by apply Hall].
    + intros e' [->|Hin]%elem_of_cons; [done|by apply IH].
Qed.

Definition table_at T id : Table V := default (mkTable 0 0 []) (T !! id).

Lemma table_at_eq T id a : T !! id = Some a → table_at T id = a.
Proof. unfold table_at. by intros ->. Qed.

Lemma ents_tables m logs T :
  ssts_repr m logs T →
  let L := map (λ e, (e.2.1, table_at T e.2.1)) (all_ents m) in
  StronglySorted newer L ∧ ∀ id a, (id, a) ∈ L ↔ T !! id = Some a.
Proof.
  intros Hr L. split.
  - unfold L. pose proof (all_ents_sorted m) as Hs. pose proof (elem_of_all_ents m) as Hel.
    assert (Hall : ∀ e, e ∈ all_ents m → tb_level (table_at T e.2.1) = level_nat e.1).
    { intros [l [id sst]] Hin%Hel. cbn. destruct (sr_sst _ _ _ Hr l id sst Hin) as (_ & rs & Hrs & _).
      unfold table_at. by rewrite Hrs. }
    clear Hel. induction Hs as [|e ents Hs IH He]; constructor.
    + apply IH. intros e' He'. apply Hall. by right.
    + apply Forall_map. rewrite Forall_forall in He |- *. intros e' Hin. specialize (He e' Hin).
      unfold newer. cbn. rewrite !Hall by (by constructor). done.
  - intros id a. unfold L. rewrite list_elem_of_In, in_map_iff. split.
    + intros ([l [id' sst]] & [= <- <-] & Hin). apply list_elem_of_In, elem_of_all_ents in Hin.
      destruct (sr_sst _ _ _ Hr l id' sst Hin) as (_ & rs & Hrs & _). cbn. unfold table_at. by rewrite Hrs.
    + intros Ha. destruct (sr_table _ _ _ Hr id a Ha) as (l & sst & _ & Hl). exists (l, (id, sst)).
      cbn. unfold table_at. rewrite Ha. split; [done|]. by apply list_elem_of_In, elem_of_all_ents.
Qed.

Lemma ents_readable m T st tx :
  ssts_repr m (seen st tx) T → (∀ id a, T !! id = Some a → sorted (tb_recs a)) →
  Forall2 (readable st tx) (all_ents m) (map (tb_recs ∘ snd) (map (λ e, (e.2.1, table_at T e.2.1)) (all_ents m))).
Proof.
  intros Hr Hs. rewrite map_map. apply Forall2_fmap_r, Forall_Forall2_diag, Forall_forall.
  intros [l [id sst]] Hin%elem_of_all_ents. destruct (sr_sst _ _ _ Hr l id sst Hin) as (_ & rs & Hrs & Hst).
  cbn. unfold table_at. rewrite Hrs. cbn. split; [apply (Hs id _ Hrs)|by eexists].
Qed.

(** The records of all tables, newer to older; the first with a key gives its value. *)
Definition all_recs T m : list (list (nat * ValueEx V)) :=
  map (tb_recs ∘ snd) (map (λ e, (e.2.1, table_at T e.2.1)) (all_ents m)).

Lemma first_in_tables m logs T k : ssts_repr m logs T → tables_get T k (first_in (all_recs T m) k).
Proof.
  intros Hr. destruct (ents_tables _ _ _ Hr) as [HL Hel]. pose proof (first_in_newest _ k HL) as Hf.
  unfold all_recs. destruct (first_in _ k) as [x|]; cbn.
  - destruct Hf as ([id a] & v & Hin%Hel & Hv & Hx & Hall). exists id, a, v. split_and!; try done.
    intros id' b Hb Hk. destruct (Hall (id', b)) as [[= -> ->]|Hn]; [by apply Hel|done|by left|by right].
  - intros id a Ha. apply (Hf (id, a)). by apply Hel.
Qed.

Lemma search_tables m T st tx k :
  ssts_repr m (seen st tx) T → (∀ id a, T !! id = Some a → sorted (tb_recs a)) →
  search st tx k (all_ents m) = ok_or (first_in (all_recs T m) k) NotFound.
Proof. intros Hr Hs. by apply search_ok, ents_readable. Qed.

(** *** Range queries *)
(** The open slots of [c] are answered from [f]. *)
Record fills (f : nat → option V) (c c' : RangeQueryCtx V) : Prop := {
  fl_wf : ctx_wf c';
  fl_start : start c' = start c;
  fl_num : num_values c' = num_values c;
  fl_slots j : j < num_values c → slot_done c' j = slot_done c j || bool_decide (f (start c + j) ≠ None);
  fl_results k v : (k, v) ∈ results c' ↔ (k, v) ∈ results c ∨
    start c ≤ k < start c + num_values c ∧ slot_done c (k - start c) = false ∧ f k = Some v;
}.

Definition or_else (f g : nat → option V) (k : nat) : option V := match f k with Some v => Some v | None => g k end.

Lemma fills_none f c :
  ctx_wf c → (∀ j, j < num_values c → slot_done c j = false → f (start c + j) = None) → fills f c c.
Proof.
  intros Hc Hf. split; try done.
  - intros j Hj. destruct (slot_done c j) eqn:E; [done|]. rewrite Hf by done. done.
  - intros k v. split; [by left|]. intros [?|(Hk & Hd & Hv)]; [done|].
    specialize (Hf (k - start c) ltac:(lia) Hd). replace (start c + (k - start c)) with k in Hf by lia. congruence.
Qed.

Lemma fills_trans f g c c1 c2 : fills f c c1 → fills g c1 c2 → fills (or_else f g) c c2.
Proof.
  intros [Hw1 Hs1 Hn1 Hd1 Hr1] [Hw2 Hs2 Hn2 Hd2 Hr2]. rewrite Hs1, Hn1 in *. split; try done.
  - intros j Hj. rewrite Hd2, Hd1 by done. unfold or_else.
    destruct (slot_done c j), (f (start c + j)); cbn; [done..|]. by destruct (g (start c + j)).
  - intros k v. rewrite Hr2, Hr1. unfold or_else.
    assert (start c ≤ k < start c + num_values c → slot_done c1 (k - start c) = slot_done c (k - start c) || bool_decide (f k ≠ None)) as Hk.
    { intros Hk. rewrite Hd1 by lia. by replace (start c + (k - start c)) with k by lia. }
    split.
    + intros [[?|(? & ? & Hv)]|(Hin & Hd & Hv)]; [by left|right; by rewrite Hv|right]. rewrite Hk in Hd by done.
      apply orb_false_iff in Hd as [Hd Hf%bool_decide_eq_false]. apply dec_stable in Hf. by rewrite Hf.
    + intros [?|(Hin & Hd & Hv)]; [by left; left|]. destruct (f k) as [x|] eqn:Ef; [left; right; naive_solver|right].
      rewrite Hk, Hd by done. done.
Qed.

(** When every slot is answered, what follows adds nothing. *)
Lemma fills_done f g c c1 : fills f c c1 → is_completed c1 = true → fills (or_else f g) c c1.
Proof.
  intros Hf Hd. pose proof (proj1 (is_completed_iff _ (fl_wf _ _ _ Hf)) Hd) as Hall.
  apply (fills_trans f g c c1 c1 Hf). apply fills_none; [apply (fl_wf _ _ _ Hf)|].
  intros j Hj Hfalse. rewrite Hall in Hfalse; done.
Qed.

Lemma fills_ext f g c c' : (∀ k, f k = g k) → fills f c c' → fills g c c'.
Proof.
  intros Hfg [Hw Hs Hn Hd Hr]. split; try done; intros; rewrite <- ?Hfg; auto.
Qed.

Lemma search_range_ok {HB : BittleSpec Bt} st tx ents rss : ∀ c,
  Forall2 (readable st tx) ents rss → ctx_wf c → is_completed c = false →
  ∃ c', search_range st tx c ents = Ok (is_completed c', c') ∧ fills (first_in rss) c c'.
Proof.
  intros c Hf. revert c. induction Hf as [|[l [id sst]] rs ents rss [Hs (b & Hin)] _ IH]; intros c Hc Hnc.
  { exists c. rewrite Hnc. split; [done|]. by apply fills_none. }
  cbn in Hin. destruct (sst_in_table_ok st tx b sst rs Hin) as (cs & <- & Hok). cbn [search_range].
  pose proof (range_uncompleted_ok c Hc) as Hr. rewrite Hnc in Hr. destruct Hr as (lo & hi & -> & Hlh & _ & _ & Hopen).
  bind_step. cbn [unwrap]. bind_step. unfold overlap_with. rewrite (sst_range_ok _ _ _ Hok). bind_step. cbn [fst snd].
  assert (Hext : ∀ k, or_else (find_value (concat cs)) (first_in rss) k = first_in (concat cs :: rss) k).
  { intros k. unfold or_else. rewrite find_value_lk. cbn. by destruct (lk (concat cs) k). }
  destruct ((last_key (concat cs) <? start c + lo) || (start c + hi <? first_key (concat cs))) eqn:E; cbn [negb].
  - destruct (IH c Hc Hnc) as (c' & -> & Hfl). exists c'. split; [done|]. apply (fills_ext _ _ _ _ Hext).
    eapply fills_trans; [|exact Hfl]. apply fills_none; [done|]. intros j Hj Hd. specialize (Hopen j Hj Hd).
    rewrite find_value_lk, lk_None; [done|]. intros (kv & Heq & Hkv)%list_elem_of_fmap.
    pose proof (key_bounds _ kv Hs Hkv). apply orb_true_iff in E as [E%Nat.ltb_lt|E%Nat.ltb_lt]; lia.
  - destruct (access_range_ok (open_in st tx) sst cs c Hok Hs Hc Hnc) as (c1 & ca & -> & _ & Hw1 & Hs1 & Hn1 & Hd1 & Hr1).
    bind_step. assert (Hfl : fills (find_value (concat cs)) c c1) by (by split).
    destruct (is_completed c1) eqn:E1.
    + exists c1. rewrite E1. split; [done|]. apply (fills_ext _ _ _ _ Hext). by apply fills_done.
    + destruct (IH c1 Hw1 E1) as (c' & -> & Hfl'). exists c'. split; [done|]. apply (fills_ext _ _ _ _ Hext).
      by eapply fills_trans.
Qed.
End reading.

(** ** What a major compaction reads *)
Section scanning.
Context {Bt : Bittle} {BP : BidPod} {HBP : BidPodSpec BP} {V : Type} {RP : RecordPod V} {HR : RecordPodSpec V RP}.
Context {FP : FooterMetaPod} {HFP : FooterMetaPodSpec FP} {LC : LruCache} {HC : LruSpec LC}.
Context {P : Pages} {HP : PagesSpec P} {EL : EventListener V}.
Context {St Tx : Type} {HS : TxLogStore St Tx} {HSS : TxLogStoreSpec St Tx}.
Implicit Types (st : St) (tx : Tx) (sst : SSTable) (rs : list (nat * ValueEx V)).
Implicit Types (logs : gmap nat (string * list byte)) (T : gmap nat (Table V)) (m : list (gmap nat SSTable)).

Lemma sst_in_ne logs b sst rs : sst_in logs b sst rs → rs ≠ [].
Proof.
  intros (cs & foot & (<- & Hne & Hf) & _). destruct cs as [|[|x ch] cs]; [done| |done].
  apply Forall_cons in Hf as [[Hnil _] _]. done.
Qed.

Lemma sst_in_range st tx b sst rs :
  sst_in (seen st tx) b sst rs → sst_range sst = Ok (first_key rs, last_key rs).
Proof.
  intros Hin. destruct (sst_in_table_ok st tx b sst rs Hin) as (cs & <- & Hok). exact (sst_range_ok _ _ _ Hok).
Qed.

Lemma seen_new st : seen st (ls_new_tx st) = ls_logs st.
Proof. apply map_eq. intros id. apply seen_untouched. by rewrite ls_new_tx_edits, lookup_empty. Qed.

Lemma head_map_fst (f : nat * ValueEx V → nat * ValueEx V) rs :
  (∀ kv, (f kv).1 = kv.1) → fst <$> head (map f rs) = fst <$> head rs.
Proof. intros Hf. destruct rs as [|x rs]; [done|]. cbn. by rewrite Hf. Qed.
Lemma last_map_fst (f : nat * ValueEx V → nat * ValueEx V) rs :
  (∀ kv, (f kv).1 = kv.1) → fst <$> last (map f rs) = fst <$> last rs.
Proof.
  intros Hf. destruct rs as [|x rs] using rev_ind; [done|]. rewrite map_app. cbn [map]. rewrite !last_snoc.
  cbn. f_equal. apply Hf.
Qed.

(** The records of a table as a scan shows them. *)
Definition shown_recs (synced : bool) rs : list (nat * ValueEx V) := map (λ kv, (kv.1, shown_as synced kv.2)) rs.

Lemma shown_recs_keys s rs : (shown_recs s rs).*1 = rs.*1.
Proof. unfold shown_recs. induction rs as [|kv rs IH]; [done|]. cbn. by f_equal. Qed.

Lemma shown_recs_sorted s rs : sorted rs → sorted (shown_recs s rs).
Proof. unfold sorted. by rewrite shown_recs_keys. Qed.

Lemma lk_shown s rs k : lk (shown_recs s rs) k = shown_as s <$> lk rs k.
Proof.
  induction rs as [|[k' v] rs IH]; [done|]. unfold shown_recs in *. cbn [map fst snd]. rewrite !lk_cons, IH. by destruct (k =? k').
Qed.

Lemma fits_length (ch : list (nat * ValueEx V)) : fits ch → length ch ≤ RECORD_BLOCK_SIZE.
Proof.
  intros [_ Hl]. eapply Nat.le_trans; [|exact Hl]. clear Hl. induction ch as [|kv ch IH]; [apply le_0_n|].
  rewrite enc_recs_cons, length_app. cbn [length]. rewrite enc_rec_length. lia.
Qed.

Lemma scan_all_inv st tx ty master b sst rs rs' :
  sst_in (seen st tx) b sst rs → scan_all st tx ty master false sst = Ok rs' →
  rs' = shown_recs (sst_sync_id sst <? master) rs.
Proof.
  intros Hin. destruct (sst_in_table_ok st tx b sst rs Hin) as (cs & <- & Hok). unfold scan_all.
  rewrite (access_scan_all (open_in st tx) sst cs master false true); [|done|by right|].
  - bind_step. intros ([] & _ & [= <-])%bind_inv. rewrite views_full by (by right). cbn [all_synced].
    unfold scan_result, shown_recs, shown_as. destruct (_ <? _); [done|]. clear.
    induction (concat cs) as [|[k v] l IH]; [done|]. cbn. by f_equal.
  - unfold scan_fuel. rewrite (tok_num _ _ _ Hok). pose proof (tok_fits _ _ _ Hok) as Hf. clear -Hf HR.
    apply Nat.lt_succ_r. induction Hf as [|ch cs Hch _ IH]; [done|]. cbn [concat length]. rewrite length_app.
    pose proof (fits_length ch Hch). unfold block_fuel in *. lia.
Qed.

Lemma last_rev {A} (l : list A) : last (rev l) = head l.
Proof. destruct l as [|x l]; [done|]. cbn [rev]. by rewrite last_snoc. Qed.

(** The last of a level is its oldest table. *)
Lemma oldest_table (g : gmap nat SSTable) id sst :
  last (rev (bt_iter g)) = Some (id, sst) → g !! id = Some sst ∧ ∀ j s, g !! j = Some s → id ≤ j.
Proof.
  rewrite last_rev. intros Hh. pose proof (bt_iter_sorted g) as Hs. pose proof (elem_of_bt_iter g) as Hel.
  destruct (bt_iter g) as [|e L]; [done|]. cbn in Hh. injection Hh as ->. split; [apply Hel; by left|].
  intros j s Hj%Hel. apply elem_of_cons in Hj as [[= -> _]|Hj]; [done|].
  cbn [fmap list_fmap] in Hs. apply StronglySorted_inv in Hs as [_ Hall]. rewrite Forall_forall in Hall.
  apply Nat.lt_le_incl. apply (Hall j). apply list_elem_of_fmap. by exists (j, s).
Qed.

Lemma filterM_ok {A} (p : A → res bool) (q : A → bool) l :
  (∀ x, x ∈ l → p x = Ok (q x)) → filterM p l = Ok (List.filter q l).
Proof.
  induction l as [|x l IH]; intros Hp; [done|]. cbn [filterM List.filter]. rewrite Hp by left. bind_step.
  rewrite IH by (intros y Hy; apply Hp; by right). by bind_step.
Qed.

(** Sorting keeps the tables and puts them in the order of their first keys. *)
Lemma sort_by_start_inv (L : list (nat * SSTable)) (start : nat → nat) out :
  (∀ id sst, (id, sst) ∈ L → ∃ e, sst_range sst = Ok (start id, e)) → sort_by_start L = Ok out →
  out ≡ₚ L ∧ StronglySorted (λ x y, start x.1 ≤ start y.1) out.
Proof.
  intros Hst. unfold sort_by_start.
  assert (Hk : ∀ acc, foldM (λ acc e, '(s, _) ← sst_range e.2; Ok (acc ++ [(s, e)])) acc L
                      = Ok (acc ++ map (λ e, (start e.1, e)) L)).
  { induction L as [|[id sst] L IH]; intros acc; cbn [foldM map]; [by rewrite app_nil_r|].
    destruct (Hst id sst) as [e He]; [by left|]. cbn [snd fst]. rewrite He. bind_step. bind_step.
    rewrite IH by (intros i s Hi; apply Hst; by right). by rewrite <- app_assoc. }
  rewrite Hk. bind_step. intros [= <-]. cbn [app]. set (K := map _ L).
  pose proof (merge_sort_Permutation start_le K) as Hp.
  assert (Hs : StronglySorted start_le (merge_sort start_le K)).
  { apply StronglySorted_merge_sort; [intros x y z; unfold start_le; lia|intros x y; unfold start_le; lia]. }
  split.
  - rewrite Hp. unfold K. rewrite map_map. cbn. by rewrite map_id.
  - assert (HK : ∀ e, e ∈ merge_sort start_le K → e.1 = start e.2.1).
    { intros e He. rewrite Hp in He. apply list_elem_of_In, in_map_iff in He as (x & <- & _). done. }
    clear Hp. induction Hs as [|x l Hs IH Hx]; constructor.
    + apply IH. intros e He. apply HK. by right.
    + apply Forall_map. rewrite Forall_forall in Hx |- *. intros y Hy. specialize (Hx y Hy). unfold start_le in Hx.
      rewrite <- !HK; [done|by right|by left].
Qed.
End scanning.

(** ** What a compaction writes *)
Section writing.
Context {Bt : Bittle} {BP : BidPod} {HBP : BidPodSpec BP} {V : Type} {RP : RecordPod V} {HR : RecordPodSpec V RP}.
Context {FP : FooterMetaPod} {HFP : FooterMetaPodSpec FP} {LC : LruCache} {HC : LruSpec LC}.
Context {P : Pages} {HP : PagesSpec P} {EL : EventListener V}.
Context {St Tx : Type} {HS : TxLogStore St Tx} {HSS : TxLogStoreSpec St Tx}.
Implicit Types (st : St) (tx : Tx) (sst : SSTable) (rs : list (nat * ValueEx V)).
Implicit Types (logs : gmap nat (string * list byte)) (T : gmap nat (Table V)) (m : list (gmap nat SSTable)).

(** The table [sst] was written by the transaction, in the log [id]. *)
Record sst_made st tx (b : string) (sid id : nat) sst rs : Prop := {
  sm_id : sst_id sst = id;
  sm_sid : sst_sync_id sst = sid;
  sm_in : sst_in (seen st tx) b sst rs;
  sm_edit : ∃ bs, ls_edits tx !! id = Some (Some (b, bs)) ∧ bs ≠ [];
}.

Lemma sst_made_frame st tx st' tx' b sid id sst rs :
  sst_made st tx b sid id sst rs → ls_logs st' = ls_logs st → ls_edits tx' !! id = ls_edits tx !! id →
  sst_made st' tx' b sid id sst rs.
Proof.
  intros [Hi Hs Hin He] Hl Heq. split; try done; [|by rewrite Heq]. eapply sst_in_frame; [done|].
  unfold seen. by rewrite !lookup_overlay, Hi, Heq, Hl.
Qed.

Lemma build_ssts_inv sid b (chunks : list (list (nat * ValueEx V))) : ∀ acc st tx out st' tx',
  Forall (λ rs, sst_fits (length rs)) chunks →
  foldM (λ '(ssts, st, tx) rs, '(sst, st, tx) ← build_sst None rs sid b st tx; Ok (ssts ++ [sst], st, tx))
    (acc, st, tx) chunks = Ok (out, st', tx') →
  ∃ ssts, out = acc ++ ssts ∧ length ssts = length chunks ∧
    ls_logs st' = ls_logs st ∧ ls_next st' = ls_next st + length chunks ∧
    (∀ i rs sst, chunks !! i = Some rs → ssts !! i = Some sst → sst_made st' tx' b sid (ls_next st + i) sst rs) ∧
    (∀ j, j < ls_next st ∨ ls_next st' ≤ j → ls_edits tx' !! j = ls_edits tx !! j).
Proof.
  induction chunks as [|rs chunks IH]; intros acc st tx out st' tx' Hf H; cbn [foldM] in H.
  { injection H as <- <- <-. exists []. rewrite app_nil_r. cbn. split_and!; try done; lia. }
  apply Forall_cons in Hf as [Hfit Hf].
  destruct (build_sst None rs sid b st tx) as [[[sst st1] tx1]| |] eqn:E; try done. rewrite bind_Ok in H.
  destruct (build_sst_inv _ _ _ _ _ _ _ _ _ Hfit E) as (Hid & Hsid & Hl & Hn & Hin & Hoth & bs & Hbs & Hne).
  destruct (IH _ _ _ _ _ _ Hf H) as (ssts & -> & Hlen & Hl' & Hn' & Hmade & Hoth').
  exists (sst :: ssts). rewrite <- app_assoc. split_and!; [done|cbn; lia|congruence|cbn; lia|..].
  - intros [|i] rs' sst' Hi Hi'; cbn in Hi, Hi'.
    + injection Hi as <-. injection Hi' as <-. apply (sst_made_frame st1 tx1); [|done|apply Hoth'; lia].
      rewrite Nat.add_0_r. split; eauto.
    + replace (ls_next st + S i) with (ls_next st1 + i) by lia. by apply Hmade.
  - intros j Hj. rewrite Hoth' by lia. apply Hoth. lia.
Qed.

Lemma delete_logs_ok st ids : ∀ tx,
  NoDup ids → (∀ id, id ∈ ids → is_Some (ls_logs st !! id) ∧ ls_edits tx !! id = None) →
  ∃ tx', delete_logs st tx ids = Ok tx' ∧
    ∀ j, ls_edits tx' !! j = if decide (j ∈ ids) then Some None else ls_edits tx !! j.
Proof.
  unfold delete_logs. induction ids as [|id ids IH]; intros tx Hnd Hall; cbn [foldM].
  { exists tx. split; [done|]. intros j. by rewrite decide_False by apply not_elem_of_nil. }
  apply NoDup_cons in Hnd as [Hni Hnd]. destruct (Hall id) as [[d Hd] He]; [left|].
  destruct (ls_delete_ok id st tx d Hd He) as (tx1 & -> & He1).
  destruct (IH tx1 Hnd) as (tx' & -> & He').
  { intros j Hj. destruct (Hall j) as [Hd' Hj']; [by right|]. split; [done|].
    rewrite He1, lookup_insert_ne; [done|]. by intros ->. }
  exists tx'. split; [done|]. intros j. rewrite He', He1. destruct (decide (j = id)) as [->|Hne].
  - rewrite decide_False by done. rewrite decide_True by left. by rewrite lookup_insert_eq.
  - rewrite lookup_insert_ne by done. destruct (decide (j ∈ ids)); [rewrite decide_True by (by right)|rewrite decide_False]; try done.
    by intros [?|?]%elem_of_cons.
Qed.

Lemma insert_all_ok (to : LsmLevel) (created : list SSTable) : ∀ m,
  length m = MAX_NUM_LEVELS → NoDup (map sst_id created) →
  ∃ m', foldM (λ m '(sst, l), sst_insert m sst l) m (map (λ sst, (sst, to)) created) = Ok m' ∧
    length m' = MAX_NUM_LEVELS ∧
    ∀ l id sst, level_of m' l !! id = Some sst ↔
      (l = to ∧ sst ∈ created ∧ sst_id sst = id) ∨
      (level_of m l !! id = Some sst ∧ ¬ (l = to ∧ id ∈ map sst_id created)).
Proof.
  induction created as [|s created IH]; intros m Hm Hnd; cbn [map foldM] in *.
  { exists m. split; [done|]. split; [done|]. intros l id sst. setoid_rewrite elem_of_nil. tauto. }
  apply NoDup_cons in Hnd as [Hni Hnd]. rewrite sst_insert_ok by done.
  destruct (IH (<[level_nat to := <[sst_id s := s]> (level_of m to)]> m)) as (m' & -> & Hm' & Hlk); [by rewrite length_insert|done|].
  exists m'. split; [done|]. split; [done|]. intros l id sst. rewrite Hlk, level_of_set by done.
  setoid_rewrite elem_of_cons. case_decide as El.
  - subst l. rewrite lookup_insert_Some. split.
    + intros [(_ & ? & <-)|[[[<- <-]|[? ?]] Hn]]; [left; auto|left; auto|]. right. split; [done|]. intros [_ [?|?]]; [by subst|by apply Hn].
    + intros [(_ & [->|?] & <-)|[? Hn]].
      * right. split; [by left|]. by intros [_ ?].
      * left. auto.
      * right. split; [|intros [? ?]; apply Hn; auto]. right. split; [|done]. intros <-. apply Hn. auto.
  - split; [intros [(? & _)|[? _]]; [done|right; split; [done|by intros [? _]]]|].
    intros [(? & _)|[? _]]; [done|]. right. split; [done|]. by intros [? _].
Qed.

Lemma remove_all_ok (deleted : list (nat * LsmLevel)) : ∀ m,
  length m = MAX_NUM_LEVELS →
  ∃ m', foldM (λ m '(id, l), sst_remove m id l) m deleted = Ok m' ∧ length m' = MAX_NUM_LEVELS ∧
    ∀ l id sst, level_of m' l !! id = Some sst ↔ level_of m l !! id = Some sst ∧ (id, l) ∉ deleted.
Proof.
  induction deleted as [|[i l0] deleted IH]; intros m Hm; cbn [foldM].
  { exists m. split; [done|]. split; [done|]. intros l id sst. rewrite elem_of_nil. tauto. }
  rewrite sst_remove_ok by done.
  destruct (IH (<[level_nat l0 := base.delete i (level_of m l0)]> m)) as (m' & -> & Hm' & Hlk); [by rewrite length_insert|].
  exists m'. split; [done|]. split; [done|]. intros l id sst. rewrite Hlk, level_of_set, elem_of_cons by done.
  case_decide as El; [subst l; rewrite lookup_delete_Some|]; naive_solver.
Qed.
End writing.

(** ** Compactions *)
Section compactions.
Context {Bt : Bittle} {BP : BidPod} {HBP : BidPodSpec BP} {V : Type} {RP : RecordPod V} {HR : RecordPodSpec V RP}.
Context {FP : FooterMetaPod} {HFP : FooterMetaPodSpec FP} {LC : LruCache} {HC : LruSpec LC}.
Context {P : Pages} {HP : PagesSpec P} {EL : EventListener V}.
Context {St Tx : Type} {HS : TxLogStore St Tx} {HSS : TxLogStoreSpec St Tx}.
Context (sst_cap : nat) (Hcap : 0 < sst_cap) (Hcapfit : sst_fits (V := V) sst_cap).
Implicit Types (st : St) (tx : Tx) (sst : SSTable) (rs : list (nat * ValueEx V)).
Implicit Types (logs : gmap nat (string * list byte)) (T : gmap nat (Table V)) (m : list (gmap nat SSTable)).

(** One change of the tables that keeps every value. *)
Record tables_step (master : nat) st T m' st' T' : Prop := {
  ts_repr : ssts_repr m' (ls_logs st') T';
  ts_wf : tables_wf master T';
  ts_get k o : tables_get T k o → tables_get T' k o;
  ts_above f : above master f T → above master f T';
  ts_next : ls_next st ≤ ls_next st';
  ts_frame id : id < ls_next st → T !! id = None → ls_logs st' !! id = ls_logs st !! id ∧ T' !! id = None;
}.

Lemma tables_step_trans master st T m1 st1 T1 m2 st2 T2 :
  tables_step master st T m1 st1 T1 → tables_step master st1 T1 m2 st2 T2 → tables_step master st T m2 st2 T2.
Proof.
  intros [? ? ? ? ? Hf] [? ? ? ? ? Hf']. split; try done; auto; [lia|].
  intros id Hlt Hn. destruct (Hf id Hlt Hn) as [<- Hn']. apply Hf'; [lia|done].
Qed.

Lemma repr_log m logs T id a :
  ssts_repr m logs T → T !! id = Some a →
  ∃ l sst rs bs, level_nat l = tb_level a ∧ level_of m l !! id = Some sst ∧ sst_id sst = id ∧
    a = mkTable (level_nat l) (sst_sync_id sst) rs ∧ sst_in logs (level_bucket l) sst rs ∧
    logs !! id = Some (level_bucket l, bs) ∧ bs ≠ [].
Proof.
  intros Hr Ha. destruct (sr_table _ _ _ Hr id a Ha) as (l & sst & Hl & Hs).
  destruct (sr_sst _ _ _ Hr l id sst Hs) as (Hid & rs & Hrs & Hin). rewrite Ha in Hrs. injection Hrs as ->.
  pose proof Hin as (cs & foot & (_ & Hne & _) & _ & _ & _ & _ & Hlog). rewrite Hid in Hlog.
  exists l, sst, rs. eexists. split_and!; try done.
  by apply blocks_bytes_ne.
Qed.

Lemma repr_old m st T id : ssts_repr m (ls_logs st) T → is_Some (T !! id) → id < ls_next st.
Proof.
  intros Hr [a Ha]. destruct (repr_log _ _ _ _ _ Hr Ha) as (l & sst & rs & bs & _ & _ & _ & _ & _ & Hlog & _).
  apply ls_fresh. by rewrite Hlog.
Qed.

Lemma aborted_inv {A} (r : res A) x : aborted r = Ok x → r = Ok x.
Proof. by destruct r. Qed.

Lemma upper_level_inv to from : upper_level to = Ok from → level_nat to = S (level_nat from).
Proof. destruct to; cbn; intros [= <-]; done. Qed.

(** *** Moving a table *)
Lemma move_sst_ok m id from to sst :
  length m = MAX_NUM_LEVELS → level_of m from !! id = Some sst → from ≠ to →
  ∃ m', move_sst m id from to = Ok m' ∧ length m' = MAX_NUM_LEVELS ∧
    ∀ l j, level_of m' l !! j = if decide (j = id) then if decide (l = to) then Some sst
                                 else if decide (l = from) then None else level_of m l !! j
                                else level_of m l !! j.
Proof.
  intros Hm Hs Hne. unfold move_sst. rewrite index_level by done. bind_step. rewrite Hs. cbn [unwrap]. bind_step.
  rewrite index_set_level by done. bind_step. rewrite index_level by (by rewrite length_insert). bind_step.
  rewrite level_of_set by done. rewrite decide_False by done.
  rewrite index_set_level by (by rewrite length_insert). eexists. split; [done|].
  split; [by rewrite !length_insert|]. intros l j. rewrite !level_of_set by (by rewrite ?length_insert).
  repeat case_decide; subst; try done; by simplify_map_eq.
Qed.

Lemma compaction_move st m T master U usst from to tx m' st' :
  ssts_repr m (ls_logs st) T → tables_wf master T → level_nat to = S (level_nat from) →
  level_of m from !! U = Some usst → (∀ j s, level_of m from !! j = Some s → U ≤ j) →
  (∀ id b u, T !! U = Some u → T !! id = Some b → tb_level b = S (tb_level u) → apart b u) →
  ls_move_log U (level_bucket from) (level_bucket to) st (ls_new_tx st) = Ok tx →
  move_sst m U from to = Ok m' → ls_commit st tx = Ok st' →
  ∃ T', tables_step master st T m' st' T'.
Proof.
  intros Hr Hwf Hlv HU Hmin Hno Hmv Hmove Hc.
  destruct (sr_sst _ _ _ Hr from U usst HU) as (Hid & ru & Hu & Hin). set (u := mkTable _ _ ru) in Hu.
  destruct (repr_log _ _ _ U u Hr Hu) as (l & s & rs & bs & Hl & Hs & _ & _ & _ & Hlog & Hbs).
  apply level_nat_inj in Hl as ->. assert (from ≠ to) as Hne by (intros ->; lia).
  destruct (ls_move_ok U (level_bucket from) (level_bucket to) st (ls_new_tx st) bs Hlog) as (tx1 & Htx & He);
    [by rewrite ls_new_tx_edits, lookup_empty|]. rewrite Hmv in Htx. injection Htx as <-. rewrite ls_new_tx_edits in He.
  assert (HUn : U < ls_next st) by (apply ls_fresh; by rewrite Hlog).
  destruct (ls_commit_ok st tx) as (st1 & Hst & Hl' & Hn' & _).
  { intros id b. rewrite He. intros [[<- Heq]|[_ ?]]%lookup_insert_Some; [congruence|by rewrite lookup_empty in *]. }
  { intros id [d Hd]. rewrite He in Hd. apply lookup_insert_Some in Hd as [[<- _]|[_ Hd]]; [done|by rewrite lookup_empty in Hd]. }
  rewrite Hc in Hst. injection Hst as <-.
  destruct (move_sst_ok m U from to usst (sr_len _ _ _ Hr) HU Hne) as (m1 & Hm1 & Hlen & Hlk).
  rewrite Hmove in Hm1. injection Hm1 as <-.
  assert (Hlogs : ∀ j, ls_logs st' !! j = if decide (j = U) then Some (level_bucket to, bs) else ls_logs st !! j).
  { intros j. rewrite Hl', lookup_overlay, He. case_decide as E; [subst; by rewrite lookup_insert_eq|].
    by rewrite lookup_insert_ne, lookup_empty. }
  assert (HminT : ∀ id b, T !! id = Some b → tb_level b = tb_level u → U ≤ id).
  { intros id b Hb Hlb. destruct (repr_log _ _ _ _ _ Hr Hb) as (lb & sb & _ & _ & Hlb' & Hsb & _).
    cbn in Hlb. rewrite Hlb in Hlb'. apply level_nat_inj in Hlb' as ->. by eapply Hmin. }
  exists (<[U := mkTable (S (tb_level u)) (tb_sid u) (tb_recs u)]> T). split.
  - split; [done|..].
    + intros lj id s'. rewrite Hlk. destruct (decide (id = U)) as [->|Hj].
      * destruct (decide (lj = to)) as [->|Hlj].
        -- intros [= <-]. split; [done|]. exists ru. rewrite lookup_insert_eq, Hlv. split; [done|].
           eapply sst_in_move; [exact Hin|by rewrite Hid|]. by rewrite Hid, Hlogs, decide_True.
        -- destruct (decide (lj = from)) as [->|Hlj']; [done|]. intros Hs'.
           destruct (sr_sst _ _ _ Hr lj U s' Hs') as (_ & rs' & Hrs' & _). rewrite Hu in Hrs'. injection Hrs' as Hlj'' _.
           by apply level_nat_inj in Hlj''.
      * intros Hs'. destruct (sr_sst _ _ _ Hr lj id s' Hs') as (Hid' & rs' & Hrs' & Hin'). split; [done|].
        exists rs'. rewrite lookup_insert_ne by done. split; [done|]. eapply sst_in_frame; [done|].
        by rewrite Hlogs, Hid', decide_False.
    + intros id a. rewrite lookup_insert_Some. intros [[<- <-]|[Hj Ha]].
      * exists to, usst. rewrite Hlk, !decide_True by done. done.
      * destruct (sr_table _ _ _ Hr id a Ha) as (la & sa & ? & Hsa). exists la, sa. by rewrite Hlk, decide_False.
  - apply (move_wf master T U u Hwf Hu HminT). intros id b Hb Hlb. by eapply Hno.
  - intros k o. apply (move_get master T U u Hwf Hu HminT). intros id b Hb Hlb. by eapply Hno.
  - intros f. by apply (move_above master T U u).
  - lia.
  - intros id Hlt Hn. assert (id ≠ U) by congruence. by rewrite Hlogs, decide_False, lookup_insert_ne.
Qed.
(** *** Merging a table into the next level *)
Definition shown_table (master : nat) (a : Table V) : list (nat * ValueEx V) :=
  shown_recs (tb_sid a <? master) (tb_recs a).

Lemma lk_shown_table master a k : lk (shown_table master a) k = tb_get master a k.
Proof. apply lk_shown. Qed.

Lemma find_overlapped_inv st tx m T master U u to ov :
  ssts_repr m (seen st tx) T → tables_wf master T → T !! U = Some u →
  find_overlapped_ssts m (first_key (tb_recs u), last_key (tb_recs u)) to = Ok ov →
  NoDup ov.*1 ∧ ∀ id s, (id, s) ∈ ov ↔ level_of m to !! id = Some s ∧ ¬ apart (table_at T id) u.
Proof.
  intros Hr Hwf Hu. unfold find_overlapped_ssts, list_level. rewrite index_level by apply (sr_len _ _ _ Hr). bind_step.
  bind_step. set (L := rev (bt_iter (level_of m to))).
  assert (HL : ∀ e, e ∈ L ↔ level_of m to !! e.1 = Some e.2).
  { intros [id s]. unfold L. rewrite list_elem_of_In, <- in_rev, <- list_elem_of_In. apply elem_of_bt_iter. }
  rewrite (filterM_ok _ (λ e, bool_decide (¬ apart (table_at T e.1) u)) L).
  - intros [= <-]. split.
    + apply NoDup_filter_keys. unfold L. rewrite <- (Permutation_rev (bt_iter _)). apply NoDup_bt_iter.
    + intros id s. rewrite list_elem_of_In, filter_In, <- list_elem_of_In, HL, bool_decide_eq_true. done.
  - intros [id s] Hin%HL. cbn in Hin. destruct (sr_sst _ _ _ Hr to id s Hin) as (_ & rs & Hrs & Hst).
    cbn [fst snd]. rewrite (table_at_eq _ _ _ Hrs). unfold overlap_with.
    rewrite (sst_in_range st tx _ _ _ Hst). bind_step. cbn [fst snd]. f_equal.
    unfold apart. cbn [tb_recs]. apply eq_iff_eq_true. rewrite negb_true_iff, orb_false_iff, bool_decide_eq_true, !Nat.ltb_ge. lia.
Qed.

(** The lower tables in the order of their keys, one after the other. *)
Lemma lower_run m logs T master to (lowers : list (nat * SSTable)) :
  ssts_repr m logs T → tables_wf master T → 0 < level_nat to →
  (∀ id s, (id, s) ∈ lowers → level_of m to !! id = Some s) → NoDup lowers.*1 →
  StronglySorted (λ x y, first_key (tb_recs (table_at T x.1)) ≤ first_key (tb_recs (table_at T y.1))) lowers →
  let lr := concat (map (λ e, shown_table master (table_at T e.1)) lowers) in
  sorted lr ∧
  ∀ k w, lk lr k = Some w ↔ ∃ id, id ∈ lowers.*1 ∧ tb_get master (table_at T id) k = Some w.
Proof.
  intros Hr Hwf Hpos Hin Hnd Hst lr.
  assert (Hat : ∀ e, e ∈ lowers → T !! e.1 = Some (table_at T e.1) ∧ tb_level (table_at T e.1) = level_nat to).
  { intros [id s] He%Hin. destruct (sr_sst _ _ _ Hr to id s He) as (_ & rs & Hrs & _). cbn. unfold table_at. by rewrite Hrs. }
  set (L := map (λ e, table_at T e.1) lowers).
  assert (Hall : Forall (λ a, sorted (tb_recs a) ∧ tb_recs a ≠ []) L).
  { apply Forall_map, Forall_forall. intros e He. destruct (Hat e He) as [Ha _].
    destruct (tw_table _ _ Hwf _ _ Ha) as (? & ? & _). done. }
  assert (Hpairs : ForallOrdPairs apart L).
  { unfold L. clear Hst lr L Hall Hin. induction lowers as [|e ls IH]; cbn; constructor.
    - apply Forall_map, Forall_forall. intros e' He'. cbn [fmap list_fmap] in Hnd. apply NoDup_cons in Hnd as [Hni _].
      destruct (Hat e ltac:(left)) as [Ha Hla], (Hat e' ltac:(by right)) as [Hb Hlb].
      apply (tw_apart _ _ Hwf e.1 e'.1); try done; [|lia..]. intros Heq. apply Hni. rewrite Heq. by apply list_elem_of_fmap_2.
    - cbn [fmap list_fmap] in Hnd. apply NoDup_cons in Hnd as [_ Hnd]. apply IH; [done|]. intros e' He'. apply Hat. by right. }
  assert (Hst' : StronglySorted (λ a b, first_key (tb_recs a) ≤ first_key (tb_recs b)) L).
  { unfold L. clear -Hst. induction Hst as [|e ls Hs IH He]; cbn; constructor; [done|]. by apply Forall_map. }
  pose proof (starts_follow L Hall Hpairs Hst') as Hfol.
  assert (Hsl : sorted lr).
  { unfold lr. rewrite <- (map_map (λ e, table_at T e.1) (shown_table master)). fold L. apply concat_sorted.
    - apply Forall_map. eapply Forall_impl; [exact Hall|]. cbn. intros a [Hs Hne]. split; [by apply shown_recs_sorted|].
      unfold shown_table, shown_recs. by destruct (tb_recs a).
    - clear -Hfol. induction Hfol as [|a L Hs IH Ha]; cbn; constructor; [done|]. apply Forall_map.
      eapply Forall_impl; [exact Ha|]. cbn. intros b Hb. unfold shown_table, shown_recs, last_key, first_key in *.
      by rewrite last_map_fst, head_map_fst. }
  split; [done|]. intros k w. unfold lr. rewrite lk_concat by exact Hsl. split.
  - intros (rs & Hrs & Hk). apply list_elem_of_In, in_map_iff in Hrs as (e & <- & He%list_elem_of_In).
    exists e.1. split; [by apply list_elem_of_fmap_2|]. by rewrite <- lk_shown_table.
  - intros (id & (e & -> & He)%list_elem_of_fmap & Hk). eexists. split; [|by rewrite lk_shown_table].
    apply list_elem_of_In, in_map_iff. exists e. split; [done|]. by apply list_elem_of_In.
Qed.

(** The scans of the lower tables, one after the other. *)
Lemma scan_lowers_inv st tx ty m T master to (lowers : list (nat * SSTable)) : ∀ acc lr,
  ssts_repr m (seen st tx) T → (∀ id s, (id, s) ∈ lowers → level_of m to !! id = Some s) →
  foldM (λ acc e, rs ← scan_all st tx ty master false e.2; Ok (acc ++ rs)) acc lowers = Ok lr →
  lr = acc ++ concat (map (λ e, shown_table master (table_at T e.1)) lowers).
Proof.
  induction lowers as [|[id s] ls IH]; intros acc lr Hr Hin H; cbn [foldM map concat] in *.
  { injection H as <-. by rewrite app_nil_r. }
  cbn [snd] in H. destruct (scan_all st tx ty master false s) as [rs| |] eqn:E; try done. rewrite bind_Ok in H.
  destruct (sr_sst _ _ _ Hr to id s (Hin id s ltac:(left))) as (_ & rs0 & Hrs0 & Hst).
  apply (scan_all_inv _ _ _ _ _ _ _ _ Hst) in E as ->.
  rewrite (IH _ _ Hr (λ i s' Hi, Hin i s' ltac:(by right)) H), <- app_assoc. do 2 f_equal.
  cbn [fst]. unfold table_at. by rewrite Hrs0.
Qed.
(** The tables after a merge: [chunks] in new logs from [N] on, the merged ones gone. *)
Definition created_tables (N lv master : nat) (chunks : list (list (nat * ValueEx V))) : gmap nat (Table V) :=
  map_seq N (mkTable lv master <$> chunks).
Definition merged_tables T (U : nat) (dl : list nat) (C : gmap nat (Table V)) : gmap nat (Table V) :=
  C ∪ filter (λ e, e.1 ≠ U ∧ e.1 ∉ dl) T.

Lemma lookup_created N lv master chunks id c :
  created_tables N lv master chunks !! id = Some c ↔
  ∃ i rs, id = N + i ∧ chunks !! i = Some rs ∧ c = mkTable lv master rs.
Proof.
  unfold created_tables. rewrite lookup_map_seq_Some, list_lookup_fmap, fmap_Some. split.
  - intros (Hle & rs & Hrs & ->). exists (id - N), rs. split_and!; [lia|done..].
  - intros (i & rs & -> & Hrs & ->). split; [lia|]. exists rs. by replace (N + i - N) with i by lia.
Qed.

Lemma lookup_merged T U dl C id :
  merged_tables T U dl C !! id =
    match C !! id with
    | Some c => Some c
    | None => if decide (id ≠ U ∧ id ∉ dl) then T !! id else None
    end.
Proof.
  unfold merged_tables. rewrite lookup_union. destruct (C !! id) as [c|] eqn:E.
  - by destruct (filter _ T !! id).
  - rewrite map_lookup_filter. destruct (T !! id) as [a|] eqn:Ea; [|by case_decide].
    simpl. by case_guard.
Qed.

Lemma merge_step T master U u dl lr chunks ds N :
  let C := created_tables N (S (tb_level u)) master chunks in
  tables_wf master T → T !! U = Some u → (∀ id b, T !! id = Some b → tb_level b = tb_level u → U ≤ id) →
  (∀ id, id ∈ dl ↔ ∃ b, T !! id = Some b ∧ tb_level b = S (tb_level u) ∧ ¬ apart b u) →
  sorted lr → (∀ k w, lk lr k = Some w ↔ ∃ id, id ∈ dl ∧ tb_get master (table_at T id) k = Some w) →
  compact_records_and_build_ssts sst_cap (shown_table master u) lr = Ok (chunks, ds) →
  (∀ id, is_Some (T !! id) → id < N) →
  Forall (λ rs, sst_fits (V := V) (length rs)) chunks ∧
  tables_wf master (merged_tables T U dl C) ∧
  (∀ k o, tables_get T k o → tables_get (merged_tables T U dl C) k o) ∧
  (∀ f, above master f T → above master f (merged_tables T U dl C)).
Proof.
  intros C Hwf HU Hmin Hdl Hlr Hlow Hcomp HN.
  assert (Hlow' : ∀ k w, lk lr k = Some w ↔ ∃ id b, id ∈ dl ∧ T !! id = Some b ∧ tb_get master b k = Some w).
  { intros k w. rewrite Hlow. split.
    - intros (id & Hid & Hw). pose proof (proj1 (Hdl id) Hid) as (b & Hb & _). exists id, b.
      by rewrite (table_at_eq _ _ _ Hb) in Hw.
    - intros (id & b & Hid & Hb & Hw). exists id. by rewrite (table_at_eq _ _ _ Hb). }
  destruct (tw_table _ _ Hwf U u HU) as (Hsu & _).
  assert (Hsup : sorted (shown_table master u)) by (by apply shown_recs_sorted).
  assert (Hcompat : streams_compat (shown_table master u) lr).
  { intros k a b Ha%(lk_sorted _ _ _ Hsup) Hb%(lk_sorted _ _ _ Hlr). rewrite lk_shown_table in Ha.
    by apply (streams_ok master T U u (λ id, id ∈ dl) (lk lr) Hwf HU Hdl Hlow' k). }
  destruct (compact_records_spec sst_cap (S (length (shown_table master u) + length lr)) (shown_table master u) lr Hcap Hcompat)
    as (chunks' & ds' & Hok & Hm & Hch); [lia|].
  unfold compact_records_and_build_ssts in Hcomp. rewrite Hok in Hcomp. injection Hcomp as -> ->.
  pose proof (Merge_sorted _ _ _ _ Hm Hsup Hlr) as Hsorted.
  assert (Hlk : ∀ k v, (∃ id c, C !! id = Some c ∧ lk (tb_recs c) k = Some v) ↔
                       compacted (tb_get master u k) (lk lr k) = Some v).
  { intros k v. rewrite <- lk_shown_table, <- (Merge_lookup _ _ _ _ Hm Hsup Hlr k), lk_concat by done. split.
    - intros (id & c & (i & rs & -> & Hrs & ->)%lookup_created & Hk). exists rs. split; [by eapply list_elem_of_lookup_2|done].
    - intros (rs & (i & Hi)%list_elem_of_lookup & Hk). exists (N + i), (mkTable (S (tb_level u)) master rs).
      split; [|done]. apply lookup_created. eauto. }
  assert (HCs : ∀ id c, C !! id = Some c →
            tb_level c = S (tb_level u) ∧ tb_sid c = master ∧ sorted (tb_recs c) ∧ tb_recs c ≠ []).
  { intros id c (i & rs & -> & Hrs & ->)%lookup_created. cbn. apply list_elem_of_lookup_2 in Hrs.
    pose proof (chunked_lengths _ _ _ Hch Hcap Hrs). split_and!; try done; [by eapply run_sorted|]. by intros ->; cbn in *; lia. }
  assert (HCa : ∀ id id' c c', C !! id = Some c → C !! id' = Some c' → id ≠ id' → apart c c').
  { intros id id' c c' Hc Hc' Hne. destruct (HCs _ _ Hc) as (_ & _ & _ & Hn1), (HCs _ _ Hc') as (_ & _ & _ & Hn2).
    apply lookup_created in Hc as (i & rs & -> & Hi & ->), Hc' as (j & rs' & -> & Hj & ->). unfold apart. cbn in *.
    destruct (Nat.lt_total i j) as [Hlt|[->|Hlt]]; [left|done|right]; by eapply runs_apart. }
  assert (HCn : ∀ id, is_Some (C !! id) → N ≤ id).
  { intros id [c (i & rs & -> & _)%lookup_created]. lia. }
  assert (Hnew : ∀ id c, C !! id = Some c → merged_tables T U dl C !! id = Some c)
    by (intros id c Hc; by rewrite lookup_merged, Hc).
  assert (Hold : ∀ id b, C !! id = None →
            merged_tables T U dl C !! id = Some b ↔ T !! id = Some b ∧ id ≠ U ∧ id ∉ dl).
  { intros id b Hc. rewrite lookup_merged, Hc. case_decide; naive_solver. }
  split.
  { apply Forall_forall. intros rs Hrs. pose proof (chunked_lengths _ _ _ Hch Hcap Hrs). by apply (sst_fits_le _ sst_cap); [lia|]. }
  split; [|split].
  - by apply (replace_wf master T _ C U u (λ id, id ∈ dl) (lk lr)).
  - intros k o. by apply (replace_get master N T _ C U u (λ id, id ∈ dl) (lk lr)).
  - intros f. by apply (replace_above master T _ C U u (λ id, id ∈ dl) (lk lr)).
Qed.
(** The transaction that writes the merge and deletes what was merged. *)
Section merge_tx.
Context (st st1 st' : St) (tx1 tx2 : Tx) (m m' : list (gmap nat SSTable)) (T : gmap nat (Table V)).
Context (master U : nat) (usst : SSTable) (u : Table V) (from to : LsmLevel) (lowers : list (nat * SSTable)).
Context (chunks : list (list (nat * ValueEx V))) (created : list SSTable).
Context (Hr : ssts_repr m (ls_logs st) T) (HU : level_of m from !! U = Some usst) (Hu : T !! U = Some u).
Context (Hlow : ∀ id s, (id, s) ∈ lowers → level_of m to !! id = Some s).
Context (Hnd : NoDup lowers.*1) (HnU : U ∉ lowers.*1).
Context (Hlen : length created = length chunks).
Context (Hl1 : ls_logs st1 = ls_logs st) (Hn1 : ls_next st1 = ls_next st + length chunks).
Context (Hmade : ∀ i rs sst, chunks !! i = Some rs → created !! i = Some sst →
           sst_made st1 tx1 (level_bucket to) master (ls_next st + i) sst rs).
Context (Hoth : ∀ j, j < ls_next st ∨ ls_next st1 ≤ j → ls_edits tx1 !! j = None).
Context (Hdel : delete_logs st1 tx1 (U :: lowers.*1) = Ok tx2) (Hcom : ls_commit st1 tx2 = Ok st').
Context (Hup : update_sst_manager m (map (λ sst, (sst, to)) created) ((U, from) :: map (λ e, (e.1, to)) lowers) = Ok m').

Let dl := U :: lowers.*1.
Let C := created_tables (ls_next st) (level_nat to) master chunks.

Lemma gone_tables id : id ∈ dl → is_Some (T !! id).
Proof.
  intros [->|(e & -> & He)%list_elem_of_fmap]%elem_of_cons; [by rewrite Hu|]. destruct e as [i s].
  destruct (sr_sst _ _ _ Hr to i s (Hlow i s He)) as (_ & rs & Hrs & _). by eexists.
Qed.

Lemma table_old id : is_Some (T !! id) → id < ls_next st.
Proof. apply (repr_old m st T id Hr). Qed.

Lemma created_at i sst :
  created !! i = Some sst → ∃ rs, chunks !! i = Some rs ∧ sst_made st1 tx1 (level_bucket to) master (ls_next st + i) sst rs.
Proof.
  intros Hi. destruct (lookup_lt_is_Some_2 chunks i) as [rs Hrs]; [rewrite <- Hlen; by eapply lookup_lt_Some|].
  exists rs. auto.
Qed.

Lemma chunk_at i rs : chunks !! i = Some rs → ∃ sst, created !! i = Some sst.
Proof. intros Hi. apply lookup_lt_is_Some_2. rewrite Hlen. by eapply lookup_lt_Some. Qed.

Lemma edits_made id d :
  ls_edits tx1 !! id = Some d → id < ls_next st1 ∧ ∃ bs, d = Some (level_bucket to, bs) ∧ bs ≠ [].
Proof.
  intros Hd. destruct (decide (ls_next st ≤ id < ls_next st1)) as [Hin|]; [|by rewrite Hoth in Hd by lia].
  destruct (lookup_lt_is_Some_2 chunks (id - ls_next st)) as [rs Hrs]; [lia|].
  destruct (chunk_at _ _ Hrs) as [s Hs]. destruct (Hmade _ _ _ Hrs Hs) as [_ _ _ (bs & Hbs & Hne)].
  replace (ls_next st + (id - ls_next st)) with id in Hbs by lia. rewrite Hd in Hbs. injection Hbs as ->. split; [lia|eauto].
Qed.

(** The logs after the commit. *)
Lemma merge_logs : ls_next st' = ls_next st1 ∧ ∀ j, j ∉ dl → ls_logs st' !! j = seen st1 tx1 !! j.
Proof.
  destruct (delete_logs_ok st1 dl tx1) as (tx & Htx & He).
  { apply NoDup_cons. split; done. }
  { intros id Hid. pose proof (gone_tables id Hid) as [a Ha].
    destruct (repr_log _ _ _ _ _ Hr Ha) as (l & s & rs & bs & _ & _ & _ & _ & _ & Hlog & _).
    split; [rewrite Hl1, Hlog; by eexists|]. apply Hoth. left. apply table_old. by eexists. }
  unfold dl in Htx. rewrite Hdel in Htx. injection Htx as <-.
  destruct (ls_commit_ok st1 tx2) as (st2 & Hst2 & Hl2 & Hn2 & _).
  { intros id b. rewrite He. case_decide; [done|]. intros Hid. destruct (edits_made id _ Hid) as (_ & bs & [= _ <-] & Hne). done. }
  { intros id [d Hd]. rewrite He in Hd. case_decide as Hin; [apply gone_tables, table_old in Hin; lia|].
    by destruct (edits_made id _ Hd) as [? _]. }
  rewrite Hcom in Hst2. injection Hst2 as <-. split; [done|]. intros j Hj.
  rewrite Hl2, lookup_overlay, He, decide_False by done. unfold seen. by rewrite lookup_overlay.
Qed.

Lemma merge_logs_old j : j < ls_next st → j ∉ dl → ls_logs st' !! j = ls_logs st !! j.
Proof.
  intros Hlt Hj. rewrite (proj2 merge_logs j Hj). rewrite seen_untouched by (apply Hoth; lia). by rewrite Hl1.
Qed.

(** The manager after the update. *)
Lemma merge_manager :
  length m' = MAX_NUM_LEVELS ∧
  ∀ l id s, level_of m' l !! id = Some s ↔
    (l = to ∧ s ∈ created ∧ sst_id s = id ∧ ls_next st ≤ id) ∨
    (level_of m l !! id = Some s ∧ id < ls_next st ∧ id ∉ dl).
Proof.
  assert (HndC : NoDup (map sst_id created)).
  { apply NoDup_alt. intros i j x Hi Hj. rewrite list_lookup_fmap, fmap_Some in Hi, Hj.
    destruct Hi as (s & Hi & ->), Hj as (s' & Hj & Heq).
    destruct (created_at i s Hi) as (rs & _ & [Hid _ _ _]), (created_at j s' Hj) as (rs' & _ & [Hid' _ _ _]). lia. }
  assert (Hnew : ∀ s, s ∈ created → ls_next st ≤ sst_id s).
  { intros s [i Hi]%list_elem_of_lookup. destruct (created_at i s Hi) as (rs & _ & [Hid _ _ _]). lia. }
  unfold update_sst_manager, SstManager in Hup.
  destruct (insert_all_ok to created m (sr_len _ _ _ Hr) HndC) as (m1 & Hm1 & Hlen1 & Hlk1).
  rewrite Hm1, bind_Ok in Hup.
  destruct (remove_all_ok ((U, from) :: map (λ e, (e.1, to)) lowers) m1 Hlen1) as (m2 & Hm2 & Hlen2 & Hlk2).
  rewrite Hm2 in Hup. injection Hup as <-. split; [done|]. intros l id s. rewrite Hlk2, Hlk1.
  (* a pair that is deleted is a table that is gone *)
  assert (Hpair : (id, l) ∈ (U, from) :: map (λ e, (e.1, to)) lowers → id ∈ dl).
  { intros [[= -> _]|Hin]%elem_of_cons; [left|right]. apply list_elem_of_In, in_map_iff in Hin as (e & [= <- _] & Hin).
    by apply list_elem_of_fmap_2, list_elem_of_In. }
  split.
  - intros [[(-> & Hs & Hid)|[Hs Hno]] Hd]; [left; specialize (Hnew s Hs); split_and!; try done; lia|right].
    destruct (sr_sst _ _ _ Hr l id s Hs) as (_ & rs & Hrs & _). split; [done|]. split; [apply table_old; by eexists|].
    intros [->|(e & -> & He)%list_elem_of_fmap]%elem_of_cons; apply Hd.
    + destruct (sr_sst _ _ _ Hr from U usst HU) as (_ & ru & Hru & _). rewrite Hrs in Hru.
      injection Hru as Hl _. apply level_nat_inj in Hl as ->. left.
    + destruct e as [i s']. destruct (sr_sst _ _ _ Hr to i s' (Hlow i s' He)) as (_ & ru & Hru & _).
      cbn in Hrs. rewrite Hrs in Hru. injection Hru as Hl _. apply level_nat_inj in Hl as ->. right.
      apply list_elem_of_In, in_map_iff. exists (i, s'). split; [done|]. by apply list_elem_of_In.
  - intros [(-> & Hs & Hid & Hge)|(Hs & Hlt & Hd)].
    + split; [by left|]. intros Hin%Hpair%gone_tables%table_old. lia.
    + split; [right; split; [done|]|by intros ?%Hpair]. intros [_ Hin].
      apply list_elem_of_In, in_map_iff in Hin as (s' & Hid & Hin%list_elem_of_In). specialize (Hnew s' Hin). lia.
Qed.

Lemma created_old j : j < ls_next st → C !! j = None.
Proof. intros Hj. destruct (C !! j) eqn:E; [|done]. apply lookup_created in E as (i & rs & -> & _). lia. Qed.

Lemma merged_old id a :
  id < ls_next st → merged_tables T U lowers.*1 C !! id = Some a ↔ T !! id = Some a ∧ id ∉ dl.
Proof.
  intros Hlt. rewrite lookup_merged, created_old by done. unfold dl. rewrite elem_of_cons.
  case_decide as Hd; naive_solver.
Qed.

Lemma merge_repr :
  ssts_repr m' (ls_logs st') (merged_tables T U lowers.*1 C) ∧ ls_next st ≤ ls_next st' ∧
  (∀ id, id < ls_next st → T !! id = None →
     ls_logs st' !! id = ls_logs st !! id ∧ merged_tables T U lowers.*1 C !! id = None).
Proof.
  destruct merge_logs as [Hn2 Hlogs], merge_manager as [Hlen' Hlk].
  split; [|split; [lia|]].
  2:{ intros id Hlt Hn. assert (id ∉ dl) by (intros Hin%gone_tables; rewrite Hn in Hin; by destruct Hin).
      split; [by apply merge_logs_old|]. destruct (merged_tables _ _ _ _ !! id) eqn:E; [|done].
      apply merged_old in E as [? _]; [congruence|done]. }
  split; [done|..].
  - intros l id s [(-> & Hs & Hid & Hge)|(Hs & Hlt & Hd)]%Hlk.
    + split; [done|]. apply list_elem_of_lookup in Hs as [i Hi].
      destruct (created_at i s Hi) as (rs & Hrs & [Hid' Hsid Hin _]). exists rs. rewrite lookup_merged.
      assert (HCi : C !! id = Some (mkTable (level_nat to) master rs)) by (apply lookup_created; exists i, rs; by rewrite <- Hid, Hid').
      rewrite HCi, Hsid. split; [done|]. eapply sst_in_frame; [exact Hin|]. apply Hlogs.
      intros Hd%gone_tables%table_old. lia.
    + destruct (sr_sst _ _ _ Hr l id s Hs) as (Hid & rs & Hrs & Hin). split; [done|]. exists rs.
      split; [by apply merged_old|]. eapply sst_in_frame; [done|]. rewrite Hid. by apply merge_logs_old.
  - intros id a Ha. destruct (decide (id < ls_next st)) as [Hlt|Hge].
    + apply merged_old in Ha as [Ha Hd]; [|done]. destruct (sr_table _ _ _ Hr id a Ha) as (l & s & Hl & Hs).
      exists l, s. split; [done|]. apply Hlk. by right.
    + rewrite lookup_merged in Ha. destruct (C !! id) as [c|] eqn:EC.
      * injection Ha as ->. apply lookup_created in EC as (i & rs & -> & Hrs & ->). destruct (chunk_at i rs Hrs) as [s Hs].
        destruct (Hmade _ _ _ Hrs Hs) as [Hid' _ _ _]. exists to, s. split; [done|]. apply Hlk. left.
        split_and!; try done; [by eapply list_elem_of_lookup_2|lia].
      * case_decide; [|done]. assert (id < ls_next st) by (apply table_old; by eexists). lia.
Qed.
End merge_tx.

(** *** One transaction of a major compaction *)
Lemma lower_tables_inv st tx m T master U u to ov lowers :
  ssts_repr m (seen st tx) T → tables_wf master T → T !! U = Some u → level_nat to = S (tb_level u) →
  find_overlapped_ssts m (first_key (tb_recs u), last_key (tb_recs u)) to = Ok ov → sort_by_start ov = Ok lowers →
  NoDup lowers.*1 ∧ (∀ id s, (id, s) ∈ lowers → level_of m to !! id = Some s) ∧
  (∀ id, id ∈ lowers.*1 ↔ ∃ b, T !! id = Some b ∧ tb_level b = S (tb_level u) ∧ ¬ apart b u) ∧
  StronglySorted (λ x y, first_key (tb_recs (table_at T x.1)) ≤ first_key (tb_recs (table_at T y.1))) lowers.
Proof.
  intros Hr Hwf Hu Hlv Hov Hsort. destruct (find_overlapped_inv st tx m T master U u to ov Hr Hwf Hu Hov) as [Hnd Hov'].
  destruct (sort_by_start_inv ov (λ id, first_key (tb_recs (table_at T id))) lowers) as [Hperm Hsorted]; [|done|].
  { intros id s [Hs _]%Hov'. destruct (sr_sst _ _ _ Hr to id s Hs) as (_ & rs & Hrs & Hin').
    rewrite (table_at_eq _ _ _ Hrs). eexists. by apply (sst_in_range _ _ _ _ _ Hin'). }
  assert (Hlow : ∀ id s, (id, s) ∈ lowers ↔ level_of m to !! id = Some s ∧ ¬ apart (table_at T id) u)
    by (intros id s; by rewrite Hperm).
  split; [by rewrite Hperm|]. split; [by intros id s [? _]%Hlow|]. split; [|done].
  intros id. rewrite list_elem_of_fmap. split.
  - intros ([i s] & -> & [Hs Ha]%Hlow). cbn. destruct (sr_sst _ _ _ Hr to i s Hs) as (_ & rs & Hrs & _).
    rewrite (table_at_eq _ _ _ Hrs) in Ha. eexists. split_and!; [exact Hrs|done|done].
  - intros (b & Hb & Hlb & Ha). destruct (sr_table _ _ _ Hr id b Hb) as (l & s & Hl & Hs).
    assert (l = to) as -> by (apply level_nat_inj; lia). exists (id, s). split; [done|]. apply Hlow.
    by rewrite (table_at_eq _ _ _ Hb).
Qed.

Lemma compaction_merge st m T master U usst ru from to (lowers : list (nat * SSTable)) ty ur lr chunks ds created st1 tx1 tx2 st' m' :
  let u := mkTable (level_nat from) (sst_sync_id usst) ru in
  ssts_repr m (ls_logs st) T → tables_wf master T → level_nat to = S (level_nat from) →
  level_of m from !! U = Some usst → T !! U = Some u → sst_in (seen st (ls_new_tx st)) (level_bucket from) usst ru →
  (∀ id b, T !! id = Some b → tb_level b = tb_level u → U ≤ id) →
  NoDup lowers.*1 → (∀ id s, (id, s) ∈ lowers → level_of m to !! id = Some s) →
  (∀ id, id ∈ lowers.*1 ↔ ∃ b, T !! id = Some b ∧ tb_level b = S (tb_level u) ∧ ¬ apart b u) →
  StronglySorted (λ x y, first_key (tb_recs (table_at T x.1)) ≤ first_key (tb_recs (table_at T y.1))) lowers →
  scan_all st (ls_new_tx st) ty master false usst = Ok ur →
  foldM (λ acc e, rs ← scan_all st (ls_new_tx st) ty master false e.2; Ok (acc ++ rs)) [] lowers = Ok lr →
  compact_records_and_build_ssts sst_cap ur lr = Ok (chunks, ds) →
  build_ssts master (level_bucket to) st (ls_new_tx st) chunks = Ok (created, st1, tx1) →
  delete_logs st1 tx1 (U :: map fst lowers) = Ok tx2 → ls_commit st1 tx2 = Ok st' →
  update_sst_manager m (map (λ sst, (sst, to)) created) ((U, from) :: map (λ e, (e.1, to)) lowers) = Ok m' →
  ∃ T', tables_step master st T m' st' T'.
Proof.
  intros u Hr Hwf Hlv HU Hu Hin Hmin Hnd Hlow Hdl Hsorted Hur Hlr Hcomp Hbuild Hdel Hcom Hup.
  apply (scan_all_inv _ _ _ _ _ _ _ _ Hin) in Hur. change ur with ([] ++ ur) in Hcomp. subst ur. cbn [app] in Hcomp.
  change (shown_recs _ ru) with (shown_table master u) in Hcomp.
  pose proof Hr as Hr'. rewrite <- (seen_new st) in Hr'. apply (scan_lowers_inv _ _ _ _ _ _ _ _ _ _ Hr' Hlow) in Hlr.
  cbn [app] in Hlr. destruct (lower_run m _ T master to lowers Hr' Hwf ltac:(lia) Hlow Hnd Hsorted) as [Hsl Hlkl].
  rewrite <- Hlr in Hsl, Hlkl.
  destruct (merge_step T master U u lowers.*1 lr chunks ds (ls_next st) Hwf Hu Hmin Hdl Hsl Hlkl Hcomp) as (Hfits & Hwf' & Hget & Habove).
  { intros id. apply (repr_old m st T id Hr). }
  destruct (build_ssts_inv master (level_bucket to) chunks [] st (ls_new_tx st) created st1 tx1 Hfits Hbuild)
    as (cr & Hcr & Hlen & Hl1 & Hn1 & Hmade & Hoth). cbn [app] in Hcr. subst cr.
  assert (HnU : U ∉ lowers.*1).
  { rewrite Hdl. intros (b & Hb & Hlb & _). rewrite Hu in Hb. injection Hb as <-. cbn in Hlb. lia. }
  destruct (merge_repr st st1 st' tx1 tx2 m m' T master U usst u from to lowers chunks created) as (Hrepr & Hn & Hfr); try done.
  { intros j Hj. rewrite Hoth by done. by rewrite ls_new_tx_edits, lookup_empty. }
  change (S (tb_level u)) with (S (level_nat from)) in Hwf', Hget, Habove. rewrite <- Hlv in Hwf', Hget, Habove.
  eexists. split; [exact Hrepr|done..].
Qed.

Lemma major_compaction_step (t t' : Tree) to T :
  ssts_repr (sst_manager t) (ls_logs (tx_log_store t)) T → tables_wf (master_sync_id t) T →
  major_compaction_tx sst_cap t to = Ok t' →
  ∃ m' st' T', t' = set_ssts t m' st' ∧ tables_step (master_sync_id t) (tx_log_store t) T m' st' T'.
Proof.
  intros Hr0 Hwf H. unfold major_compaction_tx in H.
  apply bind_inv in H as (from & Hfrom%upper_level_inv & H). cbv zeta in H. apply bind_inv in H as ([] & _ & H).
  apply bind_inv in H as ([[[[created deleted] m1] st1] tx1] & Hb%aborted_inv & H).
  apply bind_inv in H as ([] & _ & H). apply bind_inv in H as (st' & Hcom & H). apply bind_inv in H as (m' & Hup & [= <-]).
  unfold major_compaction_body in Hb. cbv zeta in Hb.
  pose proof Hr0 as Hr. rewrite <- (seen_new (tx_log_store t)) in Hr.
  apply bind_inv in Hb as (ssts & Hss & Hb). unfold list_level in Hss. rewrite index_level in Hss by apply (sr_len _ _ _ Hr).
  rewrite bind_Ok in Hss. injection Hss as <-. apply bind_inv in Hb as ([U usst] & Hlast & Hb).
  destruct (last (rev (bt_iter (level_of (sst_manager t) from)))) as [e|] eqn:El; [|done]. injection Hlast as ->.
  apply oldest_table in El as [HU Hmin]. destruct (sr_sst _ _ _ Hr from U usst HU) as (Hid & ru & Hu & Hin).
  apply bind_inv in Hb as (range & Hrange & Hb). rewrite (sst_in_range _ _ _ _ _ Hin) in Hrange. injection Hrange as <-.
  apply bind_inv in Hb as (ov & Hov & Hb). apply bind_inv in Hb as (lowers & Hsort & Hb).
  destruct (lower_tables_inv _ _ _ T (master_sync_id t) U _ to ov lowers Hr Hwf Hu Hfrom Hov Hsort) as (Hnd & Hlow & Hdl & Hsorted).
  assert (HminT : ∀ id b, T !! id = Some b → tb_level b = level_nat from → U ≤ id).
  { intros id b Hbt Hlb. destruct (sr_table _ _ _ Hr id b Hbt) as (l & s & Hl & Hs). rewrite Hlb in Hl.
    apply level_nat_inj in Hl as ->. by eapply Hmin. }
  destruct lowers as [|e0 lowers'] eqn:Elow.
  - apply bind_inv in Hb as (tx & Hmv & Hb). apply bind_inv in Hb as (m2 & Hmove & [= <- <- <- <- <-]).
    unfold update_sst_manager in Hup. cbn in Hup. injection Hup as <-.
    destruct (compaction_move _ _ T (master_sync_id t) U usst from to tx m2 st' Hr0 Hwf Hfrom HU Hmin) as [T' HT']; try done.
    { intros id b u' Hu' Hbt Hlb. rewrite Hu in Hu'. injection Hu' as <-. match goal with |- ?A => destruct (decide A) as [|Ha] end; [done|].
      exfalso. apply (not_elem_of_nil id). apply Hdl. by exists b. }
    by exists m2, st', T'.
  - rewrite <- Elow in *. clear e0 lowers' Elow. apply bind_inv in Hb as (ur & Hur & Hb). apply bind_inv in Hb as (lr & Hlr & Hb).
    apply bind_inv in Hb as ([chunks ds] & Hcomp & Hb). apply bind_inv in Hb as ([] & _ & Hb).
    apply bind_inv in Hb as ([[cr st2] tx2] & Hbuild & Hb). apply bind_inv in Hb as (tx3 & Hdel & [= <- <- <- <- <-]).
    destruct (compaction_merge (tx_log_store t) (sst_manager t) T (master_sync_id t) U usst ru from to lowers
                (TxCompaction to) ur lr chunks ds cr st2 tx2 tx3 st' m') as [T' HT']; try done.
    by exists m', st', T'.
Qed.
End compactions.
