(* ===== verification/LsmRefine.v ===== *)
(** * LsmRefine: the LSM tree is a map

    The invariant of a formatted tree under puts, syncs and compactions at any time
    ([lsm_inv]): the value of a key is that of the mutable memtable, else of the immutable
    one, else of the tables; what is synced is never above what is not; the write-ahead log
    and the tables are kept apart.  A query answers with the last value put. *)
From S2P Require Import Prelude BitMap Bio RangeQuery MemTable Compaction SSTable SSTableSpec LogStore Wal WalSpec LsmTree LsmRuns LsmTables LsmSpec.

Section refine.
Context {Bt : Bittle} {HB : BittleSpec Bt} {BP : BidPod} {HBP : BidPodSpec BP} {V : Type} {RP : RecordPod V} {HR : RecordPodSpec V RP}.
Context {FP : FooterMetaPod} {HFP : FooterMetaPodSpec FP} {LC : LruCache} {HC : LruSpec LC}.
Context {P : Pages} {HP : PagesSpec P} {EL : EventListener V}.
Context {St Tx : Type} {HS : TxLogStore St Tx} {HSS : TxLogStoreSpec St Tx}.
Context (uninit sst_cap mem_cap : nat).
Context (Hcap : 0 < sst_cap) (Hcapfit : sst_fits (V := V) sst_cap) (Hmem : 0 < mem_cap) (Hmemfit : sst_fits (V := V) mem_cap).
Context (HV : 1 + K_SIZE + V_SIZE ≤ WAL_MAX_RECORD_SIZE).
Implicit Types (st : St) (tx : Tx) (T : gmap nat (Table V)) (t : Tree (V := V) (St := St) (Tx := Tx)).

(** ** Major compactions down the levels *)
Lemma do_major_step n : ∀ t t' to T,
  ssts_repr (sst_manager t) (ls_logs (tx_log_store t)) T → tables_wf (master_sync_id t) T →
  do_major_compaction sst_cap n t to = Ok t' →
  ∃ m' st' T', t' = set_ssts t m' st' ∧ tables_step (master_sync_id t) (tx_log_store t) T m' st' T'.
Proof.
  induction n as [|n IH]; intros t t' to T Hr Hwf H; [done|]. cbn [do_major_compaction] in H.
  apply bind_inv in H as (t1 & H1 & H). apply bind_inv in H as (req & _ & H).
  destruct (major_compaction_step sst_cap Hcap Hcapfit t t1 to T Hr Hwf H1) as (m1 & st1 & T1 & -> & Hs1).
  destruct req; [|injection H as <-; by exists m1, st1, T1].
  apply bind_inv in H as (l & _ & H).
  destruct (IH (set_ssts t m1 st1) t' l T1 (ts_repr _ _ _ _ _ _ Hs1) (ts_wf _ _ _ _ _ _ Hs1) H) as (m2 & st2 & T2 & -> & Hs2).
  exists m2, st2, T2. split; [done|]. by eapply tables_step_trans.
Qed.

(** ** A minor compaction *)
Lemma lk_bt_iter (g : gmap nat (ValueEx V)) k : lk (bt_iter g) k = g !! k.
Proof.
  unfold lk. rewrite (list_to_map_proper (bt_iter g) (map_to_list g)).
  - by rewrite list_to_map_to_list.
  - apply NoDup_bt_iter.
  - apply bt_iter_perm.
Qed.

Lemma weight_pos (v : ValueEx V) : 1 ≤ weight v.
Proof. destruct v; cbn; lia. Qed.

Lemma length_bt_iter (g : gmap nat (ValueEx V)) : length (bt_iter g) ≤ MemTable.total g.
Proof.
  rewrite bt_iter_perm, length_map_to_list. induction g as [|k v g Hk IH] using map_ind; [by rewrite map_size_empty|].
  rewrite map_size_insert_None, total_insert by done. pose proof (weight_pos v). lia.
Qed.

Lemma minor_step t t' wid T (d : string * list byte) :
  ssts_repr (sst_manager t) (ls_logs (tx_log_store t)) T → tables_wf (master_sync_id t) T →
  let imm := immutable (memtable_manager t) in
  sync_id imm = master_sync_id t → sst_fits (V := V) (length (bt_iter (table imm))) →
  above (master_sync_id t) (λ k, table imm !! k) T →
  ls_logs (tx_log_store t) !! wid = Some d → T !! wid = None →
  do_minor_compaction t wid = Ok t' →
  let N := ls_next (tx_log_store t) in
  ∃ m' st', t' = set_ssts t m' st' ∧
    ssts_repr m' (ls_logs st') (<[N := mkTable 0 (master_sync_id t) (bt_iter (table imm))]> T) ∧
    bt_iter (table imm) ≠ [] ∧ ls_next st' = S N ∧
    ∀ id, id < N → T !! id = None → id ≠ wid → ls_logs st' !! id = ls_logs (tx_log_store t) !! id.
Proof.
  intros Hr Hwf imm Hsid Hfit Hab Hwid HTw H N. unfold do_minor_compaction in H. cbv zeta in H. fold imm in H.
  apply bind_inv in H as ([] & _ & H). apply bind_inv in H as ([[sst st2] tx2] & Hb%aborted_inv & H).
  apply bind_inv in H as ([] & _ & H). apply bind_inv in H as (st' & Hcom & H). apply bind_inv in H as (m' & Hins & [= <-]).
  apply bind_inv in Hb as ([[sst1 st1] tx1] & Hbuild & Hb). apply bind_inv in Hb as (tx & Hdel & [= <- <- <-]).
  destruct (build_sst_inv _ _ _ _ _ _ _ _ _ Hfit Hbuild) as (Hid & Hs & Hl1 & Hn1 & Hin & Hoth & bs & Hbs & Hne).
  fold N in Hid, Hn1, Hoth, Hbs. assert (Hw : wid < N) by (apply ls_fresh; by rewrite Hwid).
  assert (Hoth' : ∀ j, j ≠ N → ls_edits tx1 !! j = None) by (intros j Hj; by rewrite Hoth, ls_new_tx_edits, lookup_empty).
  destruct (ls_delete_ok wid st1 tx1 d) as (tx' & Htx & He); [by rewrite Hl1|apply Hoth'; lia|].
  rewrite Hdel in Htx. injection Htx as <-.
  destruct (ls_commit_ok st1 tx) as (st2 & Hst2 & Hl2 & Hn2 & _).
  { intros j b. rewrite He, lookup_insert_Some. intros [[_ ?]|[_ Hj]]; [done|].
    destruct (decide (j = N)) as [->|Hj']; [congruence|by rewrite Hoth' in Hj]. }
  { intros j [x Hj]. rewrite He in Hj. apply lookup_insert_Some in Hj as [[<- _]|[_ Hj]]; [lia|].
    destruct (decide (j = N)) as [->|Hj']; [lia|by rewrite Hoth' in Hj]. }
  rewrite Hcom in Hst2. injection Hst2 as <-.
  assert (Hlogs : ∀ j, j ≠ wid → ls_logs st' !! j = seen st1 tx1 !! j).
  { intros j Hj. rewrite Hl2. unfold seen. by rewrite !lookup_overlay, He, lookup_insert_ne. }
  assert (Hlogs0 : ∀ j, j ≠ N → j ≠ wid → ls_logs st' !! j = ls_logs (tx_log_store t) !! j).
  { intros j Hj Hj'. rewrite Hlogs by done. by rewrite seen_untouched, Hl1 by (by apply Hoth'). }
  rewrite (sst_insert_ok _ _ _ (sr_len _ _ _ Hr)) in Hins. injection Hins as <-.
  eexists _, st'. split; [done|].
  split; [|split; [by eapply sst_in_ne|split; [lia|]]].
  2:{ intros j Hj HTj Hjw. apply Hlogs0; [lia|done]. }
  pose proof (sr_len _ _ _ Hr) as Hlen. rewrite Hid in *. split; [by rewrite length_insert|..].
  - intros l id s. rewrite (level_of_set _ L0) by done.
    assert (Hold : level_of (sst_manager t) l !! id = Some s → id ≠ N → sst_id s = id ∧
      ∃ rs, <[N := mkTable 0 (master_sync_id t) (bt_iter (table imm))]> T !! id = Some (mkTable (level_nat l) (sst_sync_id s) rs) ∧
            sst_in (ls_logs st') (level_bucket l) s rs).
    { intros Hs' HidN. destruct (sr_sst _ _ _ Hr l id s Hs') as (Hi & rs & Hrs & Hsin). split; [done|]. exists rs.
      rewrite lookup_insert_ne by done. split; [done|]. eapply sst_in_frame; [done|]. rewrite Hi. apply Hlogs0; [done|]. congruence. }
    case_decide as El; [subst l|intros Hs'; apply Hold; [done|]].
    + rewrite lookup_insert_Some. intros [[<- <-]|[? Hs']]; [|by apply Hold]. split; [done|]. exists (bt_iter (table imm)).
      rewrite lookup_insert_eq, Hs, Hsid. split; [done|]. eapply sst_in_frame; [exact Hin|]. rewrite Hid. apply Hlogs. lia.
    + destruct (sr_sst _ _ _ Hr l id s Hs') as (_ & rs & Hrs & _).
      pose proof (repr_old _ _ _ id Hr (mk_is_Some _ _ Hrs)) as Hlt. fold N in Hlt. lia.
  - intros id a. rewrite lookup_insert_Some. intros [[<- <-]|[HidN Ha]].
    + exists L0, sst1. by rewrite (level_of_set _ L0), decide_True, lookup_insert_eq.
    + destruct (sr_table _ _ _ Hr id a Ha) as (l & s & Hl & Hs'). exists l, s. split; [done|].
      rewrite (level_of_set _ L0) by done. case_decide as El; [subst l; by rewrite lookup_insert_ne|done].
Qed.

(** ** The invariant *)
Notation mut t := (mutable (memtable_manager t)).
Notation imm t := (immutable (memtable_manager t)).

(** A full memtable that waits for its table to be built: [wid] is its write-ahead log. *)
Record job_ok t T (wid : nat) : Prop := {
  jo_sid : sync_id (imm t) = master_sync_id t;
  jo_above : above (master_sync_id t) (λ k, table (imm t) !! k) T;
  jo_compat k v w : table (mut t) !! k = Some v → table (imm t) !! k = Some w → compat v w;
  jo_log : ∃ bs, ls_logs (tx_log_store t) !! wid = Some (BUCKET_WAL, bs);
  jo_other : w_log_id (wal_append_tx t) ≠ Some wid;
}.

(** Without a job, the immutable memtable repeats what the tables say. *)
Definition pending_ok t T : Prop :=
  match pending t with
  | None => ∀ k x, latest (imm t) k = Some x → tables_get T k (Some x)
  | Some wid => job_ok t T wid
  end.

Definition tree_value t (k : nat) (o : option V) : option V :=
  match latest (mut t) k with Some x => Some x | None => match latest (imm t) k with Some x => Some x | None => o end end.

Record lsm_core t (M : nat → option V) T : Prop := {
  lc_repr : ssts_repr (sst_manager t) (ls_logs (tx_log_store t)) T;
  lc_wf : tables_wf (master_sync_id t) T;
  lc_mut : mt_wf (mut t) ∧ sync_id (mut t) = master_sync_id t ∧ MemTable.size (mut t) ≤ mem_cap ∧ cap (mut t) = mem_cap;
  lc_imm : mt_wf (imm t) ∧ sync_id (imm t) ≤ master_sync_id t ∧ MemTable.size (imm t) ≤ mem_cap ∧ cap (imm t) = mem_cap;
  lc_wal : ∃ hist n, wal_inv (wal_append_tx t) (tx_log_store t) hist n;
  lc_above : above (master_sync_id t) (λ k, table (mut t) !! k) T;
  lc_pending : pending_ok t T;
  lc_value k : ∃ o, tables_get T k o ∧ M k = tree_value t k o;
}.

Definition lsm_inv t M T : Prop := lsm_core t M T ∧ MemTable.size (mut t) < mem_cap ∧ is_full (memtable_manager t) = false.

(** Logs of other buckets are no tables. *)
Lemma wal_no_table t T id bs :
  ssts_repr (sst_manager t) (ls_logs (tx_log_store t)) T → ls_logs (tx_log_store t) !! id = Some (BUCKET_WAL, bs) → T !! id = None.
Proof.
  intros Hr Hid. destruct (T !! id) as [a|] eqn:E; [|done].
  destruct (repr_log _ _ _ _ _ Hr E) as (l & s & rs & bs' & _ & _ & _ & _ & _ & Hlog & _).
  rewrite Hid in Hlog. injection Hlog as Hb _. by destruct (level_bucket_wal l).
Qed.

Lemma open_wal_no_table t T w hist n id :
  ssts_repr (sst_manager t) (ls_logs (tx_log_store t)) T → wal_inv w (tx_log_store t) hist n →
  w_log_id w = Some id → T !! id = None ∧ id < ls_next (tx_log_store t).
Proof.
  intros Hr [_ Ho] Hid. rewrite Hid in Ho. destruct Ho as (Hlt & Hpub & _). split; [|done].
  destruct (T !! id) as [a|] eqn:E; [|done]. unfold published in Hpub.
  destruct (repr_log _ _ _ _ _ Hr E) as (l & s & rs & bs' & _ & _ & _ & _ & _ & Hlog & _). rewrite Hlog in Hpub.
  destruct Hpub as (Hb & _). by destruct (level_bucket_wal l).
Qed.

(** Tables are read from their logs only. *)
Lemma repr_frame m logs logs' T :
  ssts_repr m logs T → (∀ id, is_Some (T !! id) → logs' !! id = logs !! id) → ssts_repr m logs' T.
Proof.
  intros [Hlen Hs Ht] Hl. split; try done. intros l id s Hi. destruct (Hs l id s Hi) as (Hid & rs & Hrs & Hin).
  split; [done|]. exists rs. split; [done|]. eapply sst_in_frame; [done|]. rewrite Hid. apply Hl. by eexists.
Qed.

(** ** The background job *)
Lemma run_major_opt t t1 T (required : bool) :
  ssts_repr (sst_manager t) (ls_logs (tx_log_store t)) T → tables_wf (master_sync_id t) T →
  (if required then do_major_compaction sst_cap MAX_NUM_LEVELS t L1 else Ok t) = Ok t1 →
  ∃ m1 st1 T1, t1 = set_ssts t m1 st1 ∧ tables_step (master_sync_id t) (tx_log_store t) T m1 st1 T1.
Proof.
  intros Hr Hwf. destruct required; [by apply do_major_step|]. intros [= <-].
  exists (sst_manager t), (tx_log_store t), T. split; [by destruct t|]. by split.
Qed.

Lemma wait_compaction_ok t t' M T :
  lsm_core t M T → wait_compaction sst_cap t = Ok t' →
  ∃ m' st' T', t' = set_pending (set_ssts t m' st') None ∧ lsm_core t' M T' ∧
    ∀ id bs, ls_logs (tx_log_store t) !! id = Some (BUCKET_WAL, bs) → pending t ≠ Some id →
             ls_logs st' !! id = Some (BUCKET_WAL, bs).
Proof.
  intros [Hr Hwf Hmut Himm (hist & n & Hwal) Hab Hpend Hval] H. unfold wait_compaction in H.
  unfold pending_ok in Hpend. destruct (pending t) as [wid|] eqn:Ep.
  2:{ injection H as <-. exists (sst_manager t), (tx_log_store t), T. split; [by destruct t; cbn in *; subst|].
      split; [|done]. split; eauto. unfold pending_ok. by rewrite Ep. }
  destruct Hpend as [Hsid Habi Hcmp [bs Hlog] Hother].
  apply bind_inv in H as (t2 & Hrun & [= <-]). unfold run_compaction in Hrun.
  apply bind_inv in Hrun as (req & _ & Hrun). apply bind_inv in Hrun as (t1 & Hmaj & Hmin).
  destruct (run_major_opt t t1 T req Hr Hwf Hmaj) as (m1 & st1 & T1 & -> & [Hr1 Hwf1 Hget1 Hab1 Hn1 Hfr1]).
  assert (Hwid : T !! wid = None ∧ wid < ls_next (tx_log_store t)).
  { split; [by eapply wal_no_table|]. apply ls_fresh. by rewrite Hlog. }
  destruct (Hfr1 wid (proj2 Hwid) (proj1 Hwid)) as [Hlog1 HT1]. rewrite Hlog in Hlog1.
  destruct Himm as (Hwfi & Hsi & Hszi & Hci).
  destruct (minor_step (set_ssts t m1 st1) t2 wid T1 (BUCKET_WAL, bs)) as (m2 & st2 & -> & Hr2 & Hne & Hn2 & Hfr2); try done.
  { eapply sst_fits_le; [|exact Hmemfit]. cbn. eapply Nat.le_trans; [apply length_bt_iter|]. by destruct Hwfi as [<- _]. }
  { by apply Hab1. }
  cbn [set_ssts tx_log_store master_sync_id memtable_manager sst_manager] in *.
  set (N := ls_next st1) in *. set (rs := bt_iter (table (imm t))) in *. set (T2 := <[N := _]> T1) in *.
  assert (Hold1 : ∀ id, is_Some (T1 !! id) → id < N) by (intros id; by apply (repr_old m1 st1 T1)).
  assert (Hrs : sorted rs) by apply bt_iter_sorted.
  assert (Hlkrs : ∀ k, lk rs k = table (imm t) !! k) by (intros k; apply lk_bt_iter).
  assert (Habr : above (master_sync_id t) (lk rs) T1).
  { intros k v id a w Hv. rewrite Hlkrs in Hv. revert Hv. by apply (Hab1 _ Habi). }
  assert (Hget2 : ∀ k o, tables_get T k o → tables_get T2 k (match latest (imm t) k with Some x => Some x | None => o end)).
  { intros k o Ho%Hget1. pose proof (insert_newest_get (master_sync_id t) T1 N rs Hold1 k o Ho) as Hg.
    rewrite Hlkrs in Hg. unfold latest. by destruct (table (imm t) !! k). }
  exists m2, st2, T2. split; [done|]. split; [split|].
  - exact Hr2.
  - by apply insert_newest_wf.
  - exact Hmut.
  - by split_and!.
  - exists hist, n. apply (wal_inv_frame _ _ _ _ _ Hwal); [|cbn; lia].
    intros id Hid. destruct (open_wal_no_table _ _ _ _ _ _ Hr Hwal Hid) as [HTid Hlt].
    destruct (Hfr1 id Hlt HTid) as [<- HT1id]. cbn. apply Hfr2; [lia|done|congruence].
  - apply insert_newest_above; [by apply Hab1|]. intros k v w Hv Hw. rewrite Hlkrs in Hw. by apply (Hcmp k).
  - intros k x Hx. cbn in Hx. destruct (Hval k) as (o & Ho & _). pose proof (Hget2 k o Ho) as Hg. by rewrite Hx in Hg.
  - intros k. destruct (Hval k) as (o & Ho & HM). eexists. split; [by apply Hget2|]. rewrite HM. unfold tree_value. cbn.
    by destruct (latest (mut t) k), (latest (imm t) k).
  - intros id bs' Hid Hne'. assert (T !! id = None) as HTid by (by eapply wal_no_table).
    destruct (Hfr1 id) as [Heq HT1id]; [apply ls_fresh; by rewrite Hid|done|]. rewrite <- Hid, <- Heq. apply Hfr2; [|done|congruence].
    enough (id < ls_next (tx_log_store t)) by lia. apply ls_fresh. by rewrite Hid.
Qed.

(** ** Puts *)

(** What is above the tables depends on the synced values only. *)
Lemma above_synced master (mt mt' : MemTable V) T :
  (∀ k, synced mt' k = synced mt k) → above master (λ k, table mt !! k) T → above master (λ k, table mt' !! k) T.
Proof.
  intros Hs Hab k v id a w Hv Ha Hw Hne. specialize (Hs k). unfold synced in Hs. rewrite Hv in Hs. cbn in Hs.
  destruct (table mt !! k) as [v0|] eqn:E; cbn in Hs; [|done]. apply (Hab k v0 id a w E Ha Hw). by rewrite <- Hs.
Qed.

Lemma compat_synced (mt mt' : MemTable V) (g : gmap nat (ValueEx V)) :
  (∀ k, synced mt' k = synced mt k) → (∀ k v w, table mt !! k = Some v → g !! k = Some w → compat v w) →
  ∀ k v w, table mt' !! k = Some v → g !! k = Some w → compat v w.
Proof.
  intros Hs Hc k v w Hv Hw Hne. specialize (Hs k). unfold synced in Hs. rewrite Hv in Hs. cbn in Hs.
  destruct (table mt !! k) as [v0|] eqn:E; cbn in Hs; [|done]. apply (Hc k v0 w E Hw). by rewrite <- Hs.
Qed.

Definition map_put (M : nat → option V) (key : nat) (value : V) : nat → option V :=
  λ k, if k =? key then Some value else M k.

(** The write-ahead log takes a step: the tables stay. *)
Lemma set_wal_core t M T w st' :
  lsm_core t M T → (∃ hist n, wal_inv w st' hist n) →
  (∀ id, is_Some (T !! id) → ls_logs st' !! id = ls_logs (tx_log_store t) !! id) →
  (∀ wid bs, pending t = Some wid → ls_logs (tx_log_store t) !! wid = Some (BUCKET_WAL, bs) →
     ls_logs st' !! wid = Some (BUCKET_WAL, bs) ∧ w_log_id w ≠ Some wid) →
  lsm_core (set_wal t w st') M T.
Proof.
  intros [Hr Hwf Hmut Himm Hwal Hab Hpend Hval] Hw Hl Hp. split; try done; [by eapply repr_frame|].
  unfold pending_ok in *. cbn. destruct (pending t) as [wid|]; [|done].
  destruct Hpend as [? ? ? [bs Hlog] ?]. destruct (Hp wid bs eq_refl Hlog). split; try done. by exists bs.
Qed.

Lemma put_mem_core t M T key value d mt :
  lsm_core t M T → MemTable.size (mut t) < mem_cap → MemTable.put (mut t) key value = (d, mt) →
  lsm_core (set_mem t (mkMemTableManager mt (imm t) (at_capacity mt))) (map_put M key value) T.
Proof.
  intros [Hr Hwf (Hwfm & Hsm & Hszm & Hcm) Himm Hwal Hab Hpend Hval] Hlt Hput.
  destruct (put_spec _ _ _ _ _ Hwfm Hput) as (Hwf' & Hl & Hs & _ & Hsz & Hc & Hid). split; try done.
  - cbn. rewrite Hid, Hc. split_and!; try done. destruct d; lia.
  - by eapply above_synced.
  - unfold pending_ok in *. cbn. destruct (pending t) as [wid|]; [|done].
    destruct Hpend as [? ? Hcmp ? ?]. split; try done. by eapply compat_synced.
  - intros k. destruct (Hval k) as (o & Ho & HM). exists o. split; [done|]. unfold map_put, tree_value. cbn. rewrite Hl.
    destruct (k =? key); [done|]. by rewrite HM.
Qed.

Lemma clear_wf (mt : MemTable V) : mt_wf (clear mt).
Proof. split; [done|]. split; [|done]. intros k v. cbn. by rewrite lookup_empty. Qed.

(** The memtables change roles: the full one becomes the job. *)
Lemma switch_core t M T m wal_id :
  lsm_core t M T → pending t = None → w_log_id (wal_append_tx t) = None →
  (∃ bs, ls_logs (tx_log_store t) !! wal_id = Some (BUCKET_WAL, bs)) →
  switch uninit (memtable_manager t) = Ok m → lsm_inv (set_pending (set_mem t m) (Some wal_id)) M T.
Proof.
  intros [Hr Hwf (Hwfm & Hsm & Hszm & Hcm) (Hwfi & Hsi & Hszi & Hci) Hwal Hab Hpend Hval] Hp Hw Hlog H. unfold switch in H.
  apply bind_inv in H as ([] & _ & H). cbv zeta in H. apply bind_inv in H as ([] & _ & H).
  apply bind_inv in H as ([drops nm] & Hsync & [= <-]).
  destruct (sync_spec uninit (clear (imm t)) (sync_id (mut t)) (clear_wf _)) as (dr & nm' & Hs & Hwfn & Hln & _ & _ & Hsz & Hcn & Hidn);
    [cbn; lia|]. rewrite Hsync in Hs. injection Hs as <- <-. cbn in Hsz, Hcn.
  assert (Hempty : ∀ k v, table nm !! k = Some v → False).
  { intros k v Hv. specialize (Hln k). unfold latest in Hln. rewrite Hv in Hln. cbn in Hln. by rewrite lookup_empty in Hln. }
  split; [|split; [cbn; lia|done]]. split; cbn; try done.
  - split_and!; try done; [congruence|lia|congruence].
  - split_and!; try done. lia.
  - intros k v id a w Hv. by destruct (Hempty k v).
  - unfold pending_ok. cbn. split; cbn; try done; [|by rewrite Hw]. intros k v w Hv. by destruct (Hempty k v).
  - intros k. destruct (Hval k) as (o & Ho & HM). exists o. split; [done|]. rewrite HM. unfold tree_value. cbn.
    assert (latest nm k = None) as -> by (unfold latest; destruct (table nm !! k) eqn:En; [by destruct (Hempty k v)|done]).
    destruct (latest (mut t) k); [done|].
    unfold pending_ok in Hpend. rewrite Hp in Hpend. destruct (latest (imm t) k) as [x|] eqn:E; [|done].
    exact (eq_sym (tables_get_unique _ _ _ _ Ho (Hpend k x E))).
Qed.

Lemma pending_old t T wid bs :
  ls_logs (tx_log_store t) !! wid = Some (BUCKET_WAL, bs) → wid < ls_next (tx_log_store t).
Proof. intros Hlog. apply ls_fresh. by rewrite Hlog. Qed.

Lemma put_ok t t' M T key value :
  lsm_inv t M T → LsmTree.put uninit sst_cap t key value = Ok t' → ∃ T', lsm_inv t' (map_put M key value) T'.
Proof.
  intros (Hcore & Hsz & Hfull) H. pose proof Hcore as [Hr _ _ _ (hist & n & Hwal) _ Hpend _]. unfold LsmTree.put in H.
  destruct (wal_append_spec HV (wal_append_tx t) (tx_log_store t) hist n key value Hwal) as (r & w1 & st1 & Ha & _ & Hgood).
  rewrite Ha in H. apply bind_inv in H as ([] & -> & H).
  destruct (Hgood eq_refl) as (Hw1 & (Hl1 & Hn1) & _ & [_ Hkept] & Hopen).
  assert (Hcore1 : lsm_core (set_wal t w1 st1) M T).
  { apply set_wal_core; [done|eauto|by intros; rewrite Hl1|]. intros wid bs Hp Hlog. split; [by rewrite Hl1|].
    unfold pending_ok in Hpend. rewrite Hp in Hpend. intros Hid. destruct (Hkept wid Hid) as [Hold|Hnew].
    - by apply (jo_other _ _ _ Hpend).
    - pose proof (pending_old t T wid bs Hlog). lia. }
  unfold mgr_put in H. cbn [set_wal memtable_manager] in H. rewrite Hfull in H.
  destruct (MemTable.put (mut t) key value) as [d mt] eqn:Eput.
  pose proof (put_mem_core _ _ _ _ _ _ _ Hcore1 Hsz Eput) as Hcore2.
  pose proof (lc_mut _ _ _ Hcore2) as (_ & _ & _ & Hcap2). cbn in Hcap2.
  destruct (at_capacity mt) eqn:Ecap; cbn [negb] in H.
  2:{ injection H as <-. exists T. split; [exact Hcore2|]. split; [|done]. cbn. unfold at_capacity in Ecap.
      rewrite Hcap2 in Ecap. by apply Nat.leb_gt in Ecap. }
  cbn [set_mem set_wal wal_append_tx tx_log_store] in H.
  destruct (wal_commit_spec HV w1 st1 _ n Hw1 Hopen) as (id & r & w2 & st2 & Hid & Hc & _ & Hgood2).
  rewrite Hc in H. apply bind_inv in H as (wal_id & -> & H).
  destruct (Hgood2 wal_id eq_refl) as (-> & -> & [Hfr Hn2] & [bs Hlog] & _).
  assert (Hcore3 : lsm_core (set_wal (set_mem (set_wal t w1 st1) (mkMemTableManager mt (imm t) true)) (wal_new (w_sync_id w1)) st2)
                     (map_put M key value) T).
  { apply set_wal_core; [exact Hcore2|exists [], 0; apply wal_new_inv|..].
    - intros j Hj. apply Hfr. intros [= ->]. destruct (open_wal_no_table (set_wal t w1 st1) T w1 _ n id (lc_repr _ _ _ Hcore1) Hw1 Hid) as [HT _].
      rewrite HT in Hj. by destruct Hj.
    - intros wid bs' Hp Hlog'. split; [|done]. rewrite <- Hlog'. apply Hfr. intros [= ->].
      pose proof (lc_pending _ _ _ Hcore1) as Hpend1. unfold pending_ok in Hpend1. cbn in Hpend1, Hp. rewrite Hp in Hpend1.
      by apply (jo_other _ _ _ Hpend1). }
  apply bind_inv in H as (t4 & Hwait & H). apply bind_inv in H as (m4 & Hsw & [= <-]).
  destruct (wait_compaction_ok _ _ _ _ Hcore3 Hwait) as (m' & st' & T' & -> & Hcore4 & Hlogs).
  exists T'. apply (switch_core _ _ _ m4 id Hcore4); try done. cbn. exists bs. apply Hlogs; [done|]. cbn. intros Hp.
  pose proof (lc_pending _ _ _ Hcore1) as Hpend1. unfold pending_ok in Hpend1. cbn in Hpend1. rewrite Hp in Hpend1.
  by apply (jo_other _ _ _ Hpend1).
Qed.

(** ** Syncs *)
Lemma sync_tree_ok t t' M T :
  lsm_inv t M T → sync_tree uninit sst_cap t = Ok t' → ∃ T', lsm_inv t' M T'.
Proof.
  intros (Hcore & Hsz & Hfull) H. unfold sync_tree in H. cbv zeta in H.
  apply bind_inv in H as (t1 & Hwait & H). destruct (wait_compaction_ok _ _ _ _ Hcore Hwait) as (m1 & st1 & T1 & -> & Hcore1 & _).
  pose proof Hcore1 as [Hr Hwf Hmut Himm (hist & n & Hwal) Hab Hpend Hval]. cbn in H.
  destruct (wal_sync_spec HV _ _ hist n (master_sync_id t + 1) Hwal) as (r & w2 & st2 & Ha & _ & Hgood).
  cbn in Ha. rewrite Ha in H. apply bind_inv in H as ([] & -> & H).
  destruct (Hgood eq_refl) as (Hw2 & [Hfr Hn2] & _ & [wid Hwid] & _ & [_ Hkept]).
  apply bind_inv in H as ([drops mm] & Hms & [= <-]). unfold mgr_sync in Hms.
  apply bind_inv in Hms as ([dr mt] & Hsync & [= <- <-]).
  cbn in Hmut, Himm, Hr, Hwf, Hval. destruct Hmut as (Hwfm & Hsm & Hszm & Hcm), Himm as (Hwfi & Hsi & Hszi & Hci).
  destruct (sync_spec uninit (mut t) (master_sync_id t + 1) Hwfm) as (dr' & mt' & Hs & Hwf' & Hl & _ & _ & Hsz' & Hc' & Hid'); [lia|].
  rewrite Hsync in Hs. injection Hs as <- <-. exists T1.
  split; [|split; [cbn; lia|done]]. rewrite Nat.add_1_r in *. split; cbn; try done.
  - eapply repr_frame; [exact Hr|]. intros id Hid. apply Hfr. rewrite Hwid. intros [= ->].
    destruct (Hkept wid Hwid) as [Hold|Hnew].
    + destruct (open_wal_no_table (set_pending (set_ssts t m1 st1) None) T1 _ hist n wid Hr Hwal Hold) as [HT _].
      rewrite HT in Hid. by destruct Hid.
    + pose proof (repr_old _ _ _ wid Hr Hid). cbn in Hnew. lia.
  - by apply tables_wf_sync.
  - split_and!; try done; [lia|congruence].
  - split_and!; try done. lia.
  - eauto.
  - by apply above_sync.
  - intros k. destruct (Hval k) as (o & Ho & HM). exists o. split; [done|]. rewrite HM. unfold tree_value. cbn. by rewrite Hl.
Qed.

(** ** Queries *)
Lemma read_commit st : ∃ st', ls_commit st (ls_new_tx st) = Ok st'.
Proof.
  destruct (ls_commit_ok st (ls_new_tx st)) as (st' & Hc & _); [..|eauto].
  - intros id b. by rewrite ls_new_tx_edits, lookup_empty.
  - intros id. rewrite ls_new_tx_edits, lookup_empty. by intros [? ?].
Qed.

Lemma get_ok t M T k : lsm_core t M T → LsmTree.get t k = ok_or (M k) NotFound.
Proof.
  intros [Hr Hwf Hmut Himm Hwal Hab Hpend Hval]. destruct (Hval k) as (o & Ho & ->). unfold LsmTree.get, tree_value.
  unfold mgr_get, MemTable.get, latest. destruct (ValueEx_get <$> table (mut t) !! k); [done|].
  destruct (ValueEx_get <$> table (imm t) !! k); [done|]. unfold do_read_tx.
  rewrite all_ssts_ok by apply (sr_len _ _ _ Hr). bind_step.
  rewrite (search_tables (sst_manager t) T (tx_log_store t)); [|by rewrite seen_new|intros id a Ha; by destruct (tw_table _ _ Hwf id a Ha)].
  rewrite (tables_get_unique _ _ _ _ Ho (first_in_tables _ _ _ k Hr)). set (o' := first_in _ k).
  destruct (read_commit (tx_log_store t)) as [st' Hc].
  destruct o' as [x|]; cbn [ok_or]; [|rewrite bool_decide_eq_true_2 by done]; by rewrite Hc.
Qed.

Lemma get_range_tree_ok t M T c :
  lsm_core t M T → ctx_wf c → is_completed c = false →
  ∃ c', LsmTree.get_range t c = Ok (is_completed c', c') ∧ fills M c c'.
Proof.
  intros [Hr Hwf Hmut Himm Hwal Hab Hpend Hval] Hc Hnc. unfold LsmTree.get_range.
  destruct (mgr_get_range_ok (memtable_manager t) c Hc Hnc) as (c1 & -> & Hw1 & Hs1 & Hn1 & Hd1 & Hr1). bind_step.
  assert (Hfl : fills (mgr_get (memtable_manager t)) c c1) by (by split).
  assert (Hext : ∀ k, or_else (mgr_get (memtable_manager t)) (first_in (all_recs T (sst_manager t))) k = M k).
  { intros k. destruct (Hval k) as (o & Ho & ->). rewrite (tables_get_unique _ _ _ _ Ho (first_in_tables _ _ _ k Hr)).
    unfold or_else, tree_value, mgr_get, MemTable.get, latest. by destruct (ValueEx_get <$> table (mut t) !! k). }
  destruct (is_completed c1) eqn:E1.
  { exists c1. rewrite E1. split; [done|]. apply (fills_ext _ _ _ _ Hext). by apply fills_done. }
  unfold do_read_range_tx. rewrite E1. cbn [negb assert_]. bind_step. rewrite all_ssts_ok by apply (sr_len _ _ _ Hr). bind_step.
  destruct (search_range_ok (tx_log_store t) (ls_new_tx (tx_log_store t)) (all_ents (sst_manager t)) (all_recs T (sst_manager t)) c1)
    as (c2 & -> & Hfl2); [|done..|].
  { apply ents_readable; [by rewrite seen_new|]. intros id a Ha. by destruct (tw_table _ _ Hwf id a Ha). }
  destruct (read_commit (tx_log_store t)) as [st' ->]. bind_step. exists c2. split; [done|].
  apply (fills_ext _ _ _ _ Hext). by eapply fills_trans.
Qed.

(** ** Runs *)

(** What a user does; the job of the background may run at any time. *)
Inductive LsmOp := OpPut (k : nat) (v : V) | OpSyncAll | OpCompact.

Definition lsm_exec t (op : LsmOp) : res Tree :=
  match op with
  | OpPut k v => LsmTree.put uninit sst_cap t k v
  | OpSyncAll => sync_tree uninit sst_cap t
  | OpCompact => wait_compaction sst_cap t
  end.

Definition map_exec (M : nat → option V) (op : LsmOp) : nat → option V :=
  match op with OpPut k v => map_put M k v | _ => M end.

Lemma lsm_exec_ok t t' M T op : lsm_inv t M T → lsm_exec t op = Ok t' → ∃ T', lsm_inv t' (map_exec M op) T'.
Proof.
  intros Hinv. destruct op as [k v| |]; cbn [lsm_exec map_exec]; [intros H; by eapply put_ok|intros H; by eapply sync_tree_ok|].
  destruct Hinv as (Hcore & Hsz & Hfull). intros H.
  destruct (wait_compaction_ok _ _ _ _ Hcore H) as (m' & st' & T' & -> & Hcore' & _). exists T'. by split.
Qed.

Lemma lsm_run_ok ops : ∀ t t' M T,
  lsm_inv t M T → foldM lsm_exec t ops = Ok t' → ∃ T', lsm_inv t' (fold_left map_exec ops M) T'.
Proof.
  induction ops as [|op ops IH]; intros t t' M T Hinv H; cbn [foldM fold_left] in *; [injection H as <-; eauto|].
  destruct (lsm_exec t op) as [t1| |] eqn:E; try done. destruct (lsm_exec_ok _ _ _ _ _ Hinv E) as [T1 Hinv1]. by eapply IH.
Qed.

Lemma format_inv st store :
  store = None ∨ store = Some 0 → lsm_inv (LsmTree.format mem_cap st store) (λ _, None) ∅.
Proof.
  clear Hcap Hcapfit Hmemfit HV uninit. intros Hst. assert (Hid : master_sync_id_new store 0 = 0) by (by destruct Hst as [-> | ->]).
  destruct (MemTable_new_wf (V := V) mem_cap 0) as [Hwf Hl]. unfold LsmTree.format.
  split; [|split; [cbn; lia|done]]. split; cbn; rewrite ?Hid.
  - split; [done|..].
    + intros l id s. by destruct l.
    + intros id a. by rewrite lookup_empty.
  - split; [intros id a|intros id id' a b|intros id id' a b k v w]; by rewrite lookup_empty.
  - split_and!; try done. lia.
  - split_and!; try done; lia.
  - exists [], 0. apply wal_new_inv.
  - intros k v id a w Hv. by rewrite lookup_empty in Hv.
  - intros k x. cbn. by rewrite Hl.
  - intros k. exists None. split; [intros id a; by rewrite lookup_empty|]. unfold tree_value. cbn. by rewrite !Hl.
Qed.
End refine.
Arguments LsmOp : clear implicits.

(** ** Claims *)
Section theorems.
Context {Bt : Bittle} {HB : BittleSpec Bt} {BP : BidPod} {HBP : BidPodSpec BP} {V : Type} {RP : RecordPod V} {HR : RecordPodSpec V RP}.
Context {FP : FooterMetaPod} {HFP : FooterMetaPodSpec FP} {LC : LruCache} {HC : LruSpec LC}.
Context {P : Pages} {HP : PagesSpec P} {EL : EventListener V}.
Context {St Tx : Type} {HS : TxLogStore St Tx} {HSS : TxLogStoreSpec St Tx}.

(** C5: The LSM tree implements a map.  After any sequence of puts, syncs and runs of the
    background compaction on a formatted tree, through memtable switches, minor compactions
    and major compactions over the levels, a query returns the last value put for the key,
    and [NotFound] exactly when none was put; it never panics or fails otherwise.  The
    capacities must let a table's index fit its 16-bit footer field and a record fit the
    buffer of the write-ahead log. *)
Theorem lsm_refines_map (uninit sst_cap mem_cap : nat) (st : St) (store : option nat) (ops : list (LsmOp V)) (t : Tree) (k : nat) :
  0 < sst_cap → sst_fits (V := V) sst_cap → 0 < mem_cap → sst_fits (V := V) mem_cap →
  1 + K_SIZE + V_SIZE ≤ WAL_MAX_RECORD_SIZE → store = None ∨ store = Some 0 →
  foldM (lsm_exec uninit sst_cap) (LsmTree.format mem_cap st store) ops = Ok t →
  LsmTree.get t k = ok_or (fold_left map_exec ops (λ _, None) k) NotFound.
Proof.
  intros Hcap Hcapfit Hmem Hmemfit HV Hst Hrun.
  destruct (lsm_run_ok uninit sst_cap mem_cap Hcap Hcapfit Hmem Hmemfit HV ops _ t _ ∅ (format_inv mem_cap Hmem st store Hst) Hrun) as [T [Hcore _]].
  exact (get_ok mem_cap t _ T k Hcore).
Qed.

(** C18: A range query of the tree answers like the point queries: on any tree that puts,
    syncs and compactions made, it never panics or fails, its results are exactly the pairs
    of the range the map has, one per key, and it reports completion exactly when every key
    of the range has a value. *)
Theorem lsm_range_query (uninit sst_cap mem_cap : nat) (st : St) (store : option nat) (ops : list (LsmOp V)) (t : Tree) (s n : nat) :
  0 < sst_cap → sst_fits (V := V) sst_cap → 0 < mem_cap → sst_fits (V := V) mem_cap →
  1 + K_SIZE + V_SIZE ≤ WAL_MAX_RECORD_SIZE → store = None ∨ store = Some 0 → 0 < n →
  foldM (lsm_exec uninit sst_cap) (LsmTree.format mem_cap st store) ops = Ok t →
  let M := fold_left map_exec ops (λ _, None) in
  ∃ b c, LsmTree.get_range t (RangeQueryCtx_new s n) = Ok (b, c) ∧
    (b = true ↔ ∀ k, s ≤ k < s + n → M k ≠ None) ∧
    (∀ k v, (k, v) ∈ results c ↔ s ≤ k < s + n ∧ M k = Some v) ∧
    NoDup (results c).*1 ∧ (b = true → into_results c = Ok (results c)).
Proof.
  intros Hcap Hcapfit Hmem Hmemfit HV Hst Hn Hrun M.
  destruct (lsm_run_ok uninit sst_cap mem_cap Hcap Hcapfit Hmem Hmemfit HV ops _ t _ ∅ (format_inv mem_cap Hmem st store Hst) Hrun) as [T [Hcore _]].
  destruct (RangeQueryCtx_new_wf (V := V) s n) as [Hc Hfalse].
  destruct (get_range_tree_ok mem_cap t M T (RangeQueryCtx_new s n) Hcore Hc) as (c & Hq & [Hw Hs Hnum Hd Hr]).
  { unfold is_completed. simpl. by destruct n; [lia|]. }
  exists (is_completed c), c. split; [done|]. cbn in Hs, Hnum, Hd, Hr. split; [|split; [|split]].
  - rewrite is_completed_iff, Hnum by done. split.
    + intros Hall k Hk. specialize (Hall (k - s) ltac:(lia)). rewrite Hd, Hfalse in Hall by lia. cbn in Hall.
      apply bool_decide_eq_true in Hall. by replace (s + (k - s)) with k in Hall by lia.
    + intros Hall j Hj. rewrite Hd by done. rewrite bool_decide_eq_true_2; [apply orb_true_r|]. apply Hall. lia.
  - intros k v. rewrite Hr, Hfalse, elem_of_nil. naive_solver.
  - apply Hw.
  - unfold into_results. by intros ->.
Qed.
End theorems.

(** *** Witnesses *)
Module LsmDemo.
Import ToySst LsmRuns.

(** Twelve puts, one sync; tables are built, moved and merged. *)
Definition demo_lsm : list (LsmOp nat) :=
  [OpPut 1 11; OpPut 5 51; OpPut 1 12; OpSyncAll; OpPut 2 21; OpPut 1 13; OpPut 9 91; OpPut 1 14; OpPut 5 55;
   OpPut 7 71; OpPut 1 15; OpPut 8 81; OpPut 2 22; OpCompact].

Lemma demo_fits n : n ≤ 100 → sst_fits (V := nat) n.
Proof.
  intros Hn. unfold sst_fits. rewrite RECORD_BLOCK_SIZE_val. unfold MAX_RECORD_SIZE, K_SIZE, BID_SIZE, FLAG_SIZE. cbn [V_SIZE pods pod].
  pose proof U16_gt_1. nia.
Qed.

Definition demo_run : res tree := foldM (lsm_exec 0 3) (LsmTree.format 2 st0 None) demo_lsm.

Lemma demo_run_ok : is_ok demo_run = true.
Proof. vm_compute. reflexivity. Qed.
End LsmDemo.
Import ToySst LsmRuns LsmDemo.

Lemma lsm_refines_map_witness :
  ∃ t : tree, foldM (lsm_exec 0 3) (LsmTree.format 2 st0 None) demo_lsm = Ok t ∧
    LsmTree.get t 1 = Ok 15 ∧ LsmTree.get t 6 = Err NotFound.
Proof.
  pose proof demo_run_ok as H. unfold demo_run in H.
  destruct (foldM (lsm_exec 0 3) (LsmTree.format 2 st0 None) demo_lsm) as [t| |] eqn:E; [|discriminate H..].
  exists t. split; [reflexivity|].
  pose proof (λ k, lsm_refines_map 0 3 2 st0 None demo_lsm t k ltac:(lia) (demo_fits 3 ltac:(lia)) ltac:(lia)
                (demo_fits 2 ltac:(lia)) ltac:(vm_compute; lia) (or_introl eq_refl) E) as Hg.
  split; [exact (Hg 1)|exact (Hg 6)].
Defined.

Lemma lsm_range_query_witness :
  ∃ (t : tree) b c, foldM (lsm_exec 0 3) (LsmTree.format 2 st0 None) demo_lsm = Ok t ∧
    LsmTree.get_range t (RangeQueryCtx_new 7 3) = Ok (b, c) ∧ b = true ∧ (9, 91) ∈ results c.
Proof.
  pose proof demo_run_ok as H. unfold demo_run in H.
  destruct (foldM (lsm_exec 0 3) (LsmTree.format 2 st0 None) demo_lsm) as [t| |] eqn:E; [|discriminate H..].
  destruct (lsm_range_query 0 3 2 st0 None demo_lsm t 7 3 ltac:(lia) (demo_fits 3 ltac:(lia)) ltac:(lia)
              (demo_fits 2 ltac:(lia)) ltac:(vm_compute; lia) (or_introl eq_refl) ltac:(lia) E) as (b & c & Hq & Hb & Hr & _).
  exists t, b, c. split; [reflexivity|]. split; [exact Hq|]. split.
  - apply Hb. intros k Hk. assert (k = 7 ∨ k = 8 ∨ k = 9) as [-> | [-> | ->]] by lia; vm_compute; discriminate.
  - apply Hr. split; [lia|]. vm_compute. reflexivity.
Defined.
