(* ===== verification/CryptoChain.v ===== *)
(** * CryptoChain: [core/src/util/crypto.rs] (the AEAD interface) and
      [core/src/layers/1-crypto/crypto_chain.rs]

    Encryption is a class: [Aead] is the trait of the source, [AeadSpec] what an
    implementation documents.  The bytes of a
    footer ([pod]) are a class too.  Random IVs are arguments.  [BlockLogSpec] states
    what the chain needs of the log below it, and the block ring is shown to provide
    it. *)
From S2P Require Import Prelude Bio.

(** ** The AEAD interface *)
Class Aead := {
  Key : Type; Iv : Type; Mac : Type;
  mac_eq_dec :: EqDecision Mac;
  mac_default : Mac;
  mac_bytes : Mac → list byte;
  aead_encrypt : list byte → Key → Iv → list byte → res (list byte * Mac);
  aead_decrypt : list byte → Key → Iv → list byte → Mac → res (list byte);
}.

Class AeadSpec (A : Aead) := {
  encrypt_total p k iv aad : ∃ c m, aead_encrypt p k iv aad = Ok (c, m);
  encrypt_length p k iv aad c m : aead_encrypt p k iv aad = Ok (c, m) → length c = length p;
  decrypt_encrypt p k iv aad c m :
    aead_encrypt p k iv aad = Ok (c, m) → aead_decrypt c k iv aad m = Ok p;
  decrypt_sound p k iv aad c m :
    aead_decrypt c k iv aad m = Ok p → aead_encrypt p k iv aad = Ok (c, m);
  decrypt_no_panic k iv aad c m : aead_decrypt c k iv aad m ≠ Panic;
}.

(** ** The footer *)
Record Footer {A : Aead} := mkFooter { f_len : nat; f_pre_mac : Mac; f_this_mac : Mac; f_this_iv : Iv }.
Arguments Footer : clear implicits.

Definition FOOTER_SIZE : nat := 48.
Definition AVAIL_BLOCK_SIZE : nat := BLOCK_SIZE - FOOTER_SIZE.

Class FooterPod (A : Aead) := {
  footer_bytes : Footer A → list byte;
  footer_from_bytes : list byte → Footer A;
}.
(** The footer occupies its 48 bytes and survives the round trip; its length field
    is a [u32]. *)
Class FooterPodSpec (A : Aead) (F : FooterPod A) := {
  footer_bytes_length f : length (footer_bytes f) = FOOTER_SIZE;
  footer_roundtrip f : (N.of_nat (f_len f) < 2 ^ 32)%N → footer_from_bytes (footer_bytes f) = f;
}.

Lemma footer_fits : FOOTER_SIZE < BLOCK_SIZE ∧ (N.of_nat BLOCK_SIZE < 2 ^ 32)%N.
Proof. with_strategy transparent [BLOCK_SIZE] (vm_compute; split; [lia|done]). Qed.

(** ** What the chain needs of its log *)
Class BlockLogSpec (L : Type) {H : BlockLog L} := {
  bl_holds : L → nat → list (list byte) → Prop;  (* the blocks readable from a position on *)
  bl_at : L → nat → Prop;                        (* where the next block goes *)
  bl_room : L → nat;                             (* how many blocks the log keeps *)
  bl_read_ok l lo bs i b : bl_holds l lo bs → bs !! i = Some b → bl_read l (lo + i) 1 = Ok b;
  bl_append_ok l lo bs b :
    bl_holds l lo bs → bl_at l (lo + length bs) → length b = BLOCK_SIZE → length bs < bl_room l →
    ∃ l', bl_append l b = Ok (lo + length bs, l') ∧ bl_holds l' lo (bs ++ [b]) ∧
          bl_at l' (lo + length bs + 1) ∧ bl_room l' = bl_room l;
  bl_shrink l lo bs k : bl_holds l lo bs → k ≤ length bs → bl_holds l (lo + k) (drop k bs);
}.

Section chain.
Context {A : Aead} {F : FooterPod A} {P : Pages} {L : Type} {HL : BlockLog L}.

Record CryptoChain := mkCryptoChain {
  block_log : L;
  key : Key;
  range_start : nat;
  range_end : nat;
  block_macs : list Mac;
}.

Definition CryptoChain_new (log : L) (random_key : Key) : CryptoChain :=
  mkCryptoChain log random_key 0 0 [].

(** [CryptoChain::read] into a buffer of [buf_len] bytes: the bytes written. *)
Definition read (c : CryptoChain) (pos buf_len : nat) : res (list byte) :=
  if negb ((range_start c <=? pos) && (pos <? range_end c)) then Err NotFound else
  _ ← Buf_alloc 0 1;
  block_buf ← bl_read (block_log c) pos 1;
  fb ← slice block_buf AVAIL_BLOCK_SIZE (length block_buf);
  let footer := footer_from_bytes fb in
  let payload_len := f_len footer in
  if (AVAIL_BLOCK_SIZE <? payload_len) || (buf_len <? payload_len) then Err OutOfDisk else
  this_mac ← unwrap (block_macs c !! (pos - range_start c));
  if negb (bool_decide (f_this_mac footer = this_mac)) then Err NotFound else
  input ← slice block_buf 0 payload_len;
  aead_decrypt input (key c) (f_this_iv footer) (mac_bytes (f_pre_mac footer)) (f_this_mac footer).

(** [CryptoChain::append] with the random IV [this_iv]. *)
Definition append (c : CryptoChain) (this_iv : Iv) (buf : list byte) : res CryptoChain :=
  if AVAIL_BLOCK_SIZE <? length buf then Err OutOfDisk else
  block_buf ← Buf_alloc 0 1;
  let pre_mac := default mac_default (last (block_macs c)) in
  '(output, this_mac) ← aead_encrypt buf (key c) this_iv (mac_bytes pre_mac);
  block_buf ← copy_from_slice block_buf 0 (length buf) output;
  let footer := mkFooter A (length buf) pre_mac this_mac this_iv in
  block_buf ← copy_from_slice block_buf AVAIL_BLOCK_SIZE (length block_buf) (footer_bytes footer);
  '(_, log') ← bl_append (block_log c) block_buf;
  Ok (mkCryptoChain log' (key c) (range_start c) (range_end c + 1) (block_macs c ++ [this_mac])).

Definition flush (c : CryptoChain) : res CryptoChain :=
  log' ← bl_flush (block_log c);
  Ok (mkCryptoChain log' (key c) (range_start c) (range_end c) (block_macs c)).

Definition trim (c : CryptoChain) (before_block : nat) : res CryptoChain :=
  _ ← assert_ (before_block <? range_end c);
  if before_block <=? range_start c then Ok c else
  let num_blocks_trimmed := before_block - range_start c in
  if length (block_macs c) <? num_blocks_trimmed then Panic (* [drain] *) else
  Ok (mkCryptoChain (block_log c) (key c) before_block (range_end c)
        (drop num_blocks_trimmed (block_macs c))).

(** [Recovery] has the fields of the chain it rebuilds (and two scratch buffers). *)
Definition Recovery_new (log : L) (k : Key) (first_block : nat) : CryptoChain :=
  mkCryptoChain log k first_block first_block [].

(** [Recovery::next]: the payload of the next valid block, if any. *)
Definition next (r : CryptoChain) : res (option (list byte * CryptoChain)) :=
  match bl_read (block_log r) (range_end r) 1 with
  | Panic => Panic
  | Err _ => Ok None
  | Ok read_buf =>
      fb ← slice read_buf AVAIL_BLOCK_SIZE (length read_buf);
      let footer := footer_from_bytes fb in
      let payload_len := f_len footer in
      if AVAIL_BLOCK_SIZE <? payload_len then Ok None else
      input ← slice read_buf 0 payload_len;
      match aead_decrypt input (key r) (f_this_iv footer) (mac_bytes (f_pre_mac footer))
              (f_this_mac footer) with
      | Panic => Panic
      | Err _ => Ok None
      | Ok payload =>
          let chained := match last (block_macs r) with
                         | Some mac => bool_decide (mac = f_pre_mac footer)
                         | None => true
                         end in
          if negb chained then Ok None else
          Ok (Some (payload,
                    mkCryptoChain (block_log r) (key r) (range_start r) (range_end r + 1)
                      (block_macs r ++ [f_this_mac footer])))
      end
  end.

(** At most [n] calls of [next], up to the first [None]. *)
Fixpoint recover_n (n : nat) (r : CryptoChain) : res (list (list byte) * CryptoChain) :=
  match n with
  | 0 => Ok ([], r)
  | S n =>
      o ← next r;
      match o with
      | None => Ok ([], r)
      | Some (p, r) => '(ps, r) ← recover_n n r; Ok (p :: ps, r)
      end
  end.
End chain.
Arguments CryptoChain : clear implicits.
Arguments CryptoChain {_} _.

(** ** Sealed blocks *)
Section sealed.
Context {A : Aead} {HA : AeadSpec A} {F : FooterPod A} {HF : FooterPodSpec A F}.
Context {P : Pages} {HP : PagesSpec P}.

Definition block_footer (b : list byte) : Footer A := footer_from_bytes (drop AVAIL_BLOCK_SIZE b).

(** Block [b] carries payload [p] with MAC [m], chained to [pre]. *)
Definition sealed (k : Key) (pre : Mac) (p : list byte) (m : Mac) (b : list byte) : Prop :=
  length b = BLOCK_SIZE ∧ length p ≤ AVAIL_BLOCK_SIZE ∧
  f_len (block_footer b) = length p ∧ f_pre_mac (block_footer b) = pre ∧
  f_this_mac (block_footer b) = m ∧
  aead_decrypt (take (length p) b) k (f_this_iv (block_footer b)) (mac_bytes pre) m = Ok p.

Inductive sealed_chain (k : Key) : Mac → list Mac → list (list byte) → list (list byte) → Prop :=
  | sc_nil pre : sealed_chain k pre [] [] []
  | sc_cons pre m ms p ps b bs :
      sealed k pre p m b → sealed_chain k m ms ps bs → sealed_chain k pre (m :: ms) (p :: ps) (b :: bs).

Lemma default_last_cons (pre m : Mac) ms : default pre (last (m :: ms)) = default m (last ms).
Proof.
  destruct ms as [|m1 ms]; [done|]. rewrite last_cons_cons.
  destruct (last (m1 :: ms)) eqn:E; [done|]. by apply last_None in E.
Qed.

Lemma sealed_chain_snoc k pre ms ps bs m p b :
  sealed_chain k pre ms ps bs → sealed k (default pre (last ms)) p m b →
  sealed_chain k pre (ms ++ [m]) (ps ++ [p]) (bs ++ [b]).
Proof.
  induction 1 as [pre|pre m0 ms p0 ps b0 bs Hs Hc IH]; intros Hb.
  - constructor; [done|constructor].
  - rewrite default_last_cons in Hb. constructor; [done|]. by apply IH.
Qed.

Lemma sealed_chain_lookup k pre ms ps bs i p :
  sealed_chain k pre ms ps bs → ps !! i = Some p →
  ∃ m b, ms !! i = Some m ∧ bs !! i = Some b ∧
         sealed k (default pre (last (take i ms))) p m b.
Proof.
  intros Hc. revert i. induction Hc as [pre|pre m ms p0 ps b bs Hs Hc IH]; intros [|i] Hi; try done.
  - simplify_eq/=. eauto.
  - destruct (IH i Hi) as (m' & b' & ? & ? & Hs'). exists m', b'. split; [done|]. split; [done|].
    cbn [take]. by rewrite default_last_cons.
Qed.

Lemma sealed_chain_lengths k pre ms ps bs :
  sealed_chain k pre ms ps bs → length ms = length ps ∧ length bs = length ps.
Proof. induction 1; simpl; lia. Qed.

Lemma sealed_chain_drop k pre ms ps bs n :
  sealed_chain k pre ms ps bs → ∃ pre', sealed_chain k pre' (drop n ms) (drop n ps) (drop n bs).
Proof.
  intros Hc. revert n. induction Hc as [pre|pre m ms p ps b bs Hs Hc IH]; intros [|n]; simpl.
  - exists pre. constructor.
  - exists pre. constructor.
  - exists pre. by constructor.
  - apply IH.
Qed.

Lemma avail_eq : AVAIL_BLOCK_SIZE + FOOTER_SIZE = BLOCK_SIZE.
Proof. pose proof footer_fits. unfold AVAIL_BLOCK_SIZE. lia. Qed.

(** The block [append] builds is sealed. *)
Lemma seal_ok k iv pre p block0 c m :
  length block0 = BLOCK_SIZE → length p ≤ AVAIL_BLOCK_SIZE →
  aead_encrypt p k iv (mac_bytes pre) = Ok (c, m) →
  sealed k pre p m (splice (splice block0 0 c) AVAIL_BLOCK_SIZE
                      (footer_bytes (mkFooter A (length p) pre m iv))).
Proof.
  intros Hb Hp He. pose proof avail_eq as Hav. pose proof footer_fits as [_ H32].
  pose proof (encrypt_length _ _ _ _ _ _ He) as Hc.
  set (f := mkFooter A (length p) pre m iv).
  assert (Hb1 : length (splice block0 0 c) = BLOCK_SIZE) by (rewrite splice_length; lia).
  pose proof (footer_bytes_length f) as Hf.
  set (b := splice (splice block0 0 c) AVAIL_BLOCK_SIZE (footer_bytes f)).
  assert (Hb2 : length b = BLOCK_SIZE) by (unfold b; rewrite splice_length; lia).
  assert (Hfoot : block_footer b = f).
  { unfold block_footer.
    assert (drop AVAIL_BLOCK_SIZE b = footer_bytes f) as ->.
    { pose proof (splice_read (splice block0 0 c) AVAIL_BLOCK_SIZE (footer_bytes f) ltac:(lia)) as Hr.
      fold b in Hr. rewrite take_ge in Hr; [done|]. rewrite length_drop. lia. }
    apply footer_roundtrip. simpl. lia. }
  unfold sealed. rewrite Hfoot. simpl. split_and!; try done.
  assert (take (length p) b = c) as ->; [|by eapply decrypt_encrypt].
  unfold b. transitivity (take (length p) (take AVAIL_BLOCK_SIZE (splice (splice block0 0 c) AVAIL_BLOCK_SIZE (footer_bytes f)))).
  { rewrite take_take. f_equal. lia. }
  rewrite splice_take by lia. rewrite take_take, Nat.min_l by lia.
  pose proof (splice_read block0 0 c ltac:(lia)) as Hr. rewrite drop_0 in Hr. by rewrite <- Hc.
Qed.
End sealed.

Section chain_spec.
Context {A : Aead} {HA : AeadSpec A} {F : FooterPod A} {HF : FooterPodSpec A F}.
Context {P : Pages} {HP : PagesSpec P} {L : Type} {HL : BlockLog L} {HLS : BlockLogSpec L}.
Implicit Types c : CryptoChain L.

(** The chain holds the payloads [ps] at its accessible positions. *)
Definition chain_ok c (ps : list (list byte)) : Prop :=
  ∃ pre bs, bl_holds (block_log c) (range_start c) bs ∧
    range_end c = range_start c + length ps ∧ bl_at (block_log c) (range_end c) ∧
    sealed_chain (key c) pre (block_macs c) ps bs.

(** The chain without the blocks before [b]: what [trim] and recovery from [b] give. *)
Definition chain_from c (b : nat) : CryptoChain L :=
  mkCryptoChain (block_log c) (key c) b (range_end c) (drop (b - range_start c) (block_macs c)).

(** What [append] does to the log: the new block is sealed after the last MAC. *)
Lemma append_raw c iv p lo bs :
  bl_holds (block_log c) lo bs → bl_at (block_log c) (lo + length bs) →
  length p ≤ AVAIL_BLOCK_SIZE → length bs < bl_room (block_log c) →
  ∃ log' b m,
    append c iv p = Ok (mkCryptoChain log' (key c) (range_start c) (range_end c + 1) (block_macs c ++ [m])) ∧
    sealed (key c) (default mac_default (last (block_macs c))) p m b ∧
    bl_holds log' lo (bs ++ [b]) ∧ bl_at log' (lo + length bs + 1) ∧
    bl_room log' = bl_room (block_log c).
Proof.
  intros Hh Hat Hp Hroom. pose proof avail_eq as Hav.
  unfold append. rewrite (proj2 (Nat.ltb_ge _ _)) by done.
  destruct (Buf_alloc_ok 0 1 ltac:(lia)) as (blk & -> & Hblk). bind_step.
  set (pm := default mac_default (last (block_macs c))).
  destruct (encrypt_total p (key c) iv (mac_bytes pm)) as (ct & m & He). rewrite He. bind_step.
  pose proof (encrypt_length _ _ _ _ _ _ He) as Hct.
  rewrite copy_from_slice_ok by lia. bind_step.
  rewrite copy_from_slice_ok; [|done|rewrite footer_bytes_length, splice_length; lia
                               |rewrite splice_length; lia].
  bind_step.
  pose proof (seal_ok (key c) iv pm p blk ct m ltac:(lia) Hp He) as Hseal.
  set (blk' := splice _ AVAIL_BLOCK_SIZE _) in *.
  destruct (bl_append_ok (block_log c) lo bs blk' Hh Hat (proj1 Hseal) Hroom) as (l' & Hap & Hh' & Hat' & Hr').
  rewrite Hap. bind_step. exists l', blk', m. by do 3 (split; [done|]).
Qed.

Lemma chain_append_ok c iv ps p :
  chain_ok c ps → length p ≤ AVAIL_BLOCK_SIZE → length ps < bl_room (block_log c) →
  ∃ c', append c iv p = Ok c' ∧ chain_ok c' (ps ++ [p]) ∧ range_start c' = range_start c ∧
        key c' = key c ∧ bl_room (block_log c') = bl_room (block_log c).
Proof.
  intros (pre & bs & Hh & Hend & Hat & Hsc) Hp Hroom.
  destruct (sealed_chain_lengths _ _ _ _ _ Hsc) as [Hlm Hlb].
  destruct (append_raw c iv p (range_start c) bs) as (l' & b & m & Hap & Hs & Hh' & Hat' & Hr');
    [done|by rewrite Hlb, <- Hend|done|by rewrite Hlb|].
  eexists. split; [exact Hap|]. split; [|done].
  rewrite Hlb in Hat'.
  destruct (decide (block_macs c = [])) as [Em|Em].
  - rewrite Em in Hsc. inversion Hsc; subst ps bs. exists mac_default. eexists. split; [exact Hh'|].
    split; [simpl in *; lia|]. split; [cbn in *; by rewrite Hend|].
    cbn [block_macs key]. rewrite Em in *. constructor; [exact Hs|constructor].
  - exists pre. eexists. split; [exact Hh'|]. split; [simpl; rewrite length_app; simpl; lia|].
    split; [cbn; by rewrite Hend|]. cbn [block_macs key]. apply sealed_chain_snoc; [done|].
    destruct (last (block_macs c)) eqn:El; [exact Hs|]. apply last_None in El. congruence.
Qed.

(** Appending to a log whose window may be full: the new block alone is kept. *)
Lemma append_over c iv p ps :
  chain_ok c ps → length p ≤ AVAIL_BLOCK_SIZE → 0 < bl_room (block_log c) →
  ∃ c', append c iv p = Ok c' ∧ range_start c' = range_start c ∧ range_end c' = range_end c + 1 ∧
        key c' = key c ∧ bl_room (block_log c') = bl_room (block_log c) ∧
        chain_ok (chain_from c' (range_end c)) [p] ∧
        (ps ≠ [] → trim c' (range_end c) = Ok (chain_from c' (range_end c))).
Proof.
  intros (pre & bs & Hh & Hend & Hat & Hsc) Hp Hroom.
  destruct (sealed_chain_lengths _ _ _ _ _ Hsc) as [Hlm Hlb].
  pose proof (bl_shrink _ _ _ (length bs) Hh ltac:(lia)) as Hh0.
  rewrite drop_ge, Hlb, <- Hend in Hh0 by lia.
  destruct (append_raw c iv p (range_end c) []) as (l' & b & m & Hap & Hs & Hh' & Hat' & Hr');
    [done|simpl; by rewrite Nat.add_0_r|done|done|].
  eexists. split; [exact Hap|]. do 4 (split; [done|]). split.
  - eexists _, [b]. cbn in *. split; [done|]. split; [done|]. split; [by rewrite Nat.add_0_r in Hat'|].
    rewrite drop_app_length' by lia. constructor; [exact Hs|constructor].
  - intros Hne. destruct ps as [|p0 ps]; [done|]. cbn in Hend, Hlm. unfold trim, chain_from.
    cbn [range_end range_start block_macs block_log key].
    rewrite (proj2 (Nat.ltb_lt (range_end c) _)) by lia. cbn [assert_]. bind_step.
    rewrite (proj2 (Nat.leb_gt _ _)) by lia.
    by rewrite (proj2 (Nat.ltb_ge _ _)) by (rewrite length_app; simpl; lia).
Qed.

Lemma chain_read_ok c ps i p buf_len :
  chain_ok c ps → ps !! i = Some p → length p ≤ buf_len →
  read c (range_start c + i) buf_len = Ok p.
Proof.
  intros (pre & bs & Hh & Hend & Hat & Hsc) Hi Hlen. pose proof avail_eq as Hav.
  destruct (sealed_chain_lookup _ _ _ _ _ _ _ Hsc Hi) as (m & b & Hm & Hb & Hbl & Hp & Hfl & Hpre & Hmac & Hdec).
  pose proof (lookup_lt_Some _ _ _ Hi). unfold read.
  rewrite (proj2 (Nat.leb_le _ _)), (proj2 (Nat.ltb_lt _ _)) by lia. cbn [andb negb].
  destruct (Buf_alloc_ok 0 1 ltac:(lia)) as (blk & -> & _). bind_step.
  rewrite (bl_read_ok _ _ _ _ _ Hh Hb). bind_step. rewrite slice_ok by lia. bind_step.
  rewrite take_ge by (rewrite length_drop; lia). fold (block_footer b). rewrite Hfl.
  rewrite (proj2 (Nat.ltb_ge _ _)), (proj2 (Nat.ltb_ge _ _)) by lia. cbn [orb].
  replace (range_start c + i - range_start c) with i by lia. rewrite Hm. cbn [unwrap]. bind_step.
  rewrite Hmac, bool_decide_eq_true_2 by done. cbn [negb]. rewrite slice_ok by lia. bind_step.
  rewrite drop_0, Nat.sub_0_r, Hpre. exact Hdec.
Qed.

Lemma read_out c pos n :
  pos < range_start c ∨ range_end c ≤ pos → read c pos n = Err NotFound.
Proof.
  intros Hr. unfold read. destruct (range_start c <=? pos) eqn:E1, (pos <? range_end c) eqn:E2;
    bool_simpl; try done. lia.
Qed.

Lemma chain_from_ok c ps b :
  chain_ok c ps → range_start c ≤ b ≤ range_end c → chain_ok (chain_from c b) (drop (b - range_start c) ps).
Proof.
  intros (pre & bs & Hh & Hend & Hat & Hsc) Hb.
  destruct (sealed_chain_lengths _ _ _ _ _ Hsc) as [Hlm Hlb].
  destruct (sealed_chain_drop _ _ _ _ _ (b - range_start c) Hsc) as [pre' Hsc'].
  exists pre', (drop (b - range_start c) bs). cbn. split.
  - replace b with (range_start c + (b - range_start c)) at 1 by lia. apply bl_shrink; [done|lia].
  - split; [rewrite length_drop; lia|]. by split.
Qed.

Lemma trim_ok c ps b :
  chain_ok c ps → range_start c ≤ b < range_end c → trim c b = Ok (chain_from c b).
Proof.
  intros (pre & bs & Hh & Hend & Hat & Hsc) Hb. destruct (sealed_chain_lengths _ _ _ _ _ Hsc) as [Hlm Hlb].
  unfold trim, chain_from. rewrite (proj2 (Nat.ltb_lt b (range_end c))) by lia. cbn [assert_]. bind_step.
  destruct (b <=? range_start c) eqn:E; bool_simpl.
  - assert (b = range_start c) as -> by lia. rewrite Nat.sub_diag, drop_0. by destruct c.
  - by rewrite (proj2 (Nat.ltb_ge _ _)) by lia.
Qed.

Lemma next_ok (r : CryptoChain L) (m0 m : Mac) p b lo bs :
  bl_holds (block_log r) lo bs → bs !! (range_end r - lo) = Some b → lo ≤ range_end r →
  last (block_macs r) = None ∨ last (block_macs r) = Some m0 →
  sealed (key r) m0 p m b →
  next r = Ok (Some (p, mkCryptoChain (block_log r) (key r) (range_start r) (range_end r + 1)
                          (block_macs r ++ [m]))).
Proof.
  intros Hh Hb Hlo Hlast (Hbl & Hp & Hfl & Hpre & Hmac & Hdec). pose proof avail_eq as Hav.
  pose proof (bl_read_ok _ _ _ _ _ Hh Hb) as Hread.
  replace (lo + (range_end r - lo)) with (range_end r) in Hread by lia.
  unfold next. rewrite Hread. rewrite slice_ok by lia. bind_step.
  rewrite take_ge by (rewrite length_drop; lia). fold (block_footer b). rewrite Hfl.
  rewrite (proj2 (Nat.ltb_ge _ _)) by lia. rewrite slice_ok by lia. bind_step.
  rewrite drop_0, Nat.sub_0_r, Hpre, Hmac, Hdec. destruct Hlast as [-> | ->].
  - done.
  - by rewrite bool_decide_eq_true_2.
Qed.

Lemma recover_n_ok (log : L) k lo ms0 : ∀ ps pre ms bs0 bs e,
  bl_holds log lo (bs0 ++ bs) → e = lo + length bs0 →
  (last ms0 = None ∨ last ms0 = Some pre) → sealed_chain k pre ms ps bs →
  recover_n (length ps) (mkCryptoChain log k lo e ms0) =
    Ok (ps, mkCryptoChain log k lo (e + length ps) (ms0 ++ ms)).
Proof.
  intros ps. revert ms0. induction ps as [|p ps IH]; intros ms0 pre ms bs0 bs e Hh -> Hlast Hsc.
  { inversion Hsc; subst. simpl. by rewrite app_nil_r, Nat.add_0_r. }
  inversion Hsc as [|? m ms' ? ? b bs' Hs Hsc']; subst. cbn [length recover_n].
  rewrite (next_ok _ pre m p b lo (bs0 ++ b :: bs')); simpl; try done; try lia.
  2:{ rewrite lookup_app_r by lia. by replace (lo + length bs0 - lo - length bs0) with 0 by lia. }
  bind_step. rewrite (IH (ms0 ++ [m]) m ms' (bs0 ++ [b]) bs').
  - bind_step. rewrite <- app_assoc. simpl. by rewrite <- Nat.add_assoc.
  - by rewrite <- app_assoc.
  - rewrite length_app. simpl. lia.
  - right. by rewrite last_snoc.
  - done.
Qed.

Lemma chain_recover_ok c ps b :
  chain_ok c ps → range_start c ≤ b ≤ range_end c →
  recover_n (range_end c - b) (Recovery_new (block_log c) (key c) b) =
    Ok (drop (b - range_start c) ps, chain_from c b).
Proof.
  intros Hc Hb. destruct (chain_from_ok c ps b Hc Hb) as (pre & bs & Hh & Hend & Hat & Hsc). cbn in *.
  pose proof (recover_n_ok (block_log c) (key c) b [] (drop (b - range_start c) ps) pre
                (drop (b - range_start c) (block_macs c)) [] bs b Hh ltac:(simpl; lia) (or_introl eq_refl) Hsc) as Hr.
  replace (range_end c - b) with (length (drop (b - range_start c) ps)) by lia.
  unfold Recovery_new. rewrite Hr. unfold chain_from. simpl. by rewrite <- Hend.
Qed.
End chain_spec.

(** ** The block ring provides what the chain needs *)
Section ring_log_spec.
Context {D St : Type} {HS : BlockSet D St} {HSS : BlockSetSpec D St}.

Definition ring_holds (l : BlockRing D * St) (lo : nat) (bs : list (list byte)) : Prop :=
  let d := br_storage l.1 in
  bs_valid d l.2 ∧ 0 < bs_nblocks d ∧ length bs ≤ bs_nblocks d ∧
  ∀ i b, bs !! i = Some b → bs_block d l.2 ((lo + i) mod bs_nblocks d) = b.

Lemma ring_holds_read l lo bs i b :
  ring_holds l lo bs → bs !! i = Some b → BlockRing_read l.1 l.2 (lo + i) 1 = Ok b.
Proof.
  destruct l as [r s]. intros (Hv & Hn & _ & Hw) Hb. cbn in *. unfold BlockRing_read, ring_pos.
  rewrite (proj2 (Nat.eqb_neq _ _)) by lia. bind_step.
  rewrite bs_read_one by (try done; apply Nat.mod_upper_bound; lia). f_equal. by apply Hw.
Qed.

Lemma ring_holds_append l lo bs b :
  ring_holds l lo bs → br_cursor l.1 = Some (lo + length bs) → length b = BLOCK_SIZE →
  length bs < bs_nblocks (br_storage l.1) →
  ∃ l', BlockRing_append l.1 l.2 b = Ok (lo + length bs, l') ∧ ring_holds l' lo (bs ++ [b]) ∧
        br_cursor l'.1 = Some (lo + length bs + 1) ∧ br_storage l'.1 = br_storage l.1.
Proof.
  destruct l as [r s]. intros (Hv & Hn & Hl & Hw) Hc Hb Hroom. cbn [fst snd] in *.
  unfold BlockRing_append, ring_pos. rewrite Hc. cbn [unwrap]. bind_step.
  rewrite (proj2 (Nat.eqb_neq _ _)) by lia. bind_step.
  set (n := bs_nblocks (br_storage r)) in *. set (e := lo + length bs).
  pose proof BLOCK_SIZE_pos. assert (Hbuf : is_buf 1 b) by (split; lia).
  pose proof (Nat.mod_upper_bound e n ltac:(lia)).
  destruct (bs_write_ok (br_storage r) s (e mod n) 1 b) as (s' & -> & Hv' & Hblk);
    [done..|fold n; lia|].
  bind_step. eexists. split; [done|].
  split; [|split; [cbn; by rewrite (nblocks_of_is_buf 1) by done|done]].
  split; [done|]. split; [done|]. cbn. fold n. split; [rewrite length_app; simpl; lia|].
  intros i c Hi. pose proof (Nat.mod_upper_bound (lo + i) n ltac:(lia)).
  rewrite Hblk by done. pose proof (lookup_lt_Some _ _ _ Hi) as Hil. rewrite length_app in Hil. simpl in Hil.
  destruct (decide (i = length bs)) as [->|Hne].
  - rewrite lookup_app_r, Nat.sub_diag in Hi by lia. injection Hi as <-. fold e.
    rewrite (proj2 (Nat.leb_le _ _)), (proj2 (Nat.ltb_lt _ _)), Nat.sub_diag by lia.
    unfold nth_block. simpl. by rewrite drop_0, take_ge by lia.
  - rewrite lookup_app_l in Hi by lia.
    pose proof (mod_window_inj (lo + i) e n Hn ltac:(unfold e; lia) ltac:(unfold e; lia)).
    rewrite (proj2 (andb_false_iff _ _)) by (rewrite Nat.leb_gt, Nat.ltb_ge; lia). by apply Hw.
Qed.

Lemma ring_holds_shrink l lo bs k :
  ring_holds l lo bs → k ≤ length bs → ring_holds l (lo + k) (drop k bs).
Proof.
  intros (Hv & Hn & Hl & Hw) Hk. split; [done|]. split; [done|].
  split; [rewrite length_drop; lia|]. intros i b Hi. rewrite lookup_drop in Hi.
  rewrite <- Nat.add_assoc. by apply Hw.
Qed.

#[export] Instance BlockRing_BlockLogSpec : BlockLogSpec (BlockRing D * St) := {|
  bl_holds := ring_holds;
  bl_at l n := br_cursor l.1 = Some n;
  bl_room l := bs_nblocks (br_storage l.1);
  bl_read_ok := ring_holds_read;
  bl_append_ok l lo bs b H1 H2 H3 H4 :=
    let '(ex_intro _ l' (conj Ha (conj Hh (conj Hc Hs)))) := ring_holds_append l lo bs b H1 H2 H3 H4 in
    ex_intro _ l' (conj Ha (conj Hh (conj Hc (f_equal bs_nblocks Hs))));
  bl_shrink := ring_holds_shrink;
|}.
End ring_log_spec.

(** ** Recovery from an untrusted log *)
Section authenticity.
Context {A : Aead} {F : FooterPod A} {P : Pages} {L : Type} {HL : BlockLog L}.

(** What the chain appended, in order: the payloads and their MACs. *)
Definition prev_mac (hist : list (list byte * Mac)) (i : nat) : Mac :=
  match i with 0 => mac_default | S j => default mac_default (snd <$> hist !! j) end.

(** The medium may lose, move, repeat and alter blocks, but not forge one: a block
    that decrypts under the key is one of [hist]. *)
Definition unforged (log : L) (k : Key) (hist : list (list byte * Mac)) : Prop :=
  ∀ pos b p, bl_read log pos 1 = Ok b →
    let f := block_footer b in
    aead_decrypt (take (f_len f) b) k (f_this_iv f) (mac_bytes (f_pre_mac f)) (f_this_mac f) = Ok p →
    ∃ i, hist !! i = Some (p, f_this_mac f) ∧ f_pre_mac f = prev_mac hist i.

Lemma next_authentic (r r' : CryptoChain L) hist p :
  unforged (block_log r) (key r) hist → NoDup (mac_default :: hist.*2) →
  next r = Ok (Some (p, r')) →
  block_log r' = block_log r ∧ key r' = key r ∧
  ∃ i m, hist !! i = Some (p, m) ∧ block_macs r' = block_macs r ++ [m] ∧
    ∀ j q m', last (block_macs r) = Some m' → hist !! j = Some (q, m') → i = S j.
Proof.
  intros Huf Hnd Hn. unfold next in Hn.
  destruct (bl_read (block_log r) (range_end r) 1) as [b| |] eqn:Hb; try done.
  apply bind_inv in Hn as (fb & Hs & Hn).
  apply slice_inv in Hs as (_ & Hle & ->). rewrite take_ge in Hn by (rewrite length_drop; lia).
  fold (block_footer b) in Hn. set (f := block_footer b) in *.
  destruct (AVAIL_BLOCK_SIZE <? f_len f); [done|].
  apply bind_inv in Hn as (inp & Hi & Hn).
  apply slice_inv in Hi as (_ & Hfl & ->). rewrite Nat.sub_0_r, drop_0 in Hn.
  destruct (aead_decrypt _ _ _ _ _) as [p'| |] eqn:Hd; [|done..].
  destruct (Huf _ _ _ Hb Hd) as (i & Hi & Hpre). fold f in Hi, Hpre.
  destruct (negb _) eqn:Hch; [done|]. injection Hn as <- <-.
  split; [done|]. split; [done|]. exists i, (f_this_mac f). split; [done|]. split; [done|].
  intros j q m' Hl Hj. rewrite Hl in Hch.
  apply negb_false_iff, bool_decide_eq_true in Hch. rewrite Hpre in Hch.
  apply NoDup_cons in Hnd as [Hd0 Hnd].
  assert (Hj2 : hist.*2 !! j = Some m') by (by rewrite list_lookup_fmap, Hj).
  destruct i as [|i]; simpl in Hch.
  { subst m'. destruct Hd0. by eapply list_elem_of_lookup_2. }
  pose proof (lookup_lt_Some _ _ _ Hi). destruct (lookup_lt_is_Some_2 hist i ltac:(lia)) as [[q2 m2] Hi2].
  rewrite Hi2 in Hch. simpl in Hch. subst m'. f_equal.
  eapply (NoDup_lookup _ i j); [exact Hnd| |exact Hj2]. by rewrite list_lookup_fmap, Hi2.
Qed.

Lemma last_segment_short {B} (l : list B) i j x :
  NoDup l → l !! i = Some x → j < length (drop (S i) l) →
  last (x :: take j (drop (S i) l)) = last l → False.
Proof.
  intros Hnd Hx Hj Hl. pose proof (lookup_lt_Some _ _ _ Hx). rewrite length_drop in Hj.
  change (x :: take j (drop (S i) l)) with (take (S j) (x :: drop (S i) l)) in Hl.
  rewrite <- (drop_S _ _ _ Hx), !last_lookup, length_take, length_drop in Hl.
  rewrite lookup_take_lt, lookup_drop in Hl by lia.
  destruct (lookup_lt_is_Some_2 l (i + pred (S j `min` (length l - i))) ltac:(lia)) as [y Hy].
  pose proof (NoDup_lookup l _ (pred (length l)) y Hnd Hy ltac:(congruence)). lia.
Qed.

(** Recovered blocks follow each other in [hist]. *)
Lemma recover_segment hist k (log : L) : ∀ n (r r' : CryptoChain L) ps i q m,
  unforged log k hist → NoDup (mac_default :: hist.*2) →
  block_log r = log → key r = k → last (block_macs r) = Some m → hist !! i = Some (q, m) →
  recover_n n r = Ok (ps, r') →
  block_macs r' = block_macs r ++ (take (length ps) (drop (S i) hist)).*2 ∧
  ps = (take (length ps) (drop (S i) hist)).*1.
Proof.
  induction n as [|n IH]; intros r r' ps i q m Huf Hnd Hlog Hk Hl Hi Hr; cbn [recover_n] in Hr.
  { injection Hr as <- <-. simpl. by rewrite app_nil_r. }
  apply bind_inv in Hr as ([[p r1]|] & Hn & Hr).
  2:{ injection Hr as <- <-. simpl. by rewrite app_nil_r. }
  apply bind_inv in Hr as ([ps1 r2] & Hr & Hret). injection Hret as <- <-.
  destruct (next_authentic r r1 hist p) as (Hlog1 & Hk1 & i1 & m1 & Hi1 & Hm1 & Hs); [by subst|done..|].
  rewrite (Hs _ _ _ Hl Hi) in Hi1.
  destruct (IH r1 r2 ps1 (S i) p m1) as [Hm2 Hps]; try done; try congruence.
  { by rewrite Hm1, last_snoc. }
  rewrite Hm2, Hm1, <- app_assoc. cbn [length]. rewrite (drop_S _ _ _ Hi1). cbn [take fmap list_fmap].
  split; [done|]. cbn. by f_equal.
Qed.
End authenticity.

(** * Claims *)

(** C27: a crypto chain that accessibly holds [ps] accepts one more payload while its log has
    room: every payload then reads back, in place, and only those; and for every
    accessible position [b], trimming to [b] and recovering from [b] with the key
    give the same chain, holding the payloads from [b] on. *)
Theorem chain_roundtrip {A : Aead} {HA : AeadSpec A} {F : FooterPod A} {HF : FooterPodSpec A F}
    {P : Pages} {HP : PagesSpec P} {L : Type} {HL : BlockLog L} {HLS : BlockLogSpec L}
    (c : CryptoChain L) (ps : list (list byte)) (iv : Iv) (p : list byte) :
  chain_ok c ps → length p ≤ AVAIL_BLOCK_SIZE → length ps < bl_room (block_log c) →
  ∃ c', append c iv p = Ok c' ∧ chain_ok c' (ps ++ [p]) ∧ bl_room (block_log c') = bl_room (block_log c) ∧
    (∀ i q n, (ps ++ [p]) !! i = Some q → length q ≤ n → read c' (range_start c + i) n = Ok q) ∧
    (∀ pos n, pos < range_start c ∨ range_start c + length ps < pos → read c' pos n = Err NotFound) ∧
    (∀ i, i ≤ length ps → let b := range_start c + i in
       trim c' b = Ok (chain_from c' b) ∧
       recover_n (S (length ps) - i) (Recovery_new (block_log c') (key c') b) =
         Ok (drop i (ps ++ [p]), chain_from c' b) ∧
       chain_ok (chain_from c' b) (drop i (ps ++ [p]))).
Proof.
  intros Hc Hp Hroom. destruct (chain_append_ok c iv ps p Hc Hp Hroom) as (c' & Ha & Hc' & Hs & Hk & Hr).
  assert (Hend : range_end c' = range_start c + S (length ps)).
  { destruct Hc' as (? & ? & _ & -> & _). rewrite length_app. simpl. lia. }
  exists c'. split; [done|]. split; [done|]. split; [done|]. split; [|split].
  - intros i q n Hi Hn. rewrite <- Hs. by eapply chain_read_ok.
  - intros pos n Hpos. apply read_out. lia.
  - intros i Hi b. assert (Hbi : b - range_start c' = i) by (unfold b; lia). split; [|split].
    + eapply trim_ok; [done|unfold b; lia].
    + replace (S (length ps) - i) with (range_end c' - b) by (unfold b; lia).
      rewrite (chain_recover_ok c' (ps ++ [p])) by (try done; unfold b; lia). by rewrite Hbi.
    + rewrite <- Hbi. apply chain_from_ok; [done|unfold b; lia].
Qed.

(** C9: recovery authenticates: from a log an attacker may have cut, reordered, replayed or
    altered but not forged, whatever [Recovery] accepts is a run of consecutive
    blocks of the chain's history, so when the last MAC is the expected one the
    recovered payloads are exactly the history's last ones. *)
Theorem recovery_authentic {A : Aead} {F : FooterPod A} {L : Type} {HL : BlockLog L}
    (log : L) (k : Key) (hist : list (list byte * Mac)) (from n : nat) (ps : list (list byte))
    (r : CryptoChain L) :
  unforged log k hist → NoDup (mac_default :: hist.*2) →
  recover_n n (Recovery_new log k from) = Ok (ps, r) →
  ∃ s, ps = (take (length ps) (drop s hist)).*1 ∧
       block_macs r = (take (length ps) (drop s hist)).*2 ∧
       (ps ≠ [] → last (block_macs r) = last (hist.*2) → ps = (drop s hist).*1).
Proof.
  intros Huf Hnd Hr. destruct n as [|n]; cbn [recover_n] in Hr.
  { injection Hr as <- <-. by exists 0. }
  apply bind_inv in Hr as ([[p r1]|] & Hn & Hr).
  2:{ injection Hr as <- <-. by exists 0. }
  apply bind_inv in Hr as ([ps1 r2] & Hr & Hret). injection Hret as <- <-.
  destruct (next_authentic (Recovery_new log k from) r1 hist p Huf Hnd Hn) as (Hlog1 & Hk1 & i & m & Hi & Hm & _).
  cbn in Hm, Hlog1, Hk1.
  destruct (recover_segment hist k log n r1 r2 ps1 i p m) as [Hm2 Hps]; try done; [by rewrite Hm|].
  exists i. rewrite (drop_S _ _ _ Hi). cbn [length take fmap list_fmap]. rewrite Hm2, Hm. cbn.
  split; [by f_equal|]. split; [done|]. intros _ Hlast. f_equal. rewrite Hps at 1. f_equal.
  apply take_ge. destruct (decide (length (drop (S i) hist) ≤ length ps1)) as [|Hlt]; [done|].
  exfalso. apply NoDup_cons in Hnd as [_ Hnd].
  apply (last_segment_short (hist.*2) i (length ps1) m Hnd).
  - by rewrite list_lookup_fmap, Hi.
  - rewrite <- fmap_drop, length_fmap. lia.
  - by rewrite <- fmap_drop, <- fmap_take, <- Hlast.
Qed.

(** ** A concrete AEAD, for the witnesses *)
Module ToyAead.
(** The cipher adds the key to each byte; the MAC is a polynomial hash. *)
Definition toy_mac (k iv : Z) (p aad : list Z) : Z :=
  fold_left (λ h b, ((h * 65599 + b + 7) mod 1000000007)%Z) (k :: iv :: Z.of_nat (length p) :: p ++ aad) 5381%Z.

#[local] Instance toy : Aead := {|
  Key := Z; Iv := Z; Mac := Z;
  mac_default := 0%Z;
  mac_bytes m := [m];
  aead_encrypt p k iv aad := Ok (map (λ b, (b + k)%Z) p, toy_mac k iv p aad);
  aead_decrypt c k iv aad m :=
    let p := map (λ b, (b - k)%Z) c in
    if decide (m = toy_mac k iv p aad) then Ok p else Err DecryptFailed;
|}.

Lemma shift_back (p : list Z) (k : Z) : map (λ b, (b - k)%Z) (map (λ b, (b + k)%Z) p) = p.
Proof. rewrite map_map. induction p as [|b p IH]; [done|]. simpl. f_equal; [lia|done]. Qed.

#[local] Instance toy_spec : AeadSpec toy.
Proof.
  split.
  - intros. by do 2 eexists.
  - intros p k iv aad c m [= <- <-]. apply length_map.
  - intros p k iv aad c m [= <- <-]. simpl. rewrite shift_back. by rewrite decide_True.
  - intros p k iv aad c m. simpl. case_decide as Hm; [|done]. intros [= <-]. subst m. do 2 f_equal.
    rewrite map_map. clear. induction c as [|b c IH]; [done|]. simpl. f_equal; [lia|done].
  - intros k iv aad c m. simpl. by case_decide.
Qed.

#[local] Instance toy_footer : FooterPod toy := {|
  footer_bytes f := [Z.of_nat (f_len f); f_pre_mac f; f_this_mac f; f_this_iv f]
                    ++ replicate 44 0%Z;
  footer_from_bytes l := mkFooter toy (Z.to_nat (default 0%Z (l !! 0))) (default 0%Z (l !! 1))
                           (default 0%Z (l !! 2)) (default 0%Z (l !! 3));
|}.

#[local] Instance toy_footer_spec : FooterPodSpec toy toy_footer.
Proof. split; [done|]. intros [n pm tm iv] _. simpl. by rewrite Nat2Z.id. Qed.

Definition ring : BlockRing MemDisk * list byte := (set_cursor (BlockRing_new demo_all) 0, demo_disk).
Definition empty_chain : CryptoChain (BlockRing MemDisk * list byte) := CryptoChain_new ring 5%Z.

Lemma empty_chain_ok : chain_ok empty_chain [].
Proof.
  exists 0%Z, []. split; [|split; [done|split; [done|constructor]]].
  split; [apply demo_valid; simpl; lia|]. cbn. unfold MemDisk_nblocks. cbn. split; [lia|]. split; [lia|].
  intros i b Hb. by rewrite lookup_nil in Hb.
Qed.

(** One payload appended to an in-memory log of one block. *)
Definition one_chain : CryptoChain MemLog :=
  match append (P := zero_pages) (CryptoChain_new (mkMemLog (demo_block 0) 0) 5%Z) 7%Z [1; 2; 3]%Z with
  | Ok c => c
  | _ => CryptoChain_new (mkMemLog [] 0) 5%Z
  end.
Definition one_hist : list (list byte * Z) := [([1; 2; 3]%Z, toy_mac 5 7 [1; 2; 3] [0])%Z].

Definition one_block : list byte :=
  match MemLog_read (block_log one_chain) 0 1 with Ok b => b | _ => [] end.

Lemma memlog_read_past l pos b : MemLog_read l pos 1 = Ok b → pos < ml_append_pos l.
Proof.
  unfold MemLog_read. intros Hb. apply bind_inv in Hb as (e & He & Hb). apply uadd_inv in He as ->.
  destruct (ml_append_pos l <? pos + 1) eqn:E; [done|]. bool_simpl. lia.
Qed.

Lemma memlog_one_unforged (l : MemLog) (k : Z) hist b p :
  ml_append_pos l = 1 → MemLog_read l 0 1 = Ok b →
  (let f := block_footer b in
   aead_decrypt (take (f_len f) b) k (f_this_iv f) (mac_bytes (f_pre_mac f)) (f_this_mac f) = Ok p) →
  hist !! 0 = Some (p, f_this_mac (block_footer b)) → f_pre_mac (block_footer b) = mac_default →
  unforged l k hist.
Proof.
  intros H1 Hb0 Hd0 Hh Hp pos b' p' Hb f Hd. change (MemLog_read l pos 1 = Ok b') in Hb.
  destruct pos as [|pos]; [|by apply memlog_read_past in Hb; lia].
  exists 0. rewrite Hb in Hb0. injection Hb0 as ->.
  cbv zeta in Hd0. assert (Ok p = Ok p') as [= ->] by exact (eq_trans (eq_sym Hd0) Hd).
  exact (conj Hh Hp).
Qed.

Lemma one_unforged : unforged (block_log one_chain) 5%Z one_hist.
Proof. apply (memlog_one_unforged _ _ _ one_block [1; 2; 3]%Z); vm_compute; reflexivity. Qed.

Lemma one_recovered :
  match recover_n 5 (Recovery_new (block_log one_chain) 5%Z 0) with
  | Ok (ps, r) => length ps = 1 ∧ block_macs r = one_hist.*2
  | _ => False
  end.
Proof. vm_compute. split; reflexivity. Qed.
End ToyAead.

Lemma chain_roundtrip_witness :
  ∃ c', append (A := ToyAead.toy) (F := ToyAead.toy_footer) (P := zero_pages) ToyAead.empty_chain 7%Z [1; 2; 3]%Z = Ok c' ∧
    read (A := ToyAead.toy) (F := ToyAead.toy_footer) (P := zero_pages) c' 0 10 = Ok [1; 2; 3]%Z.
Proof.
  destruct (chain_roundtrip (HA := ToyAead.toy_spec) (HF := ToyAead.toy_footer_spec)
              (HP := zero_pages_spec) ToyAead.empty_chain [] 7%Z [1; 2; 3]%Z)
    as (c' & Ha & _ & _ & Hr & _).
  - exact ToyAead.empty_chain_ok.
  - apply Nat.leb_le. vm_compute. reflexivity.
  - apply Nat.ltb_lt. vm_compute. reflexivity.
  - exists c'. split; [exact Ha|]. apply (Hr 0); [reflexivity|]. simpl. lia.
Defined.

Lemma recovery_authentic_witness :
  ∃ ps r, recover_n (A := ToyAead.toy) (F := ToyAead.toy_footer) 5
            (Recovery_new (A := ToyAead.toy) (block_log ToyAead.one_chain) 5%Z 0) = Ok (ps, r) ∧
          ps = [[1; 2; 3]]%Z.
Proof.
  pose proof ToyAead.one_recovered as Ht.
  destruct (recover_n (A := ToyAead.toy) (F := ToyAead.toy_footer) 5
              (Recovery_new (A := ToyAead.toy) (block_log ToyAead.one_chain) 5%Z 0)) as [[ps r]| |] eqn:E; [|destruct Ht..].
  - exists ps, r. split; [reflexivity|]. destruct Ht as [Hlen Hm].
    destruct (recovery_authentic (A := ToyAead.toy) (F := ToyAead.toy_footer) (block_log ToyAead.one_chain) 5%Z ToyAead.one_hist 0 5 ps r)
      as ([|s] & Hps & _ & Hlast).
    + exact ToyAead.one_unforged.
    + refine (@bool_decide_unpack (NoDup (0%Z :: ToyAead.one_hist.*2)) _ _). vm_compute. exact I.
    + exact E.
    + apply Hlast; [intros ->; discriminate Hlen|]. by rewrite Hm.
    + rewrite Hlen in Hps. destruct s; simpl in Hps; subst ps; discriminate Hlen.
Defined.
