(* ===== verification/CryptoBlob.v ===== *)
(** * CryptoBlob: [core/src/layers/1-crypto/crypto_blob.rs]

    A blob keeps one encrypted, versioned payload in a fixed block set.  Keys are
    arguments of [create] (the source draws them at random); the bytes of a header
    and the IV made of a version are a class ([BlobPod]).  The header cache sits
    behind a mutex in the source, so [read] returns the blob it leaves. *)
From S2P Require Import Prelude Bio CryptoChain.

Record Header {A : Aead} := mkHeader { h_version : nat; h_mac : Mac; h_payload_len : nat }.
Arguments Header : clear implicits.

Definition HEADER_NBYTES : nat := 32.

Class BlobPod (A : Aead) := {
  header_bytes : Header A → list byte;
  header_from_bytes : list byte → Header A;
  version_iv : nat → Iv;  (* the zero IV with the version in its first 8 bytes *)
}.
(** A header is 32 bytes, and its integers are 64 bits wide. *)
Class BlobPodSpec (A : Aead) (B : BlobPod A) := {
  header_bytes_length h : length (header_bytes h) = HEADER_NBYTES;
  header_roundtrip h :
    usize_ok (h_version h) = true → usize_ok (h_payload_len h) = true →
    header_from_bytes (header_bytes h) = h;
}.

Record CryptoBlob {A : Aead} {D : Type} := mkCryptoBlob {
  cb_block_set : D;
  cb_key : Key;
  cb_header : option (Header A);
}.
Arguments CryptoBlob {_} _.

Section blob.
Context {A : Aead} {B : BlobPod A} {P : Pages} {D St : Type} {HS : BlockSet D St}.

Definition capacity_of (d : D) : res nat := usub (bs_nblocks d * BLOCK_SIZE) HEADER_NBYTES.

Definition capacity (b : CryptoBlob D) : res nat := capacity_of (cb_block_set b).

Definition nblocks (b : CryptoBlob D) : nat := bs_nblocks (cb_block_set b).

Definition version_id (b : CryptoBlob D) : option nat := h_version <$> cb_header b.

Definition current_mac (b : CryptoBlob D) : option Mac := h_mac <$> cb_header b.

(** The blocks a payload of [len] bytes takes. *)
Definition payload_nblocks (len : nat) : nat := (HEADER_NBYTES + len + BLOCK_SIZE - 1) / BLOCK_SIZE.

(** Encrypt [payload] into [block_buf] and store the header. *)
Definition seal_payload (block_buf : list byte) (k : Key) (version : nat) (payload : list byte)
    : res (list byte * Header A) :=
  '(output, mac) ← aead_encrypt payload k (version_iv version) [];
  block_buf ← copy_from_slice block_buf HEADER_NBYTES (HEADER_NBYTES + length payload) output;
  let header := mkHeader A version mac (length payload) in
  block_buf ← copy_from_slice block_buf 0 HEADER_NBYTES (header_bytes header);
  Ok (block_buf, header).

Definition open (k : Key) (block_set : D) : CryptoBlob D := mkCryptoBlob A D block_set k None.

Definition create (k : Key) (block_set : D) (s : St) (init_data : list byte)
    : res (CryptoBlob D * St) :=
  capacity ← capacity_of block_set;
  if capacity <? length init_data then Err OutOfDisk else
  block_buf ← Buf_alloc 0 (payload_nblocks (length init_data));
  '(block_buf, header) ← seal_payload block_buf k 0 init_data;
  s' ← bs_write block_set s 0 block_buf;
  Ok (mkCryptoBlob A D block_set k (Some header), s').

Definition write (b : CryptoBlob D) (s : St) (buf : list byte) : res (nat * CryptoBlob D * St) :=
  cap ← capacity b;
  if cap <? length buf then Err OutOfDisk else
  block_buf ← Buf_alloc 0 (payload_nblocks (length buf));
  match version_id b with
  | None => Err NotFound
  | Some version =>
      version ← uadd version 1;
      '(block_buf, header) ← seal_payload block_buf (cb_key b) version buf;
      s' ← bs_write (cb_block_set b) s 0 block_buf;
      Ok (version, mkCryptoBlob A D (cb_block_set b) (cb_key b) (Some header), s')
  end.

(** [read] into a buffer of [buf_len] bytes: the bytes written, and the blob. *)
Definition read (b : CryptoBlob D) (s : St) (buf_len : nat) : res (list byte * CryptoBlob D) :=
  header ← match cb_header b with
           | Some header => Ok header
           | None => hb ← read_slice (cb_block_set b) s 0 HEADER_NBYTES; Ok (header_from_bytes hb)
           end;
  cap ← capacity b;
  if cap <? h_payload_len header then Err OutOfDisk else
  if buf_len <? h_payload_len header then Err OutOfDisk else
  let nblock := payload_nblocks (h_payload_len header) in
  _ ← Buf_alloc 3 nblock;
  block_buf ← bs_read (cb_block_set b) s 0 nblock;
  input ← slice block_buf HEADER_NBYTES (HEADER_NBYTES + h_payload_len header);
  payload ← aead_decrypt input (cb_key b) (version_iv (h_version header)) [] (h_mac header);
  Ok (payload, mkCryptoBlob A D (cb_block_set b) (cb_key b) (Some header)).

(** [recover_from]: this blob, the other one (whose header [read] may set), the disk. *)
Definition recover_from (b other : CryptoBlob D) (s : St) : res (CryptoBlob D * CryptoBlob D * St) :=
  cap ← capacity b;
  other_cap ← capacity other;
  if negb (cap =? other_cap) then Err InvalidArgs else
  match cb_header b with
  | Some _ => Err InvalidArgs
  | None =>
      let nblocks := bs_nblocks (cb_block_set b) in
      read_buf ← Buf_alloc 0 nblocks;
      '(payload, other) ← read other s (length read_buf);
      version ← unwrap (version_id other);
      write_buf ← Buf_alloc 1 nblocks;
      '(write_buf, header) ← seal_payload write_buf (cb_key b) version payload;
      s' ← bs_write (cb_block_set b) s 0 write_buf;
      Ok (mkCryptoBlob A D (cb_block_set b) (cb_key b) (Some header), other, s')
  end.
End blob.

(** ** The payload on disk *)
Section blob_spec.
Context {A : Aead} {HA : AeadSpec A} {B : BlobPod A} {HB : BlobPodSpec A B}.
Context {P : Pages} {HP : PagesSpec P} {D St : Type} {HS : BlockSet D St} {HSS : BlockSetSpec D St}.
Implicit Types (b : CryptoBlob D) (d : D) (s : St).

(** [bytes] start with the image of payload [p] at version [v] with MAC [m]. *)
Definition blob_image (bytes : list byte) (k : Key) (v : nat) (m : Mac) (p : list byte) : Prop :=
  ∃ c rest, bytes = header_bytes (mkHeader A v m (length p)) ++ c ++ rest ∧
            aead_encrypt p k (version_iv v) [] = Ok (c, m).

Definition blob_holds d s (k : Key) (v : nat) (m : Mac) (p : list byte) : Prop :=
  bs_valid d s ∧ usize_ok (bs_nblocks d * BLOCK_SIZE) = true ∧ usize_ok v = true ∧
  blob_image (flat d s) k v m p.

(** An open blob at version [v] with payload [p]. *)
Definition blob_ok b s (v : nat) (m : Mac) (p : list byte) : Prop :=
  blob_holds (cb_block_set b) s (cb_key b) v m p ∧ cb_header b = Some (mkHeader A v m (length p)).

Lemma payload_nblocks_bounds len n :
  HEADER_NBYTES + len ≤ n * BLOCK_SIZE →
  0 < payload_nblocks len ∧ payload_nblocks len ≤ n ∧ HEADER_NBYTES + len ≤ payload_nblocks len * BLOCK_SIZE.
Proof.
  intros Hn. pose proof BLOCK_SIZE_pos. unfold payload_nblocks.
  pose proof (Nat.div_mod_eq (HEADER_NBYTES + len + BLOCK_SIZE - 1) BLOCK_SIZE) as H2.
  pose proof (Nat.mod_upper_bound (HEADER_NBYTES + len + BLOCK_SIZE - 1) BLOCK_SIZE ltac:(lia)).
  set (q := (HEADER_NBYTES + len + BLOCK_SIZE - 1) / BLOCK_SIZE) in *. unfold HEADER_NBYTES in *.
  split; [nia|]. split; nia.
Qed.

Lemma seal_payload_ok buf k v p :
  HEADER_NBYTES + length p ≤ length buf →
  ∃ buf' m, seal_payload buf k v p = Ok (buf', mkHeader A v m (length p)) ∧
            length buf' = length buf ∧ blob_image buf' k v m p.
Proof.
  intros Hl. unfold seal_payload.
  destruct (encrypt_total p k (version_iv v) []) as (c & m & He). rewrite He. bind_step.
  pose proof (encrypt_length _ _ _ _ _ _ He) as Hc.
  pose proof (header_bytes_length (mkHeader A v m (length p))) as Hh.
  rewrite copy_from_slice_ok by lia. bind_step.
  assert (Hl1 : length (splice buf HEADER_NBYTES c) = length buf) by (rewrite splice_length; lia).
  rewrite copy_from_slice_ok by lia. bind_step.
  eexists _, m. split; [done|]. split; [rewrite splice_length; lia|].
  exists c, (drop (HEADER_NBYTES + length c) buf). split; [|done].
  unfold splice at 1. rewrite take_0, Hh. cbn [app Nat.add]. f_equal.
  unfold splice. rewrite drop_app_length'; [done|]. rewrite length_take. lia.
Qed.

(** Writing an image at block 0 makes the block set hold it. *)
Lemma write_image_ok d s n buf k v m p :
  bs_valid d s → usize_ok (bs_nblocks d * BLOCK_SIZE) = true → usize_ok v = true →
  is_buf n buf → n ≤ bs_nblocks d → blob_image buf k v m p →
  ∃ s', bs_write d s 0 buf = Ok s' ∧ blob_holds d s' k v m p ∧ framed d s s'.
Proof.
  intros Hv Hu Huv Hb Hn (c & rest & Hbuf & He).
  destruct (bs_write_ok d s 0 n buf Hv Hb ltac:(lia)) as (s' & Hw & Hv' & Hblk).
  exists s'. split; [done|]. split; [|by eapply write_framed; [..|exact Hw]; try done].
  do 3 (split; [done|]).
  assert (Hflat : take (n * BLOCK_SIZE) (flat d s') = buf).
  { pose proof (concat_seq_drop (bs_block d s') 0 n (bs_nblocks d)
                  ltac:(intros; by apply bs_block_length) ltac:(lia)) as Hc.
    simpl in Hc. rewrite drop_0 in Hc. unfold flat. rewrite <- Hc.
    destruct Hb as [_ Hl]. transitivity (concat (blocks_from buf 0 n)); [|by apply concat_blocks]. unfold blocks_from. f_equal.
    apply map_ext_in. intros i Hi%in_seq. rewrite Hblk by lia.
    rewrite (proj2 (Nat.leb_le _ _)), (proj2 (Nat.ltb_lt _ _)), Nat.sub_0_r by lia. done. }
  exists c, (rest ++ drop (n * BLOCK_SIZE) (flat d s')). split; [|done].
  rewrite <- (take_drop (n * BLOCK_SIZE) (flat d s')) at 1. rewrite Hflat, Hbuf. by rewrite <- !app_assoc.
Qed.

Lemma blob_holds_lengths d s k v m p :
  blob_holds d s k v m p → HEADER_NBYTES + length p ≤ bs_nblocks d * BLOCK_SIZE.
Proof.
  intros (Hv & _ & _ & c & rest & Hf & He). pose proof (flat_length d s Hv) as Hl.
  rewrite Hf, !length_app, header_bytes_length, (encrypt_length _ _ _ _ _ _ He) in Hl. lia.
Qed.

Lemma capacity_of_ok d :
  HEADER_NBYTES ≤ bs_nblocks d * BLOCK_SIZE →
  capacity_of d = Ok (bs_nblocks d * BLOCK_SIZE - HEADER_NBYTES).
Proof. intros. unfold capacity_of. by rewrite usub_ok. Qed.

(** The body of [create] and [write] once the version is known. *)
Lemma store_ok d s k v p :
  bs_valid d s → usize_ok (bs_nblocks d * BLOCK_SIZE) = true → usize_ok v = true →
  HEADER_NBYTES + length p ≤ bs_nblocks d * BLOCK_SIZE →
  ∃ buf0 m buf s', Buf_alloc 0 (payload_nblocks (length p)) = Ok buf0 ∧
    seal_payload buf0 k v p = Ok (buf, mkHeader A v m (length p)) ∧
    bs_write d s 0 buf = Ok s' ∧ blob_holds d s' k v m p ∧ framed d s s'.
Proof.
  intros Hv Hu Huv Hl. destruct (payload_nblocks_bounds _ _ Hl) as (H0 & Hn & Hfit).
  destruct (Buf_alloc_ok 0 (payload_nblocks (length p)) H0) as (buf0 & Ha & Hb0).
  destruct (seal_payload_ok buf0 k v p ltac:(lia)) as (buf & m & Hs & Hb & Hi).
  destruct (write_image_ok d s (payload_nblocks (length p)) buf k v m p) as (s' & Hw & Hh & Hf); try done.
  { split; lia. }
  by exists buf0, m, buf, s'.
Qed.

Lemma create_ok k d s p :
  bs_valid d s → usize_ok (bs_nblocks d * BLOCK_SIZE) = true →
  HEADER_NBYTES + length p ≤ bs_nblocks d * BLOCK_SIZE →
  ∃ b m s', create k d s p = Ok (b, s') ∧ cb_block_set b = d ∧ cb_key b = k ∧ blob_ok b s' 0 m p ∧
             framed d s s'.
Proof.
  intros Hv Hu Hl. destruct (store_ok d s k 0 p) as (buf0 & m & buf & s' & Ha & Hs & Hw & Hh & Hf); try done.
  unfold create. rewrite capacity_of_ok by lia. bind_step.
  rewrite (proj2 (Nat.ltb_ge _ _)) by lia. rewrite Ha. bind_step. rewrite Hs. bind_step. rewrite Hw. bind_step.
  eexists _, m, s'. by do 4 (split; [done|]).
Qed.

Lemma write_ok b s v m p q :
  blob_ok b s v m p → usize_ok (S v) = true →
  HEADER_NBYTES + length q ≤ bs_nblocks (cb_block_set b) * BLOCK_SIZE →
  ∃ b' m' s', write b s q = Ok (S v, b', s') ∧ cb_block_set b' = cb_block_set b ∧
              cb_key b' = cb_key b ∧ blob_ok b' s' (S v) m' q ∧ framed (cb_block_set b) s s'.
Proof.
  intros [(Hv & Hu & Huv & Him) Hh] Hv1 Hl.
  destruct (store_ok (cb_block_set b) s (cb_key b) (S v) q) as (buf0 & m' & buf & s' & Ha & Hs & Hw & Hh' & Hf); try done.
  unfold write, capacity, version_id. rewrite capacity_of_ok by lia. bind_step.
  rewrite (proj2 (Nat.ltb_ge _ _)) by lia. rewrite Ha. bind_step. rewrite Hh. cbn [fmap option_fmap option_map h_version].
  rewrite uadd_ok by (by rewrite Nat.add_1_r). bind_step. rewrite Nat.add_1_r, Hs. bind_step. rewrite Hw. bind_step.
  eexists _, m', s'. by do 4 (split; [done|]).
Qed.

(** A blob reads its payload back, whether its header is cached or not. *)
Lemma blob_read_ok b s k v m p n :
  blob_holds (cb_block_set b) s k v m p → cb_key b = k →
  cb_header b = None ∨ cb_header b = Some (mkHeader A v m (length p)) → length p ≤ n →
  read b s n = Ok (p, mkCryptoBlob A D (cb_block_set b) (cb_key b) (Some (mkHeader A v m (length p)))).
Proof.
  intros Hh Hk Hhd Hn. pose proof (blob_holds_lengths _ _ _ _ _ _ Hh) as Hl.
  destruct Hh as (Hv & Hu & Huv & c & rest & Hf & He). subst k.
  destruct (payload_nblocks_bounds _ _ Hl) as (H0 & Hnb & Hfit).
  pose proof (header_bytes_length (mkHeader A v m (length p))) as Hhl.
  pose proof (encrypt_length _ _ _ _ _ _ He) as Hc. unfold read.
  assert (Hhead : match cb_header b with
                  | Some header => Ok header
                  | None => hb ← read_slice (cb_block_set b) s 0 HEADER_NBYTES; Ok (header_from_bytes hb)
                  end = Ok (mkHeader A v m (length p))).
  { destruct Hhd as [-> | ->]; [|done].
    rewrite read_slice_ok by (try done; unfold HEADER_NBYTES in *; lia). bind_step.
    rewrite drop_0, Hf, <- Hhl, take_app_length, header_roundtrip; [done|done|].
    cbn. eapply usize_ok_le; [|exact Hu]. unfold HEADER_NBYTES in *. lia. }
  rewrite Hhead. bind_step. unfold capacity. rewrite capacity_of_ok by lia. bind_step. cbn [h_payload_len h_version h_mac].
  rewrite (proj2 (Nat.ltb_ge _ (length p))) by lia. rewrite (proj2 (Nat.ltb_ge n _)) by lia.
  destruct (Buf_alloc_ok 3 _ H0) as (? & -> & _). bind_step.
  rewrite bs_read_flat by (done || lia). bind_step. rewrite drop_0.
  pose proof (flat_length _ _ Hv) as Hfl.
  rewrite slice_ok by (rewrite ?length_take; lia). bind_step.
  replace (HEADER_NBYTES + length p - HEADER_NBYTES) with (length p) by lia.
  rewrite skipn_firstn_comm, take_take, Nat.min_l by lia.
  rewrite Hf, drop_app_length', <- Hc, take_app_length by lia.
  rewrite (decrypt_encrypt _ _ _ _ _ _ He). by bind_step.
Qed.

Lemma recover_from_ok b other s v m p :
  blob_ok other s v m p → bs_valid (cb_block_set b) s → cb_header b = None →
  bs_nblocks (cb_block_set b) = bs_nblocks (cb_block_set other) →
  ∃ b' m' s', recover_from b other s = Ok (b', other, s') ∧ cb_block_set b' = cb_block_set b ∧
              cb_key b' = cb_key b ∧ blob_ok b' s' v m' p ∧ framed (cb_block_set b) s s'.
Proof.
  intros [Ho Hoh] Hv Hb Hn. pose proof (blob_holds_lengths _ _ _ _ _ _ Ho) as Hl.
  assert (Hu := Ho). destruct Hu as (_ & Hu & Huv & _).
  unfold recover_from, capacity. rewrite !capacity_of_ok by lia. bind_step.
  rewrite Hn, Nat.eqb_refl, Hb. cbn [negb].
  set (n := bs_nblocks (cb_block_set other)) in *.
  assert (H0 : 0 < n) by (destruct n; [unfold HEADER_NBYTES in *; lia|lia]).
  destruct (Buf_alloc_ok 0 n H0) as (rb & -> & Hrb). bind_step.
  rewrite (blob_read_ok other s _ v m p (length rb) Ho eq_refl (or_intror Hoh))
    by (unfold HEADER_NBYTES in *; lia).
  bind_step. cbn [version_id fmap option_fmap option_map cb_header h_version unwrap]. bind_step.
  destruct (Buf_alloc_ok 1 n H0) as (wb & -> & Hwb). bind_step.
  destruct (seal_payload_ok wb (cb_key b) v p ltac:(lia)) as (buf & m' & -> & Hbuf & Hi). bind_step.
  destruct (write_image_ok (cb_block_set b) s n buf (cb_key b) v m' p) as (s' & -> & Hh & Hf); try done.
  { by rewrite Hn. } { split; lia. } { by rewrite Hn. }
  bind_step. exists (mkCryptoBlob A D (cb_block_set b) (cb_key b) (Some (mkHeader A v m' (length p)))), m', s'.
  split; [|by do 2 (split; [done|])].
  do 3 f_equal. destruct other. cbn in *. by subst.
Qed.
End blob_spec.

(** * Claims *)

(** C28: a blob at version [v] that accepts a payload is at version [v + 1] with it: the same
    blob, a blob opened later with the key, and a blob that recovered from it on
    another block set of the same size all read that payload back, at that version. *)
Theorem blob_roundtrip {A : Aead} {HA : AeadSpec A} {B : BlobPod A} {HB : BlobPodSpec A B}
    {P : Pages} {HP : PagesSpec P} {D St : Type} {HS : BlockSet D St} {HSS : BlockSetSpec D St}
    (b b2 : CryptoBlob D) (s : St) (v : nat) (m : Mac) (p q : list byte) (n : nat) :
  blob_ok b s v m p → usize_ok (S v) = true →
  HEADER_NBYTES + length q ≤ nblocks b * BLOCK_SIZE → length q ≤ n →
  bs_valid (cb_block_set b2) s → bs_disjoint (cb_block_set b) (cb_block_set b2) →
  cb_header b2 = None → nblocks b2 = nblocks b →
  ∃ b' s', write b s q = Ok (S v, b', s') ∧ version_id b' = Some (S v) ∧ read b' s' n = Ok (q, b') ∧
    read (open (cb_key b) (cb_block_set b)) s' n = Ok (q, b') ∧
    ∃ b3 s3, recover_from b2 b' s' = Ok (b3, b', s3) ∧ version_id b3 = Some (S v) ∧
      read b3 s3 n = Ok (q, b3).
Proof.
  intros Hb Hv Hl Hn Hb2 Hdj Hh2 Hn2.
  destruct (write_ok b s v m p q Hb Hv Hl) as (b' & m' & s' & Hw & Hd & Hk & Hb' & Hf).
  assert (Hb'' := Hb'). destruct Hb'' as [Hholds Hhead].
  exists b', s'. split; [done|]. split; [unfold version_id; by rewrite Hhead|].
  assert (Heta : b' = mkCryptoBlob A D (cb_block_set b') (cb_key b') (Some (mkHeader A (S v) m' (length q)))).
  { rewrite <- Hhead. by destruct b'. }
  split; [rewrite Heta at 2; apply (blob_read_ok b' s' (cb_key b')); auto|].
  split.
  { rewrite (blob_read_ok (open (cb_key b) (cb_block_set b)) s' (cb_key b) (S v) m' q n).
    - cbn. by rewrite Heta, Hd, Hk.
    - cbn. by rewrite <- Hd, <- Hk.
    - done.
    - by left.
    - done. }
  destruct (recover_from_ok b2 b' s' (S v) m' q Hb') as (b3 & m3 & s3 & Hr & Hd3 & Hk3 & [H3 Hh3] & _).
  { by apply Hf. }
  { done. }
  { unfold nblocks in Hn2. by rewrite Hd. }
  exists b3, s3. split; [done|]. split; [unfold version_id; by rewrite Hh3|].
  rewrite (blob_read_ok b3 s3 (cb_key b3) (S v) m3 q n H3 eq_refl (or_intror Hh3) Hn).
  rewrite <- Hh3. by destruct b3.
Qed.

(** ** A concrete header layout, for the witnesses *)
Module ToyBlob.
#[local] Existing Instance ToyAead.toy.
#[local] Existing Instance ToyAead.toy_spec.

#[local] Instance toy_header : BlobPod ToyAead.toy := {|
  header_bytes h := [Z.of_nat (h_version h); h_mac h; Z.of_nat (h_payload_len h)] ++ replicate 29 0%Z;
  header_from_bytes l := mkHeader ToyAead.toy (Z.to_nat (default 0%Z (l !! 0)))
                           (default 0%Z (l !! 1)) (Z.to_nat (default 0%Z (l !! 2)));
  version_iv v := Z.of_nat v;
|}.

#[local] Instance toy_header_spec : BlobPodSpec ToyAead.toy toy_header.
Proof. split; [done|]. intros [v m n] _ _. simpl. by rewrite !Nat2Z.id. Qed.

(** A blob on block 0 of the demo disk, holding [[1; 2]]. *)
Definition made : res (CryptoBlob MemDisk * list byte) :=
  create (A := ToyAead.toy) (P := zero_pages) 5%Z demo_low demo_disk [1; 2]%Z.

Lemma made_ok : ∃ b m s, made = Ok (b, s) ∧ cb_block_set b = demo_low ∧ blob_ok b s 0 m [1; 2]%Z ∧
    framed demo_low demo_disk s.
Proof.
  destruct (create_ok (A := ToyAead.toy) (P := zero_pages) (HSS := MemDisk_spec) 5%Z demo_low demo_disk [1; 2]%Z)
    as (b & m & s & Hc & Hd & _ & Hb & Hf).
  - apply demo_valid; simpl; lia.
  - vm_compute. reflexivity.
  - apply Nat.leb_le. vm_compute. reflexivity.
  - exists b, m, s. exact (conj Hc (conj Hd (conj Hb Hf))).
Qed.
End ToyBlob.

Lemma blob_roundtrip_witness :
  ∃ b s b' s', ToyBlob.made = Ok (b, s) ∧
    write (B := ToyBlob.toy_header) (P := zero_pages) b s [3; 4; 5]%Z = Ok (1, b', s') ∧
    read (B := ToyBlob.toy_header) (P := zero_pages) b' s' 9 = Ok ([3; 4; 5]%Z, b').
Proof.
  destruct ToyBlob.made_ok as (b & m & s & Hm & Hd & Hb & Hf).
  destruct (blob_roundtrip (HA := ToyAead.toy_spec) (HB := ToyBlob.toy_header_spec) (P := zero_pages) (HSS := MemDisk_spec)
              b (open (A := ToyAead.toy) 6%Z demo_mid) s 0 m [1; 2]%Z [3; 4; 5]%Z 9) as (b' & s' & Hw & _ & Hr & _).
  - exact Hb.
  - vm_compute. reflexivity.
  - unfold nblocks. rewrite Hd. apply Nat.leb_le. vm_compute. reflexivity.
  - simpl. lia.
  - apply Hf; [apply demo_valid; simpl; lia|]. left. simpl. lia.
  - rewrite Hd. left. simpl. lia.
  - reflexivity.
  - unfold nblocks. rewrite Hd. reflexivity.
  - exists b, s, b', s'. exact (conj Hm (conj Hw Hr)).
Defined.
