(* ===== verification/CryptoLog.v ===== *)
(** * CryptoLog: [core/src/layers/1-crypto/crypto_log.rs]

    A log of encrypted blocks under a Merkle hash tree.  New blocks wait in the two queues
    of [AppendDataBuf]; a flush seals them, rebuilds the nodes on the right edge of the tree
    and appends a new root.  The methods run in [io]: on [MhtStorage] (the block log, the
    node cache and the count of random values drawn) or on the whole [Mht].  The bytes of a
    node ([pod]) and random keys and IVs are classes; [NodeCache] is the trait of the
    source. *)
From S2P Require Import Prelude Bio CryptoChain.

(** [(BLOCK_SIZE - size_of::<MhtNodeHeader>()) / size_of::<MhtNodeEntry>()]. *)
Definition HEADER_SIZE : nat := 12.
Definition ENTRY_SIZE : nat := 40.
Definition MHT_NBRANCHES : nat := (BLOCK_SIZE - HEADER_SIZE) / ENTRY_SIZE.

Lemma MHT_NBRANCHES_eq : MHT_NBRANCHES = 102.
Proof. with_strategy transparent [BLOCK_SIZE] (by vm_compute). Qed.
#[global] Opaque MHT_NBRANCHES.

Record MhtNodeEntry {A : Aead} := mkEntry { e_pos : BlockId; e_key : Key; e_mac : Mac }.
Arguments MhtNodeEntry : clear implicits.

(** A node and its header. *)
Record MhtNode {A : Aead} := mkNode {
  height : nat;
  num_data_nodes : nat;
  num_valid_entries : nat;
  entries : list (MhtNodeEntry A);
}.
Arguments MhtNode : clear implicits.

Record RootMhtMeta {A : Aead} := mkRootMeta { rm_pos : BlockId; rm_mac : Mac; rm_iv : Iv }.
Arguments RootMhtMeta : clear implicits.

(** [pod]: the bytes of a node, [Iv::new_zeroed] and [MhtNodeEntry::new_uninit]. *)
Class MhtPod (A : Aead) := {
  node_bytes : MhtNode A → list byte;
  node_from_bytes : list byte → MhtNode A;
  zero_iv : Iv;
  uninit_entry : MhtNodeEntry A;
}.

(** [Key::random] and [Iv::random], by the number of the draw. *)
Class Random (A : Aead) := { rand_key : nat → Key; rand_iv : nat → Iv }.

(** The trait [NodeCache].  It is given MHT nodes only, so the downcast of a cached value
    succeeds. *)
Class NodeCache (A : Aead) (C : Type) := {
  nc_get : C → BlockId → res (option (MhtNode A) * C);
  nc_put : C → BlockId → MhtNode A → res C;
}.

(** ** Nodes *)
Definition is_lowest_level (h : nat) : bool := h =? 1.
Definition max_num_data_nodes (h : nat) : nat := MHT_NBRANCHES ^ h.

Section node.
Context {A : Aead} {MP : MhtPod A}.
Implicit Types (n : MhtNode A) (es : list (MhtNodeEntry A)).

Definition is_incomplete n : bool := negb (num_data_nodes n =? max_num_data_nodes (height n)).

Definition num_complete_children n : res nat :=
  if (num_data_nodes n mod MHT_NBRANCHES =? 0) || is_lowest_level (height n)
  then Ok (num_valid_entries n)
  else usub (num_valid_entries n) 1.

(** The last child of a node. *)
Definition last_entry n : res (MhtNodeEntry A) := i ← usub (num_valid_entries n) 1; index (entries n) i.

(** ** [LevelBuilder] *)

(** [slice::chunks]. *)
Fixpoint chunks_fuel {T} (fuel size : nat) (l : list T) : list (list T) :=
  match fuel, l with
  | S fuel, _ :: _ => take size l :: chunks_fuel fuel size (drop size l)
  | _, _ => []
  end.
Definition chunks {T} (size : nat) (l : list T) : list (list T) := chunks_fuel (length l) size l.

Definition build_last_node (h total_data_nodes : nat) es : MhtNode A :=
  let max_data_nodes := max_num_data_nodes h in
  let incomplete_nodes := total_data_nodes mod max_data_nodes in
  let n := if incomplete_nodes =? 0 then max_data_nodes else incomplete_nodes in
  mkNode A h (as_u32 n) (as_u16 (length es)) (es ++ replicate (MHT_NBRANCHES - length es) uninit_entry).

Definition build_full_node (h : nat) es : MhtNode A :=
  mkNode A h (as_u32 (max_num_data_nodes h)) (as_u16 MHT_NBRANCHES) es.

(** The [for] loop over the enumerated chunks. *)
Fixpoint build_loop (h total_data_nodes num_build nth : nat) (cs : list (list (MhtNodeEntry A)))
    : list (MhtNode A) :=
  match cs with
  | [] => []
  | entries_per_node :: cs =>
      if nth =? num_build - 1 then [build_last_node h total_data_nodes entries_per_node]
      else build_full_node h entries_per_node :: build_loop h total_data_nodes num_build (nth + 1) cs
  end.

Definition level_build (h total_data_nodes : nat) (pre : option (MhtNode A)) (level_entries : list (MhtNodeEntry A))
    : res (list (MhtNode A)) :=
  all_level_entries ←
    match pre with
    | Some pre_node => k ← num_complete_children pre_node; Ok (take k (entries pre_node) ++ level_entries)
    | None => Ok level_entries
    end;
  let num_build := align_up (length all_level_entries) MHT_NBRANCHES / MHT_NBRANCHES in
  Ok (build_loop h total_data_nodes num_build 0 (chunks MHT_NBRANCHES all_level_entries)).

(** [usize::ilog] to the base [MHT_NBRANCHES]. *)
Fixpoint ilog_fuel (fuel n : nat) : nat :=
  match fuel with
  | 0 => 0
  | S fuel => if n <? MHT_NBRANCHES then 0 else S (ilog_fuel fuel (n / MHT_NBRANCHES))
  end.
Definition ilog (n : nat) : res nat := if n =? 0 then Panic else Ok (ilog_fuel n n).

Definition calc_target_height (num_data_node_entries : nat) : res nat :=
  target_height ← ilog num_data_node_entries;
  Ok (if (MHT_NBRANCHES ^ target_height <? num_data_node_entries) || (target_height =? 0)
      then target_height + 1 else target_height).
End node.

Section crypto_log.
Context {A : Aead} {MP : MhtPod A} {R : Random A} {P : Pages}.
Context {L : Type} {HL : BlockLog L} {C : Type} {HC : NodeCache A C}.
Abbreviation Entry := (MhtNodeEntry A).
Abbreviation Node := (MhtNode A).

(** ** [MhtStorage] *)
Record MhtStorage := mkStorage { block_log : L; node_cache : C; draws : nat }.

Definition random_key : io MhtStorage Key := λ s,
  (Ok (rand_key (draws s)), mkStorage (block_log s) (node_cache s) (S (draws s))).
Definition random_iv : io MhtStorage Iv := λ s,
  (Ok (rand_iv (draws s)), mkStorage (block_log s) (node_cache s) (S (draws s))).
Definition cache_get (pos : BlockId) : io MhtStorage (option Node) := λ s,
  match nc_get (node_cache s) pos with
  | Ok (o, c) => (Ok o, mkStorage (block_log s) c (draws s))
  | Err e => (Err e, s)
  | Panic => (Panic, s)
  end.
Definition cache_put (pos : BlockId) (n : Node) : io MhtStorage unit := λ s,
  match nc_put (node_cache s) pos n with
  | Ok c => (Ok (), mkStorage (block_log s) c (draws s))
  | Err e => (Err e, s)
  | Panic => (Panic, s)
  end.
Definition log_read (pos : BlockId) : io MhtStorage (list byte) := λ s, (bl_read (block_log s) pos 1, s).
Definition log_append (buf : list byte) : io MhtStorage BlockId := λ s,
  match bl_append (block_log s) buf with
  | Ok (pos, l) => (Ok pos, mkStorage l (node_cache s) (draws s))
  | Err e => (Err e, s)
  | Panic => (Panic, s)
  end.
Definition log_nblocks : io MhtStorage nat := λ s, (Ok (bl_nblocks (block_log s)), s).

Definition read_mht_node (pos : BlockId) (key : Key) (mac : Mac) (iv : Iv) : io MhtStorage Node :=
  o ← cache_get pos;
  match o with
  | Some node => mret node
  | None =>
      cipher ← log_read pos;
      plain ← io_lift (aead_decrypt cipher key iv [] mac);
      let mht_node := node_from_bytes plain in
      _ ← cache_put pos mht_node;
      mret mht_node
  end.

Definition root_mht_node (root_key : Key) (m : RootMhtMeta A) : io MhtStorage Node :=
  read_mht_node (rm_pos m) root_key (rm_mac m) (rm_iv m).

(** The plain text of the block an entry refers to. *)
Definition read_data_node (e : Entry) : io MhtStorage (list byte) :=
  cipher ← log_read (e_pos e);
  io_lift (aead_decrypt cipher (e_key e) zero_iv [] (e_mac e)).

Definition append_root_mht_node (root_key : Key) (node : Node) : io MhtStorage (RootMhtMeta A) :=
  iv ← random_iv;
  '(cipher, mac) ← io_lift (aead_encrypt (node_bytes node) root_key iv []);
  pos ← log_append cipher;
  _ ← cache_put pos node;
  mret (mkRootMeta A pos mac iv).

(** One turn of the loops that seal nodes: the cipher text goes to the [i]-th block of the
    buffer. *)
Definition seal_node (plain : list byte) (i pos : nat) (cipher_buf : list byte)
    : io MhtStorage (Entry * list byte) :=
  key ← random_key;
  '(cipher, mac) ← io_lift (aead_encrypt plain key zero_iv []);
  cipher_buf ← io_lift (copy_from_slice cipher_buf (i * BLOCK_SIZE) ((i + 1) * BLOCK_SIZE) cipher);
  mret (mkEntry A pos key mac, cipher_buf).

Fixpoint seal_mht_nodes (nodes : list Node) (i pos : nat) (cipher_buf : list byte)
    : io MhtStorage (list Entry * list byte) :=
  match nodes with
  | [] => mret ([], cipher_buf)
  | node :: nodes =>
      '(e, cipher_buf) ← seal_node (node_bytes node) i pos cipher_buf;
      _ ← cache_put pos node;
      '(es, cipher_buf) ← seal_mht_nodes nodes (i + 1) (pos + 1) cipher_buf;
      mret (e :: es, cipher_buf)
  end.

Fixpoint seal_data_nodes (nodes : list (list byte)) (i pos : nat) (cipher_buf : list byte)
    : io MhtStorage (list Entry * list byte) :=
  match nodes with
  | [] => mret ([], cipher_buf)
  | node :: nodes =>
      '(e, cipher_buf) ← seal_node node i pos cipher_buf;
      '(es, cipher_buf) ← seal_data_nodes nodes (i + 1) (pos + 1) cipher_buf;
      mret (e :: es, cipher_buf)
  end.

Definition append_mht_nodes (nodes : list Node) : io MhtStorage (list Entry) :=
  cipher_buf ← io_lift (Buf_alloc 0 (length nodes));
  start_pos ← log_nblocks;
  '(node_entries, cipher_buf) ← seal_mht_nodes nodes 0 start_pos cipher_buf;
  append_pos ← log_append cipher_buf;
  _ ← io_lift (assert_ (start_pos =? append_pos));
  mret node_entries.

Definition storage_append_data_nodes (nodes : list (list byte)) : io MhtStorage (list Entry) :=
  if length nodes =? 0 then mret [] else
  cipher_buf ← io_lift (Buf_alloc 0 (length nodes));
  start_pos ← log_nblocks;
  '(node_entries, cipher_buf) ← seal_data_nodes nodes 0 start_pos cipher_buf;
  append_pos ← log_append cipher_buf;
  _ ← io_lift (assert_ (start_pos =? append_pos));
  mret node_entries.

(** ** [PreviousBuild] *)
Record PreviousBuild := mkPreviousBuild { pb_root : Node; pb_height : nat; internal_incomplete_nodes : gmap nat Node }.

Definition read_unwrap (e : Entry) : io MhtStorage Node := λ s,
  let '(r, s') := read_mht_node (e_pos e) (e_key e) (e_mac e) zero_iv s in (unwrap_res r, s').

(** The [while] loop of [collect_incomplete_nodes]; every turn goes down one level. *)
Fixpoint collect_incomplete (fuel : nat) (lookup_node : Node) (acc : gmap nat Node) : io MhtStorage (gmap nat Node) :=
  match fuel with
  | 0 => io_lift Panic
  | S fuel =>
      if negb (is_incomplete lookup_node) then mret acc else
      let h := height lookup_node in
      let acc := <[h := lookup_node]> acc in
      if is_lowest_level h then mret acc else
      e ← io_lift (last_entry lookup_node);
      lookup_node ← read_unwrap e;
      collect_incomplete fuel lookup_node acc
  end.

Definition PreviousBuild_new (root : Node) : io MhtStorage PreviousBuild :=
  let h := height root in
  if negb (is_incomplete root) || is_lowest_level h then mret (mkPreviousBuild root h ∅) else
  e ← io_lift (last_entry root);
  lookup_node ← read_unwrap e;
  acc ← collect_incomplete h lookup_node ∅;
  mret (mkPreviousBuild root h acc).

Definition target_node (pb : PreviousBuild) (target_height : nat) : option Node :=
  if target_height =? pb_height pb then Some (pb_root pb)
  else internal_incomplete_nodes pb !! target_height.

(** ** [TreeBuilder] *)

(** The levels from [curr_height] up to the target, [fuel] above it. *)
Fixpoint build_hierarchy (fuel : nat) (pre : option PreviousBuild) (level_entries : list Entry)
    (total_data_nodes curr_height target_height : nat) : io MhtStorage Node :=
  let previous_incomplete_node := pb ← pre; target_node pb curr_height in
  new_mht_nodes ← io_lift (level_build curr_height total_data_nodes previous_incomplete_node level_entries);
  if curr_height =? target_height then
    _ ← io_lift (assert_ (length new_mht_nodes =? 1));
    io_lift (unwrap (last new_mht_nodes))
  else
    match fuel with
    | 0 => io_lift Panic
    | S fuel =>
        next_level_entries ← append_mht_nodes new_mht_nodes;
        build_hierarchy fuel pre next_level_entries total_data_nodes (curr_height + 1) target_height
    end.

Definition tree_build (previous_built_root : option Node) (data_node_entries : list Entry) : io MhtStorage Node :=
  pre ← match previous_built_root with
        | None => mret None
        | Some root => pb ← PreviousBuild_new root; mret (Some pb)
        end;
  let total_data_nodes :=
    length data_node_entries + match pre with Some pb => num_data_nodes (pb_root pb) | None => 0 end in
  target_height ← io_lift (calc_target_height total_data_nodes);
  build_hierarchy target_height pre data_node_entries total_data_nodes 1 target_height.
End crypto_log.
Arguments MhtStorage : clear implicits.

(** ** [Mht], [AppendDataBuf] and [CryptoLog] *)
Definition APPEND_BUF_CAPACITY : nat := 2048.
Definition MAX_ENTRY_QUEUE_CAP : nat := MHT_NBRANCHES ^ 3.

(** The node queue and the entry queue of a buffer of [capacity] blocks. *)
Definition calc_queue_cap (capacity append_pos : nat) : res (nat * nat) :=
  let node_queue_cap := capacity * 1 / 2 in
  max_cap ← usub MAX_ENTRY_QUEUE_CAP append_pos;
  let remain_cap := (capacity - node_queue_cap) * BLOCK_SIZE / ENTRY_SIZE in
  Ok (node_queue_cap, max_cap `min` remain_cap).

Section mht.
Context {A : Aead} {MP : MhtPod A} {R : Random A} {P : Pages}.
Context {L : Type} {HL : BlockLog L} {C : Type} {HC : NodeCache A C}.
Abbreviation Entry := (MhtNodeEntry A).
Abbreviation Node := (MhtNode A).
Abbreviation Storage := (MhtStorage L C).

Record AppendDataBuf := mkDataBuf {
  node_queue : list (list byte);
  node_queue_cap : nat;
  entry_queue : list Entry;
  entry_queue_cap : nat;
  start_pos : nat;
}.

Record Mht := mkMht {
  root : option (RootMhtMeta A * Node);
  root_key : Key;
  data_buf : AppendDataBuf;
  storage : Storage;
}.

Definition AppendDataBuf_new (capacity start_pos : nat) : res AppendDataBuf :=
  '(node_cap, entry_cap) ← calc_queue_cap capacity start_pos;
  Ok (mkDataBuf [] node_cap [] entry_cap start_pos).

(** [CryptoLog::new]. *)
Definition CryptoLog_new (log : L) (key : Key) (cache : C) (drawn : nat) : res Mht :=
  b ← AppendDataBuf_new APPEND_BUF_CAPACITY 0;
  Ok (mkMht None key b (mkStorage log cache drawn)).

(** [CryptoLog::open]. *)
Definition CryptoLog_open (log : L) (key : Key) (root_meta : RootMhtMeta A) (cache : C) (drawn : nat)
    : res Mht :=
  let '(r, sto) := root_mht_node key root_meta (mkStorage log cache drawn) in
  root_node ← r;
  b ← AppendDataBuf_new APPEND_BUF_CAPACITY (num_data_nodes root_node);
  Ok (mkMht (Some (root_meta, root_node)) key b sto).

Definition root_meta (m : Mht) : option (RootMhtMeta A) := fst <$> root m.
Definition root_node (m : Mht) : option Node := snd <$> root m.

Definition num_append (b : AppendDataBuf) : nat := length (node_queue b) + length (entry_queue b).
Definition is_full (b : AppendDataBuf) : bool := entry_queue_cap b <=? length (entry_queue b).

(** [CryptoLog::nblocks]. *)
Definition total_data_nodes (m : Mht) : nat :=
  num_append (data_buf m) + match root m with Some (_, n) => num_data_nodes n | None => 0 end.

(** Storage methods called on the [Mht], and its updates. *)
Definition on_storage {T} (c : io Storage T) : io Mht T := λ m,
  let '(r, sto) := c (storage m) in (r, mkMht (root m) (root_key m) (data_buf m) sto).
Definition set_root (r : RootMhtMeta A * Node) : io Mht unit := λ m,
  (Ok (), mkMht (Some r) (root_key m) (data_buf m) (storage m)).
Definition set_buf (b : AppendDataBuf) : io Mht unit := λ m,
  (Ok (), mkMht (root m) (root_key m) b (storage m)).

(** *** Appends *)
Definition flush_node_queue : io Mht unit :=
  m ← io_get;
  new_node_entries ← on_storage (storage_append_data_nodes (node_queue (data_buf m)));
  let b := data_buf m in
  set_buf (mkDataBuf [] (node_queue_cap b) (entry_queue b ++ new_node_entries) (entry_queue_cap b) (start_pos b)).

(** [AppendDataBuf::append_data_nodes]. *)
Definition buf_append_data_nodes (nodes : list (list byte)) : io Mht unit :=
  m ← io_get;
  let b := data_buf m in
  if is_full b then io_lift (Err OutOfMemory) else
  let queue := node_queue b ++ nodes in
  _ ← set_buf (mkDataBuf queue (node_queue_cap b) (entry_queue b) (entry_queue_cap b) (start_pos b));
  if node_queue_cap b <=? length queue then flush_node_queue else mret ().

(** [AppendDataBuf::flush]. *)
Definition buf_flush : io Mht (list Entry) :=
  _ ← flush_node_queue;
  m ← io_get;
  let b := data_buf m in
  _ ← io_lift (assert_ (length (node_queue b) =? 0));
  let all_cached_entries := entry_queue b in
  _ ← set_buf (mkDataBuf (node_queue b) (node_queue_cap b) [] (entry_queue_cap b)
                 (start_pos b + length all_cached_entries));
  mret all_cached_entries.

Definition do_build (data_node_entries : list Entry) : io Mht unit :=
  m ← io_get;
  new_root_node ← on_storage (tree_build (root_node m) data_node_entries);
  root_meta ← on_storage (append_root_mht_node (root_key m) new_root_node);
  set_root (root_meta, new_root_node).

(** [CryptoLog::flush]. *)
Definition flush : io Mht unit := es ← buf_flush; do_build es.

(** [Mht::append_data_nodes]. *)
Definition append_data_nodes (nodes : list (list byte)) : io Mht unit :=
  _ ← buf_append_data_nodes nodes;
  m ← io_get;
  if is_full (data_buf m) then flush else mret ().

(** [CryptoLog::append]. *)
Definition append (buf : list byte) : io Mht unit :=
  data_nodes ← io_lift (BufIter_collect (S (nblocks_of buf)) (Buf_iter buf));
  append_data_nodes data_nodes.

(** *** Reads *)
Record SearchCtx := mkSearch { sc_pos : nat; sc_buf : list byte; sc_offset : nat; sc_num : nat; is_completed : bool }.

(** [read_data_node] into [node_buf(offset)]. *)
Definition read_into (e : Entry) (offset : nat) (buf : list byte) : io Mht (list byte) :=
  _ ← io_lift (slice buf (offset * BLOCK_SIZE) ((offset + 1) * BLOCK_SIZE));
  plain ← on_storage (read_data_node e);
  io_lift (copy_from_slice buf (offset * BLOCK_SIZE) ((offset + 1) * BLOCK_SIZE) plain).

(** The loop over the entries of the buffer; its state is (start, end, offset, buffer). *)
Definition search_entry_queue (es : list Entry) (start_nth end_nth offset : nat) (buf : list byte)
    : io Mht (nat * nat * nat * list byte) :=
  io_fold (λ '(start_nth, end_nth, offset, buf) e,
    buf ← read_into e offset buf;
    end_nth ← io_lift (usub end_nth 1);
    mret (0, end_nth, offset + 1, buf)) (start_nth, end_nth, offset, buf) es.

Definition search_node_queue (nodes : list (list byte)) (offset : nat) (buf : list byte) : io Mht (nat * list byte) :=
  io_fold (λ '(offset, buf) node,
    buf ← io_lift (copy_from_slice buf (offset * BLOCK_SIZE) ((offset + 1) * BLOCK_SIZE) node);
    mret (offset + 1, buf)) (offset, buf) nodes.

(** [AppendDataBuf::search_data_nodes]. *)
Definition search_data_nodes (c : SearchCtx) : io Mht SearchCtx :=
  m ← io_get;
  let b := data_buf m in
  let pos := sc_pos c in
  let num := sc_num c in
  if pos + num <=? start_pos b then mret c else
  let '(start_nth, end_nth, offset, num_left) :=
    if start_pos b <=? pos then (pos - start_pos b, pos - start_pos b + num, 0, num)
    else let end_ := pos + num - start_pos b in (0, end_, num - end_, num - end_) in
  _ ← io_lift (assert_ (end_nth <=? num_append b));
  '(start_nth, end_nth, offset, buf) ←
    search_entry_queue (take (end_nth - start_nth) (drop start_nth (entry_queue b))) start_nth end_nth offset (sc_buf c);
  take_n ← io_lift (usub end_nth start_nth);
  '(_, buf) ← search_node_queue (take take_n (drop start_nth (node_queue b))) offset buf;
  mret (mkSearch pos buf (sc_offset c) num_left (if start_pos b <=? pos then true else is_completed c)).

(** The MHT nodes of a list of entries. *)
Fixpoint read_targets (es : list Entry) : io Mht (list Node) :=
  match es with
  | [] => mret []
  | e :: es =>
      n ← on_storage (read_mht_node (e_pos e) (e_key e) (e_mac e) zero_iv);
      ns ← read_targets es;
      mret (n :: ns)
  end.

(** The data blocks of a list of entries, into the buffer from [offset] on. *)
Definition read_leaves (es : list Entry) (offset : nat) (buf : list byte) : io Mht (nat * list byte) :=
  io_fold (λ '(offset, buf) e, buf ← read_into e offset buf; mret (offset + 1, buf)) (offset, buf) es.

Fixpoint search_hierarchy (curr_height : nat) (level_targets : list Node) (c : SearchCtx) : io Mht SearchCtx :=
  _ ← io_lift (assert_ (match level_targets with n :: _ => curr_height =? height n | [] => false end));
  match curr_height with
  | 0 => io_lift Panic (* [curr_height - 1] *)
  | S h =>
      let next_level_max_num_data_nodes := max_num_data_nodes h in
      let skipped := sc_pos c / next_level_max_num_data_nodes in
      let pos := sc_pos c - skipped * next_level_max_num_data_nodes in
      let needed := align_up (sc_num c + pos) next_level_max_num_data_nodes / next_level_max_num_data_nodes in
      let target_entries := take needed (drop skipped (concat (map entries level_targets))) in
      if is_lowest_level curr_height then
        _ ← io_lift (assert_ (sc_num c =? needed));
        '(offset, buf) ← read_leaves target_entries (sc_offset c) (sc_buf c);
        mret (mkSearch pos buf offset (sc_num c) true)
      else
        next_level_targets ← read_targets target_entries;
        search_hierarchy h next_level_targets (mkSearch pos (sc_buf c) (sc_offset c) (sc_num c) (is_completed c))
  end.

Definition search (c : SearchCtx) : io Mht SearchCtx :=
  m ← io_get;
  match root_node m with
  | None => io_lift (Err NotFound)
  | Some n =>
      end_ ← io_lift (uadd (sc_pos c) (sc_num c));
      if total_data_nodes m <? end_ then io_lift (Err InvalidArgs) else
      c ← search_data_nodes c;
      if is_completed c then mret c else
      search_hierarchy (height n) [n] c
  end.

(** [CryptoLog::read] into [buf]: the bytes it then holds. *)
Definition read (pos : nat) (buf : list byte) : io Mht (list byte) :=
  c ← search (mkSearch pos buf 0 (nblocks_of buf) false);
  _ ← io_lift (assert_ (is_completed c));
  mret (sc_buf c).
End mht.
Arguments AppendDataBuf : clear implicits.
Arguments AppendDataBuf _ : clear implicits.
Arguments Mht : clear implicits.
Arguments Mht _ _ _ : clear implicits.
