(* ===== verification/CryptoLogSpec.v ===== *)
(** * CryptoLogSpec: the Merkle tree of a log holds what was appended

    [node_ok] relates a node of the tree to the blocks below it, through the blocks of the
    log and the nodes that were written to it.  This file has the classes the log needs, the
    storage methods, the arithmetic of the levels and the nodes of one level;
    [CryptoLogRun] puts them together. *)
From S2P Require Import Prelude Bio CryptoChain CryptoLog.

(** ** [slice::chunks] *)
Definition cdiv (a b : nat) : nat := (a + b - 1) / b.

Lemma align_up_div x a : 0 < a → align_up x a / a = cdiv x a.
Proof. intros Ha. unfold align_up. by rewrite Nat.div_mul by lia. Qed.

Lemma cdiv_0 b : 0 < b → cdiv 0 b = 0.
Proof. intros Hb. unfold cdiv. apply Nat.div_small. lia. Qed.

Lemma cdiv_pos a b : 0 < b → 0 < a → cdiv a b = S (cdiv (a - b) b).
Proof.
  intros Hb Ha. unfold cdiv. destruct (decide (a ≤ b)).
  - replace (a - b) with 0 by lia. rewrite (Nat.div_small (0 + b - 1)) by lia.
    symmetry. apply Nat.div_unique with (a - 1); lia.
  - replace (a + b - 1) with ((a - b + b - 1) + 1 * b) by lia. rewrite Nat.div_add by lia. lia.
Qed.

Lemma cdiv_spec a b k : 0 < b → cdiv a b ≤ k ↔ a ≤ k * b.
Proof.
  intros Hb. unfold cdiv. rewrite (Nat.mul_comm k b). split; intros H.
  - destruct (decide (a ≤ b * k)); [done|]. exfalso.
    assert (S k ≤ (a + b - 1) / b); [|lia]. apply Nat.div_le_lower_bound; lia.
  - apply Nat.lt_succ_r, Nat.Div0.div_lt_upper_bound; lia.
Qed.

Section chunks.
Context {T : Type}.
Implicit Types (l : list T).

Lemma chunks_fuel_enough s : 0 < s → ∀ f1 f2 l,
  length l ≤ f1 → length l ≤ f2 → chunks_fuel f1 s l = chunks_fuel f2 s l.
Proof.
  intros Hs. induction f1 as [|f1 IH]; intros [|f2] [|x l] H1 H2; cbn [length] in *; try done; try lia.
  cbn [chunks_fuel]. f_equal. apply IH; rewrite length_drop; cbn [length]; lia.
Qed.

Lemma chunks_nil s : chunks s ([] : list T) = [].
Proof. done. Qed.

Lemma chunks_step s l : 0 < s → l ≠ [] → chunks s l = take s l :: chunks s (drop s l).
Proof.
  intros Hs Hl. unfold chunks. destruct l as [|x l]; [done|]. cbn [length chunks_fuel]. f_equal.
  apply chunks_fuel_enough; [done|rewrite length_drop; cbn [length]; lia|done].
Qed.

(** Induction over the chunks of a list. *)
Lemma chunks_ind s (Q : list T → Prop) :
  0 < s → Q [] → (∀ l, l ≠ [] → Q (drop s l) → Q l) → ∀ l, Q l.
Proof.
  intros Hs H0 Hstep l. induction (Nat.lt_wf_0_projected length l) as [l _ IH].
  destruct l as [|x l]; [done|]. apply Hstep; [done|]. apply IH. rewrite length_drop. cbn [length]. lia.
Qed.

Lemma length_chunks s l : 0 < s → length (chunks s l) = cdiv (length l) s.
Proof.
  intros Hs. revert l. apply (chunks_ind s); [done|by rewrite cdiv_0|]. intros l Hl IH.
  rewrite chunks_step by done. cbn [length]. rewrite IH, length_drop.
  rewrite (cdiv_pos (length l)); [done|done|destruct l; cbn; [done|lia]].
Qed.

Lemma concat_chunks s l : 0 < s → concat (chunks s l) = l.
Proof.
  intros Hs. revert l. apply (chunks_ind s); [done|done|]. intros l Hl IH.
  rewrite chunks_step by done. cbn [concat]. by rewrite IH, take_drop.
Qed.

Lemma chunks_app s l l' : 0 < s → Nat.divide s (length l) → chunks s (l ++ l') = chunks s l ++ chunks s l'.
Proof.
  intros Hs. revert l. apply (chunks_ind s (λ l, Nat.divide s (length l) → chunks s (l ++ l') = chunks s l ++ chunks s l'));
    [done|done|]. intros l Hl IH [k Hk].
  assert (0 < length l) by (destruct l; cbn; [done|lia]). assert (s ≤ length l) by (destruct k; lia).
  rewrite (chunks_step s l), (chunks_step s (l ++ l')) by (try done; by destruct l).
  rewrite take_app_le, drop_app_le by done. cbn [app]. f_equal. apply IH. rewrite length_drop, Hk. exists (k - 1).
  rewrite Nat.mul_sub_distr_r. lia.
Qed.

Lemma chunks_small s l : l ≠ [] → length l ≤ s → chunks s l = [l].
Proof.
  intros Hl Hs. assert (0 < length l) by (destruct l; cbn; [done|lia]). rewrite chunks_step by (done || lia).
  by rewrite take_ge, drop_ge by done.
Qed.

Lemma drop_chunks s k l : 0 < s → drop k (chunks s l) = chunks s (drop (k * s) l).
Proof.
  intros Hs. revert l. induction k as [|k IH]; intros l; [done|]. destruct (decide (l = [])) as [->|Hl].
  { by rewrite drop_nil. }
  rewrite chunks_step by done. cbn [drop]. by rewrite IH, drop_drop.
Qed.

Lemma take_chunks s k l : 0 < s → take k (chunks s l) = chunks s (take (k * s) l).
Proof.
  intros Hs. revert l. induction k as [|k IH]; intros l; [done|]. destruct (decide (l = [])) as [->|Hl].
  { by rewrite !take_nil. }
  rewrite chunks_step by done. cbn [take]. rewrite IH.
  rewrite (chunks_step s (take _ l)); [|done|].
  - rewrite take_take, Nat.min_l by lia. f_equal. rewrite skipn_firstn_comm. do 2 f_equal. lia.
  - destruct l; [done|]. replace (S k * s) with (S (S k * s - 1)) by lia. done.
Qed.

(** All chunks but the last are full. *)
Lemma chunks_full s l i c : 0 < s → chunks s l !! i = Some c → (i + 1) * s ≤ length l → length c = s.
Proof.
  intros Hs Hi Hl. rewrite <- (take_drop i (chunks s l)), drop_chunks in Hi by done.
  pose proof (lookup_lt_Some _ _ _ Hi) as Hlt. rewrite lookup_app_r in Hi by (rewrite length_take; lia).
  rewrite length_take, Nat.min_l in Hi.
  - rewrite Nat.sub_diag in Hi. assert (drop (i * s) l ≠ []).
    { intros E. apply (f_equal length) in E. rewrite length_drop in E. cbn in E. lia. }
    rewrite chunks_step in Hi by done. injection Hi as <-. rewrite length_take, length_drop. lia.
  - rewrite length_chunks by done. destruct (decide (cdiv (length l) s ≤ i)) as [H|H]; [|lia].
    apply cdiv_spec in H; [lia|done].
Qed.

Lemma chunks_nonempty s l : 0 < s → Forall (λ c, c ≠ []) (chunks s l).
Proof.
  intros Hs. revert l. apply (chunks_ind s); [done|constructor|]. intros l Hl IH. rewrite chunks_step by done.
  constructor; [|done]. destruct l, s; (done || lia).
Qed.
End chunks.

(** Entries for pieces of [s], regrouped by [b], are entries for pieces of [s * b]. *)
Lemma regroup_chunks {X Y} (Q : X → list Y → Prop) s b es ds :
  0 < s → 0 < b → Forall2 Q es (chunks s ds) →
  Forall2 (λ es' ds', Forall2 Q es' (chunks s ds')) (chunks b es) (chunks (s * b) ds).
Proof.
  intros Hs Hb. revert es ds.
  apply (chunks_ind b (λ es, ∀ ds, Forall2 Q es (chunks s ds) →
    Forall2 (λ es' ds', Forall2 Q es' (chunks s ds')) (chunks b es) (chunks (s * b) ds))); [done|..].
  - intros ds Hf. apply Forall2_nil_inv_l in Hf. destruct ds as [|d ds]; [constructor|].
    rewrite chunks_step in Hf by done. done.
  - intros es Hne IH ds Hf. destruct (decide (ds = [])) as [->|Hds].
    { apply Forall2_nil_inv_r in Hf. done. }
    rewrite (chunks_step b es), (chunks_step (s * b) ds) by (try done; lia). constructor.
    + replace (s * b) with (b * s) by lia. rewrite <- take_chunks by done. by apply Forall2_take.
    + apply IH. replace (s * b) with (b * s) by lia. rewrite <- drop_chunks by done. by apply Forall2_drop.
Qed.

(** ** What the log needs of the code around it *)
Definition node_fits {A : Aead} (n : MhtNode A) : Prop :=
  (N.of_nat (height n) < 2 ^ 8)%N ∧ (N.of_nat (num_data_nodes n) < 2 ^ 32)%N ∧
  (N.of_nat (num_valid_entries n) < 2 ^ 16)%N ∧ length (entries n) = MHT_NBRANCHES.

(** A node fills a block, and its fields survive at their widths. *)
Class MhtPodSpec (A : Aead) (MP : MhtPod A) := {
  node_bytes_length n : node_fits n → length (node_bytes n) = BLOCK_SIZE;
  node_roundtrip n : node_fits n → node_from_bytes (node_bytes n) = n;
}.

(** A cache returns a node only where this node was the last one put. *)
Class NodeCacheSpec (A : Aead) (C : Type) {HC : NodeCache A C} := {
  nc_live : C → Prop;
  nc_has : C → BlockId → MhtNode A → Prop;
  nc_get_ok c pos : nc_live c →
    ∃ o c', nc_get c pos = Ok (o, c') ∧ nc_live c' ∧ (∀ n, o = Some n → nc_has c pos n) ∧
      ∀ p n, nc_has c' p n → nc_has c p n;
  nc_put_ok c pos n : nc_live c →
    ∃ c', nc_put c pos n = Ok c' ∧ nc_live c' ∧
      ∀ p n', nc_has c' p n' → (p = pos ∧ n' = n) ∨ (p ≠ pos ∧ nc_has c p n');
}.

(** A block log that grows at its end, by [al_room] more blocks. *)
Class AppendLogSpec (L : Type) {HL : BlockLog L} := {
  al_holds : L → list (list byte) → Prop;
  al_room : L → nat;
  al_read l bs i b : al_holds l bs → bs !! i = Some b → bl_read l i 1 = Ok b;
  al_nblocks l bs : al_holds l bs → bl_nblocks l = length bs;
  al_append l bs cs :
    al_holds l bs → cs ≠ [] → Forall (λ c, length c = BLOCK_SIZE) cs → length cs ≤ al_room l →
    ∃ l', bl_append l (concat cs) = Ok (length bs, l') ∧ al_holds l' (bs ++ cs) ∧
          al_room l = al_room l' + length cs;
}.

Abbreviation B := MHT_NBRANCHES.

Lemma B_pos : 1 < B.
Proof. rewrite MHT_NBRANCHES_eq. lia. Qed.
Lemma pow_B_pos h : 0 < B ^ h.
Proof. pose proof B_pos. apply Nat.neq_0_lt_0, Nat.pow_nonzero. lia. Qed.
#[export] Hint Resolve pow_B_pos : mls.

(** ** The tree *)
Section tree.
Context {A : Aead} {MP : MhtPod A}.
Abbreviation Entry := (MhtNodeEntry A).
Abbreviation Node := (MhtNode A).

(** The nodes written so far, by position, with the secrets that open them. *)
Abbreviation Written := (gmap nat (Key * Iv * Mac * MhtNode A)).

Definition header_ok (h : nat) (n : Node) (ds : list (list byte)) : Prop :=
  height n = h ∧ num_data_nodes n = length ds ∧ num_valid_entries n = cdiv (length ds) (B ^ (h - 1)) ∧
  (0 < length ds ∧ length ds ≤ B ^ h) ∧ node_fits n ∧
  drop (num_valid_entries n) (entries n) = replicate (B - num_valid_entries n) uninit_entry.

(** The entry [e] of a node of height [h + 1] leads to the data blocks [ds]. *)
Fixpoint entry_ok (G : Written) (bs : list (list byte)) (h : nat) (e : Entry) (ds : list (list byte)) : Prop :=
  match h with
  | 0 => ∃ d c, ds = [d] ∧ length d = BLOCK_SIZE ∧ bs !! e_pos e = Some c ∧
           aead_decrypt c (e_key e) zero_iv [] (e_mac e) = Ok d
  | S h' => ∃ n, G !! e_pos e = Some (e_key e, zero_iv, e_mac e, n) ∧ header_ok h n ds ∧
           Forall2 (entry_ok G bs h') (take (num_valid_entries n) (entries n)) (chunks (B ^ h') ds)
  end.

(** The entries [es] lead to [ds], piece by piece. *)
Definition level_ok G bs h (es : list Entry) ds : Prop := Forall2 (entry_ok G bs h) es (chunks (B ^ h) ds).

(** The node [n] of height [h] is the root of a tree over [ds]. *)
Definition node_ok G bs h (n : Node) ds : Prop :=
  match h with
  | 0 => False
  | S h' => header_ok h n ds ∧ level_ok G bs h' (take (num_valid_entries n) (entries n)) ds
  end.

Lemma entry_ok_S G bs h e ds :
  entry_ok G bs (S h) e ds ↔ ∃ n, G !! e_pos e = Some (e_key e, zero_iv, e_mac e, n) ∧ node_ok G bs (S h) n ds.
Proof. done. Qed.

Definition sound (G : Written) (bs : list (list byte)) : Prop :=
  ∀ pos k iv m n, G !! pos = Some (k, iv, m, n) →
    ∃ c, bs !! pos = Some c ∧ aead_decrypt c k iv [] m = Ok (node_bytes n) ∧ node_fits n.

(** Later writes do not touch the tree. *)
Definition grows (G G' : Written) (bs bs' : list (list byte)) : Prop := G ⊆ G' ∧ bs `prefix_of` bs'.

Lemma grows_refl G bs : grows G G bs bs.
Proof. by split. Qed.
Lemma grows_trans G1 G2 G3 bs1 bs2 bs3 : grows G1 G2 bs1 bs2 → grows G2 G3 bs2 bs3 → grows G1 G3 bs1 bs3.
Proof. intros [? ?] [? ?]. split; by etrans. Qed.

Lemma entry_ok_grows G G' bs bs' : grows G G' bs bs' → ∀ h e ds, entry_ok G bs h e ds → entry_ok G' bs' h e ds.
Proof.
  intros [HG [k ->]]. induction h as [|h IH]; intros e ds.
  - intros (d & c & -> & Hl & Hc & Hd). exists d, c. split_and!; try done. by apply lookup_app_l_Some.
  - intros (n & Hn & Hh & Hes). exists n. split; [by eapply lookup_weaken|]. split; [done|].
    eapply Forall2_impl; [exact Hes|]. exact IH.
Qed.

Lemma level_ok_grows G G' bs bs' h es ds : grows G G' bs bs' → level_ok G bs h es ds → level_ok G' bs' h es ds.
Proof. intros Hg Hl. eapply Forall2_impl; [exact Hl|]. by apply entry_ok_grows. Qed.

Lemma node_ok_grows G G' bs bs' h n ds : grows G G' bs bs' → node_ok G bs h n ds → node_ok G' bs' h n ds.
Proof. intros Hg. destruct h; [done|]. intros [Hh Hl]. split; [done|]. by eapply level_ok_grows. Qed.

Lemma node_ok_num G bs h n ds : node_ok G bs h n ds → num_data_nodes n = length ds.
Proof. destruct h; [done|]. by intros [(_ & ? & _) _]. Qed.
Lemma node_ok_height G bs h n ds : node_ok G bs h n ds → height n = h.
Proof. destruct h; [done|]. by intros [(? & _) _]. Qed.
Lemma node_ok_len G bs h n ds : node_ok G bs h n ds → 0 < length ds ≤ B ^ h.
Proof. destruct h; [done|]. intros [(_ & _ & _ & ? & _) _]. lia. Qed.
Lemma node_ok_fits G bs h n ds : node_ok G bs h n ds → node_fits n.
Proof. destruct h; [done|]. by intros [(_ & _ & _ & _ & ? & _) _]. Qed.
Lemma node_ok_padding G bs h n ds :
  node_ok G bs h n ds → drop (num_valid_entries n) (entries n) = replicate (B - num_valid_entries n) uninit_entry.
Proof. destruct h; [done|]. by intros [(_ & _ & _ & _ & _ & ?) _]. Qed.

(** The valid entries are few enough for the array. *)
Lemma node_ok_valid G bs h n ds :
  node_ok G bs (S h) n ds → num_valid_entries n = cdiv (length ds) (B ^ h) ∧ 0 < num_valid_entries n ≤ B.
Proof.
  intros [(_ & _ & Hv & [H0 Hle] & _) _]. cbn in Hv. rewrite Nat.sub_0_r in Hv. split; [done|]. rewrite Hv.
  pose proof (pow_B_pos h). split; [rewrite cdiv_pos by lia; lia|]. apply cdiv_spec; [done|]. by rewrite Nat.pow_succ_r' in Hle.
Qed.
End tree.

(** ** The storage *)

(** [io_step H]: the first action returned as [H] says. *)
Ltac io_step H := rewrite (io_bind_Ok _ _ _ _ _ H); cbv beta iota.

Section storage.
Context {A : Aead} {HA : AeadSpec A} {MP : MhtPod A} {HMP : MhtPodSpec A MP} {R : Random A} {P : Pages} {HP : PagesSpec P}.
Context {L : Type} {HL : BlockLog L} {HLS : AppendLogSpec L} {C : Type} {HC : NodeCache A C} {HCS : NodeCacheSpec A C}.
Abbreviation Entry := (MhtNodeEntry A).
Abbreviation Node := (MhtNode A).
Abbreviation Storage := (MhtStorage L C).
Abbreviation Written := (gmap nat (Key * Iv * Mac * MhtNode A)).
Implicit Types (s : Storage) (G : Written) (bs cs ds : list (list byte)) (es : list Entry) (ns : list Node).

Definition cache_ok (c : C) G : Prop :=
  nc_live c ∧ ∀ pos n, nc_has c pos n → ∃ k iv m, G !! pos = Some (k, iv, m, n).

Definition sto_ok s G bs : Prop :=
  al_holds (block_log s) bs ∧ cache_ok (node_cache s) G ∧ sound G bs.

Definition room s : nat := al_room (block_log s).

Lemma cache_put_ok s pos k iv m n G :
  cache_ok (node_cache s) G → G !! pos = Some (k, iv, m, n) →
  ∃ s', cache_put pos n s = (Ok (), s') ∧ cache_ok (node_cache s') G ∧ block_log s' = block_log s.
Proof.
  intros [Hl Hc] Hn. unfold cache_put. destruct (nc_put_ok (node_cache s) pos n Hl) as (c' & -> & Hl' & Hc').
  eexists. split; [done|]. split; [|done]. split; [done|]. intros p n' Hp.
  destruct (Hc' _ _ Hp) as [[-> ->]|[_ Hp']]; eauto.
Qed.

Lemma read_mht_node_ok s pos k iv m n G bs :
  sto_ok s G bs → G !! pos = Some (k, iv, m, n) →
  ∃ s', read_mht_node pos k m iv s = (Ok n, s') ∧ sto_ok s' G bs ∧ block_log s' = block_log s.
Proof.
  intros (Hlog & [Hlive Hc] & Hs) Hn. unfold read_mht_node.
  destruct (nc_get_ok (node_cache s) pos Hlive) as (o & c' & Hget & Hlive' & Ho & Hsub).
  set (s1 := mkStorage (block_log s) c' (draws s)).
  assert (Hg : cache_get pos s = (Ok o, s1)) by (unfold cache_get; by rewrite Hget). io_step Hg.
  assert (Hc1 : cache_ok (node_cache s1) G) by (split; [done|]; intros p n' Hp; by apply Hc, Hsub).
  destruct o as [n'|].
  - destruct (Hc _ _ (Ho n' eq_refl)) as (k' & iv' & m' & Hn'). rewrite Hn in Hn'. injection Hn' as _ _ _ <-.
    exists s1. by split.
  - destruct (Hs _ _ _ _ _ Hn) as (c & Hb & Hd & Hf).
    assert (Hr : log_read pos s1 = (Ok c, s1)) by (unfold log_read; by rewrite (al_read _ bs pos c)). io_step Hr.
    rewrite Hd, io_bind_lift, node_roundtrip by done.
    destruct (cache_put_ok s1 pos k iv m n G Hc1 Hn) as (s2 & Hp & Hc2 & Hl2). io_step Hp.
    exists s2. split; [done|]. split; [|done]. unfold sto_ok. by rewrite Hl2.
Qed.

Lemma read_data_node_ok s e d G bs :
  sto_ok s G bs → entry_ok G bs 0 e [d] → read_data_node e s = (Ok d, s).
Proof.
  intros (Hlog & _ & _) (d' & c & [= <-] & _ & Hb & Hd). unfold read_data_node.
  assert (Hr : log_read (e_pos e) s = (Ok c, s)) by (unfold log_read; by rewrite (al_read _ bs _ c)). io_step Hr.
  by rewrite Hd.
Qed.

(** *** Sealing *)

(** Entries, cipher blocks and plain blocks of the positions from [pos] on. *)
Fixpoint sealed (pos : nat) es cs ds : Prop :=
  match es, cs, ds with
  | [], [], [] => True
  | e :: es, c :: cs, d :: ds =>
      (e_pos e = pos ∧ length c = BLOCK_SIZE ∧ aead_decrypt c (e_key e) zero_iv [] (e_mac e) = Ok d) ∧
      sealed (S pos) es cs ds
  | _, _, _ => False
  end.

Lemma sealed_length pos es cs ds : sealed pos es cs ds → length es = length ds ∧ length cs = length ds.
Proof.
  revert pos cs ds. induction es as [|e es IH]; intros pos [|c cs] [|d ds]; cbn; try done. intros [_ H].
  apply IH in H. lia.
Qed.

Lemma sealed_blocks pos es cs ds : sealed pos es cs ds → Forall (λ c, length c = BLOCK_SIZE) cs.
Proof.
  revert pos es ds. induction cs as [|c cs IH]; intros pos [|e es] [|d ds]; cbn; try done.
  intros [(_ & Hc & _) H]. constructor; [done|]. by eapply IH.
Qed.

Lemma seal_node_ok s plain i pos buf :
  length plain = BLOCK_SIZE → (i + 1) * BLOCK_SIZE ≤ length buf →
  ∃ e c s', seal_node plain i pos buf s = (Ok (e, splice buf (i * BLOCK_SIZE) c), s') ∧
    (e_pos e = pos ∧ length c = BLOCK_SIZE ∧ aead_decrypt c (e_key e) zero_iv [] (e_mac e) = Ok plain) ∧
    block_log s' = block_log s ∧ node_cache s' = node_cache s.
Proof.
  intros Hp Hb. unfold seal_node.
  set (k := rand_key (draws s)). set (s' := mkStorage (block_log s) (node_cache s) (S (draws s))).
  assert (Hk : random_key s = (Ok k, s')) by done. io_step Hk.
  destruct (encrypt_total plain k zero_iv []) as (c & m & Hc). rewrite Hc, io_bind_lift.
  pose proof (encrypt_length _ _ _ _ _ _ Hc) as Hl.
  rewrite copy_from_slice_ok by lia. rewrite io_bind_lift. exists (mkEntry A pos k m), c, s'. split; [done|].
  split; [|done]. cbn. split; [done|]. split; [lia|]. by apply decrypt_encrypt.
Qed.

(** Writing the blocks [c] and then [cs] next to each other. *)
Lemma splice_next (buf c tail : list byte) i :
  length c = BLOCK_SIZE → (i + 1) * BLOCK_SIZE + length tail ≤ length buf →
  splice (splice buf (i * BLOCK_SIZE) c) ((i + 1) * BLOCK_SIZE) tail = splice buf (i * BLOCK_SIZE) (c ++ tail).
Proof.
  intros Hc Hl. unfold splice. rewrite length_app, Hc.
  rewrite (app_assoc (take (i * BLOCK_SIZE) buf) c).
  rewrite take_app_length' by (rewrite length_app, length_take, Hc; lia).
  rewrite <- !app_assoc. do 3 f_equal.
  rewrite (app_assoc (take (i * BLOCK_SIZE) buf) c).
  rewrite drop_app_ge by (rewrite length_app, length_take, Hc; lia). rewrite drop_drop. f_equal.
  rewrite length_app, length_take, Hc. lia.
Qed.

Lemma seal_data_nodes_ok : ∀ ds s i pos buf,
  Forall (λ d, length d = BLOCK_SIZE) ds → (i + length ds) * BLOCK_SIZE ≤ length buf →
  ∃ es cs s', seal_data_nodes ds i pos buf s = (Ok (es, splice buf (i * BLOCK_SIZE) (concat cs)), s') ∧
    sealed pos es cs ds ∧ block_log s' = block_log s ∧ node_cache s' = node_cache s.
Proof.
  induction ds as [|d ds IH]; intros s i pos buf Hd Hb.
  - exists [], [], s. split; [|done]. cbn. unfold splice. cbn. by rewrite Nat.add_0_r, take_drop.
  - apply Forall_cons in Hd as [Hd Hds]. cbn [length] in Hb. cbn [seal_data_nodes].
    destruct (seal_node_ok s d i pos buf Hd ltac:(lia)) as (e & c & s1 & Hs1 & He & Hl1 & Hc1). io_step Hs1.
    destruct (IH s1 (i + 1) (pos + 1) (splice buf (i * BLOCK_SIZE) c) Hds) as (es & cs & s2 & Hs2 & Hse & Hl2 & Hc2).
    { rewrite splice_length by lia. lia. }
    io_step Hs2. exists (e :: es), (c :: cs), s2. split.
    + cbn [concat]. rewrite splice_next; [done|tauto|].
      pose proof (sealed_length _ _ _ _ Hse) as [_ Hlen].
      rewrite (length_concat_same BLOCK_SIZE) by (by eapply sealed_blocks). lia.
    + split; [split; [done|]; by replace (S pos) with (pos + 1) by lia|]. split; congruence.
Qed.

Lemma sealed_lookup : ∀ es pos cs ds j e,
  sealed pos es cs ds → es !! j = Some e →
  ∃ c d, cs !! j = Some c ∧ ds !! j = Some d ∧ e_pos e = pos + j ∧
    aead_decrypt c (e_key e) zero_iv [] (e_mac e) = Ok d.
Proof.
  induction es as [|e0 es IH]; intros pos [|c cs] [|d ds] j e; cbn; try done.
  intros [(Hp & _ & Hd) Hs]. destruct j as [|j]; cbn.
  - intros [= <-]. exists c, d. split_and!; try done. lia.
  - intros Hj. destruct (IH _ _ _ _ _ Hs Hj) as (c' & d' & ? & ? & ? & ?). exists c', d'. split_and!; try done. lia.
Qed.

Lemma chunks_1 {T} (l : list T) : chunks 1 l = map (λ x, [x]) l.
Proof. induction l as [|x l IH]; [done|]. rewrite chunks_step by (done || lia). exact (f_equal (cons [x]) IH). Qed.

Lemma sealed_level G : ∀ es bs cs ds,
  sealed (length bs) es cs ds → Forall (λ d, length d = BLOCK_SIZE) ds → level_ok G (bs ++ cs) 0 es ds.
Proof.
  unfold level_ok. cbn [Nat.pow]. intros es bs cs ds Hs Hd. rewrite chunks_1. apply Forall2_fmap_r.
  apply Forall2_same_length_lookup_2; [exact (proj1 (sealed_length _ _ _ _ Hs))|]. intros i e d He Hi.
  destruct (sealed_lookup _ _ _ _ _ _ Hs He) as (c & d' & Hc & Hd' & Hp & Hdec). rewrite Hi in Hd'. injection Hd' as <-.
  exists d, c. split; [done|]. split; [exact (Forall_lookup_1 _ _ _ _ Hd Hi)|]. split; [|done].
  rewrite Hp, lookup_app_r by lia. by replace (length bs + i - length bs) with i by lia.
Qed.

(** The blocks of a full buffer. *)
Lemma sealed_buf (n : nat) (buf : list byte) pos es cs ds :
  sealed pos es cs ds → length buf = length ds * BLOCK_SIZE → splice buf (0 * BLOCK_SIZE) (concat cs) = concat cs.
Proof.
  intros Hs Hb. apply splice_all. rewrite (length_concat_same BLOCK_SIZE) by (by eapply sealed_blocks).
  apply sealed_length in Hs as [_ ->]. lia.
Qed.

Lemma log_append_ok s bs cs :
  al_holds (block_log s) bs → cs ≠ [] → Forall (λ c, length c = BLOCK_SIZE) cs → length cs ≤ room s →
  ∃ s', log_append (concat cs) s = (Ok (length bs), s') ∧ al_holds (block_log s') (bs ++ cs) ∧
    node_cache s' = node_cache s ∧ room s = room s' + length cs.
Proof.
  intros Hl Hne Hc Hr. unfold log_append. destruct (al_append _ _ _ Hl Hne Hc Hr) as (l' & -> & Hl' & Hr'). eauto.
Qed.

Lemma storage_append_data_nodes_ok s G bs ds :
  sto_ok s G bs → Forall (λ d, length d = BLOCK_SIZE) ds → length ds ≤ room s →
  ∃ es s' cs, storage_append_data_nodes ds s = (Ok es, s') ∧ sto_ok s' G (bs ++ cs) ∧
    level_ok G (bs ++ cs) 0 es ds ∧ room s = room s' + length ds.
Proof.
  intros (Hlog & Hc & Hs) Hds Hr. unfold storage_append_data_nodes. destruct (length ds =? 0) eqn:E; bool_simpl.
  { destruct ds; [|done]. exists [], s, []. rewrite app_nil_r. split; [done|]. split; [done|]. split; [constructor|]. cbn. lia. }
  destruct (Buf_alloc_ok 0 (length ds) ltac:(lia)) as (buf & -> & Hbuf). rewrite io_bind_lift.
  assert (Hn : log_nblocks s = (Ok (length bs), s)) by (unfold log_nblocks; by rewrite (al_nblocks _ bs)). io_step Hn.
  destruct (seal_data_nodes_ok ds s 0 (length bs) buf Hds ltac:(lia)) as (es & cs & s1 & Hs1 & Hse & Hl1 & Hc1). io_step Hs1.
  rewrite (sealed_buf 0 buf _ _ _ _ Hse) by done. pose proof (sealed_length _ _ _ _ Hse) as [Hle Hlc].
  destruct (log_append_ok s1 bs cs) as (s2 & Hs2 & Hl2 & Hc2 & Hr2).
  { by rewrite Hl1. } { by destruct cs. } { by eapply sealed_blocks. } { unfold room in *. rewrite Hl1. lia. }
  io_step Hs2. rewrite Nat.eqb_refl. exists es, s2, cs. split; [done|]. split.
  - split; [done|]. split; [by rewrite Hc2, Hc1|]. intros pos k iv m n Hn'. destruct (Hs _ _ _ _ _ Hn') as (c & Hb & Hx).
    exists c. split; [by apply lookup_app_l_Some|done].
  - split; [by apply sealed_level|]. unfold room in *. rewrite Hl1 in Hr2. lia.
Qed.

(** The node an entry refers to. *)
Definition refers G (e : Entry) (n : Node) : Prop := G !! e_pos e = Some (e_key e, zero_iv, e_mac e, n).

Lemma seal_mht_nodes_ok : ∀ ns s i pos buf G,
  Forall node_fits ns → (i + length ns) * BLOCK_SIZE ≤ length buf →
  cache_ok (node_cache s) G → (∀ p, pos ≤ p → G !! p = None) →
  ∃ es cs s' G', seal_mht_nodes ns i pos buf s = (Ok (es, splice buf (i * BLOCK_SIZE) (concat cs)), s') ∧
    sealed pos es cs (map node_bytes ns) ∧ block_log s' = block_log s ∧ cache_ok (node_cache s') G' ∧
    G ⊆ G' ∧ Forall2 (refers G') es ns ∧
    ∀ p x, G' !! p = Some x → G !! p = Some x ∨
      ∃ j e n, p = pos + j ∧ es !! j = Some e ∧ ns !! j = Some n ∧ x = (e_key e, zero_iv, e_mac e, n).
Proof.
  induction ns as [|n ns IH]; intros s i pos buf G Hf Hb Hc Hfree.
  - exists [], [], s, G. split; [|split_and!; try done; by left].
    cbn. unfold splice. cbn. by rewrite Nat.add_0_r, take_drop.
  - apply Forall_cons in Hf as [Hn Hns]. cbn [length] in Hb. cbn [seal_mht_nodes].
    destruct (seal_node_ok s (node_bytes n) i pos buf) as (e & c & s1 & Hs1 & (Hep & He) & Hl1 & Hc1);
      [by apply node_bytes_length|lia|]. io_step Hs1.
    set (G1 := <[pos := (e_key e, zero_iv, e_mac e, n)]> G).
    assert (HG1 : G ⊆ G1) by (apply insert_subseteq, Hfree; lia).
    assert (Hc1' : cache_ok (node_cache s1) G1).
    { rewrite Hc1. destruct Hc as [Hl Hc]. split; [done|]. intros p n' (k & iv & m & Hp)%Hc. exists k, iv, m.
      by eapply lookup_weaken. }
    destruct (cache_put_ok s1 pos (e_key e) zero_iv (e_mac e) n G1 Hc1') as (s2 & Hs2 & Hc2 & Hl2);
      [apply lookup_insert_eq|]. io_step Hs2.
    destruct (IH s2 (i + 1) (pos + 1) (splice buf (i * BLOCK_SIZE) c) G1 Hns) as
      (es & cs & s3 & G' & Hs3 & Hse & Hl3 & Hc3 & HG & Href & Hnew).
    { rewrite splice_length by lia. lia. } { done. }
    { intros p Hp. unfold G1. rewrite lookup_insert_ne by lia. apply Hfree. lia. }
    io_step Hs3. exists (e :: es), (c :: cs), s3, G'. split.
    { cbn [concat]. rewrite splice_next; [done|tauto|]. pose proof (sealed_length _ _ _ _ Hse) as [_ Hlen].
      rewrite length_map in Hlen. rewrite (length_concat_same BLOCK_SIZE) by (by eapply sealed_blocks). lia. }
    split; [split; [done|]; by replace (S pos) with (pos + 1) by lia|]. split; [congruence|]. split; [done|].
    split; [by etrans|]. split.
    { constructor; [|done]. unfold refers. eapply lookup_weaken; [|exact HG]. rewrite Hep. apply lookup_insert_eq. }
    intros p x [Hp|(j & e' & n' & -> & He' & Hn' & ->)]%Hnew.
    + unfold G1 in Hp. destruct (decide (p = pos)) as [->|Hne].
      * rewrite lookup_insert_eq in Hp. injection Hp as <-. right. exists 0, e, n. split_and!; try done; lia.
      * rewrite lookup_insert_ne in Hp by done. by left.
    + right. exists (S j), e', n'. split_and!; try done. lia.
Qed.

Lemma sound_lt G bs p : sound G bs → length bs ≤ p → G !! p = None.
Proof.
  intros Hs Hp. destruct (G !! p) as [[[[k iv] m] n]|] eqn:E; [|done].
  destruct (Hs _ _ _ _ _ E) as (c & Hc & _). apply lookup_lt_Some in Hc. lia.
Qed.

Lemma append_mht_nodes_ok s G bs ns :
  sto_ok s G bs → ns ≠ [] → Forall node_fits ns → length ns ≤ room s →
  ∃ es s' G' cs, append_mht_nodes ns s = (Ok es, s') ∧ sto_ok s' G' (bs ++ cs) ∧ grows G G' bs (bs ++ cs) ∧
    Forall2 (refers G') es ns ∧ room s = room s' + length ns.
Proof.
  intros (Hlog & Hc & Hs) Hne Hf Hr. unfold append_mht_nodes.
  assert (0 < length ns) by (destruct ns; cbn; [done|lia]).
  destruct (Buf_alloc_ok 0 (length ns) ltac:(lia)) as (buf & -> & Hbuf). rewrite io_bind_lift.
  assert (Hn : log_nblocks s = (Ok (length bs), s)) by (unfold log_nblocks; by rewrite (al_nblocks _ bs)). io_step Hn.
  destruct (seal_mht_nodes_ok ns s 0 (length bs) buf G Hf ltac:(lia) Hc (λ p, sound_lt G bs p Hs)) as
    (es & cs & s1 & G' & Hs1 & Hse & Hl1 & Hc1 & HG & Href & Hnew). io_step Hs1.
  rewrite (sealed_buf 0 buf _ _ _ _ Hse) by (by rewrite length_map).
  pose proof (sealed_length _ _ _ _ Hse) as [Hle Hlc]. rewrite length_map in *.
  destruct (log_append_ok s1 bs cs) as (s2 & Hs2 & Hl2 & Hc2 & Hr2).
  { by rewrite Hl1. } { destruct cs; [cbn in Hlc; lia|done]. } { by eapply sealed_blocks. }
  { unfold room in *. rewrite Hl1. lia. }
  io_step Hs2. rewrite Nat.eqb_refl. exists es, s2, G', cs. split; [done|]. split; [split; [done|split; [by rewrite Hc2|]]|].
  - intros p k iv m n [Hp|(j & e & n' & -> & He & Hn' & [= -> -> -> ->])]%Hnew.
    + destruct (Hs _ _ _ _ _ Hp) as (c & Hb & Hx). exists c. split; [by apply lookup_app_l_Some|done].
    + destruct (sealed_lookup _ _ _ _ _ _ Hse He) as (c & d & Hcj & Hd & _ & Hdec).
      rewrite list_lookup_fmap, Hn' in Hd. injection Hd as <-. exists c.
      split; [rewrite lookup_app_r by lia; by replace (length bs + j - length bs) with j by lia|]. split; [done|].
      exact (Forall_lookup_1 _ _ _ _ Hf Hn').
  - split; [split; [done|by eexists]|]. split; [done|]. unfold room in *. rewrite Hl1 in Hr2. lia.
Qed.

Lemma append_root_ok s G bs key n :
  sto_ok s G bs → node_fits n → 1 ≤ room s →
  ∃ m s' G' cs, append_root_mht_node key n s = (Ok m, s') ∧ sto_ok s' G' (bs ++ cs) ∧ grows G G' bs (bs ++ cs) ∧
    G' !! rm_pos m = Some (key, rm_iv m, rm_mac m, n) ∧ room s = room s' + 1.
Proof.
  intros (Hlog & Hc & Hs) Hf Hr. unfold append_root_mht_node.
  set (iv := rand_iv (draws s)). set (s0 := mkStorage (block_log s) (node_cache s) (S (draws s))).
  assert (Hiv : random_iv s = (Ok iv, s0)) by done. io_step Hiv.
  destruct (encrypt_total (node_bytes n) key iv []) as (c & mac & He). rewrite He, io_bind_lift.
  pose proof (encrypt_length _ _ _ _ _ _ He) as Hlen. rewrite node_bytes_length in Hlen by done.
  destruct (log_append_ok s0 bs [c] Hlog) as (s1 & Hs1 & Hl1 & Hc1 & Hr1); [done|by constructor|done|].
  cbn [concat] in Hs1. rewrite app_nil_r in Hs1. io_step Hs1.
  set (G' := <[length bs := (key, iv, mac, n)]> G).
  assert (HG : G ⊆ G') by (apply insert_subseteq, (sound_lt _ bs); [done|lia]).
  destruct (cache_put_ok s1 (length bs) key iv mac n G') as (s2 & Hs2 & Hc2 & Hl2).
  { rewrite Hc1. destruct Hc as [Hl Hc]. split; [done|]. intros p n' (k & iv' & m & Hp)%Hc. exists k, iv', m.
    by eapply lookup_weaken. } { apply lookup_insert_eq. }
  io_step Hs2. eexists _, s2, G', [c]. split; [done|]. split; [split; [by rewrite Hl2|split; [done|]]|].
  - intros p k iv' m n'. unfold G'. destruct (decide (p = length bs)) as [->|Hne].
    + rewrite lookup_insert_eq. intros [= <- <- <- <-]. exists c. split; [by rewrite lookup_app_r, Nat.sub_diag by lia|].
      split; [by apply decrypt_encrypt|done].
    + rewrite lookup_insert_ne by done. intros Hp. destruct (Hs _ _ _ _ _ Hp) as (c' & Hb & Hx).
      exists c'. split; [by apply lookup_app_l_Some|done].
  - split; [split; [done|by eexists]|]. split; [apply lookup_insert_eq|]. unfold room in *. rewrite Hl2. cbn in Hr1. lia.
Qed.
End storage.

(** ** Arithmetic of the levels *)
Section arith.
Lemma cdiv_exact a b : 0 < b → Nat.divide b a → cdiv a b = a / b.
Proof.
  intros Hb [q ->]. unfold cdiv. rewrite Nat.div_mul by lia. symmetry. apply Nat.div_unique with (b - 1); lia.
Qed.

Lemma cdiv_inexact a b : 0 < b → ¬ Nat.divide b a → cdiv a b = S (a / b).
Proof.
  intros Hb Hn. unfold cdiv. pose proof (Nat.div_mod_eq a b) as Hd. pose proof (Nat.mod_upper_bound a b ltac:(lia)).
  assert (a mod b ≠ 0) by (intros E; apply Hn; exists (a / b); lia).
  symmetry. apply Nat.div_unique with (a mod b - 1); lia.
Qed.

Lemma cdiv_shift q a b : 0 < b → cdiv (q * b + a) b = q + cdiv a b.
Proof.
  intros Hb. unfold cdiv. destruct a as [|a].
  - rewrite Nat.add_0_r. rewrite (Nat.div_small (0 + b - 1)), Nat.add_0_r by lia.
    symmetry. apply Nat.div_unique with (b - 1); lia.
  - replace (q * b + S a + b - 1) with (S a + b - 1 + q * b) by lia. rewrite Nat.div_add by lia. lia.
Qed.

Lemma div_shift q a b : 0 < b → (q * b + a) / b = q + a / b.
Proof. intros Hb. rewrite Nat.add_comm, Nat.div_add by lia. lia. Qed.

Lemma pow_divide i j : i ≤ j → Nat.divide (B ^ i) (B ^ j).
Proof. intros Hij. exists (B ^ (j - i)). rewrite <- Nat.pow_add_r. f_equal. lia. Qed.

Lemma pow_mono i j : i ≤ j → B ^ i ≤ B ^ j.
Proof. intros Hij. pose proof B_pos. apply Nat.pow_le_mono_r; lia. Qed.

Lemma mod_0_divide a b : 0 < b → a mod b = 0 ↔ Nat.divide b a.
Proof. intros Hb. apply Nat.Lcm0.mod_divide. Qed.

Lemma divide_sub_iff b q a : Nat.divide b (q * b + a) ↔ Nat.divide b a.
Proof.
  split; intros H.
  - apply (Nat.divide_add_cancel_r b (q * b)); [by exists q|done].
  - apply Nat.divide_add_r; [by exists q|done].
Qed.

(** The start of the last piece of [B ^ h] among [n]. *)
Definition last_start (n h : nat) : nat := (cdiv n (B ^ h) - 1) * B ^ h.

Lemma last_start_le n h : 0 < n → last_start n h < n.
Proof.
  intros Hn. unfold last_start. pose proof (pow_B_pos h). rewrite cdiv_pos by lia. cbn.
  destruct (decide (n ≤ B ^ h)).
  - replace (n - B ^ h) with 0 by lia. rewrite cdiv_0 by lia. lia.
  - rewrite Nat.sub_0_r. set (q := cdiv (n - B ^ h) (B ^ h)).
    assert (¬ n - B ^ h ≤ (q - 1) * B ^ h).
    { rewrite <- cdiv_spec by done. fold q. assert (0 < q); [|lia]. unfold q. rewrite cdiv_pos by lia. lia. }
    destruct q as [|q]; [lia|]. cbn in *. rewrite Nat.sub_0_r in *. lia.
Qed.

Lemma last_start_divide n h : Nat.divide (B ^ h) (last_start n h).
Proof. by eexists. Qed.

Lemma last_start_root n h : 0 < n → n ≤ B ^ h → last_start n h = 0.
Proof.
  intros Hn Hle. unfold last_start. assert (cdiv n (B ^ h) ≤ 1) by (apply cdiv_spec; [apply pow_B_pos|lia]).
  replace (cdiv n (B ^ h) - 1) with 0 by lia. done.
Qed.

Lemma last_start_inexact n h : ¬ Nat.divide (B ^ h) n → last_start n h = n / B ^ h * B ^ h.
Proof. intros Hn. unfold last_start. rewrite cdiv_inexact by (done || apply pow_B_pos). f_equal. lia. Qed.

(** The last piece of [B ^ h] is the last piece of the last piece of [B ^ S h]. *)
Lemma last_start_S n h : 0 < n →
  last_start n (S h) + last_start (n - last_start n (S h)) h = last_start n h.
Proof.
  intros Hn. pose proof (last_start_le n (S h) Hn) as Hlt. pose proof (pow_B_pos h) as Hp.
  destruct (Nat.divide_trans _ _ _ (pow_divide h (S h) ltac:(lia)) (last_start_divide n (S h))) as [q Hq].
  revert Hlt Hq. generalize (last_start n (S h)). intros st Hlt ->.
  unfold last_start at 2. replace n with (q * B ^ h + (n - q * B ^ h)) at 2 by lia.
  rewrite cdiv_shift by done. unfold last_start. set (c := cdiv (n - q * B ^ h) (B ^ h)).
  assert (0 < c) by (unfold c; rewrite cdiv_pos by lia; lia). nia.
Qed.

(** *** [ilog] and the target height *)
Lemma ilog_fuel_spec : ∀ fuel n, 0 < n → n ≤ fuel → B ^ ilog_fuel fuel n ≤ n < B ^ S (ilog_fuel fuel n).
Proof.
  pose proof B_pos as HB. induction fuel as [|fuel IH]; intros n Hn Hf; [lia|]. cbn [ilog_fuel].
  destruct (n <? B) eqn:E; bool_simpl; [cbn; lia|].
  assert (Hd : 0 < n / B) by (apply Nat.div_str_pos; lia).
  assert (Hlt : n / B < n) by (apply Nat.div_lt; lia). specialize (IH (n / B) Hd ltac:(lia)).
  pose proof (Nat.div_mod_eq n B). pose proof (Nat.mod_upper_bound n B ltac:(lia)).
  rewrite !Nat.pow_succ_r' in *. set (p := B ^ ilog_fuel fuel (n / B)) in *. nia.
Qed.

(** The height of a tree over [n] blocks. *)
Definition height_of (n h : nat) : Prop := 0 < h ∧ n ≤ B ^ h ∧ (h = 1 ∨ B ^ (h - 1) < n).

Lemma calc_target_height_ok n : 0 < n → ∃ h, calc_target_height n = Ok h ∧ height_of n h.
Proof.
  intros Hn. unfold calc_target_height, ilog. rewrite (proj2 (Nat.eqb_neq n 0)) by lia. bind_step.
  pose proof (ilog_fuel_spec n n Hn ltac:(lia)) as [Hlo Hhi]. set (t := ilog_fuel n n) in *.
  eexists. split; [done|]. destruct (B ^ t <? n) eqn:E; bool_simpl; cbn [orb].
  - rewrite Nat.add_1_r. split; [lia|]. split; [lia|]. right. cbn. by rewrite Nat.sub_0_r.
  - assert (n = B ^ t) as Hn' by lia. destruct (t =? 0) eqn:E0; bool_simpl.
    + clearbody t. subst t. pose proof B_pos. cbn in *. split; [lia|]. cbn. lia.
    + split; [lia|]. split; [lia|]. right. rewrite Hn'. pose proof B_pos. apply Nat.pow_lt_mono_r; lia.
Qed.

Lemma height_of_mono n n' h h' : height_of n h → height_of n' h' → n ≤ n' → h ≤ h'.
Proof.
  intros (H0 & Hle & Hlo) (H0' & Hle' & Hlo') Hn. destruct Hlo as [->|Hlo]; [lia|].
  destruct (decide (h ≤ h')) as [|Hgt]; [done|]. pose proof (pow_mono h' (h - 1) ltac:(lia)). lia.
Qed.

(** A [u32] of blocks needs at most five levels. *)
Lemma height_of_small n h : (N.of_nat n < 2 ^ 32)%N → height_of n h → h ≤ 5.
Proof.
  intros Hn (_ & _ & [->|Hlo]); [lia|]. destruct (decide (h ≤ 5)) as [|Hgt]; [done|]. exfalso.
  pose proof (pow_mono 5 (h - 1) ltac:(lia)) as Hp.
  assert (N.of_nat (B ^ 5) ≤ N.of_nat n)%N as Hle.
  { revert Hp Hlo. generalize (B ^ 5) (B ^ (h - 1)). lia. }
  rewrite Nat2N.inj_pow, MHT_NBRANCHES_eq in Hle.
  assert ((2 ^ 32 < N.of_nat 102 ^ N.of_nat 5)%N) by (vm_compute; done). lia.
Qed.
End arith.

(** ** Building a level *)
Section level.
Context {A : Aead} {MP : MhtPod A}.
Abbreviation Entry := (MhtNodeEntry A).
Abbreviation Node := (MhtNode A).
Abbreviation Written := (gmap nat (Key * Iv * Mac * MhtNode A)).
Implicit Types (G : Written) (bs ds : list (list byte)) (es : list Entry) (ns : list Node).

Lemma level_ok_length G bs h es ds : level_ok G bs h es ds → length es = cdiv (length ds) (B ^ h).
Proof. intros Hl. apply Forall2_length in Hl. by rewrite length_chunks in Hl by apply pow_B_pos. Qed.

Lemma fits_B n : n ≤ B → (N.of_nat n < 2 ^ 16)%N.
Proof.
  intros Hn. rewrite MHT_NBRANCHES_eq in Hn. apply N.le_lt_trans with 102%N; [lia|by vm_compute].
Qed.

Lemma as_u16_B n : n ≤ B → as_u16 n = n.
Proof. intros Hn. unfold as_u16. rewrite N.mod_small by (by apply fits_B). apply Nat2N.id. Qed.

(** A node over the entries [es], with the counts the builder gives it. *)
Lemma built_ok G bs h es ds :
  level_ok G bs h es ds → 0 < length ds → length ds ≤ B ^ S h → (N.of_nat (length ds) < 2 ^ 32)%N → S h ≤ 5 →
  length es ≤ B →
  node_ok G bs (S h)
    (mkNode A (S h) (as_u32 (length ds)) (as_u16 (length es)) (es ++ replicate (B - length es) uninit_entry)) ds.
Proof.
  intros Hl H0 Hle H32 Hh HB. pose proof (level_ok_length _ _ _ _ _ Hl) as Hlen. split.
  - split; [done|]. cbn [num_data_nodes num_valid_entries height entries]. rewrite as_u32_small, as_u16_B by done.
    split; [done|]. replace (S h - 1) with h by lia. split; [done|]. split; [done|].
    split; [|by rewrite drop_app_length]. unfold node_fits. cbn [height num_data_nodes num_valid_entries entries].
    split; [apply N.le_lt_trans with 5%N; [lia|by vm_compute]|]. split; [done|].
    split; [by apply fits_B|]. rewrite length_app, length_replicate. lia.
  - cbn [num_valid_entries entries]. rewrite as_u16_B by done. by rewrite take_app_length.
Qed.

Lemma build_loop_ok G bs h total : ∀ css nth ds st,
  Forall2 (λ es ds', level_ok G bs h es ds') css (chunks (B ^ h * B) ds) →
  st * B ^ S h + length ds = total → (N.of_nat total < 2 ^ 32)%N → S h ≤ 5 →
  Forall2 (node_ok G bs (S h)) (build_loop (S h) total (nth + length css) nth css) (chunks (B ^ S h) ds).
Proof.
  intros css. pose proof (pow_B_pos (S h)) as Hpow. pose proof (pow_B_pos h) as Hpow'.
  replace (B ^ h * B) with (B ^ S h) by (cbn; lia).
  induction css as [|es css IH]; intros nth ds st Hf Htot H32 Hh.
  { apply Forall2_nil_inv_l in Hf. rewrite Hf. constructor. }
  destruct (decide (ds = [])) as [->|Hds]; [by apply Forall2_nil_inv_r in Hf|].
  assert (H0 : 0 < length ds) by (destruct ds; cbn; [done|lia]).
  rewrite chunks_step in Hf |- * by done. apply Forall2_cons in Hf as [Hes Hf]. cbn [build_loop length].
  set (ds1 := take (B ^ S h) ds) in *. assert (Hl1 : length ds1 = B ^ S h `min` length ds) by apply length_take.
  pose proof (level_ok_length _ _ _ _ _ Hes) as Hlen.
  pose proof (Forall2_length _ _ _ Hf) as Hcl. rewrite length_chunks, length_drop in Hcl by done.
  destruct (nth =? nth + S (length css) - 1) eqn:E; bool_simpl.
  - (* the last one *)
    destruct css; [|cbn [length] in E; lia]. cbn [length] in Hcl. assert (length ds ≤ B ^ S h) as Hle.
    { destruct (decide (length ds ≤ B ^ S h)); [done|]. rewrite cdiv_pos in Hcl by lia. lia. }
    rewrite drop_ge by done. constructor; [|constructor].
    assert (Hmod : (if total mod B ^ S h =? 0 then B ^ S h else total mod B ^ S h) = length ds1).
    { rewrite Hl1, Nat.min_r by done. subst total. rewrite Nat.add_comm, Nat.Div0.mod_add.
      destruct (decide (length ds = B ^ S h)) as [->|Hne]; [by rewrite Nat.Div0.mod_same|].
      rewrite Nat.mod_small by lia. by rewrite (proj2 (Nat.eqb_neq _ _)) by lia. }
    unfold build_last_node, max_num_data_nodes. rewrite Hmod. apply built_ok; try done; try lia.
    rewrite Hlen. apply cdiv_spec; [done|].
    rewrite Nat.pow_succ_r' in *. lia.
  - (* a full one *)
    assert (B ^ S h < length ds) as Hlt.
    { destruct (decide (B ^ S h < length ds)); [done|]. destruct css; [cbn [length] in E; lia|]. cbn [length] in Hcl.
      replace (length ds - B ^ S h) with 0 in Hcl by lia. by rewrite cdiv_0 in Hcl. }
    rewrite Nat.min_l in Hl1 by lia.
    assert (Hes' : length es = B).
    { rewrite Hlen, Hl1, Nat.pow_succ_r'. rewrite cdiv_exact; [apply Nat.div_mul; lia|done|by exists B]. }
    constructor.
    + pose proof (built_ok G bs h es ds1 Hes) as Hb. rewrite Hes', Hl1, Nat.sub_diag, app_nil_r in Hb.
      unfold build_full_node, max_num_data_nodes. apply Hb; lia.
    + replace (nth + S (length css)) with (nth + 1 + length css) by lia.
      apply (IH (nth + 1) _ (st + 1)); [done| |done|done]. rewrite length_drop. lia.
Qed.

(** The nodes of a level over [ds], which starts at a multiple of its pieces. *)
Lemma build_nodes_ok G bs h total st es ds :
  level_ok G bs h es ds → st * B ^ S h + length ds = total → (N.of_nat total < 2 ^ 32)%N → S h ≤ 5 →
  Forall2 (node_ok G bs (S h))
    (build_loop (S h) total (align_up (length es) B / B) 0 (chunks B es)) (chunks (B ^ S h) ds).
Proof.
  intros Hl Ht H32 Hh. pose proof B_pos. rewrite align_up_div, <- length_chunks by lia.
  apply (build_loop_ok G bs h total (chunks B es) 0 ds st); [|done..].
  by apply regroup_chunks; [apply pow_B_pos|lia|].
Qed.

(** The children counted as complete are the full ones, unless an incomplete one ends at
    a multiple of the branching factor. *)
Lemma num_complete_children_ok G bs h n ds :
  node_ok G bs (S h) n ds → (Nat.divide B (length ds) → Nat.divide (B ^ h) (length ds)) →
  num_complete_children n = Ok (length ds / B ^ h).
Proof.
  intros Hn Hedge. pose proof B_pos. pose proof (pow_B_pos h). unfold num_complete_children.
  rewrite (node_ok_num _ _ _ _ _ Hn), (node_ok_height _ _ _ _ _ Hn).
  destruct (node_ok_valid _ _ _ _ _ Hn) as [Hv Hv0]. destruct h as [|h].
  - rewrite orb_true_r, Hv. by rewrite cdiv_exact by (lia || by exists (length ds); cbn; lia).
  - rewrite orb_false_r. destruct (_ =? 0) eqn:E; bool_simpl.
    + rewrite mod_0_divide in E by lia. rewrite Hv. by rewrite cdiv_exact by auto.
    + rewrite mod_0_divide in E by lia. rewrite usub_ok by lia. rewrite Hv, cdiv_inexact; [f_equal; lia|done|].
      intros Hd. apply E. etrans; [|exact Hd]. replace B with (B ^ 1) at 1 by (cbn; lia). apply pow_divide. lia.
Qed.
End level.

(** ** The right edge of the previous tree *)

(** Where the rebuilt nodes of height [h] start, over a tree of height [H] with [n0] blocks. *)
Definition start (n0 H h : nat) : nat := if h <? H then n0 / B ^ h * B ^ h else 0.

(** The children of an incomplete node that end at a multiple of [B] are all full. *)
Definition edge_ok (n0 H : nat) : Prop := Nat.divide B n0 → Nat.divide (B ^ (H - 1)) n0.

Lemma start_le n0 H h : start n0 H h ≤ n0.
Proof. unfold start. case_match; [|lia]. rewrite Nat.mul_comm. apply Nat.Div0.mul_div_le. Qed.

Lemma start_0 n0 H : 0 < H → start n0 H 0 = n0.
Proof. intros HH. unfold start. rewrite (proj2 (Nat.ltb_lt _ _)) by done. cbn. rewrite Nat.div_1_r. lia. Qed.

Lemma start_divide n0 H h : Nat.divide (B ^ h) (start n0 H h).
Proof. unfold start. case_match; [by eexists|apply Nat.divide_0_r]. Qed.

Lemma start_near n0 H h : n0 ≤ B ^ H → n0 ≤ start n0 H h + B ^ h.
Proof.
  intros Hn. unfold start. case_match; bool_simpl.
  - pose proof (Nat.div_mod_eq n0 (B ^ h)). pose proof (pow_B_pos h).
    pose proof (Nat.mod_upper_bound n0 (B ^ h) ltac:(lia)). lia.
  - pose proof (pow_mono H h ltac:(lia)). lia.
Qed.

(** Going up one level: the full children of the incomplete node come in. *)
Lemma start_S n0 H h : S h ≤ H →
  start n0 H h = start n0 H (S h) + (n0 - start n0 H (S h)) / B ^ h * B ^ h.
Proof.
  intros HH. pose proof (pow_B_pos h) as Hp.
  destruct (Nat.divide_trans _ _ _ (pow_divide h (S h) ltac:(lia)) (start_divide n0 H (S h))) as [q Hq].
  pose proof (start_le n0 H (S h)) as Hle. revert Hq Hle. generalize (start n0 H (S h)). intros st -> Hle.
  unfold start. rewrite (proj2 (Nat.ltb_lt h H)) by lia.
  replace n0 with (q * B ^ h + (n0 - q * B ^ h)) at 1 by lia. rewrite div_shift by done. lia.
Qed.

Section edge.
Context {A : Aead} {MP : MhtPod A}.
Abbreviation Entry := (MhtNodeEntry A).
Abbreviation Node := (MhtNode A).
Abbreviation Written := (gmap nat (Key * Iv * Mac * MhtNode A)).
Implicit Types (G : Written) (bs ds : list (list byte)) (es : list Entry) (n : Node).

(** The node of height [h] that takes part in the build: the root, or the incomplete node of
    its level, if there is one. *)
Definition pre_ok G bs (H : nat) (ds0 : list (list byte)) (h : nat) (o : option Node) : Prop :=
  match o with
  | None => H < h ∨ (h < H ∧ Nat.divide (B ^ h) (length ds0))
  | Some n => h ≤ H ∧ node_ok G bs h n (drop (start (length ds0) H h) ds0)
  end.

Definition level_entries (o : option Node) (es : list Entry) : res (list Entry) :=
  match o with
  | Some pre_node => k ← num_complete_children pre_node; Ok (take k (entries pre_node) ++ es)
  | None => Ok es
  end.

Lemma level_entries_ok G bs H ds0 ds1 h o es :
  pre_ok G bs H ds0 (S h) o → (S h ≤ H → Nat.divide B (length ds0) → Nat.divide (B ^ h) (length ds0)) →
  level_ok G bs h es (drop (start (length ds0) H h) (ds0 ++ ds1)) →
  ∃ all, level_entries o es = Ok all ∧ level_ok G bs h all (drop (start (length ds0) H (S h)) (ds0 ++ ds1)).
Proof.
  intros Ho Hedge Hl. pose proof (pow_B_pos h) as Hp. set (n0 := length ds0) in *. destruct o as [n|]; cbn [pre_ok] in Ho.
  - destruct Ho as [HH Hn]. fold n0 in Hn. cbn [level_entries]. pose proof (start_S n0 H h HH) as HS.
    pose proof (start_le n0 H (S h)) as Hle. pose proof (start_le n0 H h) as Hle'.
    set (st := start n0 H (S h)) in *. set (ds := drop st ds0) in *.
    assert (Hlen : length ds = n0 - st) by apply length_drop.
    assert (Hst : Nat.divide (B ^ S h) st) by apply start_divide.
    assert (Hdiv : ∀ i, i ≤ S h → Nat.divide (B ^ i) (n0 - st) ↔ Nat.divide (B ^ i) n0).
    { intros i Hi. destruct (Nat.divide_trans _ _ _ (pow_divide i (S h) Hi) Hst) as [q Hq].
      rewrite <- (divide_sub_iff (B ^ i) q (n0 - st)). by replace (q * B ^ i + (n0 - st)) with n0 by lia. }
    rewrite (num_complete_children_ok G bs h n ds Hn).
    2: { rewrite Hlen. intros Hd. apply Hdiv; [lia|]. apply Hedge; [done|].
         replace B with (B ^ 1) in * by (cbn; lia). apply (Hdiv 1); [lia|done]. }
    bind_step. eexists. split; [done|]. rewrite Hlen. set (k := (n0 - st) / B ^ h) in *.
    destruct (node_ok_valid _ _ _ _ _ Hn) as [Hv _]. rewrite Hlen in Hv.
    assert (Hk : k ≤ num_valid_entries n).
    { rewrite Hv. unfold k, cdiv. apply Nat.Div0.div_le_mono. lia. }
    assert (Hkb : k * B ^ h ≤ n0 - st) by (unfold k; rewrite Nat.mul_comm; apply Nat.Div0.mul_div_le).
    assert (Hsplit : drop st (ds0 ++ ds1) = take (k * B ^ h) ds ++ drop (start n0 H h) (ds0 ++ ds1)).
    { rewrite HS, !drop_app_le by lia. rewrite <- drop_drop. fold ds. by rewrite app_assoc, take_drop. }
    rewrite Hsplit. unfold level_ok. rewrite chunks_app; [|done|].
    + apply Forall2_app; [|done]. destruct Hn as [_ Hn]. unfold level_ok in Hn.
      rewrite <- take_chunks by done. rewrite <- (Nat.min_l k (num_valid_entries n)), <- take_take by done.
      rewrite take_take, Nat.min_l by done. rewrite <- (Nat.min_l k (num_valid_entries n)) at 1 by done.
      rewrite <- take_take. by apply Forall2_take.
    + rewrite length_take, Hlen, Nat.min_l by done. by eexists.
  - exists es. split; [done|]. replace (start n0 H (S h)) with (start n0 H h); [done|]. unfold start.
    destruct Ho as [Ho|[Ho Hd]].
    + by rewrite !(proj2 (Nat.ltb_ge _ _)) by lia.
    + rewrite !(proj2 (Nat.ltb_lt _ _)) by lia.
      assert (Hx : ∀ i, i ≤ S h → n0 / B ^ i * B ^ i = n0).
      { intros i Hi. destruct (Nat.divide_trans _ _ _ (pow_divide i (S h) Hi) Hd) as [q Hq]. fold n0 in Hq.
        rewrite Hq, Nat.div_mul; [done|]. pose proof (pow_B_pos i). lia. }
      by rewrite !Hx by lia.
Qed.

(** The last child of the last node of a level is the last node of the level below. *)
Lemma last_chunk {T} s (l : list T) : 0 < s → l ≠ [] →
  last (chunks s l) = Some (drop ((cdiv (length l) s - 1) * s) l).
Proof.
  intros Hs Hl. assert (0 < length l) by (destruct l; cbn; [done|lia]).
  rewrite last_lookup, length_chunks by done. rewrite cdiv_pos by lia. cbn [pred].
  set (q := cdiv (length l - s) s). replace (S q - 1) with q by lia.
  assert (Hlt : drop (q * s) l ≠ []).
  { intros E. apply (f_equal length) in E. rewrite length_drop in E. cbn in E.
    assert (¬ (cdiv (length l) s ≤ q)) as Hn by (rewrite cdiv_pos by lia; fold q; lia).
    apply Hn, cdiv_spec; [done|lia]. }
  rewrite <- (take_drop q (chunks s l)), drop_chunks by done.
  rewrite lookup_app_r by (rewrite length_take; lia).
  rewrite length_take, length_chunks, cdiv_pos by lia. fold q. rewrite Nat.min_l by lia. rewrite Nat.sub_diag.
  rewrite chunks_step by done. cbn. rewrite take_ge; [done|]. rewrite length_drop.
  pose proof (proj1 (cdiv_spec (length l - s) s q Hs) ltac:(lia)). lia.
Qed.

Lemma last_child_ok G bs h n (ds0 : list (list byte)) :
  ds0 ≠ [] → node_ok G bs (S (S h)) n (drop (last_start (length ds0) (S (S h))) ds0) →
  ∃ e n', last_entry n = Ok e ∧ refers G e n' ∧ node_ok G bs (S h) n' (drop (last_start (length ds0) (S h)) ds0).
Proof.
  intros Hne Hn. assert (H0 : 0 < length ds0) by (destruct ds0; cbn; [done|lia]).
  pose proof (last_start_le (length ds0) (S (S h)) H0) as Hlt.
  pose proof (last_start_S (length ds0) (S h) H0) as HS. set (st := last_start (length ds0) (S (S h))) in *.
  set (ds := drop st ds0) in *. assert (Hlen : length ds = length ds0 - st) by apply length_drop.
  destruct (node_ok_valid _ _ _ _ _ Hn) as [Hv [Hv0 HvB]]. destruct Hn as [(_ & _ & _ & _ & Hf & _) Hl].
  set (v := num_valid_entries n) in *. destruct Hf as (_ & _ & _ & HB).
  destruct (lookup_lt_is_Some_2 (entries n) (v - 1)) as [e He]; [rewrite HB; lia|].
  unfold last_entry. fold v. rewrite usub_ok by lia. bind_step. rewrite (index_ok _ _ _ He).
  assert (ds ≠ []) by (intros E; apply (f_equal length) in E; cbn in E; lia).
  pose proof (last_chunk (B ^ S h) ds (pow_B_pos (S h)) ltac:(done)) as Hlast.
  rewrite last_lookup, length_chunks, <- Hv in Hlast by apply pow_B_pos.
  assert (He' : take v (entries n) !! (v - 1) = Some e) by (rewrite lookup_take_lt by lia; done).
  destruct (Forall2_lookup_l _ _ _ _ _ Hl He') as (c & Hc & Hok). replace (pred v) with (v - 1) in Hlast by lia.
  rewrite Hlast in Hc. injection Hc as <-. apply entry_ok_S in Hok as (n' & Hr & Hn').
  change (node_ok G bs (S h) n' (drop ((v - 1) * B ^ S h) ds)) in Hn'.
  exists e, n'. split; [done|]. split; [done|]. unfold ds in Hn'. rewrite drop_drop, Hv in Hn'.
  rewrite <- HS. unfold last_start. by rewrite <- Hlen.
Qed.
End edge.
