(* ===== verification/CryptoLogRun.v ===== *)
(** * CryptoLogRun: builds, searches and runs of a [CryptoLog]

    A build extends the tree by new blocks ([tree_build_ok]), a search returns the blocks of
    a range ([search_ok]), and what a run of appends and flushes wrote is read back. *)
From S2P Require Import Prelude Bio CryptoChain CryptoLog CryptoLogSpec.

Section build.
Context {A : Aead} {HA : AeadSpec A} {MP : MhtPod A} {HMP : MhtPodSpec A MP} {R : Random A} {P : Pages} {HP : PagesSpec P}.
Context {L : Type} {HL : BlockLog L} {HLS : AppendLogSpec L} {C : Type} {HC : NodeCache A C} {HCS : NodeCacheSpec A C}.
Abbreviation Entry := (MhtNodeEntry A).
Abbreviation Node := (MhtNode A).
Abbreviation Storage := (MhtStorage L C).
Abbreviation Written := (gmap nat (Key * Iv * Mac * MhtNode A)).
Implicit Types (s : Storage) (G : Written) (bs cs ds : list (list byte)) (es : list Entry) (n : Node).

Lemma read_unwrap_ok s e n G bs :
  sto_ok s G bs → refers G e n →
  ∃ s', read_unwrap e s = (Ok n, s') ∧ sto_ok s' G bs ∧ block_log s' = block_log s.
Proof.
  intros Hs Hr. unfold read_unwrap. destruct (read_mht_node_ok s _ _ _ _ n G bs Hs Hr) as (s' & -> & Hs' & Hl). eauto.
Qed.

(** ** [PreviousBuild] *)
Section previous.
Context (G : Written) (bs ds0 : list (list byte)) (Hne : ds0 ≠ []).
Let n0 := length ds0.

(** The incomplete node of height [j], if the blocks do not fill it. *)
Definition incomplete_at (j : nat) (o : option Node) : Prop :=
  match o with
  | None => Nat.divide (B ^ j) n0
  | Some n => ¬ Nat.divide (B ^ j) n0 ∧ node_ok G bs j n (drop (n0 / B ^ j * B ^ j) ds0)
  end.

Lemma last_node_complete h n :
  node_ok G bs h n (drop (last_start n0 h) ds0) → is_incomplete n = false ↔ Nat.divide (B ^ h) n0.
Proof.
  intros Hn. pose proof (pow_B_pos h) as Hp. unfold is_incomplete, max_num_data_nodes.
  rewrite (node_ok_num _ _ _ _ _ Hn), (node_ok_height _ _ _ _ _ Hn), negb_false_iff, Nat.eqb_eq, length_drop. fold n0.
  assert (H0 : 0 < n0) by (unfold n0; destruct ds0; cbn; [done|lia]).
  pose proof (last_start_le n0 h H0) as Hlt. pose proof (last_start_divide n0 h) as Hd. split.
  - intros E. replace n0 with (last_start n0 h + B ^ h) by lia. apply Nat.divide_add_r; [done|reflexivity].
  - intros [q Hq]. unfold last_start. rewrite cdiv_exact by (done || by exists q). rewrite Hq, Nat.div_mul by lia.
    destruct q; [lia|]. cbn. lia.
Qed.

Lemma last_node_incomplete h n :
  node_ok G bs h n (drop (last_start n0 h) ds0) → is_incomplete n = true → incomplete_at h (Some n).
Proof.
  intros Hn Hi. assert (¬ Nat.divide (B ^ h) n0) by (rewrite <- (last_node_complete h n Hn); congruence).
  split; [done|]. by rewrite last_start_inexact in Hn.
Qed.

Lemma collect_incomplete_ok : ∀ h s fuel n acc,
  sto_ok s G bs → node_ok G bs h n (drop (last_start n0 h) ds0) → h ≤ fuel →
  (∀ j, j ≤ h → acc !! j = None) →
  ∃ acc' s', collect_incomplete fuel n acc s = (Ok acc', s') ∧ sto_ok s' G bs ∧ block_log s' = block_log s ∧
    (∀ j, h < j → acc' !! j = acc !! j) ∧ (∀ j, 1 ≤ j → j ≤ h → incomplete_at j (acc' !! j)).
Proof.
  induction h as [|h IH]; intros s fuel n acc Hs Hn Hf Hacc; [done|].
  destruct fuel as [|fuel]; [lia|]. cbn [collect_incomplete]. destruct (is_incomplete n) eqn:Hi; cbn [negb].
  2: { exists acc, s. split; [done|]. split_and!; try done. intros j Hj1 Hj2. rewrite Hacc by done. cbn.
       apply (last_node_complete _ _ Hn) in Hi. etrans; [|exact Hi]. apply pow_divide. lia. }
  pose proof (last_node_incomplete _ _ Hn Hi) as Hinc. rewrite (node_ok_height _ _ _ _ _ Hn).
  set (acc1 := <[S h := n]> acc). destruct h as [|h].
  { exists acc1, s. split; [done|]. split_and!; try done.
    - intros j Hj. unfold acc1. by rewrite lookup_insert_ne by lia.
    - intros j Hj1 Hj2. replace j with 1 by lia. unfold acc1. by rewrite lookup_insert_eq. }
  cbn [is_lowest_level Nat.eqb]. destruct (last_child_ok G bs h n ds0 Hne Hn) as (e & n' & -> & Hr & Hn').
  rewrite io_bind_lift. destruct (read_unwrap_ok s e n' G bs Hs Hr) as (s1 & Hs1 & Hok1 & Hl1). io_step Hs1.
  destruct (IH s1 fuel n' acc1 Hok1 Hn' ltac:(lia)) as (acc' & s2 & Hs2 & Hok2 & Hl2 & Hhi & Hlo).
  { intros j Hj. unfold acc1. rewrite lookup_insert_ne by lia. apply Hacc. lia. }
  exists acc', s2. split; [done|]. split; [done|]. split; [congruence|]. split.
  - intros j Hj. rewrite Hhi by lia. unfold acc1. by rewrite lookup_insert_ne by lia.
  - intros j Hj1 Hj2. destruct (decide (j = S (S h))) as [->|Hj]; [|apply Hlo; lia].
    rewrite Hhi by lia. unfold acc1. by rewrite lookup_insert_eq.
Qed.

Lemma incomplete_pre H j o : j < H → incomplete_at j o → pre_ok G bs H ds0 j o.
Proof.
  intros Hj. destruct o as [n|]; cbn; [|by right]. intros [_ Hn]. split; [lia|]. unfold start. fold n0.
  by rewrite (proj2 (Nat.ltb_lt _ _)) by done.
Qed.

Lemma PreviousBuild_new_ok s H root :
  sto_ok s G bs → node_ok G bs H root ds0 →
  ∃ pb s', PreviousBuild_new root s = (Ok pb, s') ∧ sto_ok s' G bs ∧ block_log s' = block_log s ∧
    pb_root pb = root ∧ ∀ j, 1 ≤ j → pre_ok G bs H ds0 j (target_node pb j).
Proof.
  intros Hs Hn. pose proof (node_ok_len _ _ _ _ _ Hn) as [H0 Hle]. fold n0 in H0, Hle.
  assert (Hroot : pre_ok G bs H ds0 H (Some root)).
  { split; [done|]. unfold start. by rewrite Nat.ltb_irrefl, drop_0. }
  assert (Hlast : node_ok G bs H root (drop (last_start n0 H) ds0)) by (by rewrite last_start_root, drop_0).
  assert (Htarget : ∀ m, (∀ j, H ≤ j → m !! j = None) → (∀ j, 1 ≤ j → j < H → incomplete_at j (m !! j)) →
            ∀ j, 1 ≤ j → pre_ok G bs H ds0 j (target_node (mkPreviousBuild root H m) j)).
  { intros m Hhi Hlo j Hj. unfold target_node. cbn [pb_height pb_root internal_incomplete_nodes].
    destruct (j =? H) eqn:E; bool_simpl; [by subst j|]. destruct (decide (j < H)).
    - apply incomplete_pre; [done|]. by apply Hlo.
    - rewrite Hhi by lia. cbn. lia. }
  unfold PreviousBuild_new. rewrite (node_ok_height _ _ _ _ _ Hn). destruct H as [|h]; [done|].
  destruct (negb (is_incomplete root) || is_lowest_level (S h)) eqn:E.
  - exists (mkPreviousBuild root (S h) ∅), s. split; [done|]. split_and!; try done. apply Htarget; [done|].
    intros j Hj1 Hj2. rewrite lookup_empty. cbn. apply orb_true_iff in E as [E|E].
    + apply negb_true_iff in E. apply (last_node_complete _ _ Hlast) in E. etrans; [|exact E]. apply pow_divide. lia.
    + apply Nat.eqb_eq in E. lia.
  - apply orb_false_iff in E as [_ E]. destruct h as [|h]; [done|].
    destruct (last_child_ok G bs h root ds0 Hne Hlast) as (e & n' & -> & Hr & Hn'). rewrite io_bind_lift.
    destruct (read_unwrap_ok s e n' G bs Hs Hr) as (s1 & Hs1 & Hok1 & Hl1). io_step Hs1.
    destruct (collect_incomplete_ok (S h) s1 (S (S h)) n' ∅ Hok1 Hn' ltac:(lia)) as (m & s2 & Hs2 & Hok2 & Hl2 & Hhi & Hlo);
      [done|]. io_step Hs2. eexists _, s2. split; [done|]. split; [done|]. split; [congruence|]. split; [done|].
    apply Htarget; [intros j Hj; by rewrite Hhi by lia|]. intros j Hj1 Hj2. apply Hlo; lia.
Qed.
End previous.

(** ** [TreeBuilder] *)
Lemma pre_ok_grows G G' bs bs' H ds0 j o : grows G G' bs bs' → pre_ok G bs H ds0 j o → pre_ok G' bs' H ds0 j o.
Proof. intros Hg. destruct o; [|done]. intros [? Hn]. split; [done|]. by eapply node_ok_grows. Qed.

Lemma nodes_fit G bs h (ns : list Node) dss : Forall2 (node_ok G bs h) ns dss → Forall node_fits ns.
Proof. induction 1; constructor; [by eapply node_ok_fits|done]. Qed.

(** Entries that refer to the nodes of a level make up the next one. *)
Lemma refers_level G bs h es (ns : list Node) ds :
  Forall2 (refers G) es ns → Forall2 (node_ok G bs (S h)) ns (chunks (B ^ S h) ds) → level_ok G bs (S h) es ds.
Proof.
  intros Hr Hn. unfold level_ok. revert Hn. generalize (chunks (B ^ S h) ds). induction Hr as [|e n es ns He Hr IH];
    intros dss Hn; inversion Hn; subst; constructor; [|by apply IH]. apply entry_ok_S. eauto.
Qed.

Section hierarchy.
Context (ds0 ds1 : list (list byte)) (H T : nat) (pre : option (@PreviousBuild A)).
Let n0 := length ds0.
Let n1 := length ds1.
Let ds := ds0 ++ ds1.
Context (Hn0 : n0 ≤ B ^ H) (Hn1 : ds1 ≠ []) (HHT : H ≤ T) (HT5 : T ≤ 5).
Context (HT : n0 + n1 ≤ B ^ T) (H32 : (N.of_nat (n0 + n1) < 2 ^ 32)%N).

Lemma n1_pos : 0 < n1.
Proof. unfold n1. destruct ds1; cbn; [done|lia]. Qed.

(** A level has at most one node more than there are new blocks. *)
Lemma level_size h : cdiv (length (drop (start n0 H h) ds)) (B ^ h) ≤ n1 + 1.
Proof.
  pose proof (pow_B_pos h). apply cdiv_spec; [done|]. unfold ds. rewrite length_drop, length_app. fold n0 n1.
  pose proof (start_near n0 H h Hn0). nia.
Qed.

(** The builder counts the full children of the node of height [S h] correctly. *)
Definition edge_at (h : nat) : Prop := S h ≤ H → Nat.divide B n0 → Nat.divide (B ^ h) n0.

(** The nodes of the level [S h]. *)
Lemma hierarchy_level G bs h es o :
  pre_ok G bs H ds0 (S h) o → edge_at h → S h ≤ T → level_ok G bs h es (drop (start n0 H h) ds) →
  ∃ ns, level_build (S h) (n0 + n1) o es = Ok ns ∧
    Forall2 (node_ok G bs (S h)) ns (chunks (B ^ S h) (drop (start n0 H (S h)) ds)) ∧
    length ns ≤ n1 + 1 ∧ ns ≠ [].
Proof.
  intros Ho He Hh Hl. pose proof n1_pos as Hp1.
  destruct (level_entries_ok G bs H ds0 ds1 h o es Ho He Hl) as (all & Hall & Hok). fold n0 ds in Hok.
  unfold level_build. change (match o with Some _ => _ | None => _ end) with (level_entries o es). rewrite Hall. bind_step.
  pose proof (start_le n0 H (S h)) as Hst.
  assert (Hlen : length (drop (start n0 H (S h)) ds) = n0 + n1 - start n0 H (S h))
    by (unfold ds; by rewrite length_drop, length_app).
  destruct (start_divide n0 H (S h)) as [q Hq].
  pose proof (build_nodes_ok G bs h (n0 + n1) q all _ Hok ltac:(rewrite Hlen; lia) H32 ltac:(lia)) as Hns.
  eexists. split; [done|]. split; [done|]. pose proof (Forall2_length _ _ _ Hns) as Hc.
  rewrite length_chunks in Hc by apply pow_B_pos. rewrite Hc. split; [apply level_size|].
  intros E. rewrite E in Hc. cbn [length] in Hc. rewrite Hlen, cdiv_pos in Hc by (apply pow_B_pos || lia). lia.
Qed.

(** One level below the root: its nodes are written, and the build goes on with their entries. *)
Lemma build_hierarchy_step fuel h s G bs es :
  sto_ok s G bs → pre_ok G bs H ds0 (S h) (pb ← pre; target_node pb (S h)) → edge_at h →
  S h < T → level_ok G bs h es (drop (start n0 H h) ds) → n1 + 1 ≤ room s →
  ∃ es' s' G' bs', build_hierarchy (S fuel) pre es (n0 + n1) (S h) T s =
      build_hierarchy fuel pre es' (n0 + n1) (S (S h)) T s' ∧ sto_ok s' G' bs' ∧
    grows G G' bs bs' ∧ level_ok G' bs' (S h) es' (drop (start n0 H (S h)) ds) ∧ room s ≤ room s' + (n1 + 1).
Proof.
  intros Hs Hpre He HhT Hl Hr.
  destruct (hierarchy_level G bs h es _ Hpre He ltac:(lia) Hl) as (ns & Hns & Hnodes & Hsz & Hne).
  cbn [build_hierarchy]. rewrite Hns, io_bind_lift, (proj2 (Nat.eqb_neq (S h) T)) by lia.
  destruct (append_mht_nodes_ok s G bs ns Hs Hne (nodes_fit _ _ _ _ _ Hnodes) ltac:(lia)) as
    (es' & s1 & G1 & cs & Hs1 & Hok1 & Hg & Href & Hr1).
  io_step Hs1. rewrite Nat.add_1_r. exists es', s1, G1, (bs ++ cs). split; [done|]. split; [done|]. split; [done|].
  split; [|lia]. eapply refers_level; [exact Href|]. eapply Forall2_impl; [exact Hnodes|].
  intros x y Hxy. by eapply node_ok_grows.
Qed.

Lemma build_hierarchy_ok : ∀ fuel h s G bs es,
  sto_ok s G bs → (∀ j, 1 ≤ j → pre_ok G bs H ds0 j (pb ← pre; target_node pb j)) → (∀ j, edge_at j) →
  S h ≤ T → T ≤ S h + fuel → level_ok G bs h es (drop (start n0 H h) ds) → (T - S h) * (n1 + 1) ≤ room s →
  ∃ n s' G' bs', build_hierarchy fuel pre es (n0 + n1) (S h) T s = (Ok n, s') ∧ sto_ok s' G' bs' ∧
    grows G G' bs bs' ∧ node_ok G' bs' T n ds ∧ room s ≤ room s' + (T - S h) * (n1 + 1).
Proof.
  induction fuel as [|fuel IH]; intros h s G bs es Hs Hpre He HhT Hf Hl Hr.
  all: destruct (decide (S h = T)) as [E|E].
  1,3: destruct (hierarchy_level G bs h es _ (Hpre (S h) ltac:(lia)) (He h) HhT Hl) as (ns & Hns & Hnodes & Hsz & Hne).
  1,2: assert (Hst : start n0 H T = 0) by (unfold start; by rewrite (proj2 (Nat.ltb_ge _ _)) by lia).
  1,2: rewrite E, Hst, drop_0 in Hnodes; rewrite chunks_small in Hnodes;
    [|unfold ds; intros [_ Hnil]%app_eq_nil; done|unfold ds; by rewrite length_app].
  1,2: apply Forall2_cons_inv_r in Hnodes as (n & ns' & Hn & Hnil%Forall2_nil_inv_r & ->); subst ns'.
  1,2: cbn [build_hierarchy]; rewrite Hns, io_bind_lift, (proj2 (Nat.eqb_eq (S h) T)) by done.
  1,2: exists n, s, G, bs; split; [done|]; split; [done|]; split; [apply grows_refl|]; split; [done|lia].
  - lia.
  - replace (T - S h) with (S (T - S (S h))) in Hr |- * by lia. cbn [Nat.mul] in Hr |- *.
    destruct (build_hierarchy_step fuel h s G bs es Hs (Hpre (S h) ltac:(lia)) (He h) ltac:(lia) Hl ltac:(lia)) as
      (es' & s1 & G1 & bs1 & -> & Hok1 & Hg & Hl1 & Hr1).
    destruct (IH (S h) s1 G1 bs1 es' Hok1) as (n & s2 & G2 & bs2 & Hs2 & Hok2 & Hg2 & Hn & Hr2); try lia; try done.
    + intros j Hj. eapply pre_ok_grows; [exact Hg|]. by apply Hpre.
    + exists n, s2, G2, bs2. split; [done|]. split; [done|]. split; [by eapply grows_trans|]. split; [done|lia].
Qed.
End hierarchy.

Lemma edge_ok_at ds0 H h : edge_ok (length ds0) H → edge_at ds0 H h.
Proof. intros He HhH Hd. etrans; [apply (pow_divide h (H - 1)); lia|]. by apply He. Qed.

(** The previous root, if there is one, is a tree over [ds0] of the least height. *)
Definition root_ok G bs (o : option Node) (H : nat) (ds0 : list (list byte)) : Prop :=
  match o with
  | None => ds0 = [] ∧ H = 0
  | Some n => node_ok G bs H n ds0 ∧ height_of (length ds0) H
  end.

Lemma root_ok_le G bs o H ds0 : root_ok G bs o H ds0 → length ds0 ≤ B ^ H.
Proof. destruct o as [n|]; [intros [_ (_ & ? & _)]; done|]. intros [-> ->]. cbn. lia. Qed.

(** The start of a build: the right edge of the previous tree and the target height. *)
Lemma tree_build_start s G bs o H ds0 ds1 es :
  sto_ok s G bs → root_ok G bs o H ds0 → level_ok G bs 0 es ds1 → ds1 ≠ [] →
  (N.of_nat (length ds0 + length ds1) < 2 ^ 32)%N →
  ∃ T pre s1, tree_build o es s = build_hierarchy T pre es (length ds0 + length ds1) 1 T s1 ∧
    sto_ok s1 G bs ∧ block_log s1 = block_log s ∧ height_of (length ds0 + length ds1) T ∧ H ≤ T ∧ T ≤ 5 ∧
    level_ok G bs 0 es (drop (start (length ds0) H 0) (ds0 ++ ds1)) ∧
    ∀ j, 1 ≤ j → pre_ok G bs H ds0 j (pb ← pre; target_node pb j).
Proof.
  intros Hs Ho Hes Hne H32. assert (Hn1 : 0 < length ds1) by (destruct ds1; cbn; [done|lia]).
  destruct (calc_target_height_ok (length ds0 + length ds1) ltac:(lia)) as (T & HT & HhT).
  pose proof (height_of_small _ _ H32 HhT) as HT5.
  assert (Hpre : ∃ pre s1, (match o with None => mret None | Some root => pb ← PreviousBuild_new root; mret (Some pb) end) s
                     = (Ok pre, s1) ∧ sto_ok s1 G bs ∧ block_log s1 = block_log s ∧ H ≤ T ∧
           match pre with Some pb => num_data_nodes (pb_root pb) | None => 0 end = length ds0 ∧
           start (length ds0) H 0 = length ds0 ∧
           ∀ j, 1 ≤ j → pre_ok G bs H ds0 j (pb ← pre; target_node pb j)).
  { destruct o as [n|].
    - destruct Ho as [Hn Hh]. assert (ds0 ≠ []) by (intros ->; apply node_ok_len in Hn as []; cbn in *; lia).
      destruct (PreviousBuild_new_ok G bs ds0 ltac:(done) s H n Hs Hn) as (pb & s1 & Hs1 & Hok1 & Hl1 & Hpb & Hpre).
      eexists (Some pb), s1. io_step Hs1. split; [done|]. split; [done|]. split; [done|].
      split; [by eapply height_of_mono; [exact Hh|exact HhT|lia]|]. rewrite Hpb. split; [by eapply node_ok_num|].
      split; [apply start_0; by destruct Hh|done].
    - destruct Ho as [-> ->]. exists None, s. split; [done|]. split_and!; try done; [lia|]. intros j Hj. left. lia. }
  destruct Hpre as (pre & s1 & Hs1 & Hok1 & Hl1 & HHT & Hnum & Hst & Hpre). unfold tree_build. io_step Hs1.
  rewrite Hnum. pose proof (level_ok_length _ _ _ _ _ Hes) as Hlen. cbn in Hlen.
  rewrite cdiv_exact, Nat.div_1_r in Hlen by (lia || apply Nat.divide_1_l). rewrite Hlen, Nat.add_comm, HT, io_bind_lift.
  exists T, pre, s1. split; [done|]. split; [done|]. split; [done|]. split; [done|]. split; [done|]. split; [done|].
  split; [by rewrite Hst, drop_app_length|done].
Qed.

Lemma tree_build_ok s G bs o H ds0 ds1 es :
  sto_ok s G bs → root_ok G bs o H ds0 → edge_ok (length ds0) H → level_ok G bs 0 es ds1 → ds1 ≠ [] →
  (N.of_nat (length (ds0 ++ ds1)) < 2 ^ 32)%N → 5 * (length ds1 + 1) ≤ room s →
  ∃ n T s' G' bs', tree_build o es s = (Ok n, s') ∧ sto_ok s' G' bs' ∧ grows G G' bs bs' ∧
    root_ok G' bs' (Some n) T (ds0 ++ ds1) ∧ room s ≤ room s' + 4 * (length ds1 + 1).
Proof.
  intros Hs Ho Hedge Hes Hne H32 Hr. rewrite length_app in H32.
  destruct (tree_build_start s G bs o H ds0 ds1 es Hs Ho Hes Hne H32) as
    (T & pre & s1 & -> & Hok1 & Hl1 & HhT & HHT & HT5 & Hlev & Hpre).
  destruct (build_hierarchy_ok ds0 ds1 H T pre (root_ok_le _ _ _ _ _ Ho) Hne HHT HT5 (proj1 (proj2 HhT)) H32
              T 0 s1 G bs es Hok1 Hpre (λ h, edge_ok_at ds0 H h Hedge)) as (n & s2 & G' & bs' & Hs2 & Hok2 & Hg & Hn & Hr2).
  - by destruct HhT.
  - lia.
  - done.
  - unfold room in *. rewrite Hl1. nia.
  - exists n, T, s2, G', bs'. split; [done|]. split; [done|]. split; [done|].
    split; [split; [done|by rewrite length_app]|]. unfold room in *. rewrite Hl1 in Hr2. nia.
Qed.
End build.

(** ** Reads *)
Section search.
Context {A : Aead} {HA : AeadSpec A} {MP : MhtPod A} {HMP : MhtPodSpec A MP} {R : Random A} {P : Pages} {HP : PagesSpec P}.
Context {L : Type} {HL : BlockLog L} {HLS : AppendLogSpec L} {C : Type} {HC : NodeCache A C} {HCS : NodeCacheSpec A C}.
Abbreviation Entry := (MhtNodeEntry A).
Abbreviation Node := (MhtNode A).
Abbreviation M := (Mht A L C).
Abbreviation Written := (gmap nat (Key * Iv * Mac * MhtNode A)).
Implicit Types (m : M) (G : Written) (bs cs ds : list (list byte)) (es : list Entry) (n : Node).

(** Only the cache changed. *)
Definition same_log m m' : Prop :=
  root m' = root m ∧ root_key m' = root_key m ∧ data_buf m' = data_buf m ∧
  block_log (storage m') = block_log (storage m).

Lemma same_log_refl m : same_log m m.
Proof. done. Qed.
Lemma same_log_trans m1 m2 m3 : same_log m1 m2 → same_log m2 m3 → same_log m1 m3.
Proof. intros (? & ? & ? & ?) (? & ? & ? & ?). split_and!; congruence. Qed.

(** An outcome is [a], or an error where one may occur. *)
Definition right (F : Prop) {T} (r : res T) (a : T) : Prop := r = Ok a ∨ (F ∧ ∃ e, r = Err e).

(** Reading a block that opens under a key, IV and MAC gives its plain text, or fails if [F]
    allows it. *)
Definition sto_reads (F : Prop) (s : MhtStorage L C) G bs : Prop :=
  cache_ok (node_cache s) G ∧ sound G bs ∧
  ∀ pos k iv mc c0 p0, bs !! pos = Some c0 → aead_decrypt c0 k iv [] mc = Ok p0 →
    right F (c ← bl_read (block_log s) pos 1; aead_decrypt c k iv [] mc) p0.

Lemma sto_ok_reads s G bs : sto_ok s G bs → sto_reads False s G bs.
Proof.
  intros (Hlog & Hc & Hs). split; [done|]. split; [done|]. intros pos k iv mc c0 p0 Hb Hd. left.
  by rewrite (al_read _ bs pos c0), bind_Ok.
Qed.

(** A log [log'] to which someone else may have written: what opens there as a block of the
    log is this block. *)
Definition unforged (log log' : L) : Prop :=
  ∀ pos c0, bl_read log pos 1 = Ok c0 →
    bl_read log' pos 1 ≠ Panic ∧
    ∀ k iv mc c p p0, bl_read log' pos 1 = Ok c → aead_decrypt c k iv [] mc = Ok p →
      aead_decrypt c0 k iv [] mc = Ok p0 → p = p0.

Lemma unforged_reads log s G bs :
  al_holds log bs → unforged log (block_log s) → cache_ok (node_cache s) G → sound G bs → sto_reads True s G bs.
Proof.
  intros Hlog Huf Hc Hs. split; [done|]. split; [done|]. intros pos k iv mc c0 p0 Hb Hd. unfold right.
  destruct (Huf pos c0) as [Hnp Hu]; [by apply (al_read _ bs)|].
  destruct (bl_read (block_log s) pos 1) as [c|e|]; [|by right; eauto|done].
  rewrite bind_Ok. pose proof (decrypt_no_panic k iv [] c mc) as Hnd.
  destruct (aead_decrypt c k iv [] mc) as [p|e|] eqn:E; [left|by right; eauto|done].
  f_equal. by eapply Hu; [done|exact E|exact Hd].
Qed.

Lemma bind_err {S T U} (f : T → io S U) (c : io S T) s e s' : c s = (Err e, s') → mbind f c s = (Err e, s').
Proof. unfold mbind, io_bind. by intros ->. Qed.

(** Opening the block at [pos]. *)
Lemma open_block F s G bs pos k iv mc c0 p0 :
  sto_reads F s G bs → bs !! pos = Some c0 → aead_decrypt c0 k iv [] mc = Ok p0 →
  ∃ r, (c ← log_read pos; io_lift (aead_decrypt c k iv [] mc)) s = (r, s) ∧ right F r p0.
Proof.
  intros (_ & _ & Hr) Hb Hd. specialize (Hr pos k iv mc c0 p0 Hb Hd). revert Hr.
  unfold mbind, io_bind, res_bind, log_read, io_lift. destruct (bl_read (block_log s) pos 1); eauto.
Qed.

Lemma read_mht_node_right F s pos k iv mc n G bs :
  sto_reads F s G bs → G !! pos = Some (k, iv, mc, n) →
  ∃ r s', read_mht_node pos k mc iv s = (r, s') ∧ right F r n ∧ sto_reads F s' G bs ∧ block_log s' = block_log s.
Proof.
  intros Hr Hn. pose proof Hr as ([Hlive Hc] & Hs & Hrd). unfold read_mht_node.
  destruct (nc_get_ok (node_cache s) pos Hlive) as (o & c' & Hget & Hlive' & Ho & Hsub).
  set (s1 := mkStorage (block_log s) c' (draws s)).
  assert (Hg : cache_get pos s = (Ok o, s1)) by (unfold cache_get; by rewrite Hget). io_step Hg.
  assert (Hc1 : cache_ok (node_cache s1) G) by (split; [done|]; intros p n' Hp; by apply Hc, Hsub).
  assert (Hr1 : sto_reads F s1 G bs) by done.
  destruct o as [n'|].
  - destruct (Hc _ _ (Ho n' eq_refl)) as (k' & iv' & m' & Hn'). rewrite Hn in Hn'. injection Hn' as _ _ _ <-.
    exists (Ok n), s1. split; [done|]. split; [by left|done].
  - destruct (Hs _ _ _ _ _ Hn) as (c & Hb & Hd & Hf).
    destruct (open_block F s1 G bs pos k iv mc c _ Hr1 Hb Hd) as (r & Hopen & Hright).
    assert (Heq : ∀ g : list byte → io (MhtStorage L C) Node,
       (cipher ← log_read pos; plain ← io_lift (aead_decrypt cipher k iv [] mc); g plain) s1 =
       mbind g (c ← log_read pos; io_lift (aead_decrypt c k iv [] mc)) s1).
    { intros g. unfold mbind, io_bind, log_read, io_lift. by destruct (bl_read (block_log s1) pos 1). }
    rewrite Heq. destruct Hright as [->|[HF [e ->]]].
    + io_step Hopen. rewrite node_roundtrip by done.
      destruct (cache_put_ok s1 pos k iv mc n G Hc1 Hn) as (s2 & Hp & Hc2 & Hl2). io_step Hp.
      exists (Ok n), s2. split; [done|]. split; [by left|]. split; [|done]. split; [done|]. split; [done|]. by rewrite Hl2.
    + rewrite (bind_err _ _ _ _ _ Hopen). exists (Err e), s1. split; [done|]. split; [right; eauto|done].
Qed.

Lemma read_into_right F m G bs e d off buf :
  sto_reads F (storage m) G bs → entry_ok G bs 0 e [d] → (off + 1) * BLOCK_SIZE ≤ length buf →
  ∃ r, read_into e off buf m = (r, m) ∧ right F r (splice buf (off * BLOCK_SIZE) d).
Proof.
  intros Hr (d' & c & [= <-] & Hd & Hb & Hdec) Hbuf. unfold read_into. rewrite slice_ok by lia. rewrite io_bind_lift.
  destruct (open_block F (storage m) G bs _ _ _ _ c d Hr Hb Hdec) as (r & Hopen & Hright).
  assert (Ho : on_storage (read_data_node e) m = (r, m)).
  { unfold on_storage, read_data_node. rewrite Hopen. by destruct m. }
  destruct Hright as [->|[HF [err ->]]].
  - io_step Ho. rewrite copy_from_slice_ok by lia. eexists. split; [done|]. by left.
  - rewrite (bind_err _ _ _ _ _ Ho). eexists. split; [done|]. right. eauto.
Qed.

Lemma level_0_blocks G bs es ds : level_ok G bs 0 es ds → Forall (λ d, length d = BLOCK_SIZE) ds.
Proof.
  unfold level_ok. cbn [Nat.pow]. rewrite chunks_1. revert es. induction ds as [|x ds IH]; intros es Hl; [constructor|].
  cbn in Hl. apply Forall2_cons_inv_r in Hl as (e & es' & He & Hl & ->). constructor; [|by eapply IH].
  by destruct He as (d' & c & [= <-] & Hd & _).
Qed.

Lemma read_leaves_right F G bs m : ∀ es ds off buf,
  sto_reads F (storage m) G bs → level_ok G bs 0 es ds → (off + length ds) * BLOCK_SIZE ≤ length buf →
  ∃ r, read_leaves es off buf m = (r, m) ∧ right F r (off + length ds, splice buf (off * BLOCK_SIZE) (concat ds)).
Proof.
  induction es as [|e es IH]; intros ds off buf Hs Hl Hb; pose proof (level_0_blocks _ _ _ _ Hl) as Hblk;
    unfold level_ok in Hl; cbn [Nat.pow] in Hl; rewrite chunks_1 in Hl.
  - apply Forall2_nil_inv_l in Hl. destruct ds; [|done]. eexists. split; [done|]. left.
    unfold splice. cbn [length app concat]. by rewrite !Nat.add_0_r, take_drop.
  - destruct ds as [|d ds]; [by apply Forall2_nil_inv_r in Hl|]. cbn [map] in Hl.
    apply Forall2_cons in Hl as [He Hl]. rewrite <- chunks_1 in Hl. cbn [length] in *.
    apply Forall_cons in Hblk as [Hd Hblk]. unfold read_leaves. cbn [io_fold].
    destruct (read_into_right F m G bs e d off buf Hs He ltac:(lia)) as (r & Hread & [->|[HF [err ->]]]).
    + rewrite (io_bind_Ok _ _ m (off + 1, splice buf (off * BLOCK_SIZE) d) m) by (by io_step Hread).
      assert (Hsl : length (splice buf (off * BLOCK_SIZE) d) = length buf) by (apply splice_length; lia).
      destruct (IH ds (off + 1) (splice buf (off * BLOCK_SIZE) d) Hs Hl ltac:(rewrite Hsl; lia)) as (r' & Hr' & Hright).
      exists r'. split; [exact Hr'|]. cbn [concat].
      rewrite <- (splice_next buf d (concat ds) off) by (done || rewrite (length_concat_same BLOCK_SIZE) by done; lia).
      by replace (off + S (length ds)) with (off + 1 + length ds) by lia.
    + rewrite (bind_err _ _ m err m) by (by rewrite (bind_err _ _ _ _ _ Hread)). eexists. split; [done|]. right. eauto.
Qed.

Lemma read_targets_right F G bs h : ∀ es m (dss : list (list (list byte))),
  sto_reads F (storage m) G bs → Forall2 (entry_ok G bs (S h)) es dss →
  ∃ r m', read_targets es m = (r, m') ∧ sto_reads F (storage m') G bs ∧ same_log m m' ∧
    ((∃ ns, r = Ok ns ∧ Forall2 (node_ok G bs (S h)) ns dss) ∨ (F ∧ ∃ e, r = Err e)).
Proof.
  induction es as [|e es IH]; intros m dss Hs Hl.
  - apply Forall2_nil_inv_l in Hl as ->. exists (Ok []), m. split; [done|]. split; [done|]. split; [done|]. left. by exists [].
  - apply Forall2_cons_inv_l in Hl as (ds & dss' & He & Hl & ->). apply entry_ok_S in He as (n & Hr & Hn).
    cbn [read_targets]. destruct (read_mht_node_right F (storage m) _ _ _ _ n G bs Hs Hr) as (r & s1 & Hs1 & Hright & Hok1 & Hl1).
    set (m1 := mkMht (root m) (root_key m) (data_buf m) s1).
    assert (H1 : on_storage (read_mht_node (e_pos e) (e_key e) (e_mac e) zero_iv) m = (r, m1))
      by (unfold on_storage; by rewrite Hs1).
    assert (Hs1' : same_log m m1) by done. destruct Hright as [->|[HF [err ->]]].
    + io_step H1. destruct (IH m1 dss' Hok1 Hl) as (r & m2 & H2 & Hok2 & Hsame & [(ns & -> & Hns)|[HF [err ->]]]).
      * io_step H2. eexists _, m2. split; [done|]. split; [done|]. split; [by eapply same_log_trans|]. left. eauto.
      * rewrite (bind_err _ _ _ _ _ H2). eexists _, m2. split; [done|]. split; [done|].
        split; [by eapply same_log_trans|]. right. eauto.
    + rewrite (bind_err _ _ _ _ _ H1). eexists _, m1. split; [done|]. split; [done|]. split; [done|]. right. eauto.
Qed.

(** The entries of the nodes of a level lead to their blocks; what follows is padding. *)
Lemma level_flatten G bs h : ∀ (ns : list Node) ds,
  Forall2 (node_ok G bs (S h)) ns (chunks (B ^ S h) ds) →
  ∃ vs pad, concat (map entries ns) = vs ++ pad ∧ level_ok G bs h vs ds.
Proof.
  pose proof (pow_B_pos (S h)) as Hp. pose proof (pow_B_pos h) as Hp'.
  induction ns as [|n ns IH]; intros ds Hl.
  - apply Forall2_nil_inv_l in Hl. exists [], []. split; [done|]. destruct ds; [constructor|].
    by rewrite chunks_step in Hl by done.
  - destruct (decide (ds = [])) as [->|Hne]; [by apply Forall2_nil_inv_r in Hl|].
    rewrite chunks_step in Hl by done. apply Forall2_cons in Hl as [Hn Hl]. cbn [map concat].
    destruct (node_ok_valid _ _ _ _ _ Hn) as [Hv HvB]. pose proof (node_ok_fits _ _ _ _ _ Hn) as (_ & _ & _ & HB).
    destruct Hn as [_ Hn]. set (v := num_valid_entries n) in *. destruct (decide (length ds ≤ B ^ S h)) as [Hle|Hgt].
    + rewrite drop_ge in Hl by done. apply Forall2_nil_inv_r in Hl as ->. cbn [map concat]. rewrite app_nil_r.
      exists (take v (entries n)), (drop v (entries n)). split; [by rewrite take_drop|]. by rewrite (take_ge ds) in Hn by done.
    + destruct (IH _ Hl) as (vs & pad & -> & Hvs). exists (entries n ++ vs), pad. split; [by rewrite app_assoc|].
      rewrite length_take, Nat.min_l in Hv by lia.
      assert (v = B) as Hv'.
      { rewrite Hv, Nat.pow_succ_r'. rewrite cdiv_exact; [apply Nat.div_mul; lia|done|by exists B]. }
      rewrite take_ge in Hn by lia. rewrite <- (take_drop (B ^ S h) ds). unfold level_ok. rewrite chunks_app; [|done|].
      * by apply Forall2_app.
      * rewrite length_take, Nat.min_l by lia. apply pow_divide. lia.
Qed.

Lemma level_sub G bs h vs ds k j :
  level_ok G bs h vs ds → level_ok G bs h (take j (drop k vs)) (take (j * B ^ h) (drop (k * B ^ h) ds)).
Proof.
  intros Hl. pose proof (pow_B_pos h). unfold level_ok. rewrite <- take_chunks, <- drop_chunks by done.
  by apply Forall2_take, Forall2_drop.
Qed.

(** One step down: the entries that cover [num] blocks from [pos] on, and the rest of the way. *)
Lemma search_step G bs h (ns : list Node) ds pos num :
  Forall2 (node_ok G bs (S h)) ns (chunks (B ^ S h) ds) → 0 < num → pos + num ≤ length ds →
  let skipped := pos / B ^ h in
  let pos' := pos - skipped * B ^ h in
  let needed := align_up (num + pos') (B ^ h) / B ^ h in
  ∃ ds', level_ok G bs h (take needed (drop skipped (concat (map entries ns)))) ds' ∧
    pos' + num ≤ length ds' ∧ take num (drop pos' ds') = take num (drop pos ds) ∧
    (h = 0 → pos' = 0 ∧ needed = num ∧ ds' = take num (drop pos ds)).
Proof.
  intros Hns Hnum Hle skipped pos' needed. pose proof (pow_B_pos h) as Hp.
  destruct (level_flatten G bs h ns ds Hns) as (vs & pad & -> & Hvs).
  assert (Hneed : needed = cdiv (num + pos') (B ^ h)) by (unfold needed; by apply align_up_div).
  assert (Hsk : skipped * B ^ h ≤ pos) by (unfold skipped; rewrite Nat.mul_comm; apply Nat.Div0.mul_div_le).
  assert (Hcov : skipped + needed ≤ length vs).
  { rewrite (level_ok_length _ _ _ _ _ Hvs), Hneed, <- cdiv_shift by done. apply cdiv_spec; [done|].
    pose proof (proj1 (cdiv_spec (length ds) (B ^ h) _ Hp) (le_n _)). lia. }
  rewrite drop_app_le, take_app_le by (rewrite ?length_drop; lia).
  exists (take (needed * B ^ h) (drop (skipped * B ^ h) ds)). split; [by apply level_sub|].
  assert (Hge : num + pos' ≤ needed * B ^ h) by (rewrite Hneed; by apply cdiv_spec).
  split; [rewrite length_take, length_drop; lia|]. split.
  - rewrite skipn_firstn_comm, take_take, Nat.min_l by lia. rewrite drop_drop. do 2 f_equal. lia.
  - intros ->. change (B ^ 0) with 1 in *. unfold skipped in *. rewrite Nat.div_1_r in *.
    assert (pos' = 0) as Hz by (unfold pos'; rewrite Nat.div_1_r; lia). split; [done|]. rewrite Hz in Hneed.
    rewrite cdiv_exact, Nat.div_1_r in Hneed by (lia || apply Nat.divide_1_l). split; [lia|].
    f_equal; [lia|]. f_equal. lia.
Qed.

Lemma search_hierarchy_right F G bs : ∀ h m (ns : list Node) ds pos num off buf b,
  sto_reads F (storage m) G bs → Forall2 (node_ok G bs (S h)) ns (chunks (B ^ S h) ds) → 0 < num → pos + num ≤ length ds →
  (off + num) * BLOCK_SIZE ≤ length buf →
  ∃ r m', search_hierarchy (S h) ns (mkSearch pos buf off num b) m = (r, m') ∧
    sto_reads F (storage m') G bs ∧ same_log m m' ∧
    ((∃ c, r = Ok c ∧ sc_buf c = splice buf (off * BLOCK_SIZE) (concat (take num (drop pos ds))) ∧ is_completed c = true)
     ∨ (F ∧ ∃ e, r = Err e)).
Proof.
  induction h as [|h IH]; intros m ns ds pos num off buf b Hs Hns Hnum Hle Hb.
  all: destruct (search_step G bs _ ns ds pos num Hns Hnum Hle) as (ds' & Hl & Hle' & Heq & Hlow).
  all: cbn [search_hierarchy sc_pos sc_num sc_offset sc_buf is_completed]; unfold max_num_data_nodes.
  all: destruct ns as [|n ns];
    [exfalso; apply Forall2_nil_inv_l in Hns; destruct ds; [cbn in Hle; lia|by rewrite chunks_step in Hns by (done || apply pow_B_pos)]|].
  all: rewrite (proj2 (Nat.eqb_eq _ (height n))) by
    (symmetry; inversion Hns; subst; by eapply node_ok_height); cbn [assert_]; rewrite io_bind_lift.
  - destruct (Hlow eq_refl) as (_ & Hneed & ->). cbn [is_lowest_level Nat.eqb].
    rewrite Hneed in Hl |- *. rewrite Nat.eqb_refl. cbn [assert_]. rewrite io_bind_lift.
    assert (Hlen : length (take num (drop pos ds)) = num) by (rewrite length_take, length_drop; lia).
    destruct (read_leaves_right F G bs m _ _ off buf Hs Hl ltac:(by rewrite Hlen)) as (r & Hr & [->|[HF [err ->]]]).
    + io_step Hr. eexists _, m. split; [done|]. split; [done|]. split; [done|]. left. by eexists.
    + rewrite (bind_err _ _ _ _ _ Hr). eexists _, m. split; [done|]. split; [done|]. split; [done|]. right. eauto.
  - cbn [is_lowest_level Nat.eqb].
    destruct (read_targets_right F G bs h _ m _ Hs Hl) as (r & m1 & H1 & Hok1 & Hs1 & [(ns' & -> & Hns')|[HF [err ->]]]).
    + io_step H1. rewrite <- Heq.
      destruct (IH m1 ns' ds' _ num off buf b Hok1 Hns' Hnum Hle' Hb) as (r & m2 & H2 & Hok2 & Hs2 & Hout).
      exists r, m2. split; [exact H2|]. split; [done|]. split; [by eapply same_log_trans|done].
    + rewrite (bind_err _ _ _ _ _ H1). eexists _, m1. split; [done|]. split; [done|]. split; [done|]. right. eauto.
Qed.
End search.

(** ** The state of a log *)
Section mht_spec.
Context {A : Aead} {HA : AeadSpec A} {MP : MhtPod A} {HMP : MhtPodSpec A MP} {R : Random A} {P : Pages} {HP : PagesSpec P}.
Context {L : Type} {HL : BlockLog L} {HLS : AppendLogSpec L} {C : Type} {HC : NodeCache A C} {HCS : NodeCacheSpec A C}.
Abbreviation Entry := (MhtNodeEntry A).
Abbreviation Node := (MhtNode A).
Abbreviation M := (Mht A L C).
Abbreviation Written := (gmap nat (Key * Iv * Mac * MhtNode A)).
Implicit Types (m : M) (G : Written) (bs ds eds qds : list (list byte)) (es : list Entry).

Definition blocks (ds : list (list byte)) : Prop := Forall (λ d, length d = BLOCK_SIZE) ds.

(** The tree is over [ds]; [eds] have been written, but for the tree, and [qds] wait in memory. *)
Definition mht_at m G bs (H : nat) ds eds qds : Prop :=
  sto_ok (storage m) G bs ∧ root_ok G bs (root_node m) H ds ∧
  (∀ meta n, root m = Some (meta, n) → G !! rm_pos meta = Some (root_key m, rm_iv meta, rm_mac meta, n)) ∧
  level_ok G bs 0 (entry_queue (data_buf m)) eds ∧ node_queue (data_buf m) = qds ∧
  start_pos (data_buf m) = length ds ∧ blocks (ds ++ eds ++ qds).

Definition mht_ok m ds eds qds : Prop := ∃ G bs H, mht_at m G bs H ds eds qds.

(** What no operation changes. *)
Definition fixed m : nat * nat * Key := (node_queue_cap (data_buf m), entry_queue_cap (data_buf m), root_key m).

Definition log_room m : nat := room (storage m).

Lemma level_0_length G bs es ds : level_ok G bs 0 es ds → length es = length ds.
Proof.
  intros Hl. rewrite (level_ok_length _ _ _ _ _ Hl). rewrite cdiv_exact; [apply Nat.div_1_r|cbn; lia|apply Nat.divide_1_l].
Qed.

Lemma mht_ok_nblocks m ds eds qds : mht_ok m ds eds qds → total_data_nodes m = length (ds ++ eds ++ qds).
Proof.
  intros (G & bs & H & _ & Hr & _ & He & Hq & _). unfold total_data_nodes, num_append.
  rewrite Hq, (level_0_length _ _ _ _ He), !length_app. unfold root_node in Hr. destruct (root m) as [[meta n]|]; cbn in Hr.
  - destruct Hr as [Hn _]. rewrite (node_ok_num _ _ _ _ _ Hn). lia.
  - destruct Hr as [-> _]. cbn. lia.
Qed.

Lemma mht_at_same m m' G bs H ds eds qds :
  mht_at m G bs H ds eds qds → same_log m m' → sto_ok (storage m') G bs → mht_at m' G bs H ds eds qds.
Proof.
  intros (_ & Hr & Hm & He & Hq & Hst & Hb) (E1 & E2 & E3 & _) Hs'. unfold mht_at, root_node. rewrite E1, E2, E3.
  by split_and!.
Qed.

(** *** Flushes *)
Lemma flush_node_queue_ok m G bs H ds eds qds :
  mht_at m G bs H ds eds qds → length qds ≤ log_room m →
  ∃ m' bs', flush_node_queue m = (Ok (), m') ∧ mht_at m' G bs' H ds (eds ++ qds) [] ∧ fixed m' = fixed m ∧
    root m' = root m ∧ log_room m = log_room m' + length qds.
Proof.
  intros (Hs & Hr & Hm & He & Hq & Hst & Hb) Hroom. unfold flush_node_queue.
  rewrite (io_bind_Ok _ _ m m m) by done. rewrite Hq.
  assert (Hbq : blocks qds) by (unfold blocks in *; rewrite !Forall_app in Hb; tauto).
  destruct (storage_append_data_nodes_ok (storage m) G bs qds Hs Hbq Hroom) as (es & s1 & cs & Hs1 & Hok & Hl & Hr1).
  set (m1 := mkMht (root m) (root_key m) (data_buf m) s1).
  assert (H1 : on_storage (storage_append_data_nodes qds) m = (Ok es, m1)) by (unfold on_storage; by rewrite Hs1).
  io_step H1. eexists _, (bs ++ cs). split; [done|]. split; [|done].
  assert (Hg : grows G G bs (bs ++ cs)) by (split; [done|by eexists]).
  split; [done|]. unfold root_node in *. cbn [root root_key data_buf entry_queue node_queue start_pos] in *.
  split; [destruct (root m) as [[meta n]|]; [|done]; destruct Hr as [Hn ?]; split; [by eapply node_ok_grows|done]|].
  split; [done|]. split.
  - unfold level_ok. rewrite chunks_app; [|cbn; lia|apply Nat.divide_1_l].
    apply Forall2_app; [|done]. by eapply (level_ok_grows G G bs).
  - split; [done|]. split; [done|]. unfold blocks in *. by rewrite app_nil_r.
Qed.

(** Trees whose right edge the builder counts correctly. *)
Definition edge (n : nat) : Prop := ∀ H, height_of n H → edge_ok n H.

Lemma edge_two_levels n : n ≤ B * B → edge n.
Proof.
  intros Hn H HH Hd. destruct (decide (H ≤ 2)) as [Hle|Hgt].
  - destruct H as [|[|[|]]]; cbn; try lia; try apply Nat.divide_1_l. by rewrite Nat.mul_1_r.
  - exfalso. destruct HH as (_ & _ & [->|Hlo]); [lia|]. pose proof (pow_mono 2 (H - 1) ltac:(lia)) as Hp.
    cbn in Hp. lia.
Qed.

(** The blocks a flush of [k] new blocks may take. *)
Definition flush_cost (k : nat) : nat := k + 5 * (k + 1).

(** A flush: the queues are emptied, the tree is built and its root is written. *)
Lemma flush_steps m G bs H ds eds qds :
  mht_at m G bs H ds eds qds → length qds ≤ log_room m →
  ∃ m1 bs1, mht_at m1 G bs1 H ds (eds ++ qds) [] ∧ fixed m1 = fixed m ∧ log_room m = log_room m1 + length qds ∧
    ∀ n s3 meta s4,
      tree_build (root_node m1) (entry_queue (data_buf m1)) (storage m1) = (Ok n, s3) →
      append_root_mht_node (root_key m1) n s3 = (Ok meta, s4) →
      flush m = (Ok (), mkMht (Some (meta, n)) (root_key m1)
        (mkDataBuf [] (node_queue_cap (data_buf m1)) [] (entry_queue_cap (data_buf m1)) (length ds + length (eds ++ qds))) s4).
Proof.
  intros Hat Hroom.
  destruct (flush_node_queue_ok m G bs H ds eds qds Hat Hroom) as (m1 & bs1 & H1 & Hat1 & Hf1 & Hroot1 & Hr1).
  exists m1, bs1. split; [done|]. split; [done|]. split; [done|]. intros n s3 meta s4 H3 H4.
  destruct Hat1 as (_ & _ & _ & Hl1 & Hq1 & Hst1 & _). unfold flush.
  set (b2 := mkDataBuf [] (node_queue_cap (data_buf m1)) [] (entry_queue_cap (data_buf m1)) (length ds + length (eds ++ qds))).
  set (m2 := mkMht (root m1) (root_key m1) b2 (storage m1)).
  assert (Hbf : buf_flush m = (Ok (entry_queue (data_buf m1)), m2)).
  { unfold buf_flush. io_step H1. rewrite (io_bind_Ok _ _ m1 m1 m1) by done.
    rewrite Hq1, Hst1, (level_0_length _ _ _ _ Hl1). done. }
  io_step Hbf. unfold do_build. rewrite (io_bind_Ok _ _ m2 m2 m2) by done.
  rewrite (io_bind_Ok _ _ m2 n (mkMht (root m1) (root_key m1) b2 s3)); [|unfold on_storage; change (storage m2) with (storage m1);
    change (root_node m2) with (root_node m1); by rewrite H3].
  rewrite (io_bind_Ok _ _ _ meta (mkMht (root m1) (root_key m1) b2 s4)); [|unfold on_storage; change (root_key m2) with (root_key m1); cbn [storage]; by rewrite H4].
  done.
Qed.

Lemma log_flush_ok m ds eds qds :
  mht_ok m ds eds qds → eds ++ qds ≠ [] → edge (length ds) →
  (N.of_nat (length (ds ++ eds ++ qds)) < 2 ^ 32)%N → flush_cost (length (eds ++ qds)) ≤ log_room m →
  ∃ m', flush m = (Ok (), m') ∧ mht_ok m' (ds ++ eds ++ qds) [] [] ∧ fixed m' = fixed m ∧ is_Some (root m') ∧
    log_room m ≤ log_room m' + flush_cost (length (eds ++ qds)).
Proof.
  intros (G & bs & H & Hat) Hne Hedge H32 Hroom. pose proof Hat as (_ & Hr0 & _).
  assert (He0 : edge_ok (length ds) H).
  { unfold root_ok in Hr0. destruct (root_node m); [apply Hedge; by destruct Hr0|]. destruct Hr0 as [-> ->]. intros _. apply Nat.divide_1_l. }
  unfold flush_cost in *. assert (Hlen : length (eds ++ qds) = length eds + length qds) by apply length_app.
  destruct (flush_steps m G bs H ds eds qds Hat ltac:(lia)) as (m1 & bs1 & Hat1 & Hf1 & Hr1 & Hflush).
  destruct Hat1 as (Hs1 & Hrt1 & _ & Hl1 & _ & _ & Hb1).
  destruct (tree_build_ok (storage m1) G bs1 (root_node m1) H ds (eds ++ qds) (entry_queue (data_buf m1))
              Hs1 Hrt1 He0 Hl1 Hne H32) as (n & T & s3 & G3 & bs3 & H3 & Hok3 & Hg3 & Hn3 & Hr3); [unfold log_room in *; lia|].
  destruct (append_root_ok s3 G3 bs3 (root_key m1) n Hok3) as (meta & s4 & G4 & cs & H4 & Hok4 & Hg4 & Hmeta & Hr4).
  { destruct Hn3 as [Hn3 _]. by eapply node_ok_fits. } { unfold log_room in *. lia. }
  rewrite (Hflush n s3 meta s4 H3 H4). eexists. split; [done|]. split; [|split; [done|split; [done|]]].
  - exists G4, (bs3 ++ cs), T. unfold mht_at. cbn [storage root root_key data_buf]. split; [done|]. split.
    { destruct Hn3 as [Hn3 HT]. split; [by eapply node_ok_grows|done]. }
    split; [by intros ? ? [= <- <-]|]. split; [constructor|]. split; [done|].
    split; [cbn [start_pos]; by rewrite (length_app ds)|].
    unfold blocks in *. by rewrite !app_nil_r in *.
  - unfold log_room in *. cbn [storage]. lia.
Qed.

(** *** Appends *)

(** The blocks of [ds' ++ eds' ++ qds'] are those of the log and the new ones; the tree
    takes them all in, or none. *)
Lemma append_data_nodes_ok m ds eds qds nodes :
  mht_ok m ds eds qds → blocks nodes → length eds < entry_queue_cap (data_buf m) →
  (entry_queue_cap (data_buf m) ≤ length (eds ++ qds ++ nodes) → edge (length ds)) →
  (N.of_nat (length (ds ++ eds ++ qds ++ nodes)) < 2 ^ 32)%N →
  flush_cost (length (eds ++ qds ++ nodes)) + length (qds ++ nodes) ≤ log_room m →
  ∃ m' ds' eds' qds', append_data_nodes nodes m = (Ok (), m') ∧ mht_ok m' ds' eds' qds' ∧ fixed m' = fixed m ∧
    ds' ++ eds' ++ qds' = ds ++ eds ++ qds ++ nodes ∧
    (ds' = ds ∧ length eds' < entry_queue_cap (data_buf m) ∧ log_room m + length eds = log_room m' + length eds' ∨
     entry_queue_cap (data_buf m) ≤ length (eds ++ qds ++ nodes) ∧ eds' = [] ∧ qds' = []) ∧
    (ds' = ds → if node_queue_cap (data_buf m) <=? length (qds ++ nodes) then qds' = [] else eds' = eds).
Proof.
  intros (G & bs & H & Hat) Hn Hcap Hedge H32 Hroom. pose proof Hat as (Hs & Hr & Hm & He & Hq & Hst & Hb).
  unfold append_data_nodes, buf_append_data_nodes. set (b := data_buf m) in *.
  set (b1 := mkDataBuf (qds ++ nodes) (node_queue_cap b) (entry_queue b) (entry_queue_cap b) (start_pos b)).
  set (m1 := mkMht (root m) (root_key m) b1 (storage m)).
  assert (Hat1 : mht_at m1 G bs H ds eds (qds ++ nodes)).
  { unfold mht_at. cbn. split_and!; try done. unfold blocks in *. rewrite !Forall_app in *. tauto. }
  assert (Hsplit : ∃ m2 eds' qds', buf_append_data_nodes nodes m = (Ok (), m2) ∧ mht_ok m2 ds eds' qds' ∧ fixed m2 = fixed m ∧
            eds' ++ qds' = eds ++ qds ++ nodes ∧ log_room m ≤ log_room m2 + length (qds ++ nodes) ∧
            length (entry_queue (data_buf m2)) = length eds' ∧
            log_room m + length eds = log_room m2 + length eds' ∧
            (entry_queue_cap b ≤ length eds' → qds' = []) ∧
            if node_queue_cap b <=? length (qds ++ nodes) then qds' = [] else eds' = eds).
  { unfold buf_append_data_nodes. rewrite (io_bind_Ok _ _ m m m) by done. fold b. unfold is_full.
    rewrite (level_0_length _ _ _ _ He), (proj2 (Nat.leb_gt _ _)) by done. rewrite Hq.
    rewrite (io_bind_Ok _ _ m () m1) by done. destruct (node_queue_cap b <=? length (qds ++ nodes)) eqn:E.
    - destruct (flush_node_queue_ok m1 G bs H ds eds (qds ++ nodes) Hat1) as (m2 & bs2 & H2 & Hat2 & Hf2 & _ & Hr2).
      { unfold log_room in *. cbn. lia. }
      exists m2, (eds ++ qds ++ nodes), []. split; [done|]. split; [by exists G, bs2, H|]. split; [done|].
      rewrite app_nil_r. split; [done|]. change (log_room m1) with (log_room m) in Hr2. split; [lia|].
      split; [destruct Hat2 as (_ & _ & _ & Hl2 & _); by apply level_0_length in Hl2|].
      split; [rewrite !length_app in *; lia|]. done.
    - exists m1, eds, (qds ++ nodes). split; [done|]. split; [by exists G, bs, H|]. split; [done|]. split; [done|].
      change (log_room m1) with (log_room m). split; [lia|].
      split; [by apply level_0_length in He|]. split; [lia|]. split; [lia|done]. }
  destruct Hsplit as (m2 & eds' & qds' & H2 & Hok2 & Hf2 & Heq & Hr2 & Hlen & Hsmall & Hbig & Hwhich). unfold append_data_nodes.
  unfold buf_append_data_nodes in H2. io_step H2. rewrite (io_bind_Ok _ _ m2 m2 m2) by done. unfold is_full. rewrite Hlen.
  assert (Hcap2 : entry_queue_cap (data_buf m2) = entry_queue_cap b) by exact (f_equal (λ x, x.1.2) Hf2). rewrite Hcap2.
  destruct (entry_queue_cap b <=? length eds') eqn:E; bool_simpl.
  - rewrite Hbig in * by done. rewrite app_nil_r in Heq. subst eds'.
    destruct (log_flush_ok m2 ds (eds ++ qds ++ nodes) [] Hok2) as (m3 & H3 & Hok3 & Hf3 & _ & _).
    + rewrite app_nil_r. intros Hnil. apply (f_equal length) in Hnil. cbn [length] in Hnil. rewrite Hnil in E. lia.
    + by apply Hedge.
    + by rewrite app_nil_r.
    + rewrite app_nil_r. lia.
    + exists m3, (ds ++ eds ++ qds ++ nodes), [], []. rewrite !app_nil_r in *. split; [done|]. split; [done|].
      split; [congruence|]. split; [done|]. split; [right; split; [done|done]|]. intros _. destruct (_ <=? _); [done|].
      rewrite Hwhich in E. lia.
  - exists m2, ds, eds', qds'. split; [done|]. split; [done|]. split; [done|]. rewrite Heq. split; [done|].
    split; [left; split; [done|]; split; [done|]; exact Hsmall|]. intros _. exact Hwhich.
Qed.

(** *** Reads *)

(** What a read needs of the state: the tree, and a storage that reads as [sto_reads] says. *)
Definition read_at F m G bs (H : nat) ds : Prop :=
  sto_reads F (storage m) G bs ∧ root_ok G bs (root_node m) H ds ∧ start_pos (data_buf m) = length ds ∧
  length ds ≤ total_data_nodes m ∧ blocks ds.

Lemma read_right F m G bs H ds pos num buf :
  read_at F m G bs H ds → is_buf num buf → pos + num ≤ length ds → usize_ok (pos + num) = true →
  ∃ r m', read pos buf m = (r, m') ∧ right F r (concat (take num (drop pos ds))) ∧
    sto_reads F (storage m') G bs ∧ same_log m m'.
Proof.
  intros (Hs & Hr & Hst & Htot & Hb) [Hnum Hlen] Hle Hus. unfold read. rewrite (nblocks_of_is_buf num) by done.
  assert (Hse : ∃ r m', search (mkSearch pos buf 0 num false) m = (r, m') ∧ sto_reads F (storage m') G bs ∧ same_log m m' ∧
            ((∃ c, r = Ok c ∧ sc_buf c = concat (take num (drop pos ds)) ∧ is_completed c = true) ∨ (F ∧ ∃ e, r = Err e))).
  { unfold search. rewrite (io_bind_Ok _ _ m m m) by done. destruct (root_node m) as [n|] eqn:En.
    2: { destruct Hr as [-> _]. cbn in Hle. lia. }
    destruct Hr as [Hn Hh]. cbn [sc_pos sc_num]. rewrite uadd_ok by done. rewrite io_bind_lift.
    rewrite (proj2 (Nat.ltb_ge _ _)) by lia.
    assert (Hsd : search_data_nodes (mkSearch pos buf 0 num false) m = (Ok (mkSearch pos buf 0 num false), m)).
    { unfold search_data_nodes. rewrite (io_bind_Ok _ _ m m m) by done. cbn [sc_pos sc_num]. rewrite Hst.
      by rewrite (proj2 (Nat.leb_le _ _)) by done. }
    io_step Hsd. cbn [is_completed]. rewrite (node_ok_height _ _ _ _ _ Hn). destruct H as [|h]; [done|].
    pose proof (node_ok_len _ _ _ _ _ Hn) as [Hpos Hmax].
    destruct (search_hierarchy_right F G bs h m [n] ds pos num 0 buf false Hs) as (r & m' & Hr & Hok' & Hsame & Hout).
    - assert (ds ≠ []) by (intros ->; cbn in Hpos; lia). rewrite chunks_small by done. by constructor.
    - done.
    - done.
    - lia.
    - exists r, m'. split; [done|]. split; [done|]. split; [done|]. destruct Hout as [(c & -> & Hcb & Hcc)|]; [left|by right].
      exists c. split; [done|]. split; [|done]. rewrite Hcb. apply splice_all.
      rewrite (length_concat_same BLOCK_SIZE) by (by apply Forall_take, Forall_drop).
      rewrite length_take, length_drop, Nat.min_l by lia. done. }
  destruct Hse as (r & m' & H1 & Hok' & Hsame & [(c & -> & Hcb & Hcc)|[HF [err ->]]]).
  - io_step H1. rewrite Hcc. cbn [assert_]. rewrite io_bind_lift, Hcb. eexists _, m'. split; [done|]. split; [by left|done].
  - rewrite (bind_err _ _ _ _ _ H1). eexists _, m'. split; [done|]. split; [right; eauto|done].
Qed.

Lemma mht_at_reads m G bs H ds eds qds : mht_at m G bs H ds eds qds → read_at False m G bs H ds.
Proof.
  intros Hat. assert (Htot : total_data_nodes m = length (ds ++ eds ++ qds)) by (apply mht_ok_nblocks; by exists G, bs, H).
  destruct Hat as (Hs & Hr & _ & _ & _ & Hst & Hb). split; [by apply sto_ok_reads|]. split; [done|]. split; [done|].
  rewrite Htot, length_app. split; [lia|]. unfold blocks in *. by apply Forall_app in Hb as [? _].
Qed.

Lemma read_ok m ds eds qds pos num buf :
  mht_ok m ds eds qds → is_buf num buf → pos + num ≤ length ds → usize_ok (pos + num) = true →
  ∃ m', read pos buf m = (Ok (concat (take num (drop pos ds))), m').
Proof.
  intros (G & bs & H & Hat) Hbuf Hle Hus.
  destruct (read_right False m G bs H ds pos num buf (mht_at_reads _ _ _ _ _ _ _ Hat) Hbuf Hle Hus) as (r & m' & Hr & [->|[[] _]] & _).
  eauto.
Qed.

(** *** Opening *)
Definition empty_cache (c : C) : Prop := nc_live c ∧ ∀ pos n, ¬ nc_has c pos n.

Lemma calc_queue_cap_ok n : n ≤ MAX_ENTRY_QUEUE_CAP →
  ∃ k, calc_queue_cap APPEND_BUF_CAPACITY n = Ok (1024, k) ∧ k = (MAX_ENTRY_QUEUE_CAP - n) `min` (1024 * BLOCK_SIZE / ENTRY_SIZE).
Proof. intros Hn. unfold calc_queue_cap. rewrite usub_ok by done. bind_step. by eexists. Qed.

Lemma open_right F (log : L) key meta n c k G bs H ds :
  sto_reads F (mkStorage log c k) G bs → G !! rm_pos meta = Some (key, rm_iv meta, rm_mac meta, n) →
  root_ok G bs (Some n) H ds → blocks ds → length ds ≤ MAX_ENTRY_QUEUE_CAP →
  (∃ m', CryptoLog_open log key meta c k = Ok m' ∧ read_at F m' G bs H ds ∧ total_data_nodes m' = length ds ∧
         root_meta m' = Some meta) ∨
  (F ∧ ∃ e, CryptoLog_open log key meta c k = Err e).
Proof.
  intros Hs0 Hm [Hn Hh] Hb Hmax. unfold CryptoLog_open, root_mht_node.
  destruct (read_mht_node_right F _ _ _ _ _ _ G bs Hs0 Hm) as (r & s' & -> & [->|[HF [e ->]]] & Hs' & Hl'); [|by right; eauto].
  left. bind_step. unfold AppendDataBuf_new. rewrite (node_ok_num _ _ _ _ _ Hn).
  destruct (calc_queue_cap_ok (length ds) Hmax) as (cap & -> & _). bind_step. eexists. split; [done|].
  assert (Htot : ∀ b, num_append b = 0 → total_data_nodes (mkMht (Some (meta, n)) key b s') = length ds).
  { intros b Hb0. unfold total_data_nodes. cbn [root data_buf]. rewrite Hb0. by rewrite (node_ok_num _ _ _ _ _ Hn). }
  split; [|split; [by apply Htot|done]]. split; [done|]. split; [done|]. split; [done|]. by rewrite Htot.
Qed.

(** The root of a log, and the caches that may be used to open it again. *)
Lemma root_known m G bs H ds eds qds meta :
  mht_at m G bs H ds eds qds → root_meta m = Some meta →
  ∃ n, root_node m = Some n ∧ G !! rm_pos meta = Some (root_key m, rm_iv meta, rm_mac meta, n) ∧ root_ok G bs (Some n) H ds ∧
    blocks ds.
Proof.
  intros (_ & Hr & Hm & _ & _ & _ & Hb) Hmeta. unfold root_meta, root_node in *.
  destruct (root m) as [[meta' n]|] eqn:Er; [|done]. injection Hmeta as ->. exists n. split; [done|]. split; [by apply Hm|].
  split; [done|]. unfold blocks in *. by apply Forall_app in Hb as [? _].
Qed.

Lemma empty_cache_ok c G : empty_cache c → cache_ok c G.
Proof. intros [Hl He]. split; [done|]. intros pos n Hp. by destruct (He pos n). Qed.

Lemma new_ok (log : L) key c k :
  al_holds log [] → empty_cache c →
  ∃ m, CryptoLog_new log key c k = Ok m ∧ mht_ok m [] [] [] ∧ block_log (storage m) = log ∧ root_key m = key ∧
    entry_queue_cap (data_buf m) = MAX_ENTRY_QUEUE_CAP `min` (1024 * BLOCK_SIZE / ENTRY_SIZE) ∧
    node_queue_cap (data_buf m) = 1024.
Proof.
  intros Hl [Hlive Hemp]. unfold CryptoLog_new, AppendDataBuf_new.
  destruct (calc_queue_cap_ok 0 ltac:(lia)) as (cap & -> & Hcap). bind_step. eexists. split; [done|].
  split; [|split; [reflexivity|split; [reflexivity|cbn [data_buf entry_queue_cap]; rewrite Hcap, Nat.sub_0_r; split; reflexivity]]].
  clear Hcap. exists ∅, [], 0. unfold mht_at. cbn. split_and!; try done; try constructor.
  - done.
  - split; [split; [done|]; intros pos n Hp; by destruct (Hemp pos n)|]. intros ? ? ? ? ? Hp. by rewrite lookup_empty in Hp.
Qed.
End mht_spec.
