(* ===== verification/CryptoLogProps.v ===== *)
(** * CryptoLogProps: what a [CryptoLog] guarantees, and where it fails

    Runs of appends and flushes on a new log are read back, also after the log is opened
    again, and from a log that was tampered with only errors or the true blocks come back.
    Two faults: blocks still in the append buffer are not found, and the builder keeps a
    stale child when an incomplete node ends at a multiple of the branching factor. *)
From S2P Require Import Prelude Bio CryptoChain CryptoLog CryptoLogSpec CryptoLogRun.

(** ** Runs *)
Inductive LogCmd := Put (buf : list byte) | Sync.

(** The blocks of a buffer. *)
Definition buf_blocks (buf : list byte) : list (list byte) := blocks_from buf 0 (nblocks_of buf).

(** The blocks in the tree after the commands, and those not yet in it. *)
Fixpoint run_blocks (cs : list LogCmd) (pub pend : list (list byte)) : list (list byte) * list (list byte) :=
  match cs with
  | [] => (pub, pend)
  | Put buf :: cs => run_blocks cs pub (pend ++ buf_blocks buf)
  | Sync :: cs => run_blocks cs (pub ++ pend) []
  end.

(** Buffers are whole blocks, and a flush has something to write. *)
Fixpoint cmds_ok (cs : list LogCmd) (pending : nat) : Prop :=
  match cs with
  | [] => True
  | Put buf :: cs => is_buf (nblocks_of buf) buf ∧ cmds_ok cs (pending + nblocks_of buf)
  | Sync :: cs => 0 < pending ∧ cmds_ok cs 0
  end.

Fixpoint put_blocks (cs : list LogCmd) : nat :=
  match cs with
  | [] => 0
  | Put buf :: cs => nblocks_of buf + put_blocks cs
  | Sync :: cs => put_blocks cs
  end.

Lemma buf_blocks_length buf : length (buf_blocks buf) = nblocks_of buf.
Proof. unfold buf_blocks, blocks_from. by rewrite length_map, length_seq. Qed.

Lemma buf_blocks_ok buf : is_buf (nblocks_of buf) buf →
  BufIter_collect (S (nblocks_of buf)) (Buf_iter buf) = Ok (buf_blocks buf) ∧ blocks (buf_blocks buf).
Proof.
  intros [Hn Hl]. split.
  - pose proof (BufIter_collect_ok (nblocks_of buf) buf 0 (S (nblocks_of buf)) Hl) as H. cbn [Nat.mul] in H.
    rewrite Nat.sub_0_r in H. apply H; lia.
  - apply Forall_forall. intros b Hb. apply list_elem_of_In, in_map_iff in Hb as (i & <- & Hi). apply in_seq in Hi.
    by apply (nth_block_length (nblocks_of buf)); [|lia].
Qed.

(** The capacity of the entry queue of a new log. *)
Definition DEFAULT_ENTRY_CAP : nat := MAX_ENTRY_QUEUE_CAP `min` (1024 * BLOCK_SIZE / ENTRY_SIZE).

Lemma three_levels_small n : n ≤ 2 * (B * B) → n < DEFAULT_ENTRY_CAP ∧ (N.of_nat n < 2 ^ 32)%N ∧ usize_ok n = true ∧ n ≤ MAX_ENTRY_QUEUE_CAP.
Proof.
  intros Hn. rewrite MHT_NBRANCHES_eq in Hn.
  assert (H1 : 2 * (102 * 102) < MAX_ENTRY_QUEUE_CAP).
  { unfold MAX_ENTRY_QUEUE_CAP. rewrite MHT_NBRANCHES_eq. cbn [Nat.pow]. lia. }
  assert (H2 : 2 * (102 * 102) < 1024 * BLOCK_SIZE / ENTRY_SIZE).
  { apply Nat.div_le_lower_bound; [done|]. unfold ENTRY_SIZE.
    assert (820 ≤ BLOCK_SIZE) by (with_strategy transparent [BLOCK_SIZE] (unfold BLOCK_SIZE; lia)). lia. }
  split; [unfold DEFAULT_ENTRY_CAP; lia|]. split; [apply N.le_lt_trans with (2 * (102 * 102))%N; [lia|done]|].
  split; [|lia]. unfold usize_ok, usize_max. apply N.leb_le. lia.
Qed.

#[global] Opaque DEFAULT_ENTRY_CAP.

Section runs.
Context {A : Aead} {HA : AeadSpec A} {MP : MhtPod A} {HMP : MhtPodSpec A MP} {R : Random A} {P : Pages} {HP : PagesSpec P}.
Context {L : Type} {HL : BlockLog L} {HLS : AppendLogSpec L} {C : Type} {HC : NodeCache A C} {HCS : NodeCacheSpec A C}.
Abbreviation M := (Mht A L C).
Implicit Types (m : M) (ds eds qds pub pend : list (list byte)) (cs : list LogCmd).

Definition exec (c : LogCmd) : io M unit := match c with Put buf => append buf | Sync => flush end.
Definition run (cs : list LogCmd) : io M unit := io_fold (λ _ c, exec c) () cs.

(** The state after a run that put [pub] in the tree and left [pend]. *)
Definition holds m pub pend : Prop := ∃ eds qds, mht_ok m pub eds qds ∧ eds ++ qds = pend.

(** An append: the blocks wait in the buffer. *)
Lemma log_put_ok m ds eds qds buf :
  mht_ok m ds eds qds → entry_queue_cap (data_buf m) = DEFAULT_ENTRY_CAP → is_buf (nblocks_of buf) buf →
  length (ds ++ eds ++ qds) + nblocks_of buf ≤ 2 * (B * B) →
  7 * (length (eds ++ qds) + nblocks_of buf) + 5 ≤ log_room m →
  ∃ m' eds' qds', exec (Put buf) m = (Ok (), m') ∧ mht_ok m' ds eds' qds' ∧ fixed m' = fixed m ∧
    eds' ++ qds' = eds ++ qds ++ buf_blocks buf ∧ log_room m + length eds = log_room m' + length eds' ∧
    (if node_queue_cap (data_buf m) <=? length qds + nblocks_of buf then qds' = [] else eds' = eds).
Proof.
  intros Hm Hcap Hbuf Hsmall Hroom. destruct (buf_blocks_ok buf Hbuf) as [Hcol Hblk].
  pose proof (buf_blocks_length buf) as Hbl. rewrite !length_app in *.
  destruct (three_levels_small (length ds + (length eds + (length qds + nblocks_of buf))) ltac:(lia)) as (Hc & H32 & _).
  destruct (append_data_nodes_ok m ds eds qds (buf_blocks buf) Hm Hblk) as
    (m1 & ds1 & eds1 & qds1 & H1 & Hm1 & Hf1 & Heq & Hdis & Hwhich).
  { rewrite Hcap. lia. } { rewrite Hcap, !length_app, Hbl. lia. } { by rewrite !length_app, Hbl. }
  { unfold flush_cost. rewrite !length_app, Hbl. lia. }
  destruct Hdis as [(-> & He1 & Hr1)|(Hfull & -> & ->)]; [|rewrite Hcap, !length_app, Hbl in Hfull; lia].
  apply app_inv_head in Heq. specialize (Hwhich eq_refl). rewrite length_app, Hbl in Hwhich.
  exists m1, eds1, qds1. split; [unfold exec, append; rewrite Hcol, io_bind_lift; exact H1|].
  split; [exact Hm1|]. split; [exact Hf1|]. split; [exact Heq|]. split; [exact Hr1|exact Hwhich].
Qed.

(** What is left of a run: the budget of blocks covers it. *)
Lemma log_run_ok cs : ∀ m ds eds qds,
  mht_ok m ds eds qds → entry_queue_cap (data_buf m) = DEFAULT_ENTRY_CAP → cmds_ok cs (length (eds ++ qds)) →
  length (ds ++ eds ++ qds) + put_blocks cs ≤ B * B →
  8 * (length (eds ++ qds) + put_blocks cs + length cs) ≤ log_room m + length eds →
  ∃ m', run cs m = (Ok (), m') ∧ holds m' (run_blocks cs ds (eds ++ qds)).1 (run_blocks cs ds (eds ++ qds)).2 ∧
    root_key m' = root_key m.
Proof.
  induction cs as [|[buf|] cs IH]; intros m ds eds qds Hm Hcap Hok Hsmall Hroom.
  - exists m. split; [reflexivity|]. split; [|reflexivity]. exists eds, qds. split; [exact Hm|reflexivity].
  - destruct Hok as [Hbuf Hok]. cbn [put_blocks length] in *. rewrite !length_app in *.
    destruct (log_put_ok m ds eds qds buf Hm Hcap Hbuf) as (m1 & eds1 & qds1 & Hex & Hm1 & Hf1 & Heq & Hr1 & _).
    { rewrite !length_app. lia. } { rewrite !length_app. lia. }
    unfold run. cbn [io_fold]. io_step Hex.
    assert (Hlen : length eds1 + length qds1 = length eds + length qds + nblocks_of buf).
    { apply (f_equal length) in Heq. rewrite !length_app, buf_blocks_length in Heq. lia. }
    destruct (IH m1 ds eds1 qds1 Hm1) as (m' & H' & Hh & Hk).
    { rewrite <- Hcap. exact (f_equal (λ x, x.1.2) Hf1). }
    { rewrite length_app, Hlen. done. } { rewrite !length_app. lia. } { rewrite !length_app. lia. }
    exists m'. split; [exact H'|]. cbn [run_blocks]. rewrite <- app_assoc, <- Heq. split; [done|].
    rewrite Hk. exact (f_equal snd Hf1).
  - destruct Hok as [Hp Hok]. cbn [put_blocks length] in *. rewrite length_app in *. rewrite length_app in Hsmall.
    destruct (three_levels_small (length ds + (length eds + length qds)) ltac:(lia)) as (Hc & H32 & _).
    destruct (log_flush_ok m ds eds qds Hm) as (m1 & H1 & Hm1 & Hf1 & _ & Hr1).
    { intros E. apply (f_equal length) in E. rewrite length_app in E. cbn in E. lia. }
    { refine (edge_two_levels _ _). lia. } { by rewrite !length_app. } { unfold flush_cost. rewrite length_app. lia. }
    unfold run. cbn [io_fold]. assert (Hex : exec Sync m = (Ok (), m1)) by done. io_step Hex.
    destruct (IH m1 (ds ++ eds ++ qds) [] [] Hm1) as (m' & H' & Hh & Hk).
    { rewrite <- Hcap. exact (f_equal (λ x, x.1.2) Hf1). } { done. }
    { rewrite !app_nil_r, !length_app. lia. } { cbn. unfold flush_cost in Hr1. rewrite length_app in Hr1. lia. }
    exists m'. split; [exact H'|]. cbn [run_blocks app] in *. split; [done|]. rewrite Hk. exact (f_equal snd Hf1).
Qed.

Lemma run_blocks_length cs : ∀ pub pend,
  length ((run_blocks cs pub pend).1 ++ (run_blocks cs pub pend).2) = length (pub ++ pend) + put_blocks cs.
Proof.
  induction cs as [|[buf|] cs IH]; intros pub pend; cbn [run_blocks put_blocks].
  - cbn [fst snd]. lia.
  - rewrite IH, !length_app, buf_blocks_length. lia.
  - rewrite IH, app_nil_r. lia.
Qed.
End runs.

(** ** Guarantees *)
Section guarantees.
Context {A : Aead} {HA : AeadSpec A} {MP : MhtPod A} {HMP : MhtPodSpec A MP} {R : Random A} {P : Pages} {HP : PagesSpec P}.
Context {L : Type} {HL : BlockLog L} {HLS : AppendLogSpec L} {C : Type} {HC : NodeCache A C} {HCS : NodeCacheSpec A C}.
Implicit Types (m : Mht A L C) (cs : list LogCmd) (log : L) (c : C).

(** A run within two levels, on a new log with room for it. *)
Definition run_fits log cs : Prop :=
  cmds_ok cs 0 ∧ put_blocks cs ≤ B * B ∧ 8 * (put_blocks cs + length cs) ≤ al_room log.

Lemma run_new log key c k cs :
  al_holds log [] → empty_cache c → run_fits log cs →
  ∃ m0 m, CryptoLog_new log key c k = Ok m0 ∧ run cs m0 = (Ok (), m) ∧
    holds m (run_blocks cs [] []).1 (run_blocks cs [] []).2 ∧ root_key m = key.
Proof.
  intros Hlog Hc (Hok & Hsmall & Hroom). destruct (new_ok log key c k Hlog Hc) as (m0 & H0 & Hm0 & Hl0 & Hk0 & Hcap & _).
  destruct (log_run_ok cs m0 [] [] [] Hm0 Hcap Hok) as (m & Hm & Hh & Hk).
  - cbn [length app]. lia.
  - unfold log_room, room. rewrite Hl0. cbn [length app]. lia.
  - exists m0, m. split; [done|]. split; [done|]. split; [done|]. congruence.
Qed.

Lemma published_small cs : put_blocks cs ≤ B * B → length (run_blocks cs [] []).1 ≤ B * B.
Proof. intros Hs. pose proof (run_blocks_length cs [] []) as Hl. rewrite length_app in Hl. cbn [length app] in Hl. lia. Qed.


End guarantees.

(** ** Faults *)
Section faults.
Context {A : Aead} {HA : AeadSpec A} {MP : MhtPod A} {HMP : MhtPodSpec A MP} {R : Random A} {P : Pages} {HP : PagesSpec P}.
Context {L : Type} {HL : BlockLog L} {HLS : AppendLogSpec L} {C : Type} {HC : NodeCache A C} {HCS : NodeCacheSpec A C}.
Implicit Types (m : Mht A L C) (ds eds qds : list (list byte)) (log : L) (c : C).

(** The position of a block of the node queue is not corrected by the entries before it: past
    the length of that queue the read finds nothing, and says it is complete. *)
Lemma read_gap m ds eds qds pos num buf :
  mht_ok m ds eds qds → ds ≠ [] → length ds + length eds ≤ pos → pos + num ≤ length (ds ++ eds ++ qds) →
  length ds + length qds ≤ pos → is_buf num buf → usize_ok (pos + num) = true → read pos buf m = (Ok buf, m).
Proof.
  intros Hok Hne Hpos Hle Hgap Hbuf Hus. pose proof (mht_ok_nblocks _ _ _ _ Hok) as Htot.
  destruct Hok as (G & bs & H & _ & Hr & _ & He & Hq & Hst & _). rewrite !length_app in *.
  unfold read. rewrite (nblocks_of_is_buf num) by done. set (sc := mkSearch pos buf 0 num false).
  assert (Hsd : search_data_nodes sc m = (Ok (mkSearch pos buf 0 num true), m)).
  { unfold search_data_nodes. rewrite (io_bind_Ok _ _ m m m) by done. cbn [sc sc_pos sc_num]. rewrite Hst.
    destruct Hbuf as [Hnum _]. rewrite (proj2 (Nat.leb_gt _ _)) by lia. rewrite (proj2 (Nat.leb_le (length ds) pos)) by lia.
    unfold num_append. rewrite Hq, (level_0_length _ _ _ _ He). rewrite (proj2 (Nat.leb_le _ _)) by lia.
    cbn [assert_]. rewrite io_bind_lift, (drop_ge (entry_queue _)) by (rewrite (level_0_length _ _ _ _ He); lia).
    rewrite take_nil. rewrite (io_bind_Ok _ _ m (pos - length ds, pos - length ds + num, 0, buf) m) by done.
    rewrite usub_ok by lia. rewrite io_bind_lift, (drop_ge qds) by lia. rewrite take_nil.
    rewrite (io_bind_Ok _ _ m (0, buf) m) by done. done. }
  assert (Hse : search sc m = (Ok (mkSearch pos buf 0 num true), m)).
  { unfold search. rewrite (io_bind_Ok _ _ m m m) by done. destruct (root_node m); [|by destruct Hr].
    cbn [sc sc_pos sc_num]. rewrite uadd_ok by done. rewrite io_bind_lift, Htot.
    rewrite (proj2 (Nat.ltb_ge _ _)) by lia. io_step Hsd. done. }
  io_step Hse. done.
Qed.

(** blocks that are appended and not flushed cannot be read back: before the first flush
    every read fails, and after 1024 more blocks the read of the block appended last
    succeeds and leaves the caller's buffer as it was. *)
Theorem crypto_log_buffered_read log key c k b1 big b2 :
  al_holds log [] → empty_cache c → is_buf 1 b1 → is_buf 1024 big → is_buf 1 b2 → 8 * 1030 ≤ al_room log →
  ∃ m0 m1 m, CryptoLog_new log key c k = Ok m0 ∧ run [Put b1] m0 = (Ok (), m1) ∧
    (∀ buf, is_buf 1 buf → (read 0 buf m1).1 = Err NotFound) ∧
    run [Sync; Put big; Put b2] m1 = (Ok (), m) ∧ total_data_nodes m = 1026 ∧
    ∀ buf, is_buf 1 buf → (read 1025 buf m).1 = Ok buf.
Proof.
  intros Hlog Hc Hb1 Hbig Hb2 Hroom.
  pose proof (nblocks_of_is_buf _ _ Hb1) as Hn1. pose proof (nblocks_of_is_buf _ _ Hbig) as Hnbig.
  pose proof (nblocks_of_is_buf _ _ Hb2) as Hn2. assert (HBB : 1026 ≤ B * B) by (rewrite MHT_NBRANCHES_eq; lia).
  destruct (new_ok log key c k Hlog Hc) as (m0 & H0 & Hm0 & Hl0 & Hk0 & Hcap & Hq).
  change (entry_queue_cap (data_buf m0) = DEFAULT_ENTRY_CAP) in Hcap.
  assert (Hr0 : log_room m0 = al_room log) by (unfold log_room, room; by rewrite Hl0).
  destruct (log_put_ok m0 [] [] [] b1 Hm0 Hcap) as (m1 & eds1 & qds1 & H1 & Hm1 & Hf1 & Heq1 & Hr1 & _).
  { rewrite Hn1. exact Hb1. } { cbn [length app]. lia. } { cbn [length app]. lia. }
  assert (Hlen1 : length (eds1 ++ qds1) = 1) by (rewrite Heq1; cbn [app]; rewrite buf_blocks_length; exact Hn1).
  assert (Hcap1 : entry_queue_cap (data_buf m1) = DEFAULT_ENTRY_CAP) by (rewrite <- Hcap; exact (f_equal (λ x, x.1.2) Hf1)).
  assert (Hq1 : node_queue_cap (data_buf m1) = 1024) by (rewrite <- Hq; exact (f_equal (λ x, x.1.1) Hf1)).
  destruct (log_flush_ok m1 [] eds1 qds1 Hm1) as (m2 & H2 & Hm2 & Hf2 & _ & Hr2).
  { intros E. rewrite E in Hlen1. discriminate Hlen1. } { refine (edge_two_levels _ _). cbn [length]. lia. }
  { cbn [app]. rewrite Hlen1. reflexivity. } { rewrite Hlen1. unfold flush_cost. rewrite length_app in Hlen1. cbn [length] in Hr1. lia. }
  rewrite Hlen1 in Hr2. unfold flush_cost in Hr2. cbn [app] in Hm2. cbn [length] in Hr1. rewrite length_app in Hlen1.
  destruct (log_put_ok m2 (eds1 ++ qds1) [] [] big Hm2) as (m3 & eds3 & qds3 & H3 & Hm3 & Hf3 & Heq3 & Hr3 & Hw3).
  { rewrite <- Hcap1. exact (f_equal (λ x, x.1.2) Hf2). } { rewrite Hnbig. exact Hbig. }
  { rewrite app_nil_r, length_app, Hlen1, Hnbig. lia. } { rewrite Hnbig. cbn [app length]. lia. }
  rewrite Hnbig in Hw3. replace (node_queue_cap (data_buf m2)) with 1024 in Hw3
    by (rewrite <- Hq1; symmetry; exact (f_equal (λ x, x.1.1) Hf2)). cbn [length] in Hw3. rewrite Nat.leb_refl in Hw3. subst qds3.
  rewrite app_nil_r in Heq3. cbn [app] in Heq3. subst eds3. rewrite buf_blocks_length, Hnbig in Hr3. cbn [length] in Hr3.
  destruct (log_put_ok m3 (eds1 ++ qds1) (buf_blocks big) [] b2 Hm3) as (m & eds & qds & H4 & Hm & Hf4 & Heq4 & _ & Hw4).
  { rewrite <- Hcap1. transitivity (entry_queue_cap (data_buf m2)); [exact (f_equal (λ x, x.1.2) Hf3)|exact (f_equal (λ x, x.1.2) Hf2)]. }
  { rewrite Hn2. exact Hb2. } { rewrite app_nil_r, !length_app, buf_blocks_length, Hlen1, Hnbig, Hn2. lia. }
  { rewrite app_nil_r, buf_blocks_length, Hnbig, Hn2. lia. }
  rewrite Hn2 in Hw4. replace (node_queue_cap (data_buf m3)) with 1024 in Hw4
    by (rewrite <- Hq1; symmetry; transitivity (node_queue_cap (data_buf m2)); [exact (f_equal (λ x, x.1.1) Hf3)|exact (f_equal (λ x, x.1.1) Hf2)]).
  change (eds = buf_blocks big) in Hw4. subst eds. apply app_inv_head in Heq4. cbn [app] in Heq4. subst qds.
  exists m0, m1, m. split; [exact H0|]. split; [unfold run; cbn [io_fold]; io_step H1; reflexivity|]. split; [|split; [|split]].
  - intros buf Hbuf. unfold read, search. destruct Hm1 as (G & bs & H & _ & Hr & _).
    destruct (root_node m1) as [n|] eqn:En.
    + destruct Hr as [Hn _]. apply node_ok_len in Hn as [Hn _]. cbn [length] in Hn. lia.
    + unfold mbind, io_bind, io_get. rewrite En. reflexivity.
  - unfold run. cbn [io_fold]. assert (Hex : exec Sync m1 = (Ok (), m2)) by exact H2. io_step Hex. io_step H3. io_step H4. reflexivity.
  - rewrite (mht_ok_nblocks _ _ _ _ Hm), !length_app, !buf_blocks_length, Hlen1, Hnbig, Hn2. lia.
  - intros buf Hbuf. rewrite (read_gap m (eds1 ++ qds1) (buf_blocks big) (buf_blocks b2) 1025 1 buf Hm); [reflexivity|..|exact Hbuf|reflexivity].
    + intros E. apply (f_equal length) in E. rewrite length_app, Hlen1 in E. discriminate E.
    + rewrite length_app, buf_blocks_length, Hlen1, Hnbig. lia.
    + rewrite !length_app, !buf_blocks_length, Hlen1, Hnbig, Hn2. lia.
    + rewrite length_app, buf_blocks_length, Hlen1, Hn2. lia.
Qed.

(** *** A stale child *)

(** The entries past the last valid one of a node, which are not initialised, open nothing. *)
Definition padding_fails m : Prop :=
  ∃ e m', on_storage (read_mht_node (e_pos uninit_entry) (e_key uninit_entry) (e_mac uninit_entry) zero_iv) m = (Err e, m').

Section stale.
Context (ds0 : list (list byte)) (d : list byte) (Hlen : length ds0 = B * B + B).
Implicit Types (s : MhtStorage L C) (G : gmap nat (Key * Iv * Mac * MhtNode A)) (bs : list (list byte)).

Lemma B_sq : B ^ 2 = B * B.
Proof. cbn. by rewrite Nat.mul_1_r. Qed.

Lemma stale_height H : height_of (length ds0) H → H = 3.
Proof.
  intros HH. assert (H3 : height_of (length ds0) 3).
  { split; [lia|]. rewrite Hlen. change (3 - 1) with 2. rewrite B_sq. pose proof B_pos. split; [|right; lia].
    rewrite Nat.pow_succ_r', B_sq. nia. }
  pose proof (height_of_mono _ _ _ _ HH H3 (le_n _)). pose proof (height_of_mono _ _ _ _ H3 HH (le_n _)). lia.
Qed.

Lemma stale_height_next T : height_of (length ds0 + length [d]) T → T = 3.
Proof.
  intros HT. assert (H3 : height_of (length ds0 + length [d]) 3).
  { split; [lia|]. rewrite Hlen. cbn [length]. change (3 - 1) with 2. rewrite B_sq. pose proof B_pos. split; [|right; lia].
    rewrite Nat.pow_succ_r', B_sq. nia. }
  pose proof (height_of_mono _ _ _ _ HT H3 (le_n _)). pose proof (height_of_mono _ _ _ _ H3 HT (le_n _)). lia.
Qed.

Lemma div_B2 r : r < B * B → (B * B + r) / B ^ 2 = 1.
Proof. intros Hr. rewrite B_sq. symmetry. apply Nat.div_unique with r; lia. Qed.

Lemma start_2 : start (length ds0) 3 2 = B * B.
Proof.
  unfold start. cbn [Nat.ltb Nat.leb]. rewrite Hlen, div_B2, B_sq; [lia|]. pose proof B_pos. nia.
Qed.

(** The root counts the incomplete child among the complete ones. *)
Lemma stale_count G bs n :
  node_ok G bs 3 n ds0 → num_complete_children n = Ok 2 ∧ num_valid_entries n = 2.
Proof.
  intros Hn. pose proof B_pos. destruct (node_ok_valid _ _ _ _ _ Hn) as [Hv _].
  assert (Hv2 : num_valid_entries n = 2).
  { rewrite Hv, Hlen. rewrite B_sq. replace (B * B + B) with (1 * (B * B) + B) by lia. rewrite cdiv_shift by nia.
    rewrite cdiv_pos by nia. replace (B - B * B) with 0 by nia. rewrite cdiv_0 by nia. done. }
  split; [|done]. unfold num_complete_children. rewrite (node_ok_num _ _ _ _ _ Hn), Hlen.
  replace (B * B + B) with ((B + 1) * B) by lia. rewrite Nat.Div0.mod_mul. cbn [Nat.eqb orb]. by rewrite Hv2.
Qed.

(** Its second child covers the blocks from [B * B] on, without the new one. *)
Lemma stale_child G bs n :
  node_ok G bs 3 n ds0 → ∃ e n2, entries n !! 1 = Some e ∧ refers G e n2 ∧ node_ok G bs 2 n2 (drop (B * B) ds0).
Proof.
  intros Hn. pose proof B_pos. destruct (stale_count G bs n Hn) as [_ Hv]. destruct Hn as [_ Hl]. rewrite Hv in Hl.
  assert (Hc : chunks (B ^ 2) ds0 !! 1 = Some (drop (B * B) ds0)).
  { rewrite chunks_step; [|apply pow_B_pos|intros ->; cbn in Hlen; lia]. cbn [lookup list_lookup]. rewrite B_sq.
    rewrite chunks_small; [done| |rewrite length_drop, Hlen; nia].
    intros E. apply (f_equal length) in E. rewrite length_drop, Hlen in E. cbn in E. lia. }
  destruct (Forall2_lookup_r _ _ _ _ _ Hl Hc) as (e & He & Hok).
  rewrite lookup_take_lt in He by lia. apply entry_ok_S in Hok as (n2 & Hr & Hn2). exists e, n2. by split_and!.
Qed.

Lemma stale_build s G bs o es :
  sto_ok s G bs → root_ok G bs o 3 ds0 → level_ok G bs 0 es [d] → 10 ≤ room s →
  ∃ n s' G' bs', tree_build o es s = (Ok n, s') ∧ sto_ok s' G' bs' ∧ grows G G' bs bs' ∧
    (height n = 3 ∧ num_data_nodes n = B * B + B + 1 ∧ node_fits n) ∧ room s ≤ room s' + 4 ∧
    ∃ e n2, entries n !! 1 = Some e ∧ refers G' e n2 ∧ node_ok G' bs' 2 n2 (drop (B * B) ds0).
Proof.
  intros Hs Ho Hes Hr. pose proof B_pos as HB.
  assert (HB2 : B * B + B + 1 ≤ 2 * (B * B)) by nia.
  assert (Hn1 : length ds0 + length [d] = B * B + B + 1) by (rewrite Hlen; cbn [length]; lia).
  assert (H32 : (N.of_nat (length ds0 + length [d]) < 2 ^ 32)%N).
  { rewrite Hn1. by destruct (three_levels_small (B * B + B + 1) HB2) as (_ & ? & _). }
  destruct (tree_build_start s G bs o 3 ds0 [d] es Hs Ho Hes ltac:(done) H32) as
    (T & pre & s1 & -> & Hok1 & Hl1 & HhT & _ & _ & Hlev & Hpre).
  pose proof (stale_height_next T HhT) as ->. pose proof (proj1 (proj2 HhT)) as HT.
  pose proof (root_ok_le _ _ _ _ _ Ho) as Hle. unfold room in Hr. rewrite <- Hl1 in Hr. fold (room s1) in Hr.
  destruct (build_hierarchy_step ds0 [d] 3 3 pre Hle ltac:(done) ltac:(lia) ltac:(lia) HT H32 2 0 s1 G bs es Hok1
              (Hpre 1 ltac:(lia)) (λ _ _, Nat.divide_1_l _) ltac:(lia) Hlev) as (es1 & s2 & G2 & bs2 & -> & Hok2 & Hg2 & Hlev2 & Hr2).
  { cbn [length]. lia. }
  destruct (build_hierarchy_step ds0 [d] 3 3 pre Hle ltac:(done) ltac:(lia) ltac:(lia) HT H32 1 1 s2 G2 bs2 es1 Hok2) as
    (es2 & s3 & G3 & bs3 & -> & Hok3 & Hg3 & Hlev3 & Hr3).
  { eapply pre_ok_grows; [exact Hg2|]. apply Hpre. lia. }
  { intros _ Hd. cbn. by rewrite Nat.mul_1_r. } { lia. } { done. } { cbn [length] in *. lia. }
  assert (Hg : grows G G3 bs bs3) by (by eapply grows_trans).
  pose proof (pre_ok_grows _ _ _ _ _ _ _ _ Hg (Hpre 3 ltac:(lia))) as Hp3.
  destruct (pb ← pre; target_node pb 3) as [n'|] eqn:Et; [|destruct Hp3; lia]. destruct Hp3 as [_ Hn'].
  replace (start (length ds0) 3 3) with 0 in Hn' by done. rewrite drop_0 in Hn'.
  destruct (stale_count G3 bs3 n' Hn') as [Hcnt Hv]. destruct (stale_child G3 bs3 n' Hn') as (e & n2 & He & Href & Hn2).
  assert (Hes2 : length es2 = 1).
  { rewrite (level_ok_length _ _ _ _ _ Hlev3), length_drop, length_app, start_2, Hlen. cbn [length].
    replace (B * B + B + 1 - B * B) with (B + 1) by lia. rewrite B_sq, cdiv_pos by nia.
    replace (B + 1 - B * B) with 0 by nia. by rewrite cdiv_0 by nia. }
  pose proof (node_ok_fits _ _ _ _ _ Hn') as (_ & _ & _ & HBn).
  set (all := take 2 (entries n') ++ es2).
  assert (Hall : length all = 3) by (unfold all; rewrite length_app, length_take, Hes2, HBn; lia).
  assert (HB3 : 3 ≤ B) by (rewrite MHT_NBRANCHES_eq; lia).
  assert (Hlb : level_build 3 (length ds0 + length [d]) (Some n') es2 = Ok [build_last_node 3 (length ds0 + length [d]) all]).
  { unfold level_build. rewrite Hcnt. bind_step. fold all. rewrite align_up_div, Hall by lia.
    rewrite chunks_small; [|intros E; by rewrite E in Hall|lia]. rewrite cdiv_pos by lia.
    replace (3 - B) with 0 by lia. rewrite cdiv_0 by lia. done. }
  cbn [build_hierarchy]. rewrite Et, Hlb, io_bind_lift. cbn [Nat.eqb length assert_]. rewrite io_bind_lift.
  eexists _, s3, G3, bs3. split; [done|]. split; [done|]. split; [done|].
  assert (Hmod : (B * B + B + 1) mod B ^ 3 = B * B + B + 1).
  { apply Nat.mod_small. rewrite Nat.pow_succ_r', B_sq. nia. }
  rewrite <- Hn1 in Hmod.
  split; [|split; [unfold room in *; rewrite <- Hl1; cbn [length] in *; lia|]].
  - unfold build_last_node, max_num_data_nodes. cbn [height num_data_nodes].
    change (length ds0 + 1) with (length ds0 + length [d]). rewrite Hmod, Hn1, Hall.
    rewrite (proj2 (Nat.eqb_neq _ _)) by lia. rewrite as_u32_small by (by rewrite <- Hn1). split; [done|]. split; [done|].
    unfold node_fits. cbn [height num_data_nodes num_valid_entries entries]. rewrite length_app, length_replicate, Hall.
    split; [done|]. split; [by rewrite <- Hn1|]. split; [rewrite as_u16_B by lia; by apply fits_B|lia].
  - exists e, n2. split; [|done]. unfold build_last_node. cbn [entries]. unfold all.
    rewrite <- app_assoc, lookup_app_l by (rewrite length_take, HBn; lia). by rewrite lookup_take_lt by lia.
Qed.

(** The search for the new block goes through that child, and to an entry past its last. *)
Lemma stale_search m G bs n e n2 buf :
  sto_ok (storage m) G bs → height n = 3 → entries n !! 1 = Some e → refers G e n2 → node_ok G bs 2 n2 (drop (B * B) ds0) →
  (∀ m' : Mht A L C, block_log (storage m') = block_log (storage m) → padding_fails m') →
  ∃ err m', search_hierarchy 3 [n] (mkSearch (B * B + B) buf 0 1 false) m = (Err err, m').
Proof.
  intros Hs Hh He Href Hn2 Hpad. pose proof B_pos as HB. assert (HBB : 1 + B ≤ B * B) by nia.
  assert (Hv : num_valid_entries n2 = 1).
  { destruct (node_ok_valid _ _ _ _ _ Hn2) as [-> _]. rewrite length_drop, Hlen, Nat.pow_1_r.
    replace (B * B + B - B * B) with B by lia. rewrite cdiv_pos, Nat.sub_diag, cdiv_0 by lia. reflexivity. }
  pose proof (node_ok_padding _ _ _ _ _ Hn2) as Hrest. rewrite Hv in Hrest.
  cbn [search_hierarchy sc_pos sc_num sc_offset sc_buf is_completed]. unfold max_num_data_nodes.
  rewrite Hh. change (3 =? 3) with true. change (is_lowest_level 3) with false. cbn [assert_].
  rewrite io_bind_lift, div_B2 by lia. rewrite B_sq.
  replace (B * B + B - 1 * (B * B)) with B by lia. rewrite (align_up_div (1 + B) (B * B)) by lia.
  rewrite (cdiv_pos (1 + B) (B * B)) by lia. replace (1 + B - B * B) with 0 by lia. rewrite (cdiv_0 (B * B)) by lia. cbn [map concat]. rewrite app_nil_r.
  rewrite (drop_S _ _ _ He). cbn [take read_targets].
  destruct (read_mht_node_ok (storage m) _ _ _ _ n2 G bs Hs Href) as (s1 & H1 & Hok1 & Hl1).
  set (m1 := mkMht (root m) (root_key m) (data_buf m) s1).
  assert (Ht : (n ← on_storage (read_mht_node (e_pos e) (e_key e) (e_mac e) zero_iv); ns ← mret []; mret (n :: ns)) m = (Ok [n2], m1)).
  { rewrite (io_bind_Ok _ _ m n2 m1) by (unfold on_storage; by rewrite H1). reflexivity. }
  io_step Ht. rewrite (node_ok_height _ _ _ _ _ Hn2). change (2 =? 2) with true. change (is_lowest_level 2) with false. cbn [assert_]. rewrite io_bind_lift.
  rewrite Nat.pow_1_r, Nat.div_same by lia. replace (B - 1 * B) with 0 by lia. rewrite (align_up_div (1 + 0) B) by lia.
  rewrite (cdiv_pos (1 + 0) B) by lia. replace (1 + 0 - B) with 0 by lia. rewrite (cdiv_0 B) by lia. cbn [map concat]. rewrite app_nil_r, Hrest.
  destruct (B - 1) as [|b] eqn:Eb; [lia|]. cbn [replicate take read_targets].
  destruct (Hpad m1 Hl1) as (err & m2 & H2). exists err, m2. apply bind_err, bind_err. exact H2.
Qed.
End stale.

(** The second flush of [stale_build], from the state after the first. *)
Lemma stale_flush m ds0 eds qds :
  mht_ok m ds0 eds qds → length ds0 = B * B + B → length (eds ++ qds) = 1 → 12 ≤ log_room m →
  (∀ m' : Mht A L C, (∃ bs, al_holds (block_log (storage m')) bs) → padding_fails m') →
  ∃ m', flush m = (Ok (), m') ∧ total_data_nodes m' = B * B + B + 1 ∧
    ∀ buf, is_buf 1 buf → ∃ e, (read (B * B + B) buf m').1 = Err e.
Proof.
  intros (G & bs & H & Hat) Hlen H1 Hroom Hpad. pose proof B_pos as HB.
  assert (HBB : B * B + B + 1 ≤ 2 * (B * B)) by nia. destruct (three_levels_small _ HBB) as (_ & _ & Hus & _).
  assert (Hq : length qds ≤ 1) by (rewrite length_app in H1; lia).
  destruct (flush_steps m G bs H ds0 eds qds Hat ltac:(lia)) as (m1 & bs1 & (Hs1 & Hrt & _ & Hl1 & _) & _ & Hr1 & Hflush).
  destruct (eds ++ qds) as [|d [|]]; cbn [length] in H1; try discriminate H1.
  assert (H = 3) as ->.
  { destruct (root_node m1); [exact (stale_height ds0 Hlen H (proj2 Hrt))|]. destruct Hrt as [E _]. rewrite E in Hlen. cbn in Hlen. lia. }
  unfold log_room in *.
  destruct (stale_build ds0 d Hlen (storage m1) G bs1 _ _ Hs1 Hrt Hl1 ltac:(lia)) as
    (n & s3 & G3 & bs3 & H3 & Hok3 & Hg3 & (Hh & Hnum & Hfit) & Hr3 & e & n2 & He & Href & Hn2).
  destruct (append_root_ok s3 G3 bs3 (root_key m1) n Hok3 Hfit ltac:(lia)) as (meta & s4 & G4 & cs & H4 & Hok4 & Hg4 & _ & _).
  rewrite (Hflush n s3 meta s4 H3 H4). eexists. split; [reflexivity|]. split.
  { unfold total_data_nodes, num_append. cbn [data_buf node_queue entry_queue length root]. rewrite Hnum. lia. }
  intros buf Hbuf. unfold read, search. rewrite (nblocks_of_is_buf 1) by exact Hbuf. set (m' := mkMht _ _ _ s4).
  assert (Htot : total_data_nodes m' = B * B + B + 1).
  { unfold total_data_nodes, num_append, m'. cbn [data_buf node_queue entry_queue length root]. rewrite Hnum. lia. }
  destruct (stale_search ds0 Hlen m' G4 (bs3 ++ cs) n e n2 buf Hok4 Hh He) as (err & m2 & Herr).
  { eapply lookup_weaken; [exact Href|apply Hg4]. } { by eapply node_ok_grows. }
  { intros m'' E. apply Hpad. rewrite E. exists (bs3 ++ cs). apply Hok4. }
  exists err. set (sc := mkSearch (B * B + B) buf 0 1 false) in *.
  assert (Hsd : search_data_nodes sc m' = (Ok sc, m')).
  { unfold search_data_nodes. rewrite (io_bind_Ok _ _ m' m' m') by reflexivity. cbn [sc m' data_buf start_pos sc_pos sc_num length].
    rewrite Hlen, Nat.leb_refl. reflexivity. }
  rewrite (bind_err _ _ m' err m2); [reflexivity|]. rewrite (io_bind_Ok _ _ m' m' m') by reflexivity.
  change (root_node m') with (Some n). cbv beta iota. change (sc_pos sc + sc_num sc) with (B * B + B + 1).
  rewrite (uadd_ok (sc_pos sc) (sc_num sc)) by exact Hus. rewrite io_bind_lift, Htot.
  rewrite (proj2 (Nat.ltb_ge (B * B + B + 1) (sc_pos sc + sc_num sc))) by exact (le_n _). io_step Hsd. rewrite Hh. exact Herr.
Qed.

(** C34: data loss at the right edge of a tree of three levels. With [B * B + B] blocks in the tree
    the second child of the root holds [B] blocks and is not full, but [num_complete_children], which looks at the
    remainder modulo [B] only, counts it as complete: the next flush keeps the old child and puts
    the new one after it. Appends and flushes succeed and the log counts the new block, and
    no read returns it: the search goes through the old child to an entry that is not there. *)
Theorem mht_stale_child log key c k b0 b1 :
  al_holds log [] → empty_cache c → is_buf (B * B + B) b0 → is_buf 1 b1 → 20 * (B * B) ≤ al_room log →
  (∀ m : Mht A L C, (∃ bs, al_holds (block_log (storage m)) bs) → padding_fails m) →
  ∃ m0 m, CryptoLog_new log key c k = Ok m0 ∧ run [Put b0; Sync; Put b1; Sync] m0 = (Ok (), m) ∧
    total_data_nodes m = B * B + B + 1 ∧ ∀ buf, is_buf 1 buf → ∃ e, (read (B * B + B) buf m).1 = Err e.
Proof.
  intros Hlog Hc Hb0 Hb1 Hroom Hpad. pose proof (nblocks_of_is_buf _ _ Hb0) as Hn0. pose proof (nblocks_of_is_buf _ _ Hb1) as Hn1.
  pose proof B_pos as HB. assert (HBB : 10 * (B + 1) ≤ B * B) by (rewrite MHT_NBRANCHES_eq; lia).
  destruct (new_ok log key c k Hlog Hc) as (m0 & H0 & Hm0 & Hl0 & Hk0 & Hcap & Hq).
  change (entry_queue_cap (data_buf m0) = DEFAULT_ENTRY_CAP) in Hcap.
  assert (Hr0 : log_room m0 = al_room log) by (unfold log_room, room; by rewrite Hl0).
  destruct (log_put_ok m0 [] [] [] b0 Hm0 Hcap) as (m1 & eds1 & qds1 & H1 & Hm1 & Hf1 & Heq1 & Hr1 & _).
  { rewrite Hn0. exact Hb0. } { cbn [length app]. lia. } { cbn [length app]. lia. }
  assert (Hlen1 : length (eds1 ++ qds1) = B * B + B) by (rewrite Heq1; cbn [app]; rewrite buf_blocks_length; exact Hn0).
  assert (Hcap1 : entry_queue_cap (data_buf m1) = DEFAULT_ENTRY_CAP) by (rewrite <- Hcap; exact (f_equal (λ x, x.1.2) Hf1)).
  cbn [length] in Hr1. assert (Hle1 : length eds1 ≤ B * B + B) by (rewrite length_app in Hlen1; lia).
  destruct (three_levels_small (B * B + B) ltac:(lia)) as (_ & H32 & _).
  destruct (log_flush_ok m1 [] eds1 qds1 Hm1) as (m2 & H2 & Hm2 & Hf2 & _ & Hr2).
  { intros E. rewrite E in Hlen1. cbn [length] in Hlen1. lia. } { refine (edge_two_levels _ _). cbn [length]. lia. }
  { cbn [app]. rewrite Hlen1. exact H32. } { rewrite Hlen1. unfold flush_cost. lia. }
  rewrite Hlen1 in Hr2. unfold flush_cost in Hr2. cbn [app] in Hm2.
  destruct (log_put_ok m2 (eds1 ++ qds1) [] [] b1 Hm2) as (m3 & eds3 & qds3 & H3 & Hm3 & _ & Heq3 & Hr3 & _).
  { rewrite <- Hcap1. exact (f_equal (λ x, x.1.2) Hf2). } { rewrite Hn1. exact Hb1. }
  { rewrite app_nil_r, Hlen1, Hn1. lia. } { rewrite Hn1. cbn [app length]. lia. }
  assert (Hlen3 : length (eds3 ++ qds3) = 1) by (rewrite Heq3; cbn [app]; rewrite buf_blocks_length; exact Hn1).
  cbn [length] in Hr3. assert (Hle3 : length eds3 ≤ 1) by (rewrite length_app in Hlen3; lia).
  destruct (stale_flush m3 (eds1 ++ qds1) eds3 qds3 Hm3 Hlen1 Hlen3 ltac:(lia) Hpad) as (m & H4 & Htot & Hread).
  exists m0, m. split; [exact H0|]. split; [|by split].
  unfold run. cbn [io_fold]. io_step H1. assert (E2 : exec Sync m1 = (Ok (), m2)) by exact H2. io_step E2. io_step H3.
  assert (E4 : exec Sync m3 = (Ok (), m)) by exact H4. io_step E4. reflexivity.
Qed.
End faults.

(** ** Instances *)

(** A cache in memory. *)
Abbreviation MapCache A := (gmap nat (MhtNode A)).

#[export] Instance MapCache_ops A : NodeCache A (MapCache A) := {|
  nc_get c pos := Ok (c !! pos, c);
  nc_put c pos n := Ok (<[pos := n]> c);
|}.

#[export] Program Instance MapCache_spec A : NodeCacheSpec A (MapCache A) := {|
  nc_live c := True;
  nc_has c pos n := c !! pos = Some n;
|}.
Next Obligation. intros A c pos _. eexists _, c. split; [done|]. split; [done|]. split; [|done]. by intros n ->. Qed.
Next Obligation.
  intros A c pos n _. eexists. split; [done|]. split; [done|]. intros p n'. destruct (decide (p = pos)) as [->|Hne].
  - rewrite lookup_insert_eq. intros [= ->]. by left.
  - rewrite lookup_insert_ne by done. by right.
Qed.

(** The in-memory log. *)
Definition memlog_holds (l : MemLog) (bs : list (list byte)) : Prop :=
  blocks bs ∧ ml_append_pos l = length bs ∧ length bs * BLOCK_SIZE ≤ length (ml_log l) ∧
  take (length bs * BLOCK_SIZE) (ml_log l) = concat bs ∧ usize_ok (length (ml_log l)) = true.

#[export] Program Instance MemLog_AppendLogSpec : AppendLogSpec MemLog := {|
  al_holds := memlog_holds;
  al_room l := length (ml_log l) / BLOCK_SIZE - ml_append_pos l;
|}.
Next Obligation.
  intros l bs i b (Hb & Hp & Hle & Ht & Hu) Hi. cbn. unfold MemLog_read. pose proof BLOCK_SIZE_pos.
  pose proof (lookup_lt_Some _ _ _ Hi) as Hlt.
  assert ((i + 1) * BLOCK_SIZE ≤ length bs * BLOCK_SIZE) by (apply Nat.mul_le_mono_r; lia).
  rewrite uadd_ok by (eapply usize_ok_le; [|exact Hu]; nia). bind_step. rewrite (proj2 (Nat.ltb_ge _ _)) by lia.
  unfold MemLog_offset. rewrite slice_ok by lia. f_equal.
  rewrite <- (take_drop_concat BLOCK_SIZE bs i b (drop (length bs * BLOCK_SIZE) (ml_log l)) Hb Hi).
  rewrite <- Ht, take_drop. f_equal. lia.
Qed.
Next Obligation. by intros l bs (_ & Hp & _). Qed.
Next Obligation.
  intros l bs cs (Hb & Hp & Hle & Ht & Hu) Hne Hcs Hroom. cbn in *. unfold MemLog_append. pose proof BLOCK_SIZE_pos.
  pose proof (length_concat_same BLOCK_SIZE cs Hcs) as Hlen.
  assert (Hn : nblocks_of (concat cs) = length cs) by (unfold nblocks_of; rewrite Hlen; apply Nat.div_mul; lia).
  rewrite Hn, Hp. rewrite (proj2 (Nat.ltb_ge _ _)) by (destruct cs; cbn in *; [done|lia]).
  assert ((length bs + length cs) * BLOCK_SIZE ≤ length (ml_log l)).
  { etrans; [apply Nat.mul_le_mono_r|rewrite Nat.mul_comm; apply Nat.Div0.mul_div_le]. destruct cs; [done|cbn in *; lia]. }
  unfold MemLog_offset. rewrite copy_from_slice_ok by lia. bind_step. eexists. split; [done|].
  unfold memlog_holds. cbn [ml_log ml_append_pos]. rewrite splice_length by lia. rewrite !length_app.
  split; [split; [by apply Forall_app|]|lia]. split; [done|]. split; [done|]. split; [|done].
  unfold splice. rewrite app_assoc, take_app_le by (rewrite length_app, length_take; lia).
  rewrite take_ge by (rewrite length_app, length_take; lia). by rewrite Ht, concat_app.
Qed.

(** An AEAD whose MAC is the plain text, nodes coded as a number. *)
Module ToyMht.
#[export] Instance toy : Aead := {|
  Key := Z; Iv := Z; Mac := list Z;
  mac_default := [];
  mac_bytes m := m;
  aead_encrypt p k iv aad := Ok (map (λ b, (b + k)%Z) p, p);
  aead_decrypt c k iv aad m :=
    let p := map (λ b, (b - k)%Z) c in if decide (m = p) then Ok p else Err DecryptFailed;
|}.

#[export] Instance toy_spec : AeadSpec toy.
Proof.
  split.
  - intros. by do 2 eexists.
  - intros p k iv aad c m [= <- <-]. apply length_map.
  - intros p k iv aad c m [= <- <-]. cbn. rewrite ToyAead.shift_back. by rewrite decide_True.
  - intros p k iv aad c m. cbn. case_decide as Hm; [|done]. intros [= <-]. subst m. do 2 f_equal.
    rewrite map_map. clear. induction c as [|b c IH]; [done|]. cbn. f_equal; [lia|done].
  - intros k iv aad c m. cbn. by case_decide.
Qed.

Abbreviation NodeCode := (nat * nat * nat * list (nat * Z * list Z))%type.
Definition code (n : MhtNode toy) : NodeCode :=
  (height n, num_data_nodes n, num_valid_entries n, map (λ e, (e_pos e, e_key e, e_mac e)) (entries n)).
Definition decode_node (x : NodeCode) : MhtNode toy :=
  let '(h, d, v, es) := x in mkNode toy h d v (map (λ '(p, k, m), mkEntry toy p k m) es).

Lemma decode_code n : decode_node (code n) = n.
Proof.
  destruct n as [h d v es]. unfold decode_node, code. cbn. f_equal. rewrite map_map.
  induction es as [|[p k m] es IH]; [done|]. cbn. by rewrite IH.
Qed.

Definition node_image (n : MhtNode toy) : list byte := Z.pos (encode (code n)) :: replicate (BLOCK_SIZE - 1) 0%Z.
Definition image_node (bs : list byte) : MhtNode toy :=
  match bs with
  | Z.pos p :: _ => match decode p : option NodeCode with Some x => decode_node x | None => mkNode toy 0 0 0 [] end
  | _ => mkNode toy 0 0 0 []
  end.

#[export] Instance toy_pod : MhtPod toy := {|
  node_bytes := node_image; node_from_bytes := image_node; zero_iv := 0%Z; uninit_entry := mkEntry toy 0 0%Z [];
|}.
#[export] Instance toy_pod_spec : MhtPodSpec toy toy_pod.
Proof.
  split.
  - intros n _. cbn. unfold node_image. cbn [length]. rewrite length_replicate. pose proof BLOCK_SIZE_pos. lia.
  - intros n _. cbn [node_from_bytes node_bytes toy_pod]. unfold node_image, image_node. rewrite decode_encode. apply decode_code.
Qed.

#[export] Instance toy_random : Random toy := {| rand_key n := Z.of_nat n; rand_iv n := Z.of_nat n |}.
#[export] Instance pages : Pages := zero_pages.

Definition empty_log (n : nat) : MemLog := mkMemLog (replicate (n * BLOCK_SIZE) 0%Z) 0.

Lemma empty_log_holds n : (N.of_nat n ≤ 2 ^ 40)%N → al_holds (empty_log n) [] ∧ al_room (empty_log n) = n.
Proof.
  intros Hn. pose proof BLOCK_SIZE_pos. cbn [al_holds al_room MemLog_AppendLogSpec]. unfold memlog_holds, empty_log.
  cbn [ml_log ml_append_pos length]. rewrite length_replicate. split; [|rewrite Nat.div_mul by lia; lia].
  split; [constructor|]. split; [done|]. split; [lia|]. split; [done|]. unfold usize_ok, usize_max. apply N.leb_le.
  rewrite Nat2N.inj_mul.
  assert (N.of_nat BLOCK_SIZE ≤ 2 ^ 12)%N by (with_strategy transparent [BLOCK_SIZE] (vm_compute; discriminate)).
  assert (N.of_nat n * N.of_nat BLOCK_SIZE ≤ 2 ^ 40 * 2 ^ 12)%N by (by apply N.mul_le_mono). lia.
Qed.

Lemma map_empty : empty_cache (∅ : MapCache toy).
Proof. split; [done|]. intros pos n. cbn. by rewrite lookup_empty. Qed.

(** Its MAC leaves nothing to forge: any bytes may be written over the log. *)
Definition overwritten (log : MemLog) (z : Z) : MemLog := mkMemLog (map (λ _, z) (ml_log log)) (ml_append_pos log).

Lemma overwritten_unforged (log : MemLog) z : unforged log (overwritten log z).
Proof.
  intros pos c0 Hr. split.
  - cbn in *. unfold MemLog_read in *. destruct (uadd pos 1); [|done..]. rewrite bind_Ok in *. cbn [overwritten ml_append_pos ml_log].
    destruct (_ <? _); [done|]. unfold slice in *. rewrite length_map. by destruct (_ && _).
  - intros k iv mc c p p0 _ Hd Hd0. cbn in Hd, Hd0. repeat case_decide; congruence.
Qed.

Definition block (z : Z) : list byte := replicate BLOCK_SIZE z.
Lemma block_buf z : is_buf 1 (block z).
Proof. split; [lia|]. unfold block. rewrite length_replicate. lia. Qed.
Lemma block_nblocks z : nblocks_of (block z) = 1.
Proof. apply nblocks_of_is_buf, block_buf. Qed.

(** Two blocks, a flush, one more block and a flush. *)
Definition demo : list LogCmd := [Put (block 1); Put (block 2); Sync; Put (block 3); Sync].

Lemma demo_run_fits : run_fits (empty_log 100) demo.
Proof.
  split; [|split].
  - cbn. rewrite !block_nblocks. pose proof (block_buf 1). pose proof (block_buf 2). pose proof (block_buf 3). split_and!; try done; lia.
  - cbn [put_blocks demo]. rewrite !block_nblocks, MHT_NBRANCHES_eq. lia.
  - destruct (empty_log_holds 100 ltac:(done)) as [_ ->]. cbn [put_blocks demo length]. rewrite !block_nblocks. lia.
Qed.

Lemma buf_blocks_block z : buf_blocks (block z) = [block z].
Proof.
  unfold buf_blocks. rewrite block_nblocks. unfold blocks_from. cbn [seq map].
  assert (H : nth_block (block z) 0 = block z); [|by rewrite H]. unfold nth_block.
  rewrite Nat.mul_0_l, drop_0. apply take_ge. unfold block. by rewrite length_replicate.
Qed.

Lemma demo_blocks : run_blocks demo [] [] = ([block 1; block 2; block 3], []).
Proof. unfold demo. cbn [run_blocks]. by rewrite !buf_blocks_block. Qed.
End ToyMht.

Import ToyMht.



(** A buffer of [n] blocks. *)
Definition blocks_of (n : nat) (z : Z) : list byte := replicate (n * BLOCK_SIZE) z.
Lemma blocks_of_buf n z : 0 < n → is_buf n (blocks_of n z).
Proof. intros Hn. split; [exact Hn|]. apply length_replicate. Qed.

Lemma crypto_log_buffered_read_witness :
  ∃ m0 m1 m : Mht toy MemLog (MapCache toy),
    CryptoLog_new (empty_log (9 * 1000)) 5%Z (∅ : MapCache toy) 0 = Ok m0 ∧ run [Put (block 1)] m0 = (Ok (), m1) ∧
    (read 0 (block 0) m1).1 = Err NotFound ∧ run [Sync; Put (blocks_of 1024 2); Put (block 3)] m1 = (Ok (), m) ∧
    (read 1025 (block 0) m).1 = Ok (block 0).
Proof.
  destruct (empty_log_holds (9 * 1000) ltac:(lia)) as [Hl Hr].
  destruct (crypto_log_buffered_read (A := toy) (empty_log (9 * 1000)) 5%Z (∅ : MapCache toy) 0 (block 1) (blocks_of 1024 2) (block 3)
              Hl map_empty (block_buf 1) (blocks_of_buf 1024 2 ltac:(lia)) (block_buf 3) ltac:(rewrite Hr; lia))
    as (m0 & m1 & m & H0 & H1 & Hn & H2 & _ & Hb).
  exists m0, m1, m. split; [exact H0|]. split; [exact H1|]. split; [exact (Hn _ (block_buf 0))|].
  split; [exact H2|exact (Hb _ (block_buf 0))].
Defined.

(** A cache that keeps nothing. *)
Inductive NoCache : Type := no_cache.

#[export] Instance NoCache_ops A : NodeCache A NoCache := {| nc_get c _ := Ok (None, c); nc_put c _ _ := Ok c |}.
#[export] Program Instance NoCache_spec A : NodeCacheSpec A NoCache := {| nc_live _ := True; nc_has _ _ _ := False |}.
Next Obligation. intros A c pos _. by exists None, c. Qed.
Next Obligation. intros A c pos n _. by exists c. Qed.

Lemma no_cache_empty : empty_cache (A := toy) no_cache.
Proof. split; [exact I|]. intros pos n []. Qed.

Lemma toy_padding_fails (m : Mht toy MemLog NoCache) : (∃ bs, al_holds (block_log (storage m)) bs) → padding_fails m.
Proof.
  intros [bs Hbs]. unfold padding_fails. unfold on_storage, read_mht_node. cbn [uninit_entry toy_pod e_pos e_key e_mac].
  set (s := storage m) in *. assert (Hg : cache_get 0 s = (Ok None, s)) by (unfold cache_get; cbn; by destruct s).
  rewrite (io_bind_Ok _ _ _ _ _ Hg). cbv beta iota. destruct bs as [|b bs].
  - assert (Hr : log_read 0 s = (Err InvalidArgs, s)); [|by rewrite (bind_err _ _ _ _ _ Hr); eauto].
    destruct Hbs as (_ & Hpos & _). unfold log_read. cbn. unfold MemLog_read. rewrite Hpos. reflexivity.
  - assert (Hr : log_read 0 s = (Ok b, s)) by (unfold log_read; by rewrite (al_read _ (b :: bs) 0 b)).
    io_step Hr. destruct Hbs as (Hb & _). inversion Hb as [|? ? Hlen]; subst. pose proof BLOCK_SIZE_pos.
    destruct b as [|z b]; [cbn in Hlen; lia|]. eexists _, _. reflexivity.
Qed.

Lemma mht_stale_child_witness :
  ∃ m0 m : Mht toy MemLog NoCache,
    CryptoLog_new (empty_log (20 * (B * B))) 5%Z no_cache 0 = Ok m0 ∧
    run [Put (blocks_of (B * B + B) 1); Sync; Put (block 2); Sync] m0 = (Ok (), m) ∧
    ∃ e, (read (B * B + B) (block 0) m).1 = Err e.
Proof.
  destruct (empty_log_holds (20 * (B * B)) ltac:(rewrite MHT_NBRANCHES_eq; lia)) as [Hl Hr].
  destruct (mht_stale_child (A := toy) (empty_log (20 * (B * B))) 5%Z no_cache 0 (blocks_of (B * B + B) 1) (block 2)
              Hl no_cache_empty (blocks_of_buf (B * B + B) 1 ltac:(rewrite MHT_NBRANCHES_eq; lia)) (block_buf 2)
              ltac:(rewrite Hr; apply le_n) toy_padding_fails) as (m0 & m & H0 & H1 & _ & Hread).
  exists m0, m. split; [exact H0|]. split; [exact H1|]. exact (Hread _ (block_buf 0)).
Defined.
