(* ===== verification/Journal.v ===== *)
(** * Journal: [core/src/layers/2-edit/edit.rs] and [journal.rs]

    An edit journal keeps a state as a snapshot (in one of two crypto blobs) and the
    edits since (in a crypto chain over a block ring).  The codec ([postcard]) is a
    class.  Keys and IVs, random in the source, are arguments.  The three parts share
    one disk, whose content [St] is threaded through every operation. *)
From S2P Require Import Prelude Bio CryptoChain CryptoBlob.

(** ** edit.rs *)
Class Edit (E S : Type) := apply_to : E → S → S.

(** [EditGroup::apply_to]; a group is its vector of edits. *)
Definition group_apply {E S} {HE : Edit E S} (edits : list E) (state : S) : S :=
  fold_left (λ st e, apply_to e st) edits state.

(** ** Records and snapshots *)
Inductive JRecord {A : Aead} {E : Type} :=
  | Version (mac : Mac)
  | REdit (group : list E).
Arguments JRecord {_} _.

Record Snapshot {S : Type} := mkSnapshot { sn_state : S; sn_recover_from : nat }.
Arguments Snapshot : clear implicits.
Arguments mkSnapshot {_}.

(** [Snapshot::meta_len]. *)
Definition meta_len : nat := 8.

(** The codec: what [postcard] writes, and how it reads it back. *)
Class Postcard (A : Aead) (E S : Type) := {
  record_bytes : JRecord E → list byte;
  take_record : list byte → option (JRecord E * list byte);
  snapshot_bytes : Snapshot S → list byte;
  snapshot_from_bytes : list byte → option (Snapshot S);
}.
Class PostcardSpec (A : Aead) (E S : Type) {C : Postcard A E S} := {
  take_record_ok r rest : take_record (record_bytes r ++ rest) = Some (r, rest);
  take_record_shrinks b r rest : take_record b = Some (r, rest) → length rest < length b;
  snapshot_roundtrip sn : snapshot_from_bytes (snapshot_bytes sn) = Some sn;
}.

(** [postcard::to_slice]: [buf] with [bytes] at its start, unless they do not fit. *)
Definition to_slice (bytes buf : list byte) : option (list byte) :=
  if length bytes <=? length buf then Some (splice buf 0 bytes) else None.

(** ** Compaction policies *)
Class CompactPolicy (E Pol : Type) := {
  on_commit_edits : Pol → list E → Pol;
  on_append_journal : Pol → nat → Pol;
  should_compact : Pol → bool;
  done_compact : Pol → nat → res Pol;
}.

Inductive NeverCompactPolicy := mkNeverCompactPolicy.
#[export] Instance NeverCompact_policy E : CompactPolicy E NeverCompactPolicy := {|
  on_commit_edits p _ := p; on_append_journal p _ := p; should_compact _ := false;
  done_compact p _ := Ok p;
|}.

Record DefaultCompactPolicy := mkDefaultCompactPolicy { used_blocks : nat; total_blocks : nat }.
#[export] Instance DefaultCompact_policy E : CompactPolicy E DefaultCompactPolicy := {|
  on_commit_edits p _ := p;
  on_append_journal p nblocks := mkDefaultCompactPolicy (used_blocks p + nblocks) (total_blocks p);
  should_compact p := total_blocks p <=? used_blocks p;
  done_compact p compacted_blocks :=
    _ ← assert_ (compacted_blocks <=? used_blocks p);
    Ok (mkDefaultCompactPolicy (used_blocks p - compacted_blocks) (total_blocks p));
|}.

Definition snapshot_nblocks (state_max_nbytes : nat) : nat :=
  (HEADER_NBYTES + state_max_nbytes + meta_len + BLOCK_SIZE - 1) / BLOCK_SIZE.

Definition DefaultCompactPolicy_new (disk_nblocks state_max_nbytes : nat) : res DefaultCompactPolicy :=
  let snapshot_blocks := snapshot_nblocks state_max_nbytes in
  _ ← assert_ (snapshot_blocks * 2 <? disk_nblocks);
  Ok (mkDefaultCompactPolicy 0 (disk_nblocks - snapshot_blocks * 2)).

Record EditJournalMeta {A : Aead} := mkMeta {
  snapshot_area_nblocks : nat;
  snapshot_area_keys : Key * Key;
  journal_area_nblocks : nat;
  journal_area_key : Key;
}.
Arguments EditJournalMeta : clear implicits.

Definition total_nblocks {A : Aead} (m : EditJournalMeta A) : nat :=
  snapshot_area_nblocks m * 2 + journal_area_nblocks m.

Definition DefaultCompactPolicy_from_meta {A : Aead} (m : EditJournalMeta A) : DefaultCompactPolicy :=
  mkDefaultCompactPolicy 0 (journal_area_nblocks m).

Section defs.
Context {A : Aead} {F : FooterPod A} {B : BlobPod A} {P : Pages}.
Context {D St : Type} {HS : BlockSet D St}.
Context {E S : Type} {HE : Edit E S} {C : Postcard A E S}.
Context {Pol : Type} {HPol : CompactPolicy E Pol}.

(** ** The write buffer *)
Record WriteBuf := mkWriteBuf { wb_buf : list byte; wb_cursor : nat; wb_capacity : nat }.

Definition WriteBuf_new (capacity : nat) : res WriteBuf :=
  _ ← assert_ (capacity <=? BLOCK_SIZE);
  buf ← unwrap_res (Buf_alloc 0 1);
  Ok (mkWriteBuf buf 0 capacity).

(** [write]; a failed attempt may also scribble past the cursor, where nothing reads. *)
Definition WriteBuf_write (wb : WriteBuf) (record : JRecord E) : res WriteBuf :=
  avail ← slice (wb_buf wb) (wb_cursor wb) (wb_capacity wb);
  match to_slice (record_bytes record) avail with
  | Some avail' =>
      Ok (mkWriteBuf (splice (wb_buf wb) (wb_cursor wb) avail')
            (wb_cursor wb + length (record_bytes record)) (wb_capacity wb))
  | None => Err OutOfDisk
  end.

Definition WriteBuf_clear (wb : WriteBuf) : WriteBuf := mkWriteBuf (wb_buf wb) 0 (wb_capacity wb).

Definition WriteBuf_as_slice (wb : WriteBuf) : res (list byte) := slice (wb_buf wb) 0 (wb_cursor wb).

(** [RecordSlice]: the records at the start of [buf], up to the first failure. *)
Fixpoint record_slice (fuel : nat) (buf : list byte) : list (JRecord E) :=
  match fuel with
  | 0 => []
  | Datatypes.S fuel =>
      match take_record buf with
      | Some (record, rest) => record :: record_slice fuel rest
      | None => []
      end
  end.

(** ** The snapshot manager *)
Record SnapshotManager := mkSnapshotManager {
  sm_blob0 : CryptoBlob D;
  sm_blob1 : CryptoBlob D;
  sm_latest_index : nat;
  sm_buf : list byte;
  sm_snapshot : Snapshot S;
}.

Definition DEFAULT_LATEST_INDEX : nat := 0.

Definition sm_blob (sm : SnapshotManager) (i : nat) : CryptoBlob D :=
  if i =? 0 then sm_blob0 sm else sm_blob1 sm.

Definition SnapshotManager_create (k0 k1 : Key) (disk : D) (s : St) (init_state : S)
    (state_max_nbytes : nat) : res (SnapshotManager * St) :=
  let blob_blocks := snapshot_nblocks state_max_nbytes in
  if bs_nblocks disk <=? 2 * blob_blocks then Err OutOfDisk else
  buf ← Buf_alloc 0 blob_blocks;
  let snapshot := mkSnapshot init_state 0 in
  let serialized := snapshot_bytes snapshot in
  buf ← ok_or (to_slice serialized buf) OutOfDisk;
  block_set0 ← bs_subset disk 0 blob_blocks;
  block_set1 ← bs_subset disk blob_blocks (blob_blocks * 2);
  '(blob0, s) ← create k0 block_set0 s serialized;
  '(blob1, s) ← create k1 block_set1 s serialized;
  Ok (mkSnapshotManager blob0 blob1 DEFAULT_LATEST_INDEX buf snapshot, s).

(** Try to read a snapshot out of a blob. *)
Definition try_snapshot (blob : CryptoBlob D) (s : St) (buf_len : nat)
    : res (option (Snapshot S) * CryptoBlob D) :=
  match CryptoBlob.read blob s buf_len with
  | Ok (payload, blob) => Ok (snapshot_from_bytes payload, blob)
  | Err _ => Ok (None, blob)
  | Panic => Panic
  end.

Definition SnapshotManager_recover (disk : D) (s : St) (meta : EditJournalMeta A)
    : res (SnapshotManager * St) :=
  let n := snapshot_area_nblocks meta in
  set0 ← bs_subset disk 0 n;
  let blob0 := CryptoBlob.open (fst (snapshot_area_keys meta)) set0 in
  set1 ← bs_subset disk n (n * 2);
  let blob1 := CryptoBlob.open (snd (snapshot_area_keys meta)) set1 in
  buf ← Buf_alloc 0 n;
  '(snapshot0_res, blob0) ← try_snapshot blob0 s (length buf);
  '(snapshot1_res, blob1) ← try_snapshot blob1 s (length buf);
  (* Recover [CryptoBlob] if one of them is corrupted. *)
  '(blob0, blob1, snapshot0, snapshot1, s) ←
    match snapshot0_res, snapshot1_res with
    | Some sn0, None => '(blob1, blob0, s) ← recover_from blob1 blob0 s; Ok (blob0, blob1, sn0, sn0, s)
    | None, Some sn1 => '(blob0, blob1, s) ← recover_from blob0 blob1 s; Ok (blob0, blob1, sn1, sn1, s)
    | Some sn0, Some sn1 => Ok (blob0, blob1, sn0, sn1, s)
    | None, None => Err NotFound
    end;
  version0 ← unwrap (version_id blob0);
  version1 ← unwrap (version_id blob1);
  '(snapshot, latest_index) ←
    (if version0 =? version1
     then Ok (if DEFAULT_LATEST_INDEX =? 0 then snapshot0 else snapshot1, DEFAULT_LATEST_INDEX)
     else if DEFAULT_LATEST_INDEX =? 0
     then next0 ← uadd version0 1; if next0 =? version1 then Ok (snapshot1, 1) else Err InvalidArgs
     else if DEFAULT_LATEST_INDEX =? 1
     then next1 ← uadd version1 1; if next1 =? version0 then Ok (snapshot0, 0) else Err InvalidArgs
     else Err InvalidArgs);
  Ok (mkSnapshotManager blob0 blob1 latest_index buf snapshot, s).

Definition SnapshotManager_persist (sm : SnapshotManager) (s : St) (latest : Snapshot S)
    : res (SnapshotManager * St) :=
  let serialized := snapshot_bytes latest in
  buf ← ok_or (to_slice serialized (sm_buf sm)) OutOfDisk;
  let index := (sm_latest_index sm + 1) mod 2 in
  '(_, blob, s) ← write (sm_blob sm index) s serialized;
  Ok (if index =? 0 then mkSnapshotManager blob (sm_blob1 sm) index buf latest
      else mkSnapshotManager (sm_blob0 sm) blob index buf latest, s).

Definition latest_mac (sm : SnapshotManager) : res Mac :=
  unwrap (current_mac (sm_blob sm (sm_latest_index sm))).

(** ** The edit journal *)
Record EditJournal := mkEditJournal {
  ej_state : S;
  ej_chain : CryptoChain (BlockRing D);
  ej_snapshots : SnapshotManager;
  ej_policy : Pol;
  ej_group : option (list E);
  ej_wbuf : WriteBuf;
}.

(** The chain over the ring together with the disk it lies on, and back. *)
Definition on_disk (c : CryptoChain (BlockRing D)) (s : St) : CryptoChain (BlockRing D * St) :=
  mkCryptoChain (block_log c, s) (key c) (range_start c) (range_end c) (block_macs c).

Definition off_disk (c : CryptoChain (BlockRing D * St)) : CryptoChain (BlockRing D) * St :=
  (mkCryptoChain (fst (block_log c)) (key c) (range_start c) (range_end c) (block_macs c),
   snd (block_log c)).

Definition format (k0 k1 kj : Key) (iv : Iv) (disk : D) (s : St) (init_state : S)
    (state_max_nbytes : nat) (compaction_policy : Pol) : res (EditJournal * St) :=
  '(snapshots, s) ← SnapshotManager_create k0 k1 disk s init_state state_max_nbytes;
  chain_set ← bs_subset disk (nblocks (sm_blob0 snapshots) * 2) (bs_nblocks disk);
  let journal_chain := CryptoChain_new (set_cursor (BlockRing_new chain_set) 0) kj in
  mac ← latest_mac snapshots;
  write_buf ← WriteBuf_new AVAIL_BLOCK_SIZE;
  write_buf ← WriteBuf_write write_buf (Version mac);
  data ← WriteBuf_as_slice write_buf;
  c ← append (on_disk journal_chain s) iv data;
  let compaction_policy := on_append_journal compaction_policy 1 in
  let write_buf := WriteBuf_clear write_buf in
  c ← flush c;
  let '(journal_chain, s) := off_disk c in
  Ok (mkEditJournal init_state journal_chain snapshots compaction_policy (Some []) write_buf, s).

(** One record met by [recover]: the flag [should_apply] and the state. *)
Definition replay_record (latest_snapshot_mac : Mac) (acc : bool * S) (record : JRecord E) : bool * S :=
  match record with
  | Version snapshot_mac => (if decide (snapshot_mac = latest_snapshot_mac) then true else fst acc, snd acc)
  | REdit group => (fst acc, if fst acc then group_apply group (snd acc) else snd acc)
  end.

(** The loop of [recover]: at most [fuel] blocks ([Panic] beyond). *)
Fixpoint recover_loop (fuel : nat) (mac : Mac) (r : CryptoChain (BlockRing D * St)) (acc : bool * S)
    : res (CryptoChain (BlockRing D * St) * (bool * S)) :=
  match fuel with
  | 0 => Panic
  | Datatypes.S fuel =>
      o ← next r;
      match o with
      | None => Ok (r, acc)
      | Some (buf, r) =>
          recover_loop fuel mac r (fold_left (replay_record mac) (record_slice (Datatypes.S (length buf)) buf) acc)
      end
  end.

Definition recover (fuel : nat) (disk : D) (s : St) (meta : EditJournalMeta A) (compaction : Pol)
    : res (EditJournal * St) :=
  '(snapshots, s) ← SnapshotManager_recover disk s meta;
  latest_snapshot_mac ← latest_mac snapshots;
  let latest_snapshot := sm_snapshot snapshots in
  let offset := snapshot_area_nblocks meta * 2 in
  log_set ← bs_subset disk offset (offset + journal_area_nblocks meta);
  let block_ring := BlockRing_new log_set in
  '(c, (_, state)) ← recover_loop fuel latest_snapshot_mac
       (Recovery_new (block_ring, s) (journal_area_key meta) (sn_recover_from latest_snapshot))
       (false, sn_state latest_snapshot);
  let '(c, s) := off_disk c in
  let c := mkCryptoChain (set_cursor (block_log c) (range_end c)) (key c)
             (range_start c) (range_end c) (block_macs c) in
  write_buf ← WriteBuf_new AVAIL_BLOCK_SIZE;
  Ok (mkEditJournal state c snapshots compaction (Some []) write_buf, s).

Definition meta (j : EditJournal) : EditJournalMeta A :=
  mkMeta A (nblocks (sm_blob0 (ej_snapshots j)))
    (cb_key (sm_blob0 (ej_snapshots j)), cb_key (sm_blob1 (ej_snapshots j)))
    (bs_nblocks (br_storage (block_log (ej_chain j)))) (key (ej_chain j)).

Definition add (j : EditJournal) (edit : E) : EditJournal :=
  let edit_group := default [] (ej_group j) in
  mkEditJournal (ej_state j) (ej_chain j) (ej_snapshots j) (ej_policy j)
    (Some (edit_group ++ [edit])) (ej_wbuf j).

Definition abort (j : EditJournal) : EditJournal :=
  mkEditJournal (ej_state j) (ej_chain j) (ej_snapshots j) (ej_policy j)
    ((λ _, []) <$> ej_group j) (ej_wbuf j).

(** [compact]: the number of blocks reclaimed. *)
Definition compact (j : EditJournal) (s : St) (iv : Iv) : res (nat * EditJournal * St) :=
  if range_end (ej_chain j) <=? range_start (ej_chain j) then Ok (0, j, s) else
  let latest_snapshot := mkSnapshot (ej_state j) (range_end (ej_chain j)) in
  '(snapshots, s) ← SnapshotManager_persist (ej_snapshots j) s latest_snapshot;
  mac ← latest_mac snapshots;
  write_buf ← WriteBuf_write (ej_wbuf j) (Version mac);
  data ← WriteBuf_as_slice write_buf;
  c ← append (on_disk (ej_chain j) s) iv data;
  let policy := on_append_journal (ej_policy j) 1 in
  let write_buf := WriteBuf_clear write_buf in
  let old_chain_len := range_end c - range_start c in
  c ← (if 1 <? old_chain_len then trim c (range_end c - 1) else Ok c);
  let new_chain_len := range_end c - range_start c in
  compacted ← usub old_chain_len new_chain_len;
  let '(chain, s) := off_disk c in
  Ok (compacted, mkEditJournal (ej_state j) chain snapshots policy (ej_group j) write_buf, s).

Definition append_write_buf_to_journal (j : EditJournal) (s : St) (iv1 iv2 : Iv) : res (EditJournal * St) :=
  write_data ← WriteBuf_as_slice (ej_wbuf j);
  if length write_data =? 0 then Ok (j, s) else
  c ← unwrap_res (append (on_disk (ej_chain j) s) iv1 write_data);
  let '(chain, s) := off_disk c in
  let policy := on_append_journal (ej_policy j) 1 in
  let j := mkEditJournal (ej_state j) chain (ej_snapshots j) policy (ej_group j)
             (WriteBuf_clear (ej_wbuf j)) in
  if should_compact policy then
    '(compacted_blocks, j, s) ← unwrap_res (compact j s iv2);
    policy ← done_compact (ej_policy j) compacted_blocks;
    Ok (mkEditJournal (ej_state j) (ej_chain j) (ej_snapshots j) policy (ej_group j) (ej_wbuf j), s)
  else Ok (j, s).

Definition set_wbuf (j : EditJournal) (wb : WriteBuf) : EditJournal :=
  mkEditJournal (ej_state j) (ej_chain j) (ej_snapshots j) (ej_policy j) (ej_group j) wb.

(** [EditJournal::write]. *)
Definition write_record (j : EditJournal) (s : St) (iv1 iv2 : Iv) (record : JRecord E)
    : res (EditJournal * St) :=
  match WriteBuf_write (ej_wbuf j) record with
  | Ok wb => Ok (set_wbuf j wb, s)
  | Panic => Panic
  | Err _ =>
      '(j, s) ← append_write_buf_to_journal j s iv1 iv2;
      wb ← unwrap_res (WriteBuf_write (ej_wbuf j) record);
      Ok (set_wbuf j wb, s)
  end.

Definition commit (j : EditJournal) (s : St) (iv1 iv2 : Iv) : res (EditJournal * St) :=
  match ej_group j with
  | None => Ok (j, s)
  | Some edit_group =>
      let j := mkEditJournal (ej_state j) (ej_chain j) (ej_snapshots j) (ej_policy j) None (ej_wbuf j) in
      match edit_group with
      | [] => Ok (j, s)
      | _ =>
          '(j, s) ← write_record j s iv1 iv2 (REdit edit_group);
          Ok (mkEditJournal (group_apply edit_group (ej_state j)) (ej_chain j) (ej_snapshots j)
                (on_commit_edits (ej_policy j) edit_group) (ej_group j) (ej_wbuf j), s)
      end
  end.

(** [EditJournal::flush]. *)
Definition flush_journal (j : EditJournal) (s : St) (iv1 iv2 : Iv) : res (EditJournal * St) :=
  '(j, s) ← append_write_buf_to_journal j s iv1 iv2;
  c ← flush (on_disk (ej_chain j) s);
  let '(chain, s) := off_disk c in
  Ok (mkEditJournal (ej_state j) chain (ej_snapshots j) (ej_policy j) (ej_group j) (ej_wbuf j), s).
End defs.
Arguments SnapshotManager {_} _ _.
Arguments EditJournal {_} _ _ _ _.
