(* ===== verification/JournalSpec.v ===== *)
(** * JournalSpec: what the edit journal of [Journal.v] guarantees

    [BlockSetLayout] and [PolicySpec] state what the journal needs of its disk and of its
    compaction policy.  [journal_inv] ties a journal to the records on its ring and in its
    write buffer and to its two snapshots; every operation keeps it, and [recover] finds
    it again.  [ToyJournal] is a journal of sums on a disk of five blocks: it witnesses
    the theorems and carries the counterexamples. *)
From S2P Require Import Prelude Bio CryptoChain CryptoBlob Journal.

(** ** Interfaces the journal relies on *)

(** Block sets can be cut into disjoint block sets. *)
Class BlockSetLayout (D St : Type) {H : BlockSet D St} {HS : BlockSetSpec D St} := {
  subset_ok d s a b :
    bs_valid d s → a ≤ b → b ≤ bs_nblocks d →
    ∃ d', bs_subset d a b = Ok d' ∧ bs_valid d' s ∧ bs_nblocks d' = b - a;
  subset_disjoint d a1 b1 d1 a2 b2 d2 :
    bs_subset d a1 b1 = Ok d1 → bs_subset d a2 b2 = Ok d2 → b1 ≤ a2 ∨ b2 ≤ a1 → bs_disjoint d1 d2;
  nblocks_usize d s : bs_valid d s → usize_ok (bs_nblocks d * BLOCK_SIZE) = true;
}.

(** A policy that keeps the journal within its area: [pol_ok p used total] when [used]
    of [total] blocks are taken. *)
Class PolicySpec (E Pol : Type) {H : CompactPolicy E Pol} := {
  pol_ok : Pol → nat → nat → Prop;
  pol_room p n t : pol_ok p n t → n < t;
  pol_commit p g n t : pol_ok p n t → pol_ok (on_commit_edits p g) n t;
  pol_keep p n t :
    pol_ok p n t → should_compact (on_append_journal p 1) = false → pol_ok (on_append_journal p 1) (n + 1) t;
  pol_compact p n t :
    pol_ok p n t → 1 < t → should_compact (on_append_journal p 1) = true →
    ∃ p', done_compact (on_append_journal (on_append_journal p 1) 1) (n + 1) = Ok p' ∧ pol_ok p' 1 t;
}.

#[export] Instance DefaultCompact_spec E : PolicySpec E DefaultCompactPolicy.
Proof.
  refine {| pol_ok p n t := used_blocks p = n ∧ total_blocks p = t ∧ n < t |}.
  - tauto.
  - done.
  - intros [u tt] n t (? & ? & ?) Hc. cbn in *. bool_simpl. lia.
  - intros [u tt] n t (? & ? & ?) Ht Hc. cbn in *. bool_simpl. subst.
    rewrite (proj2 (Nat.leb_le _ _)) by lia. cbn. eexists. split; [done|]. cbn. lia.
Defined.

#[export] Instance MemDisk_layout : BlockSetLayout MemDisk (list byte) (HS := MemDisk_spec).
Proof.
  split.
  - intros d s a b (Hr & Hl & Hu) Hab Hb. cbn in *. unfold MemDisk_nblocks in Hb. unfold MemDisk_subset.
    pose proof BLOCK_SIZE_pos.
    rewrite uadd_ok by (eapply usize_ok_le; [|exact Hu]; nia). bind_step.
    rewrite (proj2 (Nat.ltb_ge _ _)) by lia. eexists. split; [done|]. split; [|cbn; unfold MemDisk_nblocks; cbn; lia].
    split; cbn; [lia|]. split; [nia|done].
  - intros d a1 b1 d1 a2 b2 d2 H1 H2 Hd. cbn in *. unfold MemDisk_subset in *.
    apply bind_inv in H1 as (e1 & _ & H1). destruct (region_end d <? e1); [done|].
    apply bind_inv in H2 as (e2 & _ & H2). destruct (region_end d <? e2); [done|].
    injection H1 as <-. injection H2 as <-. cbn. unfold md_disjoint. cbn. lia.
  - intros d s (Hr & Hl & Hu). cbn. unfold MemDisk_nblocks. eapply usize_ok_le; [|exact Hu]. nia.
Qed.

(** ** The write buffer and the records *)
Section records.
Context {A : Aead} {P : Pages} {HP : PagesSpec P} {E S : Type} {HE : Edit E S}.
Context {C : Postcard A E S} {HC : PostcardSpec A E S}.

Definition payload_of (rs : list (JRecord E)) : list byte := concat (map record_bytes rs).

Lemma record_bytes_pos r : 0 < length (record_bytes r).
Proof.
  pose proof (take_record_ok r []) as Ht. apply take_record_shrinks in Ht.
  rewrite app_nil_r in Ht. simpl in Ht. lia.
Qed.

Lemma record_slice_payload rs : ∀ fuel,
  length (payload_of rs) < fuel → record_slice fuel (payload_of rs) = rs.
Proof.
  induction rs as [|r rs IH]; intros [|fuel] Hf; try (simpl in Hf; lia); cbn [record_slice].
  - destruct (take_record (payload_of [])) as [[r rest]|] eqn:Ht; [|done].
    apply take_record_shrinks in Ht. simpl in Ht. lia.
  - cbn [payload_of map concat] in *. rewrite take_record_ok. f_equal. apply IH.
    pose proof (record_bytes_pos r). rewrite length_app in Hf. unfold payload_of. lia.
Qed.

(** The buffer holds [rs]. *)
Definition wbuf_ok (wb : WriteBuf) (rs : list (JRecord E)) : Prop :=
  length (wb_buf wb) = BLOCK_SIZE ∧ wb_capacity wb = AVAIL_BLOCK_SIZE ∧
  wb_cursor wb = length (payload_of rs) ∧ wb_cursor wb ≤ AVAIL_BLOCK_SIZE ∧
  take (wb_cursor wb) (wb_buf wb) = payload_of rs.

Lemma payload_of_snoc rs r : payload_of (rs ++ [r]) = payload_of rs ++ record_bytes r.
Proof. unfold payload_of. rewrite map_app, concat_app. simpl. by rewrite app_nil_r. Qed.

Lemma payload_of_one r : payload_of [r] = record_bytes r.
Proof. unfold payload_of. simpl. by rewrite app_nil_r. Qed.

Lemma wbuf_new_ok : ∃ wb, WriteBuf_new AVAIL_BLOCK_SIZE = Ok wb ∧ wbuf_ok wb [].
Proof.
  pose proof avail_eq. unfold WriteBuf_new. rewrite (proj2 (Nat.leb_le _ _)) by lia. cbn [assert_]. bind_step.
  destruct (Buf_alloc_ok 0 1 ltac:(lia)) as (b & -> & Hb). cbn [unwrap_res]. bind_step.
  eexists. split; [done|]. split; [cbn; lia|]. split; [done|]. split; [done|]. split; [cbn; lia|done].
Qed.

Lemma wbuf_clear_ok wb rs : wbuf_ok wb rs → wbuf_ok (WriteBuf_clear wb) [].
Proof. intros (Hl & Hc & _). split; [done|]. split; [done|]. split; [done|]. split; [cbn; lia|done]. Qed.

Lemma wbuf_as_slice_ok wb rs : wbuf_ok wb rs → WriteBuf_as_slice wb = Ok (payload_of rs).
Proof.
  intros (Hl & Hc & Hcur & Hle & Ht). pose proof avail_eq. unfold WriteBuf_as_slice.
  rewrite slice_ok by lia. by rewrite Nat.sub_0_r, drop_0, Ht.
Qed.

Lemma wbuf_write_ok wb rs r :
  wbuf_ok wb rs → length (payload_of rs) + length (record_bytes r) ≤ AVAIL_BLOCK_SIZE →
  ∃ wb', WriteBuf_write wb r = Ok wb' ∧ wbuf_ok wb' (rs ++ [r]).
Proof.
  intros (Hl & Hc & Hcur & Hle & Ht) Hfit. pose proof avail_eq. unfold WriteBuf_write.
  rewrite Hc, slice_ok by lia. bind_step. unfold to_slice.
  set (avail := take _ (drop _ _)). assert (Hal : length avail = AVAIL_BLOCK_SIZE - wb_cursor wb).
  { unfold avail. rewrite length_take, length_drop. lia. }
  rewrite (proj2 (Nat.leb_le _ _)) by lia. eexists. split; [done|].
  assert (Hsl : length (splice avail 0 (record_bytes r)) = length avail) by (rewrite splice_length; lia).
  unfold wbuf_ok. cbn. rewrite payload_of_snoc, length_app.
  split; [rewrite splice_length; lia|]. split; [done|]. split; [lia|]. split; [lia|].
  transitivity (take (wb_cursor wb) (wb_buf wb) ++ take (length (record_bytes r)) (splice avail 0 (record_bytes r))).
  - unfold splice at 1. rewrite take_app_ge, length_take by (rewrite length_take; lia).
    f_equal. rewrite take_app_le by lia. f_equal. lia.
  - rewrite Ht. f_equal. pose proof (splice_read avail 0 (record_bytes r) ltac:(lia)) as Hr. by rewrite drop_0 in Hr.
Qed.

Lemma wbuf_write_full wb rs r :
  wbuf_ok wb rs → AVAIL_BLOCK_SIZE < length (payload_of rs) + length (record_bytes r) →
  WriteBuf_write wb r = Err OutOfDisk.
Proof.
  intros (Hl & Hc & Hcur & Hle & Ht) Hfit. pose proof avail_eq. unfold WriteBuf_write.
  rewrite Hc, slice_ok by lia. bind_step. unfold to_slice.
  by rewrite (proj2 (Nat.leb_gt _ _)) by (rewrite length_take, length_drop; lia).
Qed.
End records.

(** ** Frames *)
Section frames.
Context {A : Aead} {HA : AeadSpec A} {F : FooterPod A} {HF : FooterPodSpec A F}.
Context {B : BlobPod A} {HB : BlobPodSpec A B} {P : Pages} {HP : PagesSpec P}.
Context {D St : Type} {HS : BlockSet D St} {HSS : BlockSetSpec D St}.
Implicit Types (c : CryptoChain (BlockRing D)) (s : St) (d : D).

Lemma blob_ok_framed d s s' (b : CryptoBlob D) v m p :
  blob_ok b s v m p → framed d s s' → bs_disjoint d (cb_block_set b) → blob_ok b s' v m p.
Proof.
  intros [(Hv & Hu & Hs & Hi) Hh] Hf Hd. destruct (framed_flat d s s' _ Hf Hv Hd) as [Hv' Hfl].
  split; [|done]. do 3 (split; [done|]). by rewrite Hfl.
Qed.

Lemma chain_ok_framed d c s s' ps :
  chain_ok (on_disk c s) ps → framed d s s' → bs_disjoint d (br_storage (block_log c)) →
  chain_ok (on_disk c s') ps.
Proof.
  intros (pre & bs & (Hv & Hn & Hl & Hb) & Hend & Hat & Hsc) Hf Hd. cbn in *.
  destruct (Hf _ Hv Hd) as [Hv' Hb']. exists pre, bs. cbn. split; [|by do 2 (split; [done|])].
  split; [done|]. split; [done|]. split; [done|]. cbn. intros i b Hi.
  rewrite Hb' by (apply Nat.mod_upper_bound; lia). by apply Hb.
Qed.

Lemma copy_from_slice_length {X} (l : list X) a b x r :
  copy_from_slice l a b x = Ok r → length r = length l.
Proof.
  unfold copy_from_slice. destruct (a <=? b) eqn:E1, (b <=? length l) eqn:E2; try done. cbn.
  destruct (length x =? b - a) eqn:E3; [|done]. bool_simpl. intros [= <-]. rewrite splice_length; lia.
Qed.

(** What [append] leaves alone: everything off the ring, and the ring itself. *)
Lemma append_framed (c c' : CryptoChain (BlockRing D * St)) iv p :
  bs_valid (br_storage (fst (block_log c))) (snd (block_log c)) →
  append c iv p = Ok c' →
  framed (br_storage (fst (block_log c))) (snd (block_log c)) (snd (block_log c')) ∧
  br_storage (fst (block_log c')) = br_storage (fst (block_log c)).
Proof.
  intros Hv. unfold append. destruct (AVAIL_BLOCK_SIZE <? length p); [done|]. intros Ha.
  apply bind_inv in Ha as (b0 & Hb0 & Ha). destruct (Buf_alloc_ok 0 1 ltac:(lia)) as (b0' & Hb0' & Hl0).
  rewrite Hb0 in Hb0'. injection Hb0' as <-.
  apply bind_inv in Ha as ([ct m] & _ & Ha).
  apply bind_inv in Ha as (b1 & Hb1%copy_from_slice_length & Ha).
  apply bind_inv in Ha as (b2 & Hb2%copy_from_slice_length & Ha).
  apply bind_inv in Ha as ([pos log'] & Hap & Ha). injection Ha as <-. cbn [block_log].
  destruct (block_log c) as [r s]. cbn in Hap, Hv |- *. unfold BlockRing_append, ring_pos in Hap.
  apply bind_inv in Hap as (cur & Hcur & Hap). apply bind_inv in Hap as (q & Hq & Hap).
  destruct (bs_nblocks (br_storage r) =? 0) eqn:E0; [done|]. injection Hq as <-.
  apply bind_inv in Hap as (s' & Hw & Hap). injection Hap as _ <-. cbn. split; [|done]. apply Nat.eqb_neq in E0.
  pose proof (Nat.mod_upper_bound cur (bs_nblocks (br_storage r)) ltac:(lia)).
  apply (write_framed _ s s' (cur mod bs_nblocks (br_storage r)) 1 b2); [done|split; lia|lia|done].
Qed.
End frames.

(** ** The snapshot manager keeps two readable snapshots *)
Section snapshots_spec.
Context {A : Aead} {HA : AeadSpec A} {B : BlobPod A} {HB : BlobPodSpec A B} {P : Pages} {HP : PagesSpec P}.
Context {D St : Type} {HS : BlockSet D St} {HSS : BlockSetSpec D St}.
Context {E S : Type} {C : Postcard A E S} {HC : PostcardSpec A E S}.
Implicit Types (sm : SnapshotManager D S) (s : St) (d : D).

(** Both blobs hold a snapshot; their versions tell which is the latest, and none is
    above [V]; [mac] is the MAC of the latest. *)
Definition sm_ok sm s (V : nat) (mac : Mac) : Prop :=
  ∃ v0 v1 m0 m1 sn0 sn1,
    blob_ok (sm_blob0 sm) s v0 m0 (snapshot_bytes sn0) ∧
    blob_ok (sm_blob1 sm) s v1 m1 (snapshot_bytes sn1) ∧
    v0 ≤ V ∧ v1 ≤ V ∧ length (sm_buf sm) = nblocks (sm_blob0 sm) * BLOCK_SIZE ∧
    ((sm_latest_index sm = 0 ∧ v1 = v0 ∧ sn0 = sm_snapshot sm ∧ m0 = mac) ∨
     (sm_latest_index sm = 1 ∧ v1 = Datatypes.S v0 ∧ sn1 = sm_snapshot sm ∧ m1 = mac)).

(** The places of a snapshot manager: block sets and keys. *)
Definition sm_places sm : (D * Key) * (D * Key) :=
  ((cb_block_set (sm_blob0 sm), cb_key (sm_blob0 sm)), (cb_block_set (sm_blob1 sm), cb_key (sm_blob1 sm))).

(** The two block sets are of one size and disjoint. *)
Definition sm_apart sm : Prop :=
  nblocks (sm_blob1 sm) = nblocks (sm_blob0 sm) ∧
  bs_disjoint (cb_block_set (sm_blob0 sm)) (cb_block_set (sm_blob1 sm)) ∧
  bs_disjoint (cb_block_set (sm_blob1 sm)) (cb_block_set (sm_blob0 sm)).

(** [s'] is [s] off the two block sets. *)
Definition sm_framed sm s s' : Prop :=
  framed (cb_block_set (sm_blob0 sm)) s s' ∨ framed (cb_block_set (sm_blob1 sm)) s s'.

Lemma latest_mac_ok sm s V mac : sm_ok sm s V mac → latest_mac sm = Ok mac.
Proof.
  intros (v0 & v1 & m0 & m1 & sn0 & sn1 & [_ H0] & [_ H1] & _ & _ & _ & Hl).
  unfold latest_mac, current_mac, sm_blob.
  destruct Hl as [(-> & _ & _ & <-)|(-> & _ & _ & <-)]; cbn; [by rewrite H0|by rewrite H1].
Qed.

Lemma sm_ok_framed d sm s s' V mac :
  sm_ok sm s V mac → framed d s s' → bs_disjoint d (cb_block_set (sm_blob0 sm)) →
  bs_disjoint d (cb_block_set (sm_blob1 sm)) → sm_ok sm s' V mac.
Proof.
  intros (v0 & v1 & m0 & m1 & sn0 & sn1 & H0 & H1 & Hr) Hf Hd0 Hd1.
  exists v0, v1, m0, m1, sn0, sn1. split; [by eapply blob_ok_framed|]. split; [by eapply blob_ok_framed|done].
Qed.

Lemma to_slice_ok bytes buf :
  length bytes ≤ length buf → ∃ buf', to_slice bytes buf = Some buf' ∧ length buf' = length buf.
Proof.
  intros Hl. unfold to_slice. rewrite (proj2 (Nat.leb_le _ _)) by done. eexists. split; [done|].
  rewrite splice_length; lia.
Qed.

Lemma persist_ok sm s V mac sn :
  sm_ok sm s V mac → sm_apart sm → usize_ok (Datatypes.S V) = true →
  HEADER_NBYTES + length (snapshot_bytes sn) ≤ nblocks (sm_blob0 sm) * BLOCK_SIZE →
  ∃ sm' s' mac', SnapshotManager_persist sm s sn = Ok (sm', s') ∧ sm_ok sm' s' (Datatypes.S V) mac' ∧
    sm_snapshot sm' = sn ∧ sm_places sm' = sm_places sm ∧ sm_framed sm s s'.
Proof.
  intros (v0 & v1 & m0 & m1 & sn0 & sn1 & H0 & H1 & Hv0 & Hv1 & Hbuf & Hl) (Hn & Hd01 & Hd10) HV Hfit.
  unfold SnapshotManager_persist.
  destruct (to_slice_ok (snapshot_bytes sn) (sm_buf sm) ltac:(lia)) as (buf & -> & Hb). cbn [ok_or]. bind_step.
  destruct Hl as [(Hi & Hv & Hs & Hm)|(Hi & Hv & Hs & Hm)]; rewrite Hi.
  - (* the latest is blob 0: write blob 1 *)
    change ((0 + 1) mod 2) with 1. rewrite <- Hn in Hfit.
    destruct (write_ok (sm_blob1 sm) s v1 m1 (snapshot_bytes sn1) (snapshot_bytes sn) H1) as (b' & m' & s' & Hw & Hset & Hk & Hb' & Hf).
    { eapply usize_ok_le; [|exact HV]. lia. } { unfold nblocks in Hfit. lia. }
    change (sm_blob sm 1) with (sm_blob1 sm). rewrite Hw. bind_step.
    eexists _, s', m'. split; [done|]. cbn. split; [|split; [done|split; [unfold sm_places; cbn; by rewrite Hset, Hk|by right]]].
    exists v0, (Datatypes.S v1), m0, m', sn0, sn. cbn. split; [by eapply blob_ok_framed|]. split; [done|].
    split; [lia|]. split; [lia|]. split; [lia|]. right. split; [done|]. split; [lia|done].
  - destruct (write_ok (sm_blob0 sm) s v0 m0 (snapshot_bytes sn0) (snapshot_bytes sn) H0) as (b' & m' & s' & Hw & Hset & Hk & Hb' & Hf).
    { eapply usize_ok_le; [|exact HV]. lia. } { exact Hfit. }
    change ((1 + 1) mod 2) with 0. change (sm_blob sm 0) with (sm_blob0 sm). rewrite Hw. bind_step.
    eexists _, s', m'. split; [done|]. cbn. split; [|split; [done|split; [unfold sm_places; cbn; by rewrite Hset, Hk|by left]]].
    exists (Datatypes.S v0), v1, m', m1, sn, sn1. cbn. split; [done|]. split; [by eapply blob_ok_framed|].
    split; [lia|]. split; [lia|]. split; [unfold nblocks in *; by rewrite Hset, <- Hbuf|]. left. split; [done|]. split; [lia|done].
Qed.

(** Reopening gives the manager back (up to the scratch buffer). *)
Lemma sm_recover_ok disk sm s V mac meta :
  sm_ok sm s V mac → snapshot_area_nblocks meta = nblocks (sm_blob0 sm) →
  snapshot_area_keys meta = (cb_key (sm_blob0 sm), cb_key (sm_blob1 sm)) →
  nblocks (sm_blob1 sm) = nblocks (sm_blob0 sm) → usize_ok (Datatypes.S V) = true →
  bs_subset disk 0 (nblocks (sm_blob0 sm)) = Ok (cb_block_set (sm_blob0 sm)) →
  bs_subset disk (nblocks (sm_blob0 sm)) (nblocks (sm_blob0 sm) * 2) = Ok (cb_block_set (sm_blob1 sm)) →
  ∃ buf, SnapshotManager_recover disk s meta =
           Ok (mkSnapshotManager (sm_blob0 sm) (sm_blob1 sm) (sm_latest_index sm) buf (sm_snapshot sm), s) ∧
         length buf = nblocks (sm_blob0 sm) * BLOCK_SIZE.
Proof.
  intros (v0 & v1 & m0 & m1 & sn0 & sn1 & [H0 Hh0] & [H1 Hh1] & Hv0 & Hv1 & Hbuf & Hl) Hmn Hmk Hn HV Hs0 Hs1.
  unfold SnapshotManager_recover. rewrite Hmn, Hmk, Hs0. bind_step. rewrite Hs1. bind_step. cbn [fst snd].
  pose proof (blob_holds_lengths _ _ _ _ _ _ H0) as Hl0. pose proof (blob_holds_lengths _ _ _ _ _ _ H1) as Hl1.
  fold (nblocks (sm_blob0 sm)) in Hl0. fold (nblocks (sm_blob1 sm)) in Hl1. rewrite Hn in Hl1.
  set (n := nblocks (sm_blob0 sm)) in *.
  assert (Hn0 : 0 < n) by (destruct n; unfold HEADER_NBYTES in *; lia).
  destruct (Buf_alloc_ok 0 n Hn0) as (buf & -> & Hbl). bind_step.
  unfold try_snapshot.
  rewrite (blob_read_ok (CryptoBlob.open (cb_key (sm_blob0 sm)) (cb_block_set (sm_blob0 sm))) s _ v0 m0
             (snapshot_bytes sn0) (length buf) H0 eq_refl (or_introl eq_refl)) by lia.
  bind_step.
  rewrite (blob_read_ok (CryptoBlob.open (cb_key (sm_blob1 sm)) (cb_block_set (sm_blob1 sm))) s _ v1 m1
             (snapshot_bytes sn1) (length buf) H1 eq_refl (or_introl eq_refl)) by lia.
  bind_step. rewrite !snapshot_roundtrip. bind_step. cbn [CryptoBlob.open cb_block_set cb_key].
  unfold version_id. cbn [cb_header fmap option_fmap option_map h_version unwrap]. bind_step.
  exists buf. split; [|done].
  rewrite <- Hh0, <- Hh1. replace (mkCryptoBlob A D (cb_block_set (sm_blob0 sm)) (cb_key (sm_blob0 sm)) (cb_header (sm_blob0 sm))) with (sm_blob0 sm) by (by destruct (sm_blob0 sm)).
  replace (mkCryptoBlob A D (cb_block_set (sm_blob1 sm)) (cb_key (sm_blob1 sm)) (cb_header (sm_blob1 sm))) with (sm_blob1 sm) by (by destruct (sm_blob1 sm)).
  destruct Hl as [(-> & -> & <- & _)|(-> & -> & <- & _)].
  - rewrite Nat.eqb_refl. by bind_step.
  - rewrite (proj2 (Nat.eqb_neq _ _)) by lia. cbn [DEFAULT_LATEST_INDEX Nat.eqb].
    rewrite uadd_ok by (eapply usize_ok_le; [|exact HV]; lia). bind_step.
    rewrite Nat.add_1_r, Nat.eqb_refl. by bind_step.
Qed.

Lemma blob_eta (b : CryptoBlob D) h :
  cb_header b = Some h → mkCryptoBlob A D (cb_block_set b) (cb_key b) (Some h) = b.
Proof. destruct b. cbn. by intros ->. Qed.

(** Recovery when blob 1 is unreadable: it is rebuilt from blob 0, which is the latest. *)
Lemma sm_recover_torn1 disk sm s v m e meta sn :
  let n := nblocks (sm_blob0 sm) in
  blob_ok (sm_blob0 sm) s v m (snapshot_bytes sn) → nblocks (sm_blob1 sm) = n →
  bs_disjoint (cb_block_set (sm_blob1 sm)) (cb_block_set (sm_blob0 sm)) →
  bs_valid (cb_block_set (sm_blob1 sm)) s →
  CryptoBlob.read (CryptoBlob.open (cb_key (sm_blob1 sm)) (cb_block_set (sm_blob1 sm))) s (n * BLOCK_SIZE) = Err e →
  snapshot_area_nblocks meta = n →
  snapshot_area_keys meta = (cb_key (sm_blob0 sm), cb_key (sm_blob1 sm)) →
  bs_subset disk 0 n = Ok (cb_block_set (sm_blob0 sm)) →
  bs_subset disk n (n * 2) = Ok (cb_block_set (sm_blob1 sm)) →
  ∃ sm' s', SnapshotManager_recover disk s meta = Ok (sm', s') ∧ sm_ok sm' s' v m ∧
    sm_snapshot sm' = sn ∧ sm_places sm' = sm_places sm ∧ framed (cb_block_set (sm_blob1 sm)) s s'.
Proof.
  intros n Hb Hn1 Hdis Hv1 Hread Hmn Hmk Hs0 Hs1. pose proof Hb as [H0 Hh0].
  unfold SnapshotManager_recover. rewrite Hmn, Hmk, Hs0. bind_step. rewrite Hs1. bind_step. cbn [fst snd].
  pose proof (blob_holds_lengths _ _ _ _ _ _ H0) as Hl0. fold (nblocks (sm_blob0 sm)) in Hl0. fold n in Hl0.
  assert (Hn0 : 0 < n) by (destruct n; unfold HEADER_NBYTES in *; lia).
  destruct (Buf_alloc_ok 0 n Hn0) as (buf & -> & Hbl). bind_step. unfold try_snapshot. rewrite Hbl, Hread.
  rewrite (blob_read_ok (CryptoBlob.open (cb_key (sm_blob0 sm)) (cb_block_set (sm_blob0 sm))) s _ v m
             (snapshot_bytes sn) (n * BLOCK_SIZE) H0 eq_refl (or_introl eq_refl)) by lia.
  bind_step. rewrite snapshot_roundtrip. cbn [CryptoBlob.open cb_block_set cb_key]. rewrite (blob_eta _ _ Hh0).
  destruct (recover_from_ok (CryptoBlob.open (cb_key (sm_blob1 sm)) (cb_block_set (sm_blob1 sm))) (sm_blob0 sm) s v m
              (snapshot_bytes sn) Hb Hv1 eq_refl Hn1) as (b1 & m1 & s1 & Hr & Hset & Hk & [Hb1 Hh1] & Hf).
  cbn [CryptoBlob.open] in Hr. rewrite Hr. bind_step.
  unfold version_id. rewrite Hh0, Hh1. cbn [fmap option_fmap option_map h_version unwrap]. bind_step.
  rewrite Nat.eqb_refl. bind_step. eexists _, s1. split; [done|]. cbn in Hset, Hk.
  split; [|split; [done|split; [unfold sm_places; cbn; by rewrite Hset, Hk|done]]].
  exists v, v, m, m1, sn, sn. cbn. split; [by eapply blob_ok_framed|]. split; [by split|].
  do 2 (split; [lia|]). split; [exact Hbl|]. left. repeat split.
Qed.

(** Recovery when blob 0 is unreadable: it is rebuilt from blob 1 and becomes the latest,
    with a MAC under its own key. *)
Lemma sm_recover_torn0 disk sm s v m e meta sn :
  let n := nblocks (sm_blob1 sm) in
  blob_ok (sm_blob1 sm) s v m (snapshot_bytes sn) → nblocks (sm_blob0 sm) = n →
  bs_valid (cb_block_set (sm_blob0 sm)) s →
  CryptoBlob.read (CryptoBlob.open (cb_key (sm_blob0 sm)) (cb_block_set (sm_blob0 sm))) s (n * BLOCK_SIZE) = Err e →
  snapshot_area_nblocks meta = n →
  snapshot_area_keys meta = (cb_key (sm_blob0 sm), cb_key (sm_blob1 sm)) →
  bs_subset disk 0 n = Ok (cb_block_set (sm_blob0 sm)) →
  bs_subset disk n (n * 2) = Ok (cb_block_set (sm_blob1 sm)) →
  ∃ sm' s' c m', SnapshotManager_recover disk s meta = Ok (sm', s') ∧ latest_mac sm' = Ok m' ∧
    aead_encrypt (snapshot_bytes sn) (cb_key (sm_blob0 sm)) (version_iv v) [] = Ok (c, m') ∧
    sm_snapshot sm' = sn ∧ framed (cb_block_set (sm_blob0 sm)) s s'.
Proof.
  intros n Hb Hn0' Hv0 Hread Hmn Hmk Hs0 Hs1. pose proof Hb as [H1 Hh1].
  unfold SnapshotManager_recover. rewrite Hmn, Hmk, Hs0. bind_step. rewrite Hs1. bind_step. cbn [fst snd].
  pose proof (blob_holds_lengths _ _ _ _ _ _ H1) as Hl1. fold (nblocks (sm_blob1 sm)) in Hl1. fold n in Hl1.
  assert (Hn0 : 0 < n) by (destruct n; unfold HEADER_NBYTES in *; lia).
  destruct (Buf_alloc_ok 0 n Hn0) as (buf & -> & Hbl). bind_step. unfold try_snapshot. rewrite Hbl, Hread. bind_step.
  rewrite (blob_read_ok (CryptoBlob.open (cb_key (sm_blob1 sm)) (cb_block_set (sm_blob1 sm))) s _ v m
             (snapshot_bytes sn) (n * BLOCK_SIZE) H1 eq_refl (or_introl eq_refl)) by lia.
  bind_step. rewrite snapshot_roundtrip. cbn [CryptoBlob.open cb_block_set cb_key]. rewrite (blob_eta _ _ Hh1).
  destruct (recover_from_ok (CryptoBlob.open (cb_key (sm_blob0 sm)) (cb_block_set (sm_blob0 sm))) (sm_blob1 sm) s v m
              (snapshot_bytes sn) Hb Hv0 eq_refl Hn0') as (b0 & m0 & s0 & Hr & Hset & Hk & [Hb0 Hh0] & Hf).
  cbn [CryptoBlob.open] in Hr. rewrite Hr. bind_step.
  unfold version_id. rewrite Hh0, Hh1. cbn [fmap option_fmap option_map h_version unwrap]. bind_step.
  rewrite Nat.eqb_refl. bind_step. destruct Hb0 as (_ & _ & _ & c & rest & _ & He). cbn in Hk. rewrite Hk in He.
  eexists _, s0, c, m0. split; [done|]. split; [|by do 2 (split; [done|])].
  unfold latest_mac, current_mac. cbn. by rewrite Hh0.
Qed.
End snapshots_spec.

(** ** The journal's invariant *)
Section journal_spec.
Context {A : Aead} {HA : AeadSpec A} {F : FooterPod A} {HF : FooterPodSpec A F}.
Context {B : BlobPod A} {HB : BlobPodSpec A B} {P : Pages} {HP : PagesSpec P}.
Context {D St : Type} {HS : BlockSet D St} {HSS : BlockSetSpec D St} {HSL : BlockSetLayout D St}.
Context {E S : Type} {HE : Edit E S} {C : Postcard A E S} {HC : PostcardSpec A E S}.
Context {Pol : Type} {HPol : CompactPolicy E Pol} {HPS : PolicySpec E Pol}.
Implicit Types (j : EditJournal D E S Pol) (s : St).

(** Where a journal lives: the ring and its key, and the two blobs and theirs. *)
Definition Places : Type := (D * Key) * ((D * Key) * (D * Key)).
Definition pl_ring (pl : Places) : D := pl.1.1.
Definition pl_set0 (pl : Places) : D := pl.2.1.1.
Definition pl_set1 (pl : Places) : D := pl.2.2.1.

Definition journal_places j : Places :=
  ((br_storage (block_log (ej_chain j)), key (ej_chain j)), sm_places (ej_snapshots j)).

(** The three areas are cut out of [disk] as [format] and [recover] cut them. *)
Definition layout (disk : D) (pl : Places) : Prop :=
  let n := bs_nblocks (pl_set0 pl) in
  bs_subset disk 0 n = Ok (pl_set0 pl) ∧ bs_subset disk n (n * 2) = Ok (pl_set1 pl) ∧
  bs_subset disk (n * 2) (n * 2 + bs_nblocks (pl_ring pl)) = Ok (pl_ring pl) ∧
  bs_nblocks (pl_set1 pl) = n ∧ 1 < bs_nblocks (pl_ring pl).

Definition is_edit (r : JRecord E) : Prop := match r with REdit _ => True | Version _ => False end.

(** The state after the edits of [rs]. *)
Definition replay_edits (rs : list (JRecord E)) (st : S) : S :=
  fold_left (λ st r, match r with REdit g => group_apply g st | Version _ => st end) rs st.

(** [blocks]: the records in the chain, from the one that names the latest snapshot;
    [recs]: the records still in the write buffer. *)
Definition journal_inv (disk : D) (pl : Places) j s (V : nat)
    (blocks : list (list (JRecord E))) (recs : list (JRecord E)) : Prop :=
  ∃ mac rest,
    blocks = [Version mac] :: rest ∧ Forall (Forall is_edit) rest ∧ Forall is_edit recs ∧
    chain_ok (on_disk (ej_chain j) s) (map payload_of blocks) ∧
    sm_ok (ej_snapshots j) s V mac ∧
    sn_recover_from (sm_snapshot (ej_snapshots j)) = range_start (ej_chain j) ∧
    wbuf_ok (ej_wbuf j) recs ∧
    ej_state j = replay_edits (concat rest ++ recs) (sn_state (sm_snapshot (ej_snapshots j))) ∧
    journal_places j = pl ∧ layout disk pl.

(** A snapshot of state [st] fits a blob of [n] blocks. *)
Definition fits_in (n : nat) (st : S) : Prop :=
  ∀ k, HEADER_NBYTES + length (snapshot_bytes (mkSnapshot st k)) ≤ n * BLOCK_SIZE.
Definition fits (pl : Places) (st : S) : Prop := fits_in (bs_nblocks (pl_set0 pl)) st.

Lemma layout_disjoint disk pl :
  layout disk pl →
  (bs_disjoint (pl_set0 pl) (pl_set1 pl) ∧ bs_disjoint (pl_set1 pl) (pl_set0 pl)) ∧
  (bs_disjoint (pl_ring pl) (pl_set0 pl) ∧ bs_disjoint (pl_ring pl) (pl_set1 pl)) ∧
  (bs_disjoint (pl_set0 pl) (pl_ring pl) ∧ bs_disjoint (pl_set1 pl) (pl_ring pl)).
Proof. intros (H0 & H1 & Hr & _). repeat split; eapply subset_disjoint; eauto; lia. Qed.

Lemma chain_ok_valid c s ps :
  chain_ok (on_disk c s) ps → bs_valid (br_storage (block_log c)) s.
Proof. by intros (? & ? & (Hv & _) & _). Qed.

(** An append to the ring keeps the snapshots. *)
Lemma append_keeps j s V mac pl disk iv p c' :
  sm_ok (ej_snapshots j) s V mac → journal_places j = pl → layout disk pl →
  bs_valid (br_storage (block_log (ej_chain j))) s →
  append (on_disk (ej_chain j) s) iv p = Ok c' →
  sm_ok (ej_snapshots j) (snd (off_disk c')) V mac ∧
  br_storage (block_log (fst (off_disk c'))) = br_storage (block_log (ej_chain j)).
Proof.
  intros Hsm <- Hlay Hv Ha. destruct (append_framed (on_disk (ej_chain j) s) c' iv p Hv Ha) as [Hf Hr].
  destruct (layout_disjoint _ _ Hlay) as (_ & (Hd0 & Hd1) & _). split; [|exact Hr].
  by eapply sm_ok_framed.
Qed.

Lemma compact_ok disk pl j s V blocks iv :
  (∀ mac, length (record_bytes (Version mac)) ≤ AVAIL_BLOCK_SIZE) →
  journal_inv disk pl j s V blocks [] → usize_ok (Datatypes.S V) = true → fits pl (ej_state j) →
  ∃ j' s' mac, compact j s iv = Ok (length blocks, j', s') ∧
    journal_inv disk pl j' s' (Datatypes.S V) [[Version mac]] [] ∧
    ej_state j' = ej_state j ∧ ej_group j' = ej_group j ∧
    ej_policy j' = on_append_journal (ej_policy j) 1.
Proof.
  intros Hver (mac & rest & Hbl & Hed & _ & Hch & Hsm & Hrf & Hwb & Hst & Hpl & Hlay) HV Hfit.
  assert (Hlen : range_end (ej_chain j) = range_start (ej_chain j) + length blocks).
  { destruct Hch as (? & ? & _ & He & _). cbn in He. by rewrite length_map in He. }
  assert (Hb0 : 0 < length blocks) by (subst blocks; simpl; lia).
  destruct (layout_disjoint _ _ Hlay) as ((Hd01 & Hd10) & (Hr0 & Hr1) & (H0r & H1r)).
  pose proof Hlay as (_ & _ & _ & Hn1 & Hring). subst pl. cbn in *.
  unfold compact. rewrite (proj2 (Nat.leb_gt (range_end _) _)) by lia.
  destruct (persist_ok (ej_snapshots j) s V mac (mkSnapshot (ej_state j) (range_end (ej_chain j))) Hsm)
    as (sm' & s1 & mac' & -> & Hsm' & Hsn & Hpl' & Hf); [by split|done|apply Hfit|].
  bind_step. rewrite (latest_mac_ok _ _ _ _ Hsm'). bind_step.
  destruct (wbuf_write_ok _ [] (Version mac') Hwb) as (wb' & -> & Hwb'); [simpl; apply Hver|]. cbn [app] in Hwb'. bind_step.
  rewrite (wbuf_as_slice_ok _ _ Hwb'). bind_step.
  assert (Hch1 : chain_ok (on_disk (ej_chain j) s1) (map payload_of blocks)).
  { destruct Hf as [Hf|Hf]; by eapply chain_ok_framed. }
  destruct (append_over (on_disk (ej_chain j) s1) iv (payload_of [Version mac']) _ Hch1)
    as (c' & Ha & Hs' & He' & Hk' & Hroom & Hc' & Htrim); [rewrite payload_of_one; apply Hver|cbn; lia|].
  rewrite Ha. bind_step. cbn [on_disk range_start range_end key block_log] in *.
  assert (Hpl1 : journal_places (mkEditJournal (ej_state j) (ej_chain j) sm' (ej_policy j) (ej_group j) (ej_wbuf j)) = journal_places j).
  { unfold journal_places. cbn. by rewrite Hpl'. }
  destruct (append_keeps (mkEditJournal (ej_state j) (ej_chain j) sm' (ej_policy j) (ej_group j) (ej_wbuf j))
              s1 _ _ _ disk iv _ c' Hsm' Hpl1 Hlay (chain_ok_valid _ _ _ Hch1) Ha) as [Hsm2 Hring2]. cbn in Hsm2, Hring2.
  rewrite Hs', He'. rewrite (proj2 (Nat.ltb_lt 1 _)) by lia.
  rewrite Nat.add_sub, Htrim by (subst blocks; done). bind_step. cbn [chain_from range_start range_end].
  rewrite He', usub_ok by lia. bind_step. cbn [off_disk].
  replace (range_end (ej_chain j) + 1 - range_start (ej_chain j) - (range_end (ej_chain j) + 1 - range_end (ej_chain j)))
    with (length blocks) by lia.
  eexists _, _, mac'. split; [done|]. split; [|done].
  exists mac', []. split; [done|]. split; [constructor|]. split; [constructor|]. cbn -[payload_of].
  split; [unfold on_disk; cbn -[payload_of]; rewrite <- surjective_pairing; exact Hc'|]. split; [done|]. split; [by rewrite Hsn|].
  split; [by eapply wbuf_clear_ok|]. split; [by rewrite Hsn|]. split; [|done].
  unfold journal_places. cbn. by rewrite Hpl', Hring2, Hk'.
Qed.

Lemma chain_ok_len c s ps :
  chain_ok (on_disk c s) ps → range_end c = range_start c + length ps.
Proof. by intros (? & ? & _ & He & _). Qed.

Lemma replay_edits_app rs1 rs2 st : replay_edits (rs1 ++ rs2) st = replay_edits rs2 (replay_edits rs1 st).
Proof. apply fold_left_app. Qed.

Lemma append_write_buf_ok disk pl j s V blocks recs iv1 iv2 :
  (∀ mac, length (record_bytes (Version mac)) ≤ AVAIL_BLOCK_SIZE) →
  journal_inv disk pl j s V blocks recs → usize_ok (Datatypes.S V) = true → fits pl (ej_state j) →
  pol_ok (ej_policy j) (length blocks) (bs_nblocks (pl_ring pl)) →
  ∃ j' s' V' blocks', append_write_buf_to_journal j s iv1 iv2 = Ok (j', s') ∧ V' ≤ Datatypes.S V ∧
    journal_inv disk pl j' s' V' blocks' [] ∧
    pol_ok (ej_policy j') (length blocks') (bs_nblocks (pl_ring pl)) ∧
    ej_state j' = ej_state j ∧ ej_group j' = ej_group j.
Proof.
  intros Hver Hinv HV Hfit Hpol. pose proof Hinv as (mac & rest & Hbl & Hed & Hre & Hch & Hsm & Hrf & Hwb & Hst & Hpl & Hlay).
  unfold append_write_buf_to_journal. rewrite (wbuf_as_slice_ok _ _ Hwb). bind_step.
  destruct recs as [|r rs] eqn:Er.
  { cbn. exists j, s, V, blocks. do 2 (split; [done || lia|]). done. }
  rewrite <- Er in *. assert (Hpos : 0 < length (payload_of recs)).
  { subst recs. unfold payload_of. cbn. rewrite length_app. pose proof (record_bytes_pos r). lia. }
  rewrite (proj2 (Nat.eqb_neq _ _)) by lia.
  pose proof (pol_room _ _ _ Hpol) as Hroom.
  destruct (chain_append_ok (on_disk (ej_chain j) s) iv1 (map payload_of blocks) (payload_of recs) Hch)
    as (c' & Ha & Hc' & Hs' & Hk' & _).
  { destruct Hwb as (_ & _ & Hcur & Hle & _). lia. }
  { rewrite length_map. cbn. by rewrite <- Hpl in Hroom. }
  rewrite Ha. cbn [unwrap_res]. bind_step. cbn [off_disk on_disk range_start key] in *.
  destruct (append_keeps j s V mac pl disk iv1 _ c' Hsm Hpl Hlay (chain_ok_valid _ _ _ Hch) Ha) as [Hsm' Hr'].
  cbn in Hsm', Hr'.
  set (j1 := mkEditJournal _ _ _ _ _ _).
  assert (Hinv1 : journal_inv disk pl j1 (block_log c').2 V (blocks ++ [recs]) []).
  { exists mac, (rest ++ [recs]). rewrite Hbl. split; [done|]. split; [apply Forall_app; by split; [|constructor]|].
    split; [constructor|]. cbn -[payload_of map]. split.
    { unfold on_disk; cbn -[payload_of map]. rewrite <- surjective_pairing.
      rewrite (app_comm_cons rest), <- Hbl, map_app. by destruct c'. }
    split; [done|]. split; [by rewrite Hs'|]. split; [by eapply wbuf_clear_ok|].
    split; [rewrite concat_app; cbn; by rewrite !app_nil_r|]. split; [|done].
    rewrite <- Hpl. unfold journal_places. cbn. by rewrite Hr', Hk'. }
  assert (Hlen1 : length (blocks ++ [recs]) = length blocks + 1) by (by rewrite length_app).
  destruct (should_compact (on_append_journal (ej_policy j) 1)) eqn:Hsc.
  2:{ eexists j1, _, V, _. split; [done|]. split; [lia|]. split; [exact Hinv1|].
      rewrite Hlen1. split; [by apply pol_keep|done]. }
  destruct (compact_ok disk pl j1 _ V _ iv2 Hver Hinv1 HV Hfit) as (j2 & s2 & mac2 & -> & Hinv2 & Hst2 & Hg2 & Hp2).
  cbn [unwrap_res]. bind_step. rewrite Hp2, Hlen1.
  destruct (pol_compact _ _ _ Hpol ltac:(apply Hlay) Hsc) as (p' & Hdone & Hpok). cbn. rewrite Hdone. bind_step.
  eexists _, s2, (Datatypes.S V), [[Version mac2]]. split; [done|]. split; [lia|]. split; [exact Hinv2|]. done.
Qed.

(** Adding a record to the write buffer: a group not yet in the state. *)
Definition pending_inv disk pl j s V blocks recs (g : list E) : Prop :=
  wbuf_ok (ej_wbuf j) (recs ++ [REdit g]) ∧
  ∃ wb, wbuf_ok wb recs ∧ journal_inv disk pl (set_wbuf j wb) s V blocks recs.

Lemma write_record_ok disk pl j s V blocks recs iv1 iv2 g :
  (∀ mac, length (record_bytes (Version mac)) ≤ AVAIL_BLOCK_SIZE) →
  journal_inv disk pl j s V blocks recs → usize_ok (Datatypes.S V) = true → fits pl (ej_state j) →
  pol_ok (ej_policy j) (length blocks) (bs_nblocks (pl_ring pl)) →
  length (record_bytes (REdit g)) ≤ AVAIL_BLOCK_SIZE →
  ∃ j' s' V' blocks' recs', write_record j s iv1 iv2 (REdit g) = Ok (j', s') ∧ V' ≤ Datatypes.S V ∧
    pending_inv disk pl j' s' V' blocks' recs' g ∧
    pol_ok (ej_policy j') (length blocks') (bs_nblocks (pl_ring pl)) ∧
    ej_state j' = ej_state j ∧ ej_group j' = ej_group j.
Proof.
  intros Hver Hinv HV Hfit Hpol Hg. unfold write_record.
  assert (Hwb : wbuf_ok (ej_wbuf j) recs) by (by destruct Hinv as (? & ? & _ & _ & _ & _ & _ & _ & Hwb & _)).
  assert (Hset : ∀ j0 s0 V0 bl0 rs0 wb, journal_inv disk pl j0 s0 V0 bl0 rs0 → wbuf_ok wb (rs0 ++ [REdit g]) →
            pending_inv disk pl (set_wbuf j0 wb) s0 V0 bl0 rs0 g).
  { intros j0 s0 V0 bl0 rs0 wb Hi Hw. split; [done|]. exists (ej_wbuf j0).
    split; [by destruct Hi as (? & ? & _ & _ & _ & _ & _ & _ & ? & _)|]. by destruct j0. }
  destruct (decide (length (payload_of recs) + length (record_bytes (REdit g)) ≤ AVAIL_BLOCK_SIZE)) as [Hle|Hgt].
  - destruct (wbuf_write_ok _ _ (REdit g) Hwb Hle) as (wb & -> & Hwb').
    eexists _, s, V, blocks, recs. split; [done|]. split; [lia|]. split; [by apply Hset|done].
  - rewrite (wbuf_write_full _ _ _ Hwb) by lia.
    destruct (append_write_buf_ok disk pl j s V blocks recs iv1 iv2 Hver Hinv HV Hfit Hpol)
      as (j' & s' & V' & blocks' & -> & HV' & Hinv' & Hpol' & Hst' & Hg').
    bind_step. assert (Hwb' : wbuf_ok (ej_wbuf j') []) by (by destruct Hinv' as (? & ? & _ & _ & _ & _ & _ & _ & Hwb' & _)).
    destruct (wbuf_write_ok _ _ (REdit g) Hwb') as (wb & -> & Hwb2); [cbn; lia|]. cbn [unwrap_res]. bind_step.
    eexists _, s', V', blocks', []. split; [done|]. split; [done|]. split; [by apply Hset|done].
Qed.

Lemma commit_ok disk pl j s V blocks recs iv1 iv2 :
  (∀ mac, length (record_bytes (Version mac)) ≤ AVAIL_BLOCK_SIZE) →
  journal_inv disk pl j s V blocks recs → usize_ok (Datatypes.S V) = true → fits pl (ej_state j) →
  pol_ok (ej_policy j) (length blocks) (bs_nblocks (pl_ring pl)) →
  length (record_bytes (REdit (default [] (ej_group j)))) ≤ AVAIL_BLOCK_SIZE →
  ∃ j' s' V' blocks' recs', commit j s iv1 iv2 = Ok (j', s') ∧ V' ≤ Datatypes.S V ∧
    journal_inv disk pl j' s' V' blocks' recs' ∧
    pol_ok (ej_policy j') (length blocks') (bs_nblocks (pl_ring pl)) ∧
    ej_state j' = group_apply (default [] (ej_group j)) (ej_state j) ∧ ej_group j' = None.
Proof.
  intros Hver Hinv HV Hfit Hpol Hg. unfold commit.
  destruct (ej_group j) as [[|e g]|] eqn:Eg; cbn [default] in *.
  - eexists _, s, V, blocks, recs. split; [done|]. split; [lia|]. split; [exact Hinv|]. done.
  - set (j0 := mkEditJournal _ _ _ _ _ _).
    destruct (write_record_ok disk pl j0 s V blocks recs iv1 iv2 (e :: g) Hver Hinv HV Hfit Hpol Hg)
      as (j' & s' & V' & blocks' & recs' & -> & HV' & (Hwb' & wb & Hwb & Hinv') & Hpol' & Hst' & Hg').
    bind_step. eexists _, s', V', blocks', (recs' ++ [REdit (e :: g)]). split; [done|]. split; [done|].
    split; [|split; [by apply pol_commit|split; [cbn in Hst' |- *; by rewrite Hst'|done]]].
    destruct Hinv' as (mac & rest & Hbl & Hed & Hre & Hch & Hsm & Hrf & _ & Hst & Hpl & Hlay).
    exists mac, rest. split; [done|]. split; [done|]. split; [apply Forall_app; by split; [|constructor]|].
    split; [done|]. split; [done|]. split; [done|]. split; [done|]. split; [|done].
    cbn in Hst |- *. by rewrite Hst, app_assoc, (replay_edits_app (concat rest ++ recs')).
  - exists j, s, V, blocks, recs. split; [done|]. split; [lia|]. done.
Qed.

Lemma flush_ok disk pl j s V blocks recs iv1 iv2 :
  (∀ mac, length (record_bytes (Version mac)) ≤ AVAIL_BLOCK_SIZE) →
  journal_inv disk pl j s V blocks recs → usize_ok (Datatypes.S V) = true → fits pl (ej_state j) →
  pol_ok (ej_policy j) (length blocks) (bs_nblocks (pl_ring pl)) →
  ∃ j' s' V' blocks', flush_journal j s iv1 iv2 = Ok (j', s') ∧ V' ≤ Datatypes.S V ∧
    journal_inv disk pl j' s' V' blocks' [] ∧
    pol_ok (ej_policy j') (length blocks') (bs_nblocks (pl_ring pl)) ∧
    ej_state j' = ej_state j ∧ ej_group j' = ej_group j.
Proof.
  intros Hver Hinv HV Hfit Hpol. unfold flush_journal.
  destruct (append_write_buf_ok disk pl j s V blocks recs iv1 iv2 Hver Hinv HV Hfit Hpol)
    as (j' & s' & V' & blocks' & -> & HV' & Hinv' & Hpol' & Hst' & Hg').
  bind_step. unfold flush. cbn [bl_flush BlockRing_BlockLog on_disk block_log fst snd]. unfold BlockRing_flush.
  assert (Hv : bs_valid (br_storage (block_log (ej_chain j'))) s').
  { destruct Hinv' as (? & ? & _ & _ & _ & Hch & _). by eapply chain_ok_valid. }
  rewrite bs_flush_ok by done. bind_step. cbn.
  eexists _, s', V', blocks'. split; [done|]. split; [done|]. split; [|done].
  by destruct j' as [? [] ? ? ? ?].
Qed.

(** ** Recovery *)
Definition replay_blocks (mac : Mac) (blocks : list (list (JRecord E))) (acc : bool * S) : bool * S :=
  fold_left (λ acc rs, fold_left (replay_record mac) rs acc) blocks acc.

Lemma recover_loop_ok (log : BlockRing D * St) k lo mac : ∀ blocks fuel pre ms0 ms bs0 bs e (acc : bool * S),
  bl_holds log lo (bs0 ++ bs) → e = lo + length bs0 → last ms0 = None ∨ last ms0 = Some pre →
  sealed_chain k pre ms (map payload_of blocks) bs → length blocks < fuel →
  next (mkCryptoChain log k lo (e + length blocks) (ms0 ++ ms)) = Ok None →
  recover_loop fuel mac (mkCryptoChain log k lo e ms0) acc =
    Ok (mkCryptoChain log k lo (e + length blocks) (ms0 ++ ms),
        replay_blocks mac blocks acc).
Proof.
  induction blocks as [|rs blocks IH]; intros fuel pre ms0 ms bs0 bs e acc Hh -> Hlast Hsc Hf Hn;
    (destruct fuel as [|fuel]; [lia|]); cbn [recover_loop].
  { inversion Hsc; subst. rewrite app_nil_r, Nat.add_0_r in *. rewrite Hn. by bind_step. }
  cbn [map] in Hsc. inversion Hsc as [|? m ms' ? ? b bs' Hs Hsc']; subst. cbn [length] in *.
  rewrite (next_ok _ pre m (payload_of rs) b lo (bs0 ++ b :: bs'));
    [|exact Hh| |cbn; lia|exact Hlast|exact Hs].
  2:{ cbn. rewrite lookup_app_r by lia. by replace (lo + length bs0 - lo - length bs0) with 0 by lia. }
  bind_step. cbn [block_log key range_start range_end block_macs]. rewrite record_slice_payload by lia.
  rewrite (IH fuel m (ms0 ++ [m]) ms' (bs0 ++ [b]) bs').
  - rewrite <- app_assoc, <- Nat.add_assoc. done.
  - by rewrite <- app_assoc.
  - rewrite length_app. simpl. lia.
  - right. by rewrite last_snoc.
  - done.
  - lia.
  - rewrite <- app_assoc, <- Nat.add_assoc. exact Hn.
Qed.

Lemma replay_rest mac rest st :
  Forall (Forall is_edit) rest →
  replay_blocks mac rest (true, st) = (true, replay_edits (concat rest) st).
Proof.
  intros Hr. revert st. induction Hr as [|rs rest Hrs _ IH]; intros st; [done|]. cbn [replay_blocks fold_left concat].
  rewrite replay_edits_app. rewrite <- IH. unfold replay_blocks. f_equal. clear IH.
  revert st. induction Hrs as [|[m|g] rs Hg _ IH]; intros st; [done|done|]. cbn. apply IH.
Qed.

Lemma replay_inv mac rest blocks st :
  blocks = [Version mac] :: rest → Forall (Forall is_edit) rest →
  replay_blocks mac blocks (false, st) = (true, replay_edits (concat rest) st).
Proof.
  intros -> Hr. rewrite <- (replay_rest mac rest st Hr). unfold replay_blocks. cbn. by rewrite decide_True.
Qed.

(** Without the record of the MAC sought, no edit is applied. *)
Lemma replay_other mac' mac rest blocks st :
  mac ≠ mac' → blocks = [Version mac] :: rest → Forall (Forall is_edit) rest →
  replay_blocks mac' blocks (false, st) = (false, st).
Proof.
  intros Hm -> Hr. unfold replay_blocks. cbn. rewrite decide_False by done.
  induction Hr as [|rs rest Hrs _ IH]; [done|]. cbn.
  replace (fold_left (replay_record mac') rs (false, st)) with (false, st); [done|].
  induction Hrs as [|[m|g] rs Hg _ IH2]; [done|done|]. exact IH2.
Qed.

(** Nothing on the ring continues the chain. *)
Definition no_successor j s : Prop :=
  let c := ej_chain j in
  next (mkCryptoChain (BlockRing_new (br_storage (block_log c)), s) (key c) (range_start c) (range_end c)
          (block_macs c)) = Ok None.

Lemma no_successor_framed d j s t ps :
  no_successor j s → chain_ok (on_disk (ej_chain j) s) ps → framed d s t →
  bs_disjoint d (br_storage (block_log (ej_chain j))) → no_successor j t.
Proof.
  intros Hns (? & ? & (Hv & Hn & _) & _) Hf Hd. cbn in Hv, Hn. destruct (Hf _ Hv Hd) as [Hv' Hb].
  unfold no_successor, next in *. cbn [block_log key range_end range_start block_macs] in *.
  replace (bl_read (BlockRing_new (br_storage (block_log (ej_chain j))), t) (range_end (ej_chain j)) 1)
    with (bl_read (BlockRing_new (br_storage (block_log (ej_chain j))), s) (range_end (ej_chain j)) 1).
  - revert Hns. destruct (bl_read _ _ _) as [b| |]; [|done..].
    destruct (slice b _ _) as [fb| |]; [|done..]. rewrite !bind_Ok. cbv beta zeta.
    destruct (AVAIL_BLOCK_SIZE <? _); [done|]. destruct (slice b 0 _) as [inp| |]; [|done..].
    rewrite !bind_Ok. destruct (aead_decrypt _ _ _ _ _); [|done..]. by destruct (negb _).
  - cbn. unfold BlockRing_read, ring_pos. cbn. rewrite (proj2 (Nat.eqb_neq _ _)) by lia. bind_step.
    pose proof (Nat.mod_upper_bound (range_end (ej_chain j)) (bs_nblocks (br_storage (block_log (ej_chain j)))) ltac:(lia)).
    by rewrite !bs_read_one, Hb by done.
Qed.

(** The chain [recover] opens: the same blocks, the cursor behind them. *)
Definition reopened (c : CryptoChain (BlockRing D)) : CryptoChain (BlockRing D) :=
  mkCryptoChain (set_cursor (BlockRing_new (br_storage (block_log c))) (range_end c)) (key c)
    (range_start c) (range_end c) (block_macs c).

Lemma reopened_ok c s ps : chain_ok (on_disk c s) ps → chain_ok (on_disk (reopened c) s) ps.
Proof. intros (pre & bs & Hh & Hend & Hat & Hsc). exists pre, bs. by do 3 (split; [done|]). Qed.

(** [recover] once the snapshot manager is recovered: the snapshot, then the edits behind
    the record of the MAC [mac']. *)
Lemma recover_with disk j s s' sm' mac' blocks fuel (pol : Pol) :
  SnapshotManager_recover disk s (meta j) = Ok (sm', s') → latest_mac sm' = Ok mac' →
  sn_recover_from (sm_snapshot sm') = range_start (ej_chain j) →
  layout disk (journal_places j) →
  chain_ok (on_disk (ej_chain j) s') (map payload_of blocks) → no_successor j s' →
  bs_nblocks (pl_ring (journal_places j)) < fuel →
  ∃ wb, recover fuel disk s (meta j) pol =
    Ok (mkEditJournal (replay_blocks mac' blocks (false, sn_state (sm_snapshot sm'))).2
          (reopened (ej_chain j)) sm' pol (Some []) wb, s') ∧ wbuf_ok wb [].
Proof.
  intros Hsm Hmac Hrf (_ & _ & Hr & _) Hch Hns Hfuel. cbn in Hr, Hfuel.
  pose proof (chain_ok_len _ _ _ Hch) as Hlen. rewrite length_map in Hlen.
  unfold recover. rewrite Hsm. bind_step. rewrite Hmac. bind_step.
  cbn [meta snapshot_area_nblocks journal_area_nblocks journal_area_key].
  fold (nblocks (sm_blob0 (ej_snapshots j))) in Hr. rewrite Hr. bind_step. rewrite Hrf.
  destruct Hch as (pre & bs & Hh & _ & _ & Hsc). cbn in Hh, Hsc.
  assert (Hlb : length blocks ≤ bs_nblocks (br_storage (block_log (ej_chain j)))).
  { destruct Hh as (_ & _ & Hb & _). cbn in Hb.
    destruct (sealed_chain_lengths _ _ _ _ _ Hsc) as [_ Hl]. rewrite length_map in Hl. lia. }
  unfold Recovery_new.
  rewrite (recover_loop_ok (BlockRing_new (br_storage (block_log (ej_chain j))), s') (key (ej_chain j))
             (range_start (ej_chain j)) mac' blocks fuel pre [] (block_macs (ej_chain j)) [] bs (range_start (ej_chain j))
             (false, sn_state (sm_snapshot sm'))); cbn [app length]; try done; try lia.
  2:{ by left. } 2:{ rewrite <- Hlen. exact Hns. }
  bind_step. rewrite <- Hlen. destruct (replay_blocks _ _ _) as [ap st']. cbn [off_disk block_log fst snd].
  destruct wbuf_new_ok as (wb & -> & Hwb'). bind_step. by exists wb.
Qed.

Lemma journal_recover_ok disk pl j s V blocks fuel pol :
  journal_inv disk pl j s V blocks [] → usize_ok (Datatypes.S V) = true → no_successor j s →
  bs_nblocks (pl_ring pl) < fuel →
  ∃ j', recover fuel disk s (meta j) pol = Ok (j', s) ∧ journal_inv disk pl j' s V blocks [] ∧
        ej_state j' = ej_state j ∧ ej_policy j' = pol.
Proof.
  intros (mac & rest & Hbl & Hed & _ & Hch & Hsm & Hrf & Hwb & Hst & Hpl & Hlay) HV Hns Hfuel. subst pl.
  pose proof Hlay as (H0 & H1 & Hr & Hn1 & _). cbn in H0, H1, Hr, Hn1.
  destruct (sm_recover_ok disk (ej_snapshots j) s V mac (meta j)) as (buf & Hrec & Hbuf); try done.
  set (sm' := mkSnapshotManager _ _ _ buf _) in Hrec.
  assert (Hsm' : sm_ok sm' s V mac).
  { destruct Hsm as (v0 & v1 & m0 & m1 & sn0 & sn1 & ? & ? & ? & ? & _ & Hl).
    exists v0, v1, m0, m1, sn0, sn1. by do 5 (split; [done|]). }
  destruct (recover_with disk j s s sm' mac blocks fuel pol Hrec) as (wb & -> & Hwb'); try done.
  { by eapply latest_mac_ok. }
  rewrite (replay_inv mac rest blocks _ Hbl Hed). eexists. split; [done|].
  rewrite app_nil_r in Hst. split; [|by rewrite Hst].
  exists mac, rest. do 3 (split; [done || constructor|]). split; [by apply reopened_ok|].
  split; [done|]. split; [done|]. split; [done|]. split; [by rewrite app_nil_r|done].
Qed.

(** ** Formatting *)
Lemma sm_create_ok k0 k1 disk s st max :
  let n := snapshot_nblocks max in
  bs_valid disk s → 2 * n < bs_nblocks disk →
  HEADER_NBYTES + length (snapshot_bytes (mkSnapshot st 0)) ≤ n * BLOCK_SIZE →
  ∃ sm s' mac, SnapshotManager_create k0 k1 disk s st max = Ok (sm, s') ∧ sm_ok sm s' 0 mac ∧
    sm_snapshot sm = mkSnapshot st 0 ∧
    bs_subset disk 0 n = Ok (cb_block_set (sm_blob0 sm)) ∧
    bs_subset disk n (n * 2) = Ok (cb_block_set (sm_blob1 sm)) ∧
    nblocks (sm_blob0 sm) = n ∧ nblocks (sm_blob1 sm) = n ∧
    ∀ d, bs_valid d s → bs_disjoint (cb_block_set (sm_blob0 sm)) d →
         bs_disjoint (cb_block_set (sm_blob1 sm)) d → bs_valid d s'.
Proof.
  intros n Hv Hn Hfit. unfold SnapshotManager_create. fold n.
  rewrite (proj2 (Nat.leb_gt _ _)) by lia.
  assert (Hn0 : 0 < n) by (destruct n; unfold HEADER_NBYTES in *; lia).
  destruct (Buf_alloc_ok 0 n Hn0) as (buf & -> & Hbuf). bind_step.
  destruct (to_slice_ok (snapshot_bytes (mkSnapshot st 0)) buf ltac:(lia)) as (buf' & -> & Hb'). cbn [ok_or]. bind_step.
  destruct (subset_ok disk s 0 n Hv ltac:(lia) ltac:(lia)) as (d0 & Hd0 & Hv0 & Hn0').
  destruct (subset_ok disk s n (n * 2) Hv ltac:(lia) ltac:(lia)) as (d1 & Hd1 & Hv1 & Hn1').
  rewrite Hd0. bind_step. rewrite Hd1. bind_step.
  destruct (create_ok k0 d0 s (snapshot_bytes (mkSnapshot st 0)) Hv0) as (b0 & m0 & s0 & -> & Hset0 & Hk0 & Hb0 & Hf0).
  { by eapply nblocks_usize. } { by rewrite Hn0', Nat.sub_0_r. }
  bind_step.
  assert (Hdis : bs_disjoint d0 d1) by (eapply subset_disjoint; eauto).
  assert (Hdis' : bs_disjoint d1 d0) by (eapply subset_disjoint; eauto).
  destruct (Hf0 d1 Hv1 Hdis) as [Hv1' _].
  destruct (create_ok k1 d1 s0 (snapshot_bytes (mkSnapshot st 0)) Hv1') as (b1 & m1 & s1 & -> & Hset1 & Hk1 & Hb1 & Hf1).
  { by eapply nblocks_usize. } { rewrite Hn1'. replace (n * 2 - n) with n by lia. done. }
  bind_step. eexists _, s1, m0. split; [done|]. unfold nblocks. cbn. rewrite Hset0, Hset1.
  split; [|do 3 (split; [done|]); split; [lia|split; [lia|]]].
  - exists 0, 0, m0, m1, (mkSnapshot st 0), (mkSnapshot st 0). cbn.
    split; [eapply blob_ok_framed; [exact Hb0|exact Hf1|by rewrite Hset0]|]. split; [done|].
    split; [lia|]. split; [lia|]. split; [unfold nblocks; rewrite Hset0, Hn0'; lia|]. by left.
  - intros d Hd Hdd0 Hdd1. apply Hf1; [|done]. by apply Hf0.
Qed.

Lemma format_ok k0 k1 kj iv disk s st max pol :
  let n := snapshot_nblocks max in
  (∀ mac, length (record_bytes (Version mac)) ≤ AVAIL_BLOCK_SIZE) →
  bs_valid disk s → n * 2 + 1 < bs_nblocks disk →
  HEADER_NBYTES + length (snapshot_bytes (mkSnapshot st 0)) ≤ n * BLOCK_SIZE →
  ∃ j s' pl mac, format k0 k1 kj iv disk s st max pol = Ok (j, s') ∧
    journal_inv disk pl j s' 0 [[Version mac]] [] ∧ ej_state j = st ∧ ej_group j = Some [] ∧
    ej_policy j = on_append_journal pol 1 ∧
    bs_nblocks (pl_set0 pl) = n ∧ bs_nblocks (pl_ring pl) = bs_nblocks disk - n * 2.
Proof.
  intros n Hver Hv Hn Hfit. unfold format.
  destruct (sm_create_ok k0 k1 disk s st max Hv ltac:(fold n; lia) Hfit)
    as (sm & s1 & mac & -> & Hsm & Hsn & Hd0 & Hd1 & Hn0 & Hn1 & Hfr). fold n in Hd0, Hd1, Hn0, Hn1.
  bind_step. rewrite Hn0.
  destruct (subset_ok disk s (n * 2) (bs_nblocks disk) Hv ltac:(lia) ltac:(lia)) as (dr & Hdr & Hvr & Hnr).
  rewrite Hdr. bind_step. rewrite (latest_mac_ok _ _ _ _ Hsm). bind_step.
  destruct wbuf_new_ok as (wb & -> & Hwb). bind_step.
  destruct (wbuf_write_ok wb [] (Version mac) Hwb) as (wb' & -> & Hwb'); [simpl; apply Hver|]. cbn [app] in Hwb'. bind_step.
  rewrite (wbuf_as_slice_ok _ _ Hwb'). bind_step.
  set (c0 := CryptoChain_new (set_cursor (BlockRing_new dr) 0) kj).
  assert (Hvr1 : bs_valid dr s1) by (apply Hfr; [done|eapply subset_disjoint; eauto; lia..]).
  assert (Hch0 : chain_ok (on_disk c0 s1) []).
  { exists mac_default, []. split; [|by repeat split; constructor].
    split; [done|]. cbn. split; [lia|]. split; [lia|]. intros i b Hb. by rewrite lookup_nil in Hb. }
  destruct (chain_append_ok (on_disk c0 s1) iv [] (payload_of [Version mac]) Hch0) as (c' & Ha & Hc' & Hs' & Hk' & _).
  { rewrite payload_of_one. apply Hver. } { cbn. lia. }
  rewrite Ha. bind_step. set (pl := ((dr, kj), sm_places sm) : Places).
  assert (Hlay : layout disk pl).
  { unfold layout, nblocks in *. cbn. rewrite Hn0, Hn1, Hnr. do 2 (split; [done|]). split; [|lia].
    by replace (n * 2 + (bs_nblocks disk - n * 2)) with (bs_nblocks disk) by lia. }
  set (j0 := mkEditJournal st c0 sm pol (Some ([] : list E)) wb).
  destruct (append_keeps j0 s1 0 mac pl disk iv _ c' Hsm eq_refl Hlay Hvr1 Ha) as [Hsm' Hr']. cbn in Hsm', Hr'.
  assert (Hv' : bs_valid (br_storage (block_log c').1) (block_log c').2) by (by destruct Hc' as (? & ? & (? & _) & _)).
  unfold flush. cbn [bl_flush BlockRing_BlockLog]. unfold BlockRing_flush. rewrite bs_flush_ok by done. bind_step.
  cbn [off_disk block_log fst snd key range_start range_end block_macs].
  eexists _, _, pl, mac. split; [done|]. split; [|by repeat split].
  exists mac, []. split; [done|]. do 2 (split; [constructor|]). cbn -[payload_of map].
  split; [unfold on_disk; cbn -[payload_of map]; rewrite <- surjective_pairing; by destruct c'|].
  split; [done|]. split; [by rewrite Hsn, Hs'|]. split; [by eapply wbuf_clear_ok|]. split; [by rewrite Hsn|].
  split; [|done]. unfold journal_places. cbn. by rewrite Hr', Hk'.
Qed.

(** ** Runs *)
Inductive jcmd :=
  | CAdd (e : E)
  | CAbort
  | CCommit (iv1 iv2 : Iv)
  | CFlush (iv1 iv2 : Iv).

Definition exec (js : EditJournal D E S Pol * St) (c : jcmd) : res (EditJournal D E S Pol * St) :=
  let '(j, s) := js in
  match c with
  | CAdd e => Ok (add j e, s)
  | CAbort => Ok (abort j, s)
  | CCommit iv1 iv2 => commit j s iv1 iv2
  | CFlush iv1 iv2 => flush_journal j s iv1 iv2
  end.

(** What the journal promises: a state, and the edits not yet committed. *)
Definition spec_exec (a : S * list E) (c : jcmd) : S * list E :=
  match c with
  | CAdd e => (a.1, a.2 ++ [e])
  | CAbort => (a.1, [])
  | CCommit _ _ => (group_apply a.2 a.1, [])
  | CFlush _ _ => a
  end.

(** Every state snapshotted fits a blob of [n] blocks, every group a block. *)
Fixpoint cmds_ok (n : nat) (a : S * list E) (cmds : list jcmd) : Prop :=
  match cmds with
  | [] => True
  | c :: cmds =>
      match c with
      | CCommit _ _ => fits_in n a.1 ∧ length (record_bytes (REdit a.2)) ≤ AVAIL_BLOCK_SIZE
      | CFlush _ _ => fits_in n a.1
      | _ => True
      end ∧ cmds_ok n (spec_exec a c) cmds
  end.

(** The journal [j] on disk [s] implements the abstract state [a]. *)
Definition implements disk pl j s V (a : S * list E) : Prop :=
  (∃ blocks recs, journal_inv disk pl j s V blocks recs ∧
                  pol_ok (ej_policy j) (length blocks) (bs_nblocks (pl_ring pl))) ∧
  ej_state j = a.1 ∧ default [] (ej_group j) = a.2.

Lemma cmds_ok_app n a c1 c2 :
  cmds_ok n a (c1 ++ c2) → cmds_ok n a c1 ∧ cmds_ok n (fold_left spec_exec c1 a) c2.
Proof.
  revert a. induction c1 as [|c c1 IH]; intros a; [done|]. cbn. intros [Hc Hr]. apply IH in Hr as [H1 H2]. done.
Qed.

Lemma exec_ok disk pl j s V a c :
  (∀ mac, length (record_bytes (Version mac)) ≤ AVAIL_BLOCK_SIZE) →
  implements disk pl j s V a → usize_ok (Datatypes.S V) = true →
  cmds_ok (bs_nblocks (pl_set0 pl)) a [c] →
  ∃ j' s' V', exec (j, s) c = Ok (j', s') ∧ V' ≤ Datatypes.S V ∧ implements disk pl j' s' V' (spec_exec a c).
Proof.
  intros Hver ((blocks & recs & Hinv & Hpol) & Hst & Hg) HV [Hok _]. destruct a as [st g]. cbn in Hst, Hg. subst st g.
  destruct c as [e| |iv1 iv2|iv1 iv2]; cbn [exec spec_exec].
  - eexists _, s, V. split; [done|]. split; [lia|]. split; [by exists blocks, recs|done].
  - eexists _, s, V. split; [done|]. split; [lia|]. split; [by exists blocks, recs|].
    split; [done|]. cbn. by destruct (ej_group j).
  - destruct Hok as [Hfit Hlen].
    destruct (commit_ok disk pl j s V blocks recs iv1 iv2 Hver Hinv HV Hfit Hpol Hlen)
      as (j' & s' & V' & bl' & rs' & Hc & HV' & Hinv' & Hpol' & Hst' & Hg').
    exists j', s', V'. split; [done|]. split; [done|]. split; [by exists bl', rs'|]. by rewrite Hg'.
  - destruct (flush_ok disk pl j s V blocks recs iv1 iv2 Hver Hinv HV Hok Hpol)
      as (j' & s' & V' & bl' & Hc & HV' & Hinv' & Hpol' & Hst' & Hg').
    exists j', s', V'. split; [done|]. split; [done|]. split; [by exists bl', []|]. by rewrite Hg'.
Qed.

Lemma run_ok disk pl cmds : ∀ j s V a,
  (∀ mac, length (record_bytes (Version mac)) ≤ AVAIL_BLOCK_SIZE) →
  implements disk pl j s V a → usize_ok (Datatypes.S V + length cmds) = true →
  cmds_ok (bs_nblocks (pl_set0 pl)) a cmds →
  ∃ j' s' V', foldM exec (j, s) cmds = Ok (j', s') ∧ V' ≤ V + length cmds ∧
              implements disk pl j' s' V' (fold_left spec_exec cmds a).
Proof.
  induction cmds as [|c cmds IH]; intros j s V a Hver Him HV Hok; cbn [foldM fold_left length] in *.
  { exists j, s, V. split; [done|]. split; [lia|done]. }
  destruct Hok as [Hc Hok].
  destruct (exec_ok disk pl j s V a c Hver Him) as (j1 & s1 & V1 & -> & HV1 & Him1);
    [eapply usize_ok_le; [|exact HV]; lia|by split|].
  bind_step. destruct (IH j1 s1 V1 _ Hver Him1) as (j2 & s2 & V2 & Hr & HV2 & Him2); [|done|].
  { eapply usize_ok_le; [|exact HV]. lia. }
  exists j2, s2, V2. split; [done|]. split; [lia|done].
Qed.

Lemma meta_places j j' : journal_places j = journal_places j' → meta j = meta j'.
Proof. unfold journal_places, sm_places, meta, nblocks. intros [= H1 H2 H3 H4 _ H6]. by rewrite H1, H2, H3, H4, H6. Qed.

(** Formatting and running: the invariant holds, with an empty write buffer. *)
Lemma format_run_inv k0 k1 kj iv iv1 iv2 disk s st max (pol : Pol) cmds :
  let n := snapshot_nblocks max in
  let final := fold_left spec_exec cmds (st, []) in
  (∀ mac, length (record_bytes (Version mac)) ≤ AVAIL_BLOCK_SIZE) →
  bs_valid disk s → n * 2 + 1 < bs_nblocks disk →
  pol_ok (on_append_journal pol 1) 1 (bs_nblocks disk - n * 2) →
  usize_ok (2 + length cmds) = true → fits_in n st →
  cmds_ok n (st, []) (cmds ++ [CFlush iv1 iv2]) →
  ∃ j1 s1 j2 s2 pl V blocks,
    format k0 k1 kj iv disk s st max pol = Ok (j1, s1) ∧
    foldM exec (j1, s1) (cmds ++ [CFlush iv1 iv2]) = Ok (j2, s2) ∧
    journal_inv disk pl j2 s2 V blocks [] ∧ usize_ok (Datatypes.S V) = true ∧
    ej_state j2 = final.1 ∧ meta j1 = meta j2 ∧ bs_nblocks (pl_ring pl) ≤ bs_nblocks disk.
Proof.
  intros n final Hver Hv Hn Hpol Hu Hfit Hok.
  destruct (format_ok k0 k1 kj iv disk s st max pol Hver Hv Hn (Hfit 0))
    as (j1 & s1 & pl & mac & Hfmt & Hinv & Hst & Hg & Hp & Hn0 & Hnr). fold n in Hn0, Hnr.
  assert (Him : implements disk pl j1 s1 0 (st, [])).
  { split; [|by rewrite Hg]. exists [[Version mac]], []. split; [done|]. by rewrite Hp, Hnr. }
  rewrite <- Hn0 in Hok. apply cmds_ok_app in Hok as [Hok1 Hok2].
  destruct (run_ok disk pl cmds j1 s1 0 (st, []) Hver Him) as (j & s' & V & Hrun & HV & Him');
    [eapply usize_ok_le; [|exact Hu]; lia|done|].
  fold final in Him', Hok2. destruct Him' as ((blocks & recs & Hinv' & Hpol') & Hst' & Hg').
  assert (HVu : usize_ok (Datatypes.S (Datatypes.S V)) = true) by (eapply usize_ok_le; [|exact Hu]; lia).
  destruct Hok2 as [Hfit' _]. rewrite <- Hst' in Hfit'.
  destruct (flush_ok disk pl j s' V blocks recs iv1 iv2 Hver Hinv') as (j2 & s2 & V2 & bl2 & Hfl & HV2 & Hinv2 & _ & Hst2 & _);
    [eapply usize_ok_le; [|exact HVu]; lia|done|done|].
  exists j1, s1, j2, s2, pl, V2, bl2. split; [done|]. split.
  { rewrite foldM_app, Hrun. bind_step. cbn [foldM exec]. rewrite Hfl. by bind_step. }
  split; [done|]. split; [eapply usize_ok_le; [|exact HVu]; lia|]. split; [by rewrite Hst2|]. split; [|lia].
  apply meta_places. destruct Hinv as (? & ? & ?). destruct Hinv2 as (? & ? & ?). intuition congruence.
Qed.
End journal_spec.

(** * Claims *)

(** C8: an edit journal formatted with a state and driven by any sequence of [add], [abort],
    [commit] and [flush] (compactions included, under a policy that keeps it within
    its area) never fails and represents the state of the committed groups; after a
    final [flush], [recover] on that disk, with the metadata [format] produced, ends and
    gives exactly that state back. *)
Theorem journal_recovers {A : Aead} {HA : AeadSpec A} {F : FooterPod A} {HF : FooterPodSpec A F}
    {B : BlobPod A} {HB : BlobPodSpec A B} {P : Pages} {HP : PagesSpec P}
    {D St : Type} {HS : BlockSet D St} {HSS : BlockSetSpec D St} {HSL : BlockSetLayout D St}
    {E S : Type} {HE : Edit E S} {C : Postcard A E S} {HC : PostcardSpec A E S}
    {Pol : Type} {HPol : CompactPolicy E Pol} {HPS : PolicySpec E Pol}
    (k0 k1 kj : Key) (iv iv1 iv2 : Iv) (disk : D) (s : St) (st : S) (max : nat) (pol pol' : Pol)
    (cmds : list jcmd) :
  let n := snapshot_nblocks max in
  let final := fold_left spec_exec cmds (st, []) in
  (∀ mac, length (record_bytes (Version mac)) ≤ AVAIL_BLOCK_SIZE) →
  bs_valid disk s → n * 2 + 1 < bs_nblocks disk →
  pol_ok (on_append_journal pol 1) 1 (bs_nblocks disk - n * 2) →
  usize_ok (2 + length cmds) = true → fits_in n st →
  cmds_ok n (st, []) (cmds ++ [CFlush iv1 iv2]) →
  ∃ j1 s1 j2 s2,
    format k0 k1 kj iv disk s st max pol = Ok (j1, s1) ∧
    foldM exec (j1, s1) (cmds ++ [CFlush iv1 iv2]) = Ok (j2, s2) ∧
    ej_state j2 = final.1 ∧
    (no_successor j2 s2 → ∀ fuel, bs_nblocks disk < fuel →
       ∃ j3, recover fuel disk s2 (meta j1) pol' = Ok (j3, s2) ∧ ej_state j3 = final.1).
Proof.
  intros n final Hver Hv Hn Hpol Hu Hfit Hok.
  destruct (format_run_inv k0 k1 kj iv iv1 iv2 disk s st max pol cmds Hver Hv Hn Hpol Hu Hfit Hok)
    as (j1 & s1 & j2 & s2 & pl & V & blocks & Hfmt & Hrun & Hinv & HV & Hst & Hmeta & Hring).
  exists j1, s1, j2, s2. do 3 (split; [done|]). intros Hns fuel Hfuel. rewrite Hmeta.
  destruct (journal_recover_ok disk pl j2 s2 V blocks fuel pol' Hinv HV Hns) as (j3 & Hrec & _ & Hst3 & _); [lia|].
  exists j3. split; [done|]. by rewrite Hst3.
Qed.

(** a compaction interrupted while it writes snapshot blob 1 (the spare copy when blob 0
    is the latest) loses nothing: whatever the block set of blob 1 then holds, as long as
    it does not decrypt, [recover] rebuilds it from blob 0 and gives the same state. *)
Theorem torn_blob1_recovers {A : Aead} {HA : AeadSpec A} {F : FooterPod A} {HF : FooterPodSpec A F}
    {B : BlobPod A} {HB : BlobPodSpec A B} {P : Pages} {HP : PagesSpec P}
    {D St : Type} {HS : BlockSet D St} {HSS : BlockSetSpec D St} {HSL : BlockSetLayout D St}
    {E S : Type} {HE : Edit E S} {C : Postcard A E S} {HC : PostcardSpec A E S}
    {Pol : Type} {HPol : CompactPolicy E Pol}
    (disk : D) (pl : Places) (j : EditJournal D E S Pol) (s t : St) (V : nat)
    (blocks : list (list (JRecord E))) (e : Errno) (fuel : nat) (pol : Pol) :
  journal_inv disk pl j s V blocks [] → sm_latest_index (ej_snapshots j) = 0 →
  framed (pl_set1 pl) s t → bs_valid (pl_set1 pl) t →
  CryptoBlob.read (CryptoBlob.open (cb_key (sm_blob1 (ej_snapshots j))) (pl_set1 pl)) t
    (bs_nblocks (pl_set0 pl) * BLOCK_SIZE) = Err e →
  no_successor j s → bs_nblocks (pl_ring pl) < fuel →
  ∃ j' t' V', recover fuel disk t (meta j) pol = Ok (j', t') ∧ ej_state j' = ej_state j ∧
    journal_inv disk pl j' t' V' blocks [].
Proof.
  intros (mac & rest & Hbl & Hed & _ & Hch & Hsm & Hrf & Hwb & Hst & Hpl & Hlay) Hidx Hft Hvt Hread Hns Hfuel.
  destruct (layout_disjoint _ _ Hlay) as ((Hd01 & Hd10) & _ & (_ & Hd1r)).
  pose proof Hlay as (H0 & H1 & Hr & Hn1 & _). subst pl. cbn in *.
  destruct Hsm as (v0 & v1 & m0 & m1 & sn0 & sn1 & Hb0 & _ & _ & _ & _ & [(_ & _ & -> & ->)|(Hi & _)]); [|congruence].
  destruct (sm_recover_torn1 disk (ej_snapshots j) t v0 mac e (meta j) (sm_snapshot (ej_snapshots j)))
    as (sm' & t' & Hrec & Hsm' & Hsn & Hplc & Hf'); try assumption; try reflexivity.
  { by eapply blob_ok_framed. }
  assert (Hft' : framed (cb_block_set (sm_blob1 (ej_snapshots j))) s t') by (by eapply framed_trans).
  assert (Hcht : chain_ok (on_disk (ej_chain j) t') (map payload_of blocks)) by (by eapply chain_ok_framed).
  destruct (recover_with disk j t t' sm' mac blocks fuel pol Hrec) as (wb & -> & Hwb'); try assumption.
  { by eapply latest_mac_ok. } { by rewrite Hsn. } { by eapply no_successor_framed. }
  rewrite (replay_inv mac rest blocks _ Hbl Hed), Hsn. rewrite app_nil_r in Hst.
  eexists _, t', v0. split; [done|]. split; [by rewrite Hst|].
  exists mac, rest. do 3 (split; [done || constructor|]). split; [by apply reopened_ok|].
  split; [done|]. split; [cbn; by rewrite Hsn|]. split; [done|]. split; [cbn; by rewrite app_nil_r, Hsn|].
  split; [|done]. unfold journal_places. cbn. by rewrite Hplc.
Qed.

(** C37: the same interruption while blob 0 is written loses every edit since the latest
    snapshot, which is blob 1's: [recover] rebuilds blob 0 under its own key, takes it
    for the latest, and finds no record of its MAC in the journal. *)
Theorem torn_blob0_loses_edits {A : Aead} {HA : AeadSpec A} {F : FooterPod A} {HF : FooterPodSpec A F}
    {B : BlobPod A} {HB : BlobPodSpec A B} {P : Pages} {HP : PagesSpec P}
    {D St : Type} {HS : BlockSet D St} {HSS : BlockSetSpec D St} {HSL : BlockSetLayout D St}
    {E S : Type} {HE : Edit E S} {C : Postcard A E S} {HC : PostcardSpec A E S}
    {Pol : Type} {HPol : CompactPolicy E Pol}
    (disk : D) (pl : Places) (j : EditJournal D E S Pol) (s t : St) (V : nat)
    (blocks : list (list (JRecord E))) (e : Errno) (fuel : nat) (pol : Pol) :
  journal_inv disk pl j s V blocks [] → sm_latest_index (ej_snapshots j) = 1 →
  framed (pl_set0 pl) s t → bs_valid (pl_set0 pl) t →
  CryptoBlob.read (CryptoBlob.open (cb_key (sm_blob0 (ej_snapshots j))) (pl_set0 pl)) t
    (bs_nblocks (pl_set0 pl) * BLOCK_SIZE) = Err e →
  (∀ v c m, version_id (sm_blob1 (ej_snapshots j)) = Some v →
     aead_encrypt (snapshot_bytes (sm_snapshot (ej_snapshots j))) (cb_key (sm_blob0 (ej_snapshots j)))
       (version_iv v) [] = Ok (c, m) → latest_mac (ej_snapshots j) ≠ Ok m) →
  no_successor j s → bs_nblocks (pl_ring pl) < fuel →
  ∃ j' t', recover fuel disk t (meta j) pol = Ok (j', t') ∧
    ej_state j' = sn_state (sm_snapshot (ej_snapshots j)) ∧
    ej_state j = replay_edits (concat (tail blocks)) (sn_state (sm_snapshot (ej_snapshots j))).
Proof.
  intros (mac & rest & Hbl & Hed & _ & Hch & Hsm & Hrf & Hwb & Hst & Hpl & Hlay) Hidx Hft Hvt Hread Hmac Hns Hfuel.
  destruct (layout_disjoint _ _ Hlay) as ((Hd01 & Hd10) & _ & (Hd0r & _)).
  pose proof Hlay as (H0 & H1 & Hr & Hn1 & _). subst pl. cbn in *.
  rewrite (latest_mac_ok _ _ _ _ Hsm) in Hmac.
  destruct Hsm as (v0 & v1 & m0 & m1 & sn0 & sn1 & _ & Hb1 & _ & _ & _ & [(Hi & _)|(_ & _ & -> & ->)]); [congruence|].
  destruct (sm_recover_torn0 disk (ej_snapshots j) t v1 mac e (meta j) (sm_snapshot (ej_snapshots j)))
    as (sm' & t' & c & m' & Hrec & Hlm & Henc & Hsn & Hf'); unfold nblocks; rewrite ?Hn1; try assumption; try reflexivity.
  { by eapply blob_ok_framed. }
  assert (Hft' : framed (cb_block_set (sm_blob0 (ej_snapshots j))) s t') by (by eapply framed_trans).
  assert (Hcht : chain_ok (on_disk (ej_chain j) t') (map payload_of blocks)) by (by eapply chain_ok_framed).
  destruct (recover_with disk j t t' sm' m' blocks fuel pol Hrec Hlm) as (wb & -> & Hwb'); try assumption.
  { by rewrite Hsn. } { by eapply no_successor_framed. }
  rewrite (replay_other m' mac rest blocks); [|intros ->; eapply Hmac; [unfold version_id; by rewrite (proj2 Hb1)|exact Henc|done]|done|done].
  eexists _, t'. split; [done|]. split; [cbn; by rewrite Hsn|]. rewrite Hbl. cbn. by rewrite app_nil_r in Hst.
Qed.

(** ** A concrete journal of sums, for the witnesses and the counterexamples *)
Module ToyJournal.
#[local] Existing Instance ToyAead.toy.
#[local] Existing Instance ToyAead.toy_spec.
#[local] Existing Instance ToyAead.toy_footer.
#[local] Existing Instance ToyAead.toy_footer_spec.
#[local] Existing Instance ToyBlob.toy_header.
#[local] Existing Instance ToyBlob.toy_header_spec.
#[local] Existing Instance zero_pages.

#[local] Instance add_edit : Edit Z Z := Z.add.

#[local] Instance codec : Postcard ToyAead.toy Z Z := {|
  record_bytes r := match r with
                    | Version m => [0; m]%Z
                    | REdit g => 1%Z :: Z.of_nat (length g) :: g
                    end;
  take_record b := match b with
                   | 0%Z :: m :: rest => Some (Version m, rest)
                   | 1%Z :: n :: rest =>
                       if Z.to_nat n <=? length rest
                       then Some (REdit (take (Z.to_nat n) rest), drop (Z.to_nat n) rest) else None
                   | _ => None
                   end;
  snapshot_bytes sn := [sn_state sn; Z.of_nat (sn_recover_from sn)];
  snapshot_from_bytes b := match b with [st; n] => Some (mkSnapshot st (Z.to_nat n)) | _ => None end;
|}.

#[local] Instance codec_spec : PostcardSpec ToyAead.toy Z Z.
Proof.
  split.
  - intros [m|g] rest; [done|]. cbn. rewrite Nat2Z.id, length_app, (proj2 (Nat.leb_le _ _)) by lia.
    by rewrite take_app_length, drop_app_length.
  - intros [|[|[| |]|] [|n rest0]] r rest; try done; cbn.
    + intros [= <- <-]. simpl. lia.
    + case_match; [|done]. intros [= <- <-]. rewrite length_drop. lia.
  - intros [st n]. cbn. by rewrite Nat2Z.id.
Qed.

Notation Journal := (EditJournal MemDisk Z Z DefaultCompactPolicy).

(** Two blobs of a block each and a ring of three. *)
Definition disk5 : MemDisk := mkMemDisk 0 5.
Definition zeros5 : list byte := replicate (5 * BLOCK_SIZE) 0%Z.
Definition policy5 : DefaultCompactPolicy := mkDefaultCompactPolicy 0 3.

Definition formatted : res (Journal * list byte) :=
  format 1%Z 2%Z 3%Z 100%Z disk5 zeros5 0%Z 16 policy5.

(** Add [i] and 1, commit them and flush. *)
Definition round (i : nat) : list jcmd :=
  [CAdd (Z.of_nat i); CAdd 1%Z; CCommit (Z.of_nat (4 * i)) (Z.of_nat (4 * i + 1));
   CFlush (Z.of_nat (4 * i + 2)) (Z.of_nat (4 * i + 3))].

Definition drive (cmds : list jcmd) (js : Journal * list byte) : res (Journal * list byte) := foldM exec js cmds.
Definition rounds (l : list nat) : Journal * list byte → res (Journal * list byte) := drive (concat (map round l)).

Definition reopen (s : list byte) (m : EditJournalMeta ToyAead.toy) : res (Journal * list byte) :=
  recover 6 disk5 s m (DefaultCompactPolicy_from_meta m).

Definition reopen5 (s : list byte) (m : EditJournalMeta ToyAead.toy) : res (Journal * list byte) :=
  recover 6 disk5 s m policy5.

(** The last flush of a run apart, as the theorems have it. *)
Definition run_flush (cmds : list jcmd) : res (Journal * list byte) :=
  js ← formatted; drive (cmds ++ [CFlush 98%Z 99%Z]) js.

Lemma version_fits (mac : Z) : length (record_bytes (Version mac)) ≤ AVAIL_BLOCK_SIZE.
Proof. apply Nat.leb_le. vm_compute. reflexivity. Qed.

Lemma disk5_valid : md_valid disk5 zeros5.
Proof.
  split; [cbn; lia|]. unfold zeros5. rewrite length_replicate. split; [cbn [disk5 region_end]; lia|].
  vm_compute. reflexivity.
Qed.

Lemma disk5_layout : snapshot_nblocks 16 = 1 ∧ bs_nblocks disk5 = 5.
Proof. split; vm_compute; reflexivity. Qed.

Lemma all_fit st : fits_in 1 st.
Proof. intros k. apply Nat.leb_le. vm_compute. reflexivity. Qed.

Lemma group_fits (g : list Z) : length g ≤ 100 → length (record_bytes (REdit g)) ≤ AVAIL_BLOCK_SIZE.
Proof.
  intros Hg. cbn. transitivity 200; [lia|]. apply Nat.leb_le. vm_compute. reflexivity.
Qed.

(** A run whose groups are small satisfies the size conditions. *)
Lemma rounds_ok l st : cmds_ok 1 (st, []) (concat (map round l) ++ [CFlush 98%Z 99%Z]).
Proof.
  revert st. induction l as [|i l IH]; intros st; [by split; [apply all_fit|]|]. cbn [map concat round app cmds_ok spec_exec].
  do 2 (split; [done|]). split; [split; [apply all_fit|apply group_fits; simpl; lia]|].
  split; [apply all_fit|]. apply IH.
Qed.

(** The facts about a finished run that evaluation gives. *)
Definition run_test (cmds : list jcmd) (test : Journal → list byte → bool) : bool :=
  match run_flush cmds with Ok (j, s) => test j s | _ => false end.

Definition no_successor_test (j : Journal) (s : list byte) : bool :=
  let c := ej_chain j in
  match next (mkCryptoChain (BlockRing_new (br_storage (block_log c)), s) (key c) (range_start c) (range_end c)
                (block_macs c)) with Ok None => true | _ => false end.

Lemma no_successor_test_ok j s : no_successor_test j s = true → no_successor j s.
Proof.
  unfold no_successor_test, no_successor. destruct (next _) as [[?|]| |]; [discriminate|reflexivity|discriminate..].
Qed.

Lemma run_inv l : usize_ok (2 + length (concat (map round l))) = true →
  ∃ j s pl V blocks, run_flush (concat (map round l)) = Ok (j, s) ∧ journal_inv disk5 pl j s V blocks [] ∧
    bs_nblocks (pl_ring pl) ≤ 5.
Proof.
  intros Hu. destruct disk5_layout as [Hn Hd].
  destruct (format_run_inv (A := ToyAead.toy) (HSL := MemDisk_layout) 1%Z 2%Z 3%Z 100%Z 98%Z 99%Z disk5 zeros5 0%Z 16 policy5 (concat (map round l)))
    as (j1 & s1 & j2 & s2 & pl & V & blocks & Hf & Hr & Hinv & _ & _ & _ & Hring); rewrite ?Hn, ?Hd.
  - exact version_fits.
  - exact disk5_valid.
  - lia.
  - cbn. lia.
  - exact Hu.
  - apply all_fit.
  - apply rounds_ok.
  - exists j2, s2, pl, V, blocks. split; [|split; [exact Hinv|by rewrite Hd in Hring]].
    unfold run_flush, formatted. rewrite Hf, bind_Ok. exact Hr.
Qed.

(** [t] is [s] with the block set [d] of one block zeroed. *)
Lemma zeroed d s : md_valid d s → MemDisk_nblocks d = 1 →
  ∃ t, MemDisk_write d s 0 (replicate BLOCK_SIZE 0%Z) = Ok t ∧ framed d s t ∧ md_valid d t.
Proof.
  intros Hv Hn. assert (Hb : is_buf 1 (replicate BLOCK_SIZE 0%Z)) by (split; [lia|rewrite length_replicate; lia]).
  destruct (bs_write_ok (BlockSetSpec := MemDisk_spec) d s 0 1 _ Hv Hb) as (t & Hw & Ht & _); [change (0 + 1 ≤ MemDisk_nblocks d); lia|].
  exists t. split; [exact Hw|]. split; [|exact Ht]. refine (write_framed _ _ _ 0 1 _ Hv Hb _ Hw).
  change (0 + 1 ≤ MemDisk_nblocks d). lia.
Qed.

Lemma journal_inv_valid pl (j : Journal) s V blocks :
  journal_inv disk5 pl j s V blocks [] → md_valid (pl_set0 pl) s ∧ md_valid (pl_set1 pl) s ∧
  pl_set0 pl = cb_block_set (sm_blob0 (ej_snapshots j)) ∧ pl_set1 pl = cb_block_set (sm_blob1 (ej_snapshots j)).
Proof.
  intros (mac & rest & _ & _ & _ & _ & Hsm & _ & _ & _ & <- & _).
  destruct Hsm as (v0 & v1 & m0 & m1 & sn0 & sn1 & [[H0 _] _] & [[H1 _] _] & _).
  split; [exact H0|]. split; [exact H1|]. split; reflexivity.
Qed.

Definition dm (d : MemDisk) (a b : nat) : bool := (region_start d =? a) && (region_end d =? b).
Lemma dm_ok d a b : dm d a b = true → d = mkMemDisk a b.
Proof. destruct d. unfold dm. cbn. rewrite andb_true_iff, !Nat.eqb_eq. by intros [-> ->]. Qed.

Definition unreadable (b : CryptoBlob MemDisk) (d : MemDisk) (s : list byte) : bool :=
  match MemDisk_write d s 0 (replicate BLOCK_SIZE 0%Z) with
  | Ok t => match CryptoBlob.read (CryptoBlob.open (cb_key b) d) t BLOCK_SIZE with
            | Err DecryptFailed => true | _ => false end
  | _ => false
  end.

Definition torn1_test (j : Journal) (s : list byte) : bool :=
  dm (cb_block_set (sm_blob0 (ej_snapshots j))) 0 1 && dm (cb_block_set (sm_blob1 (ej_snapshots j))) 1 2 &&
  (sm_latest_index (ej_snapshots j) =? 0) && unreadable (sm_blob1 (ej_snapshots j)) (mkMemDisk 1 2) s &&
  no_successor_test j s && (ej_state j =? 2)%Z.

Definition torn0_test (j : Journal) (s : list byte) : bool :=
  dm (cb_block_set (sm_blob0 (ej_snapshots j))) 0 1 && (sm_latest_index (ej_snapshots j) =? 1) &&
  unreadable (sm_blob0 (ej_snapshots j)) (mkMemDisk 0 1) s && no_successor_test j s &&
  (ej_state j =? 9)%Z && (sn_state (sm_snapshot (ej_snapshots j)) =? 5)%Z &&
  match version_id (sm_blob1 (ej_snapshots j)), latest_mac (ej_snapshots j) with
  | Some v, Ok mac => negb (mac =? ToyAead.toy_mac (cb_key (sm_blob0 (ej_snapshots j))) (Z.of_nat v)
                               (snapshot_bytes (sm_snapshot (ej_snapshots j))) [])%Z
  | _, _ => false
  end.

Lemma unreadable_inv b d s t :
  unreadable b d s = true → MemDisk_write d s 0 (replicate BLOCK_SIZE 0%Z) = Ok t →
  CryptoBlob.read (CryptoBlob.open (cb_key b) d) t BLOCK_SIZE = Err DecryptFailed.
Proof.
  unfold unreadable. intros Hu Hw. rewrite Hw in Hu.
  destruct (CryptoBlob.read _ _ _) as [|[]|]; congruence.
Qed.

(** [DefaultCompactPolicy::from_meta] after two blocks are in use, then two more rounds
    and another reboot: the states before and after it. *)
Definition stale_policy : res (Z * Z) :=
  js ← formatted; '(j, s) ← rounds [1] js;
  js ← reopen s (meta j);
  '(j, s) ← rounds [7; 8] js;
  '(j', _) ← reopen s (meta j);
  Ok (ej_state j, ej_state j').

(** A crash inside [compact], after the snapshot is persisted and before the record
    of its MAC is appended; then a reboot, one more round and another reboot: the states
    after the first reboot, after the round and after the second reboot. *)
Definition interrupted_compaction : res (Z * Z * Z) :=
  js ← formatted; '(j, s) ← rounds [1] js;
  '(_, s) ← SnapshotManager_persist (ej_snapshots j) s (mkSnapshot (ej_state j) (range_end (ej_chain j)));
  js ← reopen s (meta j);
  '(j', s) ← rounds [7] js;
  '(j'', _) ← reopen s (meta j);
  Ok (ej_state (fst js), ej_state j', ej_state j'').
End ToyJournal.


(** a crash between the two writes of a compaction loses no edit at once, but the journal
    reopened after it never gets a record of the snapshot's MAC: what is committed and
    flushed from then on is lost at the next reboot. *)
Theorem interrupted_compaction_loses_edits :
  ToyJournal.interrupted_compaction = Ok (2, 10, 2)%Z.
Proof. vm_compute. reflexivity. Qed.

Lemma journal_recovers_witness :
  ∃ j1 s1 j2 s2 j3, ToyJournal.formatted = Ok (j1, s1) ∧
    ToyJournal.drive (concat (map ToyJournal.round [1; 2; 3]) ++ [CFlush (A := ToyAead.toy) 98%Z 99%Z]) (j1, s1) = Ok (j2, s2) ∧
    ToyJournal.reopen5 s2 (meta (A := ToyAead.toy) j1) = Ok (j3, s2) ∧ ej_state (A := ToyAead.toy) j3 = 9%Z.
Proof.
  destruct (journal_recovers (HA := ToyAead.toy_spec) (HF := ToyAead.toy_footer_spec) (HB := ToyBlob.toy_header_spec)
              (HP := zero_pages_spec) (HSL := MemDisk_layout) (HE := ToyJournal.add_edit) (HC := ToyJournal.codec_spec) (HPS := DefaultCompact_spec Z)
              1%Z 2%Z 3%Z 100%Z 98%Z 99%Z ToyJournal.disk5 ToyJournal.zeros5 0%Z 16 ToyJournal.policy5 ToyJournal.policy5
              (concat (map ToyJournal.round [1; 2; 3]))) as (j1 & s1 & j2 & s2 & Hf & Hr & Hst & Hrec).
  - exact ToyJournal.version_fits.
  - exact ToyJournal.disk5_valid.
  - rewrite (proj1 ToyJournal.disk5_layout), (proj2 ToyJournal.disk5_layout). lia.
  - rewrite (proj1 ToyJournal.disk5_layout), (proj2 ToyJournal.disk5_layout). cbn. lia.
  - vm_compute. reflexivity.
  - rewrite (proj1 ToyJournal.disk5_layout). apply ToyJournal.all_fit.
  - rewrite (proj1 ToyJournal.disk5_layout). apply ToyJournal.rounds_ok.
  - assert (Ht : ToyJournal.run_test (concat (map ToyJournal.round [1; 2; 3])) ToyJournal.no_successor_test = true)
      by (vm_compute; reflexivity).
    unfold ToyJournal.run_test, ToyJournal.run_flush, ToyJournal.formatted, ToyJournal.drive in Ht.
    rewrite Hf, bind_Ok, Hr in Ht. apply ToyJournal.no_successor_test_ok in Ht.
    destruct (Hrec Ht 6) as (j3 & Hj3 & Hst3); [rewrite (proj2 ToyJournal.disk5_layout); lia|].
    exists j1, s1, j2, s2, j3. exact (conj Hf (conj Hr (conj Hj3 Hst3))).
Defined.

Lemma torn_blob1_recovers_witness :
  ∃ j s t j' t', ToyJournal.run_flush (concat (map ToyJournal.round [1])) = Ok (j, s) ∧
    MemDisk_write (mkMemDisk 1 2) s 0 (replicate BLOCK_SIZE 0%Z) = Ok t ∧
    ToyJournal.reopen5 t (meta (A := ToyAead.toy) j) = Ok (j', t') ∧ ej_state (A := ToyAead.toy) j' = 2%Z.
Proof.
  destruct (ToyJournal.run_inv [1]) as (j & s & pl & V & blocks & Hrun & Hinv & Hring); [vm_compute; reflexivity|].
  assert (Ht : ToyJournal.run_test (concat (map ToyJournal.round [1])) ToyJournal.torn1_test = true) by (vm_compute; reflexivity).
  unfold ToyJournal.run_test in Ht. rewrite Hrun in Ht. unfold ToyJournal.torn1_test in Ht.
  rewrite !andb_true_iff in Ht. destruct Ht as (((((Hd0 & Hd1) & Hi) & Hu) & Hns) & Hst).
  destruct (ToyJournal.journal_inv_valid _ _ _ _ _ Hinv) as (_ & Hv1 & Hp0 & Hp1).
  apply ToyJournal.dm_ok in Hd0, Hd1. rewrite Hd0 in Hp0. rewrite Hd1 in Hp1. rewrite Hp1 in Hv1.
  destruct (ToyJournal.zeroed _ _ Hv1 eq_refl) as (t & Hw & Hf & Hvt).
  destruct (torn_blob1_recovers (HA := ToyAead.toy_spec) (HF := ToyAead.toy_footer_spec) (HB := ToyBlob.toy_header_spec)
              (HP := zero_pages_spec) (HSL := MemDisk_layout) (HE := ToyJournal.add_edit) (HC := ToyJournal.codec_spec)
              ToyJournal.disk5 pl j s t V blocks DecryptFailed 6 ToyJournal.policy5) as (j' & t' & V' & Hr & Hs & _).
  - exact Hinv.
  - apply Nat.eqb_eq. exact Hi.
  - rewrite Hp1. exact Hf.
  - rewrite Hp1. exact Hvt.
  - rewrite Hp1, Hp0. cbn [bs_nblocks MemDisk_BlockSet MemDisk_nblocks]. 
    change (MemDisk_nblocks (mkMemDisk 0 1)) with 1. rewrite Nat.mul_1_l. exact (ToyJournal.unreadable_inv _ _ _ _ Hu Hw).
  - apply ToyJournal.no_successor_test_ok. exact Hns.
  - lia.
  - exists j, s, t, j', t'. split; [exact Hrun|]. split; [exact Hw|]. split; [exact Hr|].
    rewrite Hs. apply Z.eqb_eq. exact Hst.
Defined.

(** Groups committed after the snapshot (9 in all) are gone: the state is the snapshot's. *)
Lemma torn_blob0_loses_edits_witness :
  ∃ j s t j' t', ToyJournal.run_flush (concat (map ToyJournal.round [1; 2; 3])) = Ok (j, s) ∧
    MemDisk_write (mkMemDisk 0 1) s 0 (replicate BLOCK_SIZE 0%Z) = Ok t ∧
    ToyJournal.reopen5 t (meta (A := ToyAead.toy) j) = Ok (j', t') ∧
    ej_state (A := ToyAead.toy) j = 9%Z ∧ ej_state (A := ToyAead.toy) j' = 5%Z.
Proof.
  destruct (ToyJournal.run_inv [1; 2; 3]) as (j & s & pl & V & blocks & Hrun & Hinv & Hring); [vm_compute; reflexivity|].
  assert (Ht : ToyJournal.run_test (concat (map ToyJournal.round [1; 2; 3])) ToyJournal.torn0_test = true) by (vm_compute; reflexivity).
  unfold ToyJournal.run_test in Ht. rewrite Hrun in Ht. unfold ToyJournal.torn0_test in Ht.
  rewrite !andb_true_iff in Ht. destruct Ht as ((((((Hd0 & Hi) & Hu) & Hns) & Hst) & Hsn) & Hm).
  destruct (ToyJournal.journal_inv_valid _ _ _ _ _ Hinv) as (Hv0 & _ & Hp0 & _).
  apply ToyJournal.dm_ok in Hd0. rewrite Hd0 in Hp0. rewrite Hp0 in Hv0.
  destruct (ToyJournal.zeroed _ _ Hv0 eq_refl) as (t & Hw & Hf & Hvt).
  destruct (torn_blob0_loses_edits (HA := ToyAead.toy_spec) (HF := ToyAead.toy_footer_spec) (HB := ToyBlob.toy_header_spec)
              (HP := zero_pages_spec) (HSL := MemDisk_layout) (HE := ToyJournal.add_edit) (HC := ToyJournal.codec_spec)
              ToyJournal.disk5 pl j s t V blocks DecryptFailed 6 ToyJournal.policy5) as (j' & t' & Hr & Hs & _).
  - exact Hinv.
  - apply Nat.eqb_eq. exact Hi.
  - rewrite Hp0. exact Hf.
  - rewrite Hp0. exact Hvt.
  - rewrite Hp0. cbn [bs_nblocks MemDisk_BlockSet]. change (MemDisk_nblocks (mkMemDisk 0 1)) with 1.
    rewrite Nat.mul_1_l. exact (ToyJournal.unreadable_inv _ _ _ _ Hu Hw).
  - intros v c m Hvv Henc Hl. rewrite Hvv, Hl in Hm. injection Henc as _ Hmac.
    apply negb_true_iff, Z.eqb_neq in Hm. apply Hm. symmetry. exact Hmac.
  - apply ToyJournal.no_successor_test_ok. exact Hns.
  - lia.
  - exists j, s, t, j', t'. split; [exact Hrun|]. split; [exact Hw|]. split; [exact Hr|].
    split; [apply Z.eqb_eq; exact Hst|]. rewrite Hs. apply Z.eqb_eq. exact Hsn.
Defined.
