(* ===== verification/TxLogState.v ===== *)
(** * TxLogState: the persistent state of [core/src/layers/3-log/tx_log.rs] and its edits

    [TxLogStoreState] has two tables, of the logs and of the logs of each bucket; a TX collects
    its changes in a [TxLogStoreEdit], which its commit, and later a replay of the journal,
    applies.  A [HashMap] is iterated in an order of its own: [edit_apply] takes the entries as
    a list, and the theorems hold for every order.  [tables_ok] says that the tables agree. *)
From stdpp Require Import strings.
From S2P Require Import Prelude Bio CryptoChain CryptoLog.

Section state.
Context {A : Aead}.

(** ** The state *)
Record TxLogEntry := mkTxLogEntry { te_bucket : string; te_key : Key; te_root_mht : RootMhtMeta A }.

Record TxLogStoreState := mkTxLogStoreState {
  log_table : gmap nat TxLogEntry;
  bucket_table : gmap string (gset nat);
}.

Definition TxLogStoreState_new : TxLogStoreState := mkTxLogStoreState ∅ ∅.

(** The [match] on the bucket that [create_log] and [move_log] end with. *)
Definition bucket_insert (bucket : string) (log_id : nat) (t : gmap string (gset nat)) : gmap string (gset nat) :=
  match t !! bucket with
  | Some log_ids => <[bucket := {[log_id]} ∪ log_ids]> t
  | None => <[bucket := {[log_id]}]> t
  end.

Definition bucket_remove (bucket : string) (log_id : nat) (t : gmap string (gset nat)) : gmap string (gset nat) :=
  match t !! bucket with
  | Some log_ids => <[bucket := log_ids ∖ {[log_id]}]> t
  | None => t
  end.

Definition state_create_log (st : TxLogStoreState) (new_log_id : nat) (bucket : string) (key : Key)
    (root_mht : RootMhtMeta A) : res TxLogStoreState :=
  _ ← assert_ (bool_decide (log_table st !! new_log_id = None));
  Ok (mkTxLogStoreState (<[new_log_id := mkTxLogEntry bucket key root_mht]> (log_table st))
        (bucket_insert bucket new_log_id (bucket_table st))).

Definition find_log (st : TxLogStoreState) (log_id : nat) : res TxLogEntry :=
  ok_or (log_table st !! log_id) NotFound.

(** [TxLogStoreState::list_logs_in]. *)
Definition state_list_logs_in (st : TxLogStoreState) (bucket : string) : res (gset nat) :=
  ok_or (bucket_table st !! bucket) NotFound.

Definition contains_log (st : TxLogStoreState) (log_id : nat) : bool :=
  bool_decide (is_Some (log_table st !! log_id)).

Definition state_append_log (st : TxLogStoreState) (log_id : nat) (root_mht : RootMhtMeta A) : res TxLogStoreState :=
  entry ← unwrap (log_table st !! log_id);
  Ok (mkTxLogStoreState (<[log_id := mkTxLogEntry (te_bucket entry) (te_key entry) root_mht]> (log_table st))
        (bucket_table st)).

Definition state_delete_log (st : TxLogStoreState) (log_id : nat) : TxLogStoreState :=
  match log_table st !! log_id with
  | Some entry =>
      mkTxLogStoreState (delete log_id (log_table st)) (bucket_remove (te_bucket entry) log_id (bucket_table st))
  | None => st
  end.

Definition state_move_log (st : TxLogStoreState) (log_id : nat) (from_bucket to_bucket : string)
    : res TxLogStoreState :=
  entry ← unwrap (log_table st !! log_id);
  _ ← assert_ (bool_decide (te_bucket entry = from_bucket));
  let logs := <[log_id := mkTxLogEntry to_bucket (te_key entry) (te_root_mht entry)]> (log_table st) in
  _ ← unwrap (bucket_table st !! from_bucket);
  Ok (mkTxLogStoreState logs (bucket_insert to_bucket log_id (bucket_remove from_bucket log_id (bucket_table st)))).

(** ** The edit of a TX *)
Inductive TxLogEdit :=
  | Create (bucket : string) (key : Key) (root_mht : option (RootMhtMeta A))
  | Append (root_mht : RootMhtMeta A)
  | Delete
  | Move (from to : string).

Record TxLogStoreEdit := mkTxLogStoreEdit { edit_table : gmap nat TxLogEdit }.

Definition TxLogStoreEdit_new : TxLogStoreEdit := mkTxLogStoreEdit ∅.

(** An insertion that must not replace an edit. *)
Definition edit_insert_new (e : TxLogStoreEdit) (log_id : nat) (edit : TxLogEdit) : res TxLogStoreEdit :=
  _ ← assert_ (bool_decide (edit_table e !! log_id = None));
  Ok (mkTxLogStoreEdit (<[log_id := edit]> (edit_table e))).

Definition edit_create_log (e : TxLogStoreEdit) (log_id : nat) (bucket : string) (key : Key) : res TxLogStoreEdit :=
  edit_insert_new e log_id (Create bucket key None).

Definition edit_append_log (e : TxLogStoreEdit) (log_id : nat) (root_mht : RootMhtMeta A) : res TxLogStoreEdit :=
  edit_insert_new e log_id (Append root_mht).

Definition edit_delete_log (e : TxLogStoreEdit) (log_id : nat) : res TxLogStoreEdit :=
  match edit_table e !! log_id with
  | None | Some (Create _ _ _) | Some (Move _ _) => Ok (mkTxLogStoreEdit (<[log_id := Delete]> (edit_table e)))
  | Some (Append _) => Panic
  | Some Delete => Panic
  end.

Definition edit_move_log (e : TxLogStoreEdit) (log_id : nat) (from_bucket to_bucket : string) : res TxLogStoreEdit :=
  edit_insert_new e log_id (Move from_bucket to_bucket).

Definition is_log_created (e : TxLogStoreEdit) (log_id : nat) : bool :=
  match edit_table e !! log_id with
  | Some (Create _ _ _) | Some (Append _) | Some (Move _ _) => true
  | None | Some Delete => false
  end.

Definition is_log_deleted (e : TxLogStoreEdit) (log_id : nat) : bool :=
  match edit_table e !! log_id with Some Delete => true | _ => false end.

Definition iter_created_logs (entries : list (nat * TxLogEdit)) : list nat :=
  omap (λ '(id, edit), match edit with Create _ _ _ => Some id | _ => None end) entries.

Definition iter_deleted_logs (entries : list (nat * TxLogEdit)) : list nat :=
  omap (λ '(id, edit), match edit with Delete => Some id | _ => None end) entries.

Definition update_log_meta (e : TxLogStoreEdit) (log_id : nat) (meta : RootMhtMeta A) : res TxLogStoreEdit :=
  match edit_table e !! log_id with
  | None | Some Delete | Some (Move _ _) => Panic
  | Some (Create bucket key _) => Ok (mkTxLogStoreEdit (<[log_id := Create bucket key (Some meta)]> (edit_table e)))
  | Some (Append _) => Ok (mkTxLogStoreEdit (<[log_id := Append meta]> (edit_table e)))
  end.

Definition edit_is_empty (e : TxLogStoreEdit) : bool := bool_decide (edit_table e = ∅).

(** One step of [TxLogStoreEdit::apply_to]. *)
Definition apply_edit (st : TxLogStoreState) (entry : nat * TxLogEdit) : res TxLogStoreState :=
  let '(log_id, log_edit) := entry in
  match log_edit with
  | Create bucket key root_mht =>
      root_mht ← unwrap root_mht;
      state_create_log st log_id bucket key root_mht
  | Append root_mht => state_append_log st log_id root_mht
  | Delete => Ok (state_delete_log st log_id)
  | Move from to => state_move_log st log_id from to
  end.

Definition edit_apply (entries : list (nat * TxLogEdit)) (st : TxLogStoreState) : res TxLogStoreState :=
  foldM apply_edit st entries.

(** ** What a TX sees *)

(** [TxLogStore::do_contain_log]. *)
Definition do_contain_log (log_id : nat) (st : TxLogStoreState) (e : TxLogStoreEdit) : bool :=
  if contains_log st log_id then negb (is_log_deleted e log_id) else is_log_created e log_id.

(** [TxLogStore::list_logs_in]: the ids, in no particular order. *)
Definition list_logs_in (bucket_name : string) (st : TxLogStoreState) (entries : list (nat * TxLogEdit))
    : res (gset nat) :=
  log_id_set ← state_list_logs_in st bucket_name;
  Ok (foldl (λ ids '(log_id, log_edit),
        match log_edit with
        | Create bucket _ _ => if bool_decide (bucket = bucket_name) then {[log_id]} ∪ ids else ids
        | Append _ | Move _ _ => ids
        | Delete => if bool_decide (log_id ∈ ids) then ids ∖ {[log_id]} else ids
        end) log_id_set entries).
End state.
Arguments TxLogEntry : clear implicits.
Arguments TxLogEntry _ : clear implicits.
Arguments TxLogStoreState : clear implicits.
Arguments TxLogStoreState _ : clear implicits.
Arguments TxLogEdit : clear implicits.
Arguments TxLogEdit _ : clear implicits.
Arguments TxLogStoreEdit : clear implicits.
Arguments TxLogStoreEdit _ : clear implicits.

(** ** The tables agree *)
Section tables.
Context {A : Aead}.
Implicit Types (st : TxLogStoreState A) (en : TxLogEntry A) (ed : TxLogEdit A) (e : TxLogStoreEdit A) (b : string).
Implicit Types (entries : list (nat * TxLogEdit A)).

Definition bucket_ids (t : gmap string (gset nat)) b : gset nat := default ∅ (t !! b).

Definition tables_ok st : Prop :=
  ∀ b id, id ∈ bucket_ids (bucket_table st) b ↔ ∃ en, log_table st !! id = Some en ∧ te_bucket en = b.

Lemma tables_ok_new : tables_ok (TxLogStoreState_new (A := A)).
Proof. intros b id. unfold bucket_ids. cbn. rewrite !lookup_empty. set_solver. Qed.

Lemma bucket_ids_insert b id t b' j : j ∈ bucket_ids (bucket_insert b id t) b' ↔ (b' = b ∧ j = id) ∨ j ∈ bucket_ids t b'.
Proof.
  unfold bucket_insert, bucket_ids. destruct (decide (b' = b)) as [->|Hne].
  - destruct (t !! b) eqn:E; rewrite lookup_insert_eq; cbn; set_solver.
  - destruct (t !! b); rewrite lookup_insert_ne by done; set_solver.
Qed.

Lemma bucket_ids_remove b id t b' j : j ∈ bucket_ids (bucket_remove b id t) b' ↔ ¬ (b' = b ∧ j = id) ∧ j ∈ bucket_ids t b'.
Proof.
  unfold bucket_remove, bucket_ids. destruct (t !! b) as [ids|] eqn:E.
  - destruct (decide (b' = b)) as [->|Hne]; [rewrite lookup_insert_eq, E|rewrite lookup_insert_ne by done]; set_solver.
  - destruct (decide (b' = b)) as [->|Hne]; [rewrite E|]; set_solver.
Qed.

Lemma bucket_insert_some b id t b' : is_Some (bucket_insert b id t !! b') ↔ is_Some (t !! b') ∨ b' = b.
Proof.
  unfold bucket_insert. destruct (decide (b' = b)) as [->|Hne].
  - destruct (t !! b); rewrite lookup_insert_eq; naive_solver.
  - destruct (t !! b); rewrite lookup_insert_ne by done; naive_solver.
Qed.

Lemma bucket_remove_some b id t b' : is_Some (bucket_remove b id t !! b') ↔ is_Some (t !! b').
Proof.
  unfold bucket_remove. destruct (t !! b) eqn:E; [|done]. destruct (decide (b' = b)) as [->|Hne].
  - rewrite lookup_insert_eq, E. naive_solver.
  - by rewrite lookup_insert_ne.
Qed.

(** States with the same logs and the same buckets are equal. *)
Lemma tables_ok_eq st1 st2 :
  tables_ok st1 → tables_ok st2 → log_table st1 = log_table st2 →
  (∀ b, is_Some (bucket_table st1 !! b) ↔ is_Some (bucket_table st2 !! b)) → st1 = st2.
Proof.
  intros H1 H2 Hl Hb. destruct st1 as [l1 b1], st2 as [l2 b2]. cbn in *. subst l2. f_equal. apply map_eq. intros b.
  assert (Hids : bucket_ids b1 b = bucket_ids b2 b).
  { apply set_eq. intros id. by rewrite (H1 b id), (H2 b id). }
  unfold bucket_ids in Hids. specialize (Hb b). destruct (b1 !! b) as [x|], (b2 !! b) as [y|]; cbn in Hids; subst; try done.
  - destruct (proj1 Hb ltac:(by eexists)). done.
  - destruct (proj2 Hb ltac:(by eexists)). done.
Qed.

(** ** One edit *)

(** What an edit makes of the entry of its log; [None] where it does not fit. *)
Definition edit_entry ed (o : option (TxLogEntry A)) : option (option (TxLogEntry A)) :=
  match ed, o with
  | Create b k (Some r), None => Some (Some (mkTxLogEntry b k r))
  | Append r, Some en => Some (Some (mkTxLogEntry (te_bucket en) (te_key en) r))
  | Delete, _ => Some None
  | Move from to, Some en => if decide (te_bucket en = from) then Some (Some (mkTxLogEntry to (te_key en) (te_root_mht en))) else None
  | _, _ => None
  end.

(** The buckets an edit may create. *)
Definition adds_bucket ed b : Prop :=
  match ed with Create b' _ _ => b = b' | Move _ to => b = to | _ => False end.

Lemma apply_edit_ok st id ed :
  tables_ok st →
  match edit_entry ed (log_table st !! id) with
  | Some o => ∃ st', apply_edit st (id, ed) = Ok st' ∧ tables_ok st' ∧
      log_table st' = partial_alter (λ _, o) id (log_table st) ∧
      ∀ b, is_Some (bucket_table st' !! b) ↔ is_Some (bucket_table st !! b) ∨ adds_bucket ed b
  | None => apply_edit st (id, ed) = Panic
  end.
Proof.
  intros Hok. destruct ed as [b k [r|]|r| |f t]; cbn [apply_edit edit_entry]; try done.
  - unfold state_create_log. destruct (log_table st !! id) as [en|] eqn:E; [done|].
    rewrite bool_decide_eq_true_2 by done. eexists. split; [done|]. split; [|split; [done|intros; apply bucket_insert_some]].
    intros b' j. cbn. rewrite bucket_ids_insert, (Hok b' j). destruct (decide (j = id)) as [->|Hne].
    + rewrite lookup_insert_eq, E. naive_solver.
    + rewrite lookup_insert_ne by done. naive_solver.
  - unfold state_append_log. destruct (log_table st !! id) as [en|] eqn:E; [|done].
    eexists. split; [done|]. split; [|split; [done|cbn; naive_solver]].
    intros b' j. cbn. rewrite (Hok b' j). destruct (decide (j = id)) as [->|Hne].
    + rewrite lookup_insert_eq, E. split; intros (x & [= <-] & Hb); [exists (mkTxLogEntry (te_bucket en) (te_key en) r)|exists en]; naive_solver.
    + by rewrite lookup_insert_ne.
  - unfold state_delete_log. destruct (log_table st !! id) as [en|] eqn:E.
    + eexists. split; [done|]. split; [|split; [done|cbn; intros b; rewrite bucket_remove_some; tauto]].
      intros b' j. cbn. rewrite bucket_ids_remove, (Hok b' j). destruct (decide (j = id)) as [->|Hne].
      * rewrite lookup_delete_eq, E. naive_solver.
      * rewrite lookup_delete_ne by done. naive_solver.
    + exists st. split; [done|]. split; [done|]. split; [|cbn; tauto].
      change (log_table st = delete id (log_table st)). by rewrite delete_id.
  - unfold state_move_log. destruct (log_table st !! id) as [en|] eqn:E; [|done]. cbn [unwrap]. bind_step.
    case_decide as Hf; [|by rewrite bool_decide_eq_false_2]. rewrite bool_decide_eq_true_2 by done. cbn [assert_]. bind_step.
    assert (Hin : id ∈ bucket_ids (bucket_table st) f) by (apply Hok; eauto). unfold bucket_ids in Hin.
    destruct (bucket_table st !! f) as [ids|] eqn:Ef; [|set_solver]. cbn [unwrap]. bind_step.
    eexists. split; [done|]. split; [|split; [done|cbn; intros b; rewrite bucket_insert_some, bucket_remove_some; done]].
    intros b' j. cbn. rewrite bucket_ids_insert, bucket_ids_remove, (Hok b' j). destruct (decide (j = id)) as [->|Hne].
    + rewrite lookup_insert_eq, E. naive_solver.
    + rewrite lookup_insert_ne by done. naive_solver.
Qed.

(** ** All edits of a TX *)

(** The logs after the edits [m], each of which fits the entry of its log. *)
Definition edits_fit (m : gmap nat (TxLogEdit A)) st : Prop :=
  ∀ id ed, m !! id = Some ed → is_Some (edit_entry ed (log_table st !! id)).

Definition edited (m : gmap nat (TxLogEdit A)) (logs : gmap nat (TxLogEntry A)) : gmap nat (TxLogEntry A) :=
  merge (λ oe o, match oe with Some ed => default None (edit_entry ed o) | None => o end) m logs.

Lemma lookup_edited m logs id :
  edited m logs !! id = match m !! id with Some ed => default None (edit_entry ed (logs !! id)) | None => logs !! id end.
Proof. unfold edited. rewrite lookup_merge. destruct (m !! id), (logs !! id); done. Qed.
(** The edits [entries], in this order. *)
Definition edits_result (m : gmap nat (TxLogEdit A)) st st' : Prop :=
  tables_ok st' ∧ log_table st' = edited m (log_table st) ∧
  ∀ b, is_Some (bucket_table st' !! b) ↔ is_Some (bucket_table st !! b) ∨ ∃ id ed, m !! id = Some ed ∧ adds_bucket ed b.

Lemma edits_fit_cons id ed m st st1 o :
  m !! id = None → edit_entry ed (log_table st !! id) = Some o → log_table st1 = partial_alter (λ _, o) id (log_table st) →
  edits_fit (<[id := ed]> m) st ↔ edits_fit m st1.
Proof.
  intros Hm Ho Hl. unfold edits_fit. split; intros H j x Hj.
  - assert (j ≠ id) by (intros ->; congruence). rewrite Hl, lookup_partial_alter_ne by done.
    apply H. by rewrite lookup_insert_ne.
  - destruct (decide (j = id)) as [->|Hne].
    + rewrite lookup_insert_eq in Hj. injection Hj as <-. rewrite Ho. by eexists.
    + rewrite lookup_insert_ne in Hj by done. specialize (H j x Hj). by rewrite Hl, lookup_partial_alter_ne in H.
Qed.

Lemma edits_result_cons id ed m st st1 st' o :
  m !! id = None → edit_entry ed (log_table st !! id) = Some o → log_table st1 = partial_alter (λ _, o) id (log_table st) →
  (∀ b, is_Some (bucket_table st1 !! b) ↔ is_Some (bucket_table st !! b) ∨ adds_bucket ed b) →
  edits_result m st1 st' → edits_result (<[id := ed]> m) st st'.
Proof.
  intros Hm Ho Hl Hb (Hok & Hl' & Hb'). split; [done|]. split.
  - rewrite Hl', Hl. apply map_eq. intros j. rewrite !lookup_edited. destruct (decide (j = id)) as [->|Hne].
    + by rewrite Hm, lookup_insert_eq, lookup_partial_alter_eq, Ho.
    + by rewrite lookup_insert_ne, lookup_partial_alter_ne by done.
  - intros b. rewrite Hb', Hb. split.
    + intros [[?|?]|(j & x & Hj & Hx)]; [by left|right; exists id, ed; by rewrite lookup_insert_eq|].
      right. exists j, x. split; [|done]. rewrite lookup_insert_ne; [done|]. intros ->. congruence.
    + intros [?|(j & x & Hj & Hx)]; [by left; left|]. destruct (decide (j = id)) as [->|Hne].
      * rewrite lookup_insert_eq in Hj. injection Hj as <-. left. by right.
      * rewrite lookup_insert_ne in Hj by done. right. eauto.
Qed.

Lemma edit_apply_list : ∀ entries st, tables_ok st → NoDup entries.*1 →
  (edits_fit (list_to_map entries) st → ∃ st', edit_apply entries st = Ok st' ∧ edits_result (list_to_map entries) st st') ∧
  (¬ edits_fit (list_to_map entries) st → edit_apply entries st = Panic).
Proof.
  induction entries as [|[id ed] entries IH]; intros st Hok Hnd.
  { cbn [list_to_map foldr]. split; [|intros H; destruct H; intros id ed; by rewrite lookup_empty].
    intros _. exists st. split; [done|]. split; [done|]. split.
    - apply map_eq. intros j. rewrite lookup_edited. cbn [list_to_map foldr]. by rewrite lookup_empty.
    - intros b. split; [by left|]. intros [?|(j & x & Hj & _)]; [done|]. by rewrite lookup_empty in Hj. }
  cbn [fmap list_fmap fst list_to_map foldr] in *. apply NoDup_cons in Hnd as [Hni Hnd].
  assert (Hm : (list_to_map entries : gmap nat _) !! id = None) by by apply not_elem_of_list_to_map_1.
  unfold edit_apply in *. cbn [foldM]. pose proof (apply_edit_ok st id ed Hok) as Hstep.
  destruct (edit_entry ed (log_table st !! id)) as [o|] eqn:Ho.
  - destruct Hstep as (st1 & -> & Hok1 & Hl1 & Hb1). destruct (IH st1 Hok1 Hnd) as [Hyes Hno].
    pose proof (edits_fit_cons id ed _ st st1 o Hm Ho Hl1) as Hiff. split; intros Hf.
    + destruct (Hyes (proj1 Hiff Hf)) as (st' & -> & Hr). exists st'. split; [done|]. by eapply edits_result_cons.
    + apply Hno. intros H. by apply Hf, Hiff.
  - split; intros Hf; [|by rewrite Hstep]. destruct (Hf id ed (lookup_insert_eq _ _ _)) as [o Hc]. by rewrite Ho in Hc.
Qed.

(** The entries of a table in any order of iteration. *)
Lemma iterated (m : gmap nat (TxLogEdit A)) entries :
  entries ≡ₚ map_to_list m → NoDup entries.*1 ∧ list_to_map entries = m.
Proof.
  intros Hp. assert (Hnd : NoDup entries.*1) by (rewrite Hp; apply NoDup_fst_map_to_list). split; [done|].
  rewrite (list_to_map_proper entries (map_to_list m)) by done. apply list_to_map_to_list.
Qed.

Lemma edits_result_unique m st st1 st2 : edits_result m st st1 → edits_result m st st2 → st1 = st2.
Proof.
  intros (H1 & Hl1 & Hb1) (H2 & Hl2 & Hb2). apply tables_ok_eq; [done|done|by rewrite Hl1, Hl2|].
  intros b. by rewrite Hb1, Hb2.
Qed.

Lemma edits_fit_dec m st : edits_fit m st ∨ ¬ edits_fit m st.
Proof.
  destruct (decide (map_Forall (λ id ed, is_Some (edit_entry ed (log_table st !! id))) m)) as [H|H]; [by left|by right].
Qed.

(** C25: a commit publishes the edits of its TX all together: whatever the order in which the table of
    edits is iterated, applying them changes the entry of each edited log as its edit says and no
    other entry, keeps the table of buckets in agreement with the table of logs, and panics exactly
    when some edit does not fit its log (created twice or without root, appended or moved but gone,
    moved from another bucket). *)
Theorem edit_apply_atomic st e entries :
  tables_ok st → entries ≡ₚ map_to_list (edit_table e) →
  (edits_fit (edit_table e) st → ∃ st', edit_apply entries st = Ok st' ∧ tables_ok st' ∧ log_table st' = edited (edit_table e) (log_table st)) ∧
  (¬ edits_fit (edit_table e) st → edit_apply entries st = Panic).
Proof.
  intros Hok [Hnd <-]%iterated. destruct (edit_apply_list entries st Hok Hnd) as [Hyes Hno]. split; [|done].
  intros (st' & Ha & Hr & Hl & _)%Hyes. eauto.
Qed.

Lemma edit_apply_order st m entries1 entries2 :
  tables_ok st → entries1 ≡ₚ map_to_list m → entries2 ≡ₚ map_to_list m →
  edit_apply entries1 st = edit_apply entries2 st ∧ ∀ st', edit_apply entries1 st = Ok st' → tables_ok st'.
Proof.
  intros Hok [Hnd1 H1]%iterated [Hnd2 H2]%iterated.
  destruct (edit_apply_list entries1 st Hok Hnd1) as [Hy1 Hn1], (edit_apply_list entries2 st Hok Hnd2) as [Hy2 Hn2].
  rewrite H1 in Hy1, Hn1. rewrite H2 in Hy2, Hn2. destruct (edits_fit_dec m st) as [Hf|Hf].
  - destruct (Hy1 Hf) as (st1 & -> & Hr1), (Hy2 Hf) as (st2 & -> & Hr2).
    rewrite (edits_result_unique _ _ _ _ Hr1 Hr2). split; [done|]. intros ? [= <-]. apply Hr2.
  - rewrite (Hn1 Hf), (Hn2 Hf). done.
Qed.

(** C26: replaying is faithful: the state that the journal keeps, and rebuilds at recovery, by applying the
    committed edits each in an order of its own is the live state, at any number of commits. *)
Theorem replay_equals_live st (ms : list (gmap nat (TxLogEdit A))) live replay :
  tables_ok st → Forall2 (λ m es, es ≡ₚ map_to_list m) ms live → Forall2 (λ m es, es ≡ₚ map_to_list m) ms replay →
  foldM (λ st es, edit_apply es st) st live = foldM (λ st es, edit_apply es st) st replay.
Proof.
  intros Hok Hl. revert st replay Hok. induction Hl as [|m es ms live Hes Hl IH]; intros st replay Hok Hr;
    inversion Hr as [|? es2 ? ? Hes2 Hr2]; subst; [done|].
  cbn [foldM]. destruct (edit_apply_order st m es _ Hok Hes Hes2) as [<- Hok']. destruct (edit_apply es st) as [st'| |]; [|done..].
  apply IH; [by apply Hok'|done].
Qed.

(** ** Listing a bucket *)

(** The ids [list_logs_in] adds to and takes from those of the state. *)
Lemma list_logs_fold b : ∀ entries (ids0 : gset nat), NoDup entries.*1 → ∀ id,
  id ∈ foldl (λ ids '(log_id, log_edit),
        match log_edit with
        | Create bucket _ _ => if bool_decide (bucket = b) then {[log_id]} ∪ ids else ids
        | Append _ | Move _ _ => ids
        | Delete => if bool_decide (log_id ∈ ids) then ids ∖ {[log_id]} else ids
        end) ids0 entries ↔
  match (list_to_map entries : gmap nat (TxLogEdit A)) !! id with
  | Some (Create b' _ _) => b' = b ∨ id ∈ ids0
  | Some Delete => False
  | _ => id ∈ ids0
  end.
Proof.
  induction entries as [|[j ed] entries IH]; intros ids0 Hnd id; [cbn; by rewrite lookup_empty|].
  cbn [fmap list_fmap fst list_to_map foldr foldl] in *. apply NoDup_cons in Hnd as [Hni Hnd].
  assert (Hm : (list_to_map entries : gmap nat _) !! j = None) by by apply not_elem_of_list_to_map_1.
  rewrite IH by done. destruct (decide (id = j)) as [->|Hne].
  - rewrite Hm, lookup_insert_eq. destruct ed; try done; case_bool_decide; set_solver.
  - rewrite lookup_insert_ne by done.
    assert (Hsame : ∀ X : gset nat, (id ∈ X ↔ id ∈ ids0) → match (list_to_map entries : gmap nat (TxLogEdit A)) !! id with
        | Some (Create b' _ _) => b' = b ∨ id ∈ X | Some Delete => False | _ => id ∈ X end ↔
      match (list_to_map entries : gmap nat (TxLogEdit A)) !! id with
        | Some (Create b' _ _) => b' = b ∨ id ∈ ids0 | Some Delete => False | _ => id ∈ ids0 end).
    { intros X HX. destruct (_ !! id) as [[]|]; by rewrite ?HX. }
    apply Hsame. destruct ed; try done; case_bool_decide; set_solver.
Qed.

Definition no_moves (m : gmap nat (TxLogEdit A)) : Prop := ∀ id f t, m !! id ≠ Some (Move f t).

(** what a TX that moves no log lists in a bucket the store knows is what the bucket holds once it commits. *)
Theorem list_logs_previews_commit st e entries st' b :
  tables_ok st → entries ≡ₚ map_to_list (edit_table e) → no_moves (edit_table e) → is_Some (bucket_table st !! b) →
  edit_apply entries st = Ok st' →
  ∃ ids, list_logs_in b st entries = Ok ids ∧ state_list_logs_in st' b = Ok ids.
Proof.
  intros Hok [Hnd Hm]%iterated Hmv [ids0 Hb] Ha. destruct (edit_apply_list entries st Hok Hnd) as [Hyes Hno].
  rewrite Hm in Hyes, Hno. destruct (edits_fit_dec (edit_table e) st) as [Hf|Hf]; [|by rewrite Hno in Ha].
  destruct (Hyes Hf) as (st1 & Ha1 & Hok1 & Hl1 & Hb1). rewrite Ha in Ha1. injection Ha1 as <-.
  destruct (proj2 (Hb1 b) (or_introl (ex_intro _ _ Hb))) as [ids Hids].
  unfold list_logs_in, state_list_logs_in. rewrite Hb, Hids. cbn [ok_or]. bind_step. exists ids. split; [|done]. f_equal.
  apply set_eq. intros id. rewrite (list_logs_fold b _ _ Hnd), Hm.
  assert (H0 : id ∈ ids0 ↔ ∃ en, log_table st !! id = Some en ∧ te_bucket en = b) by (rewrite <- (Hok b id); unfold bucket_ids; by rewrite Hb).
  assert (H1 : id ∈ ids ↔ ∃ en, log_table st' !! id = Some en ∧ te_bucket en = b) by (rewrite <- (Hok1 b id); unfold bucket_ids; by rewrite Hids).
  rewrite H1, Hl1, lookup_edited. specialize (Hf id). destruct (edit_table e !! id) as [ed|] eqn:Ee; [|by rewrite H0].
  destruct (Hf ed eq_refl) as [o Ho]. clear H1. destruct ed as [b' k [r|]|r| |f t], (log_table st !! id) as [en|]; cbn in Ho |- *;
    try discriminate Ho; try (by destruct (Hmv id f t)); naive_solver.
Qed.

(** a TX does not see what it moves, nor what it creates in a new bucket: the log it moved is still listed in the old bucket and
    not in the new one, and a bucket that exists only in its own edits is reported as not found. *)
Theorem list_logs_misses_edits st id b b' k en :
  tables_ok st → log_table st !! id = Some en → te_bucket en = b → b ≠ b' → is_Some (bucket_table st !! b') →
  (∃ e ids ids', edit_move_log TxLogStoreEdit_new id b b' = Ok e ∧
    list_logs_in b st (map_to_list (edit_table e)) = Ok ids ∧ id ∈ ids ∧
    list_logs_in b' st (map_to_list (edit_table e)) = Ok ids' ∧ id ∉ ids') ∧
  ∀ new id', bucket_table st !! new = None →
    ∃ e, edit_create_log TxLogStoreEdit_new id' new k = Ok e ∧ list_logs_in new st (map_to_list (edit_table e)) = Err NotFound.
Proof.
  intros Hok Hen Hb Hne [ids' Hb']. split.
  - assert (Hin : id ∈ bucket_ids (bucket_table st) b) by (apply Hok; eauto).
    assert (Hin' : id ∉ bucket_ids (bucket_table st) b') by (intros (x & Hx & Hbx)%Hok; congruence).
    unfold bucket_ids in *. rewrite Hb' in Hin'. destruct (bucket_table st !! b) as [ids|] eqn:E; [|set_solver].
    exists (mkTxLogStoreEdit {[id := Move b b']}), ids, ids'. split; [done|]. cbn [edit_table]. rewrite map_to_list_singleton.
    unfold list_logs_in, state_list_logs_in. rewrite E, Hb'. done.
  - intros new id' Hn. eexists. split; [done|]. unfold list_logs_in, state_list_logs_in. by rewrite Hn.
Qed.
End tables.

(** ** Instances *)
Module TxLogDemo.
#[local] Instance aead : Aead := ToyAead.toy.
Definition root (n : nat) : RootMhtMeta aead := mkRootMeta aead n 0%Z 0%Z.
(** Log 1 in bucket a; bucket b is empty. *)
Definition st : TxLogStoreState aead :=
  mkTxLogStoreState {[1 := mkTxLogEntry "a" (5%Z : @Key aead) (root 3)]} {["a" := {[1]}; "b" := ∅]}.
(** Log 1 is appended to and log 2 created. *)
Definition edits : TxLogStoreEdit aead :=
  mkTxLogStoreEdit {[1 := Append (root 9); 2 := Create "a" (6%Z : @Key aead) (Some (root 4))]}.

Lemma st_ok : tables_ok st.
Proof.
  intros b id. unfold bucket_ids, st. cbn [bucket_table log_table]. destruct (decide (b = "a")) as [->|Ha].
  - rewrite lookup_insert_eq. cbn. rewrite elem_of_singleton. split; [intros ->; by eexists|].
    intros (en & Hen & _). apply lookup_singleton_Some in Hen as [-> _]. done.
  - split.
    + rewrite lookup_insert_ne by done. destruct (decide (b = "b")) as [->|Hb]; [rewrite lookup_singleton_eq|rewrite lookup_singleton_ne by done]; set_solver.
    + intros (en & [_ <-]%lookup_singleton_Some & Hb). by destruct Ha.
Qed.

Lemma edits_fit_demo : edits_fit (edit_table edits) st.
Proof.
  intros id ed. unfold edits, st. cbn [edit_table log_table]. intros [[<- <-]|[Hne [<- <-]%lookup_singleton_Some]]%lookup_insert_Some.
  - by rewrite lookup_singleton_eq.
  - by rewrite lookup_singleton_ne.
Qed.
End TxLogDemo.

Lemma edit_apply_atomic_witness :
  ∃ st', edit_apply (map_to_list (edit_table TxLogDemo.edits)) TxLogDemo.st = Ok st' ∧ tables_ok st' ∧
    @te_bucket TxLogDemo.aead <$> (log_table st' !! 2) = Some "a"%string.
Proof.
  destruct (proj1 (edit_apply_atomic TxLogDemo.st TxLogDemo.edits _ TxLogDemo.st_ok (Permutation_refl _)) TxLogDemo.edits_fit_demo) as (st' & Ha & Hok & Hl).
  exists st'. split; [exact Ha|]. split; [exact Hok|]. rewrite Hl. reflexivity.
Defined.

Lemma replay_equals_live_witness :
  let es := map_to_list (edit_table TxLogDemo.edits) in
  foldM (λ st es, edit_apply es st) TxLogDemo.st [es] = foldM (λ st es, edit_apply es st) TxLogDemo.st [reverse es].
Proof.
  refine (replay_equals_live TxLogDemo.st [edit_table TxLogDemo.edits] _ _ TxLogDemo.st_ok _ _).
  - constructor; [reflexivity|constructor].
  - constructor; [apply reverse_Permutation|constructor].
Defined.

Lemma list_logs_previews_commit_witness :
  ∃ st' ids, edit_apply (map_to_list (edit_table TxLogDemo.edits)) TxLogDemo.st = Ok st' ∧
    list_logs_in "a" TxLogDemo.st (map_to_list (edit_table TxLogDemo.edits)) = Ok ids ∧ state_list_logs_in st' "a" = Ok ids.
Proof.
  destruct (proj1 (edit_apply_list (map_to_list (edit_table TxLogDemo.edits)) TxLogDemo.st TxLogDemo.st_ok (NoDup_fst_map_to_list _)))
    as (st' & Ha & _); [rewrite list_to_map_to_list; exact TxLogDemo.edits_fit_demo|].
  destruct (list_logs_previews_commit TxLogDemo.st TxLogDemo.edits _ st' "a" TxLogDemo.st_ok (Permutation_refl _)) as (ids & H1 & H2).
  - intros id f t. unfold TxLogDemo.edits. cbn [edit_table]. intros [[_ ?]|[_ [_ ?]%lookup_singleton_Some]]%lookup_insert_Some; discriminate.
  - by eexists.
  - exact Ha.
  - exists st', ids. split; [exact Ha|]. by split.
Defined.

Lemma list_logs_misses_edits_witness :
  ∃ e ids, edit_move_log TxLogStoreEdit_new 1 "a" "b" = Ok e ∧
    list_logs_in "a" TxLogDemo.st (map_to_list (edit_table e)) = Ok ids ∧ 1 ∈ ids.
Proof.
  destruct (list_logs_misses_edits TxLogDemo.st 1 "a" "b" (7%Z : @Key TxLogDemo.aead) (mkTxLogEntry "a" (5%Z : @Key TxLogDemo.aead) (TxLogDemo.root 3))
              TxLogDemo.st_ok) as [(e & ids & ids' & H1 & H2 & H3 & _) _]; [reflexivity|reflexivity|discriminate|by eexists|].
  exists e, ids. by split_and!.
Defined.
