(* ===== verification/TxLog.v ===== *)
(** * TxLog: [core/src/layers/3-log/tx_log.rs], the store of transactional logs

    The store joins the layers below: a TX log is a crypto log ([CryptoLog]) on a raw log ([RawLog])
    in chunks of the disk ([Chunk]), its metadata is in [TxLogState], and commits are journaled
    ([Journal]).  [ctx] is what the current TX works on: the shared state of the store, the context of the raw
    log store, and the data of the TX (its edit, its open logs and their caches).  [RawDev] and
    [TxCache] are the block log and the node cache that the crypto log of a TX log runs on.
    Objects behind an [Arc] ([TxLogInner], [LazyDelete]) live in tables by address, with
    their reference counts.  [HashOrder] is the order in which a [HashMap] is iterated. *)
From stdpp Require Import strings.
From S2P Require Import Prelude BitMap Bio Chunk RawLog CryptoChain CryptoLog CryptoBlob Journal TxLogState.

(** The order of iteration of a [HashMap]. *)
Class HashOrder := hash_iter : ∀ T, gmap nat T → list (nat * T).
Arguments hash_iter {_ _} _.
Class HashOrderSpec (HO : HashOrder) := hash_iter_perm T (m : gmap nat T) : hash_iter m ≡ₚ map_to_list m.

#[export] Instance list_order : HashOrder := λ _ m, map_to_list m.
#[export] Instance list_order_spec : HashOrderSpec list_order.
Proof. by intros T m. Qed.

(** ** The block log and the node cache of a TX log *)
Section dev.
Context {A : Aead} {B : Bittle} {D St : Type} {HS : BlockSet D St}.

(** A raw log with the store it lies in. *)
Record RawDev := mkRawDev { rd_disk : D; rd_log : RawLog.RawLog; rd_ctx : RawLog.ctx St }.

#[export] Instance RawDev_ops : BlockLog RawDev := {|
  bl_read l pos n := RawLog.read (rd_disk l) (rd_log l) (rd_ctx l) pos n;
  bl_append l buf :=
    '(pos, log, c) ← RawLog.append (rd_disk l) (rd_log l) buf (rd_ctx l);
    Ok (pos, mkRawDev (rd_disk l) log c);
  bl_flush l := Ok l;
  bl_nblocks l := RawLog.nblocks (rd_log l) (rd_ctx l);
|}.

Abbreviation NodeMap := (gmap nat (MhtNode A)).

(** [CryptoLogCache] of the log [tc_id]: the caches of the logs open in the TX, and [inner]. *)
Record TxCache := mkTxCache { tc_id : nat; tc_open : gmap nat NodeMap; tc_inner : NodeMap }.

#[export] Instance TxCache_ops : NodeCache A TxCache := {|
  nc_get c pos :=
    match tc_open c !! tc_id c ≫= (λ open_cache, open_cache !! pos) with
    | Some node => Ok (Some node, c)
    | None => Ok (tc_inner c !! pos, c)
    end;
  nc_put c pos node :=
    open_cache ← unwrap (tc_open c !! tc_id c);
    Ok (mkTxCache (tc_id c) (<[tc_id c := <[pos := node]> open_cache]> (tc_open c)) (tc_inner c));
|}.
End dev.
Arguments RawDev : clear implicits.
Arguments RawDev _ _ : clear implicits.
Arguments TxCache : clear implicits.
Arguments TxCache _ : clear implicits.

(** ** Journaling *)
Section journaling.
Context {A : Aead} {B : Bittle} {HO : HashOrder}.

Record AllState := mkAllState {
  chunk_alloc : ChunkAllocState;
  raw_log_store : RawLogStoreState;
  tx_log_store : TxLogStoreState A;
}.

Record AllEdit := mkAllEdit {
  ae_chunk_edit : ChunkAllocEdit;
  ae_raw_log_edit : RawLogStoreEdit;
  ae_tx_log_edit : TxLogStoreEdit A;
}.

Definition raw_edit_is_empty (e : RawLogStoreEdit) : bool := bool_decide (RawLog.log_edits e = ∅).

(** [AllEdit::apply_to]. *)
Definition all_edit_apply (e : AllEdit) (st : AllState) : res AllState :=
  tx ← (if TxLogState.edit_is_empty (ae_tx_log_edit e) then Ok (tx_log_store st)
        else TxLogState.edit_apply (hash_iter (TxLogState.edit_table (ae_tx_log_edit e))) (tx_log_store st));
  raw ← (if raw_edit_is_empty (ae_raw_log_edit e) then Ok (raw_log_store st)
         else RawLog.store_edit_apply (hash_iter (RawLog.log_edits (ae_raw_log_edit e))) (raw_log_store st));
  chunk ← (if Chunk.edit_is_empty (ae_chunk_edit e) then Ok (chunk_alloc st)
           else Chunk.apply_to (hash_iter (Chunk.edit_table (ae_chunk_edit e))) (chunk_alloc st));
  Ok (mkAllState chunk raw tx).

Definition from_chunk_edit (e : ChunkAllocEdit) : AllEdit := mkAllEdit e RawLogStoreEdit_new TxLogStoreEdit_new.
Definition from_raw_log_edit (e : RawLogStoreEdit) : AllEdit := mkAllEdit ChunkAllocEdit_new e TxLogStoreEdit_new.
Definition from_tx_log_edit (e : TxLogStoreEdit A) : AllEdit := mkAllEdit ChunkAllocEdit_new RawLogStoreEdit_new e.

(** The edits of a journal, where applying them does not panic; [journal_handler] panics otherwise. *)
#[export] Instance AllEdit_Edit : Journal.Edit AllEdit AllState := λ e st,
  match all_edit_apply e st with Ok st' => st' | _ => st end.
End journaling.
Arguments AllState : clear implicits.
Arguments AllState _ : clear implicits.
Arguments AllEdit : clear implicits.
Arguments AllEdit _ : clear implicits.

(** ** The superblock *)

(** The stream cipher of the superblock, and the bytes of the superblock, from other crates. *)
Class Skcipher (A : Aead) := {
  sk_encrypt : list byte → Key → res (list byte);
  sk_decrypt : list byte → Key → res (list byte);
}.

Record Superblock {A : Aead} := mkSuperblock {
  journal_area_meta : EditJournalMeta A;
  chunk_area_nblocks : nat;
  magic : N;
}.
Arguments Superblock : clear implicits.

Class SuperblockPod (A : Aead) := {
  sb_size : nat;
  sb_bytes : Superblock A → list byte;
  sb_from_bytes : list byte → Superblock A;
}.

Definition MAGIC_NUMBER : N := 0x11300821.

Definition sb_total_nblocks {A : Aead} (sb : Superblock A) : nat :=
  Journal.total_nblocks (journal_area_meta sb) + chunk_area_nblocks sb.

Section superblock.
Context {A : Aead} {SK : Skcipher A} {SP : SuperblockPod A} {P : Pages} {D St : Type} {HS : BlockSet D St}.

Definition sb_open (disk : D) (s : St) (root_key : Key) : res (Superblock A) :=
  cipher ← bs_read disk s 0 1;
  plain ← sk_decrypt cipher root_key;
  bytes ← slice plain 0 sb_size;
  let superblock := sb_from_bytes bytes in
  if negb (magic superblock =? MAGIC_NUMBER)%N then Err InvalidArgs else Ok superblock.

Definition sb_persist (sb : Superblock A) (disk : D) (s : St) (root_key : Key) : res St :=
  plain ← Buf_alloc 0 1;
  plain ← copy_from_slice plain 0 sb_size (sb_bytes sb);
  cipher ← sk_encrypt plain root_key;
  bs_write disk s 0 cipher.
End superblock.

(** ** The store *)
Definition calc_store_and_journal_nblocks (total_nblocks : nat) : res (nat * nat) :=
  n ← usub total_nblocks 1;
  let log_store_nblocks := align_down (n * 9 / 10) CHUNK_NBLOCKS in
  journal_nblocks ← usub n log_store_nblocks;
  _ ← assert_ (1 + log_store_nblocks + journal_nblocks <=? total_nblocks);
  Ok (log_store_nblocks, journal_nblocks).

(** [LazyDelete<TxLogId>] behind an [Arc]. *)
Record LazyDelete := mkLazyDelete { lazy_log : nat; is_deleted : bool; arc_refs : nat }.

Section store.
Context {A : Aead} {MP : MhtPod A} {R : Random A} {P : Pages} {B : Bittle} {HO : HashOrder}.
Context {F : FooterPod A} {BP : BlobPod A} {PC : Postcard A (AllEdit A) (AllState A)}.
Context {D St : Type} {HS : BlockSet D St}.
Abbreviation NodeMap := (gmap nat (MhtNode A)).
Abbreviation JournalT := (EditJournal D (AllEdit A) (AllState A) DefaultCompactPolicy).

Record State := mkState {
  persistent : TxLogStoreState A;
  lazy_deletes : gmap nat nat;       (* log -> address of its LazyDelete *)
  lazy_objs : gmap nat LazyDelete;   (* the objects, by address *)
  log_caches : gset nat;             (* the logs of the table [log_caches] *)
  caches : gmap nat NodeMap;         (* [inner] of the caches, by log *)
}.

Record TxLogInner := mkTxLogInner {
  il_log_id : nat;
  il_tx_id : nat;
  il_bucket : string;
  il_root : option (RootMhtMeta A * MhtNode A);   (* [crypto_log] *)
  il_key : Key;
  il_buf : AppendDataBuf A;
  il_raw : RawLog.RawLog;
  il_lazy : option nat;
  il_dirty : bool;
}.

Record ctx := mkCtx {
  raw : RawLog.ctx St;
  state : State;
  inners : gmap nat (TxLogInner * nat);   (* [Arc<TxLogInner>], by address, with its count *)
  journal : JournalT;
  draws : nat;                            (* random numbers drawn *)
  tx_id : nat;
  store_edit : TxLogStoreEdit A;
  open_logs : gmap nat nat;               (* [OpenLogTable]: log -> address *)
  open_caches : gmap nat NodeMap;         (* [OpenLogCache] *)
}.

(** A handle [Arc<TxLog>]. *)
Record TxLog := mkTxLog { h_inner : nat; can_append : bool }.

Definition set_raw (r : RawLog.ctx St) : io ctx unit := λ c,
  (Ok (), mkCtx r (state c) (inners c) (journal c) (draws c) (tx_id c) (store_edit c) (open_logs c) (open_caches c)).
Definition set_state (st : State) : io ctx unit := λ c,
  (Ok (), mkCtx (raw c) st (inners c) (journal c) (draws c) (tx_id c) (store_edit c) (open_logs c) (open_caches c)).
Definition set_inners (i : gmap nat (TxLogInner * nat)) : io ctx unit := λ c,
  (Ok (), mkCtx (raw c) (state c) i (journal c) (draws c) (tx_id c) (store_edit c) (open_logs c) (open_caches c)).
Definition set_journal (j : JournalT) : io ctx unit := λ c,
  (Ok (), mkCtx (raw c) (state c) (inners c) j (draws c) (tx_id c) (store_edit c) (open_logs c) (open_caches c)).
Definition set_draws (n : nat) : io ctx unit := λ c,
  (Ok (), mkCtx (raw c) (state c) (inners c) (journal c) n (tx_id c) (store_edit c) (open_logs c) (open_caches c)).
Definition set_edit (e : TxLogStoreEdit A) : io ctx unit := λ c,
  (Ok (), mkCtx (raw c) (state c) (inners c) (journal c) (draws c) (tx_id c) e (open_logs c) (open_caches c)).
Definition set_open_logs (t : gmap nat nat) : io ctx unit := λ c,
  (Ok (), mkCtx (raw c) (state c) (inners c) (journal c) (draws c) (tx_id c) (store_edit c) t (open_caches c)).
Definition set_open_caches (t : gmap nat NodeMap) : io ctx unit := λ c,
  (Ok (), mkCtx (raw c) (state c) (inners c) (journal c) (draws c) (tx_id c) (store_edit c) (open_logs c) t).

Definition with_persistent (st : State) (p : TxLogStoreState A) : State :=
  mkState p (lazy_deletes st) (lazy_objs st) (log_caches st) (caches st).
Definition with_lazy (st : State) (t : gmap nat nat) (objs : gmap nat LazyDelete) : State :=
  mkState (persistent st) t objs (log_caches st) (caches st).
Definition with_caches (st : State) (t : gset nat) (cs : gmap nat NodeMap) : State :=
  mkState (persistent st) (lazy_deletes st) (lazy_objs st) t cs.

(** A method of the raw log store. *)
Definition on_raw {T} (f : RawLog.ctx St → res (T * RawLog.ctx St)) : io ctx T :=
  c ← io_get;
  '(x, r) ← io_lift (f (raw c));
  _ ← set_raw r;
  mret x.

Definition random_key : io ctx Key :=
  c ← io_get;
  _ ← set_draws (S (draws c));
  mret (rand_key (draws c)).

(** *** Reference counts *)

(** Dropping an [Arc<LazyDelete>]: the last one of a deleted log deletes its raw log, in the current
    TX.  [tx_ok]: the data of a TX can be reached, or the access panics. *)
Definition lazy_drop (tx_ok : bool) (addr : nat) : io ctx unit :=
  c ← io_get;
  let st := state c in
  o ← io_lift (unwrap (lazy_objs st !! addr));
  if arc_refs o =? 1 then
    _ ← set_state (with_lazy st (lazy_deletes st) (delete addr (lazy_objs st)));
    if is_deleted o then
      if tx_ok then on_raw (λ r, r ← unwrap_res (RawLog.delete_log (lazy_log o) r); Ok ((), r)) else io_lift Panic
    else mret ()
  else
    set_state (with_lazy st (lazy_deletes st)
      (<[addr := mkLazyDelete (lazy_log o) (is_deleted o) (arc_refs o - 1)]> (lazy_objs st))).

Definition lazy_clone (addr : nat) : io ctx unit :=
  c ← io_get;
  let st := state c in
  o ← io_lift (unwrap (lazy_objs st !! addr));
  set_state (with_lazy st (lazy_deletes st)
    (<[addr := mkLazyDelete (lazy_log o) (is_deleted o) (arc_refs o + 1)]> (lazy_objs st))).

(** Dropping the raw log of a log; its own [LazyDelete] frees chunks in the current TX. *)
Definition raw_drop (tx_ok : bool) (l : RawLog.RawLog) : io ctx unit :=
  c ← io_get;
  let last := match RawLog.lazy_delete l ≫= (λ a, RawLog.lazy_objs (RawLog.state (raw c)) !! a) with
              | Some o => RawLog.is_deleted o && (RawLog.arc_refs o =? 1) | None => false end in
  if last && negb tx_ok then io_lift Panic
  else on_raw (λ r, r ← RawLog.drop_log l r; Ok ((), r)).

(** Dropping an [Arc<TxLogInner>]; its fields are dropped in the order of their declaration. *)
Definition inner_drop (tx_ok : bool) (addr : nat) : io ctx unit :=
  c ← io_get;
  '(il, refs) ← io_lift (unwrap (inners c !! addr));
  if refs =? 1 then
    _ ← set_inners (delete addr (inners c));
    _ ← raw_drop tx_ok (il_raw il);
    match il_lazy il with Some a => lazy_drop tx_ok a | None => mret () end
  else set_inners (<[addr := (il, refs - 1)]> (inners c)).

Definition inner_clone (addr : nat) : io ctx unit :=
  c ← io_get;
  '(il, refs) ← io_lift (unwrap (inners c !! addr));
  set_inners (<[addr := (il, refs + 1)]> (inners c)).

(** Dropping a handle within its TX. *)
Definition drop_handle (l : TxLog) : io ctx unit := inner_drop true (h_inner l).

(** A new [Arc<TxLogInner>], put in the table of open logs and returned. *)
Definition inner_new (il : TxLogInner) : io ctx nat :=
  c ← io_get;
  let addr := fresh (dom (inners c)) in
  _ ← set_inners (<[addr := (il, 2)]> (inners c));
  _ ← match open_logs c !! il_log_id il with Some old => inner_drop false old | None => mret () end;
  c ← io_get;
  _ ← set_open_logs (<[il_log_id il := addr]> (open_logs c));
  mret addr.

(** *** The crypto log of an open log *)

(** Its state, over the raw log and the cache. *)
Definition crypto_log (d : D) (il : TxLogInner) (c : ctx) : Mht A (RawDev D St) (TxCache A) :=
  mkMht (il_root il) (il_key il) (il_buf il)
    (mkStorage (mkRawDev d (il_raw il) (raw c))
       (mkTxCache (il_log_id il) (open_caches c) (default ∅ (caches (state c) !! il_log_id il))) (draws c)).

Definition update_inner (il : TxLogInner) (m : Mht A (RawDev D St) (TxCache A)) : TxLogInner :=
  mkTxLogInner (il_log_id il) (il_tx_id il) (il_bucket il) (root m) (root_key m) (data_buf m)
    (rd_log (block_log (storage m))) (il_lazy il) (il_dirty il).

(** A method of the crypto log of the log at [addr]. *)
Definition on_crypto {T} (d : D) (addr : nat) (f : io (Mht A (RawDev D St) (TxCache A)) T) : io ctx T := λ c,
  match inners c !! addr with
  | None => (Panic, c)
  | Some (il, refs) =>
      let '(r, m) := f (crypto_log d il c) in
      let st := state c in
      let cache := node_cache (storage m) in
      (r, mkCtx (rd_ctx (block_log (storage m)))
            (with_caches st (log_caches st) (<[il_log_id il := tc_inner cache]> (caches st)))
            (<[addr := (update_inner il m, refs)]> (inners c)) (journal c) (CryptoLog.draws (storage m))
            (tx_id c) (store_edit c) (open_logs c) (tc_open cache))
  end.

(** *** Creating and opening *)
Definition create_log (bucket : string) : io ctx TxLog :=
  raw_log ← on_raw RawLog.create_log;
  let log_id := RawLog.log_id raw_log in
  c ← io_get;
  let st := state c in
  _ ← set_state (with_caches st ({[log_id]} ∪ log_caches st) (<[log_id := ∅]> (caches st)));
  key ← random_key;
  b ← io_lift (AppendDataBuf_new APPEND_BUF_CAPACITY 0);
  c ← io_get;
  e ← io_lift (TxLogState.edit_create_log (store_edit c) log_id bucket key);
  _ ← set_edit e;
  addr ← inner_new (mkTxLogInner log_id (tx_id c) bucket None key b raw_log None false);
  c ← io_get;
  _ ← set_open_caches (<[log_id := ∅]> (open_caches c));
  mret (mkTxLog addr true).

(** [CryptoLog::open] on the raw log, which is dropped when it fails. *)
Definition crypto_open (d : D) (raw_log : RawLog.RawLog) (key : Key) (root_meta : RootMhtMeta A) (log_id : nat)
    : io ctx (Mht A (RawDev D St) (TxCache A)) :=
  c ← io_get;
  match CryptoLog_open (mkRawDev d raw_log (raw c)) key root_meta
          (mkTxCache log_id (open_caches c) (default ∅ (caches (state c) !! log_id))) (draws c) with
  | Ok m => _ ← set_open_caches (tc_open (node_cache (storage m))); mret m
  | Err e => _ ← raw_drop true raw_log; io_lift (Err e)
  | Panic => io_lift Panic
  end.

Definition open_inner_log (d : D) (log_id : nat) (can_append : bool) : io ctx nat :=
  c ← io_get;
  match open_logs c !! log_id with
  | Some addr => _ ← inner_clone addr; mret addr
  | None =>
      let st := state c in
      lazy_delete ← io_lift (ok_or (lazy_deletes st !! log_id) NotFound);
      log_entry ← io_lift (find_log (persistent st) log_id);
      if is_log_deleted (store_edit c) log_id then io_lift (Err NotFound) else
      _ ← set_open_caches (<[log_id := ∅]> (open_caches c));
      raw_log ← on_raw (RawLog.open_log log_id can_append);
      _ ← io_lift (assert_ (bool_decide (log_id ∈ log_caches st)));
      m ← crypto_open d raw_log (te_key log_entry) (te_root_mht log_entry) log_id;
      root_mht ← io_lift (unwrap (root_meta m));
      _ ← lazy_clone lazy_delete;
      addr ← inner_new (mkTxLogInner log_id (tx_id c) (te_bucket log_entry) (root m) (root_key m) (data_buf m)
                          raw_log (Some lazy_delete) false);
      _ ← (if can_append then
             c ← io_get;
             e ← io_lift (TxLogState.edit_append_log (store_edit c) log_id root_mht);
             set_edit e
           else mret ());
      mret addr
  end.

Definition open_log (d : D) (log_id : nat) (can_append : bool) : io ctx TxLog :=
  addr ← open_inner_log d log_id can_append;
  mret (mkTxLog addr can_append).

Definition tx_list_logs_in (bucket_name : string) : io ctx (gset nat) :=
  c ← io_get;
  io_lift (list_logs_in bucket_name (persistent (state c)) (hash_iter (TxLogState.edit_table (store_edit c)))).

(** The log with the maximum id of a bucket. *)
Definition open_log_in (d : D) (bucket : string) : io ctx TxLog :=
  log_ids ← tx_list_logs_in bucket;
  match elements log_ids with
  | [] => io_lift (Err NotFound)
  | ids => open_log d (foldr Nat.max 0 ids) false
  end.

Definition tx_contains_log (log_id : nat) : io ctx bool :=
  c ← io_get;
  mret (do_contain_log log_id (persistent (state c)) (store_edit c)).

(** *** Deleting and moving *)
Definition delete_log (log_id : nat) : io ctx unit :=
  c ← io_get;
  _ ← set_open_logs (delete log_id (open_logs c));
  _ ← match open_logs c !! log_id with Some addr => inner_drop false addr | None => mret () end;
  c ← io_get;
  _ ← set_open_caches (delete log_id (open_caches c));
  if negb (do_contain_log log_id (persistent (state c)) (store_edit c)) then io_lift (Err NotFound) else
  e ← io_lift (TxLogState.edit_delete_log (store_edit c) log_id);
  set_edit e.

Definition move_log (log_id : nat) (from_bucket to_bucket : string) : io ctx unit :=
  c ← io_get;
  _ ← io_lift (match open_logs c !! log_id ≫= (λ a, inners c !! a) with
               | Some (il, _) => assert_ (bool_decide (il_bucket il = from_bucket) && negb (il_dirty il))
               | None => Ok ()
               end);
  e ← io_lift (TxLogState.edit_move_log (store_edit c) log_id from_bucket to_bucket);
  set_edit e.

(** *** Reading and appending *)

(** The log of a handle, used in the TX that opened it. *)
Definition own_inner (l : TxLog) : io ctx TxLogInner :=
  c ← io_get;
  '(il, _) ← io_lift (unwrap (inners c !! h_inner l));
  _ ← io_lift (assert_ (il_tx_id il =? tx_id c));
  mret il.

Definition read (d : D) (l : TxLog) (pos : nat) (buf : list byte) : io ctx (list byte) :=
  _ ← own_inner l;
  on_crypto d (h_inner l) (CryptoLog.read pos buf).

Definition set_dirty (addr : nat) : io ctx unit :=
  c ← io_get;
  '(il, refs) ← io_lift (unwrap (inners c !! addr));
  set_inners (<[addr := (mkTxLogInner (il_log_id il) (il_tx_id il) (il_bucket il) (il_root il) (il_key il)
                           (il_buf il) (il_raw il) (il_lazy il) true, refs)]> (inners c)).

Definition append (d : D) (l : TxLog) (buf : list byte) : io ctx unit :=
  _ ← own_inner l;
  if negb (can_append l) then io_lift (Err PermissionDenied) else
  _ ← set_dirty (h_inner l);
  on_crypto d (h_inner l) (CryptoLog.append buf).

Definition nblocks (d : D) (l : TxLog) : io ctx nat :=
  il ← own_inner l;
  c ← io_get;
  mret (total_data_nodes (crypto_log d il c)).

(** *** The handlers of a commit *)

(** [update_dirty_log_metas]: the logs written in the TX are flushed. *)
Definition is_dirty_log (c : ctx) (entry : nat * nat) : bool :=
  match inners c !! snd entry with Some (il, _) => il_dirty il | None => false end.

Definition update_dirty_log_metas (d : D) : io ctx unit :=
  c ← io_get;
  let dirty_logs := List.filter (is_dirty_log c) (hash_iter (open_logs c)) in
  io_fold (λ _ '(log_id, addr),
    _ ← on_crypto d addr CryptoLog.flush;
    meta ← on_crypto d addr (λ m, (unwrap (root_meta m), m));
    c ← io_get;
    e ← io_lift (update_log_meta (store_edit c) log_id meta);
    set_edit e) () dirty_logs.

Definition add_lazy_delete (log_id : nat) (st : State) : State :=
  let addr := fresh (dom (lazy_objs st)) in
  with_lazy st (<[log_id := addr]> (lazy_deletes st)) (<[addr := mkLazyDelete log_id false 1]> (lazy_objs st)).

Definition add_lazy_deletes_for_created_logs (entries : list (nat * TxLogEdit A)) (st : State) : State :=
  foldl (λ st log_id, if bool_decide (is_Some (lazy_deletes st !! log_id)) then st else add_lazy_delete log_id st)
    st (iter_created_logs entries).

Definition do_lazy_deletion (entries : list (nat * TxLogEdit A)) : io ctx unit :=
  io_fold (λ _ log_id,
    c ← io_get;
    let st := state c in
    match lazy_deletes st !! log_id with
    | None => mret ()
    | Some addr =>
        o ← io_lift (unwrap (lazy_objs st !! addr));
        let st := with_lazy st (delete log_id (lazy_deletes st))
                    (<[addr := mkLazyDelete (lazy_log o) true (arc_refs o)]> (lazy_objs st)) in
        _ ← set_state (with_caches st (log_caches st ∖ {[log_id]}) (caches st));
        lazy_drop true addr
    end) () (iter_deleted_logs entries).

(** [apply_log_caches]: the loop ends with the first log whose cache is empty. *)
Fixpoint apply_log_caches (entries : list (nat * NodeMap)) : io ctx unit :=
  match entries with
  | [] => mret ()
  | (log_id, open_cache) :: entries =>
      c ← io_get;
      let st := state c in
      _ ← io_lift (assert_ (bool_decide (log_id ∈ log_caches st)));
      let cache_inner := default ∅ (caches st !! log_id) in
      if bool_decide (cache_inner = ∅) then
        _ ← set_state (with_caches st (log_caches st) (<[log_id := open_cache]> (caches st)));
        set_open_caches (<[log_id := cache_inner]> (open_caches c))
      else
        _ ← set_state (with_caches st (log_caches st) (<[log_id := open_cache ∪ cache_inner]> (caches st)));
        apply_log_caches entries
  end.

Definition commit_handler : io ctx unit :=
  c ← io_get;
  let entries := hash_iter (TxLogState.edit_table (store_edit c)) in
  _ ← (if TxLogState.edit_is_empty (store_edit c) then mret () else
       p ← io_lift (edit_apply entries (persistent (state c)));
       set_state (add_lazy_deletes_for_created_logs entries (with_persistent (state c) p)));
  c ← io_get;
  _ ← apply_log_caches (hash_iter (open_caches c));
  do_lazy_deletion entries.

(** The handler of [register_commit_handler_for_journal]. *)
Definition journal_edits (c : ctx) : list (AllEdit A) :=
  (if TxLogState.edit_is_empty (store_edit c) then [] else [from_tx_log_edit (store_edit c)]) ++
  (if raw_edit_is_empty (RawLog.store_edit (raw c)) then [] else [from_raw_log_edit (RawLog.store_edit (raw c))]) ++
  (if Chunk.edit_is_empty (RawLog.chunk_edit (raw c)) then [] else [from_chunk_edit (RawLog.chunk_edit (raw c))]).

Definition journal_handler : io ctx unit :=
  c ← io_get;
  let j := foldl Journal.add (journal c) (journal_edits c) in
  _ ← io_lift (foldM (λ st e, all_edit_apply e st) (ej_state j) (default [] (ej_group j)));
  '(j, s) ← io_lift (unwrap_res (Journal.commit j (RawLog.disk_store (raw c)) (rand_iv (draws c)) (rand_iv (S (draws c)))));
  _ ← set_raw (RawLog.with_disk (raw c) s);
  _ ← set_draws (S (S (draws c)));
  set_journal j.

(** The handlers of the raw log store and of the chunk allocator. *)
Definition raw_commit : io ctx unit :=
  on_raw (λ r, r ← RawLog.store_commit_handler (hash_iter (RawLog.log_edits (RawLog.store_edit r))) r; Ok ((), r)).

Definition chunk_commit : io ctx unit :=
  on_raw (λ r, cs ← Chunk.commit_handler (RawLog.chunk_edit r) (hash_iter (Chunk.edit_table (RawLog.chunk_edit r)))
                      (RawLog.chunk_state r);
               Ok ((), RawLog.with_chunks r (cs, RawLog.chunk_edit r))).

Definition chunk_abort : io ctx unit :=
  on_raw (λ r, cs ← Chunk.abort_handler (hash_iter (Chunk.edit_table (RawLog.chunk_edit r))) (RawLog.chunk_state r);
               Ok ((), RawLog.with_chunks r (cs, RawLog.chunk_edit r))).

(** [Tx::commit]: the handlers run from the one registered last to the one registered first. *)
Definition commit_tx (d : D) : io ctx unit := λ c,
  match update_dirty_log_metas d c with
  | (Ok _, c) => (_ ← commit_handler; _ ← raw_commit; _ ← chunk_commit; journal_handler) c
  | (Err e, c) => (_ ← chunk_abort; io_lift (Err e)) c
  | (Panic, c) => (Panic, c)
  end.

Definition abort_tx : io ctx unit := chunk_abort.

(** The end of a [Tx]: its data is dropped, outside of any TX. *)
Definition end_tx : io ctx unit :=
  c ← io_get;
  _ ← set_open_logs ∅;
  io_fold (λ _ '(_, addr), inner_drop false addr) () (hash_iter (open_logs c)).

(** *** The data of a TX *)
Record TxLocal := mkTxLocal {
  l_tx_id : nat;
  l_chunk_edit : ChunkAllocEdit;
  l_raw_edit : RawLogStoreEdit;
  l_store_edit : TxLogStoreEdit A;
  l_open_logs : gmap nat nat;
  l_open_caches : gmap nat NodeMap;
}.

Definition new_tx (id : nat) : TxLocal :=
  mkTxLocal id ChunkAllocEdit_new RawLogStoreEdit_new TxLogStoreEdit_new ∅ ∅.

Definition local_of (c : ctx) : TxLocal :=
  mkTxLocal (tx_id c) (RawLog.chunk_edit (raw c)) (RawLog.store_edit (raw c)) (store_edit c) (open_logs c) (open_caches c).

(** The store as another TX sees it. *)
Definition switch_tx (t : TxLocal) (c : ctx) : ctx :=
  mkCtx (RawLog.mkCtx (RawLog.state (raw c)) (RawLog.disk_store (raw c)) (RawLog.chunk_state (raw c))
           (l_chunk_edit t) (l_raw_edit t))
    (state c) (inners c) (journal c) (draws c) (l_tx_id t) (l_store_edit t) (l_open_logs t) (l_open_caches t).

(** [sync] *)
Definition sync (disk : D) : io ctx unit :=
  c ← io_get;
  '(j, s) ← io_lift (unwrap_res (flush_journal (journal c) (RawLog.disk_store (raw c)) (rand_iv (draws c)) (rand_iv (S (draws c)))));
  _ ← set_journal j;
  _ ← set_draws (S (S (draws c)));
  s ← io_lift (bs_flush disk s);
  set_raw (RawLog.with_disk (raw c) s).

(** *** Formatting and recovering *)

(** [from_parts]: lazy deletes and caches of the logs of the recovered state. *)
Definition State_from (p : TxLogStoreState A) : State :=
  let ids := (hash_iter (log_table p)).*1 in
  let st := foldl (λ st id, add_lazy_delete id st) (mkState p ∅ ∅ ∅ ∅) ids in
  with_caches st (list_to_set ids) (list_to_map ((λ id, (id, ∅)) <$> ids)).

Definition from_parts (p : TxLogStoreState A) (r : RawLog.ctx St) (j : JournalT) (drawn : nat) : ctx :=
  mkCtx r (State_from p) ∅ j drawn 0 TxLogStoreEdit_new ∅ ∅.

Definition STATE_MAX_NBYTES : nat := 1048576.

Context {SK : Skcipher A} {SP : SuperblockPod A}.

(** The store, the disk area of its chunks and its superblock. *)
Definition format (disk : D) (s : St) (root_key : Key) (drawn : nat) : res (ctx * D * Superblock A) :=
  '(log_store_nblocks, journal_nblocks) ← calc_store_and_journal_nblocks (bs_nblocks disk);
  let nchunks := log_store_nblocks / CHUNK_NBLOCKS in
  log_store_area ← bs_subset disk 1 (1 + log_store_nblocks);
  journal_area ← bs_subset disk (1 + log_store_nblocks) (1 + log_store_nblocks + journal_nblocks);
  let all_state := mkAllState (new_in_journal nchunks) (mkRawLogStoreState ∅) TxLogStoreState_new in
  policy ← DefaultCompactPolicy_new (bs_nblocks journal_area) STATE_MAX_NBYTES;
  '(j, s) ← Journal.format (rand_key drawn) (rand_key (1 + drawn)) (rand_key (2 + drawn)) (rand_iv (3 + drawn))
              journal_area s all_state STATE_MAX_NBYTES policy;
  let superblock := mkSuperblock A (Journal.meta j) log_store_nblocks MAGIC_NUMBER in
  sb_area ← bs_subset disk 0 1;
  s ← sb_persist superblock sb_area s root_key;
  let r := RawLog.mkCtx (RawLog.State_new (mkRawLogStoreState ∅) []) s (ChunkAllocState_new nchunks)
             ChunkAllocEdit_new RawLogStoreEdit_new in
  Ok (from_parts TxLogStoreState_new r j (4 + drawn), log_store_area, superblock).

(** The last part of [recover]: the store over the recovered state of the journal. *)
Definition rebuild (all : AllState A) (s : St) (j : JournalT) (drawn : nat) : ctx :=
  let r := RawLog.mkCtx (RawLog.State_new (raw_log_store all) (hash_iter (RawLog.log_table (raw_log_store all)))) s
             (Chunk.from_parts (chunk_alloc all)) ChunkAllocEdit_new RawLogStoreEdit_new in
  from_parts (tx_log_store all) r j drawn.

Definition recover (fuel : nat) (disk : D) (s : St) (root_key : Key) (drawn : nat) : res (ctx * D * Superblock A) :=
  sb_area ← bs_subset disk 0 1;
  superblock ← sb_open sb_area s root_key;
  if bs_nblocks disk <? sb_total_nblocks superblock then Err OutOfDisk else
  let meta := journal_area_meta superblock in
  let n := chunk_area_nblocks superblock in
  journal_area ← bs_subset disk (1 + n) (1 + n + Journal.total_nblocks meta);
  '(j, s) ← Journal.recover fuel journal_area s meta (DefaultCompactPolicy_from_meta meta);
  chunk_area ← bs_subset disk 1 (1 + n);
  Ok (rebuild (ej_state j) s j drawn, chunk_area, superblock).
End store.
