(* ===== verification/TxLogDev.v ===== *)
(** * TxLogDev: the raw log and the cache under a TX log

    [RawDev_spec]: the raw log that a TX has created is an append-only log of blocks, as
    [AppendLogSpec] asks, and keeps the other logs of the store as they are ([Frame]).
    [TxCache_spec]: the cache of a TX log is one in the sense of [NodeCacheSpec]. *)
From S2P Require Import Prelude BitMap Bio CryptoChain CryptoLog CryptoLogSpec TxLog Chunk RawLog.

Section frame.
Context {B : Bittle} {HB : BittleSpec B} {D St : Type} {HS : BlockSet D St} {HSS : BlockSetSpec D St}.
Implicit Types (d : D) (c : RawLog.ctx St) (l : RawLog.RawLog) (t : RawLogTail).

(** *** What an append leaves alone *)

(** A tail with its new chunks, in a context in which only they were allocated. *)
Definition grown c c' t t' : Prop :=
  ∃ new, t_chunks t' = t_chunks t ++ new ∧ head_last_chunk_free_blocks t' = head_last_chunk_free_blocks t ∧
    taken (chunk_state c) (chunk_state c') new ∧
    (∀ i x, Chunk.edit_table (chunk_edit c') !! i = Some x → x = Alloc ∨ Chunk.edit_table (chunk_edit c) !! i = Some x).

Lemma edit_alloc_only ids : ∀ e e', foldM edit_alloc e ids = Ok e' →
  ∀ i x, Chunk.edit_table e' !! i = Some x → x = Alloc ∨ Chunk.edit_table e !! i = Some x.
Proof.
  induction ids as [|id ids IH]; intros e e'; cbn [foldM]; [intros [= ->]; by right|].
  destruct (edit_alloc e id) as [e1| |] eqn:E; [|done..]. intros He i x Hi. destruct (IH _ _ He i x Hi) as [->|H1]; [by left|].
  unfold edit_alloc in E. apply bind_inv in E as (? & _ & [= <-]). cbn in H1.
  apply lookup_insert_Some in H1 as [[_ <-]|[_ ?]]; [by left|by right].
Qed.

Lemma set_tail_create id t t0 c c' :
  log_edits (store_edit c) = {[id := RawLog.Create t0]} → set_tail id t c = Ok c' →
  c' = with_edit c (mkRawLogStoreEdit {[id := RawLog.Create t]}).
Proof.
  intros He. unfold set_tail. rewrite He, lookup_singleton_eq. rewrite bind_Ok. intros [= <-]. by rewrite insert_singleton_eq.
Qed.

Lemma raw_append_frame d l buf c t0 p l' c' :
  log_edits (store_edit c) = {[log_id l := RawLog.Create t0]} → st_wf (chunk_state c) → RawLog.append d l buf c = Ok (p, l', c') →
  lazy_delete l' = lazy_delete l ∧ state c' = state c ∧
  ∃ t', log_edits (store_edit c') = {[log_id l := RawLog.Create t']} ∧ grown c c' t0 t'.
Proof.
  intros He Hw Ha. unfold RawLog.append in Ha. destruct (negb (can_append l)); [done|].
  unfold as_ref in Ha. cbn [log_tail] in Ha. rewrite He, lookup_singleton_eq in Ha. cbn [unwrap] in Ha. rewrite bind_Ok in Ha.
  apply bind_inv in Ha as (c1 & Hr & [= <- <- <-]). split; [done|]. unfold ref_append in Hr.
  apply bind_inv in Hr as (k & _ & Hr). apply bind_inv in Hr as ([t1 c2] & Hal & Hr).
  apply bind_inv in Hr as (s & _ & Hr). apply bind_inv in Hr as (n & _ & Hr).
  assert (Hc2 : state c2 = state c ∧ log_edits (store_edit c2) = {[log_id l := RawLog.Create t1]} ∧ grown c c2 t0 t1).
  { destruct (0 <? k).
    - apply bind_inv in Hal as ([o [st' e']] & Hb & Hal).
      destruct (alloc_batch_inv k _ _ o st' e' Hw Hb) as (ids & -> & _ & _ & Htk & Hed). cbn [ok_or] in Hal. rewrite bind_Ok in Hal.
      apply bind_inv in Hal as (c3 & Hset & [= <- <-]). apply (set_tail_create _ _ t0) in Hset; [|done]. subst c3.
      split; [done|]. split; [done|]. exists ids. split; [done|]. split; [done|]. split; [done|]. exact (edit_alloc_only ids _ _ Hed).
    - injection Hal as <- <-. split; [done|]. split; [done|]. exists []. rewrite app_nil_r. split; [done|]. split; [done|].
      split; [by apply taken_nil|]. by right. }
  destruct Hc2 as (Hst & He2 & new & Hch & Hfr & Htk & Hed). apply (set_tail_create _ _ t1) in Hr; [|done]. subst c1.
  split; [done|]. eexists. split; [done|]. by exists new.
Qed.
End frame.

(** ** A created raw log as an append-only log *)
Section dev.
Context {B : Bittle} {HB : BittleSpec B} {D St : Type} {HS : BlockSet D St} {HSS : BlockSetSpec D St}.

(** The log, and the store at the time it was created. *)
Record Frame := mkFrame {
  fr_disk : D;
  fr_id : nat;
  fr_ctx : RawLog.ctx St;
}.
Implicit Types (f : Frame) (l : RawDev D St) (c : RawLog.ctx St) (t : RawLogTail) (bs : list (list byte)).

(** The logs there were then, in use and with their blocks. *)
Definition others_kept f c t : Prop :=
  ∀ h2 t2, log_ok (fr_disk f) h2 t2 → chunks_used (fr_ctx f) (log_chunks h2 t2) →
    chunks_used c (log_chunks h2 t2) ∧ (∀ i, i ∈ log_chunks h2 t2 → i ∉ t_chunks t) ∧
    log_content (fr_disk f) (disk_store c) h2 t2 = log_content (fr_disk f) (disk_store (fr_ctx f)) h2 t2.

Definition handle_ok f (l : RawLog.RawLog) t : Prop :=
  log_id l = fr_id f ∧ can_append l = true ∧ log_entry l = None ∧ lazy_delete l = None ∧ append_pos l = t_num_blocks t.

Definition ctx_at f c t : Prop :=
  let d := fr_disk f in
  state c = state (fr_ctx f) ∧ log_edits (store_edit c) = {[fr_id f := RawLog.Create t]} ∧
  bs_valid d (disk_store c) ∧ log_ok d RawLogHead_new t ∧ tight t ∧ chunks_ok d c ∧ chunks_used c (t_chunks t) ∧
  in_journal (chunk_state c) = false ∧ (∀ i x, Chunk.edit_table (chunk_edit c) !! i = Some x → x = Alloc) ∧
  (N.of_nat (t_num_blocks t) < 2 ^ 32)%N ∧ others_kept f c t.

Definition dev_at f l t bs : Prop :=
  rd_disk l = fr_disk f ∧ handle_ok f (rd_log l) t ∧ ctx_at f (rd_ctx l) t ∧
  bs = log_content (fr_disk f) (disk_store (rd_ctx l)) RawLogHead_new t.

Definition dev_holds f l bs : Prop := ∃ t, dev_at f l t bs.

(** The blocks that still fit: in the chunks of the log and the free ones, and in the count. *)
Definition tail_room c t : nat :=
  (tail_cap t + free_count (chunk_state c) * CHUNK_NBLOCKS - t_num_blocks t) `min`
  N.to_nat (2 ^ 32 - 1 - N.of_nat (t_num_blocks t)).

Definition dev_room f l : nat :=
  match log_edits (store_edit (rd_ctx l)) !! fr_id f with
  | Some (RawLog.Create t) => tail_room (rd_ctx l) t
  | _ => 0
  end.

Lemma log_content_length d s h t : length (log_content d s h t) = h_num_blocks h + t_num_blocks t.
Proof. unfold log_content. by rewrite length_map, length_seq. Qed.

Lemma dev_ref f l t bs : dev_at f l t bs → as_ref (rd_log l) (rd_ctx l) = mkRawLogRef None (Some t).
Proof.
  intros (_ & (Hid & _ & He & _) & (_ & Hed & _) & _). unfold as_ref. by rewrite He, Hid, Hed, lookup_singleton_eq.
Qed.

Lemma dev_read f l bs i b : dev_holds f l bs → bs !! i = Some b → bl_read l i 1 = Ok b.
Proof.
  intros (t & Hat) Hb. pose proof (dev_ref _ _ _ _ Hat) as Href. destruct Hat as (Hd & _ & (_ & _ & Hv & Hok & _ & _ & _ & _ & _ & H32 & _) & ->).
  cbn [bl_read RawDev_ops]. unfold RawLog.read. rewrite Href, Hd.
  pose proof (lookup_lt_Some _ _ _ Hb) as Hi. rewrite log_content_length in Hi. cbn in Hi.
  rewrite (ref_read_ok (fr_disk f) _ _ RawLogHead_new t); [|done|done|split; [by right|by left]|lia|].
  - rewrite (proj2 (Nat.ltb_ge _ _)) by (cbn; lia). rewrite (drop_S _ _ _ Hb). cbn [take concat]. by rewrite app_nil_r.
  - unfold usize_ok, usize_max. apply N.leb_le. lia.
Qed.

Lemma dev_nblocks f l bs : dev_holds f l bs → bl_nblocks l = length bs.
Proof.
  intros (t & Hat). pose proof (dev_ref _ _ _ _ Hat) as Href. destruct Hat as (_ & _ & _ & ->).
  cbn [bl_nblocks RawDev_ops]. unfold RawLog.nblocks. rewrite Href, log_content_length. done.
Qed.

Lemma dev_append f l bs cs :
  dev_holds f l bs → cs ≠ [] → Forall (λ b : list byte, length b = BLOCK_SIZE) cs → length cs ≤ dev_room f l →
  ∃ l', bl_append l (concat cs) = Ok (length bs, l') ∧ dev_holds f l' (bs ++ cs) ∧ dev_room f l = dev_room f l' + length cs.
Proof.
  intros (t & Hat) Hne Hcs Hroom. destruct Hat as (Hd & (Hid & Hca & Hent & Hlz & Hpos) & Hctx & ->).
  pose proof Hctx as (Hst & Hed & Hv & Hok & Hti & Hch & Hu & Hj & Hal & H32 & Hoth). set (d := fr_disk f) in *.
  assert (Hbuf : is_buf (length cs) (concat cs)).
  { split; [destruct cs; cbn; [done|lia]|]. by rewrite (length_concat_same BLOCK_SIZE). }
  unfold dev_room in Hroom. rewrite Hed, lookup_singleton_eq in Hroom. unfold tail_room in Hroom.
  assert (Htail : edit_tail (rd_ctx l) (log_id (rd_log l)) = Some t).
  { unfold edit_tail. by rewrite Hid, Hed, lookup_singleton_eq. }
  pose proof Hok as (_ & Hcap & _).
  destruct (append_ok d (rd_ctx l) (rd_log l) RawLogHead_new t (length cs) (concat cs) Hca Htail Hv Hok Hch Hu Hbuf ltac:(lia) ltac:(lia))
    as (l' & c' & t' & Ha & Hpos' & Hent' & Hid' & Hca' & Ht' & Hn' & Hti' & Hv' & Hok' & Hch' & Hu' & Hcont & Hfr).
  destruct (raw_append_frame d (rd_log l) (concat cs) (rd_ctx l) t _ _ _ ltac:(by rewrite Hid, Hed) (proj1 Hch) Ha)
    as (Hlz' & Hst' & t'' & Hed' & new & Hchunks & Hfree & Htk & Hal').
  assert (t'' = t') as ->.
  { unfold edit_tail in Ht'. rewrite Hed', lookup_singleton_eq in Ht'. congruence. }
  cbn [bl_append RawDev_ops]. rewrite Hd, Ha. bind_step.
  exists (mkRawDev d l' c'). split; [by rewrite Hpos, log_content_length|].
  destruct Htk as (Hnd & Hnew & (_ & _ & Hj' & Hmk) & Hfc).
  split; [exists t'; split; [done|]; split; [|split]|].
  - unfold handle_ok. cbn [rd_log]. split; [by rewrite Hid'|]. split; [done|]. split; [by rewrite Hent'|]. split; [by rewrite Hlz'|]. lia.
  - unfold ctx_at. cbn [rd_ctx]. rewrite Hst', Hed', Hid, Hj', Hn'. split_and!; try done; try (by apply Hti'); try lia.
    + intros i x Hi. destruct (Hal' i x Hi) as [->|Hi']; [done|]. by apply (Hal i).
    + intros h2 t2 Hok2 Hu0. destruct (Hoth h2 t2 Hok2 Hu0) as (Hu2 & Hdis & Hc2).
      split; [intros i Hi; rewrite Hmk, (Hu2 i Hi); done|]. split.
      * intros i Hi. rewrite Hchunks, elem_of_app. intros [Hin|Hin]; [by apply (Hdis i)|].
        destruct (Hnew i Hin) as [_ Hf]. by rewrite (Hu2 i Hi) in Hf.
      * rewrite <- Hc2. by apply (Hfr h2 t2).
  - cbn [rd_ctx]. fold d. rewrite Hcont. by rewrite blocks_from_concat.
  - unfold dev_room. cbn [rd_ctx]. rewrite Hed, Hed', Hid, !lookup_singleton_eq. unfold tail_room. rewrite Hn'.
    destruct Hok' as (_ & Hcap' & _). unfold tail_cap in *. rewrite Hchunks, Hfree, length_app in *. lia.
Qed.

Definition RawDev_spec f : AppendLogSpec (RawDev D St) := {|
  al_holds := dev_holds f; al_room := dev_room f;
  al_read := dev_read f; al_nblocks := dev_nblocks f; al_append := dev_append f;
|}.
End dev.
Arguments Frame : clear implicits.
Arguments Frame _ _ : clear implicits.

(** ** The cache *)
Section cache.
Context {A : Aead}.
Abbreviation NodeMap := (gmap nat (MhtNode A)).
Implicit Types (c : TxCache A) (inner : NodeMap).

Definition cached c (pos : nat) : option (MhtNode A) :=
  match tc_open c !! tc_id c ≫= (λ m, m !! pos) with Some n => Some n | None => tc_inner c !! pos end.

(** The cache of log [id] over the shared nodes [inner], with [others] open beside it. *)
Definition cache_live (id : nat) inner (others : gmap nat NodeMap) c : Prop :=
  tc_id c = id ∧ tc_inner c = inner ∧ is_Some (tc_open c !! id) ∧ delete id (tc_open c) = others.

Lemma cache_get_ok id inner others c pos : cache_live id inner others c →
  ∃ o c', nc_get c pos = Ok (o, c') ∧ cache_live id inner others c' ∧ (∀ n, o = Some n → cached c pos = Some n) ∧
    ∀ p n, cached c' p = Some n → cached c p = Some n.
Proof.
  intros Hl. cbn [nc_get TxCache_ops]. exists (cached c pos), c. unfold cached.
  destruct (_ ≫= _); by split_and!.
Qed.

Lemma cache_put_live id inner others c pos n : cache_live id inner others c →
  ∃ c', nc_put c pos n = Ok c' ∧ cache_live id inner others c' ∧
    ∀ p n', cached c' p = Some n' → (p = pos ∧ n' = n) ∨ (p ≠ pos ∧ cached c p = Some n').
Proof.
  intros (Hid & Hin & [m Hm] & Hoth). cbn [nc_put TxCache_ops]. rewrite Hid, Hm. cbn [unwrap]. bind_step.
  eexists. split; [done|]. split; [unfold cache_live; cbn; rewrite lookup_insert_eq, delete_insert_eq; by split_and!|].
  intros p n'. unfold cached. cbn. rewrite Hid, lookup_insert_eq, Hm. cbn. destruct (decide (p = pos)) as [->|Hne].
  - rewrite lookup_insert_eq. intros [= ->]. by left.
  - rewrite lookup_insert_ne by done. by right.
Qed.

Definition TxCache_spec (id : nat) inner (others : gmap nat NodeMap) : NodeCacheSpec A (TxCache A) := {|
  nc_live := cache_live id inner others; nc_has c pos n := cached c pos = Some n;
  nc_get_ok := cache_get_ok id inner others; nc_put_ok := cache_put_live id inner others;
|}.
End cache.
