(* ===== verification/TxLogSpec.v ===== *)
(** * TxLogSpec: what a TX log store holds

    [published d c id b ds]: the store [c] holds the log [id] with the blocks [ds] in bucket [b], through all
    layers: its entry names a root under which the raw log on the disk opens as a tree over
    [ds], and what the cache has of it is from that tree.  Such a log can be opened and read in
    any TX ([open_read]). *)
From stdpp Require Import strings.
From S2P Require Import Prelude BitMap Bio Chunk RawLog CryptoChain CryptoLog CryptoLogSpec CryptoLogRun CryptoLogProps.
From S2P Require Import CryptoBlob Journal TxLogState TxLog TxLogDev.

(** [io_next]: run the first action of a sequence, where it computes. *)
Ltac io_next := erewrite io_bind_Ok by reflexivity; cbv beta iota.

Section spec.
Context {A : Aead} {HA : AeadSpec A} {MP : MhtPod A} {HMP : MhtPodSpec A MP} {R : Random A} {P : Pages} {HP : PagesSpec P}.
Context {B : Bittle} {HB : BittleSpec B} {HO : HashOrder} {HHO : HashOrderSpec HO}.
Context {F : FooterPod A} {BP : BlobPod A} {PC : Postcard A (AllEdit A) (AllState A)}.
Context {D St : Type} {HS : BlockSet D St} {HSS : BlockSetSpec D St}.
Abbreviation Ctx := (TxLog.ctx (A := A) (D := D) (St := St)).
Abbreviation NodeMap := (gmap nat (MhtNode A)).
Abbreviation Written := (gmap nat (Key * Iv * Mac * MhtNode A)).
Implicit Types (d : D) (c : Ctx) (r : RawLog.ctx St) (id : nat) (b : string) (bs ds : list (list byte)) (G : Written).

(** ** Published logs *)
Definition raw_log_at d r id (h : RawLogHead) (tl : RawLogTail) bs : Prop :=
  RawLog.log_table (RawLog.persistent (RawLog.state r)) !! id = Some h ∧
  log_ok d h tl ∧ t_num_blocks tl = 0 ∧ (N.of_nat (h_num_blocks h) < 2 ^ 32)%N ∧
  bs = log_content d (disk_store r) h tl ∧ chunks_used r (log_chunks h tl) ∧
  ∃ a o, RawLog.lazy_deletes (RawLog.state r) !! id = Some a ∧ RawLog.lazy_objs (RawLog.state r) !! a = Some o.

Definition tree_at (en : TxLogEntry A) G bs ds : Prop :=
  sound G bs ∧ blocks ds ∧ length ds ≤ MAX_ENTRY_QUEUE_CAP ∧
  ∃ H n, G !! rm_pos (te_root_mht en) = Some (te_key en, rm_iv (te_root_mht en), rm_mac (te_root_mht en), n) ∧ root_ok G bs (Some n) H ds.

Definition nodes_known (m : NodeMap) G : Prop := ∀ pos n, m !! pos = Some n → ∃ k iv mc, G !! pos = Some (k, iv, mc, n).

Definition inner_cache c id : NodeMap := default ∅ (caches (state c) !! id).

Definition published d c id b ds : Prop :=
  ∃ en h tl bs G, log_table (persistent (state c)) !! id = Some en ∧ te_bucket en = b ∧
    raw_log_at d (raw c) id h tl bs ∧ tree_at en G bs ds ∧ nodes_known (inner_cache c id) G ∧ id ∈ log_caches (state c) ∧
    ∃ a o, lazy_deletes (state c) !! id = Some a ∧ lazy_objs (state c) !! a = Some o.

(** ** Opening *)

(** The handle of the raw log of a published log, opened for reading. *)
Definition raw_handle id (h : RawLogHead) (a : nat) : RawLog.RawLog := RawLog.mkRawLog id (Some h) (Some a) (h_num_blocks h) false.

Lemma raw_open_ok d r id h tl bs :
  raw_log_at d r id h tl bs →
  ∃ a r', RawLog.open_log id false r = Ok (raw_handle id h a, r') ∧ disk_store r' = disk_store r ∧
    RawLog.store_edit r' = RawLog.store_edit r.
Proof.
  intros (Hh & _ & _ & _ & _ & _ & a & o & Ha & Ho). unfold RawLog.open_log. rewrite Ha. cbn [ok_or]. rewrite bind_Ok.
  unfold RawLog.find_log. rewrite Hh, bind_Ok. unfold arc_clone. rewrite Ho. cbn [unwrap]. rewrite !bind_Ok.
  by eexists a, _.
Qed.

(** Reading one block of it. *)
Lemma raw_read_ok d r r' id h tl bs a pos blk :
  raw_log_at d r id h tl bs → bs_valid d (disk_store r) → disk_store r' = disk_store r →
  RawLog.log_edits (RawLog.store_edit r') !! id = None → bs !! pos = Some blk →
  bl_read (mkRawDev d (raw_handle id h a) r') pos 1 = Ok blk.
Proof.
  intros (_ & Hok & Ht & H32 & -> & _) Hv Hd He Hb. cbn [bl_read RawDev_ops rd_disk rd_log rd_ctx]. unfold RawLog.read, as_ref.
  cbn [raw_handle RawLog.log_id RawLog.log_entry]. rewrite He, Hd.
  pose proof (lookup_lt_Some _ _ _ Hb) as Hi. rewrite log_content_length, Ht in Hi.
  rewrite (ref_read_ok d _ _ h tl); [|done|done|split; [by left|by right]|lia|].
  - rewrite (proj2 (Nat.ltb_ge _ _)) by lia. rewrite (drop_S _ _ _ Hb). cbn [take concat]. by rewrite app_nil_r.
  - unfold usize_ok, usize_max. apply N.leb_le. lia.
Qed.

(** Opening a crypto log changes the cache only. *)
Lemma read_mht_node_frame {L C} {HL : BlockLog L} {HC : NodeCache A C} pos k mc iv (s s' : MhtStorage L C) x :
  read_mht_node pos k mc iv s = (x, s') → block_log s' = block_log s ∧ CryptoLog.draws s' = CryptoLog.draws s.
Proof.
  unfold read_mht_node, mbind, io_bind, cache_get, cache_put, log_read, io_lift.
  destruct (nc_get (node_cache s) pos) as [[[n|] c']| |]; [by intros [= _ <-]| |by intros [= _ <-]..].
  cbn [block_log node_cache]. destruct (bl_read (block_log s) pos 1) as [ci| |]; [|by intros [= _ <-]..].
  destruct (aead_decrypt ci k iv [] mc) as [pl| |]; [|by intros [= _ <-]..].
  destruct (nc_put c' pos _); by intros [= _ <-].
Qed.

Lemma CryptoLog_open_frame {L C} {HL : BlockLog L} {HC : NodeCache A C} (log : L) key meta (cache : C) k m :
  CryptoLog_open log key meta cache k = Ok m → root_key m = key ∧ block_log (storage m) = log ∧ CryptoLog.draws (storage m) = k.
Proof.
  unfold CryptoLog_open, root_mht_node. destruct (read_mht_node _ _ _ _ _) as [x s'] eqn:E.
  apply read_mht_node_frame in E as [E1 E2]. intros (n & _ & H)%bind_inv. apply bind_inv in H as (bf & _ & [= <-]). done.
Qed.
Lemma crypto_log_eq d (il : TxLogInner) c m :
  il_root il = root m → il_key il = root_key m → il_buf il = data_buf m →
  block_log (storage m) = mkRawDev d (il_raw il) (raw c) →
  node_cache (storage m) = mkTxCache (il_log_id il) (open_caches c) (inner_cache c (il_log_id il)) →
  CryptoLog.draws (storage m) = draws c → crypto_log d il c = m.
Proof.
  intros H1 H2 H3 H4 H5 H6. unfold crypto_log. rewrite H1, H2, H3, <- H4, <- H6. fold (inner_cache c (il_log_id il)).
  rewrite <- H5. destruct m as [? ? ? [? ? ?]]. done.
Qed.

(** A new log of the TX. *)
Definition with_inner c (addr : nat) (il : TxLogInner) : Ctx :=
  mkCtx (raw c) (state c) (<[addr := (il, 2)]> (inners c)) (journal c) (draws c) (tx_id c) (store_edit c)
    (<[il_log_id il := addr]> (open_logs c)) (open_caches c).

Lemma inner_new_ok c il :
  open_logs c !! il_log_id il = None → inner_new il c = (Ok (fresh (dom (inners c))), with_inner c (fresh (dom (inners c))) il).
Proof. intros Hop. unfold inner_new. io_next. io_next. rewrite Hop. io_next. io_next. io_next. reflexivity. Qed.

Definition lazy_cloned (st : State) (a : nat) (o : LazyDelete) : State :=
  with_lazy st (lazy_deletes st) (<[a := mkLazyDelete (lazy_log o) (is_deleted o) (arc_refs o + 1)]> (lazy_objs st)).

Lemma lazy_clone_ok c a o :
  lazy_objs (state c) !! a = Some o → lazy_clone a c = (Ok (), snd (set_state (lazy_cloned (state c) a o) c)).
Proof. intros Ho. unfold lazy_clone. io_next. rewrite Ho. reflexivity. Qed.

(** A log of which the TX has no edit and which it has not opened. *)
Definition untouched c id : Prop :=
  open_logs c !! id = None ∧ is_log_deleted (store_edit c) id = false ∧ RawLog.log_edits (RawLog.store_edit (raw c)) !! id = None.

(** The log at [addr] of a TX, open for reading. *)
Definition open_at d c (addr id : nat) ds : Prop :=
  ∃ il G bs H others, inners c !! addr = Some (il, 2) ∧ il_tx_id il = tx_id c ∧
    read_at (HCS := TxCache_spec id (inner_cache c id) others) False (crypto_log d il c) G bs H ds.

Lemma open_inner_ok d c id b ds :
  published d c id b ds → bs_valid d (disk_store (raw c)) → untouched c id →
  ∃ addr c', open_inner_log d id false c = (Ok addr, c') ∧ open_at d c' addr id ds.
Proof.
  intros (en & h & tl & bs & G & Hen & Hb & Hraw & (Hs & Hblk & Hmax & H & n & HG & Hroot) & Hcache & Hlc & a & o & Ha & Ho) Hv (Hop & Hdel & Hed).
  destruct (raw_open_ok d (raw c) id h tl bs Hraw) as (ra & r' & Hopen & Hd' & He').
  set (oc := <[id := ∅]> (open_caches c)). set (rl := raw_handle id h ra).
  set (cache := mkTxCache id oc (inner_cache c id)).
  assert (Hsr : sto_reads (HCS := TxCache_spec id (inner_cache c id) (delete id oc)) False (mkStorage (mkRawDev d rl r') cache (draws c)) G bs).
  { split; [split|].
    - split; [done|]. split; [done|]. split; [|done]. unfold cache, oc. cbn. rewrite lookup_insert_eq. by eexists.
    - intros pos x. cbn. unfold cached, cache, oc. cbn. rewrite lookup_insert_eq. cbn. rewrite lookup_empty. apply Hcache.
    - split; [done|]. intros pos k iv mc c0 p0 Hc0 Hdec. left. cbn [block_log]. unfold rl.
      rewrite (raw_read_ok d (raw c) r' id h tl bs ra pos c0) by (done || by rewrite He'). by rewrite bind_Ok. }
  destruct (open_right (HCS := TxCache_spec id (inner_cache c id) (delete id oc)) False (mkRawDev d rl r') (te_key en) (te_root_mht en) n cache (draws c) G bs H ds Hsr HG Hroot Hblk Hmax)
    as [(m & Hm & Hra & _ & Hmeta)|[[] _]].
  destruct (CryptoLog_open_frame _ _ _ _ _ _ Hm) as (Hkey & Hbl & Hdr).
  pose proof Hra as (([(Hci & Hcin & _) _] & _) & _). cbn in Hci, Hcin.
  unfold open_inner_log. io_next. rewrite Hop. rewrite Ha. cbn [ok_or]. rewrite io_bind_lift. unfold find_log. rewrite Hen. cbn [ok_or].
  rewrite io_bind_lift, Hdel. io_next.
  set (c1 := mkCtx (raw c) (state c) (inners c) (journal c) (draws c) (tx_id c) (store_edit c) (open_logs c) oc).
  set (c2 := mkCtx r' (state c) (inners c) (journal c) (draws c) (tx_id c) (store_edit c) (open_logs c) oc).
  assert (E1 : on_raw (RawLog.open_log id false) c1 = (Ok rl, c2)).
  { unfold on_raw. io_next. change (raw c1) with (raw c). rewrite Hopen. reflexivity. }
  io_step E1. rewrite bool_decide_eq_true_2 by done. cbn [assert_]. rewrite io_bind_lift.
  set (c3 := mkCtx r' (state c) (inners c) (journal c) (draws c) (tx_id c) (store_edit c) (open_logs c) (tc_open (node_cache (storage m)))).
  assert (E2 : crypto_open d rl (te_key en) (te_root_mht en) id c2 = (Ok m, c3)).
  { unfold crypto_open. io_next. change (raw c2) with r'. change (open_caches c2) with oc. change (draws c2) with (draws c).
    change (default ∅ (caches (state c2) !! id)) with (inner_cache c id). fold cache. rewrite Hm. reflexivity. }
  io_step E2. rewrite Hmeta. cbn [unwrap]. rewrite io_bind_lift.
  rewrite (io_bind_Ok _ _ _ _ _ (lazy_clone_ok c3 a o Ho)).
  set (il := mkTxLogInner id (tx_id c) (te_bucket en) (root m) (root_key m) (data_buf m) rl (Some a) false).
  set (c4 := snd (set_state (lazy_cloned (state c3) a o) c3)).
  rewrite (io_bind_Ok _ _ _ _ _ (inner_new_ok c4 il Hop)). io_next. set (addr := fresh (dom (inners c4))).
  eexists addr, _. split; [reflexivity|]. exists il, G, bs, H, (delete id oc).
  split; [apply lookup_insert_eq|]. split; [reflexivity|].
  match goal with |- read_at (HCS := TxCache_spec id ?i _) _ (crypto_log _ _ ?cc) _ _ _ _ =>
    change i with (inner_cache c id); replace (crypto_log d il cc) with m; [exact Hra|symmetry; apply crypto_log_eq] end; try reflexivity.
  - exact Hbl.
  - destruct (node_cache (storage m)) as [i op inn]. cbn in Hci, Hcin. subst. reflexivity.
  - exact Hdr.
Qed.

Lemma open_ok d c id b ds :
  published d c id b ds → bs_valid d (disk_store (raw c)) → untouched c id →
  ∃ addr c', open_log d id false c = (Ok (mkTxLog addr false), c') ∧ open_at d c' addr id ds.
Proof.
  intros Hp Hv Hu. destruct (open_inner_ok d c id b ds Hp Hv Hu) as (addr & c' & E & Ho). exists addr, c'. split; [|done].
  unfold open_log. by rewrite (io_bind_Ok _ _ _ _ _ E).
Qed.

(** ** Reading *)
Lemma read_open_ok d c addr id ds pos num buf (app : bool) :
  open_at d c addr id ds → is_buf num buf → pos + num ≤ length ds → usize_ok (pos + num) = true →
  ∃ c', read d (mkTxLog addr app) pos buf c = (Ok (concat (take num (drop pos ds))), c').
Proof.
  intros (il & G & bs & H & others & Hi & Htx & Hra) Hbuf Hle Hus. unfold read, own_inner.
  assert (Ho : own_inner (mkTxLog addr app) c = (Ok il, c)).
  { unfold own_inner. io_next. cbn [h_inner]. rewrite Hi. cbn [unwrap]. rewrite io_bind_lift, Htx, Nat.eqb_refl. reflexivity. }
  io_step Ho. unfold on_crypto. cbn [h_inner]. rewrite Hi.
  destruct (read_right _ _ _ _ _ _ pos num buf Hra Hbuf Hle Hus) as (x & m' & -> & [->|[[] _]] & _). eauto.
Qed.
End spec.
