(* ===== verification/TxLogCommit.v ===== *)
(** * TxLogCommit: a TX that creates and writes a log, and its commit

    [store_good d c pub]: the store [c] holds exactly the logs [pub].  A TX creates a log and appends to
    it ([writing]), its commit flushes the crypto log and publishes the entry and the raw log
    ([commit_ok]); the logs there were before keep their blocks. *)
From stdpp Require Import strings.
From S2P Require Import Prelude BitMap Bio Chunk RawLog CryptoChain CryptoLog CryptoLogSpec CryptoLogRun CryptoLogProps.
From S2P Require Import CryptoBlob Journal TxLogState TxLog TxLogDev TxLogSpec.

Section commit.
Context {A : Aead} {HA : AeadSpec A} {MP : MhtPod A} {HMP : MhtPodSpec A MP} {R : Random A} {P : Pages} {HP : PagesSpec P}.
Context {Bt : Bittle} {HB : BittleSpec Bt} {HO : HashOrder} {HHO : HashOrderSpec HO}.
Context {F : FooterPod A} {BP : BlobPod A} {PC : Postcard A (AllEdit A) (AllState A)}.
Context {D St : Type} {HS : BlockSet D St} {HSS : BlockSetSpec D St}.
Abbreviation Ctx := (TxLog.ctx (A := A) (D := D) (St := St)).
Implicit Types (d : D) (c : Ctx) (r : RawLog.ctx St) (id : nat) (b : string) (ds eds qds : list (list byte)).
Implicit Types (pub : gmap nat (string * list (list byte))).

(** ** A store that holds the logs [pub] *)
Definition lazy_ok {O} (next : nat) (t : gmap nat nat) (objs : gmap nat O) : Prop :=
  ∀ i a, t !! i = Some a → i < next ∧ is_Some (objs !! a).

Definition next_id r : nat := RawLog.next_free_log_id (RawLog.state r).

Definition raw_good d r : Prop :=
  bs_valid d (disk_store r) ∧ st_wf (chunk_state r) ∧ Chunk.capacity (chunk_state r) * CHUNK_NBLOCKS ≤ bs_nblocks d ∧
  in_journal (chunk_state r) = false ∧
  (∀ i h, RawLog.log_table (RawLog.persistent (RawLog.state r)) !! i = Some h → i < next_id r) ∧
  (∀ i, i ∈ RawLog.write_set (RawLog.state r) → i < next_id r) ∧
  lazy_ok (next_id r) (RawLog.lazy_deletes (RawLog.state r)) (RawLog.lazy_objs (RawLog.state r)).

Definition store_good d c pub : Prop :=
  raw_good d (raw c) ∧ tables_ok (persistent (state c)) ∧
  lazy_ok (next_id (raw c)) (lazy_deletes (state c)) (lazy_objs (state c)) ∧
  (∀ id, is_Some (log_table (persistent (state c)) !! id) ↔ is_Some (pub !! id)) ∧
  ∀ id b ds, pub !! id = Some (b, ds) → published d c id b ds.

(** A TX that has done nothing. *)
Definition idle c : Prop :=
  open_logs c = ∅ ∧ open_caches c = ∅ ∧ store_edit c = TxLogStoreEdit_new ∧
  RawLog.store_edit (raw c) = RawLogStoreEdit_new ∧ RawLog.chunk_edit (raw c) = ChunkAllocEdit_new.

Lemma good_switch d c pub t : store_good d c pub → store_good d (switch_tx t c) pub.
Proof. exact id. Qed.

Lemma idle_new k c : idle (switch_tx (new_tx k) c).
Proof. done. Qed.

Lemma idle_untouched c id : idle c → untouched c id.
Proof.
  intros (H1 & _ & H3 & H4 & _). unfold untouched, is_log_deleted. rewrite H1, H3, H4. cbn. by rewrite !lookup_empty.
Qed.

Lemma good_id d c pub id : store_good d c pub → is_Some (pub !! id) → id < next_id (raw c).
Proof.
  intros ((_ & _ & _ & _ & Hn & _) & _ & _ & _ & Hp) [[b ds] Hid].
  destruct (Hp _ _ _ Hid) as (en & h & tl & bs & G & _ & _ & (Hh & _) & _). by eapply Hn.
Qed.

(** Nothing of the store has the next id. *)
Lemma good_none d c pub :
  let id := next_id (raw c) in
  store_good d c pub →
  log_table (persistent (state c)) !! id = None ∧ lazy_deletes (state c) !! id = None ∧
  RawLog.log_table (RawLog.persistent (RawLog.state (raw c))) !! id = None ∧ RawLog.lazy_deletes (RawLog.state (raw c)) !! id = None.
Proof.
  intros id Hg. pose proof Hg as ((_ & _ & _ & _ & Hrt & _ & Hrl) & _ & Hlz & Hdom & _). split_and!; apply eq_None_not_Some; intros [x Hx].
  - assert (Hs : is_Some (pub !! id)) by (apply Hdom; by eexists). pose proof (good_id d c pub id Hg Hs). unfold id in *. lia.
  - apply Hlz in Hx as [Hx _]. unfold id in Hx. lia.
  - apply Hrt in Hx. unfold id in Hx. lia.
  - apply Hrl in Hx as [Hx _]. unfold id in Hx. lia.
Qed.

(** ** The log of the TX *)

(** The state of the store after the creation of log [id]. *)
Definition created_state (st : State) id : State := with_caches st ({[id]} ∪ log_caches st) (<[id := ∅]> (caches st)).

(** The raw store once log [id] is allocated. *)
Definition raw_created r id : RawLog.ctx St :=
  let st := RawLog.state r in
  RawLog.mkCtx (RawLog.mkState (RawLog.persistent st) (id + 1) ({[id]} ∪ RawLog.write_set st) (RawLog.lazy_deletes st) (RawLog.lazy_objs st))
    (disk_store r) (chunk_state r) (chunk_edit r) (mkRawLogStoreEdit {[id := RawLog.Create RawLogTail_new]}).

(** The TX has created log [id] at [addr], and appended [eds ++ qds] to it, of which [qds] wait in memory. *)
Definition writing d c0 c (addr id : nat) b (dirty : bool) (root_mht : option (RootMhtMeta A)) (room0 : nat) ds eds qds : Prop :=
  ∃ il, inners c !! addr = Some (il, 2) ∧ il_log_id il = id ∧ il_tx_id il = tx_id c ∧ il_dirty il = dirty ∧
    state c = created_state (state c0) id ∧ open_logs c = {[id := addr]} ∧
    edit_table (store_edit c) = {[id := TxLogState.Create b (il_key il) root_mht]} ∧
    entry_queue_cap (il_buf il) = DEFAULT_ENTRY_CAP ∧
    mht_ok (HLS := RawDev_spec (mkFrame d id (raw_created (raw c0) id))) (HCS := TxCache_spec id ∅ ∅) (crypto_log d il c) ds eds qds ∧
    log_room (HLS := RawDev_spec (mkFrame d id (raw_created (raw c0) id))) (crypto_log d il c) + length eds = room0.

Lemma raw_create_ok d r :
  raw_good d r → RawLog.store_edit r = RawLogStoreEdit_new → usize_ok (next_id r + 1) = true →
  RawLog.create_log r = Ok (RawLog.mkRawLog (next_id r) None None 0 true, raw_created r (next_id r)).
Proof.
  intros (_ & _ & _ & _ & _ & Hws & _) He Hus. unfold RawLog.create_log, alloc_log_id. fold (next_id r). rewrite uadd_ok by done.
  rewrite !bind_Ok. unfold add_to_write_set. rewrite bool_decide_eq_false_2; [|intros Hin; apply Hws in Hin; lia]. cbn [unwrap_res]. rewrite bind_Ok.
  rewrite He. unfold RawLog.edit_create_log. cbn [RawLogStoreEdit_new log_edits]. rewrite lookup_empty, bool_decide_eq_true_2 by done. cbn [assert_].
  rewrite !bind_Ok. reflexivity.
Qed.

Lemma new_tail_ok d : log_ok d RawLogHead_new RawLogTail_new ∧ tight RawLogTail_new.
Proof.
  pose proof CHUNK_NBLOCKS_pos. split; [|unfold tight, tail_cap; cbn; lia]. split; [|split; [unfold tail_cap; cbn; lia|split; [constructor|constructor]]].
  unfold tail_on. cbn. split_and!; lia.
Qed.

(** The created raw log is an empty block log. *)
Lemma created_dev d r :
  raw_good d r → RawLog.chunk_edit r = ChunkAllocEdit_new →
  dev_holds (mkFrame d (next_id r) (raw_created r (next_id r)))
    (mkRawDev d (RawLog.mkRawLog (next_id r) None None 0 true) (raw_created r (next_id r))) [].
Proof.
  intros (Hv & Hw & Hc & Hj & _) He. destruct (new_tail_ok d) as [Hok Hti]. exists RawLogTail_new.
  split; [done|]. split; [done|]. split; [|done]. unfold ctx_at. cbn [fr_disk fr_id fr_ctx]. split_and!; try done.
  - split; [done|]. split; [done|]. intros i _. cbn. rewrite He. apply lookup_empty.
  - intros i Hi. cbn in Hi. by apply elem_of_nil in Hi.
  - intros i x. cbn. rewrite He. cbn. by rewrite lookup_empty.
  - intros h2 t2 _ Hu. split; [done|]. split; [|done]. intros i _ Hi. cbn in Hi. by apply elem_of_nil in Hi.
Qed.
(** The blocks a new log can have. *)
Definition store_room r : nat := (free_count (chunk_state r) * CHUNK_NBLOCKS) `min` N.to_nat (2 ^ 32 - 1).

Lemma tx_create_ok d c pub b :
  store_good d c pub → idle c → usize_ok (next_id (raw c) + 1) = true →
  ∃ addr c', create_log b c = (Ok (mkTxLog addr true), c') ∧ writing d c c' addr (next_id (raw c)) b false None (store_room (raw c)) [] [] [] ∧
    tx_id c' = tx_id c ∧ raw c' = raw_created (raw c) (next_id (raw c)).
Proof.
  intros (Hraw & _) (Hol & Hoc & Hed & Hre & Hce) Hus. set (id := next_id (raw c)).
  set (rl := RawLog.mkRawLog id None None 0 true). set (r1 := raw_created (raw c) id). set (key := rand_key (draws c)).
  pose proof (created_dev d (raw c) Hraw Hce) as Hdev. fold id rl r1 in Hdev.
  set (f := mkFrame d id r1) in *. set (cache := mkTxCache id {[id := ∅]} ∅ : TxCache A).
  destruct (new_ok (HLS := RawDev_spec f) (HCS := TxCache_spec id ∅ ∅) (mkRawDev d rl r1) key cache (S (draws c)) Hdev)
    as (m & Hm & Hok & _ & _ & Hcap & _).
  { split.
    - split; [done|]. split; [done|]. unfold cache. cbn [tc_open]. rewrite lookup_singleton_eq. split; [by eexists|apply delete_singleton_eq].
    - intros pos n. cbn. unfold cached, cache. cbn. by rewrite lookup_singleton_eq. }
  unfold CryptoLog_new in Hm. apply bind_inv in Hm as (buf & Hbuf & [= <-]).
  cbn [data_buf] in Hcap. change (entry_queue_cap buf = DEFAULT_ENTRY_CAP) in Hcap.
  unfold create_log.
  set (c1 := mkCtx r1 (state c) (inners c) (journal c) (draws c) (tx_id c) (store_edit c) (open_logs c) (open_caches c)).
  assert (E1 : on_raw RawLog.create_log c = (Ok rl, c1)).
  { unfold on_raw. io_next. rewrite (raw_create_ok d (raw c)) by done. reflexivity. }
  set (c2 := mkCtx r1 (created_state (state c) id) (inners c) (journal c) (S (draws c)) (tx_id c) (store_edit c) (open_logs c) (open_caches c)).
  set (e := mkTxLogStoreEdit {[id := TxLogState.Create b key None]}).
  set (c3 := mkCtx r1 (created_state (state c) id) (inners c) (journal c) (S (draws c)) (tx_id c) e (open_logs c) (open_caches c)).
  assert (E2 : TxLogState.edit_create_log (store_edit c2) id b key = Ok e) by (cbn [store_edit c2]; rewrite Hed; reflexivity).
  set (il := mkTxLogInner id (tx_id c) b None key buf rl None false).
  assert (E3 : inner_new il c3 = (Ok (fresh (dom (inners c3))), with_inner c3 (fresh (dom (inners c3))) il))
    by (apply inner_new_ok; cbn [open_logs c3]; rewrite Hol; apply lookup_empty).
  io_step E1. io_next. io_next. change (RawLog.log_id rl) with id.
  erewrite (io_bind_Ok _ random_key _ key c2) by reflexivity. rewrite Hbuf, io_bind_lift.
  rewrite (io_bind_Ok _ _ c2 c2 c2) by reflexivity. rewrite E2, io_bind_lift.
  rewrite (io_bind_Ok _ _ c2 () c3) by reflexivity. io_step E3. io_next. io_next.
  set (addr := fresh (dom (inners c3))). eexists addr, _. split; [reflexivity|]. split; [|split; reflexivity].
  exists il. split; [apply lookup_insert_eq|]. split; [reflexivity|]. split; [reflexivity|]. split; [reflexivity|].
  split; [reflexivity|]. split; [cbn; by rewrite Hol|]. split; [reflexivity|]. split; [cbn [il il_buf]; exact Hcap|].
  match goal with |- mht_ok (crypto_log _ _ ?cc) _ _ _ ∧ _ => replace (crypto_log d il cc) with (mkMht None key buf (mkStorage (mkRawDev d rl r1) cache (S (draws c)))) end.
  { split; [exact Hok|]. cbn [length]. rewrite Nat.add_0_r. unfold log_room, room. cbn [al_room RawDev_spec storage block_log]. unfold dev_room. cbn [rd_ctx r1 raw_created RawLog.store_edit log_edits fr_id].
    rewrite lookup_singleton_eq. unfold tail_room, store_room, tail_cap. cbn [RawLogTail_new head_last_chunk_free_blocks t_chunks t_num_blocks length]. rewrite Nat.sub_0_r, N.sub_0_r. reflexivity. }
  symmetry. apply crypto_log_eq; try reflexivity. unfold inner_cache. cbn. rewrite Hoc, lookup_insert_eq. reflexivity.
Qed.
(** ** Appending *)

(** A method of the crypto log, by what it does on the log. *)
Lemma on_crypto_ok d c0 c addr id b dirty rm room0 ds eds qds {T} (g : io (Mht A (RawDev D St) (TxCache A)) T) :
  writing d c0 c addr id b dirty rm room0 ds eds qds →
  ∃ m, mht_ok (HLS := RawDev_spec (mkFrame d id (raw_created (raw c0) id))) (HCS := TxCache_spec id ∅ ∅) m ds eds qds ∧
    log_room (HLS := RawDev_spec (mkFrame d id (raw_created (raw c0) id))) m + length eds = room0 ∧
    entry_queue_cap (data_buf m) = DEFAULT_ENTRY_CAP ∧ (∀ il, inners c !! addr = Some (il, 2) → crypto_log d il c = m) ∧
    ∀ x m' ds' eds' qds' room', g m = (Ok x, m') → fixed m' = fixed m →
      mht_ok (HLS := RawDev_spec (mkFrame d id (raw_created (raw c0) id))) (HCS := TxCache_spec id ∅ ∅) m' ds' eds' qds' →
      log_room (HLS := RawDev_spec (mkFrame d id (raw_created (raw c0) id))) m' + length eds' = room' →
      ∃ c', on_crypto d addr g c = (Ok x, c') ∧ writing d c0 c' addr id b dirty rm room' ds' eds' qds' ∧
        (∀ il', inners c' !! addr = Some (il', 2) → crypto_log d il' c' = m') ∧ tx_id c' = tx_id c ∧ store_edit c' = store_edit c.
Proof.
  intros (il & Hil & Hid & Htx & Hdirty & Hst & Hol & Hed & Hcap & Hok & Hroom). exists (crypto_log d il c). split; [done|]. split; [done|]. split; [done|].
  split; [intros il' Hil'; congruence|].
  intros x m' ds' eds' qds' room' Hg Hfix Hok' Hroom'. unfold on_crypto. rewrite Hil, Hg. rewrite Hid.
  pose proof Hok' as (G & bs & H & ((t & Hdisk & _) & [(Hci & Hcin & _) _] & _) & _). cbn [fr_disk] in Hdisk.
  set (c' := mkCtx _ _ _ _ _ _ _ _ _). exists c'. split; [reflexivity|].
  assert (Hm' : crypto_log d (update_inner il m') c' = m').
  { apply crypto_log_eq; try reflexivity.
    - cbn. destruct (block_log (storage m')) as [dd ll cc]. cbn in Hdisk. by subst dd.
    - unfold inner_cache. cbn. rewrite Hid, lookup_insert_eq. cbn. destruct (node_cache (storage m')) as [i op inn]. cbn in Hci, Hcin. by subst. }
  split; [|split; [|split; reflexivity]].
  - exists (update_inner il m'). split; [apply lookup_insert_eq|]. split; [done|]. split; [done|]. split; [done|].
    split; [|split; [done|split; [|split; [|rewrite Hm'; by split]]]].
    + unfold c'. cbn [state]. rewrite Hst. unfold created_state, with_caches. cbn. rewrite insert_insert_eq. by rewrite Hcin.
    + cbn. rewrite Hed. f_equal. f_equal. symmetry. exact (f_equal snd Hfix).
    + cbn. rewrite <- Hcap. exact (f_equal (λ x, x.1.2) Hfix).
  - intros il'. unfold c' at 1. cbn [inners]. rewrite lookup_insert_eq. intros [= <-]. exact Hm'.
Qed.

Lemma set_dirty_ok d c0 c addr id b dirty rm room0 ds eds qds :
  writing d c0 c addr id b dirty rm room0 ds eds qds →
  ∃ c', set_dirty addr c = (Ok (), c') ∧ writing d c0 c' addr id b true rm room0 ds eds qds ∧ tx_id c' = tx_id c.
Proof.
  intros (il & Hil & Hid & Htx & Hdirty & Hst & Hol & Hed & Hcap & Hok & Hroom). unfold set_dirty. io_next. rewrite Hil. cbn [unwrap]. rewrite io_bind_lift.
  eexists. split; [reflexivity|]. split; [|reflexivity].
  exists (mkTxLogInner (il_log_id il) (il_tx_id il) (il_bucket il) (il_root il) (il_key il) (il_buf il) (il_raw il) (il_lazy il) true).
  split; [apply lookup_insert_eq|]. split; [done|]. split; [done|]. split; [done|]. split; [done|]. split; [done|]. split; [done|]. split; [done|]. by split.
Qed.

Lemma own_inner_ok d c0 c addr id b dirty rm room0 ds eds qds app :
  writing d c0 c addr id b dirty rm room0 ds eds qds → ∃ il, own_inner (mkTxLog addr app) c = (Ok il, c).
Proof.
  intros (il & Hil & _ & Htx & _). exists il. unfold own_inner. io_next. cbn [h_inner]. rewrite Hil. cbn [unwrap].
  rewrite io_bind_lift, Htx, Nat.eqb_refl. reflexivity.
Qed.

Lemma append_writing d c0 c addr id b dirty room0 eds qds buf :
  writing d c0 c addr id b dirty None room0 [] eds qds → is_buf (nblocks_of buf) buf →
  length (eds ++ qds) + nblocks_of buf ≤ 2 * (MHT_NBRANCHES * MHT_NBRANCHES) → 8 * (length (eds ++ qds) + nblocks_of buf) + 5 ≤ room0 →
  ∃ c' eds' qds', append d (mkTxLog addr true) buf c = (Ok (), c') ∧ writing d c0 c' addr id b true None room0 [] eds' qds' ∧
    eds' ++ qds' = (eds ++ qds) ++ buf_blocks buf ∧ tx_id c' = tx_id c.
Proof.
  intros Hw Hbuf Hsmall Hroom. unfold append. destruct (own_inner_ok _ _ _ _ _ _ _ _ _ _ _ _ true Hw) as (il & Ho). io_step Ho. cbn [can_append negb h_inner].
  destruct (set_dirty_ok _ _ _ _ _ _ _ _ _ _ _ _ Hw) as (c1 & E1 & Hw1 & Htx1). io_step E1.
  destruct (on_crypto_ok _ _ _ _ _ _ _ _ _ _ _ _ (CryptoLog.append buf) Hw1) as (m & Hm & Hmr & Hcap & _ & Hgo).
  pose proof (length_app eds qds) as Hlen.
  destruct (log_put_ok m [] eds qds buf Hm Hcap Hbuf) as (m' & eds' & qds' & Hput & Hm' & Hfix & Heq & Hr' & _).
  { cbn [app]. exact Hsmall. } { lia. }
  destruct (Hgo () m' [] eds' qds' room0 Hput Hfix Hm' ltac:(lia)) as (c' & E2 & Hw' & _ & Htx' & _).
  exists c', eds', qds'. split; [exact E2|]. split; [done|]. split; [by rewrite Heq, app_assoc|congruence].
Qed.
(** ** The flush before the commit *)
Lemma hash_iter_singleton {T} i (x : T) : hash_iter ({[i := x]} : gmap nat T) = [(i, x)].
Proof.
  pose proof (hash_iter_perm T ({[i := x]} : gmap nat T)) as Hp. rewrite map_to_list_singleton in Hp.
  by apply Permutation_singleton_r in Hp.
Qed.

(** The metadata of the root of the log. *)
Definition has_root d c (addr : nat) (meta : RootMhtMeta A) : Prop :=
  ∀ il, inners c !! addr = Some (il, 2) → root_meta (crypto_log d il c) = Some meta.

Lemma writing_root d c0 c addr id b dirty rm room0 ds eds qds meta :
  writing d c0 c addr id b dirty rm room0 ds eds qds → has_root d c addr meta →
  ∃ c', on_crypto d addr (λ m, (unwrap (root_meta m), m)) c = (Ok meta, c') ∧ writing d c0 c' addr id b dirty rm room0 ds eds qds ∧
    has_root d c' addr meta ∧ store_edit c' = store_edit c.
Proof.
  intros Hw Hroot.
  destruct (on_crypto_ok _ _ _ _ _ _ _ _ _ _ _ _ (λ m, (unwrap (root_meta m), m)) Hw) as (m & Hm & Hmr & _ & Hcl & Hgo).
  pose proof Hw as (il & Hil & _). specialize (Hroot il Hil). rewrite (Hcl il Hil) in Hroot.
  destruct (Hgo meta m ds eds qds room0) as (c' & E & Hw' & Hcl' & _ & He); [by rewrite Hroot|done|done|done|].
  exists c'. split; [exact E|]. split; [done|]. split; [|done]. intros il' Hil'. by rewrite (Hcl' il' Hil').
Qed.

Lemma update_dirty_ok d c0 c addr id b room0 eds qds :
  writing d c0 c addr id b true None room0 [] eds qds → eds ++ qds ≠ [] →
  length (eds ++ qds) ≤ 2 * (MHT_NBRANCHES * MHT_NBRANCHES) → 8 * length (eds ++ qds) + 5 ≤ room0 →
  ∃ c' meta room', update_dirty_log_metas d c = (Ok (), c') ∧
    writing d c0 c' addr id b true (Some meta) room' (eds ++ qds) [] [] ∧ has_root d c' addr meta.
Proof.
  intros Hw Hne Hsmall Hroom. pose proof Hw as (il & Hil & _ & _ & Hdirty & _ & Hol & Hed & _).
  destruct (on_crypto_ok _ _ _ _ _ _ _ _ _ _ _ _ CryptoLog.flush Hw) as (m & Hm & Hmr & _ & _ & Hgo).
  pose proof (length_app eds qds) as Hlen. destruct (three_levels_small _ Hsmall) as (_ & H32 & _).
  destruct (log_flush_ok m [] eds qds Hm Hne) as (m' & Hfl & Hm' & Hfix & [[meta n] Hr'] & Hroom').
  { refine (edge_two_levels _ _). cbn [length]. lia. } { exact H32. } { unfold flush_cost. lia. }
  cbn [app] in Hm'.
  destruct (Hgo () m' (eds ++ qds) [] [] _ Hfl Hfix Hm' eq_refl) as (c1 & E1 & Hw1 & Hcl1 & _ & He1).
  assert (Hroot1 : has_root d c1 addr meta) by (intros il1 Hil1; rewrite (Hcl1 il1 Hil1); unfold root_meta; by rewrite Hr').
  destruct (writing_root _ _ _ _ _ _ _ _ _ _ _ _ _ Hw1 Hroot1) as (c2 & E2 & Hw2 & Hroot2 & He2).
  unfold update_dirty_log_metas. io_next. rewrite Hol, hash_iter_singleton. cbn [List.filter]. unfold is_dirty_log. cbn [snd]. rewrite Hil, Hdirty.
  cbn [io_fold].
  assert (E : (_ ← on_crypto d addr CryptoLog.flush; meta ← on_crypto d addr (λ m, (unwrap (root_meta m), m)); c ← io_get;
     e ← io_lift (update_log_meta (store_edit c) id meta); set_edit e) c =
     (Ok (), snd (set_edit (mkTxLogStoreEdit {[id := TxLogState.Create b (il_key il) (Some meta)]}) c2))).
  { io_step E1. io_step E2. io_next. unfold update_log_meta. rewrite He2, He1, Hed, lookup_singleton_eq. rewrite io_bind_lift.
    by rewrite insert_singleton_eq. }
  io_step E. eexists _, meta, _. split; [reflexivity|]. split.
  - destruct Hw2 as (il2 & Hil2 & Hid2 & Htx2 & Hd2 & Hst2 & Hol2 & Hed2 & Hcap2 & Hok2 & Hr2).
    assert (Hk : il_key il2 = il_key il).
    { rewrite He2, He1, Hed in Hed2. apply (f_equal (lookup id)) in Hed2. rewrite !lookup_singleton_eq in Hed2. congruence. }
    exists il2. split; [done|]. split; [done|]. split; [done|]. split; [done|]. split; [done|]. split; [done|].
    split; [cbn; by rewrite Hk|]. split; [done|]. by split.
  - exact Hroot2.
Qed.
(** ** The handlers of the commit *)

(** The context with the shared state [st] and the raw store [r]. *)
Definition shared c (st : State) r : Ctx :=
  mkCtx r st (inners c) (journal c) (draws c) (tx_id c) (store_edit c) (open_logs c) (open_caches c).

(** The state after the commit handler of the store: the entry, its lazy delete, and its cache. *)
Definition committed_state (st : State) p id (nodes : gmap nat (MhtNode A)) : State :=
  let st' := add_lazy_delete id (with_persistent st p) in
  with_caches st' (log_caches st') (<[id := nodes]> (caches st')).

Lemma commit_handler_ok c id b key meta nodes :
  edit_table (store_edit c) = {[id := TxLogState.Create b key (Some meta)]} → open_caches c = {[id := nodes]} →
  tables_ok (persistent (state c)) → log_table (persistent (state c)) !! id = None → lazy_deletes (state c) !! id = None →
  id ∈ log_caches (state c) → caches (state c) !! id = Some ∅ →
  ∃ p c', commit_handler c = (Ok (), c') ∧ tables_ok p ∧
    log_table p = <[id := mkTxLogEntry b key meta]> (log_table (persistent (state c))) ∧
    state c' = committed_state (state c) p id nodes ∧ raw c' = raw c.
Proof.
  intros Hed Hoc Htab Hnone Hlz Hlc Hca. unfold commit_handler.
  pose proof (apply_edit_ok (persistent (state c)) id (TxLogState.Create b key (Some meta)) Htab) as Hap. rewrite Hnone in Hap.
  destruct Hap as (p & Hap & Hp & Hl & _).
  io_next. rewrite Hed, hash_iter_singleton. unfold TxLogState.edit_is_empty. rewrite Hed, bool_decide_eq_false_2 by apply insert_non_empty.
  set (st1 := add_lazy_delete id (with_persistent (state c) p)).
  assert (E1 : (p ← io_lift (edit_apply [(id, TxLogState.Create b key (Some meta))] (persistent (state c)));
     set_state (add_lazy_deletes_for_created_logs [(id, TxLogState.Create b key (Some meta))] (with_persistent (state c) p))) c
     = (Ok (), shared c st1 (raw c))).
  { unfold edit_apply. cbn [foldM]. rewrite Hap, io_bind_lift. unfold add_lazy_deletes_for_created_logs. cbn [iter_created_logs omap list_omap foldl].
    cbn [lazy_deletes with_persistent]. rewrite Hlz, bool_decide_eq_false_2 by (intros [? ?]; discriminate). reflexivity. }
  io_step E1. io_next. change (open_caches (shared c st1 (raw c))) with (open_caches c). rewrite Hoc, hash_iter_singleton.
  assert (E2 : apply_log_caches [(id, nodes)] (shared c st1 (raw c)) =
     (Ok (), snd (set_open_caches (<[id := ∅]> (open_caches c)) (shared c (committed_state (state c) p id nodes) (raw c))))).
  { cbn [apply_log_caches]. io_next. change (log_caches (state (shared c st1 (raw c)))) with (log_caches (state c)).
    change (caches (state (shared c st1 (raw c)))) with (caches (state c)).
    rewrite (bool_decide_eq_true_2 (id ∈ log_caches (state c))) by exact Hlc. cbn [assert_]. rewrite io_bind_lift, Hca. cbn [default from_option]. rewrite (bool_decide_eq_true_2 (_ = _)) by reflexivity.
    io_next. reflexivity. }
  io_step E2. exists p. eexists. split; [reflexivity|]. split; [done|]. split; [exact Hl|]. by split.
Qed.

(** The raw store after its handler. *)
Definition raw_committed r id (h : RawLogHead) : RawLog.ctx St :=
  let st := RawLog.state r in
  RawLog.with_state r (RawLog.add_lazy_delete id h (RawLog.set_persistent st (mkRawLogStoreState (<[id := h]> (RawLog.log_table (RawLog.persistent st)))))).

Lemma raw_commit_ok c id t h :
  log_edits (RawLog.store_edit (raw c)) = {[id := RawLog.Create t]} → head_append RawLogHead_new t = Ok h →
  RawLog.log_table (RawLog.persistent (RawLog.state (raw c))) !! id = None → RawLog.lazy_deletes (RawLog.state (raw c)) !! id = None →
  raw_commit c = (Ok (), shared c (state c) (raw_committed (raw c) id h)).
Proof.
  intros Hed Hh Hnone Hlz. unfold raw_commit, on_raw. io_next. rewrite Hed, hash_iter_singleton. unfold store_commit_handler.
  rewrite Hed, bool_decide_eq_false_2 by apply insert_non_empty. unfold store_edit_apply. cbn [foldM].
  unfold RawLog.state_create_log. rewrite Hnone. rewrite bool_decide_eq_false_2 by (intros [? ?]; discriminate). cbn [negb assert_]. rewrite !bind_Ok.
  unfold RawLog.state_append_log. cbn [RawLog.log_table]. rewrite lookup_insert_eq. cbn [unwrap]. rewrite bind_Ok, Hh, !bind_Ok.
  unfold RawLog.add_lazy_deletes_for_created_logs. cbn [RawLog.iter_created_logs omap list_omap foldl].
  unfold RawLog.find_log. cbn [RawLog.persistent RawLog.set_persistent RawLog.log_table]. rewrite insert_insert_eq, lookup_insert_eq.
  cbn [RawLog.lazy_deletes RawLog.set_persistent]. rewrite Hlz, bool_decide_eq_false_2 by (intros [? ?]; discriminate).
  unfold RawLog.do_lazy_deletion. cbn [RawLog.iter_deleted_logs omap list_omap foldM]. rewrite !bind_Ok, io_bind_lift. reflexivity.
Qed.

Lemma chunk_commit_ok c :
  in_journal (chunk_state (raw c)) = false → (∀ i x, Chunk.edit_table (RawLog.chunk_edit (raw c)) !! i = Some x → x = Alloc) →
  chunk_commit c = (Ok (), shared c (state c) (raw c)).
Proof.
  intros Hj Hal. unfold chunk_commit, on_raw. io_next. unfold Chunk.commit_handler.
  assert (Hno : dealloc_ids (hash_iter (Chunk.edit_table (RawLog.chunk_edit (raw c)))) = []).
  { assert (Hin : ∀ i x, (i, x) ∈ hash_iter (Chunk.edit_table (RawLog.chunk_edit (raw c))) → x = Alloc).
    { intros i x. rewrite hash_iter_perm. intros Hx%elem_of_map_to_list. by eapply Hal. }
    revert Hin. generalize (hash_iter (Chunk.edit_table (RawLog.chunk_edit (raw c)))).
    induction l as [|[i x] l IH]; intros Hin; [done|]. unfold dealloc_ids in *. cbn. rewrite (Hin i x) by by left.
    cbn. apply IH. intros j y Hj'. apply (Hin j). by right. }
  assert (Hc : (if Chunk.edit_is_empty (RawLog.chunk_edit (raw c)) then Ok (chunk_state (raw c))
     else Chunk.apply_to (hash_iter (Chunk.edit_table (RawLog.chunk_edit (raw c)))) (chunk_state (raw c))) = Ok (chunk_state (raw c))).
  { destruct (Chunk.edit_is_empty _); [done|]. by rewrite apply_to_collect, Hno. }
  rewrite Hc, bind_Ok, io_bind_lift. unfold shared. destruct c as [[] ? ? ? ? ? ? ? ?]. reflexivity.
Qed.
(** ** Publishing *)

(** What the log of the TX has on the disk and in the cache. *)
Lemma writing_content d c0 c addr id b dirty rm room0 ds meta :
  writing d c0 c addr id b dirty rm room0 ds [] [] → has_root d c addr meta → ds ≠ [] → length ds ≤ MAX_ENTRY_QUEUE_CAP →
  ∃ key nodes G bs t, edit_table (store_edit c) = {[id := TxLogState.Create b key rm]} ∧ open_caches c = {[id := nodes]} ∧
    state c = created_state (state c0) id ∧
    ctx_at (mkFrame d id (raw_created (raw c0) id)) (raw c) t ∧ bs = log_content d (disk_store (raw c)) RawLogHead_new t ∧
    tree_at (mkTxLogEntry b key meta) G bs ds ∧ nodes_known nodes G.
Proof.
  intros (il & Hil & Hid & _ & _ & Hst & _ & Hed & _ & Hok & _) Hroot Hne Hmax. specialize (Hroot il Hil).
  destruct Hok as (G & bs & H & ((t & _ & _ & Hctx & Hbs) & [(_ & _ & [nodes Hn] & Hdel) Hknown] & Hs) & Hr & Hmeta & _ & _ & _ & Hblk).
  cbn [crypto_log storage block_log node_cache rd_ctx tc_open tc_id fr_disk] in *.
  assert (Hoc : open_caches c = {[id := nodes]}).
  { rewrite <- (insert_delete_id (open_caches c) id nodes Hn), Hdel. reflexivity. }
  exists (il_key il), nodes, G, bs, t. split; [done|]. split; [done|]. split; [done|]. split; [done|]. split; [done|]. split.
  - split; [done|]. split; [by rewrite !app_nil_r in Hblk|]. split; [done|]. unfold root_meta, root_node in *.
    destruct (root (crypto_log d il c)) as [[meta' n]|] eqn:Er; [|done]. cbn in Hroot. injection Hroot as ->.
    exists H, n. split; [exact (Hmeta _ _ eq_refl)|exact Hr].
  - intros pos n Hp. apply (Hknown pos n). cbn. unfold cached. cbn. rewrite Hid, Hn. cbn. by rewrite Hp.
Qed.

Lemma lazy_ok_insert {O} (next i a : nat) t (objs : gmap nat O) o :
  lazy_ok next t objs → next ≤ i → lazy_ok (S i) (<[i := a]> t) (<[a := o]> objs).
Proof.
  intros Hl Hn j x. rewrite lookup_insert_Some. intros [[<- <-]|[_ Hj]]; [rewrite lookup_insert_eq; split; [lia|by eexists]|].
  destruct (Hl j x Hj) as [Hlt Hs]. split; [lia|]. destruct (decide (a = x)) as [->|Hne].
  - rewrite lookup_insert_eq. by eexists.
  - by rewrite lookup_insert_ne.
Qed.

(** A log published before is still published. *)
Lemma published_kept d c0 c id p h nodes id' b' ds' t :
  published d c0 id' b' ds' → id' ≠ id → ctx_at (mkFrame d id (raw_created (raw c0) id)) (raw c) t →
  log_table p !! id' = log_table (persistent (state c0)) !! id' → state c = created_state (state c0) id →
  published d (shared c (committed_state (state c) p id nodes) (raw_committed (raw c) id h)) id' b' ds'.
Proof.
  intros (en & h' & tl & bs & G & Hen & Hb & (Hh & Hlok & Ht & H32 & Hbs & Hu & ra & ro & Hra & Hro) & Htree & Hkn & Hlc & a & o & Ha & Ho) Hne
    (Hrs & _ & _ & _ & _ & _ & _ & _ & _ & _ & Hkept) Hp Hst.
  destruct (Hkept h' tl Hlok Hu) as (Hu' & _ & Hcont). cbn [fr_disk fr_ctx] in *.
  exists en, h', tl, bs, G. split; [cbn; congruence|]. split; [done|]. split; [|split; [done|split; [|split]]].
  - unfold raw_log_at. cbn. rewrite Hrs. cbn. rewrite lookup_insert_ne by done. split; [done|]. split; [done|]. split; [done|]. split; [done|].
    split; [by rewrite Hcont|]. split; [done|]. rewrite lookup_insert_ne by done. exists ra.
    destruct (decide (ra = fresh (dom (RawLog.lazy_objs (RawLog.state (raw c0)))))) as [->|Hra'].
    + rewrite lookup_insert_eq. by eexists.
    + rewrite lookup_insert_ne by done. by eexists.
  - unfold inner_cache. cbn. rewrite Hst. cbn. by rewrite !lookup_insert_ne.
  - cbn. rewrite Hst. cbn. set_solver.
  - cbn. rewrite Hst. cbn. rewrite lookup_insert_ne by done. exists a.
    destruct (decide (a = fresh (dom (lazy_objs (state c0))))) as [->|Ha'].
    + rewrite lookup_insert_eq. by eexists.
    + rewrite lookup_insert_ne by done. by eexists.
Qed.
(** The new log is published. *)
Lemma published_new d c0 c id b key meta p h tl nodes G bs ds t :
  ctx_at (mkFrame d id (raw_created (raw c0) id)) (raw c) t → bs = log_content d (disk_store (raw c)) RawLogHead_new t →
  log_ok d h tl → t_num_blocks tl = 0 → h_num_blocks h = t_num_blocks t → log_chunks h tl = t_chunks t →
  log_content d (disk_store (raw c)) h tl = log_content d (disk_store (raw c)) RawLogHead_new t →
  tree_at (mkTxLogEntry b key meta) G bs ds → nodes_known nodes G →
  log_table p = <[id := mkTxLogEntry b key meta]> (log_table (persistent (state c))) → state c = created_state (state c0) id →
  published d (shared c (committed_state (state c) p id nodes) (raw_committed (raw c) id h)) id b ds.
Proof.
  intros (_ & _ & _ & _ & _ & _ & Hu & _ & _ & H32 & _) Hbs Hlok Ht0 Hn Hch Hcont Htree Hkn Hp Hst.
  exists (mkTxLogEntry b key meta), h, tl, bs, G. split; [cbn; by rewrite Hp, lookup_insert_eq|]. split; [done|].
  split; [|split; [done|split; [|split]]].
  - split; [cbn; by rewrite lookup_insert_eq|]. split; [done|]. split; [done|]. split; [by rewrite Hn|]. split; [by rewrite Hbs; symmetry|].
    split; [by rewrite Hch|]. cbn. rewrite lookup_insert_eq. eexists _, _. by rewrite lookup_insert_eq.
  - unfold inner_cache. cbn. by rewrite lookup_insert_eq.
  - cbn. rewrite Hst. cbn. set_solver.
  - cbn. rewrite lookup_insert_eq. eexists _, _. by rewrite lookup_insert_eq.
Qed.

Definition publish : io Ctx unit := _ ← commit_handler; _ ← raw_commit; chunk_commit.

Lemma publish_ok d c0 c pub addr b dirty meta room0 ds :
  let id := next_id (raw c0) in
  store_good d c0 pub → writing d c0 c addr id b dirty (Some meta) room0 ds [] [] → has_root d c addr meta →
  ds ≠ [] → length ds ≤ MAX_ENTRY_QUEUE_CAP →
  ∃ c', publish c = (Ok (), c') ∧ store_good d c' (<[id := (b, ds)]> pub) ∧
    ∃ a, lazy_deletes (state c') !! id = Some a ∧ lazy_objs (state c') !! a = Some (mkLazyDelete id false 1).
Proof.
  intros id Hgood Hw Hroot Hne Hmax. pose proof Hgood as ((_ & _ & _ & _ & Hrt & Hws & Hrl) & Htab & Hlz & Hdom & Hpub).
  destruct (good_none d c0 pub Hgood) as (Hnolog & Hnolazy & Hnoraw & Hnorl). fold id in Hnolog, Hnolazy, Hnoraw, Hnorl.
  destruct (writing_content _ _ _ _ _ _ _ _ _ _ _ Hw Hroot Hne Hmax) as (key & nodes & G & bs & t & Hed & Hoc & Hst & Hctx & Hbs & Htree & Hkn).
  pose proof Hctx as (Hrs & Hre & Hv & Hlok & Hti & (Hwf & Hcap & _) & Hu & Hj & Hal & H32 & _). cbn [fr_disk fr_ctx fr_id] in *.
  destruct (head_append_ok d (disk_store (raw c)) RawLogHead_new t Hlok Hti) as (h & tl & Hha & _ & Hlok' & _ & Hnum & Ht0 & Hch & Hcont); [cbn; lia|].
  destruct (commit_handler_ok c id b key meta nodes Hed Hoc) as (p & c1 & E1 & Hp & Hlp & Hst1 & Hr1).
  { by rewrite Hst. } { by rewrite Hst. } { by rewrite Hst. } { rewrite Hst. cbn. set_solver. } { rewrite Hst. cbn. apply lookup_insert_eq. }
  assert (E2 : raw_commit c1 = (Ok (), shared c1 (state c1) (raw_committed (raw c1) id h))).
  { apply (raw_commit_ok c1 id t h); rewrite ?Hr1; [done|done|by rewrite Hrs|by rewrite Hrs]. }
  assert (E3 : chunk_commit (shared c1 (state c1) (raw_committed (raw c1) id h)) = (Ok (), shared c1 (state c1) (raw_committed (raw c1) id h))).
  { rewrite chunk_commit_ok; [done|cbn; by rewrite Hr1|cbn; by rewrite Hr1]. }
  unfold publish. io_step E1. io_step E2. eexists. split; [exact E3|].
  split; [|rewrite Hst1; eexists; cbn; rewrite lookup_insert_eq; split; [reflexivity|apply lookup_insert_eq]].
  rewrite Hst1, Hr1. set (c2 := shared c (committed_state (state c) p id nodes) (raw_committed (raw c) id h)).
  assert (Hg : store_good d c2 (<[id := (b, ds)]> pub)); [|exact Hg].
  split; [|split; [exact Hp|split; [|split]]].
  - unfold raw_good, next_id. cbn. rewrite Hrs. cbn. fold id. split; [done|]. split; [done|]. split; [done|]. split; [done|]. split; [|split].
    + intros i x [[<- _]|[_ Hi%Hrt]]%lookup_insert_Some; unfold id in *; lia.
    + intros i [->%elem_of_singleton|Hi%Hws]%elem_of_union; unfold id in *; lia.
    + replace (id + 1) with (S id) by lia. apply (lazy_ok_insert id); [exact Hrl|done].
  - unfold next_id. cbn. rewrite Hrs, Hst. cbn. fold id. replace (id + 1) with (S id) by lia.
    apply (lazy_ok_insert id); [exact Hlz|done].
  - intros i. cbn. rewrite Hlp, Hst. cbn. destruct (decide (i = id)) as [->|Hi]; [rewrite !lookup_insert_eq; by split; eexists|].
    rewrite !lookup_insert_ne by done. apply Hdom.
  - intros i b' ds' [[<- [= <- <-]]|[Hi Hpi]]%lookup_insert_Some.
    + by apply (published_new d c0 c id b key meta p h tl nodes G bs ds t).
    + apply (published_kept d c0 c id p h nodes i b' ds' t); [by apply Hpub|done|done| |done].
      rewrite Hlp, Hst. cbn. by rewrite lookup_insert_ne.
Qed.
End commit.
