(* ===== verification/TxLogInv.v ===== *)
(** * TxLogInv: the journal mirrors the store

    The state of the journal and the live metadata of the store are updated by two separate handlers of a commit.
    [mirrored c]: they agree, on the TX log store and on the raw log store.  [journal_mirrors_store]: every
    sequence of operations, of any number of TXs, keeps them in agreement, and a store that is formatted or
    recovered starts so ([format_mirrored], [recover_mirrored]).

    [kept v c f] says that the action [f] keeps the view [v]; the tactic [kept_tac] and the hints
    [kept] run through the code of an operation. *)
From stdpp Require Import strings.
From S2P Require Import Prelude BitMap Bio Chunk RawLog CryptoChain CryptoLog CryptoBlob Journal TxLogState TxLog.

(** ** Actions that keep a view of the state *)
Section kept.
Context {S X : Type} (v : S → X).

Definition kept {T} (c : S) (f : io S T) : Prop := ∀ c', v c' = v c → v (snd (f c')) = v c.

Lemma kept_ret {T} c (x : T) : kept c (mret x).
Proof. by intros c'. Qed.
Lemma kept_lift {T} c (x : res T) : kept c (io_lift x).
Proof. by intros c'. Qed.
Lemma kept_bind {T U} c (f : io S T) (k : T → io S U) : kept c f → (∀ x, kept c (k x)) → kept c (f ≫= k).
Proof.
  intros Hf Hk c' Hc. specialize (Hf c' Hc). unfold mbind, io_bind. destruct (f c') as [[x| |] s]; [|done..]. by apply Hk.
Qed.
Lemma kept_get {U} c (k : S → io S U) : (∀ c', v c' = v c → kept c' (k c')) → kept c (io_get ≫= k).
Proof. intros Hk c' Hc. rewrite <- Hc. by apply (Hk c' Hc). Qed.
Lemma kept_fold {T U} (c : S) (f : T → U → io S T) l : (∀ c x t, kept c (f t x)) → ∀ t, kept c (io_fold f t l).
Proof. intros Hf. induction l as [|x l IH]; intros t; cbn; [apply kept_ret|]. apply kept_bind; auto. Qed.
Lemma kept_end {T} c (f : io S T) r c' : kept c f → f c = (r, c') → v c' = v c.
Proof. intros Hk E. specialize (Hk c eq_refl). by rewrite E in Hk. Qed.
End kept.

Create HintDb kept.
#[export] Hint Resolve kept_ret kept_lift : kept.

(** [kept_tac]: the control structure of an action; what is left are its calls. *)
Ltac kept_step :=
  match goal with
  | |- kept _ _ (mbind _ io_get) => apply kept_get; intros ? ?
  | |- kept _ _ (mbind _ _) => apply kept_bind; [|intros ?]
  | |- kept _ _ (match ?x with _ => _ end) => destruct x
  | |- kept _ _ (match ?x with _ => _ end _) => destruct x
  | |- kept _ _ (io_fold _ _ _) => apply kept_fold; intros ? ? ?
  end.
Ltac kept_tac := repeat kept_step; auto with kept.

(** ** The crypto log keeps what an append to its block log keeps *)
Section crypto.
Context {A : Aead} {MP : MhtPod A} {R : Random A} {P : Pages}.
Context {L : Type} {HL : BlockLog L} {C : Type} {HC : NodeCache A C} {X : Type} (w : L → X).
Context (Happ : ∀ l buf pos l', bl_append l buf = Ok (pos, l') → w l' = w l).
Abbreviation sv := (λ s : MhtStorage L C, w (block_log s)).
Abbreviation mv := (λ m : Mht A L C, w (block_log (storage m))).

Lemma kept_cache_get c pos : kept sv c (cache_get pos).
Proof. intros c' H. unfold cache_get. by destruct (nc_get _ _) as [[]| |]. Qed.
Lemma kept_cache_put c pos n : kept sv c (cache_put pos n).
Proof. intros c' H. unfold cache_put. by destruct (nc_put _ _ _). Qed.
Lemma kept_log_append c buf : kept sv c (log_append buf).
Proof.
  intros c' H. unfold log_append. destruct (bl_append _ _) as [[pos l]| |] eqn:E; [|done..]. cbn. by rewrite (Happ _ _ _ _ E).
Qed.
Lemma kept_log_read c pos : kept sv c (log_read pos).
Proof. by intros c' H. Qed.
Lemma kept_log_nblocks c : kept sv c log_nblocks.
Proof. by intros c' H. Qed.
Lemma kept_random_key c : kept sv c CryptoLog.random_key.
Proof. by intros c' H. Qed.
Lemma kept_random_iv c : kept sv c CryptoLog.random_iv.
Proof. by intros c' H. Qed.
#[local] Hint Resolve kept_cache_get kept_cache_put kept_log_append kept_log_read kept_log_nblocks kept_random_key kept_random_iv : kept.

Lemma kept_read_mht_node c pos k mc iv : kept sv c (read_mht_node pos k mc iv).
Proof. unfold read_mht_node. kept_tac. Qed.
Lemma kept_read_data_node c e : kept sv c (read_data_node e).
Proof. unfold read_data_node. kept_tac. Qed.
Lemma kept_append_root c k n : kept sv c (append_root_mht_node k n).
Proof. unfold append_root_mht_node. kept_tac. Qed.
Lemma kept_seal_node c pl i pos b : kept sv c (seal_node pl i pos b).
Proof. unfold seal_node. kept_tac. Qed.
#[local] Hint Resolve kept_read_mht_node kept_read_data_node kept_append_root kept_seal_node : kept.
Lemma kept_seal_mht_nodes c ns : ∀ i pos b, kept sv c (seal_mht_nodes ns i pos b).
Proof. induction ns as [|n ns IH]; intros i pos b; cbn; kept_tac. Qed.
Lemma kept_seal_data_nodes c ns : ∀ i pos b, kept sv c (seal_data_nodes ns i pos b).
Proof. induction ns as [|n ns IH]; intros i pos b; cbn; kept_tac. Qed.
#[local] Hint Resolve kept_seal_mht_nodes kept_seal_data_nodes : kept.
Lemma kept_append_mht_nodes c ns : kept sv c (append_mht_nodes ns).
Proof. unfold append_mht_nodes. kept_tac. Qed.
Lemma kept_storage_append c ns : kept sv c (storage_append_data_nodes ns).
Proof. unfold storage_append_data_nodes. kept_tac. Qed.
Lemma kept_read_unwrap c e : kept sv c (read_unwrap e).
Proof.
  intros c' H. unfold read_unwrap. pose proof (kept_read_mht_node c (e_pos e) (e_key e) (e_mac e) zero_iv c' H) as Hk.
  by destruct (read_mht_node _ _ _ _ _).
Qed.
#[local] Hint Resolve kept_append_mht_nodes kept_storage_append kept_read_unwrap : kept.
Lemma kept_collect c n : ∀ l acc, kept sv c (collect_incomplete n l acc).
Proof. induction n as [|n IH]; intros l acc; cbn; kept_tac. Qed.
#[local] Hint Resolve kept_collect : kept.
Lemma kept_PreviousBuild c r : kept sv c (PreviousBuild_new r).
Proof. unfold PreviousBuild_new. kept_tac. Qed.
Lemma kept_build_hierarchy c n : ∀ pre es t ch th, kept sv c (build_hierarchy n pre es t ch th).
Proof. induction n as [|n IH]; intros pre es t ch th; cbn; kept_tac. Qed.
#[local] Hint Resolve kept_PreviousBuild kept_build_hierarchy : kept.
Lemma kept_tree_build c r es : kept sv c (tree_build r es).
Proof. unfold tree_build. kept_tac. Qed.

Lemma kept_on_storage {T} c (f : io (MhtStorage L C) T) : (∀ s, kept sv s f) → kept mv c (on_storage f).
Proof.
  intros Hf c' H. unfold on_storage. pose proof (Hf (storage c') (storage c') eq_refl) as Hk.
  destruct (f (storage c')) as [x s]. cbn in *. congruence.
Qed.
Lemma kept_set_buf c b : kept mv c (set_buf b).
Proof. by intros c' H. Qed.
Lemma kept_set_root c r : kept mv c (set_root r).
Proof. by intros c' H. Qed.
#[local] Hint Resolve kept_on_storage kept_set_buf kept_set_root kept_tree_build : kept.
Lemma kept_flush_node_queue c : kept mv c flush_node_queue.
Proof. unfold flush_node_queue. kept_tac. Qed.
#[local] Hint Resolve kept_flush_node_queue : kept.
Lemma kept_crypto_flush c : kept mv c CryptoLog.flush.
Proof. unfold CryptoLog.flush, buf_flush, do_build. kept_tac. Qed.
#[local] Hint Resolve kept_crypto_flush : kept.
Lemma kept_crypto_append c buf : kept mv c (CryptoLog.append buf).
Proof. unfold CryptoLog.append, append_data_nodes, buf_append_data_nodes. kept_tac. Qed.
Lemma kept_read_into c e o b : kept mv c (read_into e o b).
Proof. unfold read_into. kept_tac. Qed.
#[local] Hint Resolve kept_read_into : kept.
Lemma kept_read_targets c es : kept mv c (read_targets es).
Proof. induction es as [|e es IH]; cbn; kept_tac. Qed.
#[local] Hint Resolve kept_read_targets : kept.
Lemma kept_search_hierarchy c n : ∀ ts s, kept mv c (search_hierarchy n ts s).
Proof. induction n as [|n IH]; intros ts s; cbn; unfold read_leaves; kept_tac. Qed.
#[local] Hint Resolve kept_search_hierarchy : kept.
Lemma kept_crypto_read c pos buf : kept mv c (CryptoLog.read pos buf).
Proof. unfold CryptoLog.read, search, search_data_nodes, search_entry_queue, search_node_queue. kept_tac. Qed.
End crypto.

(** ** The raw log store *)
Section raw.
Context {B : Bittle} {D St : Type} {HS : BlockSet D St}.
Implicit Types (d : D) (r : RawLog.ctx St).

Definition raw_table r : RawLogStoreState := RawLog.persistent (RawLog.state r).

Lemma arc_drop_table addr r r' : RawLog.arc_drop addr r = Ok r' → raw_table r' = raw_table r.
Proof.
  unfold RawLog.arc_drop. intros (o & _ & H)%bind_inv. destruct (_ =? 1); [|by injection H as <-].
  destruct (RawLog.is_deleted o); [|by injection H as <-]. apply bind_inv in H as (p & _ & [= <-]). done.
Qed.
Lemma raw_create_table r l r' : RawLog.create_log r = Ok (l, r') → raw_table r' = raw_table r.
Proof.
  unfold RawLog.create_log, alloc_log_id, add_to_write_set. intros ([i st] & (j & _ & [= <- <-])%bind_inv & H)%bind_inv.
  apply bind_inv in H as (st & H1 & H). apply bind_inv in H as (e & _ & [= _ <-]). case_bool_decide; [done|]. by injection H1 as <-.
Qed.
Lemma raw_open_table id app r l r' : RawLog.open_log id app r = Ok (l, r') → raw_table r' = raw_table r.
Proof.
  unfold RawLog.open_log, add_to_write_set, arc_clone. intros (a & _ & H)%bind_inv. apply bind_inv in H as (c & Hc & H).
  apply bind_inv in H as (st & Hst & [= _ <-]). apply bind_inv in Hst as (o & _ & [= <-]).
  destruct (RawLog.find_log _ _) as [en|]; [|destruct (RawLog.is_log_created _ _); by simplify_eq].
  destruct app; [|by simplify_eq]. apply bind_inv in Hc as (st & H1 & Hc). apply bind_inv in Hc as (e & _ & [= <-]).
  case_bool_decide; [done|]. by injection H1 as <-.
Qed.
Lemma raw_delete_table id r r' : RawLog.delete_log id r = Ok r' → raw_table r' = raw_table r.
Proof.
  unfold RawLog.delete_log. intros ([o e] & _ & H)%bind_inv. apply bind_inv in H as (c & Hc & [= <-]).
  destruct o; [|by simplify_eq]. apply bind_inv in Hc as (p & _ & [= <-]). done.
Qed.
Lemma raw_delete_unwrap_table id r r' : unwrap_res (RawLog.delete_log id r) = Ok r' → raw_table r' = raw_table r.
Proof. intros H. apply (raw_delete_table id). by destruct (RawLog.delete_log id r). Qed.
Lemma raw_drop_table l r r' : RawLog.drop_log l r = Ok r' → raw_table r' = raw_table r.
Proof.
  unfold RawLog.drop_log. destruct (RawLog.lazy_delete l) as [a|].
  - intros H%arc_drop_table. rewrite H. by destruct (RawLog.can_append l).
  - intros [= <-]. by destruct (RawLog.can_append l).
Qed.
Lemma set_tail_table id t r r' : RawLog.set_tail id t r = Ok r' → raw_table r' = raw_table r.
Proof. unfold RawLog.set_tail. by intros (e & _ & [= <-])%bind_inv. Qed.
Lemma raw_append_table d l buf r x r' : RawLog.append d l buf r = Ok (x, r') → raw_table r' = raw_table r.
Proof.
  unfold RawLog.append, ref_append. destruct (negb _); [done|]. intros (t & _ & H)%bind_inv. apply bind_inv in H as (c & Hc & [= _ <-]).
  apply bind_inv in Hc as (n & _ & Hc). apply bind_inv in Hc as ([t1 c1] & H1 & Hc). apply bind_inv in Hc as (s & _ & Hc).
  apply bind_inv in Hc as (k & _ & Hc). rewrite (set_tail_table _ _ _ _ Hc).
  destruct (0 <? n); [|by injection H1 as _ <-]. apply bind_inv in H1 as ([o p] & _ & H1). apply bind_inv in H1 as (new & _ & H1).
  apply bind_inv in H1 as (c2 & H2 & [= _ <-]). apply (set_tail_table _ _ _ _ H2).
Qed.
Lemma raw_dev_append (l : RawDev D St) buf pos (l' : RawDev D St) :
  bl_append l buf = Ok (pos, l') → raw_table (rd_ctx l') = raw_table (rd_ctx l).
Proof. cbn. intros ([[x lg] r] & H & [= _ <-])%bind_inv. apply (raw_append_table _ _ _ _ _ _ H). Qed.
End raw.

(** ** The operations of the store *)
Section store.
Context {A : Aead} {MP : MhtPod A} {R : Random A} {P : Pages} {B : Bittle} {HO : HashOrder}.
Context {F : FooterPod A} {BP : BlobPod A} {PC : Postcard A (AllEdit A) (AllState A)}.
Context {D St : Type} {HS : BlockSet D St}.
Abbreviation Ctx := (TxLog.ctx (A := A) (D := D) (St := St)).
Implicit Types (d : D) (c : Ctx) (r : RawLog.ctx St) (id : nat) (e : bool).

(** The metadata, the state and the pending edits of the journal; with [e], the edit of the TX too. *)
Definition view e c :=
  (persistent (state c), raw_table (raw c), ej_state (journal c), default [] (ej_group (journal c)),
   if e then Some (store_edit c) else None).

Lemma kept_set_state e c st : persistent st = persistent (state c) → kept (view e) c (set_state st).
Proof. intros H c' Hc. unfold view in *. cbn. rewrite H. injection Hc as <- <- <- <- <-. by destruct e. Qed.
Lemma kept_set_inners e c i : kept (view e) c (set_inners i).
Proof. by intros c' Hc. Qed.
Lemma kept_set_draws e c i : kept (view e) c (set_draws i).
Proof. by intros c' Hc. Qed.
Lemma kept_set_open_logs e c i : kept (view e) c (set_open_logs i).
Proof. by intros c' Hc. Qed.
Lemma kept_set_open_caches e c i : kept (view e) c (set_open_caches i).
Proof. by intros c' Hc. Qed.
Lemma kept_set_edit c i : kept (view false) c (set_edit i).
Proof. by intros c' Hc. Qed.
Lemma kept_on_raw {T} e c (f : RawLog.ctx St → res (T * RawLog.ctx St)) :
  (∀ r x r', f r = Ok (x, r') → raw_table r' = raw_table r) → kept (view e) c (on_raw f).
Proof.
  intros Hf c' Hc. unfold on_raw, mbind, io_bind, io_get, io_lift. destruct (f (raw c')) as [[x r]| |] eqn:E; [|done..].
  rewrite <- Hc. unfold view. cbn. by rewrite (Hf _ _ _ E).
Qed.
Lemma kept_on_raw_unit e c (f : RawLog.ctx St → res (RawLog.ctx St)) :
  (∀ r r', f r = Ok r' → raw_table r' = raw_table r) → kept (view e) c (on_raw (λ r, r ← f r; Ok ((), r))).
Proof. intros Hf. apply kept_on_raw. intros r x r' (r1 & H & [= _ <-])%bind_inv. by apply Hf. Qed.
#[local] Hint Resolve kept_set_state kept_set_inners kept_set_draws kept_set_open_logs kept_set_open_caches kept_set_edit : kept.

Lemma kept_on_crypto {T} e c d addr (f : io (Mht A (RawDev D St) (TxCache A)) T) :
  (∀ m, kept (λ m, raw_table (rd_ctx (block_log (storage m)))) m f) → kept (view e) c (on_crypto d addr f).
Proof.
  intros Hf c' Hc. unfold on_crypto. destruct (inners c' !! addr) as [[il k]|]; [|done].
  pose proof (Hf (crypto_log d il c') (crypto_log d il c') eq_refl) as Hk. destruct (f _) as [x m]. rewrite <- Hc.
  unfold view. cbn in *. by rewrite Hk.
Qed.

Lemma kept_lazy_drop e c ok addr : kept (view e) c (lazy_drop ok addr).
Proof.
  unfold lazy_drop. kept_tac. apply kept_on_raw_unit. intros r r'. apply raw_delete_unwrap_table.
Qed.
Lemma kept_lazy_clone e c addr : kept (view e) c (lazy_clone addr).
Proof. unfold lazy_clone. kept_tac. Qed.
Lemma kept_raw_drop e c ok l : kept (view e) c (raw_drop ok l).
Proof. unfold raw_drop. kept_step. destruct (_ && _); [apply kept_lift|apply kept_on_raw_unit, raw_drop_table]. Qed.
#[local] Hint Resolve kept_lazy_drop kept_lazy_clone kept_raw_drop : kept.
Lemma kept_inner_drop e c ok addr : kept (view e) c (inner_drop ok addr).
Proof. unfold inner_drop. kept_tac. Qed.
Lemma kept_inner_clone e c addr : kept (view e) c (inner_clone addr).
Proof. unfold inner_clone. kept_tac. Qed.
#[local] Hint Resolve kept_inner_drop kept_inner_clone : kept.
Lemma kept_inner_new e c il : kept (view e) c (inner_new il).
Proof. unfold inner_new. kept_tac. Qed.
Lemma kept_draw_key e c : kept (view e) c TxLog.random_key.
Proof. unfold TxLog.random_key. kept_tac. Qed.
#[local] Hint Resolve kept_inner_new kept_draw_key : kept.

Lemma kept_create c b : kept (view false) c (create_log b).
Proof. unfold create_log. repeat kept_step; auto with kept. apply kept_on_raw, raw_create_table. Qed.
Lemma kept_crypto_open c d l k m id : kept (view false) c (crypto_open d l k m id).
Proof. unfold crypto_open. kept_tac. Qed.
#[local] Hint Resolve kept_create kept_crypto_open : kept.
Lemma kept_open c d id app : kept (view false) c (open_log d id app).
Proof. unfold open_log, open_inner_log. kept_tac; apply kept_on_raw, raw_open_table. Qed.
Lemma kept_own_inner e c l : kept (view e) c (own_inner l).
Proof. unfold own_inner. kept_tac. Qed.
Lemma kept_set_dirty e c a : kept (view e) c (set_dirty a).
Proof. unfold set_dirty. kept_tac. Qed.
#[local] Hint Resolve kept_open kept_own_inner kept_set_dirty : kept.
Lemma kept_read c d l pos buf : kept (view false) c (read d l pos buf).
Proof. unfold read. kept_tac. apply kept_on_crypto. intros m. apply (kept_crypto_read (λ l, raw_table (rd_ctx l))). Qed.
Lemma kept_append c d l buf : kept (view false) c (append d l buf).
Proof. unfold append. kept_tac. apply kept_on_crypto. intros m. apply (kept_crypto_append (λ l, raw_table (rd_ctx l))), raw_dev_append. Qed.
Lemma kept_delete c id : kept (view false) c (delete_log id).
Proof. unfold delete_log. kept_tac. Qed.
Lemma kept_move c id b1 b2 : kept (view false) c (move_log id b1 b2).
Proof. unfold move_log. kept_tac. Qed.
Lemma kept_update_dirty c d : kept (view false) c (update_dirty_log_metas d).
Proof.
  unfold update_dirty_log_metas. repeat kept_step; auto with kept; apply kept_on_crypto; intros m.
  - apply (kept_crypto_flush (λ l, raw_table (rd_ctx l))), raw_dev_append.
  - by intros m' Hm.
Qed.
Lemma kept_end_tx c : kept (view false) c end_tx.
Proof. unfold end_tx. kept_tac. Qed.
Lemma kept_chunk_abort e c : kept (view e) c chunk_abort.
Proof. apply kept_on_raw. by intros r x r' (cs & _ & [= _ <-])%bind_inv. Qed.
Lemma kept_chunk_commit e c : kept (view e) c chunk_commit.
Proof. apply kept_on_raw. by intros r x r' (cs & _ & [= _ <-])%bind_inv. Qed.

(** ** The journal *)
Abbreviation JournalT := (EditJournal D (AllEdit A) (AllState A) DefaultCompactPolicy).
Implicit Types j : JournalT.

Definition journal_view j : AllState A * option (list (AllEdit A)) := (ej_state j, ej_group j).

Lemma compact_view j s iv n j' s' : Journal.compact j s iv = Ok (n, j', s') → journal_view j' = journal_view j.
Proof.
  unfold Journal.compact. destruct (_ <=? _); [by intros [= _ <- _]|]. intros ([sn s1] & _ & H)%bind_inv.
  do 6 (apply bind_inv in H as (? & _ & H)). by injection H as _ <- _.
Qed.
Lemma append_write_buf_view j s iv1 iv2 j' s' :
  append_write_buf_to_journal j s iv1 iv2 = Ok (j', s') → journal_view j' = journal_view j.
Proof.
  unfold append_write_buf_to_journal. intros (w & _ & H)%bind_inv. destruct (_ =? 0); [by injection H as <- _|].
  apply bind_inv in H as (c & _ & H). cbv zeta in H. destruct (off_disk c) as [ch s1]. destruct (should_compact _); [|by injection H as <- _].
  apply bind_inv in H as ([[n j1] s2] & Hc & H). apply bind_inv in H as (pl & _ & [= <- _]).
  destruct (Journal.compact _ _ _) as [[[n' j2] s3]| |] eqn:E; [|done..]. apply compact_view in E. injection Hc as <- <- <-. exact E.
Qed.
Lemma journal_commit_view j s iv1 iv2 j' s' :
  Journal.commit j s iv1 iv2 = Ok (j', s') →
  ej_state j' = group_apply (default [] (ej_group j)) (ej_state j) ∧ default [] (ej_group j') = [].
Proof.
  unfold Journal.commit. destruct (ej_group j) as [g|] eqn:Eg; [|by intros [= <- _]; rewrite Eg]. destruct g as [|e g]; [by intros [= <- _]|].
  intros ([j1 s1] & H & [= <- _])%bind_inv. unfold write_record in H.
  destruct (WriteBuf_write _ _); [by injection H as <- _| |done]. apply bind_inv in H as ([j2 s2] & H2 & H). apply append_write_buf_view in H2.
  apply bind_inv in H as (wb & _ & [= <- _]). injection H2 as H2 H3. cbn in *. by rewrite H2, H3.
Qed.
Lemma flush_journal_view j s iv1 iv2 j' s' : flush_journal j s iv1 iv2 = Ok (j', s') → journal_view j' = journal_view j.
Proof.
  unfold flush_journal. intros ([j1 s1] & H1%append_write_buf_view & H)%bind_inv. apply bind_inv in H as (c & _ & H).
  destruct (off_disk c) as [ch s2]. injection H as <- _. exact H1.
Qed.

Lemma add_all_view es : ∀ j, default [] (ej_group j) = [] →
  ej_state (foldl Journal.add j es) = ej_state j ∧ default [] (ej_group (foldl Journal.add j es)) = es.
Proof.
  assert (H : ∀ j, ej_state (foldl Journal.add j es) = ej_state j ∧
     default [] (ej_group (foldl Journal.add j es)) = default [] (ej_group j) ++ es).
  { induction es as [|e es IH]; intros j; cbn; [by rewrite app_nil_r|]. destruct (IH (Journal.add j e)) as [-> ->]. cbn. by rewrite <- app_assoc. }
  intros j Hj. destruct (H j) as [-> ->]. by rewrite Hj.
Qed.

Lemma group_apply_foldM es : ∀ st st' : AllState A, foldM (λ st x, all_edit_apply x st) st es = Ok st' → group_apply es st = st'.
Proof.
  induction es as [|e es IH]; intros st st' H; [by injection H|]. cbn [foldM] in H. apply bind_inv in H as (st1 & H1 & H).
  unfold group_apply in *. cbn. rewrite <- (IH _ _ H). f_equal. unfold Journal.apply_to, AllEdit_Edit. by rewrite H1.
Qed.

(** ** The commit *)
Definition mirrored c : Prop :=
  tx_log_store (ej_state (journal c)) = persistent (state c) ∧ raw_log_store (ej_state (journal c)) = raw_table (raw c) ∧
  default [] (ej_group (journal c)) = [].

Lemma mirrored_view c c' : view false c' = view false c → mirrored c → mirrored c'.
Proof. unfold mirrored, view. intros [= -> -> -> ->]. done. Qed.

Lemma kept_mirrored {T} (f : io Ctx T) : (∀ c, kept (view false) c f) → ∀ c, mirrored c → mirrored (snd (f c)).
Proof. intros Hf c. apply mirrored_view. by apply Hf. Qed.

(** What an edit of the TX makes of the metadata. *)
Definition tx_edited (edit : TxLogStoreEdit A) (p : TxLogStoreState A) : res (TxLogStoreState A) :=
  if TxLogState.edit_is_empty edit then Ok p else edit_apply (hash_iter (TxLogState.edit_table edit)) p.
Definition raw_edited (edit : RawLogStoreEdit) (p : RawLogStoreState) : res RawLogStoreState :=
  if raw_edit_is_empty edit then Ok p else store_edit_apply (hash_iter (log_edits edit)) p.

Lemma kept_apply_log_caches l : ∀ c, kept (view true) c (apply_log_caches l).
Proof. induction l as [|[i oc] l IH]; intros c; cbn; kept_tac. Qed.
Lemma kept_do_lazy_deletion c l : kept (view true) c (do_lazy_deletion l).
Proof. unfold do_lazy_deletion. kept_tac. Qed.
Lemma add_lazy_deletes_persistent l st : persistent (add_lazy_deletes_for_created_logs l st) = persistent st.
Proof.
  unfold add_lazy_deletes_for_created_logs. revert st. induction (iter_created_logs l) as [|i l' IH]; intros st; [done|]. cbn.
  rewrite IH. by case_bool_decide.
Qed.

Lemma commit_handler_view c c' :
  commit_handler c = (Ok (), c') →
  tx_edited (store_edit c) (persistent (state c)) = Ok (persistent (state c')) ∧ raw_table (raw c') = raw_table (raw c) ∧
  ej_state (journal c') = ej_state (journal c) ∧ default [] (ej_group (journal c')) = default [] (ej_group (journal c)) ∧
  store_edit c' = store_edit c.
Proof.
  unfold commit_handler. intros (c0 & c1 & [= <- <-] & H)%io_bind_inv. apply io_bind_inv in H as ([] & c1 & H1 & H).
  apply io_bind_inv in H as (c2 & c3 & [= <- <-] & H). apply io_bind_inv in H as ([] & c2 & H2 & H3).
  apply (kept_end (view true)) in H2; [|apply kept_apply_log_caches]. apply (kept_end (view true)) in H3; [|apply kept_do_lazy_deletion].
  rewrite H2 in H3. unfold view in H3. injection H3 as -> -> -> -> ->. unfold tx_edited.
  destruct (TxLogState.edit_is_empty _); [by injection H1 as <-|]. apply io_bind_inv in H1 as (p & c4 & [= -> <-] & [= <-]).
  cbn. by rewrite add_lazy_deletes_persistent.
Qed.

Lemma raw_do_lazy_deletion_table l : ∀ r r', RawLog.do_lazy_deletion r l = Ok r' →
  raw_table r' = raw_table r ∧ RawLog.store_edit r' = RawLog.store_edit r.
Proof.
  unfold RawLog.do_lazy_deletion. induction (RawLog.iter_deleted_logs l) as [|i l' IH]; intros r r' H; [by injection H as <-|].
  cbn [foldM] in H. apply bind_inv in H as (r1 & H1 & H). destruct (IH _ _ H) as [-> ->].
  destruct (RawLog.lazy_deletes _ !! i); [|by injection H1 as <-]. apply bind_inv in H1 as (o & _ & H1). split; [by rewrite (arc_drop_table _ _ _ H1)|].
  unfold arc_drop in H1. apply bind_inv in H1 as (o' & _ & H1). destruct (_ =? 1); [|by injection H1 as <-].
  destruct (RawLog.is_deleted _); [|by injection H1 as <-]. by apply bind_inv in H1 as (p & _ & [= <-]).
Qed.
Lemma raw_add_lazy_deletes_persistent l st :
  RawLog.persistent (RawLog.add_lazy_deletes_for_created_logs st l) = RawLog.persistent st.
Proof.
  unfold RawLog.add_lazy_deletes_for_created_logs. revert st. induction (RawLog.iter_created_logs l) as [|i l' IH]; intros st; [done|].
  cbn. rewrite IH. destruct (RawLog.find_log _ _); [|done]. by case_bool_decide.
Qed.

Lemma on_raw_inv {T} (f : RawLog.ctx St → res (T * RawLog.ctx St)) c x c' :
  on_raw f c = (Ok x, c') → ∃ r, f (raw c) = Ok (x, r) ∧ c' = snd (set_raw r c).
Proof.
  unfold on_raw, mbind, io_bind, io_get, io_lift. destruct (f (raw c)) as [[y r]| |]; [|done..]. intros [= -> <-]. by exists r.
Qed.

Lemma raw_commit_view c c' :
  raw_commit c = (Ok (), c') →
  raw_edited (RawLog.store_edit (raw c)) (raw_table (raw c)) = Ok (raw_table (raw c')) ∧
  RawLog.store_edit (raw c') = RawLog.store_edit (raw c) ∧ state c' = state c ∧ journal c' = journal c ∧ store_edit c' = store_edit c.
Proof.
  intros (r & H & ->)%on_raw_inv. apply bind_inv in H as (r1 & H & [= ->]). cbn. unfold store_commit_handler in H.
  apply bind_inv in H as (r2 & H1 & H). destruct (raw_do_lazy_deletion_table _ _ _ H) as [-> ->]. unfold raw_edited, raw_edit_is_empty, raw_table.
  case_bool_decide; [by injection H1 as <-|]. apply bind_inv in H1 as (p & -> & [= <-]). cbn.
  by rewrite raw_add_lazy_deletes_persistent.
Qed.

(** The handler of the journal applies the same edits. *)
Lemma foldM_if {T U} (f : T → U → res T) st st' (b : bool) x l :
  foldM f st ((if b then [] else [x]) ++ l) = Ok st' → ∃ s1, (if b then Ok st else f st x) = Ok s1 ∧ foldM f s1 l = Ok st'.
Proof. destruct b; [by exists st|]. cbn [app foldM]. by intros (s1 & H1 & H2)%bind_inv; exists s1. Qed.

Lemma tx_edit_apply edit (st s1 : AllState A) :
  (if TxLogState.edit_is_empty edit then Ok st else all_edit_apply (from_tx_log_edit edit) st) = Ok s1 →
  tx_edited edit (tx_log_store st) = Ok (tx_log_store s1) ∧ raw_log_store s1 = raw_log_store st.
Proof.
  unfold tx_edited, all_edit_apply. cbn [ae_tx_log_edit from_tx_log_edit]. destruct (TxLogState.edit_is_empty edit); [by intros [= <-]|].
  intros (t & -> & H)%bind_inv. apply bind_inv in H as (q & [= <-] & H). by apply bind_inv in H as (k & _ & [= <-]).
Qed.
Lemma raw_edit_apply edit (st s1 : AllState A) :
  (if raw_edit_is_empty edit then Ok st else all_edit_apply (from_raw_log_edit edit) st) = Ok s1 →
  raw_edited edit (raw_log_store st) = Ok (raw_log_store s1) ∧ tx_log_store s1 = tx_log_store st.
Proof.
  unfold raw_edited, all_edit_apply. cbn [ae_raw_log_edit from_raw_log_edit]. destruct (raw_edit_is_empty edit); [by intros [= <-]|].
  intros (t & [= <-] & H)%bind_inv. apply bind_inv in H as (q & -> & H). by apply bind_inv in H as (k & _ & [= <-]).
Qed.
Lemma chunk_edit_apply edit (st s1 : AllState A) :
  (if Chunk.edit_is_empty edit then Ok st else all_edit_apply (from_chunk_edit edit) st) = Ok s1 →
  tx_log_store s1 = tx_log_store st ∧ raw_log_store s1 = raw_log_store st.
Proof.
  destruct (Chunk.edit_is_empty edit); [by intros [= <-]|]. intros (t & [= <-] & H)%bind_inv.
  apply bind_inv in H as (q & [= <-] & H). by apply bind_inv in H as (k & _ & [= <-]).
Qed.

Lemma journal_edits_apply c st st' :
  foldM (λ st x, all_edit_apply x st) st (journal_edits c) = Ok st' →
  tx_edited (store_edit c) (tx_log_store st) = Ok (tx_log_store st') ∧
  raw_edited (RawLog.store_edit (raw c)) (raw_log_store st) = Ok (raw_log_store st').
Proof.
  unfold journal_edits. rewrite <- (app_nil_r (if Chunk.edit_is_empty _ then _ else _)).
  intros (s1 & [H1 H2]%tx_edit_apply & H)%foldM_if. apply foldM_if in H as (s2 & [H3 H4]%raw_edit_apply & H).
  apply foldM_if in H as (s3 & [H5 H6]%chunk_edit_apply & [= <-]). rewrite H1, <- H2, H3. by rewrite H5, H4, H6.
Qed.

Lemma journal_handler_mirrors c c' :
  journal_handler c = (Ok (), c') → default [] (ej_group (journal c)) = [] →
  tx_edited (store_edit c) (tx_log_store (ej_state (journal c))) = Ok (persistent (state c)) →
  raw_edited (RawLog.store_edit (raw c)) (raw_log_store (ej_state (journal c))) = Ok (raw_table (raw c)) → mirrored c'.
Proof.
  unfold journal_handler. intros (c0 & c1 & [= <- <-] & H)%io_bind_inv Hg Ht Hr.
  destruct (add_all_view (journal_edits c) (journal c) Hg) as [Hs He].
  apply io_bind_inv in H as (st & c1 & [= Hst <-] & H). apply io_bind_inv in H as ([j s] & c1 & [= Hj <-] & [= <-]).
  destruct (Journal.commit _ _ _ _) as [[j1 s1]| |] eqn:Ec; [|done..]. injection Hj as <- <-. apply journal_commit_view in Ec as [E1 E2].
  rewrite He in Hst, E1. apply group_apply_foldM in Hst as Hga. rewrite Hga in E1. rewrite Hs in Hst.
  apply journal_edits_apply in Hst as [H1 H2]. unfold mirrored. cbn. rewrite E1, E2. split; [congruence|]. split; [|done]. unfold raw_table in *. cbn in *. congruence.
Qed.

Lemma commit_mirrored d c c' : mirrored c → commit_tx d c = (Ok (), c') → mirrored c'.
Proof.
  intros Hm. unfold commit_tx. destruct (update_dirty_log_metas d c) as [[[]|x|] c1] eqn:Eu.
  - apply (kept_end (view false)) in Eu; [|apply kept_update_dirty]. destruct (mirrored_view _ _ Eu Hm) as (Ht & Hr & Hg). clear Hm Eu.
    intros ([] & c2 & H2 & H)%io_bind_inv. apply commit_handler_view in H2 as (Ht2 & Hr2 & Hj2 & Hg2 & He2).
    apply io_bind_inv in H as ([] & c3 & H3 & H). apply raw_commit_view in H3 as (Hr3 & Hre3 & Hs3 & Hj3 & He3).
    apply io_bind_inv in H as ([] & c4 & (r & Hc & ->)%on_raw_inv & H). apply bind_inv in Hc as (cs & _ & [= <-]).
    eapply journal_handler_mirrors; [exact H|..]; cbn.
    + by rewrite Hj3, Hg2.
    + by rewrite He3, He2, Hj3, Hj2, Ht, Ht2, Hs3.
    + rewrite Hre3, Hj3, Hj2, Hr, <- Hr2. exact Hr3.
  - by intros ([] & c2 & _ & [= ])%io_bind_inv.
  - done.
Qed.

(** ** Runs of the store *)

(** A call of the API, by a TX. *)
Inductive StoreOp :=
  | OCreate (bucket : string)
  | OOpen (id : nat) (can_append : bool)
  | ORead (l : TxLog) (pos : nat) (buf : list byte)
  | OAppend (l : TxLog) (buf : list byte)
  | ODelete (id : nat)
  | OMove (id : nat) (from_bucket to_bucket : string)
  | ODropHandle (l : TxLog)
  | OEnd
  | OSync.

Definition ignore {T} (f : io Ctx T) : io Ctx unit := _ ← f; mret ().

Definition run_op d (op : StoreOp) : io Ctx unit :=
  match op with
  | OCreate b => ignore (create_log b)
  | OOpen id app => ignore (open_log d id app)
  | ORead l pos buf => ignore (read d l pos buf)
  | OAppend l buf => append d l buf
  | ODelete id => delete_log id
  | OMove id b1 b2 => move_log id b1 b2
  | ODropHandle l => drop_handle l
  | OEnd => end_tx
  | OSync => sync d
  end.

(** A step of the store: a call that returns, a TX that commits, fails to commit or aborts, or another
    TX, new or suspended, that goes on. *)
Inductive store_step d : Ctx → Ctx → Prop :=
  | step_op op c x c' : run_op d op c = (x, c') → x ≠ Panic → store_step d c c'
  | step_commit c c' : commit_tx d c = (Ok (), c') → store_step d c c'
  | step_commit_fails c x c1 c' : update_dirty_log_metas d c = (Err x, c1) → commit_tx d c = (Err x, c') → store_step d c c'
  | step_abort c c' : abort_tx c = (Ok (), c') → store_step d c c'
  | step_switch c t : store_step d c (switch_tx t c).

Lemma sync_mirrored d c x c' : mirrored c → sync d c = (x, c') → x ≠ Panic → mirrored c'.
Proof.
  intros (Ht & Hr & Hg) H Hx. unfold sync in H. revert H. unfold mbind, io_bind, io_get, io_lift. cbn.
  destruct (flush_journal _ _ _ _) as [[j s]| |] eqn:E; cbn; [|by intros [= <- <-]..].
  apply flush_journal_view in E as [= E1 E2]. destruct (bs_flush d s); cbn; intros [= _ <-]; unfold mirrored; cbn; by rewrite E1, E2.
Qed.

Lemma op_mirrored d op c x c' : mirrored c → run_op d op c = (x, c') → x ≠ Panic → mirrored c'.
Proof.
  intros Hm.
  assert (Hk : (∀ c, kept (view false) c (run_op d op)) → run_op d op c = (x, c') → x ≠ Panic → mirrored c').
  { intros Hf E _. apply (kept_end (view false)) in E; [|apply Hf]. by apply (mirrored_view _ _ E). }
  destruct op; [apply Hk; intros c0; cbn; unfold ignore, drop_handle; kept_tac..|apply (sync_mirrored d c x c' Hm)];
    auto using kept_create, kept_open, kept_read, kept_append, kept_delete, kept_move, kept_inner_drop, kept_end_tx.
Qed.

Lemma step_mirrored d c c' : mirrored c → store_step d c c' → mirrored c'.
Proof.
  intros Hm Hs. destruct Hs as [op c x c' H Hx|c c' H|c x c1 c' H1 H2|c c' H|c t].
  - by apply (op_mirrored d op c x).
  - by apply (commit_mirrored d c).
  - unfold commit_tx in H2. rewrite H1 in H2. apply (kept_end (view false)) in H1; [|apply kept_update_dirty].
    apply (kept_end (view false)) in H2; [|kept_tac; apply kept_chunk_abort]. apply (mirrored_view c); [congruence|done].
  - apply (kept_end (view false)) in H; [|apply kept_chunk_abort]. by apply (mirrored_view c).
  - by apply (mirrored_view c).
Qed.

(** A formatted store, and a recovered one. *)
Context {SK : Skcipher A} {SP : SuperblockPod A}.

Lemma journal_format_view k0 k1 kj iv d s st n pol j s' :
  Journal.format (Pol := DefaultCompactPolicy) k0 k1 kj iv d s st n pol = Ok (j, s') → journal_view j = (st, Some []).
Proof.
  unfold Journal.format. intros ([sn s1] & _ & H)%bind_inv. do 7 (apply bind_inv in H as (? & _ & H)).
  destruct (off_disk _). by injection H as <- _.
Qed.

Lemma State_from_persistent (p : TxLogStoreState A) : persistent (State_from p) = p.
Proof.
  unfold State_from. cbn. assert (H : ∀ (l : list nat) (st : State), persistent (foldl (λ st id, TxLog.add_lazy_delete id st) st l) = persistent st); [|apply H].
  induction l as [|i l IH]; intros st; [done|]. cbn. by rewrite IH.
Qed.

Lemma format_mirrored d s key k c area sb : TxLog.format d s key k = Ok (c, area, sb) → mirrored c.
Proof.
  unfold TxLog.format. intros ([a b] & _ & H)%bind_inv. do 3 (apply bind_inv in H as (? & _ & H)).
  apply bind_inv in H as ([j s1] & Hj & H). apply journal_format_view in Hj as [= Hj1 Hj2].
  do 2 (apply bind_inv in H as (? & _ & H)). injection H as <- _ _. unfold mirrored. cbn -[State_from]. by rewrite Hj1, Hj2, State_from_persistent.
Qed.

Lemma recover_mirrored fuel d s key k c area sb : TxLog.recover fuel d s key k = Ok (c, area, sb) → mirrored c.
Proof.
  unfold TxLog.recover. intros (a & _ & H)%bind_inv. apply bind_inv in H as (sb' & _ & H). destruct (_ <? _); [done|].
  apply bind_inv in H as (ja & _ & H). apply bind_inv in H as ([j s1] & Hj & H). apply bind_inv in H as (ca & _ & [= <- _ _]).
  unfold mirrored, raw_table. cbn -[State_from]. split; [by rewrite State_from_persistent|]. split; [done|].
  unfold Journal.recover in Hj. apply bind_inv in Hj as ([sn s2] & _ & H). do 2 (apply bind_inv in H as (? & _ & H)).
  apply bind_inv in H as ([ch [b st]] & _ & H). destruct (off_disk ch). apply bind_inv in H as (wb & _ & [= <- _]). done.
Qed.

End store.
