(* ===== verification/TxLogProps.v ===== *)
(** * TxLogProps: the TX log store, end to end

    [txlog_roundtrip]: a TX creates a log, appends to it and commits; then each log of the store,
    the new one and those of before, can be opened in a new TX and reads back its blocks.
    [txlog_recovered]: a store rebuilt from the persistent states, as [recover] does, holds the same logs.
    The theorems at the end are on sequences of calls where the store panics or loses a log. *)
From stdpp Require Import strings.
From S2P Require Import Prelude BitMap Bio Chunk RawLog CryptoChain CryptoLog CryptoLogSpec CryptoLogRun CryptoLogProps.
From S2P Require Import CryptoBlob Journal TxLogState TxLog TxLogDev TxLogSpec TxLogCommit TxLogInv.

Section props.
Context {A : Aead} {HA : AeadSpec A} {MP : MhtPod A} {HMP : MhtPodSpec A MP} {R : Random A} {P : Pages} {HP : PagesSpec P}.
Context {Bt : Bittle} {HB : BittleSpec Bt} {HO : HashOrder} {HHO : HashOrderSpec HO}.
Context {F : FooterPod A} {BP : BlobPod A} {PC : Postcard A (AllEdit A) (AllState A)}.
Context {D St : Type} {HS : BlockSet D St} {HSS : BlockSetSpec D St}.
Abbreviation Ctx := (TxLog.ctx (A := A) (D := D) (St := St)).
Implicit Types (d : D) (c : Ctx) (r : RawLog.ctx St) (id : nat) (b : string) (ds eds qds : list (list byte)).
Implicit Types (pub : gmap nat (string * list (list byte))) (bufs : list (list byte)).

(** ** The round trip *)

(** The blocks of a sequence of appends. *)
Definition bufs_blocks bufs : list (list byte) := concat (map buf_blocks bufs).

(** The appends fit in the free chunks and in a tree of three levels. *)
Definition appends_fit r bufs : Prop :=
  bufs ≠ [] ∧ Forall (λ buf, is_buf (nblocks_of buf) buf) bufs ∧
  length (bufs_blocks bufs) ≤ 2 * (MHT_NBRANCHES * MHT_NBRANCHES) ∧ 8 * length (bufs_blocks bufs) + 5 ≤ store_room r.

Definition append_all d (l : TxLog) bufs : io Ctx unit := io_fold (λ _ buf, append d l buf) () bufs.

Lemma bufs_blocks_cons buf bufs : bufs_blocks (buf :: bufs) = buf_blocks buf ++ bufs_blocks bufs.
Proof. reflexivity. Qed.

Lemma append_all_writing d c0 c addr id b dirty room0 eds qds bufs :
  writing d c0 c addr id b dirty None room0 [] eds qds → Forall (λ buf, is_buf (nblocks_of buf) buf) bufs →
  length (eds ++ qds) + length (bufs_blocks bufs) ≤ 2 * (MHT_NBRANCHES * MHT_NBRANCHES) →
  8 * (length (eds ++ qds) + length (bufs_blocks bufs)) + 5 ≤ room0 →
  ∃ c' eds' qds', append_all d (mkTxLog addr true) bufs c = (Ok (), c') ∧
    writing d c0 c' addr id b (match bufs with [] => dirty | _ => true end) None room0 [] eds' qds' ∧
    eds' ++ qds' = (eds ++ qds) ++ bufs_blocks bufs.
Proof.
  revert c dirty eds qds. induction bufs as [|buf bufs IH]; intros c dirty eds qds Hw Hb Hs Hr.
  { exists c, eds, qds. split; [reflexivity|]. split; [done|]. by rewrite app_nil_r. }
  apply Forall_cons in Hb as [Hbuf Hb]. rewrite bufs_blocks_cons, (length_app (buf_blocks buf)) in Hs, Hr.
  assert (Hlen : length (buf_blocks buf) = nblocks_of buf) by apply buf_blocks_length.
  destruct (append_writing d c0 c addr id b dirty room0 eds qds buf Hw Hbuf) as (c1 & e1 & q1 & E1 & Hw1 & Heq & _); [lia|lia|].
  destruct (IH c1 true e1 q1 Hw1 Hb) as (c2 & e2 & q2 & E2 & Hw2 & Heq2).
  { rewrite Heq, (length_app (eds ++ qds)). lia. } { rewrite Heq, (length_app (eds ++ qds)). lia. }
  exists c2, e2, q2. split; [|split].
  - unfold append_all in *. cbn [io_fold]. io_step E1. exact E2.
  - by destruct bufs.
  - rewrite Heq2, Heq, bufs_blocks_cons. by rewrite <- !app_assoc.
Qed.

(** A log is readable: a new TX opens it and reads its blocks. *)
Definition readable d c id ds : Prop :=
  ∀ k pos num buf, is_buf num buf → pos + num ≤ length ds → usize_ok (pos + num) = true →
    ∃ l c1 c2, open_log d id false (switch_tx (new_tx k) c) = (Ok l, c1) ∧
      read d l pos buf c1 = (Ok (concat (take num (drop pos ds))), c2).

Lemma good_readable d c pub id b ds : store_good d c pub → pub !! id = Some (b, ds) → readable d c id ds.
Proof.
  intros Hg Hid k pos num buf Hbuf Hle Hus. apply (good_switch d c pub (new_tx k)) in Hg.
  pose proof Hg as ((Hv & _) & _ & _ & _ & Hp).
  destruct (open_ok d _ id b ds (Hp _ _ _ Hid) Hv (idle_untouched _ id (idle_new k c))) as (addr & c1 & E1 & Ho).
  destruct (read_open_ok d c1 addr id ds pos num buf false Ho Hbuf Hle Hus) as (c2 & E2). eauto 6.
Qed.

(** A TX that creates a log and appends to it, up to the handler of the journal. *)
Lemma commit_new_log d c pub b bufs :
  let id := next_id (raw c) in
  store_good d c pub → idle c → usize_ok (id + 1) = true → appends_fit (raw c) bufs →
  ∃ l c1 c2 c3, create_log b c = (Ok l, c1) ∧ append_all d l bufs c1 = (Ok (), c2) ∧ commit_tx d c2 = journal_handler c3 ∧
    store_good d c3 (<[id := (b, bufs_blocks bufs)]> pub) ∧
    ∃ a, lazy_deletes (state c3) !! id = Some a ∧ lazy_objs (state c3) !! a = Some (mkLazyDelete id false 1).
Proof.
  intros id Hg Hi Hus (Hne & Hbufs & Hsmall & Hroom).
  destruct (tx_create_ok d c pub b Hg Hi Hus) as (addr & c1 & E1 & Hw1 & _).
  destruct (append_all_writing d c c1 addr _ b false _ [] [] bufs Hw1 Hbufs) as (c2 & e2 & q2 & E2 & Hw2 & Heq); [cbn; lia|cbn; lia|].
  cbn [app] in Heq. destruct bufs as [|buf bufs]; [done|].
  assert (Hnb : bufs_blocks (buf :: bufs) ≠ []).
  { apply Forall_cons in Hbufs as [[Hpos _] _]. rewrite bufs_blocks_cons. intros [Hx _]%app_nil. apply (f_equal length) in Hx.
    rewrite buf_blocks_length in Hx. cbn in Hx. lia. }
  rewrite <- Heq in Hnb, Hsmall, Hroom.
  destruct (update_dirty_ok d c c2 addr _ b _ e2 q2 Hw2 Hnb Hsmall Hroom) as (c2' & meta & room' & E3 & Hw3 & Hroot).
  destruct (publish_ok d c c2' pub addr b true meta room' (e2 ++ q2) Hg Hw3 Hroot Hnb) as (c3 & E4 & Hg3 & Hlz).
  { by destruct (three_levels_small _ Hsmall) as (_ & _ & _ & ?). }
  rewrite Heq in Hg3. exists (mkTxLog addr true), c1, c2, c3. split; [exact E1|]. split; [exact E2|]. split; [|split; [exact Hg3|exact Hlz]].
  unfold commit_tx. rewrite E3. unfold publish in E4. revert E4. unfold mbind, io_bind.
  destruct (commit_handler c2') as [[[]|e|] x]; [|discriminate..].
  destruct (raw_commit x) as [[[]|e|] y]; [|discriminate..]. by intros ->.
Qed.

(** The handler of the journal writes its own area of the disk: it leaves the area [d] of the logs alone. *)
Definition area_kept d (s s' : St) : Prop := bs_valid d s' ∧ ∀ i, i < bs_nblocks d → bs_block d s' i = bs_block d s i.

Lemma good_journaled d c c' pub :
  store_good d c pub → journal_handler c = (Ok (), c') → area_kept d (disk_store (raw c)) (disk_store (raw c')) → store_good d c' pub.
Proof.
  intros ((Hv & Hwf & Hcap & Hj & Hrt & Hws & Hrl) & Htab & Hlz & Hdom & Hpub) E [Hv' Hb].
  assert (Hc : state c' = state c ∧ raw c' = RawLog.with_disk (raw c) (disk_store (raw c'))).
  { unfold journal_handler in E. apply io_bind_inv in E as (? & ? & [= <- <-] & E). apply io_bind_inv in E as (? & ? & [= _ <-] & E).
    apply io_bind_inv in E as ([j s] & ? & [= _ <-] & [= <-]). done. }
  destruct Hc as [Hs Hr]. set (s' := disk_store (raw c')) in *. unfold store_good, raw_good. rewrite Hs, Hr.
  split; [by split_and!|]. split; [exact Htab|]. split; [exact Hlz|]. split; [exact Hdom|]. intros id b ds Hid.
  destruct (Hpub _ _ _ Hid) as (en & h & tl & bs & G & Hen & Hbk & (Hh & Hlok & Ht & H32 & Hbs & Hu & Hlz') & Hrest).
  exists en, h, tl, bs, G. unfold inner_cache. rewrite Hs, Hr. split; [exact Hen|]. split; [exact Hbk|]. split; [|exact Hrest].
  split; [exact Hh|]. split; [exact Hlok|]. split; [exact Ht|]. split; [exact H32|]. split; [|split; [exact Hu|exact Hlz']].
  rewrite Hbs. unfold log_content. apply map_ext_in. intros i [_ Hi]%in_seq. cbn [RawLog.with_disk disk_store]. symmetry. apply Hb.
  destruct Hlok as (Hon & Hcap' & _ & Hall). eapply chunk_pos_range; [exact Hall|].
  unfold log_chunks. rewrite length_app. unfold tail_on, tail_cap in *. lia.
Qed.

(** C2: A TX that creates a log in a bucket, appends buffers to it and commits succeeds up to the handler of
    the journal, which runs on a store that holds the new log with exactly the blocks appended, next to
    the logs there were; a new TX can open each of these logs and read any range of its blocks, then and after
    the journal has written its own area of the disk. *)
Theorem txlog_roundtrip d c pub b bufs :
  store_good d c pub → idle c → usize_ok (next_id (raw c) + 1) = true → appends_fit (raw c) bufs →
  let pub' := <[next_id (raw c) := (b, bufs_blocks bufs)]> pub in
  ∃ l c1 c2 c3, create_log b c = (Ok l, c1) ∧ append_all d l bufs c1 = (Ok (), c2) ∧ commit_tx d c2 = journal_handler c3 ∧
    store_good d c3 pub' ∧ (∀ id b' ds, pub' !! id = Some (b', ds) → readable d c3 id ds) ∧
    ∀ c4, journal_handler c3 = (Ok (), c4) → area_kept d (disk_store (raw c3)) (disk_store (raw c4)) →
      store_good d c4 pub' ∧ ∀ id b' ds, pub' !! id = Some (b', ds) → readable d c4 id ds.
Proof.
  intros Hg Hi Hus Hf pub'. destruct (commit_new_log d c pub b bufs Hg Hi Hus Hf) as (l & c1 & c2 & c3 & E1 & E2 & E3 & Hg3 & _).
  exists l, c1, c2, c3. split; [exact E1|]. split; [exact E2|]. split; [exact E3|]. split; [exact Hg3|]. split.
  - intros id b' ds Hid. by apply (good_readable d c3 pub' id b').
  - intros c4 E4 Hk. pose proof (good_journaled d c3 c4 pub' Hg3 E4 Hk) as Hg4. split; [exact Hg4|].
    intros id b' ds Hid. by apply (good_readable d c4 pub' id b').
Qed.

(** ** Recovery *)
Definition linked {O} (t : gmap nat nat) (objs : gmap nat O) (i : nat) : Prop := ∃ a o, t !! i = Some a ∧ objs !! a = Some o.

Lemma linked_insert {O} t (objs : gmap nat O) i o : linked (<[i := fresh (dom objs)]> t) (<[fresh (dom objs) := o]> objs) i.
Proof. exists (fresh (dom objs)), o. by rewrite !lookup_insert_eq. Qed.
Lemma linked_insert_other {O} t (objs : gmap nat O) i j o :
  i ≠ j → linked t objs j → linked (<[i := fresh (dom objs)]> t) (<[fresh (dom objs) := o]> objs) j.
Proof.
  intros Hij (a & x & Ha & Hx). exists a, x. rewrite lookup_insert_ne by done. split; [done|]. rewrite lookup_insert_ne; [done|].
  intros <-. apply (is_fresh (dom objs)). by apply elem_of_dom_2 in Hx.
Qed.

(** The tables of lazy deletes of a list of logs. *)
Definition link_all {O} (p : gmap nat nat * gmap nat O) (l : list (nat * O)) : gmap nat nat * gmap nat O :=
  foldl (λ p x, (<[fst x := fresh (dom (snd p))]> (fst p), <[fresh (dom (snd p)) := snd x]> (snd p))) p l.

Lemma link_all_ok {O} (l : list (nat * O)) : ∀ p, (∀ i, is_Some (fst p !! i) → linked (fst p) (snd p) i) →
  ∀ i, (is_Some (fst (link_all p l) !! i) ↔ i ∈ l.*1 ∨ is_Some (fst p !! i)) ∧
    (is_Some (fst (link_all p l) !! i) → linked (fst (link_all p l)) (snd (link_all p l)) i).
Proof.
  induction l as [|[x o] l IH]; intros p Hl i.
  { cbn. split; [|apply Hl]. split; [by right|]. intros [H|H]; [by apply elem_of_nil in H|done]. }
  destruct (IH (<[x := fresh (dom (snd p))]> (fst p), <[fresh (dom (snd p)) := o]> (snd p))) with (i := i) as [H1 H2].
  { intros j Hj. cbn [fst snd] in *. destruct (decide (x = j)) as [<-|Hne]; [apply linked_insert|].
    rewrite lookup_insert_ne in Hj by done. by apply linked_insert_other, Hl. }
  split; [|exact H2]. unfold link_all in *. cbn [foldl fst snd] in *. rewrite H1, fmap_cons, elem_of_cons, lookup_insert_is_Some. cbn.
  destruct (decide (x = i)) as [->|Hne]; [tauto|]. assert (i ≠ x) by congruence. tauto.
Qed.

Lemma tx_lazies ids : ∀ st : State (A := A),
  let st' := foldl (λ st id, TxLog.add_lazy_delete id st) st ids in
  (lazy_deletes st', lazy_objs st') = link_all (lazy_deletes st, lazy_objs st) (map (λ id, (id, mkLazyDelete id false 1)) ids).
Proof. induction ids as [|i ids IH]; intros st; [done|]. cbn. by rewrite IH. Qed.

Lemma raw_lazies l : ∀ st : RawLog.State,
  let st' := foldl (λ st '(id, entry), RawLog.add_lazy_delete id entry st) st l in
  (RawLog.lazy_deletes st', RawLog.lazy_objs st') =
  link_all (RawLog.lazy_deletes st, RawLog.lazy_objs st) (map (λ '(id, entry), (id, RawLog.mkLazyDelete entry false 1)) l).
Proof. induction l as [|[i en] l IH]; intros st; [done|]. cbn. by rewrite IH. Qed.

Lemma hash_iter_elem {T} (m : gmap nat T) i : i ∈ (hash_iter m).*1 ↔ is_Some (m !! i).
Proof.
  rewrite (hash_iter_perm T m), list_elem_of_fmap. split.
  - intros ([j x] & -> & Hx%elem_of_map_to_list). by eexists.
  - intros [x Hx]. exists (i, x). split; [done|]. by apply elem_of_map_to_list.
Qed.

(** The lazy deletes of a rebuilt store are those of its logs. *)
Lemma State_from_ok (p : TxLogStoreState A) i :
  (is_Some (lazy_deletes (State_from p) !! i) ↔ is_Some (log_table p !! i)) ∧
  (is_Some (log_table p !! i) → linked (lazy_deletes (State_from p)) (lazy_objs (State_from p)) i ∧ i ∈ log_caches (State_from p)) ∧
  persistent (State_from p) = p ∧ default ∅ (caches (State_from p) !! i) = ∅.
Proof.
  pose proof (tx_lazies (hash_iter (log_table p)).*1 (mkState p ∅ ∅ ∅ ∅)) as H. cbn zeta in H.
  destruct (link_all_ok (map (λ id, (id, mkLazyDelete id false 1)) (hash_iter (log_table p)).*1) (∅, ∅)) with (i := i) as [H1 H2].
  { intros j [x Hx]. cbn in Hx. by rewrite lookup_empty in Hx. }
  cbn [lazy_deletes lazy_objs] in H. rewrite <- H in H1, H2. cbn [fst snd] in H1, H2.
  rewrite <- list_fmap_compose, list_fmap_id, hash_iter_elem in H1.
  assert (H3 : is_Some (lazy_deletes (State_from p) !! i) ↔ is_Some (log_table p !! i)).
  { etransitivity; [exact H1|]. rewrite lookup_empty. split; [by intros [?|[? ?]]|by left]. }
  split; [exact H3|]. split; [|split; [apply State_from_persistent|]].
  - intros Hi. split; [apply H2, H3, Hi|]. cbn. apply elem_of_list_to_set, hash_iter_elem, Hi.
  - cbn. destruct (list_to_map _ !! i) as [m|] eqn:E; [|done]. apply elem_of_list_to_map_2 in E. apply list_elem_of_fmap in E as (j & [= _ ->] & _). done.
Qed.
Lemma State_new_ok (p : RawLogStoreState) i :
  let st := RawLog.State_new p (hash_iter (RawLog.log_table p)) in
  (is_Some (RawLog.lazy_deletes st !! i) ↔ is_Some (RawLog.log_table p !! i)) ∧
  (is_Some (RawLog.log_table p !! i) → linked (RawLog.lazy_deletes st) (RawLog.lazy_objs st) i ∧ i < RawLog.next_free_log_id st).
Proof.
  intros st. set (l := hash_iter (RawLog.log_table p)) in *.
  pose proof (raw_lazies l (RawLog.mkState p 0 ∅ ∅ ∅)) as H. cbn zeta in H.
  destruct (link_all_ok (map (λ '(id, entry), (id, RawLog.mkLazyDelete entry false 1)) l) (∅, ∅)) with (i := i) as [H1 H2].
  { intros j [x Hx]. cbn in Hx. by rewrite lookup_empty in Hx. }
  cbn [RawLog.lazy_deletes RawLog.lazy_objs] in H. rewrite <- H in H1, H2. cbn [fst snd] in H1, H2.
  assert (Hl : (map (λ '(id, entry), (id, RawLog.mkLazyDelete entry false 1)) l).*1 = l.*1).
  { clear. induction l as [|[j en] l IH]; [done|]. cbn. by rewrite <- IH. }
  rewrite Hl in H1. unfold l in H1. rewrite hash_iter_elem in H1. fold l in H1.
  assert (H3 : is_Some (RawLog.lazy_deletes st !! i) ↔ is_Some (RawLog.log_table p !! i)).
  { etransitivity; [exact H1|]. rewrite lookup_empty. split; [by intros [?|[? ?]]|by left]. }
  split; [exact H3|]. intros Hi. split; [apply H2, H3, Hi|]. apply hash_iter_elem in Hi. fold l in Hi. cbn.
  destruct l as [|x l']; [by apply elem_of_nil in Hi|]. pose proof (proj1 (list_max_le (x :: l').*1 (list_max (x :: l').*1)) (le_n _)) as Hm.
  rewrite Forall_forall in Hm. specialize (Hm i Hi). cbn [fmap list_fmap] in *. lia.
Qed.

Lemma published_rebuilt d c id b ds (all : AllState A) j k :
  published d c id b ds → tx_log_store all = persistent (state c) → raw_log_store all = raw_table (raw c) →
  (∀ i, chunk_used (chunk_state (raw c)) i = true → chunk_used (chunk_alloc all) i = true) →
  published d (rebuild all (disk_store (raw c)) j k) id b ds.
Proof.
  intros (en & h & tl & bs & G & Hen & Hb & (Hh & Hlok & Ht & H32 & Hbs & Hu & _) & Htree & _) Htx Hraw Hch.
  assert (Hs : is_Some (log_table (persistent (state c)) !! id)) by by eexists.
  destruct (State_from_ok (persistent (state c)) id) as (_ & Hlk & Hper & Hca). destruct (Hlk Hs) as [(a & o & Ha & Ho) Hlc].
  destruct (State_new_ok (raw_table (raw c)) id) as (_ & Hrk). destruct Hrk as [(ra & ro & Hra & Hro) _]; [by eexists|].
  exists en, h, tl, bs, G. unfold rebuild. rewrite Htx, Hraw. unfold inner_cache. cbn [state from_parts raw].
  rewrite Hper. split; [done|]. split; [done|]. split; [|split; [done|split; [|split; [done|by exists a, o]]]].
  - split; [exact Hh|]. split; [done|]. split; [done|]. split; [done|]. split; [done|]. split; [|by exists ra, ro].
    intros i Hi. exact (Hch i (Hu i Hi)).
  - rewrite Hca. intros pos n Hn. by rewrite lookup_empty in Hn.
Qed.

(** ** A log deleted while another TX has it open *)

(** What [open_log] leaves: the log in the table of the TX, with a reference to its [LazyDelete]. *)
Lemma open_shape d id c l c' a o :
  open_log d id false c = (Ok l, c') → open_logs c !! id = None → lazy_deletes (state c) !! id = Some a → lazy_objs (state c) !! a = Some o →
  ∃ il, inners c' !! h_inner l = Some (il, 2) ∧ il_lazy il = Some a ∧ open_logs c' = <[id := h_inner l]> (open_logs c) ∧
    state c' = lazy_cloned (state c) a o.
Proof.
  intros H Hn Ha Ho. unfold open_log in H. apply io_bind_inv in H as (addr & c1 & H & [= <- <-]). cbn [h_inner].
  unfold open_inner_log in H. apply io_bind_inv in H as (x & y & [= <- <-] & H). rewrite Hn, Ha in H. cbn [ok_or] in H.
  rewrite io_bind_lift in H. apply io_bind_inv in H as (en & y & [= _ <-] & H). destruct (is_log_deleted _ _); [done|].
  apply io_bind_inv in H as ([] & c2 & [= <-] & H). apply io_bind_inv in H as (rl & c3 & H3 & H).
  apply io_bind_inv in H as ([] & y & [= _ <-] & H). apply io_bind_inv in H as (m & c4 & H4 & H).
  apply io_bind_inv in H as (rm & y & [= _ <-] & H). apply io_bind_inv in H as ([] & c5 & H5 & H).
  assert (Hs3 : state c3 = state c ∧ open_logs c3 = open_logs c).
  { unfold on_raw in H3. apply io_bind_inv in H3 as (? & ? & [= <- <-] & H3). apply io_bind_inv in H3 as ([q r] & ? & [= _ <-] & H3).
    apply io_bind_inv in H3 as ([] & ? & [= <-] & [= _ <-]). done. }
  assert (Hs4 : state c4 = state c ∧ open_logs c4 = open_logs c).
  { unfold crypto_open in H4. apply io_bind_inv in H4 as (? & ? & [= <- <-] & H4). destruct (CryptoLog_open _ _ _ _ _) as [m'|e|]; [| |done].
    - apply io_bind_inv in H4 as ([] & ? & [= <-] & [= _ <-]). done.
    - by apply io_bind_inv in H4 as ([] & ? & _ & [= ]). }
  destruct Hs4 as [Hs4 Ho4]. rewrite (lazy_clone_ok c4 a o) in H5 by by rewrite Hs4. injection H5 as <-.
  apply io_bind_inv in H as (addr' & c6 & H6 & H). rewrite inner_new_ok in H6 by (cbn; by rewrite Ho4). injection H6 as <- <-.
  injection H as <- <-. eexists. split; [apply lookup_insert_eq|]. split; [done|]. cbn. rewrite Ho4, Hs4. done.
Qed.

(** The TX that deletes a log the store holds. *)
Lemma delete_ok c id k :
  is_Some (log_table (persistent (state c)) !! id) →
  ∃ c', delete_log id (switch_tx (new_tx k) c) = (Ok (), c') ∧ state c' = state c ∧ inners c' = inners c ∧ raw c' = raw (switch_tx (new_tx k) c) ∧
    open_logs c' = ∅ ∧ open_caches c' = ∅ ∧ edit_table (store_edit c') = {[id := TxLogState.Delete]}.
Proof.
  intros Hid. unfold delete_log. io_next. io_next. change (open_logs (switch_tx (new_tx k) c) !! id) with ((∅ : gmap nat nat) !! id).
  rewrite lookup_empty. io_next. io_next. io_next. unfold do_contain_log, contains_log.
  cbn [state switch_tx new_tx l_open_logs l_open_caches l_store_edit store_edit snd set_open_logs set_open_caches].
  rewrite bool_decide_eq_true_2 by done. cbn. eexists. split; [reflexivity|]. cbn. rewrite !delete_empty. done.
Qed.

Lemma hash_iter_empty {T} : hash_iter (∅ : gmap nat T) = [].
Proof. apply Permutation_nil_r. by rewrite (hash_iter_perm T ∅), map_to_list_empty. Qed.

Lemma delete_commit_ok d c id a :
  edit_table (store_edit c) = {[id := TxLogState.Delete]} → open_logs c = ∅ → open_caches c = ∅ →
  RawLog.store_edit (raw c) = RawLogStoreEdit_new → RawLog.chunk_edit (raw c) = ChunkAllocEdit_new → tables_ok (persistent (state c)) →
  lazy_deletes (state c) !! id = Some a → lazy_objs (state c) !! a = Some (mkLazyDelete id false 2) →
  ∃ c', commit_tx d c = journal_handler c' ∧ inners c' = inners c ∧ lazy_objs (state c') !! a = Some (mkLazyDelete id true 1).
Proof.
  intros Hed Hol Hoc Hre Hce Htab Ha Ho.
  assert (E1 : update_dirty_log_metas d c = (Ok (), c)) by (unfold update_dirty_log_metas; io_next; rewrite Hol, hash_iter_empty; reflexivity).
  pose proof (apply_edit_ok (persistent (state c)) id TxLogState.Delete Htab) as Hap.
  assert (Hp : ∃ p, apply_edit (persistent (state c)) (id, TxLogState.Delete) = Ok p).
  { destruct (log_table (persistent (state c)) !! id) as [en|]; destruct Hap as (p & Hp & _); by exists p. }
  destruct Hp as [p Hp]. clear Hap. set (st := with_persistent (state c) p).
  set (st2 := with_caches (with_lazy st (delete id (lazy_deletes st)) (<[a := mkLazyDelete id true 2]> (lazy_objs st)))
                (log_caches st ∖ {[id]}) (caches st)).
  set (st3 := with_lazy st2 (lazy_deletes st2) (<[a := mkLazyDelete id true 1]> (lazy_objs st2))).
  assert (E2 : commit_handler c = (Ok (), shared c st3 (raw c))).
  { unfold commit_handler. io_next. rewrite Hed, hash_iter_singleton. unfold TxLogState.edit_is_empty.
    rewrite Hed, bool_decide_eq_false_2 by apply insert_non_empty. unfold edit_apply. cbn [foldM]. rewrite Hp.
    rewrite (io_bind_Ok _ _ c () (shared c st (raw c))) by reflexivity. io_next.
    change (open_caches (shared c st (raw c))) with (open_caches c). rewrite Hoc, hash_iter_empty. cbn [apply_log_caches]. io_next.
    unfold do_lazy_deletion. cbn [iter_deleted_logs omap list_omap io_fold].
    assert (E : (c ← io_get; match lazy_deletes (state c) !! id with None => mret () | Some addr =>
        o ← io_lift (unwrap (lazy_objs (state c) !! addr));
        _ ← set_state (with_caches (with_lazy (state c) (delete id (lazy_deletes (state c))) (<[addr := mkLazyDelete (lazy_log o) true (arc_refs o)]> (lazy_objs (state c))))
              (log_caches (state c) ∖ {[id]}) (caches (state c)));
        lazy_drop true addr end) (shared c st (raw c)) = (Ok (), shared c st3 (raw c))).
    { io_next. change (lazy_deletes (state (shared c st (raw c)))) with (lazy_deletes (state c)).
      change (lazy_objs (state (shared c st (raw c)))) with (lazy_objs (state c)). rewrite Ha, Ho. cbn [unwrap]. rewrite io_bind_lift. io_next.
      unfold lazy_drop. io_next. cbn. rewrite lookup_insert_eq. reflexivity. }
    io_step E. reflexivity. }
  assert (E3 : raw_commit (shared c st3 (raw c)) = (Ok (), shared c st3 (raw c))).
  { unfold raw_commit, on_raw. io_next. change (raw (shared c st3 (raw c))) with (raw c). rewrite Hre. change (log_edits RawLogStoreEdit_new) with (∅ : gmap nat RawLogEdit).
    rewrite hash_iter_empty. unfold store_commit_handler. rewrite Hre. reflexivity. }
  assert (E4 : ∃ r, chunk_commit (shared c st3 (raw c)) = (Ok (), shared c st3 r)).
  { unfold chunk_commit, on_raw. io_next. change (raw (shared c st3 (raw c))) with (raw c). rewrite Hce. eexists. reflexivity. }
  destruct E4 as [r E4]. exists (shared c st3 r). split; [|split; [done|apply lookup_insert_eq]].
  unfold commit_tx. rewrite E1. io_step E2. io_step E3. io_step E4. reflexivity.
Qed.

Lemma raw_drop_no_err c l e c' : raw_drop false l c ≠ (Err e, c').
Proof.
  unfold raw_drop. io_next. rewrite andb_true_r. destruct (match _ with Some _ => _ | None => _ end) eqn:El; [done|].
  assert (H : ∀ x, RawLog.drop_log l (raw c) ≠ Err x).
  { intros x. unfold RawLog.drop_log. destruct (RawLog.lazy_delete l) as [a|]; [|done]. unfold arc_drop. cbn [option_bind mbind] in El.
    assert (Ho : RawLog.lazy_objs (RawLog.state (if RawLog.can_append l then RawLog.with_state (raw c) (remove_from_write_set (RawLog.state (raw c)) (RawLog.log_id l)) else raw c))
       = RawLog.lazy_objs (RawLog.state (raw c))) by by destruct (RawLog.can_append l).
    rewrite Ho. cbn in El. destruct (RawLog.lazy_objs (RawLog.state (raw c)) !! a) as [o|]; [|done]. cbn [unwrap]. rewrite bind_Ok.
    destruct (RawLog.is_deleted o), (RawLog.arc_refs o =? 1); done. }
  unfold on_raw, mbind, io_bind, io_get, io_lift. cbn. destruct (RawLog.drop_log l (raw c)) as [r|x|]; cbn; [done|by destruct (H x)|done].
Qed.

(** The end of the TX that has it open: the last reference is dropped outside of a TX. *)
Lemma end_panics c addr id a il o :
  open_logs c = {[id := addr]} → inners c !! addr = Some (il, 1) → il_lazy il = Some a →
  lazy_objs (state c) !! a = Some o → is_deleted o = true → arc_refs o = 1 → ∃ c', end_tx c = (Panic, c').
Proof.
  intros Hol Hi Hl Ho Hd Hr. unfold end_tx. io_next. io_next. rewrite Hol, hash_iter_singleton. cbn [io_fold].
  set (c1 := snd (set_open_logs ∅ c)). set (c2 := snd (set_inners (delete addr (inners c)) c1)).
  assert (E : ∃ c', inner_drop false addr c1 = (Panic, c')).
  { unfold inner_drop. io_next. change (inners c1) with (inners c). rewrite Hi. cbn [unwrap]. rewrite io_bind_lift. cbn [Nat.eqb].
    rewrite (io_bind_Ok _ _ c1 () c2) by reflexivity. unfold mbind at 1, io_bind. destruct (raw_drop false (il_raw il) c2) as [[[]|e|] c3] eqn:Er.
    - assert (Hs : state c3 = state c).
      { unfold raw_drop in Er. apply io_bind_inv in Er as (? & ? & [= <- <-] & Er). destruct (_ && _); [done|].
        apply on_raw_inv in Er as (r & _ & ->). done. }
      rewrite Hl. unfold lazy_drop. io_next. rewrite Hs, Ho. cbn [unwrap]. rewrite io_bind_lift, Hr. cbn [Nat.eqb].
      io_next. rewrite Hd. eexists. reflexivity.
    - by apply raw_drop_no_err in Er.
    - eexists. reflexivity. }
  destruct E as [c' E]. exists c'.
  assert (E' : (t ← inner_drop false addr; mret t) c1 = (Panic, c')) by (unfold mbind, io_bind; by rewrite E). exact E'.
Qed.

(** C35: A log that one TX deletes while another has it open makes the end of the other TX panic.  The deletion is
    lazy: the commit of the deleting TX leaves the log to the other TX, whose end drops the last reference to
    it; the raw log is then to be deleted, where no TX is current. *)
Theorem txlog_deletion_conflict d c pub id b ds a ka kb :
  store_good d c pub → pub !! id = Some (b, ds) →
  lazy_deletes (state c) !! id = Some a → lazy_objs (state c) !! a = Some (mkLazyDelete id false 1) →
  ∃ l c1 c2 c3, open_log d id false (switch_tx (new_tx ka) c) = (Ok l, c1) ∧
    delete_log id (switch_tx (new_tx kb) c1) = (Ok (), c2) ∧ commit_tx d c2 = journal_handler c3 ∧
    ∀ c4, journal_handler c3 = (Ok (), c4) →
      ∃ c5 c6, drop_handle l (switch_tx (local_of c1) c4) = (Ok (), c5) ∧ end_tx c5 = (Panic, c6).
Proof.
  intros Hg Hid Ha Ho. set (ca := switch_tx (new_tx ka) c). pose proof Hg as ((Hv & _) & Htab & _ & Hdom & Hp).
  destruct (open_ok d ca id b ds (Hp _ _ _ Hid) Hv (idle_untouched _ id (idle_new ka c))) as (addr & c1 & E1 & _).
  destruct (open_shape d id ca _ c1 a _ E1 (lookup_empty id) Ha Ho) as (il & Hi & Hl & Hol & Hst). cbn [h_inner arc_refs lazy_log is_deleted] in *.
  assert (Hid1 : is_Some (log_table (persistent (state c1)) !! id)).
  { rewrite Hst. change (is_Some (log_table (persistent (state c)) !! id)). apply Hdom. by rewrite Hid. }
  destruct (delete_ok c1 id kb Hid1) as (c2 & E2 & Hs2 & Hi2 & Hr2 & Ho2 & Hoc2 & He2).
  destruct (delete_commit_ok d c2 id a He2 Ho2 Hoc2) as (c3 & E3 & Hi3 & Hl3).
  { by rewrite Hr2. } { by rewrite Hr2. } { rewrite Hs2, Hst. exact Htab. } { rewrite Hs2, Hst. exact Ha. }
  { rewrite Hs2, Hst. cbn. apply lookup_insert_eq. }
  exists (mkTxLog addr false), c1, c2, c3. split; [exact E1|]. split; [exact E2|]. split; [exact E3|].
  intros c4 E4. assert (Hc4 : inners c4 = inners c3 ∧ state c4 = state c3).
  { unfold journal_handler in E4. apply io_bind_inv in E4 as (? & ? & [= <- <-] & E4). apply io_bind_inv in E4 as (? & ? & [= _ <-] & E4).
    apply io_bind_inv in E4 as ([j s] & ? & [= _ <-] & [= <-]). done. }
  destruct Hc4 as [Hi4 Hs4]. rewrite Hi3, Hi2 in Hi4.
  assert (E5 : drop_handle (mkTxLog addr false) (switch_tx (local_of c1) c4) = (Ok (), snd (set_inners (<[addr := (il, 1)]> (inners c4)) (switch_tx (local_of c1) c4)))).
  { unfold drop_handle, inner_drop. io_next. cbn [h_inner inners switch_tx]. rewrite Hi4, Hi. reflexivity. }
  destruct (end_panics (snd (set_inners (<[addr := (il, 1)]> (inners c4)) (switch_tx (local_of c1) c4))) addr id a il (mkLazyDelete id true 1)) as (c6 & E6);
    [exact Hol|apply lookup_insert_eq|exact Hl|cbn; by rewrite Hs4|done|done|].
  eauto 6.
Qed.

(** ** A log created and deleted in one TX *)
Lemma writing_parts d c0 c addr id b dirty rm room0 ds eds qds :
  writing d c0 c addr id b dirty rm room0 ds eds qds →
  ∃ il key nodes t, inners c !! addr = Some (il, 2) ∧ edit_table (store_edit c) = {[id := TxLogState.Create b key rm]} ∧ open_logs c = {[id := addr]} ∧
    open_caches c = {[id := nodes]} ∧ state c = created_state (state c0) id ∧ ctx_at (mkFrame d id (raw_created (raw c0) id)) (raw c) t.
Proof.
  intros (il & Hil & _ & _ & _ & Hst & Hol & Hed & _ & (G & bs & H & ((t & _ & _ & Hctx & _) & [(_ & _ & [nodes Hn] & Hdel) _] & _) & _) & _).
  cbn [crypto_log storage block_log node_cache rd_ctx tc_open tc_id fr_disk] in *.
  exists il, (il_key il), nodes, t. split; [done|]. split; [done|]. split; [done|]. split; [|by split].
  by rewrite <- (insert_delete_id (open_caches c) id nodes Hn), Hdel.
Qed.

(** Deleting it leaves no open log and a [Delete] edit. *)
Lemma delete_created_ok c addr id b key il nodes :
  inners c !! addr = Some (il, 2) → edit_table (store_edit c) = {[id := TxLogState.Create b key None]} → open_logs c = {[id := addr]} →
  open_caches c = {[id := nodes]} → log_table (persistent (state c)) !! id = None →
  ∃ c', delete_log id c = (Ok (), c') ∧ state c' = state c ∧ raw c' = raw c ∧ open_logs c' = ∅ ∧ open_caches c' = ∅ ∧
    edit_table (store_edit c') = {[id := TxLogState.Delete]}.
Proof.
  intros Hi Hed Hol Hoc Hno. unfold delete_log. io_next. io_next. rewrite Hol, lookup_singleton_eq, delete_singleton_eq.
  set (c1 := snd (set_open_logs ∅ c)). set (c2 := snd (set_inners (<[addr := (il, 1)]> (inners c)) c1)).
  assert (E : inner_drop false addr c1 = (Ok (), c2)) by (unfold inner_drop; io_next; change (inners c1) with (inners c); rewrite Hi; reflexivity).
  io_step E. io_next. io_next. change (open_caches c2) with (open_caches c). rewrite Hoc, delete_singleton_eq.
  unfold do_contain_log, contains_log, is_log_created. change (store_edit c2) with (store_edit c). change (state c2) with (state c).
  rewrite Hno, bool_decide_eq_false_2 by (intros [? ?]; discriminate). rewrite Hed, lookup_singleton_eq. cbn [negb].
  unfold TxLogState.edit_delete_log. change (store_edit (snd (set_open_caches ∅ c2))) with (store_edit c).
  eexists. split; [|split; [|split; [|split; [|split]]]]; [unfold mbind at 1, io_bind, io_get; cbn; rewrite Hed, lookup_singleton_eq; reflexivity|done..|].
  cbn. by rewrite insert_singleton_eq.
Qed.

(** The handler of the store, for the deletion of a log it does not have. *)
Lemma delete_none_ok d c id :
  edit_table (store_edit c) = {[id := TxLogState.Delete]} → open_logs c = ∅ → open_caches c = ∅ → tables_ok (persistent (state c)) →
  log_table (persistent (state c)) !! id = None → lazy_deletes (state c) !! id = None →
  ∃ p, commit_handler c = (Ok (), shared c (with_persistent (state c) p) (raw c)) ∧ log_table p !! id = None.
Proof.
  intros Hed Hol Hoc Htab Hno Hnl. pose proof (apply_edit_ok (persistent (state c)) id TxLogState.Delete Htab) as Hap. rewrite Hno in Hap.
  destruct Hap as (p & Hp & _ & Hlp & _). exists p. split; [|rewrite Hlp; apply lookup_partial_alter_eq].
  unfold commit_handler. io_next. rewrite Hed, hash_iter_singleton. unfold TxLogState.edit_is_empty.
  rewrite Hed, bool_decide_eq_false_2 by apply insert_non_empty. unfold edit_apply. cbn [foldM]. rewrite Hp.
  rewrite (io_bind_Ok _ _ c () (shared c (with_persistent (state c) p) (raw c))) by reflexivity. io_next.
  change (open_caches (shared c (with_persistent (state c) p) (raw c))) with (open_caches c). rewrite Hoc, hash_iter_empty. cbn [apply_log_caches]. io_next.
  unfold do_lazy_deletion. cbn [iter_deleted_logs omap list_omap io_fold]. unfold mbind, io_bind, io_get. cbn. by rewrite Hnl.
Qed.

(** C36: A TX that creates a log, appends to it, deletes it and commits leaves the raw log behind: the store has no log of
    that id, but the raw log is committed to the raw log store, with its chunks; no call reaches it any more. *)
Theorem txlog_created_deleted_leaks d c pub b bufs :
  store_good d c pub → idle c → usize_ok (next_id (raw c) + 1) = true → appends_fit (raw c) bufs →
  ∃ l c1 c2 c3 c4, create_log b c = (Ok l, c1) ∧ append_all d l bufs c1 = (Ok (), c2) ∧ delete_log (next_id (raw c)) c2 = (Ok (), c3) ∧
    commit_tx d c3 = journal_handler c4 ∧ log_table (persistent (state c4)) !! next_id (raw c) = None ∧
    lazy_deletes (state c4) !! next_id (raw c) = None ∧ is_Some (RawLog.log_table (raw_table (raw c4)) !! next_id (raw c)).
Proof.
  intros Hg Hi Hus (_ & Hbufs & Hsmall & Hroom). set (id := next_id (raw c)).
  destruct (tx_create_ok d c pub b Hg Hi Hus) as (addr & c1 & E1 & Hw1 & _).
  destruct (append_all_writing d c c1 addr _ b false _ [] [] bufs Hw1 Hbufs) as (c2 & e2 & q2 & E2 & Hw2 & _); [cbn; lia|cbn; lia|].
  destruct (writing_parts _ _ _ _ _ _ _ _ _ _ _ _ Hw2) as (il & key & nodes & t & Hil & Hed & Hol & Hoc & Hst & Hctx).
  destruct (good_none d c pub Hg) as (Hno & Hnl & Hnr & Hnrl).
  destruct (delete_created_ok c2 addr id b key il nodes Hil Hed Hol Hoc) as (c3 & E3 & Hs3 & Hr3 & Ho3 & Hoc3 & He3); [by rewrite Hst|].
  pose proof Hctx as (Hrs & Hre & Hv & Hlok & Hti & _ & _ & Hj & Hal & H32 & _). cbn [fr_disk fr_ctx fr_id] in *.
  destruct (head_append_ok d (disk_store (raw c2)) RawLogHead_new t Hlok Hti) as (h & tl & Hha & _); [cbn; lia|].
  destruct (delete_none_ok d c3 id He3 Ho3 Hoc3) as (p & E4 & Hp).
  { rewrite Hs3, Hst. exact (proj1 (proj2 Hg)). } { by rewrite Hs3, Hst. } { by rewrite Hs3, Hst. }
  set (c4 := shared c3 (with_persistent (state c3) p) (raw c3)).
  assert (E5 : raw_commit c4 = (Ok (), shared c4 (state c4) (raw_committed (raw c3) id h))).
  { apply (raw_commit_ok c4 id t h); cbn; rewrite ?Hr3, ?Hrs; done. }
  set (c5 := shared c4 (state c4) (raw_committed (raw c3) id h)).
  assert (E6 : chunk_commit c5 = (Ok (), c5)) by (transitivity (@Ok () (), shared c5 (state c5) (raw c5)); [apply chunk_commit_ok; cbn; rewrite Hr3; [exact Hj|exact Hal]|reflexivity]).
  exists (mkTxLog addr true), c1, c2, c3, c5. split; [exact E1|]. split; [exact E2|]. split; [exact E3|]. split; [|split; [|split]].
  - unfold commit_tx. assert (E : update_dirty_log_metas d c3 = (Ok (), c3)) by (unfold update_dirty_log_metas; io_next; rewrite Ho3, hash_iter_empty; reflexivity).
    rewrite E. io_step E4. io_step E5. io_step E6. reflexivity.
  - exact Hp.
  - cbn. rewrite Hs3, Hst. exact Hnl.
  - cbn. rewrite lookup_insert_eq. by eexists.
Qed.
End props.

(** ** A store on a disk of four chunks, for the witnesses *)
Module ToyStore.
Import ToyMht.
#[export] Existing Instance BittleZ.
#[export] Existing Instance BittleZ_spec.
#[export] Existing Instance RawLog.FunDisk.
#[export] Existing Instance RawLog.FunDisk_spec.
#[export] Existing Instance zero_pages.
#[export] Instance toy_footer : FooterPod toy := {|
  footer_bytes _ := replicate 48 0%Z; footer_from_bytes _ := mkFooter toy 0 [] [] 0%Z |}.
#[export] Instance toy_header : BlobPod toy := {|
  header_bytes _ := replicate 32 0%Z; header_from_bytes _ := mkHeader toy 0 [] 0; version_iv v := Z.of_nat v |}.
#[export] Instance toy_codec : Postcard toy (AllEdit toy) (AllState toy) := {|
  record_bytes _ := []; take_record _ := None; snapshot_bytes _ := []; snapshot_from_bytes _ := None |}.

Definition d0 : nat := 4 * CHUNK_NBLOCKS.
Definition all0 : AllState toy := mkAllState (new_in_journal 4) (mkRawLogStoreState ∅) TxLogStoreState_new.
Definition blob0 : CryptoBlob nat := CryptoBlob.open (A := toy) 1%Z 16.
Definition journal0 : EditJournal nat (AllEdit toy) (AllState toy) DefaultCompactPolicy :=
  mkEditJournal all0 (CryptoChain_new (BlockRing_new 100) 1%Z) (mkSnapshotManager blob0 blob0 0 [] (mkSnapshot all0 0))
    (mkDefaultCompactPolicy 0 100) (Some []) (mkWriteBuf [] 0 0).
Definition store0 : TxLog.ctx (A := toy) (D := nat) (St := nat → list byte) :=
  rebuild all0 (λ _, block 0) journal0 0.

Lemma no_entry {T} (i : nat) (x : T) : (∅ : gmap nat T) !! i = Some x → False.
Proof. by rewrite lookup_empty. Qed.

Lemma store0_good : store_good d0 store0 ∅.
Proof.
  split; [|split; [|split; [|split]]].
  - split; [intros i _; apply length_replicate|]. split; [apply (state_new_wf 4 false)|]. split; [apply le_n|]. split; [done|].
    split; [intros i h Hi; by destruct (no_entry i h)|]. split; [intros i Hi; by apply elem_of_empty in Hi|]. intros i a Hi. by destruct (no_entry i a).
  - intros b id. split; [intros Hi; by apply elem_of_empty in Hi|]. intros (en & Hi & _). by destruct (no_entry id en).
  - intros i a Hi. by destruct (no_entry i a).
  - intros id. split; intros [x Hx]; by destruct (no_entry id x).
  - intros id b ds Hi. by destruct (no_entry id (b, ds)).
Qed.

Lemma store0_idle : idle store0.
Proof. done. Qed.

Lemma store0_fits : appends_fit (raw store0) [block 1; block 2].
Proof.
  pose proof (block_buf 1). pose proof (block_buf 2). unfold bufs_blocks.
  split; [discriminate|]. rewrite !Forall_cons, !block_nblocks. split; [done|].
  unfold bufs_blocks. cbn [map concat]. rewrite !buf_blocks_block. cbn [app length]. rewrite MHT_NBRANCHES_eq. split; [lia|].
  unfold store_room. assert (Hf : free_count (chunk_state (raw store0)) = 4) by reflexivity. rewrite Hf.
  assert (1000 ≤ CHUNK_NBLOCKS) by (apply Nat.leb_le; reflexivity). lia.
Qed.
End ToyStore.

Import ToyMht ToyStore.

Lemma txlog_roundtrip_witness :
  ∃ l c1 c2 c3 l' c4 c5, create_log "a" store0 = (Ok l, c1) ∧ append_all d0 l [block 1; block 2] c1 = (Ok (), c2) ∧
    commit_tx d0 c2 = journal_handler c3 ∧ open_log d0 0 false (switch_tx (new_tx 7) c3) = (Ok l', c4) ∧
    read d0 l' 1 (block 0) c4 = (Ok (block 2), c5).
Proof.
  destruct (txlog_roundtrip d0 store0 ∅ "a" [block 1; block 2] store0_good store0_idle eq_refl store0_fits)
    as (l & c1 & c2 & c3 & E1 & E2 & E3 & _ & Hr & _).
  destruct (Hr 0 "a" (bufs_blocks [block 1; block 2]) (lookup_insert_eq _ _ _) 7 1 1 (block 0) (block_buf 0)) as (l' & c4 & c5 & E4 & E5).
  { unfold bufs_blocks. cbn [map concat]. rewrite !buf_blocks_block. cbn [app length]. lia. } { reflexivity. }
  exists l, c1, c2, c3, l', c4, c5. split; [exact E1|]. split; [exact E2|]. split; [exact E3|]. split; [exact E4|].
  rewrite E5. unfold bufs_blocks. cbn [map concat]. rewrite !buf_blocks_block. cbn [app concat take drop]. by rewrite app_nil_r.
Defined.


Lemma txlog_deletion_conflict_witness :
  ∃ c l c1 c2 c3, open_log d0 0 false (switch_tx (new_tx 1) c) = (Ok l, c1) ∧
    delete_log 0 (switch_tx (new_tx 2) c1) = (Ok (), c2) ∧ commit_tx d0 c2 = journal_handler c3 ∧
    ∀ c4, journal_handler c3 = (Ok (), c4) → ∃ c5 c6, drop_handle l (switch_tx (local_of c1) c4) = (Ok (), c5) ∧ end_tx c5 = (Panic, c6).
Proof.
  destruct (commit_new_log d0 store0 ∅ "a" [block 1; block 2] store0_good store0_idle eq_refl store0_fits)
    as (_ & _ & _ & c & _ & _ & _ & Hg & a & Ha & Ho).
  destruct (txlog_deletion_conflict d0 c _ 0 "a" _ a 1 2 Hg (lookup_insert_eq _ _ _) Ha Ho) as (l & c1 & c2 & c3 & H).
  exists c, l, c1, c2, c3. exact H.
Defined.

Lemma txlog_created_deleted_leaks_witness :
  ∃ l c1 c2 c3 c4, create_log "a" store0 = (Ok l, c1) ∧ append_all d0 l [block 1; block 2] c1 = (Ok (), c2) ∧ delete_log 0 c2 = (Ok (), c3) ∧
    commit_tx d0 c3 = journal_handler c4 ∧ is_Some (RawLog.log_table (raw_table (raw c4)) !! 0).
Proof.
  destruct (txlog_created_deleted_leaks d0 store0 ∅ "a" [block 1; block 2] store0_good store0_idle eq_refl store0_fits)
    as (l & c1 & c2 & c3 & c4 & E1 & E2 & E3 & E4 & _ & _ & Hs).
  exists l, c1, c2, c3, c4. exact (conj E1 (conj E2 (conj E3 (conj E4 Hs)))).
Defined.

