(* ===== verification/DiskBio.v ===== *)
(** * DiskBio: [core/src/layers/5-disk/bio.rs], block I/O requests and their queue

    A request is built, submitted once and completed once ([bio_request_lifecycle]); the queue is first in, first out and
    counts its requests ([queue_ok]) as long as its operations do not interleave ([bio_queue_race]).  The callback of a request
    is a name, and completing a request returns the call made; the extension objects, which nothing here reads, are left out. *)
From S2P Require Import Prelude Bio.

Inductive BioType := Read | Write | Sync.
#[global] Instance BioType_eq_dec : EqDecision BioType.
Proof. solve_decision. Defined.

(** [BioResp] *)
Abbreviation BioResp := (res unit).

Inductive BioStatus := Init | Submitted | Completed (resp : BioResp).

(** [BlockBuf]: the bytes behind the pointer. *)
Definition BlockBuf : Type := list byte.

Definition BlockBuf_from_raw_parts (bytes : list byte) : res BlockBuf :=
  _ ← assert_ ((0 <? length bytes) && (length bytes mod BLOCK_SIZE =? 0));
  Ok bytes.

Definition BlockBuf_nblocks (b : BlockBuf) : nat := length b mod BLOCK_SIZE.

Record BioReq := mkBioReq {
  type_ : BioType;
  addr : nat;
  nblocks : N;                  (* u32 *)
  bufs : list BlockBuf;
  status : BioStatus;
  on_complete : option nat;     (* the callback *)
}.

Definition with_status (r : BioReq) (st : BioStatus) : BioReq :=
  mkBioReq (type_ r) (addr r) (nblocks r) (bufs r) st (on_complete r).

Definition take_bufs (r : BioReq) : list BlockBuf * BioReq :=
  (bufs r, mkBioReq (type_ r) (addr r) (nblocks r) [] (status r) (on_complete r)).

Definition nbufs (r : BioReq) : nat := length (bufs r).

Definition submit (r : BioReq) : res BioReq :=
  match status r with Init => Ok (with_status r Submitted) | _ => Panic end.

(** [complete]: the request, and the callback called with the response. *)
Definition complete (r : BioReq) (resp : BioResp) : res (option (nat * BioResp) * BioReq) :=
  match status r with
  | Submitted => Ok ((λ f, (f, resp)) <$> on_complete r, with_status r (Completed resp))
  | _ => Panic
  end.

(** ** The builder *)
Record BioReqBuilder := mkBuilder {
  b_type : BioType;
  b_addr : option nat;
  b_bufs : option (list BlockBuf);
  b_on_complete : option nat;
}.

Definition builder_new (t : BioType) : BioReqBuilder := mkBuilder t None None None.
Definition builder_addr (b : BioReqBuilder) (a : nat) : BioReqBuilder := mkBuilder (b_type b) (Some a) (b_bufs b) (b_on_complete b).
Definition builder_bufs (b : BioReqBuilder) (l : list BlockBuf) : BioReqBuilder := mkBuilder (b_type b) (b_addr b) (Some l) (b_on_complete b).
Definition builder_on_complete (b : BioReqBuilder) (f : nat) : BioReqBuilder := mkBuilder (b_type b) (b_addr b) (b_bufs b) (Some f).

(** [saturating_add] *)
Definition sat_add (a : N) (b : nat) : N := N.min (a + N.of_nat b) usize_max.

Definition build (b : BioReqBuilder) : res BioReq :=
  _ ← (if bool_decide (b_type b = Sync) then
         _ ← assert_ (bool_decide (b_addr b = None)); assert_ (bool_decide (b_bufs b = None))
       else Ok ());
  let addr := default 0 (b_addr b) in
  let bufs := default [] (b_bufs b) in
  let nbytes := foldl (λ sum buf, sat_add sum (length buf)) 0%N bufs in
  let nblocks := ((nbytes / N.of_nat BLOCK_SIZE) mod 2 ^ 32)%N in   (* [as u32] *)
  _ ← assert_ (nblocks <=? 2 ^ 32 - 1)%N;
  Ok (mkBioReq (b_type b) addr nblocks bufs Init (b_on_complete b)).

(** ** The queue *)

(** [num_reqs] is an atomic of its own, which wraps around. *)
Record BioReqQueue := mkQueue { queue : list BioReq; num_reqs : N }.

Definition BioReqQueue_new : BioReqQueue := mkQueue [] 0.

Definition WRAP : N := 2 ^ 64.

(** The steps of [enqueue] and [dequeue], between which other threads may run. *)
Definition push (q : BioReqQueue) (r : BioReq) : BioReqQueue := mkQueue (queue q ++ [r]) (num_reqs q).
Definition fetch_add (q : BioReqQueue) : BioReqQueue := mkQueue (queue q) ((num_reqs q + 1) mod WRAP)%N.
Definition pop (q : BioReqQueue) : option (BioReq * BioReqQueue) :=
  match queue q with [] => None | r :: l => Some (r, mkQueue l (num_reqs q)) end.
Definition fetch_sub (q : BioReqQueue) : BioReqQueue := mkQueue (queue q) ((num_reqs q + (WRAP - 1)) mod WRAP)%N.

Definition enqueue (q : BioReqQueue) (r : BioReq) : res BioReqQueue :=
  r ← submit r;
  Ok (fetch_add (push q r)).

Definition dequeue (q : BioReqQueue) : res (option BioReq * BioReqQueue) :=
  match pop q with
  | Some (r, q) => Ok (Some r, fetch_sub q)
  | None => _ ← assert_ (num_reqs q =? 0)%N; Ok (None, q)
  end.

Definition queue_is_empty (q : BioReqQueue) : bool := (num_reqs q =? 0)%N.

(** ** The life of a request *)
Inductive ReqOp := OSubmit | OComplete (resp : BioResp).

(** A sequence of operations on a request, with the callbacks made. *)
Fixpoint run_req (ops : list ReqOp) (r : BioReq) : res (list (nat * BioResp) * BioReq) :=
  match ops with
  | [] => Ok ([], r)
  | OSubmit :: ops => r ← submit r; run_req ops r
  | OComplete resp :: ops =>
      '(call, r) ← complete r resp;
      '(calls, r) ← run_req ops r;
      Ok (match call with Some x => x :: calls | None => calls end, r)
  end.

Lemma run_completed ops r resp : status r = Completed resp → ops ≠ [] → run_req ops r = Panic.
Proof. intros Hs. destruct ops as [|[|x] ops]; [done|..]; intros _; cbn; unfold submit, complete; by rewrite Hs. Qed.

(** A built request goes through its life exactly once: the sequences of operations on it that do not panic are those that
    submit it and then complete it, once each, or stop before; the callback is called once, with the response, when the request is
    completed.  Building panics only for a sync request with an address or buffers. *)
Theorem bio_request_lifecycle b r :
  build b = Ok r →
  status r = Init ∧ bufs r = default [] (b_bufs b) ∧
  ∀ ops, match run_req ops r with
         | Ok (calls, r') =>
             (ops = [] ∧ calls = [] ∧ status r' = Init) ∨ (ops = [OSubmit] ∧ calls = [] ∧ status r' = Submitted) ∨
             ∃ resp, ops = [OSubmit; OComplete resp] ∧ status r' = Completed resp ∧
               calls = match b_on_complete b with Some f => [(f, resp)] | None => [] end
         | Err _ => False
         | Panic => ops ≠ [] ∧ ops ≠ [OSubmit] ∧ ∀ resp, ops ≠ [OSubmit; OComplete resp]
         end.
Proof.
  unfold build. intros (u & _ & H)%bind_inv. apply bind_inv in H as (u' & _ & [= <-]). split; [done|]. split; [done|]. intros ops.
  destruct ops as [|[|x] ops]; cbn; [by left| |done]. destruct ops as [|[|x] ops]; cbn; [right; by left|done|].
  destruct ops as [|o ops].
  - cbn. right. right. exists x. split; [done|]. split; [done|]. by destruct (b_on_complete b).
  - rewrite (run_completed _ _ x); done.
Qed.

(** ** The queue *)
Definition queue_ok (q : BioReqQueue) : Prop := num_reqs q = N.of_nat (length (queue q)) ∧ (num_reqs q < WRAP)%N.

(** Operations that do not interleave: the queue is first in, first out, and counts its requests. *)
Theorem bio_queue_fifo q :
  queue_ok q →
  (∀ r, status r = Init → (num_reqs q + 1 < WRAP)%N →
     ∃ q', enqueue q r = Ok q' ∧ queue_ok q' ∧ queue q' = queue q ++ [with_status r Submitted]) ∧
  (∃ o q', dequeue q = Ok (o, q') ∧ queue_ok q' ∧ match o with Some r => queue q = r :: queue q' | None => queue q = [] ∧ q' = q end) ∧
  (queue_is_empty q = true ↔ queue q = []).
Proof.
  intros [Hn Hlt]. split; [|split].
  - intros r Hr Hw. unfold enqueue, submit. rewrite Hr. cbn [mbind]. rewrite bind_Ok. eexists. split; [done|]. split; [|done].
    unfold queue_ok, fetch_add, push. cbn. rewrite N.mod_small by done. rewrite length_app. cbn. split; lia.
  - unfold dequeue, pop. destruct (queue q) as [|r l] eqn:E; cbn [length] in Hn.
    + rewrite Hn. cbn. exists None, q. split; [done|]. split; [|done]. split; [by rewrite E|done].
    + eexists _, _. split; [done|]. split; [|done]. unfold queue_ok, fetch_sub. cbn.
      assert (Hm : ((num_reqs q + (WRAP - 1)) mod WRAP)%N = (num_reqs q - 1)%N).
      { replace (num_reqs q + (WRAP - 1))%N with (num_reqs q - 1 + 1 * WRAP)%N by lia. rewrite N.Div0.mod_add. apply N.mod_small. lia. }
      rewrite Hm. split; lia.
  - unfold queue_is_empty. rewrite N.eqb_eq, Hn. destruct (queue q); cbn; split; [done..|lia|done].
Qed.

(** A request that is taken from the queue between the two steps of its enqueue wraps the counter to its maximum; until the
    enqueue counts it, a dequeue of the empty queue fails its assertion, and the empty queue says it is not empty. *)
Theorem bio_queue_race q r :
  queue_ok q → queue q = [] →
  ∃ q', pop (push q r) = Some (r, q') ∧ num_reqs (fetch_sub q') = (WRAP - 1)%N ∧
    dequeue (fetch_sub q') = Panic ∧ queue_is_empty (fetch_sub q') = false ∧ num_reqs (fetch_add (fetch_sub q')) = 0%N.
Proof.
  intros [Hn _] Hq. rewrite Hq in Hn. cbn in Hn. unfold push, pop. rewrite Hq. cbn [app queue]. eexists. split; [done|].
  unfold fetch_sub, fetch_add, dequeue, pop, queue_is_empty. cbn [queue num_reqs]. rewrite Hn. split_and!; vm_compute; reflexivity.
Qed.

(** The length of a buffer in blocks is computed as the remainder, and is always 0. *)
Theorem blockbuf_nblocks_zero bytes b : BlockBuf_from_raw_parts bytes = Ok b → 0 < length b / BLOCK_SIZE ∧ BlockBuf_nblocks b = 0.
Proof.
  unfold BlockBuf_from_raw_parts, BlockBuf_nblocks. intros ([] & H & [= <-])%bind_inv. pose proof BLOCK_SIZE_pos.
  destruct (_ && _) eqn:E; [|done]. apply andb_true_iff in E as [E1%Nat.ltb_lt E2%Nat.eqb_eq]. split; [|done].
  apply Nat.div_str_pos. split; [lia|]. destruct (decide (BLOCK_SIZE ≤ length bytes)); [done|]. rewrite Nat.mod_small in E2 by lia. lia.
Qed.

Definition demo_req : BioReq := mkBioReq Read 3 1%N [replicate BLOCK_SIZE 0%Z] Init (Some 5).

Lemma bio_request_lifecycle_witness :
  ∃ r r', build (builder_on_complete (builder_addr (builder_new Read) 3) 5) = Ok r ∧
    run_req [OSubmit; OComplete (Ok ())] r = Ok ([(5, Ok ())], r').
Proof.
  destruct (bio_request_lifecycle (builder_on_complete (builder_addr (builder_new Read) 3) 5) _ eq_refl) as (_ & _ & H).
  specialize (H [OSubmit; OComplete (Ok ())]). eexists _, _. split; [reflexivity|]. reflexivity.
Defined.

Lemma bio_queue_race_witness : ∃ q', pop (push BioReqQueue_new demo_req) = Some (demo_req, q') ∧ dequeue (fetch_sub q') = Panic.
Proof.
  destruct (bio_queue_race BioReqQueue_new demo_req) as (q' & H1 & _ & H2 & _); [split; [reflexivity|vm_compute; reflexivity]|reflexivity|].
  exists q'. exact (conj H1 H2).
Defined.
