(* ===== verification/DataBuf.v ===== *)
(** * DataBuf: [core/src/layers/5-disk/data_buf.rs], the buffer of blocks to be written

    A map of blocks by address and a flag that makes writers wait from the moment the buffer is full until it is cleared.  A call that
    has to wait returns [None]: it does nothing until another thread clears the buffer.  Locks are held within one call. *)
From S2P Require Import Prelude Bio.

Record DataBuf := mkDataBuf { db_buf : gmap nat (list byte); db_cap : nat; db_is_full : bool }.

Definition DataBuf_new (cap : nat) : DataBuf := mkDataBuf ∅ cap false.

Definition db_get (b : DataBuf) (key : nat) : option (list byte) := db_buf b !! key.

(** The blocks with a key in the inclusive range, in the order of keys. *)
Definition db_get_range (b : DataBuf) (range : nat * nat) : list (nat * list byte) :=
  bt_range (db_buf b) (λ k, (range.1 <=? k) && (k <=? range.2)).

(** [put]: whether the buffer is full, or [None] when the call waits. *)
Definition db_put (b : DataBuf) (key : nat) (data : list byte) : res (option (bool * DataBuf)) :=
  _ ← assert_ (nblocks_of data =? 1);
  if db_is_full b then Ok None else
  _ ← assert_ (length data =? BLOCK_SIZE);   (* [DataBlock::from_buf] *)
  let buf := <[key := data]> (db_buf b) in
  let full := db_cap b <=? size buf in
  Ok (Some (full, mkDataBuf buf (db_cap b) full)).

Definition db_nblocks (b : DataBuf) : nat := size (db_buf b).
Definition db_at_capacity (b : DataBuf) : bool := db_cap b <=? db_nblocks b.
Definition db_is_empty (b : DataBuf) : bool := db_nblocks b =? 0.
Definition db_clear (b : DataBuf) : DataBuf := mkDataBuf ∅ (db_cap b) false.
Definition db_all_blocks (b : DataBuf) : list (nat * list byte) := bt_iter (db_buf b).

(** ** The flag *)

(** The flag is set exactly when the buffer is full. *)
Definition db_ok (b : DataBuf) : Prop := 0 < db_cap b ∧ db_is_full b = (db_cap b <=? size (db_buf b)) ∧ size (db_buf b) ≤ db_cap b.

Lemma db_new_ok cap : 0 < cap → db_ok (DataBuf_new cap).
Proof. intros Hc. split; [done|]. cbn. rewrite map_size_empty. split; [|lia]. symmetry. apply Nat.leb_gt. lia. Qed.

Lemma db_put_ok b k v :
  db_ok b → db_is_full b = false → length v = BLOCK_SIZE →
  ∃ full b', db_put b k v = Ok (Some (full, b')) ∧ db_ok b' ∧ db_buf b' = <[k := v]> (db_buf b) ∧ db_cap b' = db_cap b ∧ full = db_is_full b'.
Proof.
  intros (Hc & Hf & Hs) Hn Hv. unfold db_put. pose proof BLOCK_SIZE_pos.
  assert (E : nblocks_of v =? 1 = true) by (unfold nblocks_of; rewrite Hv, Nat.div_same by lia; done).
  rewrite E. cbn [assert_]. rewrite bind_Ok, Hn, Hv, Nat.eqb_refl. cbn [assert_]. rewrite bind_Ok. eexists _, _. split; [done|]. split; [|done].
  split; [done|]. split; [done|]. cbn. rewrite Hf in Hn. apply Nat.leb_gt in Hn. destruct (db_buf b !! k) as [w|] eqn:Ek.
  - rewrite map_size_insert_Some by by eexists. lia.
  - rewrite map_size_insert_None by done. lia.
Qed.

Lemma db_clear_ok b : db_ok b → db_ok (db_clear b) ∧ db_is_full (db_clear b) = false.
Proof. intros (Hc & _). split; [|done]. by apply db_new_ok. Qed.
Lemma db_clear_nblocks b : db_nblocks (db_clear b) = 0.
Proof. apply map_size_empty. Qed.
