(* ===== verification/ReadCache.v ===== *)
(** * ReadCache: [core/src/layers/5-disk/read_cache.rs], the cache of data blocks

    A vector of slots and a doubly linked list over them, kept in two arrays, for the order of eviction.
    Slot 0 is also the head of the list: it is never moved and, with more than one slot, never evicted
    ([slot0_pinned]).  The access time of an entry, which nothing reads, is left out.

    [lru_refines_list]: the arrays implement a list that moves a visited slot to the front.
    [read_cache_coherent]: the cache is a map from which a put may drop one other key; no operation panics. *)
From S2P Require Import Prelude Bio.

(** ** The list of slots *)
Record LRU := mkLRU { prev : list nat; next : list nat }.

Definition LRU_new (size : nat) : res LRU :=
  n ← usub size 1;
  Ok (mkLRU ([n] ++ seq 0 n) (seq 1 n ++ [0])).

Definition list_remove (l : LRU) (id : nat) : res LRU :=
  p ← index (prev l) id;
  n ← index (next l) id;
  prev' ← index_set (prev l) n p;
  next' ← index_set (next l) p n;
  Ok (mkLRU prev' next').

Definition list_insert_head (l : LRU) (id : nat) : res LRU :=
  head ← index (next l) 0;
  prev' ← index_set (prev l) id 0;
  next' ← index_set (next l) id head;
  next' ← index_set next' 0 id;
  prev' ← index_set prev' head id;
  Ok (mkLRU prev' next').

Definition visit (l : LRU) (id : nat) : res LRU :=
  if (id =? 0) || (length (prev l) <=? id) then Ok l else
  l ← list_remove l id;
  list_insert_head l id.

Definition victim (l : LRU) : res nat := index (prev l) 0.

(** ** The cache *)
Record ReadCache := mkReadCache {
  cache : list (option (nat * list byte));
  lru : LRU;
  capacity : nat;
  size : nat;
}.

Definition ReadCache_new (capacity : nat) : res ReadCache :=
  l ← LRU_new capacity;
  Ok (mkReadCache (replicate capacity None) l capacity 0).

(** The search loop: the first slot with the key. *)
Fixpoint find_slot (key : nat) (slots : list (option (nat * list byte))) (i : nat) : option (nat * list byte) :=
  match slots with
  | [] => None
  | Some (k, data) :: slots => if k =? key then Some (i, data) else find_slot key slots (S i)
  | None :: slots => find_slot key slots (S i)
  end.

Definition rc_get (c : ReadCache) (key : nat) : res (option (list byte) * ReadCache) :=
  match find_slot key (cache c) 0 with
  | Some (i, data) => l ← visit (lru c) i; Ok (Some data, mkReadCache (cache c) l (capacity c) (size c))
  | None => Ok (None, c)
  end.

Definition rc_contains (c : ReadCache) (key : nat) : bool :=
  match find_slot key (cache c) 0 with Some _ => true | None => false end.

Definition rc_put (c : ReadCache) (key : nat) (data : list byte) : res ReadCache :=
  _ ← assert_ (length data =? BLOCK_SIZE);
  match find_slot key (cache c) 0 with
  | Some (i, _) =>
      cache' ← index_set (cache c) i (Some (key, data));
      l ← visit (lru c) i;
      Ok (mkReadCache cache' l (capacity c) (size c))
  | None =>
      slot ← (if size c <? capacity c then Ok (size c) else victim (lru c));
      cache' ← index_set (cache c) slot (Some (key, data));
      l ← visit (lru c) slot;
      Ok (mkReadCache cache' l (capacity c) (if size c <? capacity c then size c + 1 else size c))
  end.

Definition rc_clear (c : ReadCache) : res ReadCache :=
  l ← LRU_new (capacity c);
  Ok (mkReadCache (replicate (capacity c) None) l (capacity c) 0).

(** ** The arrays implement a list *)

(** The order of the slots: [l] are the slots from the most recent to the least recent, without slot 0. *)
Definition link (a : LRU) (x y : nat) : Prop := next a !! x = Some y ∧ prev a !! y = Some x.

Definition path (a : LRU) (p : list nat) : Prop := ∀ i x y, p !! i = Some x → p !! S i = Some y → link a x y.

Definition lru_list (a : LRU) (n : nat) (l : list nat) : Prop :=
  length (prev a) = n ∧ length (next a) = n ∧ path a (0 :: l ++ [0]) ∧ 0 :: l ≡ₚ seq 0 n.

Lemma path_cons a x y p : path a (x :: y :: p) ↔ link a x y ∧ path a (y :: p).
Proof.
  split.
  - intros H. split; [by apply (H 0)|]. intros i u v Hu Hv. by apply (H (S i)).
  - intros [Hl H] [|i] u v Hu Hv; [by simplify_eq/=|]. by apply (H i).
Qed.

Lemma path_app a p x q : path a (p ++ x :: q) ↔ path a (p ++ [x]) ∧ path a (x :: q).
Proof.
  induction p as [|y p IH]; cbn [app].
  - split; [intros H; split; [|done]|by intros [_ H]]. intros [|i] u v Hu Hv; cbn in *; simplify_eq.
  - destruct p as [|z p]; cbn [app] in *; rewrite !path_cons; [|rewrite IH; tauto].
    split; [|tauto]. intros [Hl H]. split; [|done]. split; [done|]. intros [|i] u v Hu Hv; cbn in *; simplify_eq.
Qed.

(** Links whose source and target are not written stay. *)
Lemma path_frame a a' p x :
  path a (p ++ [x]) → (∀ u, u ∈ p → next a' !! u = next a !! u) → (∀ v, v ∈ tail (p ++ [x]) → prev a' !! v = prev a !! v) →
  path a' (p ++ [x]).
Proof.
  intros H Hn Hp i u v Hu Hv. destruct (H i u v Hu Hv) as [H1 H2]. split.
  - rewrite Hn; [done|]. apply lookup_lt_Some in Hv as Hlt. rewrite length_app in Hlt. cbn in Hlt.
    rewrite lookup_app_l in Hu by lia. by eapply list_elem_of_lookup_2.
  - rewrite Hp; [done|]. destruct (p ++ [x]) as [|y q]; [done|]. cbn in *. by eapply list_elem_of_lookup_2.
Qed.

(** A slot in the middle is taken out. *)
Lemma list_remove_ok a n l1 id l2 :
  length (prev a) = n → length (next a) = n → path a (0 :: (l1 ++ id :: l2) ++ [0]) → NoDup (0 :: l1 ++ id :: l2) →
  Forall (λ x, x < n) (0 :: l1 ++ id :: l2) →
  ∃ a', list_remove a id = Ok a' ∧ length (prev a') = n ∧ length (next a') = n ∧ path a' (0 :: (l1 ++ l2) ++ [0]).
Proof.
  intros Hp Hn Hpath Hnd Hlt.
  destruct (exists_last (l := 0 :: l1)) as (p1 & p & Ep); [done|].
  assert (Eq : ∃ q p2, l2 ++ [0] = q :: p2) by (destruct l2 as [|q p2]; [by exists 0, []|by exists q, (p2 ++ [0])]). destruct Eq as (q & p2 & Eq).
  assert (E : 0 :: (l1 ++ id :: l2) ++ [0] = p1 ++ p :: id :: q :: p2).
  { rewrite <- app_assoc. cbn [app]. rewrite Eq, app_comm_cons, Ep. by rewrite <- app_assoc. }
  rewrite E, path_app, path_cons, path_cons in Hpath. destruct Hpath as (H1 & [Hl1 Hl1'] & [Hl2 Hl2'] & H2).
  assert (Hq : q < n ∧ p < n).
  { rewrite Forall_forall in Hlt. split; apply Hlt.
    - apply elem_of_cons. destruct l2 as [|z l2]; cbn in Eq; [left; congruence|]. right. apply elem_of_app. right. right. injection Eq as <- _. left.
    - rewrite app_comm_cons, Ep, <- app_assoc. apply elem_of_app. right. left. }
  exists (mkLRU (<[q := p]> (prev a)) (<[p := q]> (next a))). unfold list_remove.
  rewrite (index_ok _ _ _ Hl1'), bind_Ok, (index_ok _ _ _ Hl2), bind_Ok, (index_set_ok (prev a) q p), bind_Ok, (index_set_ok (next a) p q), bind_Ok by lia.
  split; [done|]. cbn [prev next]. rewrite !length_insert. split; [done|]. split; [done|].
  assert (E' : 0 :: (l1 ++ l2) ++ [0] = p1 ++ p :: q :: p2).
  { rewrite <- app_assoc, Eq, app_comm_cons, Ep. by rewrite <- app_assoc. }
  rewrite E', path_app, path_cons.
  assert (Hnd' : NoDup ((p1 ++ [p]) ++ id :: l2)) by (rewrite <- Ep; exact Hnd).
  apply NoDup_app in Hnd' as (Hnd1 & Hdis & Hnd2). apply NoDup_app in Hnd1 as (Hndp & Hpp & _).
  assert (Hpl : p ∉ l2) by (intros Hin; apply (Hdis p); [apply elem_of_app; right; left|by right]).
  assert (H0 : 0 ∉ l1 ++ id :: l2) by (by apply NoDup_cons in Hnd as [? _]).
  assert (Hlast : ∃ p3, q :: p2 = p3 ++ [0] ∧ ∀ u, u ∈ p3 → u ∈ l2) by (rewrite <- Eq; by exists l2).
  destruct Hlast as (p3 & E3 & Hp3).
  split; [|split].
  - apply (path_frame a); [done|..]; cbn [prev next].
    + intros u Hu. rewrite list_lookup_insert_ne; [done|]. intros <-. apply (Hpp p Hu). left.
    + intros v Hv. rewrite <- Ep in Hv. cbn in Hv. rewrite list_lookup_insert_ne; [done|]. intros <-.
      destruct l2 as [|z l2]; cbn in Eq; injection Eq as <- _.
      * apply H0, elem_of_app. by left.
      * apply (Hdis z); [rewrite <- Ep; by right|right; left].
  - split; cbn [prev next]; by rewrite list_lookup_insert_eq by lia.
  - rewrite E3 in H2 |- *. apply (path_frame a); [done|..]; cbn [prev next].
    + intros u Hu. rewrite list_lookup_insert_ne; [done|]. intros ->. by apply Hpl, Hp3.
    + intros v Hv. rewrite <- E3 in Hv. cbn in Hv. rewrite list_lookup_insert_ne; [done|]. intros <-.
      assert (Hndq : NoDup (q :: p2)); [|by apply NoDup_cons in Hndq as [? _]]. rewrite <- Eq. apply NoDup_app. apply NoDup_cons in Hnd2 as [_ Hnd2].
      split; [done|]. split; [|apply NoDup_singleton]. intros u Hu ->%list_elem_of_singleton. apply H0, elem_of_app. right. by right.
Qed.

(** A slot outside of the list becomes its first. *)
Lemma list_insert_head_ok a n id l :
  length (prev a) = n → length (next a) = n → path a (0 :: l ++ [0]) → NoDup (0 :: id :: l) → Forall (λ x, x < n) (0 :: id :: l) →
  ∃ a', list_insert_head a id = Ok a' ∧ length (prev a') = n ∧ length (next a') = n ∧ path a' (0 :: (id :: l) ++ [0]).
Proof.
  intros Hp Hn Hpath Hnd Hlt.
  assert (Eq : ∃ h p2, l ++ [0] = h :: p2) by (destruct l as [|h p2]; [by exists 0, []|by exists h, (p2 ++ [0])]). destruct Eq as (h & p2 & Eq).
  rewrite Eq, path_cons in Hpath. destruct Hpath as [[Hl1 Hl1'] H2].
  apply NoDup_cons in Hnd as [H0 Hnd]. apply NoDup_cons in Hnd as [Hid Hnd]. apply not_elem_of_cons in H0 as [H0id H0].
  assert (Hh : h < n ∧ id < n ∧ 0 < n).
  { rewrite Forall_forall in Hlt. split; [|split; apply Hlt; [right; left|left]]. apply Hlt.
    destruct l as [|z l]; cbn in Eq; injection Eq as <- _; [left|right; right; left]. }
  assert (Hhid : h ≠ id) by (destruct l as [|z l]; cbn in Eq; injection Eq as <- _; [done|]; intros ->; apply Hid; left).
  exists (mkLRU (<[h := id]> (<[id := 0]> (prev a))) (<[0 := id]> (<[id := h]> (next a)))). unfold list_insert_head.
  rewrite (index_ok _ _ _ Hl1), bind_Ok, (index_set_ok (prev a) id 0), bind_Ok, (index_set_ok (next a) id h), bind_Ok by lia.
  rewrite (index_set_ok (<[id := h]> (next a)) 0 id), bind_Ok by (rewrite length_insert; lia).
  rewrite (index_set_ok (<[id := 0]> (prev a)) h id), bind_Ok by (rewrite length_insert; lia).
  split; [done|]. cbn [prev next]. rewrite !length_insert. split; [done|]. split; [done|]. cbn [app]. rewrite Eq, !path_cons. split; [|split].
  - split; cbn [prev next]; [by rewrite list_lookup_insert_eq by (rewrite length_insert; lia)|].
    rewrite list_lookup_insert_ne by done. by rewrite list_lookup_insert_eq by lia.
  - split; cbn [prev next]; [|by rewrite list_lookup_insert_eq by (rewrite length_insert; lia)].
    rewrite list_lookup_insert_ne by done. by rewrite list_lookup_insert_eq by lia.
  - rewrite <- Eq in H2 |- *. apply (path_frame a); [done|..]; cbn [prev next].
    + intros u Hu. rewrite !list_lookup_insert_ne; [done|intros <-; by apply Hid|intros <-; by apply H0].
    + intros v Hv. rewrite Eq in Hv. cbn in Hv.
      assert (Hndq : NoDup (h :: p2)).
      { rewrite <- Eq. apply NoDup_app. split; [done|]. split; [|apply NoDup_singleton]. by intros u Hu ->%list_elem_of_singleton. }
      apply NoDup_cons in Hndq as [Hh2 _]. rewrite !list_lookup_insert_ne; [done|..].
      * intros <-. assert (Hin : id ∈ l ++ [0]) by (rewrite Eq; by right). apply elem_of_app in Hin as [Hin|Hin%list_elem_of_singleton]; [by apply Hid|by subst].
      * by intros <-.
Qed.

Lemma lru_new_list n : 0 < n → ∃ a, LRU_new n = Ok a ∧ lru_list a n (seq 1 (n - 1)).
Proof.
  intros Hn. destruct n as [|n]; [lia|]. unfold LRU_new, usub. cbn [Nat.leb]. rewrite bind_Ok. replace (S n - 1) with n by lia.
  eexists. split; [done|]. split; [cbn; by rewrite length_seq|]. split; [cbn; rewrite length_app, length_seq; cbn; lia|]. split; [|done].
  cbn [app]. intros i x y Hx Hy. change (0 :: seq 1 n ++ [0]) with (seq 0 (S n) ++ [0]) in *.
  apply lookup_lt_Some in Hy as Hlt. rewrite length_app, length_seq in Hlt. cbn [length] in Hlt.
  rewrite lookup_app_l in Hx by (rewrite length_seq; lia). apply lookup_seq in Hx as [-> Hi]. cbn [Nat.add]. split; cbn [prev next].
  - rewrite lookup_app in Hy |- *. destruct (decide (i = n)) as [->|Hne].
    + rewrite lookup_seq_ge in Hy by lia. rewrite lookup_seq_ge by lia. rewrite length_seq in Hy |- *. by replace (S n - S n) with 0 in Hy by lia; replace (n - n) with 0 by lia.
    + rewrite lookup_seq_lt in Hy by lia. rewrite lookup_seq_lt by lia. by cbn in *.
  - rewrite lookup_app in Hy. destruct (decide (i = n)) as [->|Hne].
    + rewrite lookup_seq_ge, length_seq in Hy by lia. replace (S n - S n) with 0 in Hy by lia. by injection Hy as <-.
    + rewrite lookup_seq_lt in Hy by lia. injection Hy as <-. cbn. by rewrite lookup_seq_lt by lia.
Qed.

Lemma lru_bounds a n l : lru_list a n l → NoDup (0 :: l) ∧ Forall (λ x, x < n) (0 :: l).
Proof.
  intros (_ & _ & _ & Hp). split; [rewrite Hp; apply NoDup_seq|]. rewrite Hp. apply Forall_forall. intros x [_ Hx]%elem_of_seq. lia.
Qed.

Lemma visit_ok a n l id : lru_list a n l → id < n →
  ∃ a', visit a id = Ok a' ∧ lru_list a' n (if id =? 0 then l else id :: List.filter (λ x, negb (x =? id)) l).
Proof.
  intros Hl Hid. pose proof (lru_bounds a n l Hl) as [Hnd Hlt]. pose proof Hl as (Hp & Hn & Hpath & Hperm). unfold visit.
  destruct (Nat.eqb_spec id 0) as [->|Hne]; cbn [orb]; [by exists a|]. rewrite (proj2 (Nat.leb_gt _ _)) by lia.
  assert (Hin : id ∈ l).
  { assert (H : id ∈ 0 :: l) by (rewrite Hperm; apply elem_of_seq; lia). by apply elem_of_cons in H as [H|H]. }
  apply list_elem_of_split in Hin as (l1 & l2 & ->).
  destruct (list_remove_ok a n l1 id l2 Hp Hn Hpath Hnd Hlt) as (a1 & -> & Hp1 & Hn1 & Hpath1). rewrite bind_Ok.
  assert (Hperm1 : 0 :: id :: l1 ++ l2 ≡ₚ seq 0 n) by (rewrite <- Hperm; by rewrite Permutation_middle).
  assert (Hnd1 : NoDup (0 :: id :: l1 ++ l2)) by (rewrite Hperm1; apply NoDup_seq).
  destruct (list_insert_head_ok a1 n id (l1 ++ l2) Hp1 Hn1 Hpath1 Hnd1) as (a2 & -> & Hp2 & Hn2 & Hpath2).
  { rewrite Hperm1. apply Forall_forall. intros x [_ Hx]%elem_of_seq. lia. }
  exists a2. split; [done|].
  assert (Hf : List.filter (λ x, negb (x =? id)) (l1 ++ id :: l2) = l1 ++ l2).
  { rewrite List.filter_app. cbn. rewrite Nat.eqb_refl. cbn. apply NoDup_cons in Hnd1 as [_ Hnd1]. apply NoDup_cons in Hnd1 as [Hx _].
    rewrite not_elem_of_app in Hx. destruct Hx as [Hx1 Hx2]. f_equal; apply forallb_filter_id, forallb_forall; intros x Hx%list_elem_of_In;
      apply negb_true_iff, Nat.eqb_neq; by intros ->. }
  rewrite Hf. by split_and!.
Qed.

Lemma victim_ok a n l : lru_list a n l → victim a = Ok (List.last l 0).
Proof.
  intros (Hp & Hn & Hpath & _). unfold victim. apply index_ok. rewrite app_comm_cons in Hpath.
  destruct (exists_last (l := 0 :: l)) as (l' & x & E); [done|]. rewrite E, <- app_assoc in Hpath. cbn [app] in Hpath.
  apply path_app in Hpath as [_ Hl]. apply path_cons in Hl as [[_ Hl] _]. rewrite Hl. f_equal.
  destruct l as [|y l]; [by apply (app_inj_tail [] l' 0 x) in E as [_ <-]|]. symmetry. transitivity (List.last (0 :: y :: l) 0); [done|]. rewrite E. apply List.last_last.
Qed.

(** The two arrays of an [LRU] of [n] slots implement the list of the slots in the order of their last visit: a visit moves a
    slot to the front, slot 0 excepted, and the victim is the last slot of the list. *)
Theorem lru_refines_list n :
  (0 < n → ∃ a, LRU_new n = Ok a ∧ lru_list a n (seq 1 (n - 1))) ∧
  (∀ a l id, lru_list a n l → id < n →
     ∃ a', visit a id = Ok a' ∧ lru_list a' n (if id =? 0 then l else id :: List.filter (λ x, negb (x =? id)) l)) ∧
  (∀ a l, lru_list a n l → victim a = Ok (List.last l 0)).
Proof. split; [apply lru_new_list|]. split; [intros a l id; apply visit_ok|intros a l; apply victim_ok]. Qed.

(** ** The cache is a map *)
Implicit Types (c : ReadCache) (k : nat) (v : list byte).

Definition at_slot c (i k : nat) v : Prop := cache c !! i = Some (Some (k, v)).
Definition rc_has c k v : Prop := ∃ i, at_slot c i k v.

Definition rc_wf c : Prop :=
  0 < capacity c ∧ length (cache c) = capacity c ∧ size c ≤ capacity c ∧
  (∀ i, i < size c → ∃ k v, at_slot c i k v) ∧ (∀ i, size c ≤ i → i < capacity c → cache c !! i = Some None) ∧
  (∀ i j k v w, at_slot c i k v → at_slot c j k w → i = j) ∧ (∀ k v, rc_has c k v → length v = BLOCK_SIZE) ∧
  ∃ l, lru_list (lru c) (capacity c) l.

Lemma find_slot_ok key slots : ∀ n,
  match find_slot key slots n with
  | Some (i, d) => n ≤ i ∧ slots !! (i - n) = Some (Some (key, d))
  | None => ∀ i d, slots !! i ≠ Some (Some (key, d))
  end.
Proof.
  induction slots as [|s slots IH]; intros n; cbn [find_slot]; [by intros i d|].
  assert (Hrec : (∀ d, s ≠ Some (key, d)) → match find_slot key slots (S n) with
    | Some (i, d) => n ≤ i ∧ (s :: slots) !! (i - n) = Some (Some (key, d))
    | None => ∀ i d, (s :: slots) !! i ≠ Some (Some (key, d)) end).
  { intros Hs. specialize (IH (S n)). destruct (find_slot key slots (S n)) as [[i d]|].
    - destruct IH as [Hle IH]. split; [lia|]. by replace (i - n) with (S (i - S n)) by lia.
    - intros [|i] d; [|apply IH]. cbn. intros [= E]. by apply (Hs d). }
  destruct s as [[k d]|]; [|by apply Hrec]. destruct (Nat.eqb_spec k key) as [->|Hne]; [|apply Hrec; congruence].
  split; [lia|]. by replace (n - n) with 0 by lia.
Qed.

Lemma find_slot_at c key : rc_wf c →
  match find_slot key (cache c) 0 with
  | Some (i, d) => at_slot c i key d ∧ i < size c ∧ i < capacity c
  | None => ∀ d, ¬ rc_has c key d
  end.
Proof.
  intros (_ & Hlen & _ & _ & Hnone & _). pose proof (find_slot_ok key (cache c) 0) as H. destruct (find_slot key (cache c) 0) as [[i d]|].
  - rewrite Nat.sub_0_r in H. destruct H as [_ H]. pose proof (lookup_lt_Some _ _ _ H). split; [done|]. split; [|lia].
    destruct (decide (i < size c)); [done|]. rewrite Hnone in H by lia. done.
  - intros d [i Hi]. by apply (H i d).
Qed.

Lemma rc_new_wf n : 0 < n → ∃ c, ReadCache_new n = Ok c ∧ rc_wf c ∧ capacity c = n ∧ ∀ k v, ¬ rc_has c k v.
Proof.
  intros Hn. destruct (lru_new_list n Hn) as (a & Ha & Hl). unfold ReadCache_new. rewrite Ha, bind_Ok. eexists. split; [done|].
  assert (Hno : ∀ k v, ¬ rc_has (mkReadCache (replicate n None) a n 0) k v) by (intros k v [i [Hi _]%lookup_replicate]; done).
  split; [|done]. split; [done|]. split; [apply length_replicate|]. split; [cbn; lia|]. split; [cbn; lia|].
  split; [intros i _ Hi; by apply lookup_replicate_2|]. split; [intros i j k v w Hi; destruct (Hno k v); by exists i|].
  split; [intros k v Hi; by destruct (Hno k v)|]. by eexists.
Qed.

Lemma rc_get_ok c k : rc_wf c →
  ∃ o c', rc_get c k = Ok (o, c') ∧ rc_wf c' ∧ cache c' = cache c ∧ capacity c' = capacity c ∧
    match o with Some v => rc_has c k v | None => ∀ v, ¬ rc_has c k v end.
Proof.
  intros Hw. pose proof (find_slot_at c k Hw) as H. unfold rc_get. destruct (find_slot k (cache c) 0) as [[i d]|]; [|by exists None, c].
  destruct H as (Hat & _ & Hi). pose proof Hw as (H1 & H2 & H3 & H4 & H5 & H6 & H7 & l & Hl).
  destruct (visit_ok _ _ _ i Hl Hi) as (a' & -> & Hl'). rewrite bind_Ok. eexists _, _. split; [done|].
  split; [by split_and!; [..|eexists]|]. split; [done|]. split; [done|]. by exists i.
Qed.

(** A block written to a slot that has its key, or to one when no slot has it. *)
Lemma at_slot_write c i k v a n j k' v' :
  i < length (cache c) →
  at_slot (mkReadCache (<[i := Some (k, v)]> (cache c)) a n (size c `max` (i + 1))) j k' v' ↔
  (j = i ∧ k' = k ∧ v' = v) ∨ (j ≠ i ∧ at_slot c j k' v').
Proof.
  intros Hi. unfold at_slot. cbn. destruct (decide (j = i)) as [->|Hne].
  - rewrite list_lookup_insert_eq by done. naive_solver.
  - rewrite list_lookup_insert_ne by done. naive_solver.
Qed.

Lemma write_slot_wf c i k v a :
  rc_wf c → i < capacity c → i ≤ size c → (∀ j w, at_slot c j k w → j = i) → length v = BLOCK_SIZE → (∃ l, lru_list a (capacity c) l) →
  rc_wf (mkReadCache (<[i := Some (k, v)]> (cache c)) a (capacity c) (size c `max` (i + 1))).
Proof.
  intros (H1 & H2 & H3 & H4 & H5 & H6 & H7 & _) Hi His Hk Hv Hl. assert (Hil : i < length (cache c)) by lia.
  split; [done|]. split; [cbn; by rewrite length_insert|]. split; [cbn; lia|]. split; [|split; [|split; [|split; [|done]]]].
  - intros j Hj. cbn in Hj. destruct (decide (j = i)) as [->|Hne]; [exists k, v; apply at_slot_write; [done|by left]|].
    destruct (H4 j ltac:(lia)) as (k' & v' & Hat). exists k', v'. apply at_slot_write; [done|by right].
  - intros j Hj Hj'. cbn in *. rewrite list_lookup_insert_ne by lia. apply H5; lia.
  - intros j j' k' x y Hx%at_slot_write Hy%at_slot_write; [|done..]. destruct Hx as [(-> & -> & _)|[Hn Hx]], Hy as [(-> & E & _)|[Hn' Hy]]; [done|..].
    + symmetry. by apply (Hk j' y).
    + subst k'. by apply (Hk j x).
    + by apply (H6 _ _ _ _ _ Hx Hy).
  - intros k' x [j Hx%at_slot_write]; [|done]. destruct Hx as [(_ & _ & ->)|[_ Hx]]; [done|]. apply (H7 k'). by exists j.
Qed.

(** A put writes one slot; slot 0 only if it has the key, is free or is the only one. *)
Lemma rc_put_slot c k v : rc_wf c → length v = BLOCK_SIZE →
  ∃ i a, rc_put c k v = Ok (mkReadCache (<[i := Some (k, v)]> (cache c)) a (capacity c) (size c `max` (i + 1))) ∧
    rc_wf (mkReadCache (<[i := Some (k, v)]> (cache c)) a (capacity c) (size c `max` (i + 1))) ∧ i < capacity c ∧
    (∀ j w, at_slot c j k w → j = i) ∧ (size c < capacity c → ∀ k' w, at_slot c i k' w → k' = k) ∧
    (1 < capacity c → ∀ k' w, at_slot c 0 k' w → i = 0 → k' = k).
Proof.
  intros Hw Hv. pose proof Hw as (H1 & H2 & H3 & H4 & H5 & H6 & H7 & l & Hl). unfold rc_put. rewrite Hv, Nat.eqb_refl. cbn [assert_]. rewrite bind_Ok.
  pose proof (find_slot_at c k Hw) as Hf. destruct (find_slot k (cache c) 0) as [[i d]|].
  { destruct Hf as (Hat & His & Hi). destruct (visit_ok _ _ _ i Hl Hi) as (a & -> & Hl').
    rewrite (index_set_ok (cache c) i) by lia. rewrite !bind_Ok. exists i, a.
    assert (E : size c `max` (i + 1) = size c) by lia. assert (Hk : ∀ j w, at_slot c j k w → j = i) by (intros j w Hj; by apply (H6 _ _ _ _ _ Hj Hat)).
    assert (Hkk : ∀ k' w, at_slot c i k' w → k' = k) by (intros k' w Hx; unfold at_slot in *; congruence).
    split; [by rewrite E|]. split; [apply write_slot_wf; [done|done|lia|done|done|by eexists]|]. split; [done|]. split; [done|]. split; [by intros _|].
    intros _ k' w Hx ->. by apply (Hkk k' w). }
  assert (Hk : ∀ i j w, at_slot c j k w → j = i) by (intros i j w Hj; destruct (Hf w); by exists j).
  destruct (Nat.ltb_spec (size c) (capacity c)) as [Hlt|Hge].
  - rewrite bind_Ok. destruct (visit_ok _ _ _ (size c) Hl Hlt) as (a & -> & Hl'). rewrite (index_set_ok (cache c)) by lia. rewrite !bind_Ok.
    exists (size c), a. assert (E : size c `max` (size c + 1) = size c + 1) by lia.
    assert (Hkk : ∀ k' w, at_slot c (size c) k' w → k' = k) by (intros k' w Hx; unfold at_slot in Hx; rewrite H5 in Hx by lia; done).
    split; [by rewrite E|]. split; [apply write_slot_wf; [done|done|lia|apply Hk|done|by eexists]|]. split; [done|]. split; [apply Hk|]. split; [by intros _|].
    intros _ k' w Hx E0. apply (Hkk k' w). by rewrite E0.
  - rewrite (victim_ok _ _ _ Hl), bind_Ok. set (i := List.last l 0). pose proof (lru_bounds _ _ _ Hl) as [Hnd Hb].
    assert (Hi : i < capacity c ∧ (1 < capacity c → i ≠ 0)).
    { pose proof Hl as (_ & _ & _ & Hperm). destruct l as [|y l].
      - apply Permutation_length in Hperm. rewrite length_seq in Hperm. cbn in *. lia.
      - assert (Hin : i ∈ y :: l) by (unfold i; destruct (exists_last (l := y :: l)) as (l' & x & ->); [done|]; rewrite List.last_last; apply elem_of_app; right; left).
        rewrite Forall_forall in Hb. split; [apply Hb; by right|]. intros _ E. apply NoDup_cons in Hnd as [Hnd _]. rewrite E in Hin. done. }
    destruct Hi as [Hi Hi0]. destruct (visit_ok _ _ _ i Hl Hi) as (a & -> & Hl'). rewrite (index_set_ok (cache c)) by lia. rewrite !bind_Ok.
    exists i, a. assert (E : size c `max` (i + 1) = size c) by lia.
    split; [by rewrite E|]. split; [apply write_slot_wf; [done|done|lia|apply Hk|done|by eexists]|]. split; [done|]. split; [apply Hk|].
    split; [lia|]. intros Hc k' w _ E0. by destruct (Hi0 Hc).
Qed.

Lemma rc_put_ok c k v : rc_wf c → length v = BLOCK_SIZE →
  ∃ c', rc_put c k v = Ok c' ∧ rc_wf c' ∧ capacity c' = capacity c ∧ rc_has c' k v ∧
    (∀ k' v', rc_has c' k' v' → (k' = k ∧ v' = v) ∨ (k' ≠ k ∧ rc_has c k' v')) ∧
    ∃ gone : option nat, (size c < capacity c → gone = None) ∧ ∀ k' v', k' ≠ k → gone ≠ Some k' → rc_has c k' v' → rc_has c' k' v'.
Proof.
  intros Hw Hv. destruct (rc_put_slot c k v Hw Hv) as (i & a & Hput & Hw' & Hi & Hk & Hfree & _). pose proof Hw as (_ & Hlen & _ & _ & _ & Hinj & _).
  eexists. split; [exact Hput|]. split; [exact Hw'|]. split; [done|]. assert (Hil : i < length (cache c)) by lia. split; [|split].
  - exists i. apply at_slot_write; [done|by left].
  - intros k' v' [j Hj%at_slot_write]; [|done]. destruct Hj as [(_ & -> & ->)|[Hne Hj]]; [by left|]. right.
    split; [|by exists j]. intros ->. by apply Hne, (Hk j v').
  - exists (match cache c !! i with Some (Some (k', _)) => if size c <? capacity c then None else Some k' | _ => None end). split.
    { intros Hlt%Nat.ltb_lt. rewrite Hlt. by destruct (cache c !! i) as [[[k' w]|]|]. }
    intros k' v' Hne Hg [j Hj]. exists j. apply at_slot_write; [done|]. right. split; [|done]. intros ->.
    unfold at_slot in Hj. rewrite Hj in Hg. destruct (Nat.ltb_spec (size c) (capacity c)) as [Hlt|]; [|done]. by apply Hne, (Hfree Hlt k' v').
Qed.

(** C24: The read cache is a map.  A lookup returns what was last put for its key, if the key is still cached, and changes
    nothing else; a put adds its block and drops at most one other key, none while there is a free slot.  The
    operations never panic on a cache of at least one slot. *)
Theorem read_cache_coherent n :
  0 < n →
  (∃ c, ReadCache_new n = Ok c ∧ rc_wf c ∧ ∀ k v, ¬ rc_has c k v) ∧
  (∀ c k, rc_wf c → ∃ o c', rc_get c k = Ok (o, c') ∧ rc_wf c' ∧ cache c' = cache c ∧
     match o with Some v => rc_has c k v | None => ∀ v, ¬ rc_has c k v end) ∧
  (∀ c k v, rc_wf c → length v = BLOCK_SIZE → ∃ c', rc_put c k v = Ok c' ∧ rc_wf c' ∧ rc_has c' k v ∧
     (∀ k' v', rc_has c' k' v' → (k' = k ∧ v' = v) ∨ (k' ≠ k ∧ rc_has c k' v')) ∧
     ∃ gone : option nat, (size c < capacity c → gone = None) ∧ ∀ k' v', k' ≠ k → gone ≠ Some k' → rc_has c k' v' → rc_has c' k' v') ∧
  (∀ c, rc_wf c → ∃ c', rc_clear c = Ok c' ∧ rc_wf c' ∧ ∀ k v, ¬ rc_has c' k v).
Proof.
  intros Hn. split; [|split; [|split]].
  - destruct (rc_new_wf n Hn) as (c & H1 & H2 & _ & H3). by exists c.
  - intros c k Hw. destruct (rc_get_ok c k Hw) as (o & c' & H1 & H2 & H3 & _ & H4). by exists o, c'.
  - intros c k v Hw Hv. destruct (rc_put_ok c k v Hw Hv) as (c' & H1 & H2 & _ & H3). by exists c'.
  - intros c Hw. destruct (rc_new_wf (capacity c) (proj1 Hw)) as (c' & H1 & H2 & _ & H3). exists c'. split; [|done].
    unfold rc_clear, ReadCache_new in *. exact H1.
Qed.

(** The block in slot 0 is never evicted from a cache of more than one slot, whatever other keys are put: the slot is the
    head of the list and never its end. *)
Theorem slot0_pinned c k0 v0 puts :
  rc_wf c → 1 < capacity c → at_slot c 0 k0 v0 → Forall (λ p, p.1 ≠ k0 ∧ length p.2 = BLOCK_SIZE) puts →
  ∃ c', foldM (λ c p, rc_put c p.1 p.2) c puts = Ok c' ∧ at_slot c' 0 k0 v0.
Proof.
  revert c. induction puts as [|[k v] puts IH]; intros c Hw Hc H0 Hp; [by exists c|]. apply Forall_cons in Hp as [[Hk Hv] Hp]. cbn in Hk, Hv.
  destruct (rc_put_slot c k v Hw Hv) as (i & a & Hput & Hw' & Hi & _ & _ & Hz). pose proof Hw as (_ & Hlen & _). cbn [foldM fst snd]. rewrite Hput.
  apply IH; [done|done| |done]. apply at_slot_write; [lia|]. right. split; [|done]. intros E. by apply Hk, eq_sym, (Hz Hc k0 v0 H0).
Qed.

(** A cache of two slots with one block. *)
Definition demo_block (z : Z) : list byte := replicate BLOCK_SIZE z.
Lemma demo_block_length z : length (demo_block z) = BLOCK_SIZE.
Proof. apply length_replicate. Qed.

Lemma read_cache_coherent_witness : ∃ c c', ReadCache_new 2 = Ok c ∧ rc_put c 7 (demo_block 1) = Ok c' ∧ rc_has c' 7 (demo_block 1).
Proof.
  destruct (read_cache_coherent 2 ltac:(lia)) as ((c & H1 & Hw & _) & _ & Hput & _).
  destruct (Hput c 7 (demo_block 1) Hw (demo_block_length 1)) as (c' & H2 & _ & H3 & _). exists c, c'. exact (conj H1 (conj H2 H3)).
Defined.

Lemma slot0_pinned_witness : ∃ c c1 c2, ReadCache_new 2 = Ok c ∧ rc_put c 7 (demo_block 1) = Ok c1 ∧
  foldM (λ c p, rc_put c p.1 p.2) c1 [(8, demo_block 2); (9, demo_block 3)] = Ok c2 ∧ at_slot c2 0 7 (demo_block 1).
Proof.
  assert (Ha : rc_wf (mkReadCache [None; None] (mkLRU [1; 0] [1; 0]) 2 0)).
  { destruct (rc_new_wf 2 ltac:(lia)) as (c & [= <-] & Hw & _). exact Hw. }
  destruct (rc_put_slot _ 7 (demo_block 1) Ha (demo_block_length 1)) as (i & a & Hput & Hw & _).
  assert (Hi : i = 0).
  { unfold rc_put in Hput. rewrite demo_block_length, Nat.eqb_refl in Hput. injection Hput as E _. destruct i as [|[|i]]; [done|discriminate..]. }
  subst i. destruct (slot0_pinned _ 7 (demo_block 1) [(8, demo_block 2); (9, demo_block 3)] Hw ltac:(cbn; lia) eq_refl) as (c2 & H2 & H3).
  { rewrite !Forall_cons. cbn. pose proof (demo_block_length 2). pose proof (demo_block_length 3). split_and!; try done; constructor. }
  eexists _, _, c2. split; [reflexivity|]. split; [exact Hput|]. split; [exact H2|exact H3].
Defined.
