(* ===== verification/SwornDisk.v ===== *)
(** * SwornDisk: [core/src/layers/5-disk/sworndisk.rs], the encrypted disk

    [Disk] is the state behind [DiskInner]: the table of logical blocks, the allocator of host blocks, the data disk, the write
    buffer and the read cache.  The table, a [TxLsmTree] with its listeners, is the class [BlockTable]: what the disk
    calls of it; its listeners reach the allocator ([TxLsmTreeListener], the [listener_] definitions), so a put acts on both.

    A call that waits for another thread, for a full buffer or for free host blocks, is [None] of the monad [wio]; what a call did
    before it failed stays done.  The buffers of a read are part of its state ([ReadSt]), since a read that fails leaves
    them partly filled. *)
From S2P Require Import Prelude BitMap Bio CryptoChain CryptoLog RangeQuery BlockAlloc DiskBio DataBuf ReadCache.

(** ** Calls that fail or wait *)
Definition wio (S A : Type) : Type := S → option (res A * S).

#[global] Instance wio_ret {S} : MRet (wio S) := λ A a s, Some (Ok a, s).
#[global] Instance wio_bind {S} : MBind (wio S) := λ A B f m s,
  match m s with
  | Some (Ok a, s') => f a s'
  | Some (Err e, s') => Some (Err e, s')
  | Some (Panic, s') => Some (Panic, s')
  | None => None
  end.

Section wio.
Context {S : Type}.
Definition w_lift {A} (r : res A) : wio S A := λ s, Some (r, s).
Definition w_get : wio S S := λ s, Some (Ok s, s).
Definition w_put (s' : S) : wio S unit := λ _, Some (Ok (), s').
Definition w_wait {A} : wio S A := λ _, None.

Fixpoint w_fold {A T} (f : T → A → wio S T) (t : T) (l : list A) : wio S T :=
  match l with
  | [] => mret t
  | x :: l => t' ← f t x; w_fold f t' l
  end.
End wio.

(** [slice::group_by]: maximal runs of neighbours that satisfy the test. *)
Fixpoint group_by {X} (p : X → X → res bool) (l : list X) : res (list (list X)) :=
  match l with
  | [] => Ok []
  | x :: l =>
      groups ← group_by p l;
      match groups with
      | (y :: g) :: gs => b ← p x y; Ok (if (b : bool) then (x :: y :: g) :: gs else [x] :: (y :: g) :: gs)
      | gs => Ok ([x] :: gs)
      end
  end.

(** ** Records *)
Record RecordValue {A : Aead} := mkRecordValue { hba : nat; rv_key : Key; rv_mac : Mac }.
Arguments RecordValue : clear implicits.

(** The IV of zeros. *)
Class ZeroIv (A : Aead) := zeroed_iv : Iv.

(** What the disk calls of [TxLsmTree] and of the log store below it.  A put and a sync may run compactions, whose listeners
    change the allocator and its diff logs. *)
Class BlockTable (A : Aead) (B : Bittle) (T : Type) := {
  tb_get : nat → T → res (RecordValue A) * T;
  tb_get_range : RangeQueryCtx (RecordValue A) → T → res unit * RangeQueryCtx (RecordValue A) * T;
  tb_put : nat → RecordValue A → T * AllocTable * AllocStore → res unit * (T * AllocTable * AllocStore);
  tb_sync : T * AllocTable * AllocStore → res unit * (T * AllocTable * AllocStore);
  tb_store_sync : T → res unit * T;
}.

(** ** The listener of the tree *)
Inductive TxType := CompactionTo (to_level : nat) | Migration.   (* level 0 is [LsmLevel::L0] *)

Section listener.
Context {B : Bittle} {P : BidPod}.

Definition listener_on_add_record (t : TxType) (diff : gmap nat AllocDiff) (hba : nat) : res (gmap nat AllocDiff) :=
  match t with
  | CompactionTo 0 => alloc_block diff hba
  | CompactionTo _ | Migration => Ok diff
  end.

Definition listener_on_drop_record (t : TxType) (diff : gmap nat AllocDiff) (hba : nat) : res (gmap nat AllocDiff) :=
  match t with
  | CompactionTo 0 => Panic
  | CompactionTo _ | Migration => dealloc_block diff hba
  end.

(** [on_tx_precommit]: the diff log, and [on_tx_commit]: the table. *)
Definition listener_on_tx_precommit (diff : gmap nat AllocDiff) : option (list (list byte)) := update_diff_log diff.
Definition listener_on_tx_commit (diff : gmap nat AllocDiff) (t : AllocTable) : res (bool * AllocTable) := update_alloc_table diff t.

(** [on_drop_record_in_memtable]. *)
Definition on_drop_record_in_memtable (hba : nat) (t : AllocTable) : res AllocTable :=
  '(_, t) ← set_deallocated t hba; Ok t.
End listener.

(** ** The disk *)
Section disk.
Context {A : Aead} {R : Random A} {Z : ZeroIv A} {P : Pages} {B : Bittle} {PC : BitMapPostcard}.
Context {T : Type} {HT : BlockTable A B T} {D St : Type} {HS : BlockSet D St}.

Record Disk := mkDisk {
  table : T;
  alloc : AllocTable;
  alloc_store : AllocStore;
  data_disk : St;
  data_buf : DataBuf;
  read_cache : ReadCache;
  draws : nat;
}.

Definition with_table (s : Disk) (t : T) : Disk :=
  mkDisk t (alloc s) (alloc_store s) (data_disk s) (data_buf s) (read_cache s) (draws s).
Definition with_alloc (s : Disk) (a : AllocTable) : Disk :=
  mkDisk (table s) a (alloc_store s) (data_disk s) (data_buf s) (read_cache s) (draws s).
Definition with_meta (s : Disk) (m : T * AllocTable * AllocStore) : Disk :=
  mkDisk m.1.1 m.1.2 m.2 (data_disk s) (data_buf s) (read_cache s) (draws s).
Definition with_disk (s : Disk) (x : St) : Disk :=
  mkDisk (table s) (alloc s) (alloc_store s) x (data_buf s) (read_cache s) (draws s).
Definition with_buf (s : Disk) (b : DataBuf) : Disk :=
  mkDisk (table s) (alloc s) (alloc_store s) (data_disk s) b (read_cache s) (draws s).
Definition with_cache (s : Disk) (c : ReadCache) : Disk :=
  mkDisk (table s) (alloc s) (alloc_store s) (data_disk s) (data_buf s) c (draws s).
Definition with_draws (s : Disk) (n : nat) : Disk :=
  mkDisk (table s) (alloc s) (alloc_store s) (data_disk s) (data_buf s) (read_cache s) n.

Definition meta_of (s : Disk) : T * AllocTable * AllocStore := (table s, alloc s, alloc_store s).

Definition cache_put (lba : nat) (data : list byte) : wio Disk unit :=
  s ← w_get;
  c ← w_lift (rc_put (read_cache s) lba data);
  w_put (with_cache s c).

Definition cache_get (lba : nat) : wio Disk (option (list byte)) :=
  s ← w_get;
  '(o, c) ← w_lift (rc_get (read_cache s) lba);
  _ ← w_put (with_cache s c);
  mret o.

Definition table_get (lba : nat) : wio Disk (RecordValue A) := λ s,
  let '(r, t) := tb_get lba (table s) in Some (r, with_table s t).

Definition table_put (lba : nat) (v : RecordValue A) : wio Disk unit := λ s,
  let '(r, m) := tb_put lba v (meta_of s) in Some (r, with_meta s m).

(** *** Reading one block *)

(** Where a block is found: in the cache, or else in the buffer or on the disk, whence it has yet to be put in the cache. *)
Inductive Fetched := Hit (data : list byte) | Miss (data : list byte).

Definition read_fetch (d : D) (lba : nat) : wio Disk Fetched :=
  o ← cache_get lba;
  match o with
  | Some data => mret (Hit data)
  | None =>
      s ← w_get;
      match db_get (data_buf s) lba with
      | Some data => mret (Miss data)
      | None =>
          value ← table_get lba;
          _ ← w_lift (Buf_alloc 0 1);
          s ← w_get;
          cipher ← w_lift (bs_read d (data_disk s) (hba value) 1);
          plain ← w_lift (aead_decrypt cipher (rv_key value) zeroed_iv [] (rv_mac value));
          mret (Miss plain)
      end
  end.

Definition read_fill (lba : nat) (f : Fetched) : wio Disk (list byte) :=
  match f with
  | Hit data => mret data
  | Miss data => _ ← cache_put lba data; mret data
  end.

Definition read_one_block (d : D) (lba : nat) : wio Disk (list byte) :=
  f ← read_fetch d lba;
  read_fill lba f.

(** *** Reading several blocks *)

(** [BufMutVec] *)
Definition bufs_nblocks (bufs : list (list byte)) : N := foldl (λ sum buf, sat_add sum (nblocks_of buf)) 0%N bufs.

(** [nth_buf_mut_slice(nth).copy_from_slice(data)]. *)
Fixpoint set_nth_block (bufs : list (list byte)) (nth : nat) (data : list byte) : res (list (list byte)) :=
  match bufs with
  | [] => Panic   (* the empty slice *)
  | buf :: bufs =>
      if nblocks_of buf <=? nth then bufs' ← set_nth_block bufs (nth - nblocks_of buf) data; Ok (buf :: bufs')
      else buf' ← copy_from_slice buf (nth * BLOCK_SIZE) ((nth + 1) * BLOCK_SIZE) data; Ok (buf' :: bufs)
  end.

Definition ReadSt : Type := Disk * list (list byte).

Definition on_disk_st {X} (f : wio Disk X) : wio ReadSt X := λ st,
  match f st.1 with Some (r, s) => Some (r, (s, st.2)) | None => None end.

Definition copy_block (nth : nat) (data : list byte) : wio ReadSt unit :=
  st ← w_get;
  _ ← w_lift (assert_ (N.of_nat nth <? bufs_nblocks st.2)%N);
  bufs ← w_lift (set_nth_block st.2 nth data);
  w_put (st.1, bufs).

Abbreviation Query := (RangeQueryCtx (RecordValue A)).

(** The loop over the read cache. *)
Definition read_cached (lba : nat) (q : Query) (i : nat) : wio ReadSt Query :=
  current_lba ← w_lift (uadd lba i);
  _ ← w_lift (Buf_alloc 0 1);
  o ← on_disk_st (cache_get current_lba);
  match o with
  | Some data => _ ← copy_block i data; w_lift (mark_completed q current_lba)
  | None => mret q
  end.

(** The loop over the write buffer. *)
Definition read_buffered (lba : nat) (q : Query) (x : nat * list byte) : wio ReadSt Query :=
  nth ← w_lift (usub x.1 lba);
  _ ← copy_block nth x.2;
  _ ← on_disk_st (cache_put x.1 x.2);
  w_lift (mark_completed q x.1).

Definition table_get_range (q : Query) : wio ReadSt Query := λ st,
  let '(r, q', t) := tb_get_range q (table st.1) in
  match r with
  | Ok _ => Some (Ok q', (with_table st.1 t, st.2))
  | Err e => Some (Err e, (with_table st.1 t, st.2))
  | Panic => Some (Panic, (with_table st.1 t, st.2))
  end.

(** One record of a batch, whose cipher text is the [nth] block of [cipher]. *)
Definition read_record (lba : nat) (cipher : list byte) (nth : nat) (x : nat * RecordValue A) : wio ReadSt nat :=
  target ← w_lift (usub x.1 lba);
  ci ← w_lift (slice cipher (nth * BLOCK_SIZE) ((nth + 1) * BLOCK_SIZE));
  plain ← w_lift (aead_decrypt ci (rv_key x.2) zeroed_iv [] (rv_mac x.2));
  _ ← copy_block target plain;
  _ ← on_disk_st (cache_put x.1 plain);
  mret (nth + 1).

Definition read_batch (d : D) (lba : nat) (batch : list (nat * RecordValue A)) : wio ReadSt unit :=
  first ← w_lift (unwrap (head batch));
  st ← w_get;
  cipher ← w_lift (bs_read d (data_disk st.1) (hba first.2) (length batch));
  _ ← w_fold (read_record lba cipher) 0 batch;
  mret ().

Definition hba_le (x y : nat * RecordValue A) : Prop := hba x.2 ≤ hba y.2.
#[global] Instance hba_le_dec : RelDecision hba_le.
Proof. intros x y. unfold hba_le. apply _. Defined.

Definition hba_follows (x y : nat * RecordValue A) : res bool :=
  n ← usub (hba y.2) (hba x.2); Ok (n =? 1).

Definition read_multi_blocks (d : D) (lba : nat) : wio ReadSt unit :=
  st ← w_get;
  _ ← w_lift (assert_ (0 <? length st.2));
  let nblocks := N.to_nat (bufs_nblocks st.2) in
  q ← w_fold (read_cached lba) (RangeQueryCtx_new lba nblocks) (seq 0 nblocks);
  if is_completed q then mret () else
  range ← w_lift (o ← range_uncompleted q; unwrap o);
  st ← w_get;
  q ← w_fold (read_buffered lba) q (db_get_range (data_buf st.1) range);
  if is_completed q then mret () else
  q ← table_get_range q;
  _ ← w_lift (assert_ (is_completed q));
  res ← w_lift (into_results q);
  let res := merge_sort hba_le res in
  record_batches ← w_lift (group_by hba_follows res);
  _ ← w_lift (Buf_alloc 0 nblocks);
  w_fold (λ _ batch, read_batch d lba batch) () record_batches.

(** [NotFound] is an empty read: the call succeeds. *)
Definition allow_empty (r : res unit) : res unit :=
  match r with Err NotFound => Ok () | r => r end.

(** [DiskInner::readv] and [DiskInner::read]: the buffers after the call. *)
Definition inner_readv (d : D) (lba : nat) : wio ReadSt unit := λ st,
  match read_multi_blocks d lba st with Some (r, st') => Some (allow_empty r, st') | None => None end.

Definition readv_bufs (d : D) (lba : nat) (bufs : list (list byte)) : wio Disk (list (list byte)) := λ s,
  match inner_readv d lba (s, bufs) with
  | Some (Ok _, (s', bufs')) => Some (Ok bufs', s')
  | Some (Err e, (s', _)) => Some (Err e, s')
  | Some (Panic, (s', _)) => Some (Panic, s')
  | None => None
  end.

Definition inner_read (d : D) (lba : nat) (buf : list byte) : wio Disk (list byte) := λ s,
  if nblocks_of buf =? 1 then
    match read_one_block d lba s with
    | Some (Ok data, s') => Some (Ok data, s')
    | Some (Err NotFound, s') => Some (Ok buf, s')
    | Some (r, s') => Some (r, s')
    | None => None
    end
  else (bufs ← readv_bufs d lba [buf]; mret (concat bufs)) s.

(** *** Writing *)

(** The blocks of one batch: the host blocks [batch] get the buffered blocks from the [nth] on. *)
Definition seal_block (data_blocks : list (nat * list byte)) (acc : list (list byte) * list (nat * RecordValue A) * nat) (h : nat)
    : wio Disk (list (list byte) * list (nat * RecordValue A) * nat) :=
  let '(ciphers, records, nth) := acc in
  x ← w_lift (index data_blocks nth);
  s ← w_get;
  _ ← w_put (with_draws s (S (draws s)));
  let key := rand_key (draws s) in
  '(cipher, mac) ← w_lift (aead_encrypt x.2 key zeroed_iv []);
  mret (ciphers ++ [cipher], records ++ [(x.1, mkRecordValue A h key mac)], nth + 1).

Definition write_batch (d : D) (data_blocks : list (nat * list byte)) (acc : list (nat * RecordValue A) * nat) (batch : list nat)
    : wio Disk (list (nat * RecordValue A) * nat) :=
  '(ciphers, records, nth) ← w_fold (seal_block data_blocks) ([], acc.1, acc.2) batch;
  first ← w_lift (unwrap (head batch));
  s ← w_get;
  st ← w_lift (bs_write d (data_disk s) first (concat ciphers));
  _ ← w_put (with_disk s st);
  mret (records, nth).

Definition hba_succ (h1 h2 : nat) : res bool := n ← usub h2 h1; Ok (n =? 1).

Definition write_blocks_from_data_buf (d : D) : wio Disk (list (nat * RecordValue A)) :=
  s ← w_get;
  let data_blocks := db_all_blocks (data_buf s) in
  let num_write := length data_blocks in
  if num_write =? 0 then mret [] else
  o ← w_lift (alloc_batch (alloc s) num_write);
  match o with
  | None => w_wait
  | Some (hbas, al) =>
      _ ← w_put (with_alloc s al);
      _ ← w_lift (assert_ (length hbas =? num_write));
      hba_batches ← w_lift (group_by hba_succ hbas);
      _ ← w_lift (Buf_alloc 0 num_write);
      '(records, _) ← w_fold (write_batch d data_blocks) ([], 0) hba_batches;
      mret records
  end.

(** The second half of [flush_data_buf]: the records go to the table, and the buffer is emptied. *)
Definition flush_records (records : list (nat * RecordValue A)) : wio Disk unit :=
  _ ← w_fold (λ _ r, table_put r.1 r.2) () records;
  s ← w_get;
  w_put (with_buf s (db_clear (data_buf s))).

Definition flush_data_buf (d : D) : wio Disk unit :=
  records ← write_blocks_from_data_buf d;
  flush_records records.

Definition buf_put (lba : nat) (data : list byte) : wio Disk bool :=
  s ← w_get;
  o ← w_lift (db_put (data_buf s) lba data);
  match o with
  | None => w_wait
  | Some (full, b) => _ ← w_put (with_buf s b); mret full
  end.

(** One turn of the loop of [write]. *)
Definition write_block (d : D) (lba : nat) (data : list byte) : wio Disk nat :=
  buf_at_capacity ← buf_put lba data;
  _ ← cache_put lba data;
  _ ← (if (buf_at_capacity : bool) then flush_data_buf d else mret ());
  w_lift (uadd lba 1).

Definition inner_write (d : D) (lba : nat) (buf : list byte) : wio Disk unit :=
  blocks ← w_lift (BufIter_collect (S (nblocks_of buf)) (Buf_iter buf));
  _ ← w_fold (write_block d) lba blocks;
  mret ().

Definition inner_writev (d : D) (lba : nat) (bufs : list (list byte)) : wio Disk unit :=
  _ ← w_fold (λ lba buf, _ ← inner_write d lba buf; w_lift (uadd lba (nblocks_of buf))) lba bufs;
  mret ().

(** *** Syncing *)
Definition table_sync : wio Disk unit := λ s, let '(r, m) := tb_sync (meta_of s) in Some (r, with_meta s m).
Definition store_sync : wio Disk unit := λ s, let '(r, t) := tb_store_sync (table s) in Some (r, with_table s t).

Definition inner_sync (d : D) : wio Disk unit :=
  _ ← flush_data_buf d;
  s ← w_get;
  _ ← w_lift (assert_ (db_is_empty (data_buf s)));
  _ ← table_sync;
  s ← w_get;
  '(al, store) ← w_lift (do_compaction (alloc s) (alloc_store s));
  _ ← w_put (with_meta s (table s, al, store));
  _ ← store_sync;
  s ← w_get;
  st ← w_lift (bs_flush d (data_disk s));
  w_put (with_disk s st).

(** ** The API *)
Definition total_blocks (d : D) : nat := bs_nblocks d.

Definition check_rw_args (d : D) (lba buf_nblocks : nat) : res unit :=
  n ← uadd lba buf_nblocks;
  if bs_nblocks d <? n then Err OutOfDisk else Ok ().

(** The sum of the lengths, where an overflow panics. *)
Definition total_len (bufs : list (list byte)) : res nat := foldM (λ acc buf, uadd acc (nblocks_of buf)) 0 bufs.

Definition read (d : D) (lba : nat) (buf : list byte) : wio Disk (list byte) :=
  _ ← w_lift (check_rw_args d lba (nblocks_of buf));
  inner_read d lba buf.

Definition readv (d : D) (lba : nat) : wio ReadSt unit :=
  st ← w_get;
  n ← w_lift (total_len st.2);
  _ ← w_lift (check_rw_args d lba n);
  inner_readv d lba.

Definition write (d : D) (lba : nat) (buf : list byte) : wio Disk unit :=
  _ ← w_lift (check_rw_args d lba (nblocks_of buf));
  inner_write d lba buf.

Definition writev (d : D) (lba : nat) (bufs : list (list byte)) : wio Disk unit :=
  n ← w_lift (total_len bufs);
  _ ← w_lift (check_rw_args d lba n);
  inner_writev d lba bufs.

(** [SwornDisk::sync] unwraps the result. *)
Definition sync (d : D) : wio Disk unit := λ s,
  match inner_sync d s with Some (r, s') => Some (unwrap_res r, s') | None => None end.

(** ** Block I/O requests *)

(** [do_read], [do_write] and [do_sync]; a read also returns the buffers it filled, which are those of the caller. *)
Definition do_read (d : D) (req : BioReq) : wio Disk (list BlockBuf) :=
  _ ← w_lift (assert_ (bool_decide (type_ req = DiskBio.Read)));
  let '(req_bufs, _) := take_bufs req in
  bufs ← w_lift (foldM (λ acc buf, b ← Buf_try_from buf; Ok (acc ++ [b])) [] req_bufs);
  match bufs with
  | [buf] => data ← inner_read d (addr req) buf; mret [data]
  | _ => readv_bufs d (addr req) bufs
  end.

Definition do_write (d : D) (req : BioReq) : wio Disk unit :=
  _ ← w_lift (assert_ (bool_decide (type_ req = DiskBio.Write)));
  let '(req_bufs, _) := take_bufs req in
  bufs ← w_lift (foldM (λ acc buf, b ← Buf_try_from buf; Ok (acc ++ [b])) [] req_bufs);
  inner_writev d (addr req) bufs.

Definition do_sync (d : D) (req : BioReq) : wio Disk unit :=
  _ ← w_lift (assert_ (bool_decide (type_ req = DiskBio.Sync)));
  inner_sync d.

(** [handle_bio_req]: the response, the completed request and the buffers. *)
Definition handle_bio_req (d : D) (req : BioReq) : wio Disk (BioResp * BioReq * list BlockBuf) := λ s,
  let run {X} (m : wio Disk X) (out : X → list BlockBuf) :=
    match m s with
    | None => None
    | Some (Panic, s') => Some (Panic, s')
    | Some (r, s') =>
        let resp := match r with Ok _ => Ok () | Err e => Err e | Panic => Panic end in
        let bufs := match r with Ok x => out x | _ => [] end in
        match complete (snd (take_bufs req)) resp with
        | Ok (_, req') => Some (Ok (resp, req', bufs), s')
        | _ => Some (Panic, s')
        end
    end in
  match type_ req with
  | DiskBio.Read => run (do_read d req) id
  | DiskBio.Write => run (do_write d req) (λ _, [])
  | DiskBio.Sync => run (do_sync d req) (λ _, [])
  end.

Definition submit_bio_sync (d : D) (req : BioReq) : wio Disk (BioResp * BioReq * list BlockBuf) :=
  req ← w_lift (submit req);
  handle_bio_req d req.

(** ** Creating and opening *)
Definition DEFAULT_DATA_BUF_CAP : nat := 1024.
Definition DEFAULT_READ_CACHE_CAP : nat := 2048.

Definition subdisk_for_data (disk : D) : res D := bs_subset disk 0 (bs_nblocks disk * 15 / 16).
Definition subdisk_for_logical_block_table (disk : D) : res D := bs_subset disk (bs_nblocks disk * 15 / 16) (bs_nblocks disk).

(** [create]: [store_format] and [tree_format] make the log store and the tree, on their part of the disk. *)
Definition create {L} (store_format : D → St → res (L * AllocStore * St))
    (tree_format : L → AllocTable * AllocStore → res (T * AllocTable * AllocStore))
    (disk : D) (s : St) (data_buf_cap : option nat) (drawn : nat) : res (Disk * D) :=
  data_disk ← subdisk_for_data disk;
  lsm_tree_disk ← subdisk_for_logical_block_table disk;
  '(l, store, s) ← store_format lsm_tree_disk s;
  _ ← assert_ (0 <? bs_nblocks data_disk);
  '(t, al, store) ← tree_format l (AllocTable_new (bs_nblocks data_disk), store);
  cache ← ReadCache_new DEFAULT_READ_CACHE_CAP;
  Ok (mkDisk t al store s (DataBuf_new (default DEFAULT_DATA_BUF_CAP data_buf_cap)) cache drawn, data_disk).

(** [open]: the log store is recovered, then the allocator from its logs, then the tree. *)
Definition open {L} {BP : BidPod} (store_recover : D → St → res (L * AllocStore * St))
    (tree_recover : L → AllocTable * AllocStore → res (T * AllocTable * AllocStore))
    (disk : D) (s : St) (data_buf_cap : option nat) (drawn : nat) : res (Disk * D) :=
  data_disk ← subdisk_for_data disk;
  lsm_tree_disk ← subdisk_for_logical_block_table disk;
  '(l, store, s) ← store_recover lsm_tree_disk s;
  _ ← assert_ (0 <? bs_nblocks data_disk);
  al ← BlockAlloc.recover (bs_nblocks data_disk) store;
  '(t, al, store) ← tree_recover l (al, store);
  cache ← ReadCache_new DEFAULT_READ_CACHE_CAP;
  Ok (mkDisk t al store s (DataBuf_new (default DEFAULT_DATA_BUF_CAP data_buf_cap)) cache drawn, data_disk).
End disk.
Arguments Disk : clear implicits.
Arguments Disk _ _ : clear implicits.
