(* ===== verification/SwornDiskSpec.v ===== *)
(** * SwornDiskSpec: the disk is an array of blocks

    [BlockTableSpec]: what the disk relies on of the table of logical blocks.  [disk_inv d s m]: the disk [s] stands for the
    array [m], whether a block is in the cache, in the buffer or encrypted on the data disk. *)
From S2P Require Import Prelude BitMap Bio CryptoChain CryptoLog CryptoLogProps RangeQuery BlockAlloc DiskBio DataBuf ReadCache SwornDisk.

(** ** Reasoning on [wio] *)
Section wio.
Context {S : Type}.
Lemma w_bind_Ok {X Y} (f : X → wio S Y) (m : wio S X) s x s' : m s = Some (Ok x, s') → (m ≫= f) s = f x s'.
Proof. unfold mbind, wio_bind. by intros ->. Qed.
Lemma w_bind_lift {X Y} (f : X → wio S Y) x s : (w_lift (Ok x) ≫= f) s = f x s.
Proof. done. Qed.
Lemma w_bind_Err {X Y} (f : X → wio S Y) (m : wio S X) s e s' : m s = Some (Err e, s') → (m ≫= f) s = Some (Err e, s').
Proof. unfold mbind, wio_bind. by intros ->. Qed.
Lemma w_bind_None {X Y} (f : X → wio S Y) (m : wio S X) s : m s = None → (m ≫= f) s = None.
Proof. unfold mbind, wio_bind. by intros ->. Qed.
Lemma w_bind_inv {X Y} (f : X → wio S Y) (m : wio S X) s r s' :
  (m ≫= f) s = Some (r, s') →
  (∃ x s1, m s = Some (Ok x, s1) ∧ f x s1 = Some (r, s')) ∨ (∃ e, m s = Some (Err e, s') ∧ r = Err e) ∨ (m s = Some (Panic, s') ∧ r = Panic).
Proof. unfold mbind, wio_bind. destruct (m s) as [[[x|e|] s1]|]; [|intros [= <- <-]..|done]; eauto 6. Qed.
End wio.

Ltac w_next := erewrite w_bind_Ok by reflexivity; cbv beta iota.
Ltac w_step E := rewrite (w_bind_Ok _ _ _ _ _ E); cbv beta iota.

(** ** What the disk needs of its table *)
Section table_spec.
Context {A : Aead} {B : Bittle} {T : Type} {HT : BlockTable A B T}.

(** Host blocks that the table refers to are in use. *)
Definition blocks_in_use (refs : gset nat) (al : AllocTable) : Prop :=
  ∀ i, i ∈ refs → i < BlockAlloc.nblocks al ∧ is_free al i = false.

(** A change of the allocator that only frees blocks of [refs]. *)
Definition frees_only (refs : gset nat) (al al' : AllocTable) : Prop :=
  at_wf al' ∧ BlockAlloc.nblocks al' = BlockAlloc.nblocks al ∧ num_free al ≤ num_free al' ∧
  ∀ i, is_free al' i = true → is_free al i = true ∨ i ∈ refs.
End table_spec.

(** The table is a map from logical to host blocks ([tb_map]); [tb_refs] are the host blocks it refers to, of current records and of
    old ones not yet dropped; [tb_room] counts the operations it has room for. *)
Class BlockTableSpec (A : Aead) (B : Bittle) (T : Type) {HT : BlockTable A B T} := {
  tb_map : T → gmap nat (RecordValue A);
  tb_refs : T → gset nat;
  tb_room : T → nat;
  tb_live t k v : tb_map t !! k = Some v → hba v ∈ tb_refs t;
  tb_get_ok t k : ∃ t', tb_get k t = (match tb_map t !! k with Some v => Ok v | None => Err NotFound end, t') ∧
    tb_map t' = tb_map t ∧ tb_refs t' = tb_refs t ∧ tb_room t' = tb_room t;
  tb_get_range_ok t q : ctx_wf q → is_completed q = false →
    ∃ r q' t', tb_get_range q t = (r, q', t') ∧ tb_map t' = tb_map t ∧ tb_refs t' = tb_refs t ∧ tb_room t' = tb_room t ∧
      ((∀ j, j < num_values q → slot_done q j = false → is_Some (tb_map t !! (start q + j))) →
        r = Ok () ∧ ctx_wf q' ∧ is_completed q' = true ∧ start q' = start q ∧ num_values q' = num_values q ∧
        ∀ k v, (k, v) ∈ results q' ↔ (k, v) ∈ results q ∨
          (start q ≤ k < start q + num_values q ∧ slot_done q (k - start q) = false ∧ tb_map t !! k = Some v)) ∧
      (∀ j, j < num_values q → slot_done q j = false → tb_map t !! (start q + j) = None → r = Err NotFound);
  tb_put_ok t al st k v :
    at_wf al → blocks_in_use (tb_refs t) al → 0 < tb_room t →
    hba v ∉ tb_refs t → hba v < BlockAlloc.nblocks al → is_free al (hba v) = false →
    ∃ t' al' st', tb_put k v (t, al, st) = (Ok (), (t', al', st')) ∧ tb_map t' = <[k := v]> (tb_map t) ∧
      tb_refs t' ⊆ {[hba v]} ∪ tb_refs t ∧ blocks_in_use (tb_refs t') al' ∧ frees_only (tb_refs t) al al' ∧ tb_room t ≤ S (tb_room t');
  tb_sync_ok t al st :
    at_wf al → blocks_in_use (tb_refs t) al → 0 < tb_room t →
    ∃ t' al' st', tb_sync (t, al, st) = (Ok (), (t', al', st')) ∧ tb_map t' = tb_map t ∧
      tb_refs t' ⊆ tb_refs t ∧ blocks_in_use (tb_refs t') al' ∧ frees_only (tb_refs t) al al' ∧ tb_room t ≤ S (tb_room t');
  tb_store_sync_ok t : 0 < tb_room t → ∃ t', tb_store_sync t = (Ok (), t') ∧ tb_map t' = tb_map t ∧ tb_refs t' = tb_refs t ∧ tb_room t ≤ S (tb_room t');
}.

Section spec.
Context {A : Aead} {HA : AeadSpec A} {R : Random A} {Z : ZeroIv A} {P : Pages} {HP : PagesSpec P} {B : Bittle} {HB : BittleSpec B} {PC : BitMapPostcard}.
Context {T : Type} {HT : BlockTable A B T} {HTS : BlockTableSpec A B T} {D St : Type} {HS : BlockSet D St} {HSS : BlockSetSpec D St}.
Abbreviation DiskT := (Disk T St).
Implicit Types (d : D) (s : DiskT) (m : gmap nat (list byte)) (k lba : nat) (b : list byte) (v : RecordValue A).

(** ** The array a disk stands for *)

(** The record [v] of the table is the block [b]. *)
Definition reads d (st : St) v b : Prop :=
  hba v < bs_nblocks d ∧ aead_decrypt (bs_block d st (hba v)) (rv_key v) zeroed_iv [] (rv_mac v) = Ok b.

Record disk_inv d s m : Prop := mkInv {
  di_valid : bs_valid d (data_disk s);
  di_alloc : at_wf (alloc s);
  di_nblocks : BlockAlloc.nblocks (alloc s) = bs_nblocks d;
  di_refs : blocks_in_use (tb_refs (table s)) (alloc s);
  di_cache_wf : rc_wf (read_cache s);
  di_cache : ∀ k b, rc_has (read_cache s) k b → m !! k = Some b;
  di_buf_ok : db_ok (data_buf s);
  di_buf : ∀ k b, db_buf (data_buf s) !! k = Some b → m !! k = Some b;
  di_table : ∀ k, db_buf (data_buf s) !! k = None →
    match m !! k with
    | Some b => ∃ v, tb_map (table s) !! k = Some v ∧ reads d (data_disk s) v b
    | None => tb_map (table s) !! k = None
    end;
  di_len : ∀ k b, m !! k = Some b → length b = BLOCK_SIZE;
}.

(** What a read leaves as it is. *)
Definition same_store s s' : Prop :=
  data_buf s' = data_buf s ∧ data_disk s' = data_disk s ∧ alloc s' = alloc s ∧ alloc_store s' = alloc_store s ∧ draws s' = draws s ∧
  tb_map (table s') = tb_map (table s) ∧ tb_refs (table s') = tb_refs (table s) ∧ tb_room (table s') = tb_room (table s).

Lemma same_store_refl s : same_store s s.
Proof. done. Qed.
Lemma same_store_trans s1 s2 s3 : same_store s1 s2 → same_store s2 s3 → same_store s1 s3.
Proof.
  intros (H1 & H2 & H3 & H4 & H5 & H6 & H7 & H8) (G1 & G2 & G3 & G4 & G5 & G6 & G7 & G8). unfold same_store. split_and!; congruence.
Qed.

(** The invariant speaks of the table through its map and its references. *)
Lemma inv_same d s s' m :
  disk_inv d s m → same_store s s' → rc_wf (read_cache s') → (∀ k b, rc_has (read_cache s') k b → m !! k = Some b) → disk_inv d s' m.
Proof.
  intros [H1 H2 H3 H4 H5 H6 H7 H8 H9 H10] (G1 & G2 & G3 & G4 & G5 & G6 & G7 & G8) Hw Hc.
  split; rewrite ?G1, ?G2, ?G3, ?G6, ?G7; done.
Qed.

Lemma disk_cache_put_ok d s m k b : disk_inv d s m → m !! k = Some b →
  ∃ s', SwornDisk.cache_put k b s = Some (Ok (), s') ∧ disk_inv d s' m ∧ same_store s s' ∧ rc_has (read_cache s') k b.
Proof.
  intros Hi Hk. destruct (rc_put_ok (read_cache s) k b (di_cache_wf _ _ _ Hi) (di_len _ _ _ Hi k b Hk)) as (c & Hput & Hw & _ & Hhas & Hold & _).
  exists (with_cache s c). unfold SwornDisk.cache_put. w_next. rewrite Hput. split; [done|]. split; [|by split].
  apply (inv_same d s); [done|done|done|]. intros k' b' [[-> ->]|[_ Hc]]%Hold; [done|]. by apply (di_cache _ _ _ Hi).
Qed.

Lemma disk_cache_get_ok d s m k : disk_inv d s m →
  ∃ o s', SwornDisk.cache_get k s = Some (Ok o, s') ∧ disk_inv d s' m ∧ same_store s s' ∧ cache (read_cache s') = cache (read_cache s) ∧
    match o with Some b => m !! k = Some b ∧ rc_has (read_cache s) k b | None => ∀ b, ¬ rc_has (read_cache s) k b end.
Proof.
  intros Hi. destruct (rc_get_ok (read_cache s) k (di_cache_wf _ _ _ Hi)) as (o & c & Hget & Hw & Hc & _ & Ho).
  exists o, (with_cache s c). unfold SwornDisk.cache_get. w_next. rewrite Hget. split; [done|]. split; [|split; [done|split; [done|]]].
  - apply (inv_same d s); [done|done|done|]. intros k' b' [i Hi']. apply (di_cache _ _ _ Hi k' b'). exists i. unfold at_slot in *. cbn in Hi'. by rewrite <- Hc.
  - destruct o as [b|]; [split; [by apply (di_cache _ _ _ Hi)|done]|done].
Qed.

(** ** Reading one block *)
Lemma read_fetch_ok d s m lba : disk_inv d s m →
  ∃ r s', read_fetch d lba s = Some (r, s') ∧ disk_inv d s' m ∧ same_store s s' ∧ cache (read_cache s') = cache (read_cache s) ∧
    match m !! lba with
    | Some b => r = Ok (Hit b) ∧ rc_has (read_cache s) lba b ∨ r = Ok (Miss b) ∧ ∀ b', ¬ rc_has (read_cache s) lba b'
    | None => r = Err NotFound
    end.
Proof.
  intros Hi. destruct (disk_cache_get_ok d s m lba Hi) as (o & s1 & E1 & Hi1 & Hs1 & Hc1 & Ho). unfold read_fetch. w_step E1.
  destruct o as [b|]; [destruct Ho as [Ho Hh]; exists (Ok (Hit b)), s1; rewrite Ho; split_and!; try done; by left|]. w_next. unfold db_get.
  destruct (db_buf (data_buf s1) !! lba) as [b|] eqn:Eb.
  { exists (Ok (Miss b)), s1. rewrite (di_buf _ _ _ Hi1 _ _ Eb). split_and!; try done. by right. }
  pose proof (di_table _ _ _ Hi1 lba Eb) as Ht. destruct (tb_get_ok (table s1) lba) as (t & Hget & Hm & Hrf & Hrm).
  set (s2 := with_table s1 t). assert (Hs2 : same_store s1 s2) by by split_and!.
  assert (Hi2 : disk_inv d s2 m) by (apply (inv_same d s1); [done|done|exact (di_cache_wf _ _ _ Hi1)|exact (di_cache _ _ _ Hi1)]).
  assert (E2 : table_get lba s1 = Some (match tb_map (table s1) !! lba with Some v => Ok v | None => Err NotFound end, s2)) by (unfold table_get; by rewrite Hget).
  pose proof (same_store_trans s s1 s2 Hs1 Hs2) as Hs.
  destruct (m !! lba) as [b|].
  - destruct Ht as (v & Hv & Hlt & Hd). rewrite Hv in E2. w_step E2. destruct (Buf_alloc_ok 0 1 ltac:(lia)) as (buf & -> & _). rewrite w_bind_lift. w_next.
    rewrite (bs_read_ok d (data_disk s2) (hba v) 1 (di_valid _ _ _ Hi2) ltac:(lia) ltac:(lia)), w_bind_lift. cbn [seq map concat]. rewrite app_nil_r.
    change (data_disk s2) with (data_disk s1). rewrite Hd, w_bind_lift. exists (Ok (Miss b)), s2. split_and!; try done. right. by split.
  - rewrite Ht in E2. rewrite (w_bind_Err _ _ _ _ _ E2). by exists (Err NotFound), s2.
Qed.

Lemma read_one_ok d s m lba : disk_inv d s m →
  ∃ r s', read_one_block d lba s = Some (r, s') ∧ disk_inv d s' m ∧ same_store s s' ∧
    r = match m !! lba with Some b => Ok b | None => Err NotFound end.
Proof.
  intros Hi. destruct (read_fetch_ok d s m lba Hi) as (r & s1 & E1 & Hi1 & Hs1 & _ & Hr). unfold read_one_block.
  destruct (m !! lba) as [b|] eqn:Em; [|subst r; rewrite (w_bind_Err _ _ _ _ _ E1); by exists (Err NotFound), s1].
  destruct Hr as [[-> _]|[-> _]]; w_step E1; [by exists (Ok b), s1|]. cbn [read_fill].
  destruct (disk_cache_put_ok d s1 m lba b Hi1 Em) as (s2 & E2 & Hi2 & Hs2 & _). w_step E2. exists (Ok b), s2. split_and!; try done. by apply (same_store_trans s s1).
Qed.

(** ** Writing out the buffer *)

(** Runs of consecutive host blocks. *)
Lemma group_by_runs {X} (f : X → nat) (rel : relation X) (p : X → X → res bool) l :
  (∀ x y, rel x y → f x ≤ f y) → (∀ x y, p x y = (n ← usub (f y) (f x); Ok (n =? 1))) → StronglySorted rel l →
  ∃ gs, group_by p l = Ok gs ∧ concat gs = l ∧ Forall (λ g, ∃ a n, map f g = seq a (S n)) gs.
Proof.
  intros Hrel Hp. induction 1 as [|x l Hs (gs & Hg & Hc & Hr) Hx]; [by exists []|]. cbn [group_by]. rewrite Hg, bind_Ok. destruct gs as [|g gs].
  { exists [[x]]. cbn in Hc. subst l. split; [done|]. split; [done|]. constructor; [by exists (f x), 0|constructor]. }
  apply Forall_cons in Hr as [(a & n & Hgm) Hr]. destruct g as [|y g]; [done|]. cbn [map seq] in Hgm. injection Hgm as Hy Hgm.
  cbn [concat app] in Hc. rewrite <- Hc in Hx. apply Forall_cons in Hx as [Hx%Hrel _].
  rewrite Hp, usub_ok, bind_Ok, bind_Ok by done. destruct (Nat.eqb_spec (f y - f x) 1) as [Ha|Ha].
  - eexists. split; [done|]. split; [by rewrite <- Hc|]. constructor; [|done]. exists (f x), (S n). cbn. rewrite Hgm. do 2 f_equal; [lia|]. f_equal. lia.
  - eexists. split; [done|]. split; [by rewrite <- Hc|]. constructor; [by exists (f x), 0|]. constructor; [|done]. exists a, n. cbn. by rewrite Hy, Hgm.
Qed.

Lemma group_by_succ l : StronglySorted lt l →
  ∃ gs, group_by hba_succ l = Ok gs ∧ concat gs = l ∧ Forall (λ g, ∃ a n, g = seq a (S n)) gs.
Proof.
  intros Hs. destruct (group_by_runs id lt hba_succ l) as (gs & Hg & Hc & Hr); [intros; unfold id; lia|done|done|].
  exists gs. split; [done|]. split; [done|]. eapply Forall_impl; [exact Hr|]. intros g (a & n & Hm). exists a, n. by rewrite map_id in Hm.
Qed.

(** The blocks of one batch are encrypted under new keys. *)
Lemma seal_batch_ok blocks batch : ∀ ciphers records nth s,
  nth + length batch ≤ length blocks →
  ∃ cs rs n, w_fold (seal_block blocks) (ciphers, records, nth) batch s = Some (Ok (ciphers ++ cs, records ++ rs, nth + length batch), with_draws s n) ∧
    length cs = length batch ∧
    Forall2 (λ x r, r.1 = x.1) (take (length batch) (drop nth blocks)) rs ∧ map (λ r, hba r.2) rs = batch ∧
    Forall2 (λ c xr, aead_encrypt xr.1 (rv_key xr.2) zeroed_iv [] = Ok (c, rv_mac xr.2)) cs
      (zip (take (length batch) (drop nth blocks)).*2 rs.*2).
Proof.
  induction batch as [|h batch IH]; intros ciphers records nth s Hlen.
  { exists [], [], (draws s). cbn. rewrite !app_nil_r, Nat.add_0_r. split; [by destruct s|]. split_and!; try done; constructor. }
  cbn [length] in Hlen. destruct (lookup_lt_is_Some_2 blocks nth ltac:(lia)) as [[k b] Hb]. cbn [w_fold].
  destruct (encrypt_total b (rand_key (draws s)) zeroed_iv []) as (c & mc & Hc). set (v := mkRecordValue A h (rand_key (draws s)) mc).
  assert (E : seal_block blocks (ciphers, records, nth) h s = Some (Ok (ciphers ++ [c], records ++ [(k, v)], nth + 1), with_draws s (S (draws s)))).
  { unfold seal_block. rewrite (index_ok _ _ _ Hb), w_bind_lift. w_next. w_next. cbn [snd fst]. rewrite Hc. reflexivity. }
  w_step E. destruct (IH (ciphers ++ [c]) (records ++ [(k, v)]) (nth + 1) (with_draws s (S (draws s)))) as (cs & rs & n & E2 & Hl & Hk & Hh & Henc); [lia|].
  exists (c :: cs), ((k, v) :: rs), n. rewrite E2, <- !app_assoc. cbn [app length]. replace (nth + 1 + length batch) with (nth + S (length batch)) by lia.
  rewrite (drop_S _ _ _ Hb). cbn [take]. replace (nth + 1) with (S nth) in * by lia. split; [done|]. split; [lia|].
  split; [by constructor|]. split; [cbn; by rewrite Hh|]. cbn. by constructor.
Qed.

(** The records [rs] of the blocks [xs], on the disk [st]. *)
Definition stored d (st : St) (xs : list (nat * list byte)) (rs : list (nat * RecordValue A)) : Prop :=
  Forall2 (λ x r, r.1 = x.1 ∧ reads d st r.2 x.2) xs rs.

Lemma stored_kept d st st' xs rs (new : list nat) :
  stored d st xs rs → (∀ i, i < bs_nblocks d → i ∉ new → bs_block d st' i = bs_block d st i) →
  (∀ r, r ∈ rs → hba r.2 ∉ new) → stored d st' xs rs.
Proof.
  intros Hs Hkeep. unfold stored in *. induction Hs as [|x r xs rs [Hk [Hlt Hd]] Hs IH]; intros Hnew; constructor.
  - split; [done|]. split; [done|]. rewrite Hkeep; [done|done|]. apply Hnew. by left.
  - apply IH. intros r' Hr'. apply Hnew. by right.
Qed.

Lemma write_batch_ok d blocks records nth a n s :
  Forall (λ x, length x.2 = BLOCK_SIZE) blocks → bs_valid d (data_disk s) → a + S n ≤ bs_nblocks d → nth + S n ≤ length blocks →
  ∃ rs st' dr, write_batch d blocks (records, nth) (seq a (S n)) s = Some (Ok (records ++ rs, nth + S n), with_disk (with_draws s dr) st') ∧
    bs_valid d st' ∧ map (λ r, hba r.2) rs = seq a (S n) ∧ stored d st' (take (S n) (drop nth blocks)) rs ∧
    ∀ i, i < bs_nblocks d → i ∉ seq a (S n) → bs_block d st' i = bs_block d (data_disk s) i.
Proof.
  intros Hbl Hv Ha Hn. destruct (seal_batch_ok blocks (seq a (S n)) [] records nth s) as (cs & rs & dr & E & Hcl & Hk & Hh & Henc); [by rewrite length_seq|].
  rewrite length_seq in *. set (xs := take (S n) (drop nth blocks)) in *. cbn [app] in E.
  assert (Hxl : length xs = S n) by (unfold xs; rewrite length_take, length_drop; lia).
  assert (Hrl : length rs = S n) by (apply Forall2_length in Hk; lia).
  assert (Henc' : ∀ i c x r, cs !! i = Some c → xs !! i = Some x → rs !! i = Some r → aead_encrypt x.2 (rv_key r.2) zeroed_iv [] = Ok (c, rv_mac r.2)).
  { intros i c x r Hc Hx Hr. apply (Forall2_lookup_lr _ _ _ i c (x.2, r.2) Henc Hc). rewrite lookup_zip_with, !list_lookup_fmap, Hx, Hr. done. }
  assert (Hcs : Forall (λ b, length b = BLOCK_SIZE) cs).
  { apply Forall_lookup. intros i c Hc. assert (Hi : i < S n) by (apply lookup_lt_Some in Hc; lia).
    destruct (lookup_lt_is_Some_2 xs i ltac:(lia)) as [x Hx]. destruct (lookup_lt_is_Some_2 rs i ltac:(lia)) as [r Hr].
    rewrite (encrypt_length _ _ _ _ _ _ (Henc' i c x r Hc Hx Hr)).
    assert (Hxs : Forall (λ x : nat * list byte, length x.2 = BLOCK_SIZE) xs) by by apply Forall_take, Forall_drop.
    exact (Forall_lookup_1 _ _ _ _ Hxs Hx). }
  assert (Hbuf : is_buf (S n) (concat cs)) by (split; [lia|]; rewrite (length_concat_same BLOCK_SIZE) by done; by rewrite Hcl).
  destruct (bs_write_ok d (data_disk s) a (S n) (concat cs) Hv Hbuf Ha) as (st' & Hw & Hv' & Hblk).
  exists rs, st', dr. split; [|split; [done|split; [done|split]]].
  - unfold write_batch. cbn [fst snd]. w_step E. cbn [seq head unwrap]. rewrite w_bind_lift. w_next.
    change (data_disk (with_draws s dr)) with (data_disk s). cbn [seq] in Hw. rewrite Hw, w_bind_lift. reflexivity.
  - apply Forall2_same_length_lookup_2; [lia|]. intros i x r Hx Hr. split; [by apply (Forall2_lookup_lr _ _ _ i x r Hk)|].
    assert (Hi : i < S n) by (apply lookup_lt_Some in Hx; lia). destruct (lookup_lt_is_Some_2 cs i ltac:(lia)) as [c Hc].
    assert (Hhr : hba r.2 = a + i).
    { apply (f_equal (lookup i)) in Hh. rewrite list_lookup_fmap, Hr, lookup_seq_lt in Hh by done. by injection Hh. }
    split; [lia|]. rewrite Hblk, Hhr by lia. rewrite (proj2 (Nat.leb_le _ _)), (proj2 (Nat.ltb_lt _ _)) by lia. cbn [andb].
    replace (a + i - a) with i by lia. rewrite (nth_block_concat cs i c) by done. by apply decrypt_encrypt, (Henc' i c x r).
  - intros i Hi Hni. rewrite Hblk by done. destruct ((a <=? i) && (i <? a + S n)) eqn:E2; [|done].
    apply andb_true_iff in E2 as [E2%Nat.leb_le E3%Nat.ltb_lt]. destruct Hni. apply elem_of_seq. lia.
Qed.

Lemma write_batches_ok d blocks gs : ∀ records nth s pre,
  Forall (λ x, length x.2 = BLOCK_SIZE) blocks → bs_valid d (data_disk s) → Forall (λ g, ∃ a n, g = seq a (S n)) gs →
  (∀ i, i ∈ concat gs → i < bs_nblocks d) → NoDup (pre ++ concat gs) → nth + length (concat gs) ≤ length blocks →
  map (λ r, hba r.2) records = pre → stored d (data_disk s) (take nth blocks) records →
  ∃ rs st' dr, w_fold (write_batch d blocks) (records, nth) gs s = Some (Ok (records ++ rs, nth + length (concat gs)), with_disk (with_draws s dr) st') ∧
    bs_valid d st' ∧ map (λ r, hba r.2) (records ++ rs) = pre ++ concat gs ∧ stored d st' (take (nth + length (concat gs)) blocks) (records ++ rs) ∧
    ∀ i, i < bs_nblocks d → i ∉ concat gs → bs_block d st' i = bs_block d (data_disk s) i.
Proof.
  induction gs as [|g gs IH]; intros records nth s pre Hbl Hv Hg Hlt Hnd Hn Hpre Hst.
  { exists [], (data_disk s), (draws s). cbn. rewrite !app_nil_r, Nat.add_0_r. split; [by destruct s|]. by split_and!. }
  apply Forall_cons in Hg as [(a & n & ->) Hg]. cbn [concat] in *. rewrite length_app, length_seq in *. cbn [w_fold].
  destruct (write_batch_ok d blocks records nth a n s Hbl Hv) as (rs & st & dr & E & Hv1 & Hh & Hs & Hkeep).
  { specialize (Hlt (a + n)). rewrite elem_of_app, elem_of_seq in Hlt. lia. } { lia. }
  w_step E. set (s1 := with_disk (with_draws s dr) st). rewrite app_assoc in Hnd. pose proof Hnd as (Hnd1 & Hdis & _)%NoDup_app. apply NoDup_app in Hnd1 as (_ & Hdis1 & _).
  assert (Hst1 : stored d st (take (nth + S n) blocks) (records ++ rs)).
  { rewrite <- (take_take_drop blocks nth (S n)). apply Forall2_app; [|exact Hs]. apply (stored_kept d (data_disk s) st _ _ (seq a (S n)) Hst Hkeep).
    intros r Hr Hin. apply (Hdis1 (hba r.2)); [|done]. rewrite <- Hpre. apply list_elem_of_fmap. by exists r. }
  destruct (IH (records ++ rs) (nth + S n) s1 (pre ++ seq a (S n)) Hbl Hv1 Hg) as (rs2 & st2 & dr2 & E2 & Hv2 & Hh2 & Hs2 & Hkeep2);
    [intros i Hi; apply Hlt, elem_of_app; by right|done|lia|by rewrite map_app, Hpre, Hh|exact Hst1|].
  exists (rs ++ rs2), st2, dr2. rewrite E2, !app_assoc. rewrite <- Nat.add_assoc in *. split; [done|]. split; [done|].
  split; [by rewrite Hh2, <- !app_assoc|]. split; [done|]. intros i Hi [H1 H2]%not_elem_of_app. rewrite Hkeep2 by done. by apply Hkeep.
Qed.

(** The buffer is written to free host blocks. *)
Lemma write_out_ok d s m :
  disk_inv d s m → db_nblocks (data_buf s) ≤ num_free (alloc s) →
  ∃ rs st' dr al, write_blocks_from_data_buf d s = Some (Ok rs, with_disk (with_draws (with_alloc s al) dr) st') ∧ bs_valid d st' ∧
    stored d st' (db_all_blocks (data_buf s)) rs ∧ NoDup (map (λ r, hba r.2) rs) ∧
    at_wf al ∧ BlockAlloc.nblocks al = BlockAlloc.nblocks (alloc s) ∧ num_free al + db_nblocks (data_buf s) = num_free (alloc s) ∧
    (∀ r, r ∈ rs → hba r.2 < bs_nblocks d ∧ is_free (alloc s) (hba r.2) = true ∧ is_free al (hba r.2) = false) ∧
    (∀ i, is_free al i = true → is_free (alloc s) i = true) ∧
    ∀ i, i < bs_nblocks d → is_free (alloc s) i = false → bs_block d st' i = bs_block d (data_disk s) i ∧ is_free al i = false.
Proof.
  intros Hi Hfree. set (blocks := db_all_blocks (data_buf s)).
  assert (Hlen : length blocks = db_nblocks (data_buf s)) by (unfold blocks, db_all_blocks; rewrite bt_iter_perm; apply length_map_to_list).
  assert (Hbl : Forall (λ x, length x.2 = BLOCK_SIZE) blocks).
  { apply Forall_forall. intros [k b] Hkb%elem_of_bt_iter. by eapply (di_len _ _ _ Hi k), (di_buf _ _ _ Hi). }
  unfold write_blocks_from_data_buf. w_next. fold blocks. destruct (Nat.eqb_spec (length blocks) 0) as [H0|H0].
  { exists [], (data_disk s), (draws s), (alloc s). split; [by destruct s|]. split; [exact (di_valid _ _ _ Hi)|].
    apply nil_length_inv in H0. rewrite H0. split; [constructor|]. split; [constructor|]. split; [exact (di_alloc _ _ _ Hi)|]. split; [done|].
    split; [rewrite H0 in Hlen; cbn in Hlen; lia|]. split; [by intros r Hr%elem_of_nil|]. by split. }
  destruct (table_alloc_batch_ok (alloc s) (length blocks) (di_alloc _ _ _ Hi)) as (hbas & al & Ha & Hw & Hl & Hnd & Hsort & Hnb & Hnf & Hin & Hfr); [lia|].
  rewrite Ha, w_bind_lift. w_next. rewrite Hl, Nat.eqb_refl. cbn [assert_]. rewrite w_bind_lift.
  destruct (group_by_succ hbas Hsort) as (gs & Hg & Hc & Hr). rewrite Hg, w_bind_lift.
  destruct (Buf_alloc_ok 0 (length blocks) ltac:(lia)) as (cb & -> & _). rewrite w_bind_lift.
  destruct (write_batches_ok d blocks gs [] 0 (with_alloc s al) [] Hbl (di_valid _ _ _ Hi) Hr) as (rs & st' & dr & E & Hv & Hh & Hst & Hkeep).
  { intros i Hi'. rewrite Hc in Hi'. rewrite <- (di_nblocks _ _ _ Hi). by apply Hin. } { cbn. by rewrite Hc. } { rewrite Hc. lia. } { done. } { constructor. }
  w_step E. cbn [app] in *. rewrite Hc in *. rewrite Hl, take_ge in Hst by lia.
  exists rs, st', dr, al. split; [done|]. split; [done|]. split; [done|]. split; [by rewrite Hh|]. split; [done|]. split; [done|]. split; [lia|]. split; [|split].
  - intros r Hr'. assert (Hm : hba r.2 ∈ hbas) by (rewrite <- Hh; apply list_elem_of_fmap; by exists r).
    destruct (Hin _ Hm) as [H1 H2]. rewrite (di_nblocks _ _ _ Hi) in H1. split; [done|]. split; [done|]. rewrite Hfr, bool_decide_eq_true_2 by done. apply andb_false_r.
  - intros i. rewrite Hfr. by intros [? _]%andb_true_iff.
  - intros i Hi' Hf. assert (Hni : i ∉ hbas) by (intros Hm; destruct (Hin i Hm); congruence). split; [by apply Hkeep|]. by rewrite Hfr, Hf.
Qed.

(** The records go to the table. *)
Definition meta_changed s s' : Prop :=
  data_buf s' = data_buf s ∧ data_disk s' = data_disk s ∧ read_cache s' = read_cache s ∧ draws s' = draws s.

Lemma table_puts_ok rs : ∀ s,
  at_wf (alloc s) → blocks_in_use (tb_refs (table s)) (alloc s) → length rs ≤ tb_room (table s) →
  NoDup rs.*1 → NoDup (map (λ r, hba r.2) rs) →
  (∀ r, r ∈ rs → hba r.2 ∉ tb_refs (table s) ∧ hba r.2 < BlockAlloc.nblocks (alloc s) ∧ is_free (alloc s) (hba r.2) = false) →
  ∃ s', w_fold (λ _ r, table_put r.1 r.2) () rs s = Some (Ok (), s') ∧ meta_changed s s' ∧
    at_wf (alloc s') ∧ BlockAlloc.nblocks (alloc s') = BlockAlloc.nblocks (alloc s) ∧ num_free (alloc s) ≤ num_free (alloc s') ∧
    blocks_in_use (tb_refs (table s')) (alloc s') ∧ tb_room (table s) ≤ length rs + tb_room (table s') ∧
    (∀ k v, (k, v) ∈ rs → tb_map (table s') !! k = Some v) ∧ (∀ k, k ∉ rs.*1 → tb_map (table s') !! k = tb_map (table s) !! k).
Proof.
  induction rs as [|[k v] rs IH]; intros s Hw Hu Hroom Hk Hh Hr.
  { exists s. split; [done|]. split; [done|]. split; [done|]. split; [done|]. split; [lia|]. split; [done|]. split; [cbn; lia|].
    split; [by intros ? ? ?%elem_of_nil|done]. }
  cbn [length] in Hroom. destruct (Hr (k, v) ltac:(by left)) as (H1 & H2 & H3). cbn [snd] in H1, H2, H3.
  destruct (tb_put_ok (table s) (alloc s) (alloc_store s) k v Hw Hu ltac:(lia) H1 H2 H3) as (t & al & ast & Hput & Hm & Hrf & Hu' & (Hw' & Hnb & Hnf & Hfr) & Hrm).
  set (s1 := with_meta s (t, al, ast)). assert (E : table_put k v s = Some (Ok (), s1)) by (unfold table_put, meta_of; by rewrite Hput).
  cbn [map] in Hk, Hh. apply NoDup_cons in Hk as [Hk1 Hk]. apply NoDup_cons in Hh as [Hh1 Hh]. cbn [snd] in Hh1. cbn [w_fold fst snd]. w_step E.
  destruct (IH s1) as (s' & E' & (G1 & G2 & G3 & G4) & Hw2 & Hnb2 & Hnf2 & Hu2 & Hrm2 & Hin2 & Hout2); [done|done|cbn; lia|done|done| |].
  { intros r Hr'. cbn. destruct (Hr r ltac:(by right)) as (K1 & K2 & K3).
    assert (Hne : hba r.2 ≠ hba v) by (intros E2; apply Hh1; rewrite <- E2; apply list_elem_of_fmap; by exists r).
    split; [set_solver|]. split; [lia|]. destruct (is_free al (hba r.2)) eqn:Ef; [|done]. destruct (Hfr _ Ef); [congruence|done]. }
  exists s'. split; [done|]. split; [done|]. split; [done|]. split; [cbn in Hnb2; lia|]. split; [cbn in Hnf2; lia|]. split; [done|].
  split; [cbn in *; lia|]. split.
  - intros k' v' [[= -> ->]|Hin]%elem_of_cons; [|by apply Hin2]. rewrite Hout2 by done. cbn. rewrite Hm. apply lookup_insert_eq.
  - intros k' [Hne Hni]%not_elem_of_cons. rewrite Hout2 by done. cbn. rewrite Hm. by apply lookup_insert_ne.
Qed.

(** ** Flushing and writing *)
Lemma disk_flush_ok d s m :
  disk_inv d s m → db_nblocks (data_buf s) ≤ num_free (alloc s) → db_nblocks (data_buf s) ≤ tb_room (table s) →
  ∃ s', flush_data_buf d s = Some (Ok (), s') ∧ disk_inv d s' m ∧ data_buf s' = db_clear (data_buf s) ∧ read_cache s' = read_cache s ∧
    num_free (alloc s) ≤ num_free (alloc s') + db_nblocks (data_buf s) ∧ tb_room (table s) ≤ tb_room (table s') + db_nblocks (data_buf s).
Proof.
  intros Hi Hfree Hroom. destruct (write_out_ok d s m Hi Hfree) as (rs & st & dr & al & E & Hv & Hst & Hnd & Hw & Hnb & Hnf & Hrs & Hfr & Hkeep).
  unfold flush_data_buf. w_step E. set (s1 := with_disk (with_draws (with_alloc s al) dr) st).
  set (blocks := db_all_blocks (data_buf s)) in *.
  assert (Hlen : length rs = db_nblocks (data_buf s)).
  { rewrite <- (Forall2_length _ _ _ Hst). unfold blocks, db_all_blocks. rewrite bt_iter_perm. apply length_map_to_list. }
  assert (Hkeys : rs.*1 = blocks.*1).
  { symmetry. apply list_eq_Forall2, Forall2_fmap. eapply Forall2_impl; [exact Hst|]. by intros x r [-> _]. }
  assert (Hin : ∀ k, k ∈ rs.*1 ↔ is_Some (db_buf (data_buf s) !! k)).
  { intros k. rewrite Hkeys, list_elem_of_fmap. split.
    - intros ([k' b] & -> & Hb%elem_of_bt_iter). by eexists.
    - intros [b Hb]. exists (k, b). split; [done|]. by apply elem_of_bt_iter. }
  destruct (table_puts_ok rs s1) as (s2 & E2 & (G1 & G2 & G3 & G4) & Hw2 & Hnb2 & Hnf2 & Hu2 & Hrm2 & Hin2 & Hout2); try done.
  { intros i Hr. destruct (di_refs _ _ _ Hi i Hr) as [H1 H2]. split; [cbn; congruence|]. apply Hkeep; [|done]. by rewrite <- (di_nblocks _ _ _ Hi). }
  { cbn. lia. }
  { rewrite Hkeys. unfold blocks, db_all_blocks. rewrite bt_iter_perm. apply NoDup_fst_map_to_list. }
  { intros r Hr. destruct (Hrs r Hr) as (H1 & H2 & H3). split; [|split; [cbn; rewrite Hnb, (di_nblocks _ _ _ Hi); done|done]].
    intros Hu. destruct (di_refs _ _ _ Hi _ Hu). congruence. }
  unfold flush_records. w_step E2. w_next. set (s3 := with_buf s2 (db_clear (data_buf s2))). exists s3. split; [done|].
  cbn in G1, G2, G3, Hnb2, Hnf2, Hrm2. split; [|split; [cbn; by rewrite G1|split; [done|cbn; lia]]].
  split; cbn.
  - by rewrite G2.
  - done.
  - by rewrite Hnb2, Hnb, (di_nblocks _ _ _ Hi).
  - done.
  - rewrite G3. exact (di_cache_wf _ _ _ Hi).
  - rewrite G3. exact (di_cache _ _ _ Hi).
  - rewrite G1. apply db_clear_ok, (di_buf_ok _ _ _ Hi).
  - intros k b. by rewrite lookup_empty.
  - intros k _. rewrite G2. destruct (db_buf (data_buf s) !! k) as [b|] eqn:Eb.
    + rewrite (di_buf _ _ _ Hi _ _ Eb). apply elem_of_bt_iter in Eb. apply list_elem_of_lookup in Eb as [i Eb].
      destruct (Forall2_lookup_l _ _ _ i _ Hst Eb) as ([k' v] & Hr & Hk' & Hrd). cbn [fst snd] in *. subst k'.
      exists v. split; [|done]. apply Hin2, list_elem_of_lookup. by exists i.
    + rewrite Hout2 by (rewrite Hin, Eb; by intros [? ?]). pose proof (di_table _ _ _ Hi k Eb) as Ht. destruct (m !! k) as [b|]; [|done].
      destruct Ht as (v & Hv1 & Hlt & Hd). exists v. split; [done|]. split; [done|].
      destruct (di_refs _ _ _ Hi _ (tb_live _ _ _ Hv1)) as [_ Hf]. by rewrite (proj1 (Hkeep _ Hlt Hf)).
  - exact (di_len _ _ _ Hi).
Qed.

(** Room for [n] more writes: the buffer is not full, and a flush finds free host blocks and room in the table. *)
Definition room s (n : nat) : Prop :=
  db_is_full (data_buf s) = false ∧ db_nblocks (data_buf s) + n ≤ num_free (alloc s) ∧ db_nblocks (data_buf s) + n ≤ tb_room (table s).

Lemma room_same s s' n : same_store s s' → room s n → room s' n.
Proof. intros (G1 & G2 & G3 & G4 & G5 & G6 & G7 & G8). unfold room. by rewrite G1, G3, G8. Qed.

Lemma write_block_ok d s m n lba b :
  disk_inv d s m → room s (S n) → length b = BLOCK_SIZE → usize_ok (lba + 1) = true →
  ∃ s', write_block d lba b s = Some (Ok (lba + 1), s') ∧ disk_inv d s' (<[lba := b]> m) ∧ room s' n.
Proof.
  intros Hi (Hf & Hfree & Hroom) Hb Hu. destruct (db_put_ok (data_buf s) lba b (di_buf_ok _ _ _ Hi) Hf Hb) as (full & b' & Hput & Hok & Hbuf & Hcap & Hfull).
  set (s1 := with_buf s b'). assert (E1 : buf_put lba b s = Some (Ok full, s1)) by (unfold buf_put; w_next; rewrite Hput; reflexivity).
  assert (Hn : db_nblocks b' ≤ S (db_nblocks (data_buf s))).
  { unfold db_nblocks. rewrite Hbuf. destruct (db_buf (data_buf s) !! lba) eqn:E; [rewrite map_size_insert_Some by by eexists|rewrite map_size_insert_None by done]; lia. }
  (* between the two puts the cache may still have the old block *)
  destruct (rc_put_ok (read_cache s) lba b (di_cache_wf _ _ _ Hi) Hb) as (c & Hc & Hw & _ & Hhas & Hold & _).
  set (s2 := with_cache s1 c). assert (E2 : SwornDisk.cache_put lba b s1 = Some (Ok (), s2)) by (unfold SwornDisk.cache_put; w_next; cbn [s1 read_cache with_buf]; rewrite Hc; reflexivity).
  assert (Hi2 : disk_inv d s2 (<[lba := b]> m)).
  { destruct Hi as [H1 H2 H3 H4 H5 H6 H7 H8 H9 H10]. split; try done.
    - intros k b1 [[-> ->]|[Hne Hk]]%Hold; [apply lookup_insert_eq|]. rewrite lookup_insert_ne by done. by apply H6.
    - cbn. rewrite Hbuf. intros k b1. destruct (decide (lba = k)) as [<-|Hne]; [by rewrite !lookup_insert_eq|]. rewrite !lookup_insert_ne by done. apply H8.
    - cbn. rewrite Hbuf. intros k. destruct (decide (lba = k)) as [<-|Hne]; [by rewrite lookup_insert_eq|]. rewrite !lookup_insert_ne by done. apply H9.
    - intros k b1. destruct (decide (lba = k)) as [<-|Hne]; [rewrite lookup_insert_eq; by intros [= <-]|]. rewrite lookup_insert_ne by done. apply H10. }
  unfold write_block. w_step E1. w_step E2. destruct full.
  - destruct (disk_flush_ok d s2 _ Hi2) as (s3 & E3 & Hi3 & Hb3 & _ & Hn3 & Hr3); [cbn; lia..|]. w_step E3. rewrite uadd_ok by done. exists s3. split; [done|]. split; [done|].
    cbn in Hn3, Hr3. unfold room. rewrite Hb3, db_clear_nblocks. split; [done|]. lia.
  - w_next. rewrite uadd_ok by done. exists s2. split; [done|]. split; [done|]. split; [by cbn|]. cbn. lia.
Qed.

(** [n] blocks from [lba] on. *)
Fixpoint put_blocks m lba (bs : list (list byte)) : gmap nat (list byte) :=
  match bs with [] => m | b :: bs => put_blocks (<[lba := b]> m) (lba + 1) bs end.

Lemma write_blocks_ok d bs : ∀ s m n lba,
  disk_inv d s m → room s (length bs + n) → Forall (λ b, length b = BLOCK_SIZE) bs → usize_ok (lba + length bs) = true →
  ∃ s', w_fold (write_block d) lba bs s = Some (Ok (lba + length bs), s') ∧ disk_inv d s' (put_blocks m lba bs) ∧ room s' n.
Proof.
  induction bs as [|b bs IH]; intros s m n lba Hi Hroom Hbs Hu; [exists s; cbn; by rewrite Nat.add_0_r|].
  apply Forall_cons in Hbs as [Hb Hbs]. cbn [length] in *. cbn [w_fold put_blocks].
  destruct (write_block_ok d s m (length bs + n) lba b Hi Hroom Hb) as (s1 & E1 & Hi1 & Hr1); [apply (usize_ok_le _ (lba + S (length bs))); [lia|done]|].
  w_step E1. replace (lba + S (length bs)) with (lba + 1 + length bs) in * by lia. by apply IH.
Qed.
End spec.
