(* ===== verification/SwornDiskRead.v ===== *)
(** * SwornDiskRead: reads of several blocks

    What [read_multi_blocks] leaves in the caller's buffers, by way of the cache, the buffer and the data disk, when every block
    of the range was written, and when one was not. *)
From S2P Require Import Prelude BitMap Bio CryptoChain CryptoLog CryptoLogProps RangeQuery BlockAlloc DiskBio DataBuf ReadCache SwornDisk SwornDiskSpec.

(** ** Buffers of whole blocks *)

(** Buffers of [n] blocks in all. *)
Definition bufs_ok (n : nat) (bufs : list (list byte)) : Prop :=
  Forall (λ b : list byte, length b = nblocks_of b * BLOCK_SIZE) bufs ∧ length (concat bufs) = n * BLOCK_SIZE.

Lemma bufs_ok_cons n buf bufs :
  bufs_ok n (buf :: bufs) → length buf = nblocks_of buf * BLOCK_SIZE ∧ bufs_ok (n - nblocks_of buf) bufs ∧ nblocks_of buf ≤ n.
Proof.
  pose proof BLOCK_SIZE_pos. intros [[Hb Hbs]%Forall_cons Hl]. cbn [concat] in Hl. rewrite length_app in Hl. assert (nblocks_of buf ≤ n) by nia.
  split; [done|]. split; [|done]. split; [done|]. nia.
Qed.

Lemma bufs_ok_one n buf : is_buf n buf → bufs_ok n [buf].
Proof.
  intros Hb. pose proof (nblocks_of_is_buf _ _ Hb) as Hn. destruct Hb as [_ Hl]. split; [constructor; [|constructor]; by rewrite Hn|].
  cbn. by rewrite app_nil_r.
Qed.

Lemma bufs_nblocks_ok n bufs : bufs_ok n bufs → usize_ok n = true → bufs_nblocks bufs = N.of_nat n.
Proof.
  intros Hb Hu. unfold bufs_nblocks. change 0%N with (N.of_nat 0). rewrite <- (Nat.add_0_l n) at 1.
  assert (Ha : 0 + n ≤ n) by lia. revert Hb Ha. generalize n at 1 2 4. generalize 0. induction bufs as [|buf bufs IH]; intros acc k Hb Ha.
  { destruct Hb as [_ Hl]. cbn in *. pose proof BLOCK_SIZE_pos. f_equal. nia. }
  apply bufs_ok_cons in Hb as (_ & Hb & Hk). cbn [foldl]. unfold sat_add at 2. unfold usize_ok in Hu. apply N.leb_le in Hu.
  rewrite N.min_l by lia. rewrite <- Nat2N.inj_add. rewrite (IH _ _ Hb) by lia. f_equal. lia.
Qed.

(** A block is copied in its place. *)
Lemma set_nth_ok bufs : ∀ n i b,
  bufs_ok n bufs → i < n → length b = BLOCK_SIZE →
  ∃ bufs', set_nth_block bufs i b = Ok bufs' ∧ bufs_ok n bufs' ∧ map length bufs' = map length bufs ∧
    concat bufs' = splice (concat bufs) (i * BLOCK_SIZE) b.
Proof.
  pose proof BLOCK_SIZE_pos as HB. induction bufs as [|buf bufs IH]; intros n i b Hb Hi Hl; [destruct Hb as [_ Hb]; cbn in Hb; nia|].
  pose proof Hb as [_ Hlen]. apply bufs_ok_cons in Hb as (Hbuf & Hb & Hn). cbn [set_nth_block].
  assert (Hfin : ∀ bufs', map length bufs' = map length (buf :: bufs) → concat bufs' = splice (concat (buf :: bufs)) (i * BLOCK_SIZE) b → bufs_ok n bufs').
  { intros bufs' Hm Hc. split.
    - apply Forall_fmap with (f := length) (P := λ l, l = l / BLOCK_SIZE * BLOCK_SIZE). change (length <$> bufs') with (map length bufs'). rewrite Hm.
      apply Forall_fmap. constructor; [exact Hbuf|]. exact (proj1 Hb).
    - rewrite Hc, splice_length; [done|]. rewrite Hl, Hlen. nia. }
  destruct (Nat.leb_spec (nblocks_of buf) i) as [Hle|Hlt].
  - destruct (IH (n - nblocks_of buf) (i - nblocks_of buf) b Hb ltac:(lia) Hl) as (bufs' & Hs & Hb' & Hm & Hc). rewrite Hs, bind_Ok.
    assert (Hc2 : concat (buf :: bufs') = splice (concat (buf :: bufs)) (i * BLOCK_SIZE) b).
    { cbn [concat]. rewrite Hc. unfold splice. rewrite take_app_ge, drop_app_ge by nia. rewrite Hbuf, <- app_assoc. do 2 f_equal; [f_equal; nia|].
      do 2 f_equal; nia. }
    exists (buf :: bufs'). split; [done|]. split; [apply Hfin; [cbn; by rewrite Hm|done]|]. split; [cbn; by rewrite Hm|done].
  - rewrite copy_from_slice_ok by nia. rewrite bind_Ok. assert (Hl2 : length (splice buf (i * BLOCK_SIZE) b) = length buf) by (apply splice_length; nia).
    assert (Hc2 : concat (splice buf (i * BLOCK_SIZE) b :: bufs) = splice (concat (buf :: bufs)) (i * BLOCK_SIZE) b).
    { cbn [concat]. unfold splice. rewrite take_app_le, drop_app_le by nia. by rewrite <- !app_assoc. }
    eexists. split; [done|]. split; [apply Hfin; [cbn; by rewrite Hl2|done]|]. split; [cbn; by rewrite Hl2|done].
Qed.

Section read.
Context {A : Aead} {HA : AeadSpec A} {R : Random A} {Z : ZeroIv A} {P : Pages} {HP : PagesSpec P} {B : Bittle} {HB : BittleSpec B} {PC : BitMapPostcard}.
Context {T : Type} {HT : BlockTable A B T} {HTS : BlockTableSpec A B T} {D St : Type} {HS : BlockSet D St} {HSS : BlockSetSpec D St}.
Implicit Types (d : D) (s : Disk T St) (m : gmap nat (list byte)) (k lba : nat) (b : list byte) (v : RecordValue A).

(** The slots of [F] hold the blocks of the array, the others what they held in [old]. *)
Definition filled m lba (n : nat) (old bufs : list (list byte)) (F : nat → Prop) : Prop :=
  bufs_ok n bufs ∧ map length bufs = map length old ∧
  (∀ j, j < n → F j → m !! (lba + j) = Some (nth_block (concat bufs) j)) ∧
  (∀ j, j < n → ¬ F j → nth_block (concat bufs) j = nth_block (concat old) j).

Lemma copy_ok m lba n old bufs F s i b :
  filled m lba n old bufs F → usize_ok n = true → i < n → m !! (lba + i) = Some b → length b = BLOCK_SIZE →
  ∃ bufs', copy_block i b (s, bufs) = Some (Ok (), (s, bufs')) ∧ filled m lba n old bufs' (λ j, j = i ∨ F j).
Proof.
  intros (Hb & Hm & Hin & Hout) Hu Hi Hmi Hl. unfold copy_block. w_next. cbn [snd fst]. rewrite (bufs_nblocks_ok n bufs Hb Hu).
  rewrite (proj2 (N.ltb_lt _ _)) by lia. cbn [assert_]. rewrite w_bind_lift.
  destruct (set_nth_ok bufs n i b Hb Hi Hl) as (bufs' & -> & Hb' & Hm' & Hc). rewrite w_bind_lift. exists bufs'. split; [done|].
  assert (Hblk : ∀ j, nth_block (concat bufs') j = if (i <=? j) && (j <? i + 1) then nth_block b (j - i) else nth_block (concat bufs) j).
  { intros j. rewrite Hc. apply nth_block_splice; [lia|]. destruct Hb as [_ ->]. nia. }
  split; [done|]. split; [congruence|]. split; intros j Hj.
  - rewrite Hblk. destruct (decide (j = i)) as [->|Hne].
    + intros _. rewrite Nat.leb_refl, (proj2 (Nat.ltb_lt _ _)), Nat.sub_diag by lia. cbn [andb]. rewrite Hmi. f_equal. unfold nth_block.
      by rewrite drop_0, take_ge by lia.
    + intros [->|Hf]; [done|]. destruct ((i <=? j) && (j <? i + 1)) eqn:E; [|by apply Hin]. bool_simpl. lia.
  - intros Hf. rewrite Hblk. destruct ((i <=? j) && (j <? i + 1)) eqn:E; [|apply Hout; tauto]. destruct Hf. left. bool_simpl. lia.
Qed.

Lemma filled_iff m lba n old bufs (F G : nat → Prop) : (∀ j, j < n → F j ↔ G j) → filled m lba n old bufs F → filled m lba n old bufs G.
Proof.
  intros Hfg (Hb & Hm & Hin & Hout). split; [done|]. split; [done|]. split; intros j Hj.
  - intros Hg. apply Hin; [done|]. by apply Hfg.
  - intros Hg. apply Hout; [done|]. by rewrite Hfg.
Qed.

(** ** The cache and the buffer *)

(** A read under way: the slots done by now are filled. *)
Definition reading d s0 s m lba n old bufs (q : RangeQueryCtx (RecordValue A)) : Prop :=
  disk_inv d s m ∧ same_store s0 s ∧ ctx_wf q ∧ start q = lba ∧ num_values q = n ∧ results q = [] ∧
  filled m lba n old bufs (λ j, slot_done q j = true).

(** The slots done in [q'] are those of [q] and those of [G]. *)
Definition more_done (q q' : RangeQueryCtx (RecordValue A)) (G : nat → Prop) : Prop :=
  ∀ j, slot_done q' j = true ↔ slot_done q j = true ∨ G j.

Lemma reading_mark d s0 s s' m lba n old bufs bufs' q i :
  reading d s0 s m lba n old bufs q → disk_inv d s' m → same_store s s' → i < n →
  filled m lba n old bufs' (λ j, j = i ∨ slot_done q j = true) →
  ∃ q', mark_completed q (lba + i) = Ok q' ∧ reading d s0 s' m lba n old bufs' q' ∧ more_done q q' (λ j, j = i).
Proof.
  intros (Hi & Hs & Hq & Hst & Hn & Hr & Hf) Hi' Hs' Hin Hf'.
  destruct (mark_completed_ok q (lba + i) Hq ltac:(lia)) as (q' & E & Hq' & Hst' & Hn' & Hr' & Hd). rewrite Hst in Hd.
  assert (Hmore : more_done q q' (λ j, j = i)).
  { intros j. rewrite Hd. replace (lba + i - lba) with i by lia. destruct (Nat.eqb_spec j i) as [->|Hne]; [by split; [right|]|].
    split; [by left|]. by intros [?|?]. }
  exists q'. split; [done|]. split; [|done]. split; [done|]. split; [by apply (same_store_trans s0 s)|]. split; [done|]. split; [congruence|].
  split; [congruence|]. split; [congruence|]. eapply filled_iff; [|exact Hf']. intros j _. rewrite (Hmore j). tauto.
Qed.

Lemma read_cached_ok d s0 s m lba n old bufs q i :
  reading d s0 s m lba n old bufs q → usize_ok (lba + n) = true → i < n →
  ∃ s' bufs' q', read_cached lba q i (s, bufs) = Some (Ok q', (s', bufs')) ∧ reading d s0 s' m lba n old bufs' q' ∧
    cache (read_cache s') = cache (read_cache s) ∧
    ∃ G : nat → Prop, more_done q q' G ∧ ∀ j, G j → ∃ b, rc_has (read_cache s) (lba + j) b.
Proof.
  intros Hrd Hu Hi. pose proof Hrd as (Hinv & Hs & Hq & Hst & Hn & Hr & Hf). unfold read_cached.
  rewrite (uadd_ok lba i) by (apply (usize_ok_le _ (lba + n)); [lia|done]). rewrite w_bind_lift.
  destruct (Buf_alloc_ok 0 1 ltac:(lia)) as (buf & -> & _). rewrite w_bind_lift.
  destruct (rc_get_ok (read_cache s) (lba + i) (di_cache_wf _ _ _ Hinv)) as (o & c & Hget & Hw & Hc & _ & Ho).
  set (s1 := with_cache s c). assert (E : on_disk_st (SwornDisk.cache_get (lba + i)) (s, bufs) = Some (Ok o, (s1, bufs))).
  { unfold on_disk_st, SwornDisk.cache_get. cbn [fst snd]. unfold w_get, w_put, w_lift, mbind, wio_bind, mret, wio_ret. by rewrite Hget. }
  assert (Hi1 : disk_inv d s1 m).
  { apply (inv_same d s); [done|done|done|]. intros k b [j Hj]. apply (di_cache _ _ _ Hinv k b). exists j. unfold at_slot in *. cbn in Hj. by rewrite <- Hc. }
  w_step E. destruct o as [b|].
  - assert (Hm : m !! (lba + i) = Some b) by by apply (di_cache _ _ _ Hinv).
    destruct (copy_ok m lba n old bufs _ s1 i b Hf) as (bufs' & E2 & Hf2); [by apply (usize_ok_le _ (lba + n)); [lia|]|done|done|by apply (di_len _ _ _ Hinv (lba + i))|].
    w_step E2. destruct (reading_mark d s0 s s1 m lba n old bufs bufs' q i Hrd Hi1) as (q' & -> & Hrd' & Hmore); [done..|].
    exists s1, bufs', q'. split; [done|]. split; [done|]. split; [done|]. exists (λ j, j = i). split; [done|]. intros j ->. by exists b.
  - exists s1, bufs, q. split; [done|]. split; [by split|]. split; [done|]. exists (λ _, False). split; [|done]. intros j. tauto.
Qed.

Lemma read_cached_loop d s0 m lba n old l : ∀ s bufs q,
  reading d s0 s m lba n old bufs q → usize_ok (lba + n) = true → Forall (λ i, i < n) l →
  ∃ s' bufs' q', w_fold (read_cached lba) q l (s, bufs) = Some (Ok q', (s', bufs')) ∧ reading d s0 s' m lba n old bufs' q' ∧
    ∃ G : nat → Prop, more_done q q' G ∧ ∀ j, G j → ∃ b, rc_has (read_cache s) (lba + j) b.
Proof.
  induction l as [|i l IH]; intros s bufs q Hrd Hu Hl.
  { exists s, bufs, q. split; [done|]. split; [done|]. exists (λ _, False). split; [|done]. intros j. tauto. }
  apply Forall_cons in Hl as [Hi Hl]. cbn [w_fold].
  destruct (read_cached_ok d s0 s m lba n old bufs q i Hrd Hu Hi) as (s1 & bufs1 & q1 & E1 & Hrd1 & Hc1 & G1 & Hm1 & Hg1). w_step E1.
  destruct (IH s1 bufs1 q1 Hrd1 Hu Hl) as (s2 & bufs2 & q2 & E2 & Hrd2 & G2 & Hm2 & Hg2). exists s2, bufs2, q2. split; [done|]. split; [done|].
  exists (λ j, G1 j ∨ G2 j). split; [intros j; rewrite (Hm2 j), (Hm1 j); tauto|]. intros j [Hj|Hj]; [by apply Hg1|].
  destruct (Hg2 j Hj) as (b & k & Hk). exists b, k. unfold at_slot in *. by rewrite <- Hc1.
Qed.

Lemma read_buffered_loop d s0 m lba n old l : ∀ s bufs q,
  reading d s0 s m lba n old bufs q → usize_ok n = true →
  (∀ k b, (k, b) ∈ l → lba ≤ k < lba + n ∧ db_buf (data_buf s0) !! k = Some b) →
  ∃ s' bufs' q', w_fold (read_buffered lba) q l (s, bufs) = Some (Ok q', (s', bufs')) ∧ reading d s0 s' m lba n old bufs' q' ∧
    more_done q q' (λ j, ∃ b, (lba + j, b) ∈ l).
Proof.
  induction l as [|[k b] l IH]; intros s bufs q Hrd Hu Hl.
  { exists s, bufs, q. split; [done|]. split; [done|]. intros j. split; [by left|]. intros [?|[b Hb%elem_of_nil]]; done. }
  destruct (Hl k b ltac:(by left)) as [Hk Hb]. pose proof Hrd as (Hinv & Hs & Hq & Hst & Hn & Hr & Hf). cbn [w_fold].
  assert (Hm : m !! k = Some b) by (apply (di_buf _ _ _ Hinv); destruct Hs as (-> & _); done).
  assert (E : ∃ s1 bufs1 q1, read_buffered lba q (k, b) (s, bufs) = Some (Ok q1, (s1, bufs1)) ∧ reading d s0 s1 m lba n old bufs1 q1 ∧ more_done q q1 (λ j, j = k - lba)).
  { unfold read_buffered. cbn [fst snd]. rewrite usub_ok, w_bind_lift by lia.
    destruct (copy_ok m lba n old bufs _ s (k - lba) b Hf Hu ltac:(lia)) as (bufs1 & E1 & Hf1); [by replace (lba + (k - lba)) with k by lia|by apply (di_len _ _ _ Hinv k)|].
    w_step E1. destruct (disk_cache_put_ok d s m k b Hinv Hm) as (s1 & E2 & Hi1 & Hs1 & _).
    assert (E3 : on_disk_st (SwornDisk.cache_put k b) (s, bufs1) = Some (Ok (), (s1, bufs1))) by (unfold on_disk_st; cbn [fst snd]; by rewrite E2).
    w_step E3. destruct (reading_mark d s0 s s1 m lba n old bufs bufs1 q (k - lba) Hrd Hi1 Hs1 ltac:(lia) Hf1) as (q1 & Eq & Hrd1 & Hm1).
    replace (lba + (k - lba)) with k in Eq by lia. rewrite Eq. by exists s1, bufs1, q1. }
  destruct E as (s1 & bufs1 & q1 & E1 & Hrd1 & Hm1). w_step E1.
  destruct (IH s1 bufs1 q1 Hrd1 Hu) as (s2 & bufs2 & q2 & E2 & Hrd2 & Hm2); [intros k' b' Hin; apply Hl; by right|].
  exists s2, bufs2, q2. split; [done|]. split; [done|]. intros j. rewrite (Hm2 j), (Hm1 j). split.
  - intros [[H| ->]|[b' H]]; [by left| |]; right; [exists b|exists b'; by right]. replace (lba + (k - lba)) with k by lia. by left.
  - intros [H|[b' [[= Hkj _]|H]%elem_of_cons]]; [by left; left|left; right; lia|right; by exists b'].
Qed.

(** ** The data disk *)

(** The record [x] is that of a block of the range. *)
Definition good_record d s0 m lba n (x : nat * RecordValue A) : Prop :=
  lba ≤ x.1 < lba + n ∧ ∃ b, m !! x.1 = Some b ∧ reads d (data_disk s0) x.2 b.

(** What the reads of records keep and add. *)
Definition read_on d s0 m lba n old (F : nat → Prop) (st : ReadSt) : Prop :=
  disk_inv d st.1 m ∧ same_store s0 st.1 ∧ filled m lba n old st.2 F.

Lemma read_records_ok d s0 m lba n old cipher batch : ∀ nth F st,
  read_on d s0 m lba n old F st → usize_ok n = true → Forall (good_record d s0 m lba n) batch →
  (∀ i x, batch !! i = Some x → (nth + i + 1) * BLOCK_SIZE ≤ length cipher ∧ nth_block cipher (nth + i) = bs_block d (data_disk s0) (hba x.2)) →
  ∃ st', w_fold (read_record lba cipher) nth batch st = Some (Ok (nth + length batch), st') ∧
    read_on d s0 m lba n old (λ j, F j ∨ lba + j ∈ batch.*1) st'.
Proof.
  induction batch as [|[k v] batch IH]; intros nth F [s bufs] (Hi & Hs & Hf) Hu Hg Hc; cbn [fst snd] in *.
  { exists (s, bufs). rewrite Nat.add_0_r. split; [done|]. split; [done|]. split; [done|]. eapply filled_iff; [|exact Hf]. intros j _. cbn.
    rewrite elem_of_nil. tauto. }
  apply Forall_cons in Hg as [(Hk & b & Hb & Hlt & Hd) Hg]. destruct (Hc 0 (k, v) eq_refl) as [Hc1 Hc2]. rewrite Nat.add_0_r in Hc1, Hc2. cbn [fst snd] in *. cbn [w_fold].
  assert (E : ∃ st1, read_record lba cipher nth (k, v) (s, bufs) = Some (Ok (nth + 1), st1) ∧ read_on d s0 m lba n old (λ j, j = k - lba ∨ F j) st1).
  { unfold read_record. cbn [fst snd]. rewrite usub_ok, w_bind_lift by lia. rewrite slice_ok by lia. rewrite w_bind_lift.
    replace ((nth + 1) * BLOCK_SIZE - nth * BLOCK_SIZE) with BLOCK_SIZE by lia. fold (nth_block cipher nth). rewrite Hc2, Hd, w_bind_lift.
    destruct (copy_ok m lba n old bufs F s (k - lba) b Hf Hu ltac:(lia)) as (bufs1 & E1 & Hf1); [by replace (lba + (k - lba)) with k by lia|by apply (di_len _ _ _ Hi k)|].
    w_step E1. destruct (disk_cache_put_ok d s m k b Hi Hb) as (s1 & E2 & Hi1 & Hs1 & _).
    assert (E3 : on_disk_st (SwornDisk.cache_put k b) (s, bufs1) = Some (Ok (), (s1, bufs1))) by (unfold on_disk_st; cbn [fst snd]; by rewrite E2).
    w_step E3. exists (s1, bufs1). split; [done|]. split; [done|]. split; [by apply (same_store_trans s0 s)|done]. }
  destruct E as (st1 & E1 & Hon). w_step E1. destruct (IH (nth + 1) _ st1 Hon Hu Hg) as (st2 & E2 & (Hi2 & Hs2 & Hf2)).
  { intros i x Hx. replace (nth + 1 + i) with (nth + S i) by lia. by apply Hc. }
  exists st2. rewrite E2. cbn [length]. split; [do 3 f_equal; lia|]. split; [done|]. split; [done|]. eapply filled_iff; [|exact Hf2]. intros j _.
  cbn. rewrite elem_of_cons. split; [intros [[->|?]|?]; [right; left; cbn; lia|tauto|tauto]|]. intros [?|[Hj|?]]; [tauto| |tauto]. left; left. cbn in Hj. lia.
Qed.

Lemma read_batch_ok d s0 m lba n old batch F st a l :
  read_on d s0 m lba n old F st → usize_ok n = true → Forall (good_record d s0 m lba n) batch → map (λ x, hba x.2) batch = seq a (S l) →
  ∃ st', read_batch d lba batch st = Some (Ok (), st') ∧ read_on d s0 m lba n old (λ j, F j ∨ lba + j ∈ batch.*1) st'.
Proof.
  intros Hon Hu Hg Hm. pose proof Hon as (Hi & Hs & Hf). assert (Hlen : length batch = S l) by (by rewrite <- (length_map (λ x, hba x.2)), Hm, length_seq).
  assert (Hat : ∀ i x, batch !! i = Some x → hba x.2 = a + i ∧ hba x.2 < bs_nblocks d).
  { intros i x Hx. split.
    - pose proof (lookup_lt_Some _ _ _ Hx). apply (f_equal (lookup i)) in Hm. rewrite list_lookup_fmap, Hx, lookup_seq_lt in Hm by lia. by injection Hm.
    - apply (Forall_lookup_1 _ _ _ _ Hg) in Hx as (_ & b & _ & Hlt & _). done. }
  destruct (lookup_lt_is_Some_2 batch l ltac:(lia)) as [y Hy]. destruct (Hat l y Hy) as [Hy1 Hy2].
  destruct batch as [|x batch]; [done|]. destruct (Hat 0 x eq_refl) as [Hx1 _]. rewrite Nat.add_0_r in Hx1.
  unfold read_batch. cbn [head hd_error unwrap]. rewrite w_bind_lift. w_next. rewrite Hx1, Hlen.
  rewrite bs_read_ok by (first [exact (di_valid _ _ _ Hi)|lia]). rewrite w_bind_lift. assert (Ed : data_disk st.1 = data_disk s0) by apply Hs.
  rewrite Ed. set (cs := map (bs_block d (data_disk s0)) (seq a (S l))).
  assert (Hcs : Forall (λ c : list byte, length c = BLOCK_SIZE) cs).
  { apply Forall_fmap, Forall_forall. intros i Hin%elem_of_seq. cbn. rewrite <- Ed. apply bs_block_length; [exact (di_valid _ _ _ Hi)|lia]. }
  destruct (read_records_ok d s0 m lba n old (concat cs) (x :: batch) 0 F st Hon Hu Hg) as (st' & E & Hon').
  { intros i z Hz. destruct (Hat i z Hz) as [Hz1 Hz2]. pose proof (lookup_lt_Some _ _ _ Hz) as Hil. rewrite Hlen in Hil. cbn [Nat.add].
    rewrite (length_concat_same BLOCK_SIZE) by done. split; [unfold cs; rewrite length_map, length_seq; pose proof BLOCK_SIZE_pos; nia|].
    apply nth_block_concat; [done|]. unfold cs. rewrite list_lookup_fmap, lookup_seq_lt by lia. by rewrite Hz1. }
  w_step E. by exists st'.
Qed.

Lemma read_batches_ok d s0 m lba n old gs : ∀ F st,
  read_on d s0 m lba n old F st → usize_ok n = true → Forall (good_record d s0 m lba n) (concat gs) →
  Forall (λ g, ∃ a l, map (λ x, hba x.2) g = seq a (S l)) gs →
  ∃ st', w_fold (λ _ batch, read_batch d lba batch) () gs st = Some (Ok (), st') ∧ read_on d s0 m lba n old (λ j, F j ∨ lba + j ∈ (concat gs).*1) st'.
Proof.
  induction gs as [|g gs IH]; intros F st Hon Hu Hg Hr.
  { exists st. split; [done|]. destruct Hon as (Hi & Hs & Hf). split; [done|]. split; [done|]. eapply filled_iff; [|exact Hf]. intros j _. cbn.
    rewrite elem_of_nil. tauto. }
  cbn [concat] in *. apply Forall_app in Hg as [Hg1 Hg2]. apply Forall_cons in Hr as [(a & l & Hr1) Hr2]. cbn [w_fold].
  destruct (read_batch_ok d s0 m lba n old g F st a l Hon Hu Hg1 Hr1) as (st1 & E1 & Hon1). w_step E1.
  destruct (IH _ st1 Hon1 Hu Hg2 Hr2) as (st2 & E2 & (Hi2 & Hs2 & Hf2)). exists st2. split; [done|]. split; [done|]. split; [done|].
  eapply filled_iff; [|exact Hf2]. intros j _. rewrite fmap_app, elem_of_app. tauto.
Qed.

(** ** The whole read *)

(** How a read of [n] blocks ends: with the blocks of the array, or with [NotFound] and only blocks of the cache and the buffer filled in. *)
Definition read_end d s m lba n (bufs : list (list byte)) (r : res unit) (st : ReadSt) : Prop :=
  disk_inv d st.1 m ∧ same_store s st.1 ∧
  ((r = Ok () ∧ filled m lba n bufs st.2 (λ _, True)) ∨
   (r = Err NotFound ∧ (∃ j, j < n ∧ m !! (lba + j) = None) ∧
    ∃ F : nat → Prop, filled m lba n bufs st.2 F ∧
      ∀ j, F j → (∃ b, rc_has (read_cache s) (lba + j) b) ∨ is_Some (db_buf (data_buf s) !! (lba + j)))).

Lemma read_end_completed d s s' m lba n bufs bufs' q :
  reading d s s' m lba n bufs bufs' q → is_completed q = true → read_end d s m lba n bufs (Ok ()) (s', bufs').
Proof.
  intros (Hi & Hs & Hq & Hst & Hn & _ & Hf) Hc. split; [done|]. split; [done|]. left. split; [done|]. eapply filled_iff; [|exact Hf].
  intros j Hj. split; [done|]. intros _. apply (proj1 (is_completed_iff q Hq) Hc). lia.
Qed.

(** The records that the table returns are read from the disk. *)
Lemma read_rest_ok d s s2 m lba n bufs bufs2 q q' t :
  reading d s s2 m lba n bufs bufs2 q → usize_ok n = true → 0 < n →
  tb_map t = tb_map (table s2) → tb_refs t = tb_refs (table s2) → tb_room t = tb_room (table s2) →
  (∀ j, j < n → slot_done q j = false → db_buf (data_buf s) !! (lba + j) = None ∧ is_Some (m !! (lba + j))) →
  is_completed q' = true →
  (∀ k v, (k, v) ∈ results q' ↔ lba ≤ k < lba + n ∧ slot_done q (k - lba) = false ∧ tb_map (table s2) !! k = Some v) →
  ∃ st', (_ ← w_lift (assert_ (is_completed q')); res ← w_lift (into_results q');
          record_batches ← w_lift (group_by hba_follows (merge_sort hba_le res));
          _ ← w_lift (Buf_alloc 0 n);
          w_fold (λ _ batch, read_batch d lba batch) () record_batches) (with_table s2 t, bufs2) = Some (Ok (), st') ∧
    read_end d s m lba n bufs (Ok ()) st'.
Proof.
  intros (Hi & Hs & Hq & Hst & Hn & Hr & Hf) Hu Hpos Ht1 Ht2 Ht3 Hun Hc Hres. rewrite Hc. cbn [assert_]. rewrite w_bind_lift.
  unfold into_results. rewrite Hc. cbn [assert_]. rewrite bind_Ok, w_bind_lift.
  set (l := merge_sort hba_le (results q')). assert (Hl : ∀ x, x ∈ l ↔ x ∈ results q') by (intros x; unfold l; by rewrite merge_sort_Permutation).
  assert (Hs3 : same_store s (with_table s2 t)) by (apply (same_store_trans s s2); [done|by split_and!]).
  assert (Ed : data_disk s2 = data_disk s) by apply Hs. assert (Eb : data_buf s2 = data_buf s) by apply Hs.
  assert (Hgood : Forall (good_record d s m lba n) l).
  { apply Forall_forall. intros [k v] [Hk [Hd Hv]]%Hl%Hres. split; [done|]. destruct (Hun (k - lba) ltac:(lia) Hd) as [Hb [b Hmb]].
    replace (lba + (k - lba)) with k in * by lia. exists b. split; [done|]. rewrite <- Eb in Hb. pose proof (di_table _ _ _ Hi k Hb) as Ht. rewrite Hmb in Ht.
    destruct Ht as (v' & Hv' & Hrd). rewrite <- Ed. cbn. congruence. }
  assert (Htot : Total (@hba_le A)) by (intros x y; unfold hba_le; lia).
  assert (Htr : Transitive (@hba_le A)) by (intros x y z; unfold hba_le; lia).
  destruct (group_by_runs (λ x : nat * RecordValue A, hba x.2) hba_le hba_follows l) as (gs & -> & Hcat & Hruns); [done|done|by apply StronglySorted_merge_sort|].
  rewrite w_bind_lift. destruct (Buf_alloc_ok 0 n Hpos) as (cb & -> & _). rewrite w_bind_lift.
  destruct (read_batches_ok d s m lba n bufs gs (λ j, slot_done q j = true) (with_table s2 t, bufs2)) as (st' & E & (Hi3 & Hs3' & Hf3)); [|done|by rewrite Hcat|done|].
  { split; [|by split]. apply (inv_same d s2); [done|by split_and!|exact (di_cache_wf _ _ _ Hi)|exact (di_cache _ _ _ Hi)]. }
  exists st'. split; [done|]. split; [done|]. split; [done|]. left. split; [done|]. eapply filled_iff; [|exact Hf3]. intros j Hj. split; [done|]. intros _.
  destruct (slot_done q j) eqn:Ej; [by left|]. right. destruct (Hun j Hj Ej) as [Hb [b Hmb]]. rewrite <- Eb in Hb. pose proof (di_table _ _ _ Hi _ Hb) as Ht.
  rewrite Hmb in Ht. destruct Ht as (v & Hv & _). rewrite Hcat. apply list_elem_of_fmap. exists (lba + j, v). split; [done|]. apply Hl, Hres.
  replace (lba + j - lba) with j by lia. split; [lia|done].
Qed.

Lemma read_multi_ok d s m lba n bufs :
  disk_inv d s m → bufs_ok n bufs → 0 < n → usize_ok (lba + n) = true →
  ∃ r st, read_multi_blocks d lba (s, bufs) = Some (r, st) ∧ read_end d s m lba n bufs r st.
Proof.
  intros Hi Hb Hpos Hu. assert (Hun : usize_ok n = true) by (apply (usize_ok_le _ (lba + n)); [lia|done]).
  unfold read_multi_blocks. w_next. cbn [snd fst].
  assert (Hlen : 0 <? length bufs = true) by (destruct bufs; [destruct Hb as [_ Hb]; cbn in Hb; pose proof BLOCK_SIZE_pos; nia|done]).
  rewrite Hlen. cbn [assert_]. rewrite w_bind_lift, (bufs_nblocks_ok n bufs Hb Hun), Nat2N.id.
  set (q0 := RangeQueryCtx_new lba n). destruct (RangeQueryCtx_new_wf (V := RecordValue A) lba n) as [Hq0 Hd0]. fold q0 in Hq0, Hd0.
  assert (Hrd0 : reading d s s m lba n bufs bufs q0).
  { split; [done|]. split; [apply same_store_refl|]. split; [done|]. split; [done|]. split; [done|]. split; [done|]. split; [done|]. split; [done|].
    split; [intros j _; by rewrite Hd0|done]. }
  destruct (read_cached_loop d s m lba n bufs (seq 0 n) s bufs q0 Hrd0 Hu) as (s1 & bufs1 & q1 & E1 & Hrd1 & G & Hm1 & HG).
  { apply Forall_forall. intros j Hj%elem_of_seq. lia. }
  w_step E1. destruct (is_completed q1) eqn:Ec1; [by exists (Ok ()), (s1, bufs1); split; [|by apply (read_end_completed d s s1 m lba n bufs bufs1 q1)]|].
  pose proof Hrd1 as (Hi1 & Hs1 & Hq1 & Hst1 & Hn1 & Hr1 & Hf1). pose proof (range_uncompleted_ok q1 Hq1) as Hrange. rewrite Ec1 in Hrange.
  destruct Hrange as (x & y & -> & Hxy & Hx & Hy & Hin). rewrite bind_Ok. cbn [unwrap]. rewrite w_bind_lift. w_next. cbn [fst].
  assert (Eb : data_buf s1 = data_buf s) by apply Hs1. rewrite Eb. set (L := db_get_range (data_buf s) (start q1 + x, start q1 + y)).
  assert (HL : ∀ k b, (k, b) ∈ L ↔ db_buf (data_buf s) !! k = Some b ∧ lba + x ≤ k ≤ lba + y).
  { intros k b. unfold L, db_get_range. cbn [fst snd]. by rewrite elem_of_bt_range, andb_true_iff, !Nat.leb_le, Hst1. }
  destruct (read_buffered_loop d s m lba n bufs L s1 bufs1 q1 Hrd1 Hun) as (s2 & bufs2 & q2 & E2 & Hrd2 & Hm2).
  { intros k b [H1 H2]%HL. split; [lia|done]. }
  w_step E2. destruct (is_completed q2) eqn:Ec2; [by exists (Ok ()), (s2, bufs2); split; [|by apply (read_end_completed d s s2 m lba n bufs bufs2 q2)]|].
  pose proof Hrd2 as (Hi2 & Hs2 & Hq2 & Hst2 & Hn2 & Hr2 & Hf2).
  assert (Hnb : ∀ j, j < n → slot_done q2 j = false → db_buf (data_buf s) !! (lba + j) = None).
  { intros j Hj Hd. destruct (db_buf (data_buf s) !! (lba + j)) as [b|] eqn:E; [|done]. assert (slot_done q2 j = true); [|congruence].
    apply Hm2. destruct (slot_done q1 j) eqn:Ed1; [by left|right]. exists b. apply HL. split; [done|]. specialize (Hin j ltac:(lia) Ed1). lia. }
  destruct (tb_get_range_ok (table s2) q2 Hq2 Ec2) as (r & q3 & t & Hget & Ht1 & Ht2 & Ht3 & Hall & Hhole). rewrite Hst2, Hn2 in Hall, Hhole.
  destruct (decide (Exists (λ j, slot_done q2 j = false ∧ m !! (lba + j) = None) (seq 0 n))) as [(j & Hj%elem_of_seq & Hdj & Hmj)%Exists_exists|Hno].
  - destruct Hj as [_ Hj]. cbn in Hj.
    assert (Htj : tb_map (table s2) !! (lba + j) = None).
    { assert (Hbj : db_buf (data_buf s2) !! (lba + j) = None) by (rewrite (proj1 Hs2); by apply Hnb). pose proof (di_table _ _ _ Hi2 _ Hbj) as Ht. by rewrite Hmj in Ht. }
    rewrite (Hhole j Hj Hdj Htj) in Hget.
    assert (E3 : table_get_range q2 (s2, bufs2) = Some (Err NotFound, (with_table s2 t, bufs2))) by (unfold table_get_range; cbn [fst snd]; by rewrite Hget).
    rewrite (w_bind_Err _ _ _ _ _ E3). exists (Err NotFound), (with_table s2 t, bufs2). split; [done|]. cbn [fst snd].
    split; [apply (inv_same d s2); [done|by split_and!|exact (di_cache_wf _ _ _ Hi2)|exact (di_cache _ _ _ Hi2)]|].
    split; [apply (same_store_trans s s2); [done|by split_and!]|]. right. split; [done|]. split; [by exists j|]. exists (λ j, slot_done q2 j = true). split; [done|].
    intros i [[Hi0|Hgi]%Hm1|[b [Hbi _]%HL]]%Hm2; [by rewrite Hd0 in Hi0|left; by apply HG|right; by exists b].
  - assert (Hsome : ∀ j, j < n → slot_done q2 j = false → is_Some (m !! (lba + j))).
    { intros j Hj Hd. destruct (m !! (lba + j)) eqn:E; [by eexists|]. destruct Hno. apply Exists_exists. exists j. split; [apply elem_of_seq; lia|done]. }
    destruct Hall as (-> & Hq3 & Hc3 & Hst3 & Hn3 & Hres3).
    { intros j Hj Hd. destruct (Hsome j Hj Hd) as [b Hb']. pose proof (Hnb j Hj Hd) as Hbj. rewrite <- (proj1 Hs2) in Hbj. pose proof (di_table _ _ _ Hi2 _ Hbj) as Ht.
      rewrite Hb' in Ht. destruct Ht as (v & Hv & _). by eexists. }
    assert (E3 : table_get_range q2 (s2, bufs2) = Some (Ok q3, (with_table s2 t, bufs2))) by (unfold table_get_range; cbn [fst snd]; by rewrite Hget).
    w_step E3. destruct (read_rest_ok d s s2 m lba n bufs bufs2 q2 q3 t Hrd2 Hun Hpos Ht1 Ht2 Ht3) as (st & E4 & Hend); [|done| |by exists (Ok ()), st].
    { intros j Hj Hd. split; [by apply Hnb|by apply Hsome]. }
    intros k v. rewrite Hres3, Hr2, elem_of_nil. tauto.
Qed.
End read.
