(* ===== verification/SwornDiskProps.v ===== *)
(** * SwornDiskProps: what the disk promises

    The disk behaves as an array of blocks ([disk_is_array]), through the cache, the buffer, flushes and syncs; and the cases where it
    does not: reads of ranges with a hole, requests that run at the same time, and flushes that fail. *)
From S2P Require Import Prelude BitMap Bio CryptoChain CryptoLog CryptoLogProps RangeQuery BlockAlloc DiskBio DataBuf ReadCache SwornDisk SwornDiskSpec SwornDiskRead.

Section props.
Context {A : Aead} {HA : AeadSpec A} {R : Random A} {Z : ZeroIv A} {P : Pages} {HP : PagesSpec P} {B : Bittle} {HB : BittleSpec B} {PC : BitMapPostcard}.
Context {T : Type} {HT : BlockTable A B T} {HTS : BlockTableSpec A B T} {D St : Type} {HS : BlockSet D St} {HSS : BlockSetSpec D St}.
Implicit Types (d : D) (s : Disk T St) (m : gmap nat (list byte)) (k lba : nat) (b buf : list byte).

(** ** Syncing *)

(** The serialized bitmap of the allocator fits in its log. *)
Definition bitmap_fits d : Prop := ∀ bm, wf bm → nbits bm = bs_nblocks d → length (pc_to_bytes bm) ≤ BITMAP_MAX_BLOCKS * BLOCK_SIZE.

Lemma inv_meta d s m t al ast :
  disk_inv d s m → tb_map t = tb_map (table s) → at_wf al → BlockAlloc.nblocks al = BlockAlloc.nblocks (alloc s) → blocks_in_use (tb_refs t) al →
  disk_inv d (with_meta s (t, al, ast)) m.
Proof. intros [H1 H2 H3 H4 H5 H6 H7 H8 H9 H10] Ht Hw Hn Hu. split; cbn; try done; [congruence|]. by rewrite Ht. Qed.

Lemma alloc_compact_ok d al ast :
  bitmap_fits d → at_wf al → BlockAlloc.nblocks al = bs_nblocks d →
  ∃ al' ast', do_compaction al ast = Ok (al', ast') ∧ at_wf al' ∧ BlockAlloc.nblocks al' = BlockAlloc.nblocks al ∧ num_free al' = num_free al ∧
    ∀ i, is_free al' i = is_free al i.
Proof.
  intros Hfit Hw Hn. unfold do_compaction. destruct (is_dirty al); cbn [negb]; [|by exists al, ast].
  rewrite (proj2 (Nat.ltb_ge _ _)); [by eexists _, _|]. destruct Hw as (Hwf & Hnb & _). apply Hfit; [done|congruence].
Qed.

Lemma inner_sync_ok d s m n :
  disk_inv d s m → bitmap_fits d → room s (S (S n)) → ∃ s', inner_sync d s = Some (Ok (), s') ∧ disk_inv d s' m ∧ room s' n ∧ db_nblocks (data_buf s') = 0.
Proof.
  intros Hi Hfit (Hf & Hfree & Hroom). destruct (disk_flush_ok d s m Hi ltac:(lia) ltac:(lia)) as (s1 & E1 & Hi1 & Hb1 & _ & Hn1 & Hr1). unfold inner_sync. w_step E1.
  w_next. assert (He : db_is_empty (data_buf s1) = true) by (unfold db_is_empty; by rewrite Hb1, db_clear_nblocks). rewrite He. cbn [assert_]. rewrite w_bind_lift.
  destruct (tb_sync_ok (table s1) (alloc s1) (alloc_store s1) (di_alloc _ _ _ Hi1) (di_refs _ _ _ Hi1) ltac:(lia))
    as (t2 & al2 & ast2 & Hsync & Hm2 & Hrf2 & Hu2 & (Hw2 & Hnb2 & Hnf2 & _) & Hr2).
  set (s2 := with_meta s1 (t2, al2, ast2)). assert (E2 : table_sync s1 = Some (Ok (), s2)) by (unfold table_sync, meta_of; by rewrite Hsync). w_step E2. w_next.
  pose proof (inv_meta d s1 m t2 al2 ast2 Hi1 Hm2 Hw2 Hnb2 Hu2) as Hi2. fold s2 in Hi2.
  destruct (alloc_compact_ok d (alloc s2) (alloc_store s2) Hfit (di_alloc _ _ _ Hi2) (di_nblocks _ _ _ Hi2)) as (al3 & ast3 & -> & Hw3 & Hnb3 & Hnf3 & Hfr3).
  rewrite w_bind_lift. w_next. set (s3 := with_meta s2 (table s2, al3, ast3)).
  assert (Hi3 : disk_inv d s3 m).
  { apply inv_meta; try done. intros i Hr. destruct (di_refs _ _ _ Hi2 i Hr). rewrite Hfr3, Hnb3. done. }
  destruct (tb_store_sync_ok (table s3)) as (t4 & Hss & Hm4 & Hrf4 & Hr4); [cbn; lia|].
  set (s4 := with_table s3 t4). assert (E4 : store_sync s3 = Some (Ok (), s4)) by (unfold store_sync; by rewrite Hss). w_step E4. w_next.
  assert (Hi4 : disk_inv d s4 m).
  { change s4 with (with_meta s3 (t4, alloc s3, alloc_store s3)). apply (inv_meta d s3 m t4 _ _ Hi3 Hm4 (di_alloc _ _ _ Hi3) eq_refl). rewrite Hrf4. exact (di_refs _ _ _ Hi3). }
  rewrite (bs_flush_ok d (data_disk s4) (di_valid _ _ _ Hi4)), w_bind_lift. exists s4. split; [done|]. split; [done|].
  assert (Eb : data_buf s4 = db_clear (data_buf s)) by exact Hb1. unfold room. rewrite Eb, db_clear_nblocks. split; [|done]. split; [done|]. cbn in *. lia.
Qed.

(** ** Reads and writes of whole buffers *)

(** What a read returns: the blocks of the array, and for the blocks never written what the buffer held. *)
Definition array_read m lba (n : nat) buf : list byte :=
  concat (map (λ i, default (nth_block buf i) (m !! (lba + i))) (seq 0 n)).

Lemma filled_read m lba n buf bufs' : filled m lba n [buf] bufs' (λ _, True) → concat bufs' = array_read m lba n buf.
Proof.
  intros ((_ & Hl) & _ & Hin & _). rewrite <- (concat_blocks n (concat bufs') Hl). unfold array_read, blocks_from. f_equal. apply map_ext_in.
  intros j Hj%in_seq. by rewrite (Hin j) by (done || lia).
Qed.

Lemma inner_read_ok d s m lba n buf :
  disk_inv d s m → is_buf n buf → usize_ok (lba + n) = true → (n = 1 ∨ ∀ j, j < n → is_Some (m !! (lba + j))) →
  ∃ s', inner_read d lba buf s = Some (Ok (array_read m lba n buf), s') ∧ disk_inv d s' m ∧ same_store s s'.
Proof.
  intros Hi Hb Hu Hw. unfold inner_read. rewrite (nblocks_of_is_buf _ _ Hb). destruct (Nat.eqb_spec n 1) as [->|Hn].
  - destruct (read_one_ok d s m lba Hi) as (r & s1 & -> & Hi1 & Hs1 & ->). unfold array_read. cbn [seq map concat]. rewrite Nat.add_0_r, app_nil_r.
    destruct (m !! lba) as [b|]; exists s1; [done|]. split; [|done]. cbn [default]. unfold nth_block. destruct Hb as [_ Hb]. by rewrite drop_0, take_ge by lia.
  - assert (Hpos : 0 < n) by apply Hb. destruct (read_multi_ok d s m lba n [buf] Hi (bufs_ok_one _ _ Hb) Hpos Hu) as (r & [s1 bufs1] & E & Hi1 & Hs1 & He). cbn [fst snd] in *.
    destruct He as [[-> Hf]|(_ & (j & Hj & Hm) & _)]; [|exfalso; destruct Hw as [?|Hw]; [done|]; destruct (Hw j Hj); congruence].
    assert (E1 : readv_bufs d lba [buf] s = Some (Ok bufs1, s1)) by (unfold readv_bufs, inner_readv; by rewrite E). w_step E1. exists s1.
    by rewrite (filled_read _ _ _ _ _ Hf).
Qed.

Lemma inner_write_ok d s m lba n k buf :
  disk_inv d s m → is_buf n buf → usize_ok (lba + n) = true → room s (n + k) →
  ∃ s', inner_write d lba buf s = Some (Ok (), s') ∧ disk_inv d s' (put_blocks m lba (blocks_from buf 0 n)) ∧ room s' k.
Proof.
  intros Hi Hb Hu Hr. unfold inner_write. rewrite (nblocks_of_is_buf _ _ Hb). destruct Hb as [_ Hl]. change (Buf_iter buf) with (mkBufIter buf (0 * BLOCK_SIZE)).
  rewrite (BufIter_collect_ok n buf 0 (S n) Hl) by lia. rewrite Nat.sub_0_r, w_bind_lift.
  assert (Hn : length (blocks_from buf 0 n) = n) by (unfold blocks_from; by rewrite length_map, length_seq).
  destruct (write_blocks_ok d (blocks_from buf 0 n) s m k lba Hi) as (s' & E & Hi' & Hr'); [by rewrite Hn| |by rewrite Hn|w_step E; by exists s'].
  apply Forall_forall. intros b (i & -> & Hin%elem_of_seq)%list_elem_of_fmap. apply (nth_block_length n); [done|lia].
Qed.

(** ** The array of blocks *)
Inductive DiskOp := OpRead (lba : nat) (buf : list byte) | OpWrite (lba : nat) (buf : list byte) | OpSync.

Definition exec d (o : DiskOp) : wio (Disk T St) (list byte) :=
  match o with
  | OpRead lba buf => read d lba buf
  | OpWrite lba buf => _ ← write d lba buf; mret []
  | OpSync => _ ← sync d; mret []
  end.

(** The results of a sequence of calls; [None] when one of them waits for ever. *)
Fixpoint run_ops d (ops : list DiskOp) s : option (list (res (list byte)) * Disk T St) :=
  match ops with
  | [] => Some ([], s)
  | o :: ops => '(r, s1) ← exec d o s; '(rs, s2) ← run_ops d ops s1; Some (r :: rs, s2)
  end.

(** What a disk of [total] blocks is to answer. *)
Definition array_step (total : nat) (o : DiskOp) m : res (list byte) * gmap nat (list byte) :=
  match o with
  | OpRead lba buf => (if total <? lba + nblocks_of buf then Err OutOfDisk else Ok (array_read m lba (nblocks_of buf) buf), m)
  | OpWrite lba buf =>
      if total <? lba + nblocks_of buf then (Err OutOfDisk, m) else (Ok [], put_blocks m lba (blocks_from buf 0 (nblocks_of buf)))
  | OpSync => (Ok [], m)
  end.

Fixpoint array_run (total : nat) (ops : list DiskOp) m : list (res (list byte)) * gmap nat (list byte) :=
  match ops with
  | [] => ([], m)
  | o :: ops => let '(r, m1) := array_step total o m in let '(rs, m2) := array_run total ops m1 in (r :: rs, m2)
  end.

(** A call with a buffer of whole blocks; a read of several blocks covers written blocks only. *)
Definition op_ok (total : nat) (o : DiskOp) m : Prop :=
  match o with
  | OpRead lba buf =>
      is_buf (nblocks_of buf) buf ∧ usize_ok (lba + nblocks_of buf) = true ∧
      (lba + nblocks_of buf ≤ total → nblocks_of buf = 1 ∨ ∀ j, j < nblocks_of buf → is_Some (m !! (lba + j)))
  | OpWrite lba buf => is_buf (nblocks_of buf) buf ∧ usize_ok (lba + nblocks_of buf) = true
  | OpSync => True
  end.

Fixpoint ops_ok (total : nat) (ops : list DiskOp) m : Prop :=
  match ops with [] => True | o :: ops => op_ok total o m ∧ ops_ok total ops (array_step total o m).2 end.

(** The host blocks and the room in the table that a call takes at most. *)
Definition op_cost (o : DiskOp) : nat :=
  match o with OpRead _ _ => 0 | OpWrite _ buf => nblocks_of buf | OpSync => 2 end.

Lemma room_less s n k : k ≤ n → room s n → room s k.
Proof. intros Hk (? & ? & ?). split; [done|]. lia. Qed.

Lemma disk_exec_ok d s m o n :
  disk_inv d s m → bitmap_fits d → op_ok (bs_nblocks d) o m → room s (op_cost o + n) →
  ∃ s', exec d o s = Some ((array_step (bs_nblocks d) o m).1, s') ∧ disk_inv d s' (array_step (bs_nblocks d) o m).2 ∧ room s' n.
Proof.
  intros Hi Hfit Hok Hr. destruct o as [lba buf|lba buf|]; cbn [op_ok op_cost exec array_step] in *.
  - destruct Hok as (Hb & Hu & Hw). unfold read, check_rw_args. rewrite (uadd_ok _ _ Hu), bind_Ok. cbn [fst snd].
    destruct (Nat.ltb_spec (bs_nblocks d) (lba + nblocks_of buf)) as [Hlt|Hle]; [by exists s|]. rewrite w_bind_lift.
    destruct (inner_read_ok d s m lba _ buf Hi Hb Hu (Hw Hle)) as (s1 & E & Hi1 & Hs1). exists s1. split; [done|]. split; [done|]. by apply (room_same s).
  - destruct Hok as (Hb & Hu).
    assert (E0 : write d lba buf s = (if bs_nblocks d <? lba + nblocks_of buf then Some (Err OutOfDisk, s) else inner_write d lba buf s)).
    { unfold write, check_rw_args. rewrite (uadd_ok _ _ Hu), bind_Ok. by destruct (_ <? _). }
    destruct (Nat.ltb_spec (bs_nblocks d) (lba + nblocks_of buf)) as [Hlt|Hle]; cbn [fst snd].
    + exists s. rewrite (w_bind_Err _ _ _ _ _ E0). split; [done|]. split; [done|]. eapply room_less; [|exact Hr]. lia.
    + destruct (inner_write_ok d s m lba _ n buf Hi Hb Hu Hr) as (s1 & E & Hi1 & Hr1). exists s1. split; [|done]. rewrite E in E0. by w_step E0.
  - destruct (inner_sync_ok d s m n Hi Hfit Hr) as (s1 & E & Hi1 & Hr1 & _). exists s1. cbn [fst snd]. split; [|done].
    assert (E1 : sync d s = Some (Ok (), s1)) by (unfold sync; by rewrite E). by w_step E1.
Qed.


(** ** Ranges with a hole *)

(** C29: a read of several blocks of which one was never written returns [Ok] and fills in only blocks that the cache or the write
    buffer holds: a block [b] that was written and is on the data disk is left out, and the caller keeps what its buffer held, as if
    it were the data read.  ([get_range] answers [NotFound] for the whole range, and [read] takes [NotFound] for an empty read.) *)
Theorem disk_read_hole d s m lba n buf i j b :
  disk_inv d s m → is_buf n buf → 1 < n → lba + n ≤ bs_nblocks d → usize_ok (lba + n) = true →
  j < n → m !! (lba + j) = None →
  i < n → m !! (lba + i) = Some b → (∀ b', ¬ rc_has (read_cache s) (lba + i) b') → db_get (data_buf s) (lba + i) = None →
  ∃ s' buf', read d lba buf s = Some (Ok buf', s') ∧ disk_inv d s' m ∧ length buf' = length buf ∧ nth_block buf' i = nth_block buf i.
Proof.
  intros Hi Hb Hn Hle Hu Hj Hmj Hin Hmi Hnc Hnb. unfold read, check_rw_args. rewrite (nblocks_of_is_buf _ _ Hb), (uadd_ok _ _ Hu), bind_Ok.
  rewrite (proj2 (Nat.ltb_ge _ _)) by lia. rewrite w_bind_lift. unfold inner_read. rewrite (nblocks_of_is_buf _ _ Hb), (proj2 (Nat.eqb_neq _ _)) by lia.
  destruct (read_multi_ok d s m lba n [buf] Hi (bufs_ok_one _ _ Hb) ltac:(lia) Hu) as (r & [s1 bufs1] & E & Hi1 & Hs1 & He). cbn [fst snd] in *.
  destruct He as [[-> (_ & _ & Hall & _)]|(-> & _ & F & (Hb1 & _ & _ & Hout) & HF)]; [rewrite (Hall j Hj I) in Hmj; done|].
  assert (E1 : readv_bufs d lba [buf] s = Some (Ok bufs1, s1)) by (unfold readv_bufs, inner_readv; by rewrite E). w_step E1.
  exists s1, (concat bufs1). split; [done|]. split; [done|]. destruct Hb as [_ Hl]. split; [rewrite Hl; apply Hb1|]. rewrite Hout; [cbn; by rewrite app_nil_r|done|].
  intros [[b' Hb']|[b' Hb']]%HF; [by destruct (Hnc b')|]. unfold db_get in Hnb. congruence.
Qed.

(** ** Requests that run at the same time *)

(** C30: a read takes no lock, so a write may come between the moment a read has fetched a block and the moment it puts it in the
    cache: the cache then holds the old block, and reads answer with it after the write has returned, although the new block is
    the one that the buffer or the table holds. *)
Theorem stale_read_cached d s m lba old new :
  disk_inv d s m → m !! lba = Some old → (∀ b, ¬ rc_has (read_cache s) lba b) → room s 1 → length new = BLOCK_SIZE → usize_ok (lba + 1) = true →
  ∃ s1 s2 s3 s4, read_fetch d lba s = Some (Ok (Miss old), s1) ∧ write_block d lba new s1 = Some (Ok (lba + 1), s2) ∧
    disk_inv d s2 (<[lba := new]> m) ∧ read_fill lba (Miss old) s2 = Some (Ok old, s3) ∧ read_one_block d lba s3 = Some (Ok old, s4).
Proof.
  intros Hi Hm Hnc Hr Hl Hu. destruct (read_fetch_ok d s m lba Hi) as (r & s1 & E1 & Hi1 & Hs1 & _ & Hf). rewrite Hm in Hf.
  destruct Hf as [[_ Hc]|[-> _]]; [by destruct (Hnc old)|]. destruct (write_block_ok d s1 m 0 lba new Hi1 (room_same _ _ _ Hs1 Hr) Hl Hu) as (s2 & E2 & Hi2 & _).
  destruct (rc_put_ok (read_cache s2) lba old (di_cache_wf _ _ _ Hi2) (di_len _ _ _ Hi _ _ Hm)) as (c & Hput & Hw & _ & Hhas & Hold & _).
  destruct (rc_get_ok c lba Hw) as (o & c' & Hget & _ & _ & _ & Ho). exists s1, s2, (with_cache s2 c), (with_cache s2 c').
  split; [done|]. split; [done|]. split; [done|]. split.
  - cbn [read_fill]. assert (E : SwornDisk.cache_put lba old s2 = Some (Ok (), with_cache s2 c)) by (unfold SwornDisk.cache_put; w_next; by rewrite Hput). by w_step E.
  - destruct o as [b|]; [|by destruct (Ho old)]. destruct (Hold lba b Ho) as [[_ ->]|[? _]]; [|done].
    assert (E : SwornDisk.cache_get lba (with_cache s2 c) = Some (Ok (Some old), with_cache s2 c')) by (unfold SwornDisk.cache_get; w_next; cbn [read_cache with_cache]; by rewrite Hget).
    assert (E4 : read_fetch d lba (with_cache s2 c) = Some (Ok (Hit old), with_cache s2 c')) by (unfold read_fetch; by w_step E).
    unfold read_one_block. by w_step E4.
Qed.

(** Changes of the cache and the buffer do not reach the table, nor do they see it. *)
Lemma table_puts_swap (rs : list (nat * RecordValue A)) : ∀ s s' (bf : DataBuf) (c : ReadCache),
  w_fold (λ _ r, table_put r.1 r.2) () rs s = Some (Ok (), s') →
  w_fold (λ _ r, table_put r.1 r.2) () rs (with_cache (with_buf s bf) c) = Some (Ok (), with_cache (with_buf s' bf) c).
Proof.
  induction rs as [|r rs IH]; intros s s' bf c; cbn [w_fold]; [by intros [= <-]|]. intros H.
  apply w_bind_inv in H as [([] & s1 & E1 & E2)|[(e & _ & ?)|[_ ?]]]; [|done..].
  assert (E : table_put r.1 r.2 (with_cache (with_buf s bf) c) = Some (Ok (), with_cache (with_buf s1 bf) c)).
  { unfold table_put in *. change (meta_of (with_cache (with_buf s bf) c)) with (meta_of s). destruct (tb_put _ _ _) as [x mt]. by injection E1 as -> <-. }
  w_step E. by apply IH.
Qed.

(** C31: [submit_bio_sync] takes none of the locks of [write] and [sync], so a write may come between the two halves of the flush of a
    sync, after the buffered blocks are written out and before the buffer is cleared.  The write returns, and the clear drops its
    block: once the cache has lost it too, a read answers as if the write had never been. *)
Theorem bio_sync_loses_write d s m lba b c :
  disk_inv d s m → room s 1 → S (db_nblocks (data_buf s)) < db_cap (data_buf s) → length b = BLOCK_SIZE → usize_ok (lba + 1) = true →
  rc_wf c → (∀ k b', ¬ rc_has c k b') →
  ∃ rs s1 s2 s3 s4, write_blocks_from_data_buf d s = Some (Ok rs, s1) ∧ write_block d lba b s1 = Some (Ok (lba + 1), s2) ∧
    flush_records rs s2 = Some (Ok (), s3) ∧ disk_inv d (with_cache s3 c) m ∧
    read_one_block d lba (with_cache s3 c) = Some (match m !! lba with Some old => Ok old | None => Err NotFound end, s4).
Proof.
  intros Hi Hr Hcap Hl Hu Hw Hc. pose proof Hr as (Hf & Hfree & Hroom).
  destruct (write_out_ok d s m Hi ltac:(lia)) as (rs & st & dr & al & E1 & _). set (s1 := with_disk (with_draws (with_alloc s al) dr) st) in *.
  destruct (disk_flush_ok d s m Hi ltac:(lia) ltac:(lia)) as (sf & Ef & Hif & Hbf & Hcf & _). unfold flush_data_buf in Ef. rewrite (w_bind_Ok _ _ _ _ _ E1) in Ef.
  unfold flush_records in Ef. apply w_bind_inv in Ef as [([] & sp & Ep & Ef)|[(e & _ & ?)|[_ ?]]]; [|done..].
  rewrite (w_bind_Ok _ _ _ sp sp) in Ef by done. injection Ef as <-. cbn in Hbf, Hcf.
  destruct (db_put_ok (data_buf s) lba b (di_buf_ok _ _ _ Hi) Hf Hl) as (full & buf & Hput & Hok & Hbuf & Hcp & Hfull).
  destruct (rc_put_ok (read_cache s) lba b (di_cache_wf _ _ _ Hi) Hl) as (c1 & Hc1 & _). set (s2 := with_cache (with_buf s1 buf) c1).
  assert (Hn : db_nblocks buf ≤ S (db_nblocks (data_buf s))).
  { unfold db_nblocks. rewrite Hbuf. destruct (db_buf (data_buf s) !! lba) eqn:E; [rewrite map_size_insert_Some by by eexists|rewrite map_size_insert_None by done]; lia. }
  assert (full = false) as ->. { destruct Hok as (_ & Hfl & _). rewrite Hfull, Hfl. apply Nat.leb_gt. fold (db_nblocks buf). lia. }
  assert (E2 : write_block d lba b s1 = Some (Ok (lba + 1), s2)).
  { unfold write_block. assert (Ea : buf_put lba b s1 = Some (Ok false, with_buf s1 buf)) by (unfold buf_put; w_next; cbn [data_buf s1 with_disk with_draws with_alloc]; by rewrite Hput).
    w_step Ea. assert (Eb : SwornDisk.cache_put lba b (with_buf s1 buf) = Some (Ok (), s2)) by (unfold SwornDisk.cache_put; w_next; cbn [read_cache s1 with_disk with_draws with_alloc with_buf]; by rewrite Hc1).
    w_step Eb. w_next. by rewrite uadd_ok. }
  set (s3 := with_buf (with_cache (with_buf sp buf) c1) (db_clear buf)).
  assert (E3 : flush_records rs s2 = Some (Ok (), s3)) by (unfold flush_records; rewrite (w_bind_Ok _ _ _ _ _ (table_puts_swap _ _ _ buf c1 Ep)); done).
  assert (Hi3 : disk_inv d (with_cache s3 c) m).
  { apply (inv_same d (with_buf sp (db_clear (data_buf sp)))); [done| |done|by intros k b' Hh%Hc]. split; [|by split_and!]. cbn. rewrite Hbf. unfold db_clear. by rewrite Hcp. }
  destruct (read_one_ok d (with_cache s3 c) m lba Hi3) as (r & s4 & E4 & _ & _ & ->). exists rs, s1, s2, s3, s4. by split_and!.
Qed.

(** C32: a write request that reaches beyond the end of the disk is refused by [write] and carried out by [submit_bio_sync], which checks no
    bounds: the request completes with success and the blocks, addresses without a place on the disk included, are part of the array. *)
Theorem bio_write_unbounded d s m lba n k buf nb f :
  disk_inv d s m → is_buf n buf → usize_ok (lba + n) = true → room s (n + k) → bs_nblocks d < lba + n →
  write d lba buf s = Some (Err OutOfDisk, s) ∧
  ∃ s', submit_bio_sync d (mkBioReq Write lba nb [buf] Init f) s = Some (Ok (Ok (), mkBioReq Write lba nb [] (Completed (Ok ())) f, []), s') ∧
    disk_inv d s' (put_blocks m lba (blocks_from buf 0 n)) ∧ room s' k.
Proof.
  intros Hi Hb Hu Hr Hlt. pose proof (nblocks_of_is_buf _ _ Hb) as Hn. split.
  { unfold write, check_rw_args. by rewrite Hn, (uadd_ok _ _ Hu), bind_Ok, (proj2 (Nat.ltb_lt _ _)). }
  destruct (inner_write_ok d s m lba n k buf Hi Hb Hu Hr) as (s' & E & Hi' & Hr'). exists s'. split; [|done].
  assert (Ew : do_write d (mkBioReq Write lba nb [buf] Submitted f) s = Some (Ok (), s')).
  { unfold do_write. cbn [type_ take_bufs bufs addr]. rewrite bool_decide_eq_true_2 by done. cbn [assert_]. rewrite w_bind_lift. cbn [foldM].
    rewrite (proj2 (try_from_is_buf buf)) by by rewrite Hn. rewrite bind_Ok. cbn [app]. rewrite w_bind_lift.
    unfold inner_writev. cbn [w_fold]. assert (E1 : (_ ← inner_write d lba buf; w_lift (uadd lba (nblocks_of buf))) s = Some (Ok (lba + n), s')).
    { w_step E. by rewrite Hn, (uadd_ok _ _ Hu). }
    erewrite w_bind_Ok; [reflexivity|]. w_step E1. reflexivity. }
  unfold submit_bio_sync. cbn [submit status]. rewrite w_bind_lift. unfold handle_bio_req, with_status. cbn [type_ addr bufs on_complete DiskBio.nblocks]. by rewrite Ew.
Qed.

(** ** Flushes that fail *)

(** A computation that, from a state whose buffer is [w0], leaves it so. *)
Definition keeps_buf (w0 : DataBuf) {X} (f : wio (Disk T St) X) : Prop :=
  ∀ s r s', data_buf s = w0 → f s = Some (r, s') → data_buf s' = w0.

Lemma kb_ret w0 {X} (x : X) : keeps_buf w0 (mret x).
Proof. by intros s r s' Hb [= _ <-]. Qed.
Lemma kb_lift w0 {X} (x : res X) : keeps_buf w0 (w_lift x).
Proof. by intros s r s' Hb [= _ <-]. Qed.
Lemma kb_wait w0 {X} : keeps_buf w0 (w_wait : wio (Disk T St) X).
Proof. by intros s r s' Hb. Qed.
Lemma kb_put w0 s1 : data_buf s1 = w0 → keeps_buf w0 (w_put s1).
Proof. by intros H1 s r s' Hb [= _ <-]. Qed.
Lemma kb_bind w0 {X Y} (f : wio (Disk T St) X) (g : X → wio (Disk T St) Y) : keeps_buf w0 f → (∀ x, keeps_buf w0 (g x)) → keeps_buf w0 (f ≫= g).
Proof.
  intros Hf Hg s r s' Hb H. apply w_bind_inv in H as [(x & s1 & E1 & E2)|[(e & E & _)|[E _]]]; [|by apply (Hf s _ s' Hb E)..].
  by apply (Hg x s1 r s' (Hf s _ s1 Hb E1)).
Qed.
Lemma kb_get w0 {Y} (g : Disk T St → wio (Disk T St) Y) : (∀ s, data_buf s = w0 → keeps_buf w0 (g s)) → keeps_buf w0 (w_get ≫= g).
Proof. intros Hg s r s' Hb H. by apply (Hg s Hb s r s' Hb). Qed.
Lemma kb_fold w0 {X Y} (f : Y → X → wio (Disk T St) Y) l : (∀ y x, keeps_buf w0 (f y x)) → ∀ y, keeps_buf w0 (w_fold f y l).
Proof. intros Hf. induction l as [|x l IH]; intros y; cbn [w_fold]; [apply kb_ret|]. by apply kb_bind. Qed.
Lemma kb_table_put w0 k v : keeps_buf w0 (table_put k v).
Proof. intros s r s' Hb. unfold table_put. destruct (tb_put _ _ _) as [x mt]. by intros [= _ <-]. Qed.

Ltac keeps_buf_tac :=
  repeat match goal with
  | |- keeps_buf _ (mret _) => apply kb_ret
  | |- keeps_buf _ (w_lift _) => apply kb_lift
  | |- keeps_buf _ w_wait => apply kb_wait
  | |- keeps_buf _ (w_put _) => apply kb_put; by subst
  | |- keeps_buf _ (table_put _ _) => apply kb_table_put
  | |- keeps_buf _ (w_fold _ _ _) => apply kb_fold; intros ? ?
  | |- keeps_buf _ (w_get ≫= _) => apply kb_get; intros ? ?
  | |- keeps_buf _ (_ ≫= _) => apply kb_bind; [|intros ?]
  | |- keeps_buf _ (match ?x with _ => _ end) => destruct x
  end.

Lemma kb_write_out w0 d : keeps_buf w0 (write_blocks_from_data_buf d).
Proof. unfold write_blocks_from_data_buf, write_batch, seal_block. keeps_buf_tac. Qed.

Lemma flush_err_buf d s e s' : flush_data_buf d s = Some (Err e, s') → data_buf s' = data_buf s.
Proof.
  intros H. apply w_bind_inv in H as [(rs & s1 & E1 & E2)|[(e' & E & _)|[_ ?]]]; [|by apply (kb_write_out _ d s _ s' eq_refl E)|done].
  rewrite <- (kb_write_out _ d s _ s1 eq_refl E1). apply w_bind_inv in E2 as [([] & s2 & E2 & E3)|[(e' & E & _)|[_ ?]]]; [done| |done].
  refine (kb_fold _ _ rs _ () s1 _ s' eq_refl E). intros [] r. apply kb_table_put.
Qed.

(** C33: a write whose flush fails leaves the buffer full, and nothing clears the flag that makes writers wait: every later write waits,
    for ever as far as writes go, since only a writer that found room flushes. *)
Theorem failed_flush_blocks_writers d s lba b e s' :
  db_ok (data_buf s) → rc_wf (read_cache s) → length b = BLOCK_SIZE → write_block d lba b s = Some (Err e, s') →
  db_get (data_buf s') lba = Some b ∧ db_is_full (data_buf s') = true ∧
  ∀ lba' b', length b' = BLOCK_SIZE → write_block d lba' b' s' = None.
Proof.
  intros Hok Hw Hl H. assert (Hwait : ∀ s1, db_is_full (data_buf s1) = true → ∀ lba' b', length b' = BLOCK_SIZE → write_block d lba' b' s1 = None).
  { intros s1 Hf lba' b' Hb'.     assert (E : nblocks_of b' =? 1 = true) by (unfold nblocks_of; rewrite Hb', Nat.div_same by (pose proof BLOCK_SIZE_pos; lia); done).
    apply w_bind_None. unfold buf_put. w_next. unfold db_put. rewrite E. cbn [assert_]. by rewrite bind_Ok, Hf. }
  destruct (db_is_full (data_buf s)) eqn:Hf; [by rewrite Hwait in H|].
  destruct (db_put_ok (data_buf s) lba b Hok Hf Hl) as (full & buf & Hput & _ & Hbuf & _ & Hfull).
  destruct (rc_put_ok (read_cache s) lba b Hw Hl) as (c & Hc & _). unfold write_block in H.
  assert (E1 : buf_put lba b s = Some (Ok full, with_buf s buf)) by (unfold buf_put; w_next; rewrite Hput; done). rewrite (w_bind_Ok _ _ _ _ _ E1) in H.
  assert (E2 : SwornDisk.cache_put lba b (with_buf s buf) = Some (Ok (), with_cache (with_buf s buf) c)) by (unfold SwornDisk.cache_put; w_next; cbn [read_cache with_buf]; by rewrite Hc).
  rewrite (w_bind_Ok _ _ _ _ _ E2) in H. apply w_bind_inv in H as [(x & s1 & _ & H)|[(e' & E3 & _)|[_ ?]]]; [|destruct full; [|done]|done].
  - unfold w_lift, uadd in H. by destruct (_ <=? _)%N.
  - apply flush_err_buf in E3. cbn in E3. split; [|split; [|apply Hwait]]; rewrite E3; [unfold db_get; rewrite Hbuf; apply lookup_insert_eq|done..].
Qed.

(** ** A new disk *)

(** A disk made by [create] stands for the array with no block written, if the formatted tree is empty and formatting the log store
    leaves the data part of the host disk valid. *)
Theorem create_empty {L} (store_format : D → St → res (L * AllocStore * St))
    (tree_format : L → AllocTable * AllocStore → res (T * AllocTable * AllocStore)) (disk : D) (x0 : St) cap drawn s d :
  (∀ ld l ast x1, store_format ld x0 = Ok (l, ast, x1) → bs_valid d x1) →
  (∀ l al ast t al' ast', at_wf al → tree_format l (al, ast) = Ok (t, al', ast') →
     tb_map t = ∅ ∧ tb_refs t = ∅ ∧ at_wf al' ∧ BlockAlloc.nblocks al' = BlockAlloc.nblocks al) →
  0 < default DEFAULT_DATA_BUF_CAP cap → create store_format tree_format disk x0 cap drawn = Ok (s, d) → disk_inv d s ∅.
Proof.
  intros Hst Htr Hcap H. unfold create in H. apply bind_inv in H as (dd & Hd & H). apply bind_inv in H as (ld & _ & H).
  apply bind_inv in H as ([[l ast] s1] & Hs1 & H). apply bind_inv in H as (u & Hpos & H). apply bind_inv in H as ([[t al] ast1] & Ht & H).
  apply bind_inv in H as (c & Hc & [= <- <-]). unfold assert_ in Hpos. destruct (Nat.ltb_spec 0 (bs_nblocks dd)) as [Hp|]; [|done].
  destruct (rc_new_wf DEFAULT_READ_CACHE_CAP) as (c' & Hc' & Hw & _ & Hno); [unfold DEFAULT_READ_CACHE_CAP; lia|]. assert (c' = c) as -> by congruence.
  destruct (Htr _ _ _ _ _ _ (AllocTable_new_wf _ Hp) Ht) as (Hm & Hr & Hal & Hn). split; cbn.
  - by eapply Hst.
  - done.
  - by rewrite Hn.
  - rewrite Hr. by intros i Hi%elem_of_empty.
  - done.
  - by intros k b Hh%Hno.
  - by apply db_new_ok.
  - intros k b. by rewrite lookup_empty.
  - intros k _. by rewrite Hm, !lookup_empty.
  - intros k b. by rewrite lookup_empty.
Qed.
End props.
