(* ===== verification/SwornDiskDemo.v ===== *)
(** * SwornDiskDemo: a disk whose table is a map, and what the theorems say of it

    [MapTable] keeps the records in memory and, as [TxLsmTree::put] does for a record it replaces in the memtable, frees the host block of the
    old one.  It satisfies [BlockTableSpec]. *)
From S2P Require Import Prelude BitMap Bio CryptoChain CryptoLog CryptoLogProps RangeQuery MemTable BlockAlloc RawLog DiskBio DataBuf ReadCache SwornDisk SwornDiskSpec SwornDiskRead SwornDiskProps.

Abbreviation MapTable A := (gmap nat (RecordValue A)).

Section map_table.
Context {A : Aead} {B : Bittle} {HB : BittleSpec B}.
Implicit Types m : MapTable A.

Definition map_refs m : gset nat := map_img (hba <$> m).

Lemma elem_of_refs m h : h ∈ map_refs m ↔ ∃ k v, m !! k = Some v ∧ hba v = h.
Proof.
  unfold map_refs. rewrite elem_of_map_img. setoid_rewrite lookup_fmap. setoid_rewrite fmap_Some. naive_solver.
Qed.

Definition map_put (k : nat) (v : RecordValue A) (s : MapTable A * AllocTable * AllocStore) : res unit * (MapTable A * AllocTable * AllocStore) :=
  let '(m, al, st) := s in
  let m' : MapTable A := <[k := v]> m in
  match m !! k with
  | Some old =>
      if decide (hba old ∈ map_refs m') then (Ok (), (m', al, st)) else
      match on_drop_record_in_memtable (hba old) al with
      | Ok al' => (Ok (), (m', al', st))
      | Err e => (Err e, (m', al, st))
      | Panic => (Panic, (m', al, st))
      end
  | None => (Ok (), (m', al, st))
  end.

Definition map_records m (a n : nat) : list (nat * ValueEx (RecordValue A)) :=
  map (λ x, (x.1, Unsynced x.2)) (bt_range m (λ k, (a <=? k) && (k <? a + n))).

Definition map_get_range (q : RangeQueryCtx (RecordValue A)) m : res unit * RangeQueryCtx (RecordValue A) * MapTable A :=
  match foldM (λ c '(k, v_ex), RangeQuery.complete c k (ValueEx_get v_ex)) q (map_records m (start q) (num_values q)) with
  | Ok q' => (if is_completed q' then Ok () else Err NotFound, q', m)
  | Err e => (Err e, q, m)
  | Panic => (Panic, q, m)
  end.

#[export] Instance map_table : BlockTable A B (MapTable A) := {|
  tb_get k m := (match m !! k with Some v => Ok v | None => Err NotFound end, m);
  tb_get_range := map_get_range;
  tb_put := map_put;
  tb_sync s := (Ok (), s);
  tb_store_sync m := (Ok (), m);
|}.

Lemma map_get_range_ok m q : ctx_wf q → is_completed q = false →
  ∃ r q', map_get_range q m = (r, q', m) ∧
    ((∀ j, j < num_values q → slot_done q j = false → is_Some (m !! (start q + j))) →
      r = Ok () ∧ ctx_wf q' ∧ is_completed q' = true ∧ start q' = start q ∧ num_values q' = num_values q ∧
      ∀ k v, (k, v) ∈ results q' ↔ (k, v) ∈ results q ∨
        (start q ≤ k < start q + num_values q ∧ slot_done q (k - start q) = false ∧ m !! k = Some v)) ∧
    (∀ j, j < num_values q → slot_done q j = false → m !! (start q + j) = None → r = Err NotFound).
Proof.
  intros Hq _. unfold map_get_range. set (L := map_records m (start q) (num_values q)).
  assert (HL : ∀ k w, (k, w) ∈ L ↔ ∃ v, w = Unsynced v ∧ m !! k = Some v ∧ start q ≤ k < start q + num_values q).
  { intros k w. unfold L, map_records. rewrite list_elem_of_fmap. split.
    - intros ([k' v] & [= -> ->] & [Hm Hk]%elem_of_bt_range). apply andb_true_iff in Hk as [H1%Nat.leb_le H2%Nat.ltb_lt]. by exists v.
    - intros (v & -> & Hm & Hk). exists (k, v). split; [done|]. apply elem_of_bt_range. split; [done|].
      apply andb_true_iff. split; [apply Nat.leb_le|apply Nat.ltb_lt]; lia. }
  assert (Hkeys : L.*1 = (bt_range m (λ k, (start q <=? k) && (k <? start q + num_values q))).*1) by (unfold L, map_records; by rewrite <- list_fmap_compose).
  destruct (complete_all L q Hq) as (q' & -> & Hq' & Hs & Hn & Hd & Hres); [rewrite Hkeys; apply NoDup_bt_range|intros k v (? & _ & _ & ?)%HL; done|].
  assert (Hin : ∀ k, start q ≤ k < start q + num_values q → k ∈ L.*1 ↔ is_Some (m !! k)).
  { intros k Hk. rewrite list_elem_of_fmap. split; [intros ([k' w] & -> & (v & _ & Hm & _)%HL); by exists v|].
    intros [v Hm]. exists (k, Unsynced v). split; [done|]. apply HL. by exists v. }
  eexists _, _. split; [done|]. split.
  - intros Hall. assert (Hc : is_completed q' = true).
    { apply is_completed_iff; [done|]. intros j Hj. rewrite Hd. destruct (slot_done q j) eqn:Ej; [done|]. rewrite bool_decide_eq_true_2; [done|].
      rewrite Hn in Hj. apply Hin; [lia|]. by apply Hall. }
    rewrite Hc. split_and!; try done. intros k v. rewrite Hres. split.
    + intros [?|[Hdk (w & (v' & -> & Hm & Hk)%HL & ->)]]; [by left|]. right. done.
    + intros [?|(Hk & Hdk & Hm)]; [by left|]. right. split; [done|]. exists (Unsynced v). split; [|done]. apply HL. by exists v.
  - intros j Hj Hdj Hm. destruct (is_completed q') eqn:Ec; [|done]. rewrite is_completed_iff in Ec by done. rewrite Hn in Ec. specialize (Ec j Hj).
    rewrite Hd, Hdj in Ec. cbn in Ec. apply bool_decide_eq_true_1, Hin in Ec; [|lia]. rewrite Hm in Ec. by destruct Ec.
Qed.

Lemma frees_refl refs al : at_wf al → frees_only refs al al.
Proof. intros Hw. split; [done|]. split; [done|]. split; [lia|by left]. Qed.

Lemma map_put_ok m al st k v :
  at_wf al → blocks_in_use (map_refs m) al → hba v ∉ map_refs m → hba v < BlockAlloc.nblocks al → is_free al (hba v) = false →
  ∃ al', map_put k v (m, al, st) = (Ok (), (<[k := v]> m, al', st)) ∧
    map_refs (<[k := v]> m) ⊆ {[hba v]} ∪ map_refs m ∧ blocks_in_use (map_refs (<[k := v]> m)) al' ∧ frees_only (map_refs m) al al'.
Proof.
  intros Hw Hu Hni Hlt Hf. set (m' := <[k := v]> m : MapTable A).
  assert (Hsub : ∀ i, i ∈ map_refs m' → i = hba v ∨ i ∈ map_refs m).
  { intros i (k' & v' & Hk' & <-)%elem_of_refs. unfold m' in Hk'. destruct (decide (k = k')) as [<-|Hne].
    - rewrite lookup_insert_eq in Hk'. injection Hk' as <-. by left.
    - rewrite lookup_insert_ne in Hk' by done. right. apply elem_of_refs. by exists k', v'. }
  assert (Hsub' : map_refs m' ⊆ {[hba v]} ∪ map_refs m) by (intros i [->|Hi]%Hsub; apply elem_of_union; [left; by apply elem_of_singleton|by right]).
  assert (Hin : blocks_in_use (map_refs m') al) by (intros i [->|Hi]%Hsub; [done|by apply Hu]).
  pose proof (frees_refl (map_refs m) al Hw) as Hsame.
  unfold map_put. fold m'. destruct (m !! k) as [old|] eqn:Eo; [|by exists al]. destruct (decide (hba old ∈ map_refs m')) as [Hd|Hd]; [by exists al|].
  assert (Ho : hba old ∈ map_refs m) by (apply elem_of_refs; by exists k, old). destruct (Hu _ Ho) as [Ho1 Ho2].
  destruct (set_deallocated_ok al (hba old) Hw Ho1 Ho2) as (x & al' & E & Hw' & Hn' & Hnf & Hfr). unfold on_drop_record_in_memtable. rewrite E, bind_Ok.
  exists al'. split; [done|]. split; [done|]. split.
  - intros i Hi. destruct (Hin i Hi) as [H1 H2]. rewrite Hn'. split; [done|]. rewrite Hfr. by destruct (Nat.eqb_spec i (hba old)) as [->|Hne].
  - split; [done|]. split; [done|]. split; [lia|]. intros i. rewrite Hfr. destruct (Nat.eqb_spec i (hba old)) as [->|_]; [by right|by left].
Qed.

#[export] Program Instance map_table_spec : BlockTableSpec A B (MapTable A) := {|
  tb_map m := m;
  tb_refs := map_refs;
  tb_room _ := 64;
|}.
Next Obligation. intros m k v Hk. apply elem_of_refs. by exists k, v. Qed.
Next Obligation. intros m k. by exists m. Qed.
Next Obligation. intros m q Hq Hc. destruct (map_get_range_ok m q Hq Hc) as (r & q' & E & H). by exists r, q', m. Qed.
Next Obligation.
  intros m al st k v Hw Hu _ Hni Hlt Hf. destruct (map_put_ok m al st k v Hw Hu Hni Hlt Hf) as (al' & E & H1 & H2 & H3).
  exists (<[k := v]> m), al', st. split_and!; try done. lia.
Qed.
Next Obligation. intros m al st Hw Hu _. exists m, al, st. pose proof (frees_refl (map_refs m) al Hw). split_and!; try done. lia. Qed.
Next Obligation. intros m _. exists m. split_and!; try done. lia. Qed.
End map_table.

(** ** A disk of sixteen blocks *)
Module ToyDisk.
Import ToyMht.
#[export] Existing Instance BittleZ.
#[export] Existing Instance BittleZ_spec.
#[export] Existing Instance RawLog.FunDisk.
#[export] Existing Instance RawLog.FunDisk_spec.
#[export] Existing Instance zero_pages.
#[export] Existing Instance zero_pages_spec.
#[export] Existing Instance listPostcard.
#[export] Instance toy_zero_iv : ZeroIv toy := 0%Z.

Abbreviation ToyState := (Disk (MapTable toy) (nat → list byte)).

(** No block written yet; the buffer holds [cap] blocks. *)
Definition disk0 (cap : nat) (c : ReadCache) : ToyState :=
  mkDisk ∅ (AllocTable_new 16) (mkAllocStore None None) (λ _, block 0) (DataBuf_new cap) c 0.

Lemma disk0_inv cap c : 0 < cap → rc_wf c → (∀ k b, ¬ rc_has c k b) → disk_inv 16 (disk0 cap c) ∅.
Proof.
  intros Hcap Hw Hno. split; cbn [data_disk alloc table read_cache data_buf disk0].
  - intros i _. apply length_replicate.
  - apply AllocTable_new_wf. lia.
  - done.
  - by intros i (k & v & Hk & _)%elem_of_refs.
  - done.
  - by intros k b Hh%Hno.
  - by apply db_new_ok.
  - intros k b Hk. exact (False_ind _ (eq_ind None (λ o, match o with None => True | Some _ => False end) I _ Hk)).
  - intros k _. by rewrite !lookup_empty.
  - intros k b. by rewrite lookup_empty.
Qed.

Lemma disk0_room cap c n : 0 < cap → n ≤ 16 → room (disk0 cap c) n.
Proof. intros Hc Hn. split; [done|]. change (n ≤ 16 ∧ n ≤ 64). lia. Qed.

Lemma toy_bitmap_fits : bitmap_fits (PC := listPostcard) 16.
Proof.
  intros bm [Hw _] Hn. change (bs_nblocks 16) with 16 in Hn. cbn [pc_to_bytes listPostcard length]. rewrite Hw, Hn.
  replace ((16 + 63) / 64) with 1 by done. with_strategy transparent [BLOCK_SIZE] (apply Nat.leb_le; vm_compute; reflexivity).
Qed.

(** Block 0 is on the data disk, in the host block [h], and neither in the cache nor in the buffer. *)
Definition disk1 (h : nat) (al : AllocTable) (c : ReadCache) : ToyState :=
  mkDisk {[0 := mkRecordValue toy h 0%Z (block 1)]} al (mkAllocStore None None) (λ _, map (λ b, (b + 0)%Z) (block 1)) (DataBuf_new 4) c 0.

Lemma disk1_inv c : rc_wf c → (∀ k b, ¬ rc_has c k b) → ∃ h al, disk_inv 16 (disk1 h al c) {[0 := block 1]} ∧ room (disk1 h al c) 8.
Proof.
  intros Hw Hno. destruct (table_alloc_batch_ok (AllocTable_new 16) 1) as (hbas & al & _ & Hwa & Hl & _ & _ & Hnb & Hnf & Hin & Hfr); [apply AllocTable_new_wf; lia|cbn; lia|].
  destruct hbas as [|h [|]]; [done| |done]. destruct (Hin h ltac:(by left)) as [Hh _]. exists h, al.
  assert (Hf : is_free al h = false) by (rewrite Hfr, bool_decide_eq_true_2 by (by left); apply andb_false_r).
  assert (Hdec : aead_decrypt (Aead := toy) (map (λ b, (b + 0)%Z) (block 1)) 0%Z toy_zero_iv [] (block 1) = Ok (block 1)).
  { by apply (decrypt_encrypt (A := toy) (block 1) 0%Z toy_zero_iv []). }
  split; [|split; [done|]; change (num_free al) with (num_free al); cbn [alloc disk1]; change (8 ≤ num_free al ∧ 8 ≤ 64); cbn in Hnf; lia].
  split; cbn [data_disk alloc table read_cache data_buf disk1].
  - intros i _. rewrite length_map. apply length_replicate.
  - done.
  - exact Hnb.
  - intros i (k & v & [_ <-]%lookup_singleton_Some & <-)%elem_of_refs. rewrite Hnb. by split.
  - done.
  - intros k b Hh'. destruct (Hno _ _ Hh').
  - apply db_new_ok. lia.
  - intros k b Hk. exact (False_ind _ (eq_ind None (λ o, match o with None => True | Some _ => False end) I _ Hk)).
  - intros k _. destruct (decide (0 = k)) as [<-|Hne].
    + rewrite lookup_singleton_eq. eexists. split; [apply lookup_singleton_eq|]. split; [exact Hh|exact Hdec].
    + rewrite lookup_singleton_ne by done. by apply lookup_singleton_ne.
  - intros k b [_ <-]%lookup_singleton_Some. apply length_replicate.
Qed.

(** The first write fills the buffer, the sync stores the rest. *)
Definition ops0 : list DiskOp := [OpWrite 0 (block 1 ++ block 2); OpSync; OpWrite 1 (block 3); OpRead 0 (block 0 ++ block 0); OpRead 15 (block 4 ++ block 4)].

Lemma two_blocks x y : is_buf 2 (block x ++ block y) ∧ nblocks_of (block x ++ block y) = 2.
Proof.
  assert (H : is_buf 2 (block x ++ block y)) by (split; [lia|]; unfold block; rewrite length_app, !length_replicate; lia).
  split; [done|]. by apply nblocks_of_is_buf.
Qed.

Lemma two_blocks_from x y : blocks_from (block x ++ block y) 0 2 = [block x; block y].
Proof.
  rewrite <- (blocks_from_concat [block x; block y]) by (repeat constructor; apply length_replicate). cbn [concat]. by rewrite app_nil_r.
Qed.

Lemma ops0_ok : ops_ok 16 ops0 ∅.
Proof.
  pose proof (two_blocks 1 2) as [H1 H2]. pose proof (two_blocks 0 0) as [H3 H4]. pose proof (two_blocks 4 4) as [H5 H6].
  unfold ops0. cbn [ops_ok op_ok array_step]. rewrite H2, H4, H6, !block_nblocks, two_blocks_from. cbn [Nat.ltb Nat.leb Nat.add snd put_blocks].
  split; [split; [exact H1|reflexivity]|]. split; [exact I|]. split; [split; [apply block_buf|reflexivity]|]. split; [|split; [|exact I]].
  - split; [exact H3|]. split; [reflexivity|]. intros _. right. intros [|[|j]] Hj; [by vm_compute; eauto..|lia].
  - split; [exact H5|]. split; [reflexivity|]. lia.
Qed.

Lemma ops0_results : (array_run 16 ops0 ∅).1 = [Ok []; Ok []; Ok []; Ok (block 1 ++ block 3); Err OutOfDisk].
Proof. with_strategy transparent [BLOCK_SIZE] (vm_compute; reflexivity). Qed.
End ToyDisk.

(** ** Witnesses *)
Import ToyMht ToyDisk.


Lemma disk_read_hole_witness :
  ∃ (s s' : ToyState) buf', disk_inv 16 s {[0 := block 1]} ∧ read 16 0 (block 7 ++ block 8) s = Some (Ok buf', s') ∧
    nth_block buf' 0 = nth_block (block 7 ++ block 8) 0.
Proof.
  destruct (rc_new_wf 4 ltac:(lia)) as (c & _ & Hw & _ & Hno). destruct (disk1_inv c Hw Hno) as (h & al & Hi & _).
  destruct (disk_read_hole 16 (disk1 h al c) {[0 := block 1]} 0 2 (block 7 ++ block 8) 0 1 (block 1) Hi) as (s' & buf' & E & _ & _ & Hb);
    [apply two_blocks|lia|cbn; lia|reflexivity|lia|reflexivity|lia|reflexivity|exact (Hno _)|reflexivity|]. exists (disk1 h al c), s', buf'. split; [exact Hi|]. split; [exact E|exact Hb].
Defined.

Lemma stale_read_cached_witness :
  ∃ s1 s2 s3 s4 : ToyState, write_block 16 0 (block 2) s1 = Some (Ok 1, s2) ∧ disk_inv 16 s2 (<[0 := block 2]> {[0 := block 1]}) ∧
    read_fill 0 (Miss (block 1)) s2 = Some (Ok (block 1), s3) ∧ read_one_block 16 0 s3 = Some (Ok (block 1), s4).
Proof.
  destruct (rc_new_wf 4 ltac:(lia)) as (c & _ & Hw & _ & Hno). destruct (disk1_inv c Hw Hno) as (h & al & Hi & Hr).
  destruct (stale_read_cached 16 (disk1 h al c) {[0 := block 1]} 0 (block 1) (block 2) Hi) as (s1 & s2 & s3 & s4 & _ & E2 & Hi2 & E3 & E4);
    [reflexivity|exact (Hno _)|apply (room_less _ 8); [lia|exact Hr]|apply length_replicate|reflexivity|]. exists s1, s2, s3, s4. split; [exact E2|]. split; [exact Hi2|]. split; [exact E3|exact E4].
Defined.

Lemma bio_sync_loses_write_witness :
  ∃ rs (s1 s2 s3 s4 : ToyState) c, write_block 16 0 (block 2) s1 = Some (Ok 1, s2) ∧ flush_records rs s2 = Some (Ok (), s3) ∧
    read_one_block 16 0 (with_cache s3 c) = Some (Ok (block 1), s4).
Proof.
  destruct (rc_new_wf 4 ltac:(lia)) as (c & _ & Hw & _ & Hno). destruct (disk1_inv c Hw Hno) as (h & al & Hi & Hr).
  destruct (bio_sync_loses_write 16 (disk1 h al c) {[0 := block 1]} 0 (block 2) c Hi) as (rs & s1 & s2 & s3 & s4 & _ & E2 & E3 & _ & E4);
    [apply (room_less _ 8); [lia|exact Hr]|change (1 < 4); lia|apply length_replicate|reflexivity|exact Hw|exact Hno|]. exists rs, s1, s2, s3, s4, c. split; [exact E2|]. split; [exact E3|exact E4].
Defined.

(** The host disk is too small for the blocks of the allocator. *)
Lemma failed_flush_blocks_writers_witness :
  ∃ (c : ReadCache) (s : ToyState), ReadCache_new 2 = Ok c ∧ write_block 0 5 (block 1) (disk0 1 c) = Some (Err InvalidArgs, s) ∧
    write_block 0 6 (block 2) s = None.
Proof.
  destruct (rc_new_wf 2 ltac:(lia)) as (c & Hc & Hw & _ & Hno). exists c.
  assert (E : match ReadCache_new 2 with
              | Ok c => match write_block 0 5 (block 1) (disk0 1 c) with Some (Err InvalidArgs, _) => true | _ => false end
              | _ => false end = true) by with_strategy transparent [BLOCK_SIZE] (vm_compute; reflexivity).
  rewrite Hc in E. destruct (write_block 0 5 (block 1) (disk0 1 c)) as [[[|[]|] s]|] eqn:Ew; try discriminate E.
  destruct (failed_flush_blocks_writers 0 (disk0 1 c) 5 (block 1) _ s (db_new_ok 1 ltac:(lia)) Hw ltac:(apply length_replicate) Ew) as (_ & _ & Hwait).
  exists s. split; [exact Hc|]. split; [exact eq_refl|]. apply Hwait, length_replicate.
Defined.

(** Block 20 of a disk of sixteen blocks. *)
Lemma bio_write_unbounded_witness :
  ∃ c (s : ToyState), ReadCache_new 4 = Ok c ∧ write 16 20 (block 1) (disk0 2 c) = Some (Err OutOfDisk, disk0 2 c) ∧
    submit_bio_sync 16 (mkBioReq DiskBio.Write 20 1%N [block 1] Init None) (disk0 2 c)
      = Some (Ok (Ok (), mkBioReq DiskBio.Write 20 1%N [] (Completed (Ok ())) None, []), s).
Proof.
  destruct (rc_new_wf 4 ltac:(lia)) as (c & Hc & Hw & _ & Hno). exists c.
  destruct (bio_write_unbounded 16 (disk0 2 c) ∅ 20 1 0 (block 1) 1%N None (disk0_inv 2 c ltac:(lia) Hw Hno) (block_buf 1)) as (E1 & s & E2 & _);
    [reflexivity|apply disk0_room; lia|change (16 < 21); lia|]. exists s. split; [exact Hc|]. split; [exact E1|exact E2].
Defined.
